(* ===== verification/_CoqProject ===== *)
-Q . S2P
Prelude.v
GoMonad.v
GoRand.v
Postcard.v
PostcardFacts.v
GossipTypes.v
GossipWire.v
GossipWireFacts.v
Hyparview.v
HyparviewFacts.v
HyparviewProps.v
Plumtree.v
PlumtreeFacts.v
PlumtreeProps.v
PlumtreeLazy.v
GossipTopic.v
GossipTopicFacts.v
GossipTopicProps.v
GossipState.v
GossipStateProps.v
GoFloat.v
QuicVarint.v
RingBuffer.v
MinHeap.v
Protocol.v
WireBase.v
WireFrames.v
WireFramesFacts.v
WireAck.v
WireAckFacts.v
WireStream.v
WireStreamFacts.v
FrameParser.v
FrameParserFacts.v
FrameParserProps.v
ReceivedHistory.v
FlowControl.v
FlowControlProps.v
SendStream.v
SendStreamFacts.v
SendStreamWriting.v
SendStreamSending.v
SendStreamClosing.v
SendStreamFlight.v
SendStreamProps.v
FrameSorter.v
FrameSorterFacts.v
FrameSorterPush.v
FrameSorterProps.v
StreamTransfer.v
