(* ===== verification/Prelude.v ===== *)
(** * go-iroh: a verification of its protocol cores

    go-iroh (src/) is a Go implementation of iroh: QUIC connections between
    endpoints known by their keys, and protocols above them.  This development
    models the parts that are state machines, codecs and data structures, and
    proves what they promise.  It covers two layers.

    ** The gossip protocol, internal/gossipproto and internal/postcard

    A node joins topics.  Per topic a HyParView machine keeps a small active
    view and a larger passive view of peers, and a PlumTree machine broadcasts
    over the active view, pushing messages to eager peers and announcing them
    to lazy ones.  The machines do no I/O: [Handle] takes an event and appends
    output events.

    - [Postcard], [PostcardFacts]: postcard.go.  A [Codec] per reflect kind,
      the struct codec composing those of the fields; [Lawful] is the
      round trip and canonicity law that each codec discharges as an instance.
    - [GossipTypes], [GossipWire], [GossipWireFacts]: types.go and frame.go.  The
      messages, their codecs and the length-prefixed frames; a message decodes
      from its encoding and from nothing else, and frames are read back.
    - [Hyparview], [HyparviewFacts], [HyparviewProps]: hyparview.go.  Every
      handler; the views stay disjoint, duplicate free and within capacity,
      neighbor events determine the active view, random walks shrink.
    - [Plumtree], [PlumtreeFacts], [PlumtreeProps], [PlumtreeLazy]: plumtree.go.
      Every handler; book-keeping of announced messages, delivery at most once,
      forwarding, announcements that fit a frame, grafts in turn.
    - [GossipTopic] and its facts: topic.go, the two machines side by side.
      Every active neighbor is a broadcast peer along every run.
    - [GossipState], [GossipStateProps]: state.go, all topics of a node.  Topics
      are isolated, and a connection is given up only when every topic that uses
      it asks for that.

    ** The QUIC transport, internal/qng

    - [QuicVarint]: quicvarint/varint.go.  Both readers agree and read back what
      is written, padded or not.
    - [RingBuffer], [MinHeap]: internal/utils/ringbuffer and internal/utils/minheap.
      Any run of operations on the ring returns what a list used as a queue
      returns; any run on the heap what a list kept sorted returns.
    - [Protocol]: internal/protocol.  Stream numbers, connection identifiers and
      packet numbers, which the receiver recovers from their low bytes.
    - [WireBase], [WireFrames], [WireAck], [WireStream] and their facts:
      internal/wire, the codec of every frame type.  Each frame is parsed from what
      Append wrote, in the length Length gives; ACK frames are truncated and
      searched exactly, STREAM frames split without loss.
    - [FrameParser], [FrameParserFacts], [FrameParserProps]: frame_parser.go and the
      frame loop handleFrames of connection.go.  What is appended to a packet is
      handled by the receiving connection in order; on any bytes the loop ends
      without a panic and only well-formed frames reach the handlers.
    - [ReceivedHistory]: internal/ackhandler/received_packet_history.go.  The
      ranges acknowledged to the peer cover only received packets; queries are
      exact; a packet of a pruned range looks new again (a finding).
    - [FlowControl], [FlowControlProps]: flow_controller_base.go,
      flow_controller_connection.go, flow_controller_stream.go.  A connection and
      all its streams under any sequence of calls: the connection counts the sum
      of its streams, no limit is passed in either direction, limits never
      shrink, and errors are raised exactly when a limit is broken.
    - [SendStream]: send_stream.go, send_stream_buffer.go, send_stream_burst.go, every
      operation of a send stream under its mutex; a Write that waits is a parked
      call that is resumed.  [SendStreamFacts], [SendStreamWriting],
      [SendStreamSending] and [SendStreamClosing] hold the invariant of the data
      and what each operation does to it; [SendStreamFlight] relates the state to
      the frames in flight; [SendStreamProps] has the theorems: along any sequence
      of operations that sets no boundary after a reset nothing panics, every frame
      carries what was written at its offset, no byte the peer is owed is
      forgotten, and a stream is reported complete only when the peer has it.
      Three theorems characterise resets that go wrong on any reachable stream
      (findings): a boundary set late, a FIN on a frame cut short, and the count
      that an interrupted Write returns.
    - [FrameSorter], [FrameSorterFacts], [FrameSorterPush], [FrameSorterProps]:
      frame_sorter.go.  Pieces of a stream pushed in any order come out as the
      stream; nothing pushed is withheld; every buffer is released once.
    - [StreamTransfer]: the two ends of a stream.  Whatever the network does, the
      reader gets a prefix of what was written, and all of it once the stream was
      reported complete and the acknowledged frames have been read.

    ** Shared vocabulary

    This file has Go's fixed-width integers, bytes, [result] for fallible code,
    [outcome] for code that also panics, record update, sums over maps and list
    lemmas.  [GoMonad] is the monad of methods that
    change a receiver and append to an output slice: state passing, outputs, and
    [None] for a panic; [wp] is total, so a theorem stated with it excludes
    panics.  [GoRand] is math/rand as a stream of draws, and [GoFloat] binary64
    arithmetic computed on mantissa and exponent.

    ** What is taken from outside

    Arguments of the model: the stream of random draws ([RandSource]), the
    BLAKE3 digest ([Blake3]), the order in which a range visits a map
    ([MapRange], any permutation), the result of a float conversion out of range
    ([FloatConversion]), the smoothed RTT and the callback that may refuse a
    larger window ([Env]), the handlers of single frames in handleFrames, the
    capacity append gives a grown slice.  Theorems hold for all of them; witnesses use
    concrete ones.

    ** Fuel

    Loops that are not structural take fuel that is always enough: ten rounds
    for a varint of 64 bits, the length of the queue for the dispatch of
    announcements, the number of queued entries plus one where every round
    removes an entry, the number of list elements where every round moves along
    the list, the number of requested bytes where every round yields one.  The
    theorems state that a result is returned.

    ** Assumptions on callers

    Flow control: offsets come from varints, only received data is read, windows
    are below 2^51 bytes (float64 scales those exactly), and the connection limit
    is one that a MAX_DATA frame can carry, which keeps int64 sums from wrapping.
    Reassembly: frames end below the largest offset, which flow control ensures.
    Send streams: one Write at a time; each frame sent is reported once, as
    acknowledged or lost; the reliable boundary is set before a reset, without
    which a panic is possible (a finding); packets have room for at least 128 and
    at most 1452 bytes of a frame.  A parked Write may resume at any time, also
    without a token on its channel.
    Frame loop: the parser's settings do not change while a packet is handled.

    ** Not modelled

    Goroutines, channels, sockets and timers around these machines; the TLS
    fork, packet protection and other cryptography; loss detection, congestion
    control, packet assembly, the receiving stream around the frame sorter, path
    selection, relay, blobs, docs, DNS and the commands.  Two concurrent calls of
    Write on a stream, of which one takes the fast path, are not considered.  The
    reflection dispatch of postcard is represented by the codecs it selects; log
    output and statistics hooks are left out. *)

From stdpp Require Export prelude gmap list sorting.
#[global] Open Scope Z_scope.

(** ** Go's fixed-width integers

    A machine integer is a [Z] kept in range by the wrap-around that Go's
    conversions and arithmetic perform. *)

Declare Scope go_scope.
Delimit Scope go_scope with go.
#[global] Open Scope go_scope.

(** [uintN] conversion: reduction modulo [2^w]. *)
Definition wrapU (w x : Z) : Z := x `mod` 2 ^ w.

(** [intN] conversion: two's complement reduction. *)
Definition wrapS (w x : Z) : Z := (x + 2 ^ (w - 1)) `mod` 2 ^ w - 2 ^ (w - 1).

Notation u8 := (wrapU 8).
Notation u16 := (wrapU 16).
Notation u32 := (wrapU 32).
Notation u64 := (wrapU 64).
Notation i64 := (wrapS 64).

(** Bytes and byte strings; a Go slice is read as the list of its elements. *)
Notation bytes := (list Z).

Definition is_byte (b : Z) : Prop := 0 ≤ b < 256.
#[global] Instance is_byte_dec b : Decision (is_byte b).
Proof. unfold is_byte. apply _. Defined.

(** Decide a closed instance of a decidable property by evaluation. *)
Ltac by_decision :=
  lazymatch goal with |- ?P => refine (bool_decide_unpack P _) end; vm_compute; exact I.

(** [len(x)] as a Go [int]. *)
Definition len {A} (l : list A) : Z := Z.of_nat (length l).

(** ** Automation *)

Create HintDb goiroh discriminated.

Lemma wrapU_range w x : 0 ≤ w → 0 ≤ wrapU w x < 2 ^ w.
Proof. intros. apply Z.mod_pos_bound. by apply Z.pow_pos_nonneg. Qed.

Lemma wrapU_small w x : 0 ≤ x < 2 ^ w → wrapU w x = x.
Proof. intros. by apply Z.mod_small. Qed.

Lemma wrapS_small w x : 0 < w → - 2 ^ (w - 1) ≤ x < 2 ^ (w - 1) → wrapS w x = x.
Proof.
  intros Hw Hx. unfold wrapS.
  assert (2 ^ w = 2 * 2 ^ (w - 1)) as E
    by (rewrite <-Z.pow_succ_r by lia; f_equal; lia).
  rewrite Z.mod_small; lia.
Qed.

Lemma len_nonneg {A} (l : list A) : 0 ≤ len l.
Proof. unfold len. lia. Qed.

Lemma len_app {A} (l k : list A) : len (l ++ k) = len l + len k.
Proof. unfold len. rewrite length_app. lia. Qed.

Lemma len_cons {A} (x : A) l : len (x :: l) = 1 + len l.
Proof. unfold len. simpl. lia. Qed.

Lemma len_nil {A} : len ([] : list A) = 0.
Proof. done. Qed.

Lemma len_0_nil {A} (l : list A) : len l = 0 ↔ l = [].
Proof. unfold len. destruct l; simpl; split; (done || lia). Qed.

#[export] Hint Rewrite @len_app @len_cons @len_nil : goiroh.
#[export] Hint Resolve len_nonneg : goiroh.

(** ** Lists *)

(** The first occurrence of [x] is dropped, as a Go loop that splices out the
    first match and returns does. *)
Fixpoint remove_first `{EqDecision A} (x : A) (l : list A) : list A :=
  match l with
  | [] => []
  | y :: l => if decide (y = x) then l else y :: remove_first x l
  end.

Section remove_first.
Context `{EqDecision A}.
Implicit Types (x y : A) (l : list A).

Lemma elem_of_remove_first x y l : y ∈ remove_first x l → y ∈ l.
Proof.
  induction l as [|z l IH]; simpl; [done|].
  case_decide; rewrite !elem_of_cons; naive_solver.
Qed.

Lemma remove_first_NoDup x l : NoDup l → NoDup (remove_first x l).
Proof.
  induction 1 as [|z l Hz Hl IH]; simpl; [constructor|].
  case_decide; [done|]. constructor; [|done].
  intros ?%elem_of_remove_first. done.
Qed.

Lemma not_elem_of_remove_first x l : NoDup l → x ∉ remove_first x l.
Proof.
  induction 1 as [|z l Hz Hl IH]; simpl; [by apply not_elem_of_nil|].
  case_decide; [by subst|]. rewrite elem_of_cons. naive_solver.
Qed.

Lemma remove_first_id x l : x ∉ l → remove_first x l = l.
Proof.
  induction l as [|z l IH]; simpl; [done|]. rewrite elem_of_cons. intros Hx.
  rewrite decide_False by naive_solver. f_equal. naive_solver.
Qed.

Lemma remove_first_filter x l : NoDup l → remove_first x l = filter (λ y, y ≠ x) l.
Proof.
  induction 1 as [|z l Hz Hl IH]; simpl; [done|]. rewrite filter_cons.
  case_decide; subst; [rewrite decide_False by naive_solver|by rewrite decide_True, IH].
  rewrite <-IH. symmetry. by apply remove_first_id.
Qed.

Lemma remove_first_length_in x l :
  x ∈ l → length l = S (length (remove_first x l)).
Proof.
  induction l as [|z l IH]; simpl; [by intros ?%elem_of_nil|].
  rewrite elem_of_cons. intros Hx. case_decide; [done|]. simpl. f_equal. naive_solver.
Qed.

Lemma remove_first_length_le x l : (length (remove_first x l) ≤ length l)%nat.
Proof. induction l; simpl; [done|]. case_decide; simpl; lia. Qed.
End remove_first.

#[export] Hint Resolve remove_first_NoDup not_elem_of_remove_first : goiroh.

(** ** Results of fallible functions

    A Go function returning [(T, error)] is a [result]. *)

Inductive result (E A : Type) :=
  | Ok (a : A)
  | Err (e : E).
Arguments Ok {E A} _.
Arguments Err {E A} _.

#[global] Instance result_ret {E} : MRet (result E) := λ A a, Ok a.
#[global] Instance result_bind {E} : MBind (result E) := λ A B f m,
  match m with Ok a => f a | Err e => Err e end.

#[global] Instance result_eq_dec `{EqDecision E, EqDecision A} : EqDecision (result E A).
Proof. solve_decision. Defined.

Lemma result_bind_Ok {E A B} (m : result E A) (f : A → result E B) b :
  m ≫= f = Ok b ↔ ∃ a, m = Ok a ∧ f a = Ok b.
Proof. destruct m; simpl; naive_solver. Qed.

(** The outcome of a call that may also panic. *)
Inductive outcome (E A : Type) :=
  | Ret (a : A)
  | Throw (e : E)
  | Panic.
Arguments Ret {E A} _.
Arguments Throw {E A} _.
Arguments Panic {E A}.

#[global] Instance outcome_ret {E} : MRet (outcome E) := λ A a, Ret a.
#[global] Instance outcome_bind {E} : MBind (outcome E) := λ A B f m,
  match m with Ret a => f a | Throw e => Throw e | Panic => Panic end.

#[global] Instance outcome_eq_dec `{EqDecision E, EqDecision A} : EqDecision (outcome E A).
Proof. solve_decision. Defined.

Lemma outcome_bind_Ret {E A B} (m : outcome E A) (f : A → outcome E B) b :
  m ≫= f = Ret b ↔ ∃ a, m = Ret a ∧ f a = Ret b.
Proof. destruct m; simpl; naive_solver. Qed.

(** A partial operation, such as an index or a slice expression, panics where it
    is undefined. *)
Definition or_panic {E A} (o : option A) : outcome E A :=
  match o with Some a => Ret a | None => Panic end.

(** The slice expressions [b[n:]] and [b[:n]]. *)
Definition slice_from {A} (b : list A) (n : Z) : option (list A) :=
  if (0 <=? n) && (n <=? len b) then Some (drop (Z.to_nat n) b) else None.
Definition slice_to {A} (b : list A) (n : Z) : option (list A) :=
  if (0 <=? n) && (n <=? len b) then Some (take (Z.to_nat n) b) else None.

Lemma slice_from_app {A} (l k : list A) : slice_from (l ++ k) (len l) = Some k.
Proof.
  unfold slice_from. rewrite len_app. pose proof (len_nonneg l). pose proof (len_nonneg k).
  rewrite (proj2 (Z.leb_le 0 _)), (proj2 (Z.leb_le (len l) _)) by lia. simpl.
  unfold len. by rewrite Nat2Z.id, drop_app_length.
Qed.

Lemma slice_to_app {A} (l k : list A) : slice_to (l ++ k) (len l) = Some l.
Proof.
  unfold slice_to. rewrite len_app. pose proof (len_nonneg l). pose proof (len_nonneg k).
  rewrite (proj2 (Z.leb_le 0 _)), (proj2 (Z.leb_le (len l) _)) by lia. simpl.
  unfold len. by rewrite Nat2Z.id, take_app_length.
Qed.

(** Where both slice expressions are defined they split the list. *)
Lemma slice_to_take {A} (data : list A) n : 0 ≤ n ≤ len data → slice_to data n = Some (take (Z.to_nat n) data).
Proof. intros. unfold slice_to. destruct (_ && _) eqn:E; [done|lia]. Qed.
Lemma slice_from_drop {A} (data : list A) n : 0 ≤ n ≤ len data → slice_from data n = Some (drop (Z.to_nat n) data).
Proof. intros. unfold slice_from. destruct (_ && _) eqn:E; [done|lia]. Qed.

Lemma slice_split {A} (b : list A) n :
  0 ≤ n ≤ len b → ∃ l k, b = l ++ k ∧ len l = n ∧ slice_to b n = Some l ∧ slice_from b n = Some k.
Proof.
  intros Hn. exists (take (Z.to_nat n) b), (drop (Z.to_nat n) b).
  rewrite take_drop. unfold slice_to, slice_from.
  rewrite (proj2 (Z.leb_le 0 n)), (proj2 (Z.leb_le n _)) by lia. split_and!; [done| |done|done].
  unfold len in *. rewrite length_take. lia.
Qed.

(** The errors of package io. *)
Inductive ReadError := EOF | ErrUnexpectedEOF.

(** ** Bit operations on disjoint parts *)

Lemma land_disjoint a b k : 0 ≤ k → 0 ≤ a < 2 ^ k → Z.land a (Z.shiftl b k) = 0.
Proof.
  intros Hk Ha. apply Z.bits_inj'. intros n Hn. rewrite Z.land_spec, Z.bits_0.
  destruct (Z.lt_ge_cases n k) as [Hlt|Hge].
  - by rewrite (Z.shiftl_spec_low b k n), andb_false_r.
  - destruct (Z.eq_dec a 0) as [->|]; [by rewrite Z.testbit_0_l|].
    rewrite Z.bits_above_log2; [done|lia|].
    apply Z.lt_le_trans with k; [|done]. apply Z.log2_lt_pow2; lia.
Qed.

Lemma lor_disjoint a b k : 0 ≤ k → 0 ≤ a < 2 ^ k → Z.lor a (Z.shiftl b k) = a + b * 2 ^ k.
Proof.
  intros Hk Ha. rewrite <-Z.shiftl_mul_pow2 by done.
  pose proof (Z.add_lor_land a (Z.shiftl b k)) as E. rewrite land_disjoint in E by done. lia.
Qed.

Lemma land_ones_low a n : 0 ≤ n → Z.land a (2 ^ n - 1) = a `mod` 2 ^ n.
Proof. intros. rewrite <-Z.land_ones by done. by rewrite Z.ones_equiv. Qed.

(** ** Big-endian byte strings *)

(** The number written by the bytes [l], and the last [n] bytes of [x]. *)
Definition be (l : bytes) : Z := foldl (λ acc b, acc * 256 + b) 0 l.
Fixpoint be_bytes (n : nat) (x : Z) : bytes :=
  match n with
  | O => []
  | S n => be_bytes n (x / 256) ++ [x `mod` 256]
  end.

Lemma be_snoc l b : be (l ++ [b]) = be l * 256 + b.
Proof. unfold be. by rewrite foldl_app. Qed.

Lemma be_bytes_length n x : length (be_bytes n x) = n.
Proof. revert x. induction n; intros; simpl; [done|]. rewrite length_app, IHn. simpl. lia. Qed.

Lemma be_bytes_is_byte n x : Forall is_byte (be_bytes n x).
Proof.
  revert x. induction n; intros; simpl; [constructor|]. apply Forall_app. split; [done|].
  repeat constructor; apply Z.mod_pos_bound; lia.
Qed.

Lemma be_be_bytes n x : 0 ≤ x < 256 ^ Z.of_nat n → be (be_bytes n x) = x.
Proof.
  revert x. induction n as [|n IH]; intros x Hx; simpl.
  { simpl in Hx. unfold be. simpl. lia. }
  rewrite Nat2Z.inj_succ, Z.pow_succ_r in Hx by lia.
  rewrite be_snoc, IH; [rewrite (Z.div_mod x 256) at 3 by lia; lia|].
  split; [apply Z.div_pos; lia|apply Z.div_lt_upper_bound; lia].
Qed.

(** ** Sums over the entries of a map *)

Definition msum {K} `{Countable K} {A} (f : A → Z) (m : gmap K A) : Z :=
  map_fold (λ _ x n, f x + n) 0 m.

Section msum.
Context {K} `{Countable K} {A : Type}.
Implicit Types (f g : A → Z) (m : gmap K A).

Lemma msum_empty f : msum f (∅ : gmap K A) = 0.
Proof. apply map_fold_empty. Qed.

Lemma msum_insert f m i x : m !! i = None → msum f (<[i:=x]> m) = f x + msum f m.
Proof. intros. unfold msum. rewrite map_fold_insert_L; [done|intros; lia|done]. Qed.

Lemma msum_delete f m i x : m !! i = Some x → msum f m = f x + msum f (delete i m).
Proof. intros. unfold msum. rewrite (map_fold_delete_L _ _ i x); [done|intros; lia|done]. Qed.

Lemma msum_update f m i x y :
  m !! i = Some x → msum f (<[i:=y]> m) = msum f m - f x + f y.
Proof.
  intros Hi. rewrite (msum_delete f m i x Hi), <-insert_delete_eq.
  rewrite msum_insert by apply lookup_delete_eq. lia.
Qed.

Lemma msum_nonneg f m : (∀ x, 0 ≤ f x) → 0 ≤ msum f m.
Proof.
  intros Hf. induction m as [|i x m Hi IH] using map_ind; [by rewrite msum_empty|].
  rewrite msum_insert by done. specialize (Hf x). lia.
Qed.

Lemma msum_omap f g (h : A → option A) m :
  (∀ x, f x = g x + default 0 (f <$> h x)) →
  msum f m = msum g m + msum f (omap h m).
Proof.
  intros Hf. induction m as [|i x m Hi IH] using map_ind.
  { by rewrite omap_empty, !msum_empty. }
  rewrite !msum_insert by done. specialize (Hf x). destruct (h x) as [y|] eqn:E.
  - rewrite (omap_insert_Some _ _ _ _ y) by done.
    rewrite msum_insert by (by rewrite lookup_omap, Hi). simpl in Hf. lia.
  - rewrite omap_insert_None by done. rewrite delete_id by (by rewrite lookup_omap, Hi).
    simpl in Hf. lia.
Qed.
End msum.

(** int64 arithmetic that stays in range does not wrap. *)
Lemma i64_small x : - 2 ^ 63 ≤ x < 2 ^ 63 → i64 x = x.
Proof. intros. by apply wrapS_small. Qed.

(** Reading and writing at the middle of a list. *)
Lemma lookup_mid {A} (l k : list A) x : (l ++ x :: k) !! length l = Some x.
Proof. by rewrite list_lookup_middle. Qed.
Lemma insert_mid {A} (l k : list A) x y : <[length l := y]> (l ++ x :: k) = l ++ y :: k.
Proof. rewrite <-(Nat.add_0_r (length l)). by rewrite insert_app_r. Qed.

(** ** sort.Search

    Binary search in [0, n) for the first index where the predicate holds; the
    predicate is partial, as the closures that index a slice are.  The interval
    shrinks in every round, so [n] rounds are enough. *)

Fixpoint search_loop (fuel : nat) (f : Z → option bool) (i j : Z) : option Z :=
  if i <? j then
    match fuel with
    | O => None
    | S fuel =>
        let h := (i + j) / 2 in
        b ← f h;
        if (b : bool) then search_loop fuel f i h else search_loop fuel f (h + 1) j
    end
  else Some i.
Definition sort_Search (n : Z) (f : Z → option bool) : option Z :=
  search_loop (Z.to_nat n) f 0 n.

Lemma search_loop_spec fuel f p n i j :
  (∀ k, 0 ≤ k < n → f k = Some (p k)) → 0 ≤ i → i ≤ j → j ≤ n → j - i ≤ Z.of_nat fuel →
  (0 < i → p (i - 1) = false) → (j < n → p j = true) →
  ∃ k, search_loop fuel f i j = Some k ∧ 0 ≤ k ≤ n ∧
    (0 < k → p (k - 1) = false) ∧ (k < n → p k = true).
Proof.
  intros Hf. revert i j. induction fuel as [|fuel IH]; intros i j Hi Hij Hj Hfuel Hlo Hhi; cbn.
  { destruct (Z.ltb_spec i j); [lia|]. assert (i = j) as <- by lia. exists i. auto with lia. }
  destruct (Z.ltb_spec i j); [|assert (i = j) as <- by lia; exists i; auto with lia].
  assert (i ≤ (i + j) / 2 < j) as Hh by (Z.to_euclidean_division_equations; lia).
  rewrite Hf by lia. cbn. destruct (p ((i + j) / 2)) eqn:E.
  - apply IH; auto with lia.
  - apply IH; auto with lia. intros _. by replace ((i + j) / 2 + 1 - 1) with ((i + j) / 2) by lia.
Qed.

Lemma sort_Search_spec n f p :
  0 ≤ n → (∀ k, 0 ≤ k < n → f k = Some (p k)) →
  ∃ k, sort_Search n f = Some k ∧ 0 ≤ k ≤ n ∧
    (0 < k → p (k - 1) = false) ∧ (k < n → p k = true).
Proof. intros Hn Hf. apply search_loop_spec; auto with lia. Qed.

(** ** Record update

    [r <| f := v |>] is [r] with the field [f] set to [v], for a record type with
    an [Eta] instance that lists its fields. *)

Class Eta (R : Type) := eta : R → R.
Class Setter {R E : Type} (get : R → E) := set_field : (E → E) → R → R.
Arguments set_field {R E} get {_} _ _ : simpl never.

Ltac make_setter :=
  match goal with
  | |- @Setter ?R ?E ?get =>
      match constr:(eta (R := R)) with
      | @eta _ ?i =>
          let e := eval red in i in
          match eval pattern get in e with
          | ?f _ => let t := eval cbv beta in (λ (u : E → E), f (λ r, u (get r))) in exact t
          end
      end
  end.
#[export] Hint Extern 1 (Setter _) => make_setter : typeclass_instances.

#[warnings="-postfix-notation-not-level-1"]
Notation "s <| f := v |>" := (set_field f (λ _, v) s)
  (at level 12, f at next level, left associativity, format "s <| f  :=  v |>") : go_scope.

(** Evaluate the fields of updated records. *)
Ltac upd_field p g u s :=
  match constr:(Set) with
  | _ => let _ := match constr:(Set) with _ => constr_eq p g end in eval cbv beta in (u (p s))
  | _ => let _ := constr:(_ : Setter p) in constr:(p s)
  end.
Ltac upd :=
  repeat match goal with
  | |- context [?p (@set_field ?R ?E ?g ?i ?u ?s)] =>
      let v := upd_field p g u s in change (p (@set_field R E g i u s)) with v
  | H : context [?p (@set_field ?R ?E ?g ?i ?u ?s)] |- _ =>
      let v := upd_field p g u s in change (p (@set_field R E g i u s)) with v in H
  end; cbn beta iota.
