(* ===== verification/GoMonad.v ===== *)
(** * Stateful Go methods: state, appended outputs and panics

    A Go method with a pointer receiver and an [out *[]E] parameter it appends
    to is a computation over the receiver's state that returns the events it
    appended.  A run-time panic (index out of range, [rand.Intn] of a
    non-positive bound, ...) is [None].  [wp] is the total-correctness
    weakest precondition: it holds only if the computation does not panic. *)

From S2P Require Import Prelude.

Definition GoM (S W A : Type) : Type := S → option (A * S * list W).

#[global] Instance GoM_ret {S W} : MRet (GoM S W) := λ A a s, Some (a, s, []).
#[global] Instance GoM_bind {S W} : MBind (GoM S W) := λ A B f m s,
  match m s with
  | None => None
  | Some (a, s', w) =>
      match f a s' with
      | None => None
      | Some (b, s'', w') => Some (b, s'', w ++ w')
      end
  end.

Section operations.
Context {S W : Type}.

Definition get : GoM S W S := λ s, Some (s, s, []).
Definition modify (f : S → S) : GoM S W () := λ s, Some ((), f s, []).
Definition emit (e : W) : GoM S W () := λ s, Some ((), s, [e]).
Definition panic {A} : GoM S W A := λ _, None.

(** [if b { m }] *)
Definition when (b : bool) (m : GoM S W ()) : GoM S W () :=
  if b then m else mret ().

(** [for _, x := range l { f(x) }] *)
Fixpoint for_each {A} (l : list A) (f : A → GoM S W ()) : GoM S W () :=
  match l with
  | [] => mret ()
  | x :: l => f x;; for_each l f
  end.
End operations.

Definition wp {S W A} (m : GoM S W A) (Q : A → S → list W → Prop) (s : S) : Prop :=
  match m s with
  | Some (a, s', w) => Q a s' w
  | None => False
  end.

Section wp.
Context {S W : Type}.
Implicit Types (s : S) (w : list W).

Lemma wp_mono {A} (m : GoM S W A) (P Q : A → S → list W → Prop) s :
  wp m P s → (∀ a s' w, P a s' w → Q a s' w) → wp m Q s.
Proof. unfold wp. destruct (m s) as [[[??]?]|]; naive_solver. Qed.

Lemma wp_and {A} (m : GoM S W A) (P Q : A → S → list W → Prop) s :
  wp m P s → wp m Q s → wp m (λ a s' w, P a s' w ∧ Q a s' w) s.
Proof. unfold wp. destruct (m s) as [[[??]?]|]; naive_solver. Qed.

Lemma wp_bind {A B} (m : GoM S W A) (f : A → GoM S W B) Q s :
  wp m (λ a s' w, wp (f a) (λ b s'' w', Q b s'' (w ++ w')) s') s → wp (m ≫= f) Q s.
Proof.
  unfold wp, mbind, GoM_bind. destruct (m s) as [[[a s'] w]|]; [|done].
  by destruct (f a s') as [[[b s''] w']|].
Qed.

Lemma wp_ret {A} (a : A) (Q : A → S → list W → Prop) s : Q a s [] → wp (mret a) Q s.
Proof. done. Qed.
Lemma wp_get (Q : S → S → list W → Prop) s : Q s s [] → wp get Q s.
Proof. done. Qed.
Lemma wp_modify f (Q : () → S → list W → Prop) s : Q () (f s) [] → wp (modify f) Q s.
Proof. done. Qed.
Lemma wp_emit e (Q : () → S → list W → Prop) s : Q () s [e] → wp (emit e) Q s.
Proof. done. Qed.

Lemma wp_when b (m : GoM S W ()) Q s :
  (b = true → wp m Q s) → (b = false → Q () s []) → wp (when b m) Q s.
Proof. destruct b; simpl; intros H1 H2; [auto|by apply wp_ret, H2]. Qed.

(** A loop rule: [I] holds of the state and the outputs so far. *)
Lemma wp_for_each {A} (l : list A) (f : A → GoM S W ()) (I : S → list W → Prop) s w :
  I s w →
  (∀ x s w, x ∈ l → I s w → wp (f x) (λ _ s' w', I s' (w ++ w')) s) →
  wp (for_each l f) (λ _ s' w', I s' (w ++ w')) s.
Proof.
  revert s w. induction l as [|x l IH]; intros s w HI Hf; simpl.
  - apply wp_ret. by rewrite app_nil_r.
  - apply wp_bind. eapply wp_mono; [apply Hf; [by left|done]|].
    intros u s' w' HI'. eapply wp_mono; [apply (IH s' (w ++ w') HI')|].
    + intros y s'' w'' Hy. apply Hf. by right.
    + intros v s'' w''; cbv beta. by rewrite <-app_assoc.
Qed.

Lemma bind_Some {A B} (m : GoM S W A) (f : A → GoM S W B) s b s'' w :
  (m ≫= f) s = Some (b, s'', w) ↔
  ∃ a s' w1 w2, m s = Some (a, s', w1) ∧ f a s' = Some (b, s'', w2) ∧ w = w1 ++ w2.
Proof.
  unfold mbind, GoM_bind. destruct (m s) as [[[a s'] w1]|]; [|naive_solver].
  destruct (f a s') as [[[b' s0] w2]|] eqn:E; naive_solver.
Qed.

Lemma get_bind {A} (f : S → GoM S W A) s : (get ≫= f) s = f s s.
Proof. unfold mbind, GoM_bind, get. by destruct (f s s) as [[[??]?]|]. Qed.

Lemma ret_Some {A} (a b : A) s s' (w : list W) :
  (mret a : GoM S W A) s = Some (b, s', w) ↔ b = a ∧ s' = s ∧ w = [].
Proof. unfold mret, GoM_ret. naive_solver. Qed.
Lemma get_Some s a s' (w : list W) : get s = Some (a, s', w) ↔ a = s ∧ s' = s ∧ w = [].
Proof. unfold get. naive_solver. Qed.
Lemma modify_Some f s a s' (w : list W) : modify f s = Some (a, s', w) ↔ s' = f s ∧ w = [].
Proof. unfold modify. destruct a. naive_solver. Qed.
Lemma emit_Some (e : W) s a s' w : emit e s = Some (a, s', w) ↔ s' = s ∧ w = [e].
Proof. unfold emit. destruct a. naive_solver. Qed.
Lemma when_Some b (m : GoM S W ()) s a s' w :
  when b m s = Some (a, s', w) ↔
  b = true ∧ m s = Some (a, s', w) ∨ b = false ∧ s' = s ∧ w = [].
Proof. destruct b; simpl; [naive_solver|]. rewrite ret_Some. destruct a. naive_solver. Qed.

Lemma run_wp {A} (m : GoM S W A) (Q : A → S → list W → Prop) s a s' w :
  wp m Q s → m s = Some (a, s', w) → Q a s' w.
Proof. unfold wp. intros HQ Hm. by rewrite Hm in HQ. Qed.

Lemma wp_run {A} (m : GoM S W A) Q s :
  wp m Q s → ∃ a s' w, m s = Some (a, s', w) ∧ Q a s' w.
Proof. unfold wp. destruct (m s) as [[[a s'] w]|]; naive_solver. Qed.
End wp.

(** One step of symbolic execution through the monad's own constructs. *)
Ltac wp_step :=
  lazymatch goal with
  | |- wp (mbind _ _) _ _ => apply wp_bind
  | |- wp (mret _) _ _ => apply wp_ret
  | |- wp get _ _ => apply wp_get
  | |- wp (modify _) _ _ => apply wp_modify
  | |- wp (emit _) _ _ => apply wp_emit
  | |- wp (when _ _) _ _ => apply wp_when; intros ?
  | |- wp (if ?b then _ else _) _ _ => destruct b eqn:?
  | |- wp (match ?x with _ => _ end) _ _ => destruct x eqn:?
  end; cbv beta.
Ltac wp_steps := repeat wp_step; rewrite ?app_nil_r, ?app_nil_l.

(** Decompose a successful run of a sequence of statements. *)
Ltac run_inv :=
  repeat match goal with
  | H : mbind _ _ _ = Some _ |- _ =>
      let a := fresh "a" in let s := fresh "s" in
      let w1 := fresh "w" in let w2 := fresh "w" in let H1 := fresh "Hrun" in
      apply bind_Some in H as (a & s & w1 & w2 & H1 & H & ->)
  | H : mret _ _ = Some _ |- _ => apply ret_Some in H as (->&->&->)
  | H : get _ = Some _ |- _ => apply get_Some in H as (->&->&->)
  | H : modify _ _ = Some _ |- _ => apply modify_Some in H as [-> ->]
  | H : emit _ _ = Some _ |- _ => apply emit_Some in H as [-> ->]
  end.

(** ** Frames

    [Frame R P m]: whatever the start, a successful run of [m] moves the state
    along [R] and every output satisfies [P].  With [R] a preorder the class is
    closed under the monad's constructs, which the database [frame] applies. *)

Definition Frame {S W A} (R : S → S → Prop) (P : W → Prop) (m : GoM S W A) : Prop :=
  ∀ s a s' w, m s = Some (a, s', w) → R s s' ∧ Forall P w.

Section frame.
Context {S W : Type} (R : S → S → Prop) (P : W → Prop) `{!PreOrder R}.

Lemma Frame_ret {A} (a : A) : Frame R P (mret a).
Proof. intros s b s' w Hm. run_inv. done. Qed.
Lemma Frame_get : Frame R P get.
Proof. intros s b s' w Hm. run_inv. done. Qed.
Lemma Frame_emit e : P e → Frame R P (emit e).
Proof. intros He s b s' w Hm. run_inv. split; [done|by constructor]. Qed.
Lemma Frame_modify f : (∀ s, R s (f s)) → Frame R P (modify f).
Proof. intros Hf s b s' w Hm. run_inv. done. Qed.
Lemma Frame_bind {A B} (m : GoM S W A) (f : A → GoM S W B) :
  Frame R P m → (∀ a, Frame R P (f a)) → Frame R P (m ≫= f).
Proof.
  intros Hm Hf s b s' w H. run_inv. apply Hm in Hrun as [??]. apply Hf in H as [??].
  split; [by etrans|by apply Forall_app].
Qed.
Lemma Frame_when b (m : GoM S W ()) : Frame R P m → Frame R P (when b m).
Proof. destruct b; [done|]. intros _. apply Frame_ret. Qed.
Lemma Frame_for_each {A} (l : list A) (f : A → GoM S W ()) :
  (∀ x, Frame R P (f x)) → Frame R P (for_each l f).
Proof. intros Hf. induction l; simpl; [apply Frame_ret|by apply Frame_bind]. Qed.

Lemma wp_frame {A} (m : GoM S W A) Q s :
  wp m Q s → Frame R P m → wp m (λ a s' w, Q a s' w ∧ R s s' ∧ Forall P w) s.
Proof.
  unfold wp. intros HQ Hm. destruct (m s) as [[[a s'] w]|] eqn:E; [|done].
  by apply Hm in E.
Qed.
End frame.

#[global] Instance any_state_PreOrder {S} : PreOrder (λ _ _ : S, True).
Proof. by split. Qed.

Create HintDb frame discriminated.
#[export] Hint Resolve Frame_ret Frame_get Frame_bind Frame_when Frame_for_each : frame.
#[export] Hint Extern 0 (PreOrder _) => typeclasses eauto : frame.
#[export] Hint Extern 2 (Frame _ _ (emit _)) => 
  apply Frame_emit; try typeclasses eauto; first [done|reflexivity] : frame.
#[export] Hint Extern 3 (Frame _ _ (match ?x with _ => _ end)) => destruct x : frame.
#[export] Hint Extern 4 (Frame _ _ (modify _)) =>
  apply Frame_modify; try typeclasses eauto; intros ?; repeat case_match; done : frame.

(** Apply a frame found by search to a successful run. *)
Ltac frame_run R P H :=
  lazymatch type of H with
  | ?m _ = _ => let Hf := fresh in
      assert (Frame R P m) as Hf by auto 40 with frame; apply Hf in H; clear Hf
  end.
