(* ===== verification/GoRand.v ===== *)
(** * math/rand as the sources use it

    A [*rand.Rand] is a seeded stream of draws and a position in it.  The
    stream is the interpretation of [rand_draw]: every result of [Intn] allowed
    by its documentation is produced by some stream, so a theorem that holds
    for all [RandSource] holds for all runs. *)

From S2P Require Import Prelude GoMonad.

Class RandSource := rand_draw : Z → nat → Z.

Record Rand := MkRand { seed : Z; rpos : nat }.

#[global] Instance Rand_eq_dec : EqDecision Rand.
Proof. solve_decision. Defined.

Definition NewSource (s : Z) : Rand := {| seed := s; rpos := 0 |}.

Section rand.
Context `{!RandSource}.

Definition draw (r : Rand) : Z * Rand :=
  (rand_draw r.(seed) r.(rpos), {| seed := r.(seed); rpos := S r.(rpos) |}).

Definition Int63 (r : Rand) : Z * Rand :=
  let '(x, r) := draw r in (x `mod` 2 ^ 63, r).

(** [Intn] panics when [n <= 0]. *)
Definition Intn (n : Z) (r : Rand) : option (Z * Rand) :=
  if n <=? 0 then None else let '(x, r) := draw r in Some (x `mod` n, r).

Definition swap {A} (i j : nat) (l : list A) : list A :=
  match l !! i, l !! j with
  | Some x, Some y => <[j:=x]> (<[i:=y]> l)
  | _, _ => l
  end.

(** Fisher-Yates, from index [i] down to 1. *)
Fixpoint shuffle_from {A} (i : nat) (l : list A) (r : Rand) : list A * Rand :=
  match i with
  | O => (l, r)
  | S i' =>
      let '(x, r) := draw r in
      let j := Z.to_nat (x `mod` Z.of_nat (S i)) in
      shuffle_from i' (swap i j l) r
  end.

(** [r.Shuffle(len(l), swap)] *)
Definition rand_Shuffle {A} (l : list A) (r : Rand) : list A * Rand :=
  shuffle_from (pred (length l)) l r.

Lemma Intn_range n r x r' : Intn n r = Some (x, r') → 0 ≤ x < n.
Proof.
  unfold Intn. destruct (Z.leb_spec n 0); [done|]. simpl.
  intros [= <- <-]. apply Z.mod_pos_bound. lia.
Qed.

Lemma Intn_total n r : 0 < n → ∃ x r', Intn n r = Some (x, r').
Proof. intros. unfold Intn. destruct (Z.leb_spec n 0); [lia|]. simpl. eauto. Qed.

Lemma swap_Permutation {A} i j (l : list A) : swap i j l ≡ₚ l.
Proof.
  unfold swap. destruct (l !! i) eqn:?, (l !! j) eqn:?; try done.
  by apply Permutation_insert_swap.
Qed.

Lemma shuffle_from_Permutation {A} i (l : list A) r : (shuffle_from i l r).1 ≡ₚ l.
Proof.
  revert l r. induction i as [|i IH]; intros l r; simpl; [done|].
  rewrite IH. apply swap_Permutation.
Qed.

Lemma rand_Shuffle_Permutation {A} (l : list A) r : (rand_Shuffle l r).1 ≡ₚ l.
Proof. apply shuffle_from_Permutation. Qed.
End rand.
