(* ===== verification/Postcard.v ===== *)
(** * The postcard wire format: internal/postcard/postcard.go

    [Encoder.value] and [Decoder.value] dispatch on the [reflect.Kind] of the
    value; here each kind is a [Codec], the struct case composes the codecs of
    the fields in order, and a type with its own EncodePostcard/DecodePostcard
    methods is a codec built from them.  Decoding is into a zero target.
    [Lawful c wf] states both directions: a value satisfying [wf] is read back
    from its encoding, and whatever decodes is the value's own encoding. *)

From S2P Require Import Prelude.

Inductive PostcardError :=
  | ErrTrailingBytes
  | ErrOverlongVarint
  | errShort
  | errInvalidBool (x : Z)
  | errInvalidOption (x : Z)
  | errInvalidUtf8
  | errOverflows (x : Z)
  | errSequenceTooLarge
  | errUnknownKind (kind : Z)
  | errPanic.

Notation res := (result PostcardError).

(** ** Varints *)

(** The loop runs while [v >= 0x80]; ten rounds are enough for a [uint64]. *)
Fixpoint appendVarint_loop (fuel : nat) (dst : bytes) (v : Z) : bytes :=
  match fuel with
  | O => dst ++ [u8 v]
  | S fuel =>
      if v >=? 0x80
      then appendVarint_loop fuel (dst ++ [Z.lor (u8 v) 0x80]) (Z.shiftr v 7)
      else dst ++ [u8 v]
  end.

Definition appendVarint (dst : bytes) (v : Z) : bytes := appendVarint_loop 10 dst v.

Fixpoint readVarint_loop (buf : bytes) (i : Z) (v : Z) : res (Z * Z) :=
  match buf with
  | [] => Err errShort
  | b :: buf =>
      if i >=? 10 then Err errShort
      else if (i =? 9) && (b >? 1) then Err ErrOverlongVarint
      else
        let v := Z.lor v (u64 (Z.shiftl (Z.land b 0x7f) (7 * i))) in
        if b <? 0x80
        then if (i >? 0) && (b =? 0) then Err ErrOverlongVarint else Ok (v, i + 1)
        else readVarint_loop buf (i + 1) v
  end.

(** The value and the number of bytes it takes. *)
Definition readVarint (buf : bytes) : res (Z * Z) := readVarint_loop buf 0 0.

Definition zigzag (v : Z) : Z :=
  Z.lxor (u64 (i64 (Z.shiftl v 1))) (u64 (Z.shiftr v 63)).

Definition unzigzag (v : Z) : Z :=
  Z.lxor (i64 (Z.shiftr v 1)) (i64 (- i64 (Z.land v 1))).

(** ** Encoder

    The encoder's state is its buffer. *)

Definition Encoder_Uint (v : Z) (e : bytes) : bytes := appendVarint e v.
Definition Encoder_Int (v : Z) (e : bytes) : bytes := appendVarint e (zigzag v).
Definition Encoder_Uint8 (v : Z) (e : bytes) : bytes := e ++ [v].
Definition Encoder_Int8 (v : Z) (e : bytes) : bytes := e ++ [u8 v].
Definition Encoder_Bool (v : bool) (e : bytes) : bytes := if v then e ++ [1] else e ++ [0].
Definition Encoder_BytesValue (b : bytes) (e : bytes) : bytes :=
  appendVarint e (u64 (len b)) ++ b.
Definition Encoder_RawBytes (b : bytes) (e : bytes) : bytes := e ++ b.

(** ** Decoder *)

Record Decoder := MkDecoder { d_b : bytes; d_off : Z }.

Definition NewDecoder (b : bytes) : Decoder := MkDecoder b 0.

Definition advance (d : Decoder) (n : Z) : Decoder := MkDecoder (d_b d) (d_off d + n).

(** [d.b[lo:hi]]; [None] is the run-time panic of a bad slice bound. *)
Definition slice_of (b : bytes) (lo hi : Z) : option bytes :=
  if (0 <=? lo) && (lo <=? hi) && (hi <=? len b)
  then Some (take (Z.to_nat (hi - lo)) (drop (Z.to_nat lo) b)) else None.

Definition Decoder_Done (d : Decoder) : bool := d_off d =? len (d_b d).

Definition Decoder_byte (d : Decoder) : res (Z * Decoder) :=
  if d_off d >=? len (d_b d) then Err errShort
  else match d_b d !! Z.to_nat (d_off d) with
       | Some x => Ok (x, advance d 1)
       | None => Err errPanic
       end.

Definition Decoder_varint (d : Decoder) : res (Z * Decoder) :=
  match slice_of (d_b d) (d_off d) (len (d_b d)) with
  | None => Err errPanic
  | Some buf => '(x, n) ← readVarint buf; Ok (x, advance d n)
  end.

Definition Decoder_Uint (d : Decoder) : res (Z * Decoder) := Decoder_varint d.
Definition Decoder_Uint8 (d : Decoder) : res (Z * Decoder) := Decoder_byte d.
Definition Decoder_Int8 (d : Decoder) : res (Z * Decoder) :=
  '(b, d) ← Decoder_byte d; Ok (wrapS 8 b, d).
Definition Decoder_Int (d : Decoder) : res (Z * Decoder) :=
  '(x, d) ← Decoder_varint d; Ok (unzigzag x, d).

Definition Decoder_Bool (d : Decoder) : res (bool * Decoder) :=
  '(x, d) ← Decoder_byte d;
  if x =? 0 then Ok (false, d)
  else if x =? 1 then Ok (true, d)
  else Err (errInvalidBool x).

Definition Decoder_option (d : Decoder) : res (bool * Decoder) :=
  '(x, d) ← Decoder_byte d;
  if x =? 0 then Ok (false, d)
  else if x =? 1 then Ok (true, d)
  else Err (errInvalidOption x).

(** [d.b[d.off : d.off+n]], advancing past it. *)
Definition take_bytes (d : Decoder) (n : Z) : res (bytes * Decoder) :=
  match slice_of (d_b d) (d_off d) (i64 (d_off d + n)) with
  | Some b => Ok (b, advance d n)
  | None => Err errPanic
  end.

Definition Decoder_bytes (d : Decoder) : res (bytes * Decoder) :=
  '(n, d) ← Decoder_varint d;
  if n >? len (d_b d) - d_off d then Err errShort
  else take_bytes d n.

Definition Decoder_BytesValue (d : Decoder) : res (bytes * Decoder) := Decoder_bytes d.

Definition Decoder_RawBytes (n : Z) (d : Decoder) : res (bytes * Decoder) :=
  if (n <? 0) || (i64 (d_off d + n) >? len (d_b d)) then Err errShort
  else take_bytes d n.

(** ** utf8.Valid

    The Unicode well-formedness table: lead byte, allowed range of the second
    byte, and continuation bytes 0x80-0xBF after it. *)

Definition in_range (lo hi b : Z) : bool := (lo <=? b) && (b <=? hi).
Definition cont (b : Z) : bool := in_range 0x80 0xBF b.

Fixpoint utf8_Valid (s : bytes) : bool :=
  match s with
  | [] => true
  | b0 :: s0 =>
      if b0 <? 0x80 then utf8_Valid s0
      else match s0 with
      | [] => false
      | b1 :: s1 =>
          if in_range 0xC2 0xDF b0 && cont b1 then utf8_Valid s1
          else match s1 with
          | [] => false
          | b2 :: s2 =>
              if ((b0 =? 0xE0) && in_range 0xA0 0xBF b1
                  || in_range 0xE1 0xEC b0 && cont b1
                  || (b0 =? 0xED) && in_range 0x80 0x9F b1
                  || in_range 0xEE 0xEF b0 && cont b1) && cont b2
              then utf8_Valid s2
              else match s2 with
              | [] => false
              | b3 :: s3 =>
                  if ((b0 =? 0xF0) && in_range 0x90 0xBF b1
                      || in_range 0xF1 0xF3 b0 && cont b1
                      || (b0 =? 0xF4) && in_range 0x80 0x8F b1) && cont b2 && cont b3
                  then utf8_Valid s3 else false
              end
          end
      end
  end.

Definition Decoder_String (d : Decoder) : res (bytes * Decoder) :=
  '(b, d) ← Decoder_bytes d;
  if utf8_Valid b then Ok (b, d) else Err errInvalidUtf8.

(** ** Values by kind *)

Record Codec (A : Type) := MkCodec {
  enc : A → bytes → res bytes;
  dec : Decoder → res (A * Decoder);
}.
Arguments MkCodec {A} _ _.
Arguments enc {A} _ _ _.
Arguments dec {A} _ _.

(** [case reflect.Pointer] *)
Definition pointer_codec {A} (c : Codec A) : Codec (option A) := {|
  enc o e := match o with None => Ok (e ++ [0]) | Some x => enc c x (e ++ [1]) end;
  dec d := '(ok, d) ← Decoder_option d;
           if negb ok then Ok (None, d) else '(x, d) ← dec c d; Ok (Some x, d);
|}.

(** [case reflect.Bool] *)
Definition bool_codec : Codec bool := {|
  enc b e := Ok (Encoder_Bool b e); dec := Decoder_Bool |}.

(** [case reflect.Uint8] and [case reflect.Int8] *)
Definition uint8_codec : Codec Z := {|
  enc x e := Ok (Encoder_Uint8 x e); dec := Decoder_Uint8 |}.
Definition int8_codec : Codec Z := {|
  enc x e := Ok (Encoder_Int8 x e); dec := Decoder_Int8 |}.

(** [case reflect.Uint, reflect.Uint16, ...] and the signed kinds, of width [w]. *)
Definition uint_codec (w : Z) : Codec Z := {|
  enc x e := Ok (Encoder_Uint x e);
  dec d := '(x, d) ← Decoder_varint d;
           if negb (x =? wrapU w x) then Err (errOverflows x) else Ok (x, d);
|}.
Definition int_codec (w : Z) : Codec Z := {|
  enc x e := Ok (Encoder_Int x e);
  dec d := '(x, d) ← Decoder_Int d;
           if negb (x =? wrapS w x) then Err (errOverflows x) else Ok (x, d);
|}.

(** [case reflect.String] *)
Definition string_codec : Codec bytes := {|
  enc b e := Ok (Encoder_BytesValue b e); dec := Decoder_String |}.

(** [case reflect.Array] of [n] bytes. *)
Definition byte_array_codec (n : Z) : Codec bytes := {|
  enc b e := Ok (e ++ b);
  dec d := if i64 (d_off d + n) >? len (d_b d) then Err errShort else take_bytes d n;
|}.

(** Elements in order; the first error stops the loop. *)
Fixpoint enc_all {A} (c : Codec A) (l : list A) (e : bytes) : res bytes :=
  match l with
  | [] => Ok e
  | x :: l => e ← enc c x e; enc_all c l e
  end.
Fixpoint dec_n {A} (c : Codec A) (n : nat) (d : Decoder) : res (list A * Decoder) :=
  match n with
  | O => Ok ([], d)
  | S n => '(x, d) ← dec c d; '(l, d) ← dec_n c n d; Ok (x :: l, d)
  end.

(** [case reflect.Array] of [n] values of another kind. *)
Definition array_codec {A} (n : nat) (c : Codec A) : Codec (list A) := {|
  enc l e := enc_all c l e; dec d := dec_n c n d |}.

(** [case reflect.Slice]: the length, then the elements. *)
Definition slice_length (d : Decoder) : res (Z * Decoder) :=
  '(n, d) ← Decoder_varint d;
  if n >? 2 ^ 63 - 1 then Err errSequenceTooLarge
  else if n >? len (d_b d) - d_off d then Err errShort
  else Ok (n, d).

Definition byte_slice_codec : Codec bytes := {|
  enc b e := Ok (Encoder_BytesValue b e);
  dec d := '(n, d) ← slice_length d; take_bytes d n;
|}.

Definition slice_codec {A} (c : Codec A) : Codec (list A) := {|
  enc l e := enc_all c l (appendVarint e (u64 (len l)));
  dec d := '(n, d) ← slice_length d; dec_n c (Z.to_nat n) d;
|}.

(** [case reflect.Struct]: exported fields in order, folded into pairs, and the
    struct itself through the isomorphism with the tuple of its fields. *)
Definition pair_codec {A B} (ca : Codec A) (cb : Codec B) : Codec (A * B) := {|
  enc p e := e ← enc ca p.1 e; enc cb p.2 e;
  dec d := '(a, d) ← dec ca d; '(b, d) ← dec cb d; Ok ((a, b), d);
|}.
Definition struct_codec {A B} (to : B → A) (from : A → B) (c : Codec A) : Codec B := {|
  enc x e := enc c (to x) e;
  dec d := '(a, d) ← dec c d; Ok (from a, d);
|}.

(** ** Entry points *)

Definition Marshal {A} (c : Codec A) (v : A) : res bytes := enc c v [].

Definition Unmarshal {A} (c : Codec A) (data : bytes) : res A :=
  '(v, d) ← dec c (NewDecoder data);
  if negb (Decoder_Done d) then Err ErrTrailingBytes else Ok v.
