(* ===== verification/PostcardFacts.v ===== *)
(** * postcard: round trips and canonicity *)

From S2P Require Import Prelude Postcard.

(** ** Varints *)

(** The encoding of [v], written without the buffer. *)
Fixpoint venc (fuel : nat) (v : Z) : bytes :=
  match fuel with
  | O => [u8 v]
  | S fuel => if v >=? 0x80 then (128 + v `mod` 128) :: venc fuel (v / 128) else [v]
  end.

Lemma lor_128 x : 0 ≤ x → Z.lor (u8 x) 128 = 128 + x `mod` 128.
Proof.
  intros Hx. unfold wrapU.
  assert (x `mod` 2 ^ 8 = x `mod` 128 + (x / 128) `mod` 2 * 128) as ->.
  { change (2 ^ 8) with (128 * 2). rewrite Z.rem_mul_r by lia. lia. }
  pose proof (Z.mod_pos_bound x 128 ltac:(lia)).
  pose proof (Z.mod_pos_bound (x / 128) 2 ltac:(lia)).
  pose proof (lor_disjoint (x `mod` 128) ((x / 128) `mod` 2) 7) as L.
  change (2 ^ 7) with 128 in L. rewrite <-L by lia.
  rewrite <-Z.lor_assoc. change (Z.lor ?a 128) with (Z.lor a (Z.shiftl 1 7)).
  rewrite <-Z.shiftl_lor.
  assert (Z.lor ((x / 128) `mod` 2) 1 = 1) as ->.
  { assert ((x / 128) `mod` 2 = 0 ∨ (x / 128) `mod` 2 = 1) as [-> | ->] by lia; done. }
  rewrite lor_disjoint by lia. lia.
Qed.

Lemma appendVarint_loop_eq fuel dst v :
  0 ≤ v < 2 ^ (7 * (Z.of_nat fuel + 1)) → appendVarint_loop fuel dst v = dst ++ venc fuel v.
Proof.
  revert dst v. induction fuel as [|fuel IH]; intros dst v Hv; simpl; [done|].
  destruct (Z.geb_spec v 128).
  - rewrite lor_128, Z.shiftr_div_pow2 by lia. change (2 ^ 7) with 128.
    rewrite IH; [by rewrite <-app_assoc|].
    split; [apply Z.div_pos; lia|]. apply Z.div_lt_upper_bound; [lia|].
    change 128 with (2 ^ 7). rewrite <-Z.pow_add_r by lia.
    eapply Z.lt_le_trans; [apply Hv|]. apply Z.pow_le_mono_r; lia.
  - unfold wrapU. rewrite Z.mod_small by lia. done.
Qed.

Definition varint (v : Z) : bytes := venc 10 v.

Lemma appendVarint_eq dst v : 0 ≤ v < 2 ^ 64 → appendVarint dst v = dst ++ varint v.
Proof. intros. apply appendVarint_loop_eq. simpl in *. lia. Qed.

Lemma venc_bytes fuel v : 0 ≤ v → Forall is_byte (venc fuel v).
Proof.
  revert v. induction fuel as [|fuel IH]; intros v Hv; simpl.
  - apply Forall_singleton. by apply (wrapU_range 8).
  - destruct (Z.geb_spec v 128).
    + constructor; [|apply IH, Z.div_pos; lia].
      pose proof (Z.mod_pos_bound v 128 ltac:(lia)). unfold is_byte. lia.
    + apply Forall_singleton. unfold is_byte. lia.
Qed.

Lemma venc_nonempty fuel v : 1 ≤ len (venc fuel v).
Proof. destruct fuel; simpl; [done|]. case_match; rewrite len_cons; pose proof (len_nonneg (venc fuel (v / 128))); rewrite ?len_nil; lia. Qed.

Lemma appendVarint_longer dst v : len dst < len (appendVarint dst v).
Proof.
  unfold appendVarint. generalize 10%nat as fuel. intros fuel. revert dst v.
  induction fuel as [|fuel IH]; intros dst v; simpl.
  - rewrite len_app, len_cons, len_nil. lia.
  - case_match; [|rewrite len_app, len_cons, len_nil; lia].
    etrans; [|apply IH]. rewrite len_app, len_cons, len_nil. lia.
Qed.

(** One round of the reader adds seven bits above the accumulated ones. *)
Lemma read_accumulate acc b i :
  0 ≤ i → 0 ≤ acc < 2 ^ (7 * i) → 0 ≤ b `mod` 128 * 2 ^ (7 * i) < 2 ^ 64 →
  Z.lor acc (u64 (Z.shiftl (Z.land b 0x7f) (7 * i))) = acc + b `mod` 128 * 2 ^ (7 * i).
Proof.
  intros Hi Hacc Hb. change 0x7f with (2 ^ 7 - 1). rewrite land_ones_low by lia.
  change (2 ^ 7) with 128. rewrite wrapU_small; [apply lor_disjoint; lia|].
  by rewrite Z.shiftl_mul_pow2 by lia.
Qed.

Lemma read_venc fuel v i acc rest :
  (0 < fuel)%nat → 0 ≤ i → i + Z.of_nat fuel = 10 →
  0 ≤ acc < 2 ^ (7 * i) → 0 ≤ v < 2 ^ (64 - 7 * i) → (0 < i → 0 < v) →
  readVarint_loop (venc fuel v ++ rest) i acc
    = Ok (acc + v * 2 ^ (7 * i), i + len (venc fuel v)).
Proof.
  revert v i acc. induction fuel as [|fuel IH]; intros v i acc Hf Hi Hfi Hacc Hv Hnz; [lia|].
  assert (2 ^ 64 = 2 ^ (64 - 7 * i) * 2 ^ (7 * i)) as E64
    by (rewrite <-Z.pow_add_r by lia; f_equal; lia).
  pose proof (Z.pow_pos_nonneg 2 (7 * i) ltac:(lia) ltac:(lia)).
  cbn [venc]. destruct (Z.geb_spec v 128) as [Hge|Hlt]; cbn [app readVarint_loop].
  - assert (i < 9).
    { destruct (decide (i < 9)); [done|]. assert (i = 9) by lia. subst.
      change (64 - 7 * 9) with 1 in Hv. lia. }
    destruct (Z.geb_spec i 10); [lia|]. destruct (Z.eqb_spec i 9); [lia|]. cbn [andb].
    pose proof (Z.mod_pos_bound v 128 ltac:(lia)).
    assert ((128 + v `mod` 128) `mod` 128 = v `mod` 128) as Emod.
    { rewrite <-(Z.mod_add _ (-1)) by lia.
      replace (128 + v `mod` 128 + -1 * 128) with (v `mod` 128) by lia. by apply Z.mod_mod. }
    rewrite read_accumulate; rewrite ?Emod; [|lia..|].
    2:{ rewrite E64. split; [apply Z.mul_nonneg_nonneg; lia|].
        apply Z.mul_lt_mono_pos_r; [done|]. pose proof (Z.mod_le v 128). lia. }
    destruct (Z.ltb_spec (128 + v `mod` 128) 128); [lia|].
    assert (2 ^ (7 * (i + 1)) = 128 * 2 ^ (7 * i)) as E7.
    { change 128 with (2 ^ 7). rewrite <-Z.pow_add_r by lia. f_equal. lia. }
    rewrite IH; [|lia|lia|lia| | |].
    + f_equal. f_equal; [|rewrite len_cons; lia].
      rewrite E7. pose proof (Z.div_mod v 128 ltac:(lia)). nia.
    + rewrite E7. nia.
    + split; [apply Z.div_pos; lia|]. apply Z.div_lt_upper_bound; [lia|].
      change 128 with (2 ^ 7). rewrite <-Z.pow_add_r by lia.
      replace (7 + (64 - 7 * (i + 1))) with (64 - 7 * i) by lia. lia.
    + intros _. apply Z.div_str_pos. lia.
  - destruct (Z.geb_spec i 10); [lia|].
    destruct ((i =? 9) && (v >? 1)) eqn:E9.
    { apply andb_true_iff in E9 as [->%Z.eqb_eq E9]. change (64 - 7 * 9) with 1 in Hv. lia. }
    rewrite read_accumulate; [|lia..|]; rewrite ?(Z.mod_small v 128) by lia.
    2:{ rewrite E64. nia. }
    destruct (Z.ltb_spec v 128); [|lia].
    destruct ((i >? 0) && (v =? 0)) eqn:E0.
    { apply andb_true_iff in E0 as [E0 ->%Z.eqb_eq]. lia. }
    done.
Qed.

Lemma readVarint_varint v rest :
  0 ≤ v < 2 ^ 64 → readVarint (varint v ++ rest) = Ok (v, len (varint v)).
Proof.
  intros Hv. unfold readVarint, varint. rewrite read_venc by (simpl; lia).
  f_equal. f_equal; simpl; lia.
Qed.

(** The reader accepts nothing but the writer's output. *)
Lemma read_canonical buf fuel i acc v n :
  Forall is_byte buf → (0 < fuel)%nat → 0 ≤ i → i + Z.of_nat fuel = 10 →
  0 ≤ acc < 2 ^ (7 * i) → readVarint_loop buf i acc = Ok (v, n) →
  ∃ x tail, v = acc + x * 2 ^ (7 * i) ∧ 0 ≤ x < 2 ^ (64 - 7 * i) ∧ (0 < i → 0 < x) ∧
    buf = venc fuel x ++ tail ∧ n = i + len (venc fuel x).
Proof.
  revert fuel i acc. induction buf as [|b buf IH]; intros fuel i acc Hb Hf Hi Hfi Hacc Hr; [done|].
  inversion Hb as [|?? Hb0 Hb1]; subst. unfold is_byte in Hb0.
  destruct fuel as [|fuel]; [lia|]. cbn [readVarint_loop] in Hr.
  pose proof (Z.pow_pos_nonneg 2 (7 * i) ltac:(lia) ltac:(lia)).
  assert (2 ^ 64 = 2 ^ (64 - 7 * i) * 2 ^ (7 * i)) as E64
    by (rewrite <-Z.pow_add_r by lia; f_equal; lia).
  destruct (Z.geb_spec i 10); [lia|].
  destruct ((i =? 9) && (b >? 1)) eqn:E9; [done|].
  assert (b `mod` 128 < 2 ^ (64 - 7 * i)) as Hsmall.
  { pose proof (Z.mod_pos_bound b 128 ltac:(lia)).
    apply andb_false_iff in E9 as [E9|E9].
    - apply Z.eqb_neq in E9. apply Z.lt_le_trans with (2 ^ 7); [lia|].
      apply Z.pow_le_mono_r; lia.
    - destruct (decide (i = 9)) as [->|]; [change (64 - 7 * 9) with 1;
        pose proof (Z.mod_le b 128); lia|].
      apply Z.lt_le_trans with (2 ^ 7); [lia|]. apply Z.pow_le_mono_r; lia. }
  pose proof (Z.mod_pos_bound b 128 ltac:(lia)).
  rewrite read_accumulate in Hr; [|lia..|].
  2:{ rewrite E64. split; [apply Z.mul_nonneg_nonneg; lia|]. by apply Z.mul_lt_mono_pos_r. }
  destruct (Z.ltb_spec b 128) as [Hlt|Hge].
  - destruct ((i >? 0) && (b =? 0)) eqn:E0; [done|]. injection Hr as <- <-.
    exists b, buf. rewrite (Z.mod_small b) in * by lia. cbn [venc].
    destruct (Z.geb_spec b 128); [lia|]. split_and!; [done|lia..| |done|done].
    intros Hpos. apply andb_false_iff in E0 as [E0|E0]; lia.
  - assert (i < 9).
    { apply andb_false_iff in E9 as [E9|E9]; [apply Z.eqb_neq in E9; lia|lia]. }
    assert (2 ^ (7 * (i + 1)) = 128 * 2 ^ (7 * i)) as E7.
    { change 128 with (2 ^ 7). rewrite <-Z.pow_add_r by lia. f_equal. lia. }
    apply (IH fuel) in Hr as (x & tail & -> & Hx & Hpos & -> & ->); [|done|lia|lia|lia|nia].
    exists (b `mod` 128 + x * 128), tail.
    assert (b = 128 + b `mod` 128) as Eb.
    { rewrite (Z.div_mod b 128) at 1 by lia.
      assert (b / 128 = 1) as -> by (symmetry; apply (Z.div_unique _ _ _ (b - 128)); lia). lia. }
    cbn [venc]. destruct (Z.geb_spec (b `mod` 128 + x * 128) 128); [|lia].
    rewrite Z.mod_add, Z.mod_mod, Z.div_add, (Z.div_small (b `mod` 128)) by lia.
    rewrite <-Eb, Z.add_0_l, len_cons. split_and!; [rewrite E7; lia|lia| |lia|done|lia].
    replace (64 - 7 * i) with (64 - 7 * (i + 1) + 7) by lia.
    rewrite Z.pow_add_r by lia. change (2 ^ 7) with 128. lia.
Qed.

Lemma readVarint_canonical buf v n :
  Forall is_byte buf → readVarint buf = Ok (v, n) →
  0 ≤ v < 2 ^ 64 ∧ n = len (varint v) ∧ ∃ tail, buf = varint v ++ tail.
Proof.
  intros Hb Hr. apply (read_canonical buf 10 0 0) in Hr as (x & tail & -> & Hx & _ & -> & ->);
    [|done|lia|lia|lia|lia].
  change (64 - 7 * 0) with 64 in Hx. replace (0 + x * 2 ^ (7 * 0)) with x by (simpl; lia).
  fold (varint x). split_and!; [lia..|]. eauto.
Qed.

Lemma venc_len_le fuel n v :
  (1 ≤ n)%nat → 0 ≤ v < 2 ^ (7 * Z.of_nat n) → len (venc fuel v) ≤ Z.of_nat n.
Proof.
  revert n v. induction fuel as [|fuel IH]; intros n v Hn Hv; simpl; [rewrite len_cons, len_nil; lia|].
  destruct (Z.geb_spec v 128); [|rewrite len_cons, len_nil; lia].
  destruct n as [|[|n]]; [lia|simpl in Hv; lia|].
  rewrite len_cons. enough (len (venc fuel (v / 128)) ≤ Z.of_nat (S n)) by lia.
  apply IH; [lia|]. split; [apply Z.div_pos; lia|]. apply Z.div_lt_upper_bound; [lia|].
  change 128 with (2 ^ 7). rewrite <-Z.pow_add_r by lia.
  replace (7 + 7 * Z.of_nat (S n)) with (7 * Z.of_nat (S (S n))) by lia. lia.
Qed.

Lemma varint_len_le n v : (1 ≤ n)%nat → 0 ≤ v < 2 ^ (7 * Z.of_nat n) → len (varint v) ≤ Z.of_nat n.
Proof. apply venc_len_le. Qed.

Lemma varint_len_ge_2 v : 128 ≤ v → 2 ≤ len (varint v).
Proof.
  intros Hv. unfold varint. cbn [venc]. destruct (Z.geb_spec v 128); [|lia].
  rewrite len_cons. pose proof (venc_nonempty 9 (v / 128)). cbn [venc] in *. lia.
Qed.

(** [zigzag] is a bijection between int64 and uint64. *)
Lemma lxor_ones a n : 0 ≤ n → 0 ≤ a < 2 ^ n → Z.lxor a (2 ^ n - 1) = 2 ^ n - 1 - a.
Proof.
  intros Hn Ha. rewrite <-(Z.pred_succ (2 ^ n)), Z.pred_succ.
  replace (2 ^ n - 1) with (Z.ones n) by (rewrite Z.ones_equiv; lia).
  assert (Z.ldiff a (Z.ones n) = 0) as E.
  { rewrite Z.ldiff_ones_r by done. rewrite Z.shiftr_div_pow2, Z.div_small by lia.
    apply Z.shiftl_0_l. }
  rewrite Z.sub_nocarry_ldiff by done. apply Z.bits_inj'. intros m Hm.
  apply Z.bits_inj_iff' with (n := m) in E; [|done]. rewrite Z.bits_0, Z.ldiff_spec in E.
  rewrite Z.lxor_spec, Z.ldiff_spec. by destruct (Z.testbit a m), (Z.testbit (Z.ones n) m).
Qed.

Lemma zigzag_eq v :
  - 2 ^ 63 ≤ v < 2 ^ 63 → zigzag v = if v <? 0 then - 2 * v - 1 else 2 * v.
Proof.
  intros Hv. unfold zigzag. rewrite Z.shiftl_mul_pow2, Z.shiftr_div_pow2 by lia.
  assert (u64 (i64 (v * 2 ^ 1)) = (2 * v) `mod` 2 ^ 64) as ->.
  { unfold wrapU, wrapS. rewrite Zminus_mod_idemp_l. f_equal. lia. }
  destruct (Z.ltb_spec v 0).
  - assert (v / 2 ^ 63 = -1) as ->
      by (symmetry; apply (Z.div_unique _ _ _ (v + 2 ^ 63)); lia).
    change (u64 (-1)) with (2 ^ 64 - 1).
    rewrite <-(Z.mod_add _ 1), (Z.mod_small (2 * v + 1 * 2 ^ 64)) by lia.
    rewrite lxor_ones by lia. lia.
  - rewrite Z.div_small by lia. change (u64 0) with 0. rewrite Z.lxor_0_r.
    apply Z.mod_small. lia.
Qed.

Lemma unzigzag_eq x :
  0 ≤ x < 2 ^ 64 → unzigzag x = if Z.even x then x / 2 else - (x / 2) - 1.
Proof.
  intros Hx. unfold unzigzag. rewrite Z.shiftr_div_pow2 by lia. change (2 ^ 1) with 2.
  assert (0 ≤ x / 2 < 2 ^ 63).
  { split; [apply Z.div_pos; lia|]. apply Z.div_lt_upper_bound; lia. }
  rewrite (wrapS_small 64 (x / 2)) by lia.
  change 1 with (2 ^ 1 - 1). rewrite land_ones_low by lia. change (2 ^ 1) with 2.
  rewrite Zmod_even. destruct (Z.even x).
  - change (i64 (- i64 0)) with 0. apply Z.lxor_0_r.
  - change (i64 (- i64 1)) with (-1). rewrite Z.lxor_m1_r. unfold Z.lnot. lia.
Qed.

Lemma zigzag_range v : - 2 ^ 63 ≤ v < 2 ^ 63 → 0 ≤ zigzag v < 2 ^ 64.
Proof. intros Hv. rewrite zigzag_eq by done. destruct (Z.ltb_spec v 0); lia. Qed.

Lemma unzigzag_zigzag v : - 2 ^ 63 ≤ v < 2 ^ 63 → unzigzag (zigzag v) = v.
Proof.
  intros Hv. rewrite unzigzag_eq by (by apply zigzag_range). rewrite zigzag_eq by done.
  destruct (Z.ltb_spec v 0).
  - replace (-2 * v - 1) with (1 + 2 * (- v - 1)) by lia.
    rewrite Z.even_add_mul_2. simpl. rewrite Z.mul_comm, Z.div_add by lia.
    change (1 / 2) with 0. lia.
  - rewrite Z.even_mul. simpl. rewrite Z.mul_comm, Z.div_mul by lia. done.
Qed.

Lemma zigzag_unzigzag x :
  0 ≤ x < 2 ^ 64 → zigzag (unzigzag x) = x ∧ - 2 ^ 63 ≤ unzigzag x < 2 ^ 63.
Proof.
  intros Hx. rewrite unzigzag_eq by done.
  assert (0 ≤ x / 2 < 2 ^ 63).
  { split; [apply Z.div_pos; lia|]. apply Z.div_lt_upper_bound; lia. }
  pose proof (Z.div_mod x 2 ltac:(lia)) as E. rewrite Zmod_even in E.
  destruct (Z.even x); (split; [|lia]); rewrite zigzag_eq by lia.
  - destruct (Z.ltb_spec (x / 2) 0); lia.
  - destruct (Z.ltb_spec (- (x / 2) - 1) 0); lia.
Qed.

(** ** Codecs *)

(** A decoder that has consumed [pre] and has [tail] left. *)
Definition at_ (pre tail : bytes) : Decoder := MkDecoder (pre ++ tail) (len pre).

(** Go slices have at most [MaxInt] elements. *)
Definition fits (b : bytes) : Prop := len b < 2 ^ 63.

Definition encodes {A} (c : Codec A) (a : A) (bs : bytes) : Prop :=
  ∀ e, enc c a e = Ok (e ++ bs).

(** Both directions of a codec; decoders are given buffers of bytes that fit a slice. *)
Record Lawful {A} (c : Codec A) (wf : A → Prop) : Prop := {
  law_roundtrip a : wf a → ∃ bs, encodes c a bs ∧ Forall is_byte bs ∧
    ∀ pre tail, fits (pre ++ bs ++ tail) → dec c (at_ pre (bs ++ tail)) = Ok (a, at_ (pre ++ bs) tail);
  law_canonical pre tail a d' :
    Forall is_byte tail → fits (pre ++ tail) → dec c (at_ pre tail) = Ok (a, d') →
    wf a ∧ ∃ bs tail', tail = bs ++ tail' ∧ encodes c a bs ∧ d' = at_ (pre ++ bs) tail';
}.
Existing Class Lawful.

Lemma advance_at pre bs tail : advance (at_ pre (bs ++ tail)) (len bs) = at_ (pre ++ bs) tail.
Proof. unfold advance, at_. simpl. by rewrite app_assoc, len_app. Qed.

Lemma slice_of_at pre bs tail :
  slice_of (pre ++ bs ++ tail) (len pre) (len pre + len bs) = Some bs.
Proof.
  unfold slice_of. rewrite !len_app.
  pose proof (len_nonneg pre). pose proof (len_nonneg bs). pose proof (len_nonneg tail).
  rewrite !(proj2 (Z.leb_le _ _)) by lia. simpl. unfold len.
  rewrite Nat2Z.id, drop_app_length, Z.add_simpl_l, Nat2Z.id, take_app_length. done.
Qed.

Lemma slice_rest_at pre tail :
  slice_of (pre ++ tail) (len pre) (len (pre ++ tail)) = Some tail.
Proof.
  rewrite len_app. pose proof (slice_of_at pre tail []) as E. by rewrite app_nil_r in E.
Qed.

Lemma byte_at pre b tail : Decoder_byte (at_ pre (b :: tail)) = Ok (b, at_ (pre ++ [b]) tail).
Proof.
  unfold Decoder_byte, at_. cbn [d_off d_b]. rewrite len_app, len_cons.
  pose proof (len_nonneg tail). destruct (Z.geb_spec (len pre) (len pre + (1 + len tail))); [lia|].
  unfold len at 1. rewrite Nat2Z.id, lookup_app_r, Nat.sub_diag by done. simpl.
  f_equal. f_equal. exact (advance_at pre [b] tail).
Qed.

Lemma byte_at_inv pre tail x d' :
  Decoder_byte (at_ pre tail) = Ok (x, d') →
  ∃ tail', tail = x :: tail' ∧ d' = at_ (pre ++ [x]) tail'.
Proof.
  destruct tail as [|b tail].
  - unfold Decoder_byte, at_. cbn [d_off d_b]. rewrite app_nil_r.
    destruct (Z.geb_spec (len pre) (len pre)); [done|lia].
  - rewrite byte_at. intros [= <- <-]. eauto.
Qed.

Lemma varint_at pre v tail :
  0 ≤ v < 2 ^ 64 →
  Decoder_varint (at_ pre (varint v ++ tail)) = Ok (v, at_ (pre ++ varint v) tail).
Proof.
  intros Hv. unfold Decoder_varint, at_. cbn [d_off d_b]. rewrite slice_rest_at.
  rewrite readVarint_varint by done. simpl. f_equal. f_equal. exact (advance_at pre _ tail).
Qed.

Lemma varint_at_inv pre tail v d' :
  Forall is_byte tail → Decoder_varint (at_ pre tail) = Ok (v, d') →
  0 ≤ v < 2 ^ 64 ∧ ∃ tail', tail = varint v ++ tail' ∧ d' = at_ (pre ++ varint v) tail'.
Proof.
  intros Hb Hr. unfold Decoder_varint, at_ in Hr. cbn [d_off d_b] in Hr.
  rewrite slice_rest_at in Hr. apply result_bind_Ok in Hr as ([x n] & Hr & [= <- <-]).
  apply readVarint_canonical in Hr as (Hv & -> & tail' & ->); [|done].
  split; [done|]. exists tail'. split; [done|]. apply (advance_at pre (varint x) tail').
Qed.

Lemma take_bytes_at pre bs tail :
  fits (pre ++ bs ++ tail) →
  take_bytes (at_ pre (bs ++ tail)) (len bs) = Ok (bs, at_ (pre ++ bs) tail).
Proof.
  intros Hf. unfold take_bytes. cbn [at_ d_off d_b]. unfold fits in Hf.
  rewrite !len_app in Hf. pose proof (len_nonneg pre). pose proof (len_nonneg bs).
  pose proof (len_nonneg tail). rewrite wrapS_small by lia.
  rewrite slice_of_at. f_equal. f_equal. exact (advance_at pre _ tail).
Qed.

Lemma varint_bytes v : 0 ≤ v → Forall is_byte (varint v).
Proof. apply venc_bytes. Qed.

Lemma encodes_varint v : 0 ≤ v < 2 ^ 64 → ∀ e, appendVarint e v = e ++ varint v.
Proof. intros. by apply appendVarint_eq. Qed.

#[global] Instance bool_lawful : Lawful bool_codec (λ _, True).
Proof.
  split.
  - intros b _. exists [if b then 1 else 0]. split_and!.
    + intros e. by destruct b.
    + apply Forall_singleton. unfold is_byte. destruct b; lia.
    + intros pre tail _. simpl. unfold Decoder_Bool. rewrite byte_at. by destruct b.
  - intros pre tail b d' _ _ Hd. simpl in Hd. unfold Decoder_Bool in Hd.
    apply result_bind_Ok in Hd as ([x d] & (tail' & -> & ->)%byte_at_inv & Hd). split; [done|].
    exists [x], tail'. destruct (Z.eqb_spec x 0); [|destruct (Z.eqb_spec x 1); [|done]].
    all: subst; injection Hd as <- <-; by split_and!.
Qed.

#[global] Instance uint8_lawful : Lawful uint8_codec is_byte.
Proof.
  split.
  - intros x Hx. exists [x]. split_and!; [done|by apply Forall_singleton|].
    intros pre tail _. apply byte_at.
  - intros pre tail x d' Hb _ (tail' & -> & ->)%byte_at_inv.
    apply Forall_cons_1 in Hb as [Hx _]. split; [done|]. by exists [x], tail'.
Qed.

#[global] Instance int8_lawful : Lawful int8_codec (λ x, -128 ≤ x < 128).
Proof.
  split.
  - intros x Hx. exists [u8 x]. split_and!.
    + done.
    + apply Forall_singleton. by apply (wrapU_range 8).
    + intros pre tail _. simpl. unfold Decoder_Int8. rewrite byte_at. simpl. f_equal. f_equal.
      unfold wrapS, wrapU. rewrite Zplus_mod_idemp_l.
      rewrite Z.mod_small by (simpl; lia). lia.
  - intros pre tail x d' Hb _ Hd. simpl in Hd. unfold Decoder_Int8 in Hd.
    apply result_bind_Ok in Hd as ([b d] & (tail' & -> & ->)%byte_at_inv & [= <- <-]).
    apply Forall_cons_1 in Hb as [Hx _]. unfold is_byte in Hx. split.
    + unfold wrapS. pose proof (Z.mod_pos_bound (b + 2 ^ (8 - 1)) (2 ^ 8) ltac:(lia)).
      simpl in *. lia.
    + exists [b], tail'. split_and!; [done| |done]. intros e. simpl. unfold Encoder_Int8.
      do 3 f_equal. unfold wrapU, wrapS. rewrite Zminus_mod_idemp_l.
      replace (b + 2 ^ (8 - 1) - 2 ^ (8 - 1)) with b by lia. apply Z.mod_small. lia.
Qed.

Lemma uint_lawful w : 0 ≤ w ≤ 64 → Lawful (uint_codec w) (λ x, 0 ≤ x < 2 ^ w).
Proof.
  intros Hw. assert (2 ^ w ≤ 2 ^ 64) by (apply Z.pow_le_mono_r; lia). split.
  - intros x Hx. exists (varint x). split_and!.
    + intros e. simpl. f_equal. apply encodes_varint. lia.
    + apply varint_bytes. lia.
    + intros pre tail _. simpl. rewrite varint_at by lia. simpl.
      by rewrite wrapU_small, Z.eqb_refl.
  - intros pre tail x d' Hb _ Hd. simpl in Hd.
    apply result_bind_Ok in Hd as ([y d] & (Hy & tail' & -> & ->)%varint_at_inv & Hd); [|done].
    destruct (Z.eqb_spec y (wrapU w y)) as [E|]; [|done]. injection Hd as <- <-.
    split; [rewrite E; apply wrapU_range; lia|].
    exists (varint y), tail'. split_and!; [done| |done].
    intros e. simpl. f_equal. by apply encodes_varint.
Qed.

Lemma int_lawful w :
  0 < w ≤ 64 → Lawful (int_codec w) (λ x, - 2 ^ (w - 1) ≤ x < 2 ^ (w - 1)).
Proof.
  intros Hw. assert (2 ^ (w - 1) ≤ 2 ^ 63) by (apply Z.pow_le_mono_r; lia). split.
  - intros x Hx. pose proof (zigzag_range x ltac:(lia)) as Hz. exists (varint (zigzag x)).
    split_and!.
    + intros e. simpl. f_equal. by apply encodes_varint.
    + apply varint_bytes. lia.
    + intros pre tail _. simpl. unfold Decoder_Int. rewrite varint_at by lia. simpl.
      by rewrite unzigzag_zigzag, wrapS_small, Z.eqb_refl by lia.
  - intros pre tail x d' Hb _ Hd. simpl in Hd. unfold Decoder_Int in Hd.
    apply result_bind_Ok in Hd as ([y d] & Hy & Hd).
    apply result_bind_Ok in Hy as ([z d0] & (Hz & tail' & -> & ->)%varint_at_inv & [= <- <-]); [|done].
    destruct (zigzag_unzigzag z Hz) as [Ez _].
    destruct (Z.eqb_spec (unzigzag z) (wrapS w (unzigzag z))) as [E|]; [|done].
    injection Hd as <- <-. split.
    + rewrite E. unfold wrapS. pose proof (Z.mod_pos_bound (unzigzag z + 2 ^ (w - 1)) (2 ^ w)).
      assert (2 ^ w = 2 * 2 ^ (w - 1)) by (rewrite <-Z.pow_succ_r by lia; f_equal; lia). lia.
    + exists (varint z), tail'. split_and!; [done| |done].
      intros e. simpl. f_equal. unfold Encoder_Int. rewrite Ez. by apply encodes_varint.
Qed.

(** Length-prefixed bytes: the shape shared by strings and byte slices. *)
Lemma encodes_bytes b : fits b → ∀ e, Encoder_BytesValue b e = e ++ varint (len b) ++ b.
Proof.
  intros Hf e. unfold Encoder_BytesValue, fits in *. pose proof (len_nonneg b).
  rewrite wrapU_small by lia. by rewrite encodes_varint, <-app_assoc by lia.
Qed.

Lemma slice_length_at pre n tail :
  0 ≤ n ≤ len tail → fits tail →
  slice_length (at_ pre (varint n ++ tail)) = Ok (n, at_ (pre ++ varint n) tail).
Proof.
  intros Hn Hf. unfold fits in Hf. unfold slice_length. rewrite varint_at by lia. simpl.
  destruct (Z.gtb_spec n (2 ^ 63 - 1)); [lia|].
  rewrite (len_app (pre ++ varint n)). destruct (Z.gtb_spec n (len (pre ++ varint n) + len tail - len (pre ++ varint n))); [lia|done].
Qed.

Lemma slice_length_at_inv pre tail n d' :
  Forall is_byte tail → slice_length (at_ pre tail) = Ok (n, d') →
  0 ≤ n < 2 ^ 63 ∧ ∃ tail', tail = varint n ++ tail' ∧ d' = at_ (pre ++ varint n) tail' ∧
    n ≤ len tail'.
Proof.
  intros Hb Hd. unfold slice_length in Hd.
  apply result_bind_Ok in Hd as ([y d] & (Hy & tail' & -> & ->)%varint_at_inv & Hd); [|done].
  destruct (Z.gtb_spec y (2 ^ 63 - 1)); [done|]. cbn [at_ d_b d_off] in Hd.
  rewrite len_app in Hd. destruct (Z.gtb_spec y (len (pre ++ varint y) + len tail' - len (pre ++ varint y))); [done|].
  injection Hd as <- <-. split; [lia|]. exists tail'. split_and!; [done..|lia].
Qed.

Lemma take_bytes_at_inv pre tail n bs d' :
  0 ≤ n ≤ len tail → fits (pre ++ tail) → take_bytes (at_ pre tail) n = Ok (bs, d') →
  len bs = n ∧ ∃ tail', tail = bs ++ tail' ∧ d' = at_ (pre ++ bs) tail'.
Proof.
  intros Hn Hf. rewrite <-(take_drop (Z.to_nat n) tail) in Hf |- *.
  assert (len (take (Z.to_nat n) tail) = n) as E.
  { unfold len in *. rewrite length_take. lia. }
  rewrite <-E at 3. rewrite take_bytes_at by done. intros [= <- <-]. eauto.
Qed.

#[global] Instance byte_slice_lawful :
  Lawful byte_slice_codec (λ b, Forall is_byte b ∧ fits b).
Proof.
  split.
  - intros b [Hb Hf]. exists (varint (len b) ++ b). split_and!.
    + intros e. simpl. f_equal. by apply encodes_bytes.
    + apply Forall_app. split; [|done]. apply varint_bytes, len_nonneg.
    + intros pre tail Hfit. simpl. rewrite <-app_assoc. unfold fits in Hfit.
      rewrite !len_app in Hfit. pose proof (len_nonneg pre).
      pose proof (len_nonneg (varint (len b))). pose proof (len_nonneg b). pose proof (len_nonneg tail).
      rewrite slice_length_at; [|rewrite len_app; lia|unfold fits; rewrite len_app; lia].
      simpl. rewrite take_bytes_at; [by rewrite <-app_assoc|]. unfold fits. rewrite !len_app. lia.
  - intros pre tail b d' Hb Hf Hd. simpl in Hd.
    apply result_bind_Ok in Hd as ([n d] & (Hn & tail' & -> & -> & Hle)%slice_length_at_inv & Hd); [|done].
    apply take_bytes_at_inv in Hd as (<- & tail'' & -> & ->); [|lia|by rewrite <-app_assoc].
    apply Forall_app in Hb as [_ [Hb _]%Forall_app]. assert (fits b) by (unfold fits; lia).
    split; [done|]. exists (varint (len b) ++ b), tail''. rewrite !app_assoc. split_and!; try done.
    intros e. simpl. f_equal. by apply encodes_bytes.
Qed.

#[global] Instance string_lawful :
  Lawful string_codec (λ b, (Forall is_byte b ∧ fits b) ∧ utf8_Valid b = true).
Proof.
  split.
  - intros b [[Hb Hf] Hu]. exists (varint (len b) ++ b). split_and!.
    + intros e. simpl. f_equal. by apply encodes_bytes.
    + apply Forall_app. split; [|done]. apply varint_bytes, len_nonneg.
    + intros pre tail Hfit. simpl. rewrite <-app_assoc. unfold fits in Hf, Hfit.
      rewrite !len_app in Hfit. pose proof (len_nonneg pre). pose proof (len_nonneg b).
      pose proof (len_nonneg (varint (len b))). pose proof (len_nonneg tail).
      unfold Decoder_String, Decoder_bytes. rewrite varint_at by lia. simpl.
      rewrite (len_app _ (b ++ tail)), (len_app b).
      destruct (Z.gtb_spec (len b) (len (pre ++ varint (len b)) + (len b + len tail) - len (pre ++ varint (len b)))); [lia|].
      rewrite take_bytes_at; [|unfold fits; rewrite !len_app; lia]. simpl.
      by rewrite Hu, <-app_assoc.
  - intros pre tail b d' Hb Hf Hd. simpl in Hd. unfold Decoder_String, Decoder_bytes in Hd.
    apply result_bind_Ok in Hd as ([b0 d0] & Hd & Hu).
    apply result_bind_Ok in Hd as ([n d] & (Hn & tail' & -> & ->)%varint_at_inv & Hd); [|done].
    cbn [at_ d_b d_off] in Hd. rewrite len_app in Hd.
    destruct (Z.gtb_spec n (len (pre ++ varint n) + len tail' - len (pre ++ varint n))); [done|].
    apply take_bytes_at_inv in Hd as (<- & tail'' & -> & ->); [|lia|by rewrite <-app_assoc].
    destruct (utf8_Valid b0) eqn:Hv; [|done]. injection Hu as <- <-.
    apply Forall_app in Hb as [_ [Hb _]%Forall_app].
    assert (fits b0).
    { unfold fits in *. rewrite !len_app in Hf. pose proof (len_nonneg pre).
      pose proof (len_nonneg (varint (len b0))). pose proof (len_nonneg tail''). lia. }
    split; [done|]. exists (varint (len b0) ++ b0), tail''. rewrite !app_assoc. split_and!; try done.
    intros e. simpl. f_equal. by apply encodes_bytes.
Qed.

Lemma byte_array_lawful n :
  0 ≤ n < 2 ^ 62 → Lawful (byte_array_codec n) (λ b, Forall is_byte b ∧ len b = n).
Proof.
  intros Hn. split.
  - intros b [Hb Hl]. exists b. split_and!; [done..|]. intros pre tail Hf. simpl.
    unfold fits in Hf. pose proof (len_nonneg pre). pose proof (len_nonneg tail).
    rewrite !len_app in Hf |- *.
    rewrite wrapS_small by lia. destruct (Z.gtb_spec (len pre + n) (len pre + (len b + len tail))); [lia|].
    rewrite <-Hl. apply take_bytes_at. unfold fits. rewrite !len_app. lia.
  - intros pre tail b d' Hb Hf Hd. simpl in Hd. unfold fits in Hf. rewrite len_app in Hf, Hd.
    pose proof (len_nonneg pre). pose proof (len_nonneg tail).
    destruct (decide (len pre + n < 2 ^ 63)) as [Hs|Hs].
    + rewrite wrapS_small in Hd by lia.
      destruct (Z.gtb_spec (len pre + n) (len pre + len tail)); [done|].
      apply take_bytes_at_inv in Hd as (Hl & tail' & -> & ->); [|lia|unfold fits; rewrite len_app; lia].
      apply Forall_app in Hb as [Hb _]. split; [done|]. by exists b, tail'.
    + (* a wrapped bound is negative and the slice panics *)
      assert (i64 (len pre + n) < 0) as Hneg.
      { assert (i64 (len pre + n) = len pre + n - 2 ^ 64) as ->; [|lia].
        unfold wrapS. rewrite <-(Z.mod_add _ (-1)), Z.mod_small by lia. lia. }
      destruct (Z.gtb_spec (i64 (len pre + n)) (len pre + len tail)); [done|].
      unfold take_bytes, slice_of in Hd. cbn [at_ d_off d_b] in Hd.
      rewrite (proj2 (Z.leb_gt (len pre) _)) in Hd by lia.
      by rewrite andb_false_r in Hd.
Qed.

#[global] Instance pair_lawful {A B} (ca : Codec A) (cb : Codec B) wa wb :
  Lawful ca wa → Lawful cb wb → Lawful (pair_codec ca cb) (λ p, wa p.1 ∧ wb p.2).
Proof.
  intros La Lb. split.
  - intros [a b] [Ha Hb]. simpl in *.
    destruct (law_roundtrip _ _ La a Ha) as (bsa & Ea & Ba & Da).
    destruct (law_roundtrip _ _ Lb b Hb) as (bsb & Eb & Bb & Db).
    exists (bsa ++ bsb). split_and!.
    + intros e. simpl. rewrite Ea. simpl. rewrite Eb. by rewrite <-app_assoc.
    + by apply Forall_app.
    + intros pre tail Hf. simpl. rewrite <-app_assoc, Da by (by rewrite <-app_assoc in Hf).
      simpl. rewrite Db by (by rewrite <-!app_assoc in *). simpl. by rewrite <-app_assoc.
  - intros pre tail [a b] d' Hb Hf Hd. simpl in Hd.
    apply result_bind_Ok in Hd as ([a0 d0] & Hda & Hd).
    apply result_bind_Ok in Hd as ([b0 d1] & Hdb & [= -> -> ->]).
    apply (law_canonical _ _ La) in Hda as (Wa & bsa & t1 & -> & Ea & ->); [|done..].
    apply Forall_app in Hb as [_ Hb].
    apply (law_canonical _ _ Lb) in Hdb as (Wb & bsb & t2 & -> & Eb & ->);
      [|done|by rewrite <-app_assoc].
    split; [done|]. exists (bsa ++ bsb), t2. rewrite !app_assoc. split_and!; try done.
    intros e. simpl. rewrite Ea. simpl. rewrite Eb. by rewrite <-app_assoc.
Qed.

Lemma struct_lawful {A B} (to : B → A) (from : A → B) c wf :
  (∀ a, to (from a) = a) → (∀ b, from (to b) = b) →
  Lawful c wf → Lawful (struct_codec to from c) (λ b, wf (to b)).
Proof.
  intros Htf Hft L. split.
  - intros b Hb. destruct (law_roundtrip _ _ L (to b) Hb) as (bs & E & B0 & D).
    exists bs. split_and!; [done..|]. intros pre tail Hf. simpl. rewrite D by done. simpl.
    by rewrite Hft.
  - intros pre tail b d' Hb Hf Hd. simpl in Hd.
    apply result_bind_Ok in Hd as ([a d0] & Hd & [= <- <-]).
    apply (law_canonical _ _ L) in Hd as (Wa & bs & t & -> & E & ->); [|done..].
    rewrite Htf. split; [done|]. exists bs, t. split_and!; try done.
    intros e. simpl. by rewrite Htf, E.
Qed.

#[global] Instance pointer_lawful {A} (c : Codec A) wf :
  Lawful c wf → Lawful (pointer_codec c) (λ o, match o with Some a => wf a | None => True end).
Proof.
  intros L. split.
  - intros [a|] Hw.
    + destruct (law_roundtrip _ _ L a Hw) as (bs & E & B0 & D). exists (1 :: bs). split_and!.
      * intros e. simpl. rewrite E. by rewrite <-app_assoc.
      * constructor; [unfold is_byte; lia|done].
      * intros pre tail Hf. simpl. unfold Decoder_option. rewrite byte_at. simpl.
        rewrite D by (by rewrite <-app_assoc). simpl. by rewrite <-app_assoc.
    + exists [0]. split_and!; [done|apply Forall_singleton; unfold is_byte; lia|].
      intros pre tail _. simpl. unfold Decoder_option. by rewrite byte_at.
  - intros pre tail o d' Hb Hf Hd. simpl in Hd.
    apply result_bind_Ok in Hd as ([ok d0] & Ho & Hd). unfold Decoder_option in Ho.
    apply result_bind_Ok in Ho as ([x d1] & (t & -> & ->)%byte_at_inv & Ho).
    apply Forall_cons_1 in Hb as [_ Hb].
    destruct (Z.eqb_spec x 0) as [->|]; [|destruct (Z.eqb_spec x 1) as [->|]; [|done]];
      injection Ho as <- <-; simpl in Hd.
    + injection Hd as <- <-. split; [done|]. by exists [0], t.
    + apply result_bind_Ok in Hd as ([a d0] & Hd & [= <- <-]).
      apply (law_canonical _ _ L) in Hd as (Wa & bs & t' & -> & E & ->);
        [|done|by rewrite <-app_assoc].
      split; [done|]. exists (1 :: bs), t'. rewrite <-app_assoc. split_and!; try done.
      intros e. simpl. rewrite E. by rewrite <-app_assoc.
Qed.

(** A slice's length check needs every element to take at least one byte. *)
Definition NonEmpty {A} (c : Codec A) : Prop := ∀ a bs, encodes c a bs → 1 ≤ len bs.

Lemma enc_all_roundtrip {A} (c : Codec A) wf l :
  Lawful c wf → NonEmpty c → Forall wf l →
  ∃ bs, (∀ e, enc_all c l e = Ok (e ++ bs)) ∧ Forall is_byte bs ∧ len l ≤ len bs ∧
    ∀ pre tail, fits (pre ++ bs ++ tail) →
      dec_n c (length l) (at_ pre (bs ++ tail)) = Ok (l, at_ (pre ++ bs) tail).
Proof.
  intros L NE. induction 1 as [|a l Ha Hl (bs & E & B0 & Hlen & D)].
  - exists []. split_and!; [intros e; by rewrite app_nil_r|done|done|].
    intros pre tail _. simpl. by rewrite app_nil_r.
  - destruct (law_roundtrip _ _ L a Ha) as (ba & Ea & Ba & Da). pose proof (NE _ _ Ea).
    exists (ba ++ bs). split_and!.
    + intros e. simpl. rewrite Ea. simpl. rewrite E. by rewrite <-app_assoc.
    + by apply Forall_app.
    + rewrite len_cons, len_app. lia.
    + intros pre tail Hf. rewrite <-app_assoc in Hf |- *. simpl. rewrite Da by done. simpl.
      rewrite D by (by rewrite <-app_assoc). simpl. by rewrite <-app_assoc.
Qed.

Lemma dec_n_canonical {A} (c : Codec A) wf n pre tail l d' :
  Lawful c wf → Forall is_byte tail → fits (pre ++ tail) →
  dec_n c n (at_ pre tail) = Ok (l, d') →
  Forall wf l ∧ length l = n ∧ ∃ bs tail', tail = bs ++ tail' ∧
    (∀ e, enc_all c l e = Ok (e ++ bs)) ∧ d' = at_ (pre ++ bs) tail'.
Proof.
  intros L. revert pre tail l d'. induction n as [|n IH]; intros pre tail l d' Hb Hf Hd; simpl in Hd.
  - injection Hd as <- <-. split_and!; [done..|]. exists [], tail. rewrite app_nil_r.
    split_and!; [done| |done]. intros e. simpl. by rewrite app_nil_r.
  - apply result_bind_Ok in Hd as ([a d0] & Ha & Hd).
    apply result_bind_Ok in Hd as ([l0 d1] & Hl & [= <- <-]).
    apply (law_canonical _ _ L) in Ha as (Wa & bs & t & -> & E & ->); [|done..].
    apply Forall_app in Hb as [_ Hb].
    apply IH in Hl as (Wl & Hn & bs' & t' & -> & E' & ->); [|done|by rewrite <-app_assoc].
    split_and!; [by constructor|simpl; congruence|]. exists (bs ++ bs'), t'.
    rewrite !app_assoc. split_and!; try done. intros e. simpl. rewrite E. simpl.
    by rewrite E', <-app_assoc.
Qed.

Lemma slice_lawful {A} (c : Codec A) wf :
  Lawful c wf → NonEmpty c → Lawful (slice_codec c) (λ l, Forall wf l ∧ len l < 2 ^ 63).
Proof.
  intros L NE. split.
  - intros l [Hl Hfit]. destruct (enc_all_roundtrip c wf l L NE Hl) as (bs & E & B0 & Hlen & D).
    pose proof (len_nonneg l). exists (varint (len l) ++ bs). split_and!.
    + intros e. simpl. rewrite wrapU_small, encodes_varint by lia. by rewrite E, <-app_assoc.
    + apply Forall_app. split; [|done]. apply varint_bytes. lia.
    + intros pre tail Hf. simpl. rewrite <-app_assoc in Hf |- *.
      assert (fits (bs ++ tail)) as Hf'.
      { unfold fits in *. rewrite !len_app in Hf. rewrite len_app.
        pose proof (len_nonneg pre). pose proof (len_nonneg (varint (len l))). lia. }
      pose proof (len_nonneg tail).
      rewrite slice_length_at; [|rewrite len_app; lia|done]. simpl.
      unfold len at 1. rewrite Nat2Z.id, D by (by rewrite <-app_assoc). by rewrite <-app_assoc.
  - intros pre tail l d' Hb Hf Hd. simpl in Hd.
    apply result_bind_Ok in Hd as ([n d] & (Hn & tail' & -> & -> & Hle)%slice_length_at_inv & Hd); [|done].
    apply Forall_app in Hb as [_ Hb].
    apply (dec_n_canonical _ _ _ _ _ _ _ L) in Hd as (Wl & Hl & bs & t & -> & E & ->);
      [|done|by rewrite <-app_assoc].
    assert (len l = n) as En by (unfold len; lia).
    split; [split; [done|lia]|]. exists (varint n ++ bs), t. rewrite !app_assoc.
    split_and!; try done. intros e. simpl.
    rewrite En, wrapU_small, encodes_varint by lia. by rewrite E, <-app_assoc.
Qed.

(** ** Marshal and Unmarshal *)

Lemma Marshal_Unmarshal {A} (c : Codec A) wf a :
  Lawful c wf → wf a →
  ∃ bs, Marshal c a = Ok bs ∧ Forall is_byte bs ∧ (fits bs → Unmarshal c bs = Ok a).
Proof.
  intros L Hw. destruct (law_roundtrip _ _ L a Hw) as (bs & E & B0 & D).
  exists bs. split_and!; [apply E|done|]. intros Hf. unfold Unmarshal.
  specialize (D [] []). rewrite !app_nil_r in D. change (NewDecoder bs) with (at_ [] bs).
  rewrite D by done. simpl. unfold Decoder_Done. simpl. by rewrite app_nil_r, Z.eqb_refl.
Qed.

Lemma Unmarshal_Marshal {A} (c : Codec A) wf data a :
  Lawful c wf → Forall is_byte data → fits data → Unmarshal c data = Ok a →
  Marshal c a = Ok data ∧ wf a.
Proof.
  intros L Hb Hf Hd. unfold Unmarshal in Hd.
  apply result_bind_Ok in Hd as ([v d] & Hv & Hd). change (NewDecoder data) with (at_ [] data) in Hv.
  apply (law_canonical _ _ L) in Hv as (Wv & bs & t & -> & E & ->); [|done..].
  unfold Decoder_Done, at_ in Hd. cbn [d_off d_b] in Hd. rewrite app_nil_l, len_app in Hd.
  destruct (Z.eqb_spec (len bs) (len bs + len t)) as [Et|]; [|done]. injection Hd as <-.
  assert (t = []) as -> by (apply len_0_nil; lia). rewrite app_nil_r. split; [apply E|done].
Qed.

(** ** Properties *)

(** Varints are a bijection between uint64 values and canonical byte
    strings: a value is read back from its encoding, with its length, whatever
    follows; and any input the reader accepts starts with the encoding of the
    value it returns, so no two encodings of a value are accepted. *)
Theorem varint_bijection (v : Z) (rest buf : bytes) (n : Z)
    (Hv : 0 ≤ v < 2 ^ 64) (Hbuf : Forall is_byte buf) :
  readVarint (appendVarint [] v ++ rest) = Ok (v, len (appendVarint [] v)) ∧
  (readVarint buf = Ok (v, n) →
     n = len (appendVarint [] v) ∧ take (Z.to_nat n) buf = appendVarint [] v).
Proof.
  rewrite appendVarint_eq, app_nil_l by done. split; [by apply readVarint_varint|].
  intros (_ & -> & tail & ->)%readVarint_canonical; [|done]. split; [done|].
  unfold len. by rewrite Nat2Z.id, take_app_length.
Qed.

Lemma varint_bijection_witness :
  readVarint (appendVarint [] 300 ++ [7]) = Ok (300, 2) ∧ readVarint [0xac; 0x82; 0] = Err ErrOverlongVarint
  ∧ take 2 [0xac; 0x02; 9] = appendVarint [] 300.
Proof.
  destruct (varint_bijection 300 [7] [0xac; 0x02; 9] 2) as [H1 H2];
    [lia|by_decision|]. split; [apply H1|]. split; [reflexivity|].
  destruct H2 as [_ H2]; [reflexivity|]. exact H2.
Defined.

(** zigzag is a bijection between int64 and uint64: small magnitudes map
    to small codes, and decoding inverts encoding in both directions. *)
Theorem zigzag_bijection (v x : Z)
    (Hv : - 2 ^ 63 ≤ v < 2 ^ 63) (Hx : 0 ≤ x < 2 ^ 64) :
  unzigzag (zigzag v) = v ∧ 0 ≤ zigzag v < 2 ^ 64 ∧ zigzag v ≤ 2 * Z.abs v ∧
  zigzag (unzigzag x) = x ∧ - 2 ^ 63 ≤ unzigzag x < 2 ^ 63.
Proof.
  destruct (zigzag_unzigzag x Hx). split_and!; try lia.
  - by apply unzigzag_zigzag.
  - by apply zigzag_range.
  - by apply zigzag_range.
  - rewrite zigzag_eq by done. destruct (Z.ltb_spec v 0); lia.
Qed.

Lemma zigzag_bijection_witness :
  zigzag (- 2 ^ 63) = 2 ^ 64 - 1 ∧ unzigzag (zigzag (- 2 ^ 63)) = - 2 ^ 63.
Proof. split; [reflexivity|]. apply (zigzag_bijection (- 2 ^ 63) 5); lia. Defined.
