(* ===== verification/GossipTypes.v ===== *)
(** * Gossip wire data: internal/gossipproto/types.go

    Identifiers, membership (HyParView) and broadcast (PlumTree) messages.
    A Go struct with a [Kind] tag and one field per variant is an inductive
    type; kinds outside the declared constants exist only on the wire, where
    the decoders of [GossipWire] reject them.  A [*T] that may be nil is an
    [option]; byte slices and arrays are lists of bytes. *)

From S2P Require Import Prelude.

(** ** Identifiers *)

Definition TopicID : Type := bytes.
Definition PeerID : Type := bytes.
Definition PeerData : Type := bytes.
Definition MessageID : Type := bytes.

#[global] Instance TopicID_eq_dec : EqDecision TopicID := list_eq_dec.
#[global] Instance PeerID_eq_dec : EqDecision PeerID := list_eq_dec.
#[global] Instance PeerData_eq_dec : EqDecision PeerData := list_eq_dec.
#[global] Instance MessageID_eq_dec : EqDecision MessageID := list_eq_dec.
#[global] Instance TopicID_countable : Countable TopicID := list_countable.
#[global] Instance PeerID_countable : Countable PeerID := list_countable.
#[global] Instance MessageID_countable : Countable MessageID := list_countable.

Record PeerInfo := MkPeerInfo { PeerInfo_ID : PeerID; PeerInfo_Data : option PeerData }.

(** [uint16] time-to-live and delivery round; [uint64] priority. *)
Definition Ttl : Type := Z.
Definition Round : Type := Z.
Definition Priority : Type := Z.
Definition PriorityHigh : Priority := 0.
Definition PriorityLow : Priority := 1.

(** [time.Duration] in nanoseconds, and [time.Time] in nanoseconds since the
    zero Time. *)
Definition Duration : Type := Z.
Definition Time : Type := Z.
Definition zeroTime : Time := 0.
Definition Nanosecond : Duration := 1.
Definition Millisecond : Duration := 1000000.
Definition Second : Duration := 1000 * Millisecond.
Definition Minute : Duration := 60 * Second.

(** ** Membership messages *)

Record ForwardJoin := MkForwardJoin { ForwardJoin_Peer : PeerInfo; ForwardJoin_Ttl : Ttl }.
Record Shuffle := MkShuffle
  { Shuffle_Origin : PeerID; Shuffle_Nodes : list PeerInfo; Shuffle_Ttl : Ttl }.
Record ShuffleReply := MkShuffleReply { ShuffleReply_Nodes : list PeerInfo }.
Record Neighbor := MkNeighbor
  { Neighbor_Priority : Priority; Neighbor_Data : option PeerData }.
Record Disconnect := MkDisconnect { Disconnect_Alive : bool; Disconnect_Respond : bool }.

Inductive HyparviewMessage :=
  | HyparviewJoin (Join : option PeerData)
  | HyparviewForwardJoin (m : ForwardJoin)
  | HyparviewShuffle (m : Shuffle)
  | HyparviewShuffleReply (m : ShuffleReply)
  | HyparviewNeighbor (m : Neighbor)
  | HyparviewDisconnect (m : Disconnect).

(** ** Broadcast messages *)

Inductive DeliveryScope :=
  | DeliveryScopeSwarm (r : Round)
  | DeliveryScopeNeighbors.

Record Gossip := MkGossip
  { Gossip_ID : MessageID; Gossip_Content : bytes; Gossip_Scope : DeliveryScope }.
Record IHave := MkIHave { IHave_ID : MessageID; IHave_Round : Round }.
Record Graft := MkGraft { Graft_ID : option MessageID; Graft_Round : Round }.

Inductive PlumtreeMessage :=
  | PlumtreeGossip (m : Gossip)
  | PlumtreePrune
  | PlumtreeGraft (m : Graft)
  | PlumtreeIHave (m : list IHave).

(** ** Topic messages *)

Inductive TopicMessage :=
  | TopicMessageSwarm (m : HyparviewMessage)
  | TopicMessageGossip (m : PlumtreeMessage).

Record Message := MkMessage { Message_Topic : TopicID; Message_Message : TopicMessage }.

(** The longest postcard encoding of an [IHave]. *)
Definition iHavePostcardMaxSize : Z := 32 + 3.

#[global] Instance Ttl_eq_dec : EqDecision Ttl := Z.eq_dec.
#[global] Instance Round_eq_dec : EqDecision Round := Z.eq_dec.
#[global] Instance Priority_eq_dec : EqDecision Priority := Z.eq_dec.
#[global] Instance Duration_eq_dec : EqDecision Duration := Z.eq_dec.
#[global] Instance Time_eq_dec : EqDecision Time := Z.eq_dec.
#[global] Instance PeerInfo_eq_dec : EqDecision PeerInfo.
Proof. solve_decision. Defined.
#[global] Instance ForwardJoin_eq_dec : EqDecision ForwardJoin.
Proof. solve_decision. Defined.
#[global] Instance Shuffle_eq_dec : EqDecision Shuffle.
Proof. solve_decision. Defined.
#[global] Instance ShuffleReply_eq_dec : EqDecision ShuffleReply.
Proof. solve_decision. Defined.
#[global] Instance Neighbor_eq_dec : EqDecision Neighbor.
Proof. solve_decision. Defined.
#[global] Instance Disconnect_eq_dec : EqDecision Disconnect.
Proof. solve_decision. Defined.
#[global] Instance HyparviewMessage_eq_dec : EqDecision HyparviewMessage.
Proof. solve_decision. Defined.
#[global] Instance DeliveryScope_eq_dec : EqDecision DeliveryScope.
Proof. solve_decision. Defined.
#[global] Instance Gossip_eq_dec : EqDecision Gossip.
Proof. solve_decision. Defined.
#[global] Instance IHave_eq_dec : EqDecision IHave.
Proof. solve_decision. Defined.
#[global] Instance Graft_eq_dec : EqDecision Graft.
Proof. solve_decision. Defined.
#[global] Instance PlumtreeMessage_eq_dec : EqDecision PlumtreeMessage.
Proof. solve_decision. Defined.
#[global] Instance TopicMessage_eq_dec : EqDecision TopicMessage.
Proof. solve_decision. Defined.
#[global] Instance Message_eq_dec : EqDecision Message.
Proof. solve_decision. Defined.
