(* ===== verification/GossipWire.v ===== *)
(** * Gossip on the wire: the codecs of types.go and frame.go

    The postcard codecs of the message types (their struct fields in order, and
    the EncodePostcard/DecodePostcard methods of the tagged types) and the
    length-prefixed frames they travel in. *)

From S2P Require Import Prelude Postcard GossipTypes.

(** ** Structs *)

Definition id_codec : Codec bytes := byte_array_codec 32.
Definition PeerData_codec : Codec PeerData := byte_slice_codec.
Definition Ttl_codec : Codec Ttl := uint_codec 16.
Definition Round_codec : Codec Round := uint_codec 16.

Definition PeerInfo_codec : Codec PeerInfo :=
  struct_codec (λ p, (PeerInfo_ID p, PeerInfo_Data p)) (λ '(i, d), MkPeerInfo i d)
    (pair_codec id_codec (pointer_codec PeerData_codec)).
Definition ForwardJoin_codec : Codec ForwardJoin :=
  struct_codec (λ m, (ForwardJoin_Peer m, ForwardJoin_Ttl m)) (λ '(p, t), MkForwardJoin p t)
    (pair_codec PeerInfo_codec Ttl_codec).
Definition Shuffle_codec : Codec Shuffle :=
  struct_codec (λ m, (Shuffle_Origin m, (Shuffle_Nodes m, Shuffle_Ttl m)))
    (λ '(o, (n, t)), MkShuffle o n t)
    (pair_codec id_codec (pair_codec (slice_codec PeerInfo_codec) Ttl_codec)).
Definition ShuffleReply_codec : Codec ShuffleReply :=
  struct_codec ShuffleReply_Nodes MkShuffleReply (slice_codec PeerInfo_codec).
Definition Neighbor_codec : Codec Neighbor :=
  struct_codec (λ m, (Neighbor_Priority m, Neighbor_Data m)) (λ '(p, d), MkNeighbor p d)
    (pair_codec (uint_codec 64) (pointer_codec PeerData_codec)).
Definition Disconnect_codec : Codec Disconnect :=
  struct_codec (λ m, (Disconnect_Alive m, Disconnect_Respond m)) (λ '(a, r), MkDisconnect a r)
    (pair_codec bool_codec bool_codec).
Definition IHave_codec : Codec IHave :=
  struct_codec (λ m, (IHave_ID m, IHave_Round m)) (λ '(i, r), MkIHave i r)
    (pair_codec id_codec Round_codec).
Definition Graft_codec : Codec Graft :=
  struct_codec (λ m, (Graft_ID m, Graft_Round m)) (λ '(i, r), MkGraft i r)
    (pair_codec (pointer_codec id_codec) Round_codec).

(** ** Tagged types: EncodePostcard and DecodePostcard *)

(** Decode the payload with [c] and wrap it. *)
Definition dec_as {A B} (c : Codec A) (inj : A → B) (d : Decoder) : res (B * Decoder) :=
  '(x, d) ← dec c d; Ok (inj x, d).

Definition HyparviewMessage_kind (m : HyparviewMessage) : Z :=
  match m with
  | HyparviewJoin _ => 0
  | HyparviewForwardJoin _ => 1
  | HyparviewShuffle _ => 2
  | HyparviewShuffleReply _ => 3
  | HyparviewNeighbor _ => 4
  | HyparviewDisconnect _ => 5
  end.

Definition HyparviewMessage_EncodePostcard (m : HyparviewMessage) (e : bytes) : res bytes :=
  let e := Encoder_Uint (HyparviewMessage_kind m) e in
  match m with
  | HyparviewJoin x => enc (pointer_codec PeerData_codec) x e
  | HyparviewForwardJoin x => enc ForwardJoin_codec x e
  | HyparviewShuffle x => enc Shuffle_codec x e
  | HyparviewShuffleReply x => enc ShuffleReply_codec x e
  | HyparviewNeighbor x => enc Neighbor_codec x e
  | HyparviewDisconnect x => enc Disconnect_codec x e
  end.

Definition HyparviewMessage_payload (kind : Z) (d : Decoder) :
    res (HyparviewMessage * Decoder) :=
  if kind =? 0 then dec_as (pointer_codec PeerData_codec) HyparviewJoin d
  else if kind =? 1 then dec_as ForwardJoin_codec HyparviewForwardJoin d
  else if kind =? 2 then dec_as Shuffle_codec HyparviewShuffle d
  else if kind =? 3 then dec_as ShuffleReply_codec HyparviewShuffleReply d
  else if kind =? 4 then dec_as Neighbor_codec HyparviewNeighbor d
  else if kind =? 5 then dec_as Disconnect_codec HyparviewDisconnect d
  else Err (errUnknownKind kind).

Definition HyparviewMessage_DecodePostcard (d : Decoder) : res (HyparviewMessage * Decoder) :=
  '(kind, d) ← Decoder_Uint d; HyparviewMessage_payload kind d.

Definition HyparviewMessage_codec : Codec HyparviewMessage :=
  MkCodec HyparviewMessage_EncodePostcard HyparviewMessage_DecodePostcard.

Definition DeliveryScope_kind (s : DeliveryScope) : Z :=
  match s with DeliveryScopeSwarm _ => 0 | DeliveryScopeNeighbors => 1 end.

Definition DeliveryScope_EncodePostcard (s : DeliveryScope) (e : bytes) : res bytes :=
  let e := Encoder_Uint (DeliveryScope_kind s) e in
  match s with
  | DeliveryScopeSwarm r => enc Round_codec r e
  | DeliveryScopeNeighbors => Ok e
  end.

Definition DeliveryScope_payload (kind : Z) (d : Decoder) : res (DeliveryScope * Decoder) :=
  if kind =? 0 then dec_as Round_codec DeliveryScopeSwarm d
  else if kind =? 1 then Ok (DeliveryScopeNeighbors, d)
  else Err (errUnknownKind kind).

Definition DeliveryScope_DecodePostcard (d : Decoder) : res (DeliveryScope * Decoder) :=
  '(kind, d) ← Decoder_Uint d; DeliveryScope_payload kind d.

Definition DeliveryScope_codec : Codec DeliveryScope :=
  MkCodec DeliveryScope_EncodePostcard DeliveryScope_DecodePostcard.

Definition Gossip_codec : Codec Gossip :=
  struct_codec (λ m, (Gossip_ID m, (Gossip_Content m, Gossip_Scope m)))
    (λ '(i, (c, s)), MkGossip i c s)
    (pair_codec id_codec (pair_codec byte_slice_codec DeliveryScope_codec)).

Definition PlumtreeMessage_kind (m : PlumtreeMessage) : Z :=
  match m with
  | PlumtreeGossip _ => 0
  | PlumtreePrune => 1
  | PlumtreeGraft _ => 2
  | PlumtreeIHave _ => 3
  end.

Definition PlumtreeMessage_EncodePostcard (m : PlumtreeMessage) (e : bytes) : res bytes :=
  let e := Encoder_Uint (PlumtreeMessage_kind m) e in
  match m with
  | PlumtreeGossip x => enc Gossip_codec x e
  | PlumtreePrune => Ok e
  | PlumtreeGraft x => enc Graft_codec x e
  | PlumtreeIHave x => enc (slice_codec IHave_codec) x e
  end.

Definition PlumtreeMessage_payload (kind : Z) (d : Decoder) :
    res (PlumtreeMessage * Decoder) :=
  if kind =? 0 then dec_as Gossip_codec PlumtreeGossip d
  else if kind =? 1 then Ok (PlumtreePrune, d)
  else if kind =? 2 then dec_as Graft_codec PlumtreeGraft d
  else if kind =? 3 then dec_as (slice_codec IHave_codec) PlumtreeIHave d
  else Err (errUnknownKind kind).

Definition PlumtreeMessage_DecodePostcard (d : Decoder) : res (PlumtreeMessage * Decoder) :=
  '(kind, d) ← Decoder_Uint d; PlumtreeMessage_payload kind d.

Definition PlumtreeMessage_codec : Codec PlumtreeMessage :=
  MkCodec PlumtreeMessage_EncodePostcard PlumtreeMessage_DecodePostcard.

Definition TopicMessage_kind (m : TopicMessage) : Z :=
  match m with TopicMessageSwarm _ => 0 | TopicMessageGossip _ => 1 end.

Definition TopicMessage_EncodePostcard (m : TopicMessage) (e : bytes) : res bytes :=
  let e := Encoder_Uint (TopicMessage_kind m) e in
  match m with
  | TopicMessageSwarm x => enc HyparviewMessage_codec x e
  | TopicMessageGossip x => enc PlumtreeMessage_codec x e
  end.

Definition TopicMessage_payload (kind : Z) (d : Decoder) : res (TopicMessage * Decoder) :=
  if kind =? 0 then dec_as HyparviewMessage_codec TopicMessageSwarm d
  else if kind =? 1 then dec_as PlumtreeMessage_codec TopicMessageGossip d
  else Err (errUnknownKind kind).

Definition TopicMessage_DecodePostcard (d : Decoder) : res (TopicMessage * Decoder) :=
  '(kind, d) ← Decoder_Uint d; TopicMessage_payload kind d.

Definition TopicMessage_codec : Codec TopicMessage :=
  MkCodec TopicMessage_EncodePostcard TopicMessage_DecodePostcard.

(** ** Frames *)

Definition DefaultMaxMessageSize : Z := 4096.
Definition MinMaxMessageSize : Z := 512.

Definition NormalizeMaxMessageSize (n : Z) : Z :=
  if n <=? 0 then DefaultMaxMessageSize
  else if n <? MinMaxMessageSize then MinMaxMessageSize
  else n.

Record StreamHeader := MkStreamHeader { StreamHeader_Topic : TopicID }.
Definition StreamHeader_codec : Codec StreamHeader :=
  struct_codec StreamHeader_Topic MkStreamHeader id_codec.

(** binary.BigEndian.PutUint32 and Uint32 *)
Definition PutUint32 (v : Z) : bytes :=
  [u8 (Z.shiftr v 24); u8 (Z.shiftr v 16); u8 (Z.shiftr v 8); u8 v].
Definition Uint32 (b0 b1 b2 b3 : Z) : Z :=
  Z.lor b3 (Z.lor (Z.shiftl b2 8) (Z.lor (Z.shiftl b1 16) (Z.shiftl b0 24))).

(** [io.ReadFull] on a stream holding the bytes [r] and then ending: the bytes
    read and the rest, or the read error. *)
Definition ReadFull (n : Z) (r : bytes) : result ReadError (bytes * bytes) :=
  if n <=? len r then Ok (take (Z.to_nat n) r, drop (Z.to_nat n) r)
  else if len r =? 0 then Err EOF else Err ErrUnexpectedEOF.

Section frames.
(** An [io.Writer] with state [W] and write errors [E]. *)
Context {W E : Type} (Write : bytes → W → result E W).

Inductive FrameError :=
  | frameMarshal (e : PostcardError)
  | frameUnmarshal (e : PostcardError)
  | ErrFrameTooLarge
  | frameWriteLength (e : E)
  | frameWriteBody (e : E)
  | frameReadLength (e : ReadError)
  | frameReadBody (e : ReadError).

Definition WriteFrame {A} (c : Codec A) (w : W) (v : A) (maxSize : Z) : result FrameError W :=
  let maxSize := NormalizeMaxMessageSize maxSize in
  match Marshal c v with
  | Err e => Err (frameMarshal e)
  | Ok b =>
      if len b >=? maxSize then Err ErrFrameTooLarge
      else
        match Write (PutUint32 (u32 (len b))) w with
        | Err e => Err (frameWriteLength e)
        | Ok w =>
            match Write b w with
            | Err e => Err (frameWriteBody e)
            | Ok w => Ok w
            end
        end
  end.

Definition ReadFrame {A} (c : Codec A) (r : bytes) (maxSize : Z) :
    result FrameError (A * bytes) :=
  let maxSize := NormalizeMaxMessageSize maxSize in
  match ReadFull 4 r with
  | Err e => Err (frameReadLength e)
  | Ok (hdr, r) =>
      match hdr with
      | [b0; b1; b2; b3] =>
          let n := i64 (Uint32 b0 b1 b2 b3) in
          if (n <? 0) || (n >? maxSize) then Err ErrFrameTooLarge
          else
            match ReadFull n r with
            | Err e => Err (frameReadBody e)
            | Ok (b, r) =>
                match Unmarshal c b with
                | Err e => Err (frameUnmarshal e)
                | Ok v => Ok (v, r)
                end
            end
      | _ => Err (frameReadLength ErrUnexpectedEOF)
      end
  end.
End frames.
Arguments FrameError : clear implicits.

(** ** Payload budget *)

(** The size of the encoding of an empty swarm-scoped payload; the Go code
    panics if it does not marshal. *)
Definition plumtreePayloadHeaderSize : option Z :=
  match Marshal TopicMessage_codec
          (TopicMessageGossip
             (PlumtreeGossip (MkGossip (replicate 32 0) [] (DeliveryScopeSwarm 0)))) with
  | Ok b => Some (len b)
  | Err _ => None
  end.

Definition MaxPayloadSize (maxMessageSize : Z) : Z :=
  let n := NormalizeMaxMessageSize maxMessageSize - default 0 plumtreePayloadHeaderSize in
  if n <? 0 then 0 else n.

Definition DefaultMaxPayloadSize : Z := MaxPayloadSize DefaultMaxMessageSize.

Example plumtreePayloadHeaderSize_value : plumtreePayloadHeaderSize = Some 37.
Proof. vm_compute. reflexivity. Qed.
