(* ===== verification/GossipWireFacts.v ===== *)
(** * Gossip messages survive the wire *)

From S2P Require Import Prelude Postcard PostcardFacts GossipTypes GossipWire.

(** ** Tagged types *)

Section union.
Context {A : Type} (kind : A → Z) (enc_payload : A → bytes → res bytes)
  (dec_payload : Z → Decoder → res (A * Decoder)) (wf : A → Prop).

(** The payload of one kind, as a codec of its own. *)
Definition payload_codec (k : Z) : Codec A := MkCodec enc_payload (dec_payload k).

Definition union_codec : Codec A := {|
  enc a e := enc_payload a (Encoder_Uint (kind a) e);
  dec d := '(k, d) ← Decoder_Uint d; dec_payload k d;
|}.

Lemma union_lawful :
  (∀ a, 0 ≤ kind a < 2 ^ 64) →
  (∀ k, Lawful (payload_codec k) (λ a, kind a = k ∧ wf a)) → Lawful union_codec wf.
Proof.
  intros Hk L. split.
  - intros a Ha. destruct (law_roundtrip _ _ (L (kind a)) a) as (bs & E & B0 & D); [done|].
    exists (varint (kind a) ++ bs). split_and!.
    + intros e. unfold encodes in E. simpl in *. unfold Encoder_Uint.
      rewrite appendVarint_eq by done. by rewrite E, <-app_assoc.
    + apply Forall_app. split; [|done]. apply varint_bytes. apply Hk.
    + intros pre tail Hf. simpl in *. unfold Decoder_Uint.
      rewrite <-app_assoc in Hf |- *. rewrite varint_at by done. simpl.
      rewrite D by (by rewrite <-app_assoc). by rewrite <-app_assoc.
  - intros pre tail a d' Hb Hf Hd. simpl in Hd. unfold Decoder_Uint in Hd.
    apply result_bind_Ok in Hd as ([k d] & (Hk' & t & -> & ->)%varint_at_inv & Hd); [|done].
    apply Forall_app in Hb as [_ Hb].
    apply (law_canonical _ _ (L k)) in Hd as ([<- Ha] & bs & t' & -> & E & ->);
      [|done|by rewrite <-app_assoc].
    split; [done|]. exists (varint (kind a) ++ bs), t'. rewrite !app_assoc. split_and!; try done.
    intros e. unfold encodes in E. simpl in *. unfold Encoder_Uint.
    rewrite appendVarint_eq by done. by rewrite E, <-app_assoc.
Qed.

(** A kind with a payload. *)
Lemma variant_lawful {P} (c : Codec P) wp (inj : P → A) k :
  Lawful c wp → (∀ x e, enc_payload (inj x) e = enc c x e) →
  (∀ d, dec_payload k d = dec_as c inj d) →
  (∀ a, kind a = k ↔ ∃ x, a = inj x) → (∀ x, wf (inj x) ↔ wp x) →
  Lawful (payload_codec k) (λ a, kind a = k ∧ wf a).
Proof.
  intros L He Hd Hinj Hwf. split.
  - intros a [[x ->]%Hinj Hx%Hwf]. destruct (law_roundtrip _ _ L x Hx) as (bs & E & B0 & D).
    exists bs. split_and!; [|done|].
    + intros e. simpl. by rewrite He, E.
    + intros pre tail Hf. simpl. rewrite Hd. unfold dec_as. by rewrite D.
  - intros pre tail a d' Hb Hf H. simpl in H. rewrite Hd in H. unfold dec_as in H.
    apply result_bind_Ok in H as ([x d] & H & [= <- <-]).
    apply (law_canonical _ _ L) in H as (Wx & bs & t & -> & E & ->); [|done..].
    split; [split; [apply Hinj; eauto|by apply Hwf]|]. exists bs, t. split_and!; try done.
    intros e. simpl. by rewrite He, E.
Qed.

(** A kind without payload. *)
Lemma nullary_lawful a0 k :
  (∀ e, enc_payload a0 e = Ok e) → (∀ d, dec_payload k d = Ok (a0, d)) →
  (∀ a, kind a = k ↔ a = a0) → wf a0 → Lawful (payload_codec k) (λ a, kind a = k ∧ wf a).
Proof.
  intros He Hd Hk Hw. split.
  - intros a [->%Hk _]. exists []. split_and!; [|done|].
    + intros e. simpl. by rewrite He, app_nil_r.
    + intros pre tail Hf. simpl. by rewrite Hd, app_nil_r.
  - intros pre tail a d' Hb Hf H. simpl in H. rewrite Hd in H. injection H as <- <-.
    split; [split; [by apply Hk|done]|]. exists [], tail. rewrite app_nil_r.
    split_and!; try done. intros e. simpl. by rewrite He, app_nil_r.
Qed.

(** A kind outside the declared constants. *)
Lemma unknown_lawful k :
  (∀ d, ∃ e, dec_payload k d = Err e) → (∀ a, kind a ≠ k) →
  Lawful (payload_codec k) (λ a, kind a = k ∧ wf a).
Proof.
  intros Hd Hk. split.
  - intros a [Ha _]. by destruct (Hk a).
  - intros pre tail a d' _ _ H. simpl in H. destruct (Hd (at_ pre tail)) as [e He]. congruence.
Qed.
End union.

(** ** Well-formed messages: what the Go types can hold *)

Definition wf_bytes (b : bytes) : Prop := Forall is_byte b ∧ fits b.
Definition wf_id (b : bytes) : Prop := Forall is_byte b ∧ len b = 32.
Definition wf_u16 (x : Z) : Prop := 0 ≤ x < 2 ^ 16.
Definition wf_opt {A} (wf : A → Prop) (o : option A) : Prop :=
  match o with Some a => wf a | None => True end.
Definition wf_slice {A} (wf : A → Prop) (l : list A) : Prop := Forall wf l ∧ len l < 2 ^ 63.

Definition wf_PeerInfo (p : PeerInfo) : Prop :=
  wf_id (PeerInfo_ID p) ∧ wf_opt wf_bytes (PeerInfo_Data p).
Definition wf_ForwardJoin (m : ForwardJoin) : Prop :=
  wf_PeerInfo (ForwardJoin_Peer m) ∧ wf_u16 (ForwardJoin_Ttl m).
Definition wf_Shuffle (m : Shuffle) : Prop :=
  wf_id (Shuffle_Origin m) ∧ wf_slice wf_PeerInfo (Shuffle_Nodes m) ∧ wf_u16 (Shuffle_Ttl m).
Definition wf_ShuffleReply (m : ShuffleReply) : Prop :=
  wf_slice wf_PeerInfo (ShuffleReply_Nodes m).
Definition wf_Neighbor (m : Neighbor) : Prop :=
  0 ≤ Neighbor_Priority m < 2 ^ 64 ∧ wf_opt wf_bytes (Neighbor_Data m).
Definition wf_IHave (m : IHave) : Prop := wf_id (IHave_ID m) ∧ wf_u16 (IHave_Round m).
Definition wf_Graft (m : Graft) : Prop := wf_opt wf_id (Graft_ID m) ∧ wf_u16 (Graft_Round m).
Definition wf_HyparviewMessage (m : HyparviewMessage) : Prop :=
  match m with
  | HyparviewJoin d => wf_opt wf_bytes d
  | HyparviewForwardJoin m => wf_ForwardJoin m
  | HyparviewShuffle m => wf_Shuffle m
  | HyparviewShuffleReply m => wf_ShuffleReply m
  | HyparviewNeighbor m => wf_Neighbor m
  | HyparviewDisconnect _ => True
  end.
Definition wf_DeliveryScope (s : DeliveryScope) : Prop :=
  match s with DeliveryScopeSwarm r => wf_u16 r | DeliveryScopeNeighbors => True end.
Definition wf_Gossip (m : Gossip) : Prop :=
  wf_id (Gossip_ID m) ∧ wf_bytes (Gossip_Content m) ∧ wf_DeliveryScope (Gossip_Scope m).
Definition wf_PlumtreeMessage (m : PlumtreeMessage) : Prop :=
  match m with
  | PlumtreeGossip m => wf_Gossip m
  | PlumtreePrune => True
  | PlumtreeGraft m => wf_Graft m
  | PlumtreeIHave l => wf_slice wf_IHave l
  end.
Definition wf_TopicMessage (m : TopicMessage) : Prop :=
  match m with
  | TopicMessageSwarm m => wf_HyparviewMessage m
  | TopicMessageGossip m => wf_PlumtreeMessage m
  end.

(** ** The codecs are lawful *)

Lemma id_lawful : Lawful id_codec wf_id.
Proof. apply byte_array_lawful. lia. Qed.
Lemma u16_lawful : Lawful (uint_codec 16) wf_u16.
Proof. apply uint_lawful. lia. Qed.
Lemma data_lawful : Lawful (pointer_codec PeerData_codec) (wf_opt wf_bytes).
Proof. apply pointer_lawful, byte_slice_lawful. Qed.

(** A struct codec through the fields' law, by [struct_lawful]. *)
Ltac struct_law W :=
  refine (struct_lawful _ _ _ W _ _ _); 
    [intros ?; repeat match goal with p : _ * _ |- _ => destruct p end; reflexivity
    |by intros []|].

Lemma PeerInfo_lawful : Lawful PeerInfo_codec wf_PeerInfo.
Proof.
  struct_law (λ p : bytes * option bytes, wf_id p.1 ∧ wf_opt wf_bytes p.2).
  apply pair_lawful; [apply id_lawful|apply data_lawful].
Qed.

Lemma PeerInfo_NonEmpty : NonEmpty PeerInfo_codec.
Proof.
  intros [i [d|]] bs E; specialize (E []); simpl in E; injection E as <-.
  - unfold Encoder_BytesValue. rewrite len_app.
    pose proof (appendVarint_longer (i ++ [1]) (u64 (len d))). pose proof (len_nonneg d).
    rewrite len_app, len_cons, len_nil in *. pose proof (len_nonneg i). lia.
  - rewrite len_app, len_cons, len_nil. pose proof (len_nonneg i). lia.
Qed.

Lemma PeerInfos_lawful : Lawful (slice_codec PeerInfo_codec) (wf_slice wf_PeerInfo).
Proof. apply slice_lawful; [apply PeerInfo_lawful|apply PeerInfo_NonEmpty]. Qed.

Lemma IHave_lawful : Lawful IHave_codec wf_IHave.
Proof.
  struct_law (λ p : bytes * Z, wf_id p.1 ∧ wf_u16 p.2).
  apply pair_lawful; [apply id_lawful|apply u16_lawful].
Qed.

Lemma IHave_NonEmpty : NonEmpty IHave_codec.
Proof.
  intros [i r] bs E; specialize (E []); simpl in E; injection E as <-.
  unfold Encoder_Uint. pose proof (appendVarint_longer i r). pose proof (len_nonneg i). lia.
Qed.

Lemma IHaves_lawful : Lawful (slice_codec IHave_codec) (wf_slice wf_IHave).
Proof. apply slice_lawful; [apply IHave_lawful|apply IHave_NonEmpty]. Qed.

Lemma ForwardJoin_lawful : Lawful ForwardJoin_codec wf_ForwardJoin.
Proof.
  struct_law (λ p : PeerInfo * Z, wf_PeerInfo p.1 ∧ wf_u16 p.2).
  apply pair_lawful; [apply PeerInfo_lawful|apply u16_lawful].
Qed.

Lemma Shuffle_lawful : Lawful Shuffle_codec wf_Shuffle.
Proof.
  struct_law (λ p : bytes * (list PeerInfo * Z),
    wf_id p.1 ∧ wf_slice wf_PeerInfo p.2.1 ∧ wf_u16 p.2.2).
  apply (pair_lawful _ _ _ (λ p, wf_slice wf_PeerInfo p.1 ∧ wf_u16 p.2)); [apply id_lawful|].
  apply pair_lawful; [apply PeerInfos_lawful|apply u16_lawful].
Qed.

Lemma ShuffleReply_lawful : Lawful ShuffleReply_codec wf_ShuffleReply.
Proof. struct_law (wf_slice wf_PeerInfo). apply PeerInfos_lawful. Qed.

Lemma Neighbor_lawful : Lawful Neighbor_codec wf_Neighbor.
Proof.
  struct_law (λ p : Z * option bytes, 0 ≤ p.1 < 2 ^ 64 ∧ wf_opt wf_bytes p.2).
  apply (pair_lawful _ _ (λ x, 0 ≤ x < 2 ^ 64)); [apply uint_lawful; lia|apply data_lawful].
Qed.

Lemma Disconnect_lawful : Lawful Disconnect_codec (λ _, True).
Proof.
  refine (struct_lawful _ _ _ (λ _, True) _ _ _); [by intros []|by intros []|].
  pose proof (pair_lawful bool_codec bool_codec _ _ bool_lawful bool_lawful) as [R C].
  split; [intros a _; by apply R|].
  intros pre tail a d' Hb Hf Hd. destruct (C pre tail a d' Hb Hf Hd). done.
Qed.

Lemma Graft_lawful : Lawful Graft_codec wf_Graft.
Proof.
  struct_law (λ p : option bytes * Z, wf_opt wf_id p.1 ∧ wf_u16 p.2).
  apply (pair_lawful _ _ (wf_opt wf_id)); [|apply u16_lawful].
  apply pointer_lawful, id_lawful.
Qed.

(** Side conditions of the variant lemmas, by cases on the message. *)
Ltac variant := done || (intros []; naive_solver).

Lemma HyparviewMessage_lawful : Lawful HyparviewMessage_codec wf_HyparviewMessage.
Proof.
  change HyparviewMessage_codec with (union_codec HyparviewMessage_kind
    (λ m e, match m with
      | HyparviewJoin x => enc (pointer_codec PeerData_codec) x e
      | HyparviewForwardJoin x => enc ForwardJoin_codec x e
      | HyparviewShuffle x => enc Shuffle_codec x e
      | HyparviewShuffleReply x => enc ShuffleReply_codec x e
      | HyparviewNeighbor x => enc Neighbor_codec x e
      | HyparviewDisconnect x => enc Disconnect_codec x e
      end) HyparviewMessage_payload).
  apply union_lawful; [by intros []|]. intros k.
  destruct (decide (k = 0)) as [->|]; [|destruct (decide (k = 1)) as [->|];
    [|destruct (decide (k = 2)) as [->|]; [|destruct (decide (k = 3)) as [->|];
    [|destruct (decide (k = 4)) as [->|]; [|destruct (decide (k = 5)) as [->|]]]]]].
  - apply (variant_lawful _ _ _ _ _ _ HyparviewJoin _ data_lawful); variant.
  - apply (variant_lawful _ _ _ _ _ _ HyparviewForwardJoin _ ForwardJoin_lawful); variant.
  - apply (variant_lawful _ _ _ _ _ _ HyparviewShuffle _ Shuffle_lawful); variant.
  - apply (variant_lawful _ _ _ _ _ _ HyparviewShuffleReply _ ShuffleReply_lawful); variant.
  - apply (variant_lawful _ _ _ _ _ _ HyparviewNeighbor _ Neighbor_lawful); variant.
  - apply (variant_lawful _ _ _ _ _ _ HyparviewDisconnect _ Disconnect_lawful); variant.
  - apply unknown_lawful; [|intros []; simpl; congruence].
    intros d. eexists. unfold HyparviewMessage_payload. by rewrite !(proj2 (Z.eqb_neq _ _)) by done.
Qed.

Lemma DeliveryScope_lawful : Lawful DeliveryScope_codec wf_DeliveryScope.
Proof.
  change DeliveryScope_codec with (union_codec DeliveryScope_kind
    (λ s e, match s with
      | DeliveryScopeSwarm r => enc Round_codec r e
      | DeliveryScopeNeighbors => Ok e
      end) DeliveryScope_payload).
  apply union_lawful; [by intros []|]. intros k.
  destruct (decide (k = 0)) as [->|]; [|destruct (decide (k = 1)) as [->|]].
  - apply (variant_lawful _ _ _ _ _ _ DeliveryScopeSwarm _ u16_lawful); variant.
  - apply (nullary_lawful _ _ _ _ DeliveryScopeNeighbors); variant.
  - apply unknown_lawful; [|intros []; simpl; congruence].
    intros d. eexists. unfold DeliveryScope_payload. by rewrite !(proj2 (Z.eqb_neq _ _)) by done.
Qed.

Lemma Gossip_lawful : Lawful Gossip_codec wf_Gossip.
Proof.
  struct_law (λ p : bytes * (bytes * DeliveryScope),
    wf_id p.1 ∧ wf_bytes p.2.1 ∧ wf_DeliveryScope p.2.2).
  apply (pair_lawful _ _ _ (λ p, wf_bytes p.1 ∧ wf_DeliveryScope p.2)); [apply id_lawful|].
  apply pair_lawful; [apply byte_slice_lawful|apply DeliveryScope_lawful].
Qed.

Lemma PlumtreeMessage_lawful : Lawful PlumtreeMessage_codec wf_PlumtreeMessage.
Proof.
  change PlumtreeMessage_codec with (union_codec PlumtreeMessage_kind
    (λ m e, match m with
      | PlumtreeGossip x => enc Gossip_codec x e
      | PlumtreePrune => Ok e
      | PlumtreeGraft x => enc Graft_codec x e
      | PlumtreeIHave x => enc (slice_codec IHave_codec) x e
      end) PlumtreeMessage_payload).
  apply union_lawful; [by intros []|]. intros k.
  destruct (decide (k = 0)) as [->|]; [|destruct (decide (k = 1)) as [->|];
    [|destruct (decide (k = 2)) as [->|]; [|destruct (decide (k = 3)) as [->|]]]].
  - apply (variant_lawful _ _ _ _ _ _ PlumtreeGossip _ Gossip_lawful); variant.
  - apply (nullary_lawful _ _ _ _ PlumtreePrune); variant.
  - apply (variant_lawful _ _ _ _ _ _ PlumtreeGraft _ Graft_lawful); variant.
  - apply (variant_lawful _ _ _ _ _ _ PlumtreeIHave _ IHaves_lawful); variant.
  - apply unknown_lawful; [|intros []; simpl; congruence].
    intros d. eexists. unfold PlumtreeMessage_payload. by rewrite !(proj2 (Z.eqb_neq _ _)) by done.
Qed.

Lemma TopicMessage_lawful : Lawful TopicMessage_codec wf_TopicMessage.
Proof.
  change TopicMessage_codec with (union_codec TopicMessage_kind
    (λ m e, match m with
      | TopicMessageSwarm x => enc HyparviewMessage_codec x e
      | TopicMessageGossip x => enc PlumtreeMessage_codec x e
      end) TopicMessage_payload).
  apply union_lawful; [by intros []|]. intros k.
  destruct (decide (k = 0)) as [->|]; [|destruct (decide (k = 1)) as [->|]].
  - apply (variant_lawful _ _ _ _ _ _ TopicMessageSwarm _ HyparviewMessage_lawful); variant.
  - apply (variant_lawful _ _ _ _ _ _ TopicMessageGossip _ PlumtreeMessage_lawful); variant.
  - apply unknown_lawful; [|intros []; simpl; congruence].
    intros d. eexists. unfold TopicMessage_payload. by rewrite !(proj2 (Z.eqb_neq _ _)) by done.
Qed.

(** ** Frames *)

(** A [bytes.Buffer]: writes never fail. *)
Definition buffer_Write (b w : bytes) : result Empty_set bytes := Ok (w ++ b).

Lemma Uint32_PutUint32 v :
  0 ≤ v < 2 ^ 32 →
  Uint32 (u8 (Z.shiftr v 24)) (u8 (Z.shiftr v 16)) (u8 (Z.shiftr v 8)) (u8 v) = v.
Proof.
  intros Hv. unfold Uint32.
  rewrite !Z.shiftr_div_pow2 by lia. unfold wrapU.
  pose proof (Z.mod_pos_bound v (2 ^ 8) ltac:(lia)).
  pose proof (Z.mod_pos_bound (v / 2 ^ 8) (2 ^ 8) ltac:(lia)).
  pose proof (Z.mod_pos_bound (v / 2 ^ 16) (2 ^ 8) ltac:(lia)).
  assert (0 ≤ v / 2 ^ 24 < 2 ^ 8).
  { split; [apply Z.div_pos; lia|apply Z.div_lt_upper_bound; lia]. }
  rewrite (Z.mod_small (v / 2 ^ 24)) by lia.
  rewrite !Z.lor_assoc.
  rewrite (lor_disjoint _ _ 8) by lia.
  rewrite (lor_disjoint _ _ 16), (lor_disjoint _ _ 24) by lia.
  pose proof (Z.div_mod v (2 ^ 8) ltac:(lia)) as E0.
  pose proof (Z.div_mod (v / 2 ^ 8) (2 ^ 8) ltac:(lia)) as E1.
  pose proof (Z.div_mod (v / 2 ^ 16) (2 ^ 8) ltac:(lia)) as E2.
  rewrite Z.div_div in E1, E2 by lia. change (2 ^ 8 * 2 ^ 8) with (2 ^ 16) in E1.
  change (2 ^ 16 * 2 ^ 8) with (2 ^ 24) in E2. lia.
Qed.

Lemma ReadFull_app b r : ReadFull (len b) (b ++ r) = Ok (b, r).
Proof.
  unfold ReadFull. rewrite len_app. pose proof (len_nonneg r).
  rewrite (proj2 (Z.leb_le _ _)) by lia. unfold len.
  by rewrite Nat2Z.id, take_app_length, drop_app_length.
Qed.

Lemma NormalizeMaxMessageSize_min n : 512 ≤ NormalizeMaxMessageSize n.
Proof.
  unfold NormalizeMaxMessageSize, DefaultMaxMessageSize, MinMaxMessageSize.
  destruct (Z.leb_spec n 0); [lia|]. destruct (Z.ltb_spec n 512); lia.
Qed.

Lemma frame_roundtrip {A} (c : Codec A) wf v maxSize w rest b :
  Lawful c wf → wf v → Marshal c v = Ok b →
  len b < NormalizeMaxMessageSize maxSize ≤ 2 ^ 32 →
  WriteFrame buffer_Write c w v maxSize = Ok (w ++ PutUint32 (len b) ++ b) ∧
  ReadFrame (E := Empty_set) c (PutUint32 (len b) ++ b ++ rest) maxSize = Ok (v, rest).
Proof.
  intros L Hv Hb Hlen. pose proof (len_nonneg b). split.
  - unfold WriteFrame. rewrite Hb. destruct (Z.geb_spec (len b) (NormalizeMaxMessageSize maxSize)); [lia|].
    unfold buffer_Write. rewrite wrapU_small by lia. by rewrite <-app_assoc.
  - unfold ReadFrame. change 4 with (len (PutUint32 (len b))). rewrite ReadFull_app.
    unfold PutUint32 at 1. rewrite Uint32_PutUint32 by lia. rewrite wrapS_small by lia.
    destruct ((len b <? 0) || (len b >? NormalizeMaxMessageSize maxSize)) eqn:E; [lia|].
    rewrite ReadFull_app.
    destruct (Marshal_Unmarshal c wf v L Hv) as (b' & Hb' & _ & Hu).
    assert (b' = b) as -> by congruence. rewrite Hu; [done|]. unfold fits. lia.
Qed.

(** ** Payload sizes *)

Lemma gossip_marshal i content r :
  fits content → 0 ≤ r < 2 ^ 16 →
  Marshal TopicMessage_codec
      (TopicMessageGossip (PlumtreeGossip (MkGossip i content (DeliveryScopeSwarm r))))
  = Ok ([1; 0] ++ i ++ varint (len content) ++ content ++ [0] ++ varint r).
Proof.
  intros Hf Hr. unfold Marshal. simpl. f_equal. unfold Encoder_Uint.
  rewrite encodes_bytes by done. rewrite !appendVarint_eq by lia.
  change (varint 0) with [0]. change (varint 1) with [1]. by rewrite <-!app_assoc.
Qed.

Lemma MaxPayloadSize_eq n : MaxPayloadSize n = NormalizeMaxMessageSize n - 37.
Proof.
  unfold MaxPayloadSize. rewrite plumtreePayloadHeaderSize_value. simpl.
  pose proof (NormalizeMaxMessageSize_min n).
  destruct (Z.ltb_spec (NormalizeMaxMessageSize n - 37) 0); lia.
Qed.

(** ** Properties *)

(** C14: Gossip messages survive the wire and have one encoding: a message the
    Go types can hold marshals, the bytes unmarshal to that message, and bytes
    that unmarshal to a message are that message's encoding. *)
Theorem topic_message_wire_bijection (m : TopicMessage) (data : bytes)
    (Hm : wf_TopicMessage m) (Hd : Forall is_byte data) (Hf : len data < 2 ^ 63) :
  (∃ b, Marshal TopicMessage_codec m = Ok b ∧
     (len b < 2 ^ 63 → Unmarshal TopicMessage_codec b = Ok m)) ∧
  (Unmarshal TopicMessage_codec data = Ok m → Marshal TopicMessage_codec m = Ok data).
Proof.
  split.
  - destruct (Marshal_Unmarshal _ _ m TopicMessage_lawful Hm) as (b & Hb & _ & Hu). eauto.
  - intros Hu. by apply (Unmarshal_Marshal _ _ _ _ TopicMessage_lawful).
Qed.

Lemma topic_message_wire_bijection_witness :
  Unmarshal TopicMessage_codec [1; 1] = Ok (TopicMessageGossip PlumtreePrune) ∧
  Marshal TopicMessage_codec (TopicMessageGossip PlumtreePrune) = Ok [1; 1].
Proof.
  split; [reflexivity|].
  apply (topic_message_wire_bijection (TopicMessageGossip PlumtreePrune) [1; 1]);
    [exact I|by_decision|done|reflexivity].
Defined.

(** C30: A frame written for a message whose encoding is below the size limit is
    read back as that message, and exactly its bytes are consumed; a message at
    or above the limit is refused by the writer before anything is written. *)
Theorem gossip_frame_roundtrip (m : TopicMessage) (maxSize : Z) (w rest b : bytes)
    (Hm : wf_TopicMessage m) (Hb : Marshal TopicMessage_codec m = Ok b)
    (Hmax : NormalizeMaxMessageSize maxSize ≤ 2 ^ 32) :
  if decide (len b < NormalizeMaxMessageSize maxSize)
  then ∃ f, WriteFrame buffer_Write TopicMessage_codec w m maxSize = Ok (w ++ f) ∧
         ReadFrame (E := Empty_set) TopicMessage_codec (f ++ rest) maxSize = Ok (m, rest)
  else WriteFrame buffer_Write TopicMessage_codec w m maxSize = Err ErrFrameTooLarge.
Proof.
  case_decide as Hlt.
  - destruct (frame_roundtrip _ _ m maxSize w rest b TopicMessage_lawful Hm Hb) as [Hw Hr]; [lia|].
    eexists. split; [exact Hw|]. by rewrite <-app_assoc.
  - unfold WriteFrame. rewrite Hb. destruct (Z.geb_spec (len b) (NormalizeMaxMessageSize maxSize)); [done|lia].
Qed.

Lemma gossip_frame_roundtrip_witness :
  ∃ f, WriteFrame buffer_Write TopicMessage_codec [] (TopicMessageGossip PlumtreePrune) 0 = Ok ([] ++ f) ∧
    ReadFrame (E := Empty_set) TopicMessage_codec (f ++ [9]) 0
      = Ok (TopicMessageGossip PlumtreePrune, [9]).
Proof.
  apply (gossip_frame_roundtrip (TopicMessageGossip PlumtreePrune) 0 [] [9] [1; 1]);
    [exact I|reflexivity|done].
Defined.

(** C31: [MaxPayloadSize] is not the largest payload that fits a frame: a swarm
    broadcast of exactly that many bytes is always refused by [WriteFrame],
    since the budget counts one byte for the content length and the frame limit
    is exclusive; five bytes below it a payload always fits, at any round, up
    to a message size of 2^21. *)
Theorem max_payload_size_misses_frame (i content : bytes) (r maxSize : Z) (w : bytes)
    (Hi : wf_id i) (Hc : Forall is_byte content) (Hr : 0 ≤ r < 2 ^ 16)
    (Hmax : NormalizeMaxMessageSize maxSize ≤ 2 ^ 21) :
  let m := TopicMessageGossip (PlumtreeGossip (MkGossip i content (DeliveryScopeSwarm r))) in
  (len content = MaxPayloadSize maxSize →
     WriteFrame buffer_Write TopicMessage_codec w m maxSize = Err ErrFrameTooLarge) ∧
  (len content ≤ MaxPayloadSize maxSize - 5 →
     ∃ w', WriteFrame buffer_Write TopicMessage_codec w m maxSize = Ok w').
Proof.
  intros m. rewrite MaxPayloadSize_eq. pose proof (NormalizeMaxMessageSize_min maxSize).
  pose proof (len_nonneg content). destruct Hi as [_ Hi].
  pose proof (venc_nonempty 10 r). fold (varint r) in *.
  assert (len (varint r) ≤ 3) by (apply (varint_len_le 3); simpl; lia).
  assert (∀ h, len content + h = NormalizeMaxMessageSize maxSize → 0 ≤ h → fits content) as Hfit.
  { intros h Hh ?. unfold fits. lia. }
  assert (∀ b, b = [1; 0] ++ i ++ varint (len content) ++ content ++ [0] ++ varint r →
    len b = 35 + len (varint (len content)) + len content + len (varint r)) as Hlen.
  { intros b ->. rewrite !len_app, !len_cons, len_nil. lia. }
  split; intros Hl; unfold WriteFrame, m; rewrite gossip_marshal by (done || unfold fits; lia);
    rewrite (Hlen _ eq_refl).
  - pose proof (varint_len_ge_2 (len content) ltac:(lia)).
    match goal with |- context [?a >=? ?b] => destruct (Z.geb_spec a b) end; [done|lia].
  - assert (len (varint (len content)) ≤ 3) by (apply (varint_len_le 3); simpl; lia).
    match goal with |- context [?a >=? ?b] => destruct (Z.geb_spec a b) end; [lia|].
    unfold buffer_Write. eauto.
Qed.

Lemma max_payload_size_misses_frame_witness :
  MaxPayloadSize 512 = 475 ∧
  WriteFrame buffer_Write TopicMessage_codec []
    (TopicMessageGossip (PlumtreeGossip
       (MkGossip (replicate 32 0) (replicate 475 7) (DeliveryScopeSwarm 0)))) 512
  = Err ErrFrameTooLarge.
Proof.
  split; [vm_compute; reflexivity|].
  apply (max_payload_size_misses_frame (replicate 32 0) (replicate 475 7) 0 512 []).
  - split; [apply Forall_replicate; unfold is_byte; lia|reflexivity].
  - apply Forall_replicate. unfold is_byte. lia.
  - lia.
  - vm_compute. discriminate.
  - vm_compute. reflexivity.
Defined.
