(* ===== verification/Hyparview.v ===== *)
(** * HyParView membership: internal/gossipproto/hyparview.go

    The IO-less membership state machine of one topic.  [HyparviewState] is
    the Go struct; every method is a computation of [HV], which threads that
    state, collects the appended [HyparviewOutEvent]s and can panic. *)

From S2P Require Import Prelude GoMonad GoRand GossipTypes.

(** ** Configuration, inputs, outputs *)

Record HyparviewConfig := MkHyparviewConfig {
  ActiveViewCapacity : Z;
  PassiveViewCapacity : Z;
  ActiveRandomWalkLength : Ttl;
  PassiveRandomWalkLength : Ttl;
  ShuffleRandomWalkLength : Ttl;
  ShuffleActiveViewCount : Z;
  ShufflePassiveViewCount : Z;
  ShuffleInterval : Duration;
  NeighborRequestTimeout : Duration;
}.

#[global] Instance HyparviewConfig_eq_dec : EqDecision HyparviewConfig.
Proof. solve_decision. Defined.

Definition zeroHyparviewConfig : HyparviewConfig := MkHyparviewConfig 0 0 0 0 0 0 0 0 0.

Definition DefaultHyparviewConfig : HyparviewConfig := {|
  ActiveViewCapacity := 5;
  PassiveViewCapacity := 30;
  ActiveRandomWalkLength := 6;
  PassiveRandomWalkLength := 3;
  ShuffleRandomWalkLength := 6;
  ShuffleActiveViewCount := 3;
  ShufflePassiveViewCount := 4;
  ShuffleInterval := Minute;
  NeighborRequestTimeout := 500 * Millisecond;
|}.

Inductive HyparviewTimer :=
  | HyparviewTimerDoShuffle
  | HyparviewTimerPendingNeighborRequest (Peer : PeerID).

Inductive HyparviewInEvent :=
  | HyparviewRecvMessage (From : PeerID) (Message : HyparviewMessage)
  | HyparviewTimerExpired (Timer : HyparviewTimer)
  | HyparviewPeerDisconnected (Peer : PeerID)
  | HyparviewRequestJoin (Peer : PeerID)
  | HyparviewUpdatePeerData (Data : option PeerData)
  | HyparviewQuit.

Inductive HyparviewEvent :=
  | HyparviewNeighborUp (Peer : PeerID)
  | HyparviewNeighborDown (Peer : PeerID).

Inductive HyparviewOutEvent :=
  | HyparviewSendMessage (To : PeerID) (Message : HyparviewMessage)
  | HyparviewScheduleTimer (After : Duration) (Timer : HyparviewTimer)
  | HyparviewDisconnectPeer (To : PeerID)
  | HyparviewEmitEvent (Event : HyparviewEvent)
  | HyparviewPeerData (To : PeerID) (Data : option PeerData).

Record HyparviewStats := MkHyparviewStats { TotalConnections : Z }.

(** ** Peer data helpers *)

Definition clonePeerData (data : PeerData) : PeerData := [] ++ data.

Definition clonePeerDataPtr (data : option PeerData) : option PeerData :=
  match data with
  | None => None
  | Some d => Some (clonePeerData d)
  end.

Definition samePeerData (a b : PeerData) : bool :=
  if negb (len a =? len b) then false
  else forallb (λ '(x, y), x =? y) (zip a b).

(** ** Peer lists *)

Notation peerList := (list PeerID).

(** A draw from the state's random source; [None] is a panic. *)
Definition R (A : Type) : Type := Rand → option (A * Rand).

Definition peerIn (peer : PeerID) (peers : list PeerID) : bool :=
  existsb (λ p, bool_decide (p = peer)) peers.

Definition peerList_contains (l : peerList) (peer : PeerID) : bool := peerIn peer l.

(** [peerList_insert] and [peerList_remove] return the updated list and whether they changed it. *)
Definition peerList_insert (peer : PeerID) (l : peerList) : peerList * bool :=
  if peerList_contains l peer then (l, false) else (l ++ [peer], true).

Fixpoint peerList_remove (peer : PeerID) (l : peerList) : peerList * bool :=
  match l with
  | [] => ([], false)
  | p :: l' =>
      if bool_decide (p = peer) then (l', true)
      else let '(l'', ok) := peerList_remove peer l' in (p :: l'', ok)
  end.

Definition peerList_slice (l : peerList) : list PeerID := [] ++ l.

Definition without (l : peerList) (skip : list PeerID) : list PeerID :=
  List.filter (λ peer, negb (peerIn peer skip)) l.

Section peerList_random.
Context `{!RandSource}.

(** [l[r.Intn(len(l))]] *)
Definition index_random (l : peerList) : R PeerID := λ r,
  match Intn (len l) r with
  | None => None
  | Some (i, r') =>
      match l !! Z.to_nat i with
      | None => None
      | Some p => Some (p, r')
      end
  end.

Definition random (l : peerList) : R (option PeerID) := λ r,
  if len l =? 0 then Some (None, r)
  else match index_random l r with
       | None => None
       | Some (p, r') => Some (Some p, r')
       end.

Definition randomWithout (l : peerList) (skip : list PeerID) : R (option PeerID) := λ r,
  let peers := without l skip in
  if len peers =? 0 then Some (None, r)
  else match index_random peers r with
       | None => None
       | Some (p, r') => Some (Some p, r')
       end.

Definition shuffledWithoutN (l : peerList) (n : Z) (skip : list PeerID) :
  R (list PeerID) := λ r,
  let peers := without l skip in
  let n := if n >? len peers then len peers else n in
  let '(peers, r) := rand_Shuffle peers r in
  if n <? 0 then None else Some (take (Z.to_nat n) peers, r).

Definition shuffledN (l : peerList) (n : Z) : R (list PeerID) := λ r,
  if n <=? 0 then Some ([], r) else shuffledWithoutN l n [] r.
End peerList_random.

(** ** State *)

Record HyparviewState := MkHyparviewState {
  me : PeerID;
  meData : option PeerData;
  config : HyparviewConfig;
  rand : Rand;
  active : peerList;
  passive : peerList;
  shuffleScheduled : bool;
  stats : HyparviewStats;
  pendingNeighbor : gset PeerID;
  peerData : gmap PeerID PeerData;
  aliveDisconnect : gset PeerID;
}.

Definition set_meData d s :=
  {| me := me s; meData := d; config := config s; rand := rand s; active := active s;
     passive := passive s; shuffleScheduled := shuffleScheduled s; stats := stats s;
     pendingNeighbor := pendingNeighbor s; peerData := peerData s;
     aliveDisconnect := aliveDisconnect s |}.
Definition set_rand r s :=
  {| me := me s; meData := meData s; config := config s; rand := r; active := active s;
     passive := passive s; shuffleScheduled := shuffleScheduled s; stats := stats s;
     pendingNeighbor := pendingNeighbor s; peerData := peerData s;
     aliveDisconnect := aliveDisconnect s |}.
Definition set_active l s :=
  {| me := me s; meData := meData s; config := config s; rand := rand s; active := l;
     passive := passive s; shuffleScheduled := shuffleScheduled s; stats := stats s;
     pendingNeighbor := pendingNeighbor s; peerData := peerData s;
     aliveDisconnect := aliveDisconnect s |}.
Definition set_passive l s :=
  {| me := me s; meData := meData s; config := config s; rand := rand s; active := active s;
     passive := l; shuffleScheduled := shuffleScheduled s; stats := stats s;
     pendingNeighbor := pendingNeighbor s; peerData := peerData s;
     aliveDisconnect := aliveDisconnect s |}.
Definition set_shuffleScheduled b s :=
  {| me := me s; meData := meData s; config := config s; rand := rand s; active := active s;
     passive := passive s; shuffleScheduled := b; stats := stats s;
     pendingNeighbor := pendingNeighbor s; peerData := peerData s;
     aliveDisconnect := aliveDisconnect s |}.
Definition set_stats t s :=
  {| me := me s; meData := meData s; config := config s; rand := rand s; active := active s;
     passive := passive s; shuffleScheduled := shuffleScheduled s; stats := t;
     pendingNeighbor := pendingNeighbor s; peerData := peerData s;
     aliveDisconnect := aliveDisconnect s |}.
Definition set_pendingNeighbor n s :=
  {| me := me s; meData := meData s; config := config s; rand := rand s; active := active s;
     passive := passive s; shuffleScheduled := shuffleScheduled s; stats := stats s;
     pendingNeighbor := n; peerData := peerData s;
     aliveDisconnect := aliveDisconnect s |}.
Definition set_peerData m s :=
  {| me := me s; meData := meData s; config := config s; rand := rand s; active := active s;
     passive := passive s; shuffleScheduled := shuffleScheduled s; stats := stats s;
     pendingNeighbor := pendingNeighbor s; peerData := m;
     aliveDisconnect := aliveDisconnect s |}.
Definition set_aliveDisconnect n s :=
  {| me := me s; meData := meData s; config := config s; rand := rand s; active := active s;
     passive := passive s; shuffleScheduled := shuffleScheduled s; stats := stats s;
     pendingNeighbor := pendingNeighbor s; peerData := peerData s;
     aliveDisconnect := n |}.

Notation HV := (GoM HyparviewState HyparviewOutEvent).

Definition liftR {A} (m : R A) : HV A := λ s,
  match m (rand s) with
  | None => None
  | Some (a, r) => Some (a, set_rand r s, [])
  end.

(** ** Construction *)

(** [r = None] is a nil [*rand.Rand]: the state then seeds its own source with
    the wall clock, [nanos]. *)
Definition NewHyparviewStateWithRand (me : PeerID) (data : option PeerData)
    (config : HyparviewConfig) (r : option Rand) (nanos : Z) : HyparviewState :=
  let config := if decide (config = zeroHyparviewConfig) then DefaultHyparviewConfig
                else config in
  let r := match r with None => NewSource nanos | Some r => r end in
  {| me := me; meData := clonePeerDataPtr data; config := config; rand := r;
     active := []; passive := []; shuffleScheduled := false;
     stats := {| TotalConnections := 0 |};
     pendingNeighbor := ∅; peerData := ∅; aliveDisconnect := ∅ |}.

Definition NewHyparviewState (me : PeerID) (data : option PeerData)
    (config : HyparviewConfig) (nanos : Z) : HyparviewState :=
  NewHyparviewStateWithRand me data config None nanos.

Definition Stats (s : HyparviewState) : HyparviewStats := stats s.
Definition ActivePeers (s : HyparviewState) : list PeerID := peerList_slice (active s).
Definition PassivePeers (s : HyparviewState) : list PeerID := peerList_slice (passive s).

(** ** Operations *)

(** [delete(s.pendingNeighbor, peer)] and [delete(s.peerData, peer)] *)
Definition drop_pending (peer : PeerID) : HV () :=
  modify (λ s, set_pendingNeighbor (pendingNeighbor s ∖ {[peer]}) s).
Definition drop_peerData (peer : PeerID) : HV () :=
  modify (λ s, set_peerData (delete peer (peerData s)) s).

Definition isPending (s : HyparviewState) (peer : PeerID) : bool :=
  bool_decide (peer ∈ pendingNeighbor s).

Definition insertPeerInfo (info : PeerInfo) : HV () :=
  match PeerInfo_Data info with
  | None => mret ()
  | Some d =>
      let data := clonePeerData d in
      s ← get;
      let changed :=
        match peerData s !! PeerInfo_ID info with
        | None => true
        | Some old => negb (samePeerData old data)
        end in
      when (changed && negb (len data =? 0))
        (emit (HyparviewPeerData (PeerInfo_ID info) (Some (clonePeerData data))));;
      modify (λ s, set_peerData (<[PeerInfo_ID info := data]> (peerData s)) s)
  end.

Definition peerInfo (s : HyparviewState) (id : PeerID) : PeerInfo :=
  match peerData s !! id with
  | Some data => MkPeerInfo id (Some (clonePeerData data))
  | None => MkPeerInfo id None
  end.

Definition sendNeighbor (peer : PeerID) (priority : Priority) : HV () :=
  s ← get;
  if isPending s peer then mret ()
  else
    modify (λ s, set_pendingNeighbor ({[peer]} ∪ pendingNeighbor s) s);;
    emit (HyparviewSendMessage peer
            (HyparviewNeighbor (MkNeighbor priority (clonePeerDataPtr (meData s))))).

(** [s.passive.remove(peer)], its result unused. *)
Definition passive_remove (peer : PeerID) : HV () :=
  modify (λ s, set_passive (peerList_remove peer (passive s)).1 s).

(** [forgetStrangers] deletes each stranger's entry; the iteration order of the
    map does not matter. *)
Definition forgetStrangers : HV () :=
  modify (λ s, set_peerData
    (filter (λ kv, ¬ (isPending s kv.1 = false ∧ peerList_contains (active s) kv.1 = false
                      ∧ peerList_contains (passive s) kv.1 = false)) (peerData s)) s).

Section handlers.
Context `{!RandSource}.

Definition sendShuffleReply (to : PeerID) (n : Z) : HV () :=
  s ← get;
  ps ← liftR (shuffledN (passive s) n);
  let nodes := (λ id, peerInfo s id) <$> ps in
  qs ← liftR (shuffledN (active s) (n - len nodes));
  let nodes := nodes ++ ((λ id, peerInfo s id) <$> qs) in
  emit (HyparviewSendMessage to (HyparviewShuffleReply (MkShuffleReply nodes))).

Definition sendDisconnect (peer : PeerID) (alive : bool) : HV () :=
  s ← get;
  sendShuffleReply peer
    (i64 (ShuffleActiveViewCount (config s) + ShufflePassiveViewCount (config s)));;
  emit (HyparviewSendMessage peer (HyparviewDisconnect (MkDisconnect alive false)));;
  emit (HyparviewDisconnectPeer peer).

Definition addPassive (peer : PeerID) (data : option PeerData) : HV () :=
  insertPeerInfo (MkPeerInfo peer (clonePeerDataPtr data));;
  s ← get;
  if bool_decide (peer = me s) || peerList_contains (active s) peer
     || peerList_contains (passive s) peer
  then mret ()
  else
    when (len (passive s) >=? PassiveViewCapacity (config s))
      (old ← liftR (random (passive s));
       match old with
       | Some old => passive_remove old
       | None => mret ()
       end);;
    modify (λ s, set_passive (peerList_insert peer (passive s)).1 s).

Definition refillActiveFromPassive (skip : list PeerID) : HV () :=
  s ← get;
  if len (active s) + Z.of_nat (size (pendingNeighbor s)) >=? ActiveViewCapacity (config s)
  then mret ()
  else
    let allSkip := skip ++ elements (pendingNeighbor s) in
    p ← liftR (randomWithout (passive s) allSkip);
    match p with
    | None => mret ()
    | Some peer =>
        let priority := if len (active s) =? 0 then PriorityHigh else PriorityLow in
        sendNeighbor peer priority;;
        emit (HyparviewScheduleTimer (NeighborRequestTimeout (config s))
                (HyparviewTimerPendingNeighborRequest peer))
    end.

Inductive removalReason :=
  | removalConnectionClosed
  | removalDisconnectReceived
  | removalRandom.

Definition removeActive (peer : PeerID) (reason : removalReason) (alive refill : bool) :
  HV () :=
  s ← get;
  let '(l, removed) := peerList_remove peer (active s) in
  if negb removed then mret ()
  else
    modify (set_active l);;
    drop_pending peer;;
    emit (HyparviewEmitEvent (HyparviewNeighborDown peer));;
    match reason with
    | removalRandom => sendDisconnect peer true
    | removalConnectionClosed | removalDisconnectReceived =>
        emit (HyparviewDisconnectPeer peer)
    end;;
    keepPassive ←
      match reason with
      | removalConnectionClosed =>
          s ← get;
          modify (λ s, set_aliveDisconnect (aliveDisconnect s ∖ {[peer]}) s);;
          mret (bool_decide (peer ∈ aliveDisconnect s))
      | removalDisconnectReceived => mret alive
      | removalRandom => mret true
      end;
    when keepPassive
      (s ← get;
       let data := match peerData s !! peer with
                   | Some d => Some d
                   | None => clonePeerDataPtr None
                   end in
       when (bool_decide (is_Some (peerData s !! peer))) (drop_peerData peer);;
       addPassive peer data;;
       match reason with
       | removalConnectionClosed => mret ()
       | _ => modify (λ s, set_aliveDisconnect ({[peer]} ∪ aliveDisconnect s) s)
       end);;
    when refill (refillActiveFromPassive [peer]).

Definition addActive (peer : PeerID) (data : option PeerData) (priority : Priority)
    (reply : bool) : HV bool :=
  s ← get;
  if bool_decide (peer = me s) then mret false
  else
    insertPeerInfo (MkPeerInfo peer (clonePeerDataPtr data));;
    s ← get;
    if peerList_contains (active s) peer
    then when reply (sendNeighbor peer priority);; mret true
    else if (priority =? PriorityLow)
            && (len (active s) >=? ActiveViewCapacity (config s))
    then mret false
    else
      when (len (active s) >=? ActiveViewCapacity (config s))
        (old ← liftR (random (active s));
         match old with
         | Some old => removeActive old removalRandom false false
         | None => mret ()
         end);;
      passive_remove peer;;
      s ← get;
      let '(l, inserted) := peerList_insert peer (active s) in
      modify (set_active l);;
      when inserted
        (emit (HyparviewEmitEvent (HyparviewNeighborUp peer));;
         when reply (sendNeighbor peer priority));;
      mret true.

Definition handleJoin (peer : PeerID) : HV () :=
  s ← get;
  emit (HyparviewSendMessage peer (HyparviewJoin (clonePeerDataPtr (meData s)))).

Definition onJoin (peer : PeerID) (data : option PeerData) : HV () :=
  drop_pending peer;;
  addActive peer data PriorityHigh true;;
  let info := MkPeerInfo peer (clonePeerDataPtr data) in
  s ← get;
  for_each (without (active s) [peer]) (λ node,
    emit (HyparviewSendMessage node
            (HyparviewForwardJoin
               (MkForwardJoin info (ActiveRandomWalkLength (config s)))))).

Definition onForwardJoin (sender : PeerID) (message : ForwardJoin) : HV () :=
  let peer := PeerInfo_ID (ForwardJoin_Peer message) in
  let ttl := ForwardJoin_Ttl message in
  drop_pending peer;;
  s ← get;
  if peerList_contains (active s) peer
  then insertPeerInfo (ForwardJoin_Peer message);; sendNeighbor peer PriorityHigh
  else if (ttl =? 0) || (len (active s) <=? 1)
  then insertPeerInfo (ForwardJoin_Peer message);; sendNeighbor peer PriorityHigh
  else
    when (ttl =? PassiveRandomWalkLength (config s))
      (addPassive peer (PeerInfo_Data (ForwardJoin_Peer message)));;
    s ← get;
    next ← liftR (randomWithout (active s) [sender]);
    match next with
    | None => mret ()
    | Some next =>
        emit (HyparviewSendMessage next
                (HyparviewForwardJoin
                   (MkForwardJoin (ForwardJoin_Peer message) (u16 (ttl - 1)))))
    end.

Definition onNeighbor (from : PeerID) (details : Neighbor) : HV () :=
  s ← get;
  let isReply := isPending s from in
  drop_pending from;;
  ok ← addActive from (Neighbor_Data details) (Neighbor_Priority details) (negb isReply);
  when (negb ok) (sendDisconnect from true).

Definition onDisconnect (peer : PeerID) (details : Disconnect) : HV () :=
  drop_pending peer;;
  s ← get;
  if peerList_contains (active s) peer
  then removeActive peer removalDisconnectReceived (Disconnect_Alive details) true
  else when (Disconnect_Alive details && peerList_contains (passive s) peer)
         (modify (λ s, set_aliveDisconnect ({[peer]} ∪ aliveDisconnect s) s)).

Definition handleConnectionClosed (peer : PeerID) : HV () :=
  drop_pending peer;;
  s ← get;
  if peerList_contains (active s) peer
  then removeActive peer removalConnectionClosed false true
  else if bool_decide (peer ∈ aliveDisconnect s)
  then modify (λ s, set_aliveDisconnect (aliveDisconnect s ∖ {[peer]}) s)
  else passive_remove peer;; drop_peerData peer.

Definition handleQuit : HV () :=
  s ← get;
  for_each (peerList_slice (active s)) (λ peer,
    modify (λ s, set_active (peerList_remove peer (active s)).1 s);;
    sendDisconnect peer false).

Definition onShuffle (from : PeerID) (shuffle : Shuffle) : HV () :=
  s ← get;
  if (Shuffle_Ttl shuffle =? 0) || (len (active s) <=? 1)
  then
    let n := len (Shuffle_Nodes shuffle) in
    for_each (Shuffle_Nodes shuffle) (λ node,
      addPassive (PeerInfo_ID node) (PeerInfo_Data node));;
    sendShuffleReply (Shuffle_Origin shuffle) n
  else
    next ← liftR (randomWithout (active s) [Shuffle_Origin shuffle; from]);
    match next with
    | None => mret ()
    | Some next =>
        emit (HyparviewSendMessage next
                (HyparviewShuffle
                   (MkShuffle (Shuffle_Origin shuffle) (Shuffle_Nodes shuffle)
                      (u16 (Shuffle_Ttl shuffle - 1)))))
    end.

Definition onShuffleReply (reply : ShuffleReply) : HV () :=
  for_each (ShuffleReply_Nodes reply) (λ node,
    addPassive (PeerInfo_ID node) (PeerInfo_Data node));;
  refillActiveFromPassive [].

Definition handleShuffleTimer : HV () :=
  s ← get;
  node ← liftR (random (active s));
  match node with
  | None => mret ()
  | Some node =>
      ps ← liftR (shuffledWithoutN (active s) (ShuffleActiveViewCount (config s)) [node]);
      qs ← liftR (shuffledWithoutN (passive s) (ShufflePassiveViewCount (config s)) [node]);
      let nodes := ((λ id, peerInfo s id) <$> ps) ++ ((λ id, peerInfo s id) <$> qs)
                   ++ [MkPeerInfo (me s) (clonePeerDataPtr (meData s))] in
      emit (HyparviewSendMessage node
              (HyparviewShuffle
                 (MkShuffle (me s) nodes (ShuffleRandomWalkLength (config s)))))
  end;;
  emit (HyparviewScheduleTimer (ShuffleInterval (config s)) HyparviewTimerDoShuffle).

Definition handlePendingNeighborTimer (peer : PeerID) : HV () :=
  s ← get;
  if negb (isPending s peer) then mret ()
  else
    drop_pending peer;;
    passive_remove peer;;
    refillActiveFromPassive [].

Definition handleMessage (from : PeerID) (message : HyparviewMessage) : HV () :=
  let isDisconnect := match message with HyparviewDisconnect _ => true | _ => false end in
  s ← get;
  when (negb isDisconnect && negb (peerList_contains (active s) from))
    (modify (λ s, set_stats {| TotalConnections := i64 (TotalConnections (stats s) + 1) |} s));;
  match message with
  | HyparviewJoin data => onJoin from data
  | HyparviewForwardJoin m => onForwardJoin from m
  | HyparviewShuffle m => onShuffle from m
  | HyparviewShuffleReply m => onShuffleReply m
  | HyparviewNeighbor m => onNeighbor from m
  | HyparviewDisconnect m => onDisconnect from m
  end;;
  s ← get;
  when (negb isDisconnect && negb (peerList_contains (active s) from))
    (emit (HyparviewDisconnectPeer from)).

(** The switch over the input event. *)
Definition dispatch (ev : HyparviewInEvent) : HV () :=
  match ev with
  | HyparviewRecvMessage from message => handleMessage from message
  | HyparviewTimerExpired HyparviewTimerDoShuffle => handleShuffleTimer
  | HyparviewTimerExpired (HyparviewTimerPendingNeighborRequest peer) =>
      handlePendingNeighborTimer peer
  | HyparviewPeerDisconnected peer => handleConnectionClosed peer
  | HyparviewRequestJoin peer => handleJoin peer
  | HyparviewUpdatePeerData data => modify (set_meData (clonePeerDataPtr data))
  | HyparviewQuit => handleQuit
  end.

Definition Handle (ev : HyparviewInEvent) : HV () :=
  dispatch ev;;
  s ← get;
  when (negb (shuffleScheduled s))
    (emit (HyparviewScheduleTimer (ShuffleInterval (config s)) HyparviewTimerDoShuffle);;
     modify (set_shuffleScheduled true));;
  forgetStrangers.
End handlers.
