(* ===== verification/HyparviewFacts.v ===== *)
(** * HyParView: the views stay well formed

    [hv_inv] is the invariant of the two views; [Quiet], [Tracks] and [Safe]
    classify the computations of [Hyparview] by what they may change, are
    closed under the monad's constructs, and drive the proofs: a handler is
    classified by [auto with hv] from the classes of the methods it calls. *)

From S2P Require Import Prelude GoMonad GoRand GossipTypes Hyparview.

(** ** Peer lists *)

Lemma peerIn_spec p l : peerIn p l = true ↔ p ∈ l.
Proof.
  unfold peerIn. rewrite existsb_exists. setoid_rewrite bool_decide_eq_true.
  setoid_rewrite <-list_elem_of_In. naive_solver.
Qed.

Lemma peerIn_false p l : peerIn p l = false ↔ p ∉ l.
Proof. rewrite <-peerIn_spec. by destruct (peerIn p l). Qed.

Lemma contains_spec l p : peerList_contains l p = true ↔ p ∈ l.
Proof. apply peerIn_spec. Qed.
Lemma contains_false l p : peerList_contains l p = false ↔ p ∉ l.
Proof. apply peerIn_false. Qed.

Lemma peerList_remove_fst p l : (peerList_remove p l).1 = remove_first p l.
Proof.
  induction l as [|q l IH]; simpl; [done|]. case_bool_decide; case_decide; try done.
  destruct (peerList_remove p l). simpl in *. by f_equal.
Qed.

Lemma peerList_remove_snd p l : (peerList_remove p l).2 = peerIn p l.
Proof.
  induction l as [|q l IH]; simpl; [done|]. case_bool_decide; [done|].
  destruct (peerList_remove p l). done.
Qed.

Lemma peerList_remove_eq p l : peerList_remove p l = (remove_first p l, peerIn p l).
Proof. rewrite <-peerList_remove_fst, <-peerList_remove_snd. by destruct (peerList_remove p l). Qed.

Lemma elem_of_without p l skip : p ∈ without l skip ↔ p ∈ l ∧ p ∉ skip.
Proof.
  unfold without. rewrite list_elem_of_In, filter_In, <-list_elem_of_In.
  rewrite negb_true_iff, peerIn_false. done.
Qed.

Lemma without_nil l : without l [] = l.
Proof. unfold without. induction l as [|p l IH]; simpl; [done|]. f_equal. exact IH. Qed.

Section random.
Context `{!RandSource}.

Lemma index_random_spec l r :
  l ≠ [] → ∃ p r', index_random l r = Some (p, r') ∧ p ∈ l.
Proof.
  intros Hl. unfold index_random.
  destruct (Intn_total (len l) r) as (i & r' & Hi).
  { destruct l; [done|]. unfold len; simpl; lia. }
  rewrite Hi. pose proof (Intn_range _ _ _ _ Hi) as Hr.
  destruct (lookup_lt_is_Some_2 l (Z.to_nat i)) as [p Hp]; [unfold len in Hr; lia|].
  rewrite Hp. eauto using list_elem_of_lookup_2.
Qed.

Lemma random_spec l r :
  ∃ o r', random l r = Some (o, r') ∧
    match o with Some p => p ∈ l | None => l = [] end.
Proof.
  unfold random. destruct (Z.eqb_spec (len l) 0) as [E|E].
  - apply len_0_nil in E. eauto.
  - destruct (index_random_spec l r) as (p & r' & Hp & Hin); [by rewrite <-len_0_nil|].
    rewrite Hp. eauto.
Qed.

Lemma randomWithout_spec l skip r :
  ∃ o r', randomWithout l skip r = Some (o, r') ∧
    match o with Some p => p ∈ l ∧ p ∉ skip | None => ∀ p, p ∈ l → p ∈ skip end.
Proof.
  unfold randomWithout. destruct (Z.eqb_spec (len (without l skip)) 0) as [E|E].
  - apply len_0_nil in E. eexists None, r. split; [done|]. intros p Hp.
    destruct (decide (p ∈ skip)) as [?|Hn]; [done|].
    assert (p ∈ without l skip) as Hw by (by apply elem_of_without).
    rewrite E in Hw. by apply elem_of_nil in Hw.
  - destruct (index_random_spec (without l skip) r) as (p & r' & Hp & Hin);
      [by rewrite <-len_0_nil|].
    rewrite Hp. apply elem_of_without in Hin. eauto.
Qed.

Lemma shuffledWithoutN_spec l n skip r :
  0 ≤ n →
  ∃ ps r', shuffledWithoutN l n skip r = Some (ps, r') ∧
    ps ⊆+ without l skip ∧ len ps = Z.min n (len (without l skip)).
Proof.
  intros Hn. unfold shuffledWithoutN.
  set (m := if n >? _ then _ else _).
  assert (m = Z.min n (len (without l skip))) as Hm.
  { subst m. destruct (Z.gtb_spec n (len (without l skip))); lia. }
  pose proof (rand_Shuffle_Permutation (without l skip) r) as Hp.
  destruct (rand_Shuffle (without l skip) r) as [ps r'] eqn:E. simpl in Hp.
  pose proof (len_nonneg (without l skip)).
  destruct (Z.ltb_spec m 0); [lia|]. eexists _, _. split; [done|].
  split.
  - rewrite <-Hp. rewrite <-(take_drop (Z.to_nat m) ps) at 2. apply submseteq_inserts_r. done.
  - unfold len in *. rewrite length_take, (Permutation_length Hp). lia.
Qed.

Lemma shuffledN_spec l n r :
  ∃ ps r', shuffledN l n r = Some (ps, r') ∧
    ps ⊆+ l ∧ len ps = Z.min (Z.max 0 n) (len l).
Proof.
  unfold shuffledN. destruct (Z.leb_spec n 0).
  - eexists _, _. split; [done|]. split; [apply submseteq_nil_l|].
    pose proof (len_nonneg l). unfold len at 1. simpl. lia.
  - destruct (shuffledWithoutN_spec l n [] r) as (ps & r' & -> & Hs & Hl); [lia|].
    rewrite without_nil in *. eexists _, _. split; [done|]. split; [done|]. lia.
Qed.
End random.

(** ** The invariant *)

Record hv_inv (s : HyparviewState) : Prop := {
  inv_active_nodup : NoDup (active s);
  inv_passive_nodup : NoDup (passive s);
  inv_disjoint : ∀ p, p ∈ active s → p ∉ passive s;
  inv_me_active : me s ∉ active s;
  inv_me_passive : me s ∉ passive s;
  inv_active_cap : len (active s) ≤ Z.max 1 (ActiveViewCapacity (config s));
  inv_passive_cap : len (passive s) ≤ Z.max 1 (PassiveViewCapacity (config s));
}.

(** The shuffle sizes are used as slice bounds. *)
Definition wf_config (c : HyparviewConfig) : Prop :=
  0 ≤ ShuffleActiveViewCount c ∧ 0 ≤ ShufflePassiveViewCount c.

(** The active view as an observer of the emitted events reconstructs it. *)
Definition track_event (l : list PeerID) (e : HyparviewOutEvent) : list PeerID :=
  match e with
  | HyparviewEmitEvent (HyparviewNeighborUp p) => l ++ [p]
  | HyparviewEmitEvent (HyparviewNeighborDown p) => filter (λ q, q ≠ p) l
  | _ => l
  end.
Definition track (w : list HyparviewOutEvent) (l : list PeerID) : list PeerID :=
  foldl track_event l w.

Lemma track_app w w' l : track (w ++ w') l = track w' (track w l).
Proof. apply foldl_app. Qed.

Definition silent (e : HyparviewOutEvent) : Prop :=
  match e with HyparviewEmitEvent _ => False | _ => True end.

Lemma track_silent w l : Forall silent w → track w l = l.
Proof.
  revert l. induction w as [|e w IH]; intros l Hw; simpl; [done|].
  inversion Hw; subst. rewrite IH by done. by destruct e as [| | |[]|].
Qed.

Definition same_ident (s s' : HyparviewState) : Prop :=
  me s' = me s ∧ config s' = config s.

#[global] Instance same_ident_preorder : PreOrder same_ident.
Proof. split; [done|]. intros ??? [] []; split; congruence. Qed.

Definition quiet (s s' : HyparviewState) (w : list HyparviewOutEvent) : Prop :=
  same_ident s s' ∧ active s' = active s ∧ passive s' = passive s ∧ Forall silent w.

(** ** Classes of computations *)

Definition Quiet {A} (m : HV A) : Prop := ∀ s, wp m (λ _ s' w, quiet s s' w) s.

(** The active view is untouched and no neighbor event is emitted. *)
Definition Mild {A} (m : HV A) : Prop := ∀ s, hv_inv s →
  wp m (λ _ s' w, hv_inv s' ∧ same_ident s s' ∧ active s' = active s ∧ Forall silent w) s.

Definition Tracks {A} (m : HV A) : Prop := ∀ s,
  hv_inv s → wf_config (config s) →
  wp m (λ _ s' w, hv_inv s' ∧ same_ident s s' ∧ active s' = track w (active s)) s.

Definition Safe {A} (m : HV A) : Prop := ∀ s,
  hv_inv s → wf_config (config s) → wp m (λ _ s' _, hv_inv s' ∧ same_ident s s') s.

Create HintDb hv discriminated.

Lemma quiet_trans s s' s'' w w' :
  quiet s s' w → quiet s' s'' w' → quiet s s'' (w ++ w').
Proof.
  unfold quiet. intros (?&Ea&Ep&?) (?&Ea'&Ep'&?). split_and!; [by etrans|congruence..|].
  by apply Forall_app.
Qed.

Lemma quiet_inv s s' w : quiet s s' w → hv_inv s → hv_inv s'.
Proof.
  intros ([Em Ec]&Ea&Ep&_) [].
  constructor; rewrite ?Em, ?Ec, ?Ea, ?Ep; done.
Qed.

Lemma Quiet_Mild {A} (m : HV A) : Quiet m → Mild m.
Proof.
  intros Hm s Hi. eapply wp_mono; [apply Hm|]; cbv beta. intros a s' w Hq.
  split_and!; [by eauto using quiet_inv|by destruct Hq as (?&?&?&?)..].
Qed.

Lemma Mild_wp {A} (m : HV A) s : Mild m → hv_inv s →
  wp m (λ _ s' w, hv_inv s' ∧ same_ident s s' ∧ active s' = active s ∧ Forall silent w) s.
Proof. auto. Qed.

Lemma Mild_Tracks {A} (m : HV A) : Mild m → Tracks m.
Proof.
  intros Hm s Hi Hc. eapply wp_mono; [by apply Hm|]; cbv beta.
  intros a s' w (?&?&->&?). split_and!; [done..|]. by rewrite track_silent.
Qed.

Lemma Quiet_Tracks {A} (m : HV A) : Quiet m → Tracks m.
Proof. auto using Quiet_Mild, Mild_Tracks. Qed.

Lemma Tracks_Safe {A} (m : HV A) : Tracks m → Safe m.
Proof.
  intros Hm s Hi Hc. eapply wp_mono; [by apply Hm|]. naive_solver.
Qed.

Lemma Quiet_bind {A B} (m : HV A) (f : A → HV B) :
  Quiet m → (∀ a, Quiet (f a)) → Quiet (m ≫= f).
Proof.
  intros Hm Hf s. apply wp_bind. eapply wp_mono; [apply Hm|]; cbv beta. intros a s' w Hq.
  eapply wp_mono; [apply Hf|]; cbv beta. intros b s'' w' Hq'. by eapply quiet_trans.
Qed.

Lemma Mild_bind {A B} (m : HV A) (f : A → HV B) :
  Mild m → (∀ a, Mild (f a)) → Mild (m ≫= f).
Proof.
  intros Hm Hf s Hi. apply wp_bind. eapply wp_mono; [by apply Hm|]; cbv beta.
  intros a s' w (Hi'&Hid&Ha&Hw). eapply wp_mono; [by apply Hf|]; cbv beta.
  intros b s'' w' (Hi''&Hid'&Ha'&Hw'). split_and!; [done|by etrans|congruence|].
  by apply Forall_app.
Qed.

Lemma Tracks_bind {A B} (m : HV A) (f : A → HV B) :
  Tracks m → (∀ a, Tracks (f a)) → Tracks (m ≫= f).
Proof.
  intros Hm Hf s Hi Hc. apply wp_bind. eapply wp_mono; [by apply Hm|]; cbv beta.
  intros a s' w (Hi'&Hid&Ha). eapply wp_mono.
  { apply Hf; [done|]. by destruct Hid as [_ ->]. }
  intros b s'' w' (Hi''&Hid'&Ha'). split_and!; [done|by etrans|].
  by rewrite track_app, <-Ha.
Qed.

Lemma Safe_bind {A B} (m : HV A) (f : A → HV B) :
  Safe m → (∀ a, Safe (f a)) → Safe (m ≫= f).
Proof.
  intros Hm Hf s Hi Hc. apply wp_bind. eapply wp_mono; [by apply Hm|]; cbv beta.
  intros a s' w (Hi'&Hid). eapply wp_mono.
  { apply Hf; [done|]. by destruct Hid as [_ ->]. }
  intros b s'' w' (Hi''&Hid'). split; [done|]. by etrans.
Qed.

Lemma Quiet_ret {A} (a : A) : Quiet (mret a).
Proof. intros s. apply wp_ret. by split_and!. Qed.
Lemma Quiet_get : Quiet get.
Proof. intros s. apply wp_get. by split_and!. Qed.
Lemma Quiet_emit e : silent e → Quiet (emit e).
Proof. intros He s. apply wp_emit. split_and!; try done. by apply Forall_singleton. Qed.
Lemma Quiet_when b m : Quiet m → Quiet (when b m).
Proof. intros Hm. destruct b; [done|]. apply Quiet_ret. Qed.
Lemma Mild_when b m : Mild m → Mild (when b m).
Proof. intros Hm. destruct b; [done|]. apply Quiet_Mild, Quiet_ret. Qed.
Lemma Tracks_when b m : Tracks m → Tracks (when b m).
Proof. intros Hm. destruct b; [done|]. apply Quiet_Tracks, Quiet_ret. Qed.
Lemma Quiet_for_each {A} (l : list A) f : (∀ x, Quiet (f x)) → Quiet (for_each l f).
Proof. intros. induction l; [apply Quiet_ret|]. by apply Quiet_bind. Qed.
Lemma Mild_for_each {A} (l : list A) f : (∀ x, Mild (f x)) → Mild (for_each l f).
Proof. intros. induction l; [apply Quiet_Mild, Quiet_ret|]. by apply Mild_bind. Qed.
Lemma Tracks_for_each {A} (l : list A) f : (∀ x, Tracks (f x)) → Tracks (for_each l f).
Proof. intros. induction l; [apply Quiet_Tracks, Quiet_ret|]. by apply Tracks_bind. Qed.
Lemma Safe_for_each {A} (l : list A) f : (∀ x, Safe (f x)) → Safe (for_each l f).
Proof.
  intros. induction l; [apply Tracks_Safe, Quiet_Tracks, Quiet_ret|]. by apply Safe_bind.
Qed.

(** A state update that leaves identity and views alone. *)
Definition view_neutral (f : HyparviewState → HyparviewState) : Prop := ∀ s,
  me (f s) = me s ∧ config (f s) = config s ∧ active (f s) = active s
  ∧ passive (f s) = passive s.

Lemma Quiet_modify f : view_neutral f → Quiet (modify f).
Proof. intros Hf s. apply wp_modify. destruct (Hf s) as (?&?&?&?). by split_and!. Qed.

Lemma Quiet_liftR {A} (m : R A) : (∀ r, is_Some (m r)) → Quiet (liftR m).
Proof.
  intros Hm s. unfold wp, liftR. destruct (Hm (rand s)) as [[a r] ->]. by split_and!.
Qed.

#[export] Hint Resolve Quiet_bind Quiet_ret Quiet_get Quiet_emit Quiet_when
  Quiet_for_each Quiet_modify : hv.
#[export] Hint Extern 2 (silent _) => exact I : hv.
#[export] Hint Extern 2 (view_neutral _) => intros ?; split_and!; reflexivity : hv.
#[export] Hint Extern 3 (Quiet (match ?x with _ => _ end)) => destruct x : hv.
#[export] Hint Resolve Mild_when Mild_for_each Tracks_when Tracks_for_each : hv.
#[export] Hint Extern 1 (Mild _) => (apply Quiet_Mild; solve [auto 10 with hv]) : hv.
#[export] Hint Extern 5 (Mild (_ ≫= _)) => apply Mild_bind : hv.
#[export] Hint Extern 3 (Mild (match ?x with _ => _ end)) => destruct x : hv.
#[export] Hint Extern 1 (Tracks _) => (apply Mild_Tracks; solve [auto 10 with hv]) : hv.
#[export] Hint Extern 5 (Tracks (_ ≫= _)) => apply Tracks_bind : hv.
#[export] Hint Extern 3 (Tracks (match ?x with _ => _ end)) => destruct x : hv.

Section classes.
Context `{!RandSource}.

Lemma Quiet_random l : Quiet (liftR (random l)).
Proof. apply Quiet_liftR. intros r. destruct (random_spec l r) as (?&?&->&_). eauto. Qed.
Lemma Quiet_randomWithout l skip : Quiet (liftR (randomWithout l skip)).
Proof.
  apply Quiet_liftR. intros r. destruct (randomWithout_spec l skip r) as (?&?&->&_). eauto.
Qed.
Lemma Quiet_shuffledN l n : Quiet (liftR (shuffledN l n)).
Proof. apply Quiet_liftR. intros r. destruct (shuffledN_spec l n r) as (?&?&->&_). eauto. Qed.
Lemma Quiet_shuffledWithoutN l n skip : 0 ≤ n → Quiet (liftR (shuffledWithoutN l n skip)).
Proof.
  intros. apply Quiet_liftR. intros r.
  destruct (shuffledWithoutN_spec l n skip r) as (?&?&->&_); eauto.
Qed.
#[local] Hint Resolve Quiet_random Quiet_randomWithout Quiet_shuffledN : hv.

Lemma Quiet_drop_pending p : Quiet (drop_pending p).
Proof. unfold drop_pending. auto with hv. Qed.
Lemma Quiet_drop_peerData p : Quiet (drop_peerData p).
Proof. unfold drop_peerData. auto with hv. Qed.
Lemma Quiet_forgetStrangers : Quiet forgetStrangers.
Proof. unfold forgetStrangers. auto with hv. Qed.
Lemma Quiet_insertPeerInfo i : Quiet (insertPeerInfo i).
Proof. unfold insertPeerInfo. auto 10 with hv. Qed.
Lemma Quiet_sendNeighbor p n : Quiet (sendNeighbor p n).
Proof. unfold sendNeighbor. auto 10 with hv. Qed.
Lemma Quiet_sendShuffleReply p n : Quiet (sendShuffleReply p n).
Proof. unfold sendShuffleReply. auto 10 with hv. Qed.
#[local] Hint Resolve Quiet_drop_pending Quiet_drop_peerData Quiet_insertPeerInfo
  Quiet_sendNeighbor Quiet_sendShuffleReply Quiet_forgetStrangers : hv.
Lemma Quiet_sendDisconnect p b : Quiet (sendDisconnect p b).
Proof. unfold sendDisconnect. auto 10 with hv. Qed.
Lemma Quiet_refill skip : Quiet (refillActiveFromPassive skip).
Proof. unfold refillActiveFromPassive. auto 10 with hv. Qed.
Lemma Quiet_handleJoin p : Quiet (handleJoin p).
Proof. unfold handleJoin. auto 10 with hv. Qed.
#[local] Hint Resolve Quiet_sendDisconnect Quiet_refill Quiet_handleJoin : hv.

(** *** Passive view updates *)

Lemma hv_inv_passive s l :
  hv_inv s → NoDup l → (∀ p, p ∈ l → p ∉ active s ∧ p ≠ me s) →
  len l ≤ Z.max 1 (PassiveViewCapacity (config s)) → hv_inv (set_passive l s).
Proof. intros [] Hl Hp Hc. constructor; simpl; try done; intros; naive_solver. Qed.

Lemma Mild_passive_remove p : Mild (passive_remove p).
Proof.
  intros s Hi. unfold passive_remove. apply wp_modify. split_and!; [|done..].
  rewrite peerList_remove_fst. destruct Hi. apply hv_inv_passive; try by constructor.
  - auto with goiroh.
  - intros q Hq%elem_of_remove_first. naive_solver.
  - pose proof (remove_first_length_le p (passive s)). unfold len in *. lia.
Qed.

(** [addPassive] touches the passive view only, and only by dropping peers and
    adding [peer]. *)
Lemma addPassive_spec peer data s :
  hv_inv s →
  wp (addPassive peer data)
    (λ _ s' w, hv_inv s' ∧ same_ident s s' ∧ active s' = active s ∧ Forall silent w ∧
       (∀ p, p ∈ passive s' → p ∈ passive s ∨ p = peer)) s.
Proof.
  intros Hi. unfold addPassive. wp_step. eapply wp_mono; [apply Quiet_insertPeerInfo|].
  cbv beta. intros _ s1 w1 Hq1. pose proof (quiet_inv _ _ _ Hq1 Hi) as Hi1.
  destruct Hq1 as (Hid1&Ha1&Hp1&Hw1). wp_step. wp_step.
  destruct (_ || _) eqn:Hskip.
  { wp_steps. rewrite Hp1. split_and!; eauto. }
  apply orb_false_iff in Hskip as [[Hme%bool_decide_eq_false Hnact%contains_false]%orb_false_iff
    Hnpas%contains_false].
  apply wp_bind.
  eapply (wp_mono _ (λ _ s2 w2, same_ident s1 s2 ∧ active s2 = active s1 ∧ w2 = [] ∧
    NoDup (passive s2) ∧ (∀ p, p ∈ passive s2 → p ∈ passive s1) ∧
    len (passive s2) < Z.max 1 (PassiveViewCapacity (config s1)))).
  { destruct Hi1. apply wp_when; intros Hfull.
    - apply wp_bind. unfold wp at 1, liftR.
      destruct (random_spec (passive s1) (rand s1)) as (o & r & -> & Ho). destruct o as [old|].
      + unfold passive_remove. wp_step. rewrite peerList_remove_fst. simpl.
        split_and!; try done; [auto with goiroh|by intros p ?%elem_of_remove_first|].
        pose proof (remove_first_length_in _ _ Ho). unfold len in *. lia.
      + wp_step. simpl. rewrite Ho. split_and!; try done; [constructor|].
        unfold len. simpl. lia.
    - split_and!; try done. unfold len in *. lia. }
  intros _ s2 w2 ([Em2 Ec2]&Ha2&->&Hnd&Hsub&Hlen). wp_step.
  unfold peerList_insert. rewrite (proj2 (contains_false _ _)) by auto. simpl.
  split_and!.
  - destruct Hi1. constructor; simpl; rewrite ?Em2, ?Ec2, ?Ha2; try done.
    + apply NoDup_app. split_and!; [done| |apply NoDup_singleton].
      intros p Hp ->%list_elem_of_singleton. auto.
    + intros p Hp [?| ->%list_elem_of_singleton]%elem_of_app; naive_solver.
    + intros [?|?%list_elem_of_singleton]%elem_of_app; naive_solver.
    + rewrite len_app, len_cons, len_nil. lia.
  - etrans; [done|]. split; simpl; congruence.
  - congruence.
  - by rewrite !app_nil_r.
  - intros p [Hp| ->%list_elem_of_singleton]%elem_of_app; [left|by right].
    rewrite <-Hp1. auto.
Qed.

Lemma Mild_addPassive peer data : Mild (addPassive peer data).
Proof.
  intros s Hi. eapply wp_mono; [by apply addPassive_spec|]; cbv beta. naive_solver.
Qed.
#[local] Hint Resolve Mild_passive_remove Mild_addPassive : hv.

(** *** Active view updates *)

Lemma hv_inv_active s l :
  hv_inv s → NoDup l → (∀ p, p ∈ l → p ∉ passive s ∧ p ≠ me s) →
  len l ≤ Z.max 1 (ActiveViewCapacity (config s)) → hv_inv (set_active l s).
Proof. intros [] Hl Hp Hc. constructor; simpl; try done; intros; naive_solver. Qed.

Lemma hv_inv_remove_active p s : hv_inv s → hv_inv (set_active (remove_first p (active s)) s).
Proof.
  intros Hi. destruct Hi. apply hv_inv_active; try by constructor.
  - auto with goiroh.
  - intros q Hq%elem_of_remove_first. naive_solver.
  - pose proof (remove_first_length_le p (active s)). unfold len in *. lia.
Qed.

Lemma removeActive_spec peer reason alive refill s :
  hv_inv s →
  wp (removeActive peer reason alive refill)
    (λ _ s' w, hv_inv s' ∧ same_ident s s' ∧ active s' = remove_first peer (active s)
       ∧ active s' = track w (active s)) s.
Proof.
  intros Hi. unfold removeActive. wp_step. wp_step.
  rewrite peerList_remove_eq. destruct (peerIn peer (active s)) eqn:Hin; simpl.
  2:{ apply peerIn_false in Hin. wp_step. split_and!; try done. by rewrite remove_first_id. }
  apply wp_bind, wp_modify. apply wp_bind.
  eapply wp_mono; [apply (Quiet_Mild _ (Quiet_drop_pending peer)); by apply hv_inv_remove_active|].
  cbv beta. intros _ s1 w1 (Hi1&Hid1&Ha1&Hw1). apply wp_bind, wp_emit.
  eapply wp_mono; [apply Mild_wp; [auto 20 with hv|done]|]; cbv beta. intros _ s2 w2 (Hi2&Hid2&Ha2&Hw2). simpl in *.
  split_and!; [done|by do 2 (etrans; [done|])|congruence|].
  rewrite Ha2, Ha1, track_app, (track_silent w1) by done. simpl. rewrite track_silent by done.
  apply remove_first_filter. by destruct Hi.
Qed.

Lemma Tracks_removeActive peer reason alive refill :
  Tracks (removeActive peer reason alive refill).
Proof.
  intros s Hi Hc. eapply wp_mono; [by apply removeActive_spec|]; cbv beta. naive_solver.
Qed.
#[local] Hint Resolve Tracks_removeActive : hv.

(** The making-room step of [addActive]: afterwards there is room for one more. *)
Lemma make_room_spec peer s :
  hv_inv s → peer ∉ active s →
  wp (when (len (active s) >=? ActiveViewCapacity (config s))
        (old ← liftR (random (active s));
         match old with
         | Some old => removeActive old removalRandom false false
         | None => mret ()
         end))
    (λ _ s' w, hv_inv s' ∧ same_ident s s' ∧ active s' = track w (active s) ∧
       peer ∉ active s' ∧ len (active s') < Z.max 1 (ActiveViewCapacity (config s))) s.
Proof.
  intros Hi Hp. apply wp_when; intros Hfull.
  2:{ split_and!; try done. lia. }
  apply wp_bind. unfold wp at 1, liftR.
  destruct (random_spec (active s) (rand s)) as (o & r & -> & Ho).
  assert (hv_inv (set_rand r s)) as Hi' by (destruct Hi; by constructor).
  destruct o as [old|].
  - eapply wp_mono; [by apply removeActive_spec|]; cbv beta. simpl.
    intros _ s' w (Hi2&Hid&Ha&Htr). rewrite Ha. split_and!; try done; [congruence| |].
    + by intros ?%elem_of_remove_first.
    + pose proof (remove_first_length_in _ _ Ho). destruct Hi. unfold len in *. lia.
  - wp_step. rewrite app_nil_r. split_and!; try done. simpl. rewrite Ho, len_nil. lia.
Qed.

(** [addActive] refuses only this node itself and, for a low priority request,
    a peer the full active view has no room for. *)
Lemma addActive_spec peer data priority reply s :
  hv_inv s →
  wp (addActive peer data priority reply)
    (λ ok s' w, hv_inv s' ∧ same_ident s s' ∧ active s' = track w (active s) ∧
       if ok then peer ∈ active s' ∧
            (peer ∈ active s ∨ priority ≠ PriorityLow ∨
               len (active s) < ActiveViewCapacity (config s))
       else active s' = active s ∧
            (peer = me s ∨ peer ∉ active s ∧ priority = PriorityLow ∧
               ActiveViewCapacity (config s) ≤ len (active s))) s.
Proof.
  intros Hi. unfold addActive. wp_step. wp_step.
  case_bool_decide as Hme; [wp_step; by split_and!; auto|].
  apply wp_bind. eapply wp_mono; [apply Mild_wp; [auto with hv|done]|]; cbv beta.
  intros _ s1 w1 (Hi1&Hid1&Ha1&Hw1). pose proof Hid1 as [Em1 Ec1]. do 2 wp_step.
  destruct (peerList_contains (active s1) peer) eqn:Hin; [|destruct (_ && _) eqn:Hlow].
  - apply contains_spec in Hin. apply wp_bind.
    eapply wp_mono; [apply Mild_wp; [auto with hv|done]|]; cbv beta.
    intros _ s2 w2 (Hi2&Hid2&Ha2&Hw2). wp_step. rewrite !app_nil_r, app_nil_l.
    split_and!; [done|by etrans| |by rewrite Ha2|left; by rewrite <-Ha1].
    rewrite Ha2, Ha1, track_silent; [done|]. by apply Forall_app.
  - apply andb_true_iff in Hlow as [Hpr%Z.eqb_eq Hfull%Z.geb_le].
    apply contains_false in Hin. wp_step. rewrite app_nil_r. rewrite Ha1, Ec1 in *.
    split_and!; auto. by rewrite track_silent by (by rewrite ?app_nil_r).
  - apply contains_false in Hin. apply wp_bind.
    eapply wp_mono; [by apply (make_room_spec peer)|]; cbv beta.
    intros _ s2 w2 (Hi2&Hid2&Ha2&Hp2&Hl2). apply wp_bind.
    unfold passive_remove. apply wp_modify. rewrite peerList_remove_fst.
    do 2 wp_step. unfold peerList_insert. rewrite (proj2 (contains_false _ _)) by done.
    do 2 wp_step. assert (hv_inv (set_active (active s2 ++ [peer])
      (set_passive (remove_first peer (passive s2)) s2))) as Hi3.
    { destruct Hid2 as [Em2 Ec2]. pose proof Hi2 as [].
      constructor; simpl; rewrite ?Em2, ?Ec2, ?Em1, ?Ec1 in *; try done.
      - apply NoDup_app. split_and!; [done| |apply NoDup_singleton].
        intros p Hp ->%list_elem_of_singleton. auto.
      - auto with goiroh.
      - intros p [Hp| ->%list_elem_of_singleton]%elem_of_app; [|auto with goiroh].
        intros ?%elem_of_remove_first. naive_solver.
      - rewrite elem_of_app, list_elem_of_singleton. naive_solver.
      - intros ?%elem_of_remove_first. done.
      - rewrite len_app, len_cons, len_nil. lia.
      - pose proof (remove_first_length_le peer (passive s2)). unfold len in *. lia. }
    apply wp_bind. cbn [when]. apply wp_bind, wp_emit.
    eapply wp_mono; [apply Mild_wp; [auto with hv|done]|]; cbv beta.
    intros _ s4 w4 (Hi4&Hid4&Ha4&Hw4). wp_step. simpl in *.
    split_and!; [done|by do 2 (etrans; [done|])| | |].
    + rewrite Ha4, Ha2, !track_app, Ha1. simpl.
      rewrite (track_silent w1), (track_silent (w4 ++ [])) by (by rewrite ?app_nil_r). done.
    + rewrite Ha4. apply elem_of_app. right. by apply list_elem_of_singleton.
    + right. rewrite Ha1, Ec1 in Hlow. apply andb_false_iff in Hlow as [Hl|Hl].
      * left. by apply Z.eqb_neq.
      * right. lia.
Qed.

Lemma Tracks_addActive peer data priority reply :
  Tracks (addActive peer data priority reply).
Proof.
  intros s Hi Hc. eapply wp_mono; [by apply addActive_spec|]; cbv beta. naive_solver.
Qed.
#[local] Hint Resolve Tracks_addActive : hv.

(** *** Handlers *)

Lemma Tracks_get {B} (f : HyparviewState → HV B) :
  (∀ s, wf_config (config s) → Tracks (f s)) → Tracks (get ≫= f).
Proof. intros Hf s Hi Hc. apply wp_bind, wp_get. by apply Hf. Qed.

Lemma Tracks_handleMessage from m : Tracks (handleMessage from m).
Proof.
  unfold handleMessage, onJoin, onForwardJoin, onShuffle, onShuffleReply, onNeighbor,
    onDisconnect.
  auto 25 with hv.
Qed.

Lemma Tracks_handleShuffleTimer : Tracks handleShuffleTimer.
Proof.
  unfold handleShuffleTimer. apply Tracks_get. intros s [Ha Hp].
  pose proof (Quiet_shuffledWithoutN (active s) (ShuffleActiveViewCount (config s))) as Q1.
  pose proof (Quiet_shuffledWithoutN (passive s) (ShufflePassiveViewCount (config s))) as Q2.
  apply Quiet_Tracks. auto 20 with hv.
Qed.

Lemma Safe_handleQuit : Safe handleQuit.
Proof.
  unfold handleQuit. apply Safe_bind; [by apply Tracks_Safe, Quiet_Tracks, Quiet_get|].
  intros s0. apply Safe_for_each. intros p. apply Safe_bind.
  - intros s Hi Hc. apply wp_modify. rewrite peerList_remove_fst.
    split; [by apply hv_inv_remove_active|done].
  - intros _. apply Tracks_Safe, Quiet_Tracks. auto with hv.
Qed.

Lemma Tracks_dispatch ev : ev ≠ HyparviewQuit → Tracks (dispatch ev).
Proof.
  pose proof Tracks_handleMessage. pose proof Tracks_handleShuffleTimer.
  unfold dispatch, handlePendingNeighborTimer, handleConnectionClosed.
  destruct ev as [| [] | | | |]; intros; auto 20 with hv; done.
Qed.

Lemma Tracks_Handle ev : ev ≠ HyparviewQuit → Tracks (Handle ev).
Proof. intros Hev. pose proof (Tracks_dispatch ev Hev). unfold Handle. auto 20 with hv. Qed.

(** Quitting empties the active view and reports nothing. *)
Lemma handleQuit_wp s :
  hv_inv s → wp handleQuit (λ _ s' w, hv_inv s' ∧ same_ident s s' ∧ active s' = [] ∧ Forall silent w) s.
Proof.
  intros Hi. unfold handleQuit. do 2 wp_step.
  assert (∀ l, (∀ p, p ∈ active s → p ∈ l) →
    wp (for_each l (λ peer, modify (λ s, set_active (peerList_remove peer (active s)).1 s);;
                            sendDisconnect peer false))
       (λ _ s' w, hv_inv s' ∧ same_ident s s' ∧ active s' = [] ∧ Forall silent w) s) as Hloop;
    [|apply Hloop; unfold peerList_slice; auto].
  intros l. clear -Hi. revert s Hi. induction l as [|p l IH]; intros s Hi Hl; simpl.
  { apply wp_ret. split_and!; [done|done| |constructor].
    destruct (active s) as [|q a]; [done|]. exfalso. eapply not_elem_of_nil, Hl. by left. }
  do 3 wp_step. rewrite peerList_remove_fst. set (s1 := set_active _ s).
  assert (hv_inv s1) as Hi1 by by apply hv_inv_remove_active.
  eapply wp_mono; [apply (Quiet_Mild (sendDisconnect p false)); [auto with hv|done]|]; cbv beta.
  intros [] s2 w2 (Hi2 & Hid2 & Ha2 & Hw2). eapply wp_mono.
  { apply IH; [done|]. intros q. rewrite Ha2. unfold s1. simpl. rewrite remove_first_filter by apply Hi.
    rewrite list_elem_of_filter.
    intros [Hne Hq]. specialize (Hl q Hq). rewrite elem_of_cons in Hl. naive_solver. }
  cbv beta. intros _ s3 w3 (?&Hid3&?&?). split_and!; [done| |done|by apply Forall_app].
  etrans; [|exact Hid3]. etrans; [|exact Hid2]. done.
Qed.

Lemma Quit_wp s :
  hv_inv s → wp (Handle HyparviewQuit) (λ _ s' w, hv_inv s' ∧ same_ident s s' ∧ active s' = [] ∧ Forall silent w) s.
Proof.
  intros Hi. unfold Handle. apply wp_bind. eapply wp_mono; [by apply handleQuit_wp|]; cbv beta.
  intros _ s1 w1 (Hi1 & Hid1 & Ha1 & Hw1).
  match goal with |- wp ?m _ _ => assert (Mild m) as Hm by (apply Quiet_Mild; auto 20 with hv) end.
  eapply wp_mono; [by apply Hm|]; cbv beta. intros _ s2 w2 (Hi2 & Hid2 & Ha2 & Hw2).
  split_and!; [done|by etrans|congruence|by apply Forall_app].
Qed.

Lemma Safe_Handle ev : Safe (Handle ev).
Proof.
  destruct ev as [| [] | | | |] eqn:E; try by apply Tracks_Safe, Tracks_Handle.
  unfold Handle. apply Safe_bind; [apply Safe_handleQuit|]. intros _.
  apply Tracks_Safe, Quiet_Tracks. auto 20 with hv.
Qed.
End classes.

(** ** A fresh state *)

Lemma hv_inv_New p data cfg r nanos :
  hv_inv (NewHyparviewStateWithRand p data cfg r nanos).
Proof.
  constructor; simpl; try apply NoDup_nil_2; try apply not_elem_of_nil; try (intros ? ?%elem_of_nil; done).
  all: unfold len; simpl; lia.
Qed.

Lemma wf_config_New p data cfg r nanos :
  wf_config cfg → wf_config (config (NewHyparviewStateWithRand p data cfg r nanos)).
Proof. intros Hc. simpl. case_decide; [split; simpl; lia|done]. Qed.
