(* ===== verification/HyparviewProps.v ===== *)
(** * HyParView: what the membership machine promises

    Theorems about runs of [Handle] from a fresh state, and about the outputs
    of single events. *)

From S2P Require Import Prelude GoMonad GoRand GossipTypes Hyparview HyparviewFacts.

(** A run: [Handle] applied to each event in turn, outputs concatenated. *)
Definition hv_run `{!RandSource} (evs : list HyparviewInEvent) : HV () :=
  for_each evs Handle.

(** Outputs of successful runs, whatever the state: every output of [m] satisfies [P]. *)
Notation Emits P := (Frame (λ _ _ : HyparviewState, True) P).

(** The remaining hops of a random-walk message. *)
Definition walk_ttl (m : HyparviewMessage) : option Ttl :=
  match m with
  | HyparviewForwardJoin m => Some (ForwardJoin_Ttl m)
  | HyparviewShuffle m => Some (Shuffle_Ttl m)
  | _ => None
  end.

(** The walks an output starts or continues: next hop and remaining hops. *)
Definition walk_out (e : HyparviewOutEvent) : option (PeerID * Ttl) :=
  match e with
  | HyparviewSendMessage to m => (λ t, (to, t)) <$> walk_ttl m
  | _ => None
  end.

(** A concrete stream of draws, and a node with two neighbors, to evaluate the
    machine on. *)
Definition counting_rand : RandSource := λ _ n, Z.of_nat n.
Definition two_neighbors : HyparviewState :=
  set_active [[1]; [2]] (NewHyparviewStateWithRand [0] None zeroHyparviewConfig None 7).

Lemma Frame_liftR {A} P (m : R A) : Emits P (liftR m).
Proof.
  intros s b s' w. unfold liftR. destruct (m (rand s)) as [[]|]; [|done].
  intros [= <- <- <-]. by split.
Qed.
#[export] Hint Resolve Frame_liftR : frame.

Lemma wp_emits {A P} (m : HV A) Q s :
  wp m Q s → Emits P m → wp m (λ a s' w, Q a s' w ∧ Forall P w) s.
Proof. intros HQ Hm. eapply wp_mono; [by eapply wp_frame|]; cbv beta. naive_solver. Qed.

Section props.
Context `{!RandSource}.

Lemma Safe_run evs : Safe (hv_run evs).
Proof. apply Safe_for_each, Safe_Handle. Qed.

(** What an observer who sees the events and the outputs of each knows of the
    active view [l]: NeighborUp and NeighborDown as they come, and that nobody is
    left when the topic is quit. *)
Definition observe (ev : HyparviewInEvent) (w : list HyparviewOutEvent) (l : list PeerID) : list PeerID :=
  match ev with HyparviewQuit => [] | _ => track w l end.
Fixpoint observed (evs : list HyparviewInEvent) (ws : list (list HyparviewOutEvent)) (l : list PeerID)
    : list PeerID :=
  match evs, ws with
  | ev :: evs, w :: ws => observed evs ws (observe ev w l)
  | _, _ => l
  end.

(** A run with the outputs of each event apart. *)
Fixpoint hv_trace (evs : list HyparviewInEvent) (s : HyparviewState)
    : option (HyparviewState * list (list HyparviewOutEvent)) :=
  match evs with
  | [] => Some (s, [])
  | ev :: evs =>
      '(_, s, w) ← Handle ev s;
      '(s, ws) ← hv_trace evs s;
      Some (s, w :: ws)
  end.

Lemma Handle_observed ev s :
  hv_inv s → wf_config (config s) →
  wp (Handle ev) (λ _ s' w, hv_inv s' ∧ same_ident s s' ∧ active s' = observe ev w (active s) ∧
                            (ev = HyparviewQuit → Forall silent w)) s.
Proof.
  intros Hi Hc. assert (ev = HyparviewQuit ∨ ev ≠ HyparviewQuit) as [->|Hne]
    by (destruct ev; auto; by right).
  - eapply wp_mono; [by apply Quit_wp|]. naive_solver.
  - eapply wp_mono; [by apply Tracks_Handle|]; cbv beta. intros _ s' w (?&?&->).
    split_and!; try done. by destruct ev.
Qed.

Lemma hv_trace_observed evs s :
  hv_inv s → wf_config (config s) →
  ∃ s' ws, hv_trace evs s = Some (s', ws) ∧ length ws = length evs ∧ active s' = observed evs ws (active s).
Proof.
  revert s. induction evs as [|ev evs IH]; intros s Hi Hc; simpl; [by eexists _, _|].
  destruct (wp_run _ _ _ (Handle_observed ev s Hi Hc)) as ([] & s1 & w & -> & Hi1 & [_ Ec] & Ha1 & _).
  destruct (IH s1 Hi1) as (s2 & ws & E & Hl & Ha2); [by rewrite Ec|].
  cbn [mbind option_bind]. rewrite E. exists s2, (w :: ws). split_and!; [done|by simpl; f_equal|]. simpl. by rewrite <-Ha1.
Qed.

(** C4: From a fresh state, no sequence of events makes the machine panic, and
    in the state it reaches the views are duplicate free, disjoint, never
    contain this node, and hold at most their configured capacity (at most one
    peer where the capacity is not positive). *)
Theorem hyparview_run_invariant (p : PeerID) data cfg r nanos (evs : list HyparviewInEvent)
    (Hc : wf_config cfg) :
  ∃ s w, hv_run evs (NewHyparviewStateWithRand p data cfg r nanos) = Some ((), s, w) ∧
    NoDup (ActivePeers s) ∧ NoDup (PassivePeers s) ∧
    (∀ q, q ∈ ActivePeers s → q ∉ PassivePeers s) ∧
    p ∉ ActivePeers s ∧ p ∉ PassivePeers s ∧
    len (ActivePeers s) ≤ Z.max 1 (ActiveViewCapacity (config s)) ∧
    len (PassivePeers s) ≤ Z.max 1 (PassiveViewCapacity (config s)).
Proof.
  pose proof (Safe_run evs _ (hv_inv_New p data cfg r nanos)
    (wf_config_New p data cfg r nanos Hc)) as Hrun.
  apply wp_run in Hrun as ([] & s & w & Hr & Hi & [Hme _]). destruct Hi.
  simpl in Hme. rewrite Hme in *. exists s, w. by split_and!.
Qed.

(** C9: The events determine the active view: whatever happens, an observer who
    replays the NeighborUp and NeighborDown events a machine emits, and empties the
    view when the topic is quit (which reports no NeighborDown), has the active
    view of the machine, in its order. *)
Theorem neighbor_events_determine_active_view (p : PeerID) data cfg r nanos
    (evs : list HyparviewInEvent) (Hc : wf_config cfg) :
  ∃ s ws, hv_trace evs (NewHyparviewStateWithRand p data cfg r nanos) = Some (s, ws) ∧
    length ws = length evs ∧ ActivePeers s = observed evs ws [].
Proof. apply hv_trace_observed; [apply hv_inv_New|by apply wf_config_New]. Qed.

(** *** Random walks *)

Definition no_walk (e : HyparviewOutEvent) : Prop := walk_out e = None.
#[local] Hint Extern 2 (no_walk _) => reflexivity : frame.

Lemma no_walk_insertPeerInfo i : Emits no_walk (insertPeerInfo i).
Proof. unfold insertPeerInfo. auto 10 with hv frame. Qed.
Lemma no_walk_sendNeighbor p n : Emits no_walk (sendNeighbor p n).
Proof. unfold sendNeighbor. auto 10 with hv frame. Qed.
Lemma no_walk_sendShuffleReply p n : Emits no_walk (sendShuffleReply p n).
Proof. unfold sendShuffleReply. auto 10 with hv frame. Qed.
#[local] Hint Resolve no_walk_insertPeerInfo no_walk_sendNeighbor no_walk_sendShuffleReply : frame.
Lemma no_walk_addPassive p d : Emits no_walk (addPassive p d).
Proof. unfold addPassive, passive_remove. auto 20 with hv frame. Qed.
#[local] Hint Resolve no_walk_addPassive : frame.

Lemma omap_no_walk w : Forall no_walk w → omap walk_out w = [].
Proof. induction 1 as [|e w He Hw IH]; csimpl; [done|]. by rewrite He. Qed.

(** What a handler of a walk with [t] hops left, received from [from], may send on. *)
Definition continues (s : HyparviewState) (from : PeerID) (t : Ttl)
    (w : list HyparviewOutEvent) : Prop :=
  omap walk_out w = [] ∨
  ∃ to, omap walk_out w = [(to, t - 1)] ∧ 0 < t ∧ to ∈ active s ∧ to ≠ from.

Lemma continues_silent s from t w : Forall no_walk w → continues s from t w.
Proof. intros. left. by apply omap_no_walk. Qed.

Lemma onForwardJoin_continues from m s :
  hv_inv s → 0 ≤ ForwardJoin_Ttl m < 2 ^ 16 →
  wp (onForwardJoin from m) (λ _ _ w, continues s from (ForwardJoin_Ttl m) w) s.
Proof.
  intros Hi Ht. unfold onForwardJoin, drop_pending. do 4 wp_step.
  assert (hv_inv (set_pendingNeighbor (pendingNeighbor s
    ∖ {[PeerInfo_ID (ForwardJoin_Peer m)]}) s)) as Hi1 by (destruct Hi; by constructor).
  set (s1 := set_pendingNeighbor _ s) in *.
  pose proof (no_walk_insertPeerInfo (ForwardJoin_Peer m)).
  destruct (peerList_contains (active s1) _); [|destruct ((_ =? 0) || _) eqn:Hz].
  1,2: eapply wp_mono; [apply (wp_emits (P := no_walk)); [apply (Quiet_bind _ _
         (Quiet_insertPeerInfo _) (λ _, Quiet_sendNeighbor _ _))|auto with hv frame]|];
       cbv beta; intros _ ? w (_&Hw); rewrite !app_nil_l; by apply continues_silent.
  apply orb_false_iff in Hz as [Hz%Z.eqb_neq _]. apply wp_bind.
  eapply wp_mono; [apply (wp_emits (P := no_walk)); [apply Mild_wp, Hi1; apply Mild_when, Mild_addPassive|
    auto with hv frame]|]; cbv beta.
  intros _ s2 w2 ((Hi2&_&Ha2&_)&Hw2). do 2 wp_step. apply wp_bind. unfold wp at 1, liftR.
  destruct (randomWithout_spec (active s2) [from] (rand s2)) as (o & r & -> & Ho).
  destruct o as [to|]; wp_step; rewrite ?app_nil_r, ?app_nil_l.
  2:{ by apply continues_silent. }
  destruct Ho as [Hto Hne]. right. exists to. rewrite omap_app, (omap_no_walk w2) by done.
  rewrite list_elem_of_singleton in Hne. rewrite Ha2 in Hto. csimpl.
  rewrite wrapU_small by lia. split_and!; [done|lia|done..].
Qed.

Lemma onShuffle_continues from m s :
  hv_inv s → 0 ≤ Shuffle_Ttl m < 2 ^ 16 →
  wp (onShuffle from m) (λ _ _ w, continues s from (Shuffle_Ttl m) w) s.
Proof.
  intros Hi Ht. unfold onShuffle. do 2 wp_step. destruct ((_ =? 0) || _) eqn:Hz.
  - eapply wp_mono; [apply (wp_emits (P := no_walk)); [apply Mild_wp, Hi|auto with hv frame]|]; cbv beta.
    { apply Mild_bind; [apply Mild_for_each; intros; apply Mild_addPassive|].
      intros _. apply Quiet_Mild, Quiet_sendShuffleReply. }
    intros _ ? w (_&Hw). by apply continues_silent.
  - apply orb_false_iff in Hz as [Hz%Z.eqb_neq _]. apply wp_bind. unfold wp at 1, liftR.
    destruct (randomWithout_spec (active s) [Shuffle_Origin m; from] (rand s))
      as (o & r & -> & Ho).
    destruct o as [to|]; wp_step; rewrite ?app_nil_r, ?app_nil_l.
    2:{ by apply continues_silent. }
    destruct Ho as [Hto Hne]. right. exists to. csimpl.
    rewrite wrapU_small by lia. rewrite !elem_of_cons in Hne.
    split_and!; [done|lia|done|naive_solver].
Qed.

Lemma continues_app s from t w w' :
  continues s from t w → Forall no_walk w' → continues s from t (w ++ w').
Proof.
  unfold continues. rewrite omap_app. intros Hw Hw'. rewrite (omap_no_walk w') by done.
  by rewrite app_nil_r.
Qed.

Lemma handleMessage_continues from msg t s :
  hv_inv s → walk_ttl msg = Some t → 0 ≤ t < 2 ^ 16 →
  wp (handleMessage from msg) (λ _ _ w, continues s from t w) s.
Proof.
  intros Hi Hmsg Ht. unfold handleMessage. do 2 wp_step. apply wp_bind.
  eapply wp_mono; [apply (wp_emits (P := no_walk)); [apply Quiet_when, Quiet_modify|]; auto with hv frame|].
  cbv beta. intros _ s1 w1 (Hq&Hw1). pose proof (quiet_inv _ _ _ Hq Hi) as Hi1.
  destruct Hq as (_&Ha1&_&_). apply wp_bind.
  assert (∀ w, continues s1 from t w → continues s from t w) as Hs
    by (unfold continues; by rewrite Ha1).
  destruct msg as [|m|m| | |]; simplify_eq/=; (eapply wp_mono;
    [first [by apply onForwardJoin_continues|by apply onShuffle_continues]|]); cbv beta;
    intros _ s2 w2 Hw2%Hs; (eapply wp_mono; [apply (wp_emits (P := no_walk));
      [apply Quiet_bind; [apply Quiet_get|]; intros; apply Quiet_when|]; auto with hv frame|]);
    cbv beta; intros _ s3 w3 (_&Hw3);
    unfold continues in *; rewrite !omap_app, (omap_no_walk w1), (omap_no_walk w3) by done;
    by rewrite app_nil_r.
Qed.

(** C29: A random walk (ForwardJoin or Shuffle) ends: a node that receives one
    with [t] hops left sends it on to at most one peer, with [t - 1] hops left,
    only if [t] was positive, and only to an active neighbor other than the
    sender. *)
Theorem random_walk_shrinks (s : HyparviewState) from msg t
    (Hi : hv_inv s) (Hc : wf_config (config s))
    (Hmsg : walk_ttl msg = Some t) (Ht : 0 ≤ t < 2 ^ 16) :
  ∃ s' w, Handle (HyparviewRecvMessage from msg) s = Some ((), s', w) ∧
    (omap walk_out w = [] ∨
     ∃ to, omap walk_out w = [(to, t - 1)] ∧ 0 < t ∧ to ∈ active s ∧ to ≠ from).
Proof.
  cut (wp (Handle (HyparviewRecvMessage from msg)) (λ _ _ w, continues s from t w) s).
  { intros ([] & s' & w & Hr & Hw)%wp_run. eauto. }
  unfold Handle, dispatch. apply wp_bind.
  eapply wp_mono; [by apply handleMessage_continues|]; cbv beta. intros _ s1 w1 Hw1.
  eapply wp_mono; [apply (wp_emits (P := no_walk));
    [apply (Quiet_bind get); [apply Quiet_get|]|]; auto 10 using Quiet_forgetStrangers with hv frame|].
  { unfold forgetStrangers. auto 10 with hv frame. }
  cbv beta. intros _ s2 w2 (_&Hw2). by apply continues_app.
Qed.

(** *** Peer data *)

Lemma Handle_forgets ev s a s' w :
  Handle ev s = Some (a, s', w) →
  ∀ q, is_Some (peerData s' !! q) →
    q ∈ ActivePeers s' ∨ q ∈ PassivePeers s' ∨ q ∈ pendingNeighbor s'.
Proof.
  intros Hr q [d Hd]. unfold Handle, forgetStrangers in Hr. run_inv. simpl in *.
  apply map_lookup_filter_Some in Hd as [_ Hd]. unfold isPending in Hd. simpl in Hd.
  rewrite bool_decide_eq_false, !contains_false in Hd.
  match goal with |- q ∈ ActivePeers ?s ∨ _ =>
    destruct (decide (q ∈ active s)), (decide (q ∈ passive s)),
      (decide (q ∈ pendingNeighbor s)); naive_solver end.
Qed.

(** Peer metadata is kept only for peers that are in a view or are owed a
    Neighbor reply, whatever peers the received messages name. *)
Theorem peer_data_only_for_known_peers (p : PeerID) data cfg r nanos
    (evs : list HyparviewInEvent) (Hc : wf_config cfg) :
  ∃ s w, hv_run evs (NewHyparviewStateWithRand p data cfg r nanos) = Some ((), s, w) ∧
    ∀ q, is_Some (peerData s !! q) →
      q ∈ ActivePeers s ∨ q ∈ PassivePeers s ∨ q ∈ pendingNeighbor s.
Proof.
  set (known s := ∀ q, is_Some (peerData s !! q) →
    q ∈ ActivePeers s ∨ q ∈ PassivePeers s ∨ q ∈ pendingNeighbor s).
  cut (wp (hv_run evs) (λ _ s _, hv_inv s ∧ wf_config (config s) ∧ known s)
    (NewHyparviewStateWithRand p data cfg r nanos)).
  { intros ([] & s & w & Hr & _ & _ & Hk)%wp_run. eauto. }
  apply (wp_for_each evs Handle (λ s _, hv_inv s ∧ wf_config (config s) ∧ known s) _ []).
  - split_and!; [apply hv_inv_New|by apply wf_config_New|]. intros q [d Hd].
    simpl in Hd. by rewrite lookup_empty in Hd.
  - intros ev s w _ (Hi&Hcf&_). pose proof (Safe_Handle ev s Hi Hcf) as Hwp. unfold wp in *.
    destruct (Handle ev s) as [[[[] s'] w']|] eqn:E; [|done]. destruct Hwp as [Hi' [_ Hc']].
    rewrite Hc'. split_and!; [done..|]. exact (Handle_forgets _ _ _ _ _ E).
Qed.

(** *** Admission *)

(** A peer whose message leaves it outside the active view is disconnected,
    unless the message was itself a Disconnect. *)
Theorem stranger_is_disconnected (s : HyparviewState) from msg
    (Hi : hv_inv s) (Hc : wf_config (config s))
    (Hmsg : ∀ d, msg ≠ HyparviewDisconnect d) :
  ∃ s' w, Handle (HyparviewRecvMessage from msg) s = Some ((), s', w) ∧
    (from ∈ ActivePeers s' ∨ HyparviewDisconnectPeer from ∈ w).
Proof.
  destruct (wp_run _ _ _ (Safe_Handle (HyparviewRecvMessage from msg) s Hi Hc))
    as ([] & s' & w & Hr & _). exists s', w. split; [done|].
  unfold Handle, dispatch, handleMessage, forgetStrangers in Hr. run_inv. simpl in *.
  replace (match msg with HyparviewDisconnect _ => true | _ => false end) with false in *
    by (destruct msg; naive_solver).
  apply when_Some in Hrun as [[_ Hrun]|(Hin%negb_false_iff&->&->)].
  - run_inv. right. set_solver.
  - left. apply contains_spec in Hin. apply when_Some in Hrun1 as [[_ Hrun1]|(_&->&->)];
      run_inv; done.
Qed.

(** The handler of a message, between the bookkeeping of [handleMessage] and
    [Handle], which leaves the views alone and only adds outputs. *)
Lemma Handle_message_wp from msg s (Q : list PeerID → list HyparviewOutEvent → Prop) :
  hv_inv s →
  (∀ s1, hv_inv s1 → same_ident s s1 → active s1 = active s →
    wp (match msg with
        | HyparviewJoin data => onJoin from data
        | HyparviewForwardJoin m => onForwardJoin from m
        | HyparviewShuffle m => onShuffle from m
        | HyparviewShuffleReply m => onShuffleReply m
        | HyparviewNeighbor m => onNeighbor from m
        | HyparviewDisconnect m => onDisconnect from m
        end) (λ _ s' w, Q (active s') w) s1) →
  (∀ l w w1 w2, Q l w → Q l (w1 ++ w ++ w2)) →
  wp (Handle (HyparviewRecvMessage from msg)) (λ _ s' w, Q (active s') w) s.
Proof.
  intros Hi Hbody Hext. unfold Handle, dispatch, handleMessage.
  apply wp_bind, wp_bind, wp_get, wp_bind.
  eapply wp_mono; [apply Quiet_when, Quiet_modify; auto with hv frame|]; cbv beta.
  intros _ s1 w1 Hq. pose proof (quiet_inv _ _ _ Hq Hi) as Hi1. destruct Hq as (Hid&Ha&_&_).
  apply wp_bind. eapply wp_mono; [by apply Hbody|]; cbv beta. intros _ s2 w2 HQ.
  apply wp_bind, wp_get. eapply wp_mono; [apply Quiet_when, Quiet_emit; done|]; cbv beta.
  intros _ s3 w3 (_&Ha3&_&_).
  eapply wp_mono; [apply (Quiet_bind get); [apply Quiet_get|];
    auto 10 using Quiet_forgetStrangers with hv frame|]; cbv beta.
  intros _ s4 w4 (_&Ha4&_&_). rewrite Ha4, Ha3.
  rewrite <-!app_assoc. by apply (Hext _ w2 ([] ++ w1)).
Qed.

Lemma sendDisconnect_outputs peer alive s :
  wp (sendDisconnect peer alive) (λ _ s' w, active s' = active s ∧
    HyparviewSendMessage peer (HyparviewDisconnect (MkDisconnect alive false)) ∈ w ∧
    HyparviewDisconnectPeer peer ∈ w) s.
Proof.
  unfold sendDisconnect. do 2 wp_step. apply wp_bind.
  eapply wp_mono; [apply Quiet_sendShuffleReply|]; cbv beta.
  intros _ s1 w1 (_&Ha&_&_). do 3 wp_step. set_solver.
Qed.

Lemma onNeighbor_admission from prio data s :
  hv_inv s → from ≠ me s →
  wp (onNeighbor from (MkNeighbor prio data)) (λ _ s' w,
    if decide (prio = PriorityLow ∧ from ∉ active s ∧
               ActiveViewCapacity (config s) ≤ len (active s))
    then active s' = active s ∧
         HyparviewSendMessage from (HyparviewDisconnect (MkDisconnect true false)) ∈ w ∧
         HyparviewDisconnectPeer from ∈ w
    else from ∈ active s') s.
Proof.
  intros Hi Hme. unfold onNeighbor, drop_pending. do 4 wp_step.
  set (s1 := set_pendingNeighbor _ s).
  assert (hv_inv s1) as Hi1 by (destruct Hi; by constructor).
  apply wp_bind. eapply wp_mono; [by apply addActive_spec|]; cbv beta.
  intros ok s2 w2 (_&_&_&Hok). destruct ok; simpl.
  - wp_step. destruct Hok as [? Hok]. simpl in Hok. case_decide; [|done]. naive_solver lia.
  - destruct Hok as [Ha [Hm|(Hn&Hp&Hf)]]; [done|].
    eapply wp_mono; [apply sendDisconnect_outputs|]; cbv beta.
    intros _ s3 w3 (Ha3&?&?). simpl in *. rewrite decide_True, Ha3, Ha by naive_solver.
    set_solver.
Qed.

(** A Neighbor request from another node is granted, the peer ending in the
    active view, except when it is a low priority request from a peer outside a
    full active view: that one is refused, the active view is left as it was,
    and the peer is told it is alive and disconnected. *)
Theorem neighbor_request_admission (s : HyparviewState) from prio data
    (Hi : hv_inv s) (Hc : wf_config (config s)) (Hme : from ≠ me s) :
  ∃ s' w,
    Handle (HyparviewRecvMessage from (HyparviewNeighbor (MkNeighbor prio data))) s
      = Some ((), s', w) ∧
    if decide (prio = PriorityLow ∧ from ∉ ActivePeers s ∧
               ActiveViewCapacity (config s) ≤ len (ActivePeers s))
    then ActivePeers s' = ActivePeers s ∧
         HyparviewSendMessage from (HyparviewDisconnect (MkDisconnect true false)) ∈ w ∧
         HyparviewDisconnectPeer from ∈ w
    else from ∈ ActivePeers s'.
Proof.
  unfold ActivePeers, peerList_slice. rewrite !app_nil_l.
  set (b := decide _) in *.
  cut (wp (Handle (HyparviewRecvMessage from (HyparviewNeighbor (MkNeighbor prio data))))
    (λ _ s' w, (λ l w, if b then l = active s ∧
       HyparviewSendMessage from (HyparviewDisconnect (MkDisconnect true false)) ∈ w ∧
       HyparviewDisconnectPeer from ∈ w else from ∈ l) (active s') w) s).
  { intros ([] & s' & w & Hr & Hw)%wp_run. by exists s', w. }
  apply Handle_message_wp; [done| |].
  - intros s1 Hi1 [Em Ec] Ha. eapply wp_mono; [apply onNeighbor_admission; congruence|].
    cbv beta. subst b. rewrite Ha, Ec. auto.
  - intros l w w1 w2. destruct b; [|done]. set_solver.
Qed.
End props.

(** *** The theorems at concrete runs *)

Definition sample_run : list HyparviewInEvent :=
  [HyparviewRequestJoin [1];
   HyparviewRecvMessage [1] (HyparviewNeighbor (MkNeighbor PriorityHigh (Some [7])));
   HyparviewRecvMessage [2] (HyparviewJoin None);
   HyparviewRecvMessage [1] (HyparviewForwardJoin (MkForwardJoin (MkPeerInfo [3] (Some [9])) 0));
   HyparviewTimerExpired HyparviewTimerDoShuffle;
   HyparviewPeerDisconnected [2]].

Lemma wf_default : wf_config DefaultHyparviewConfig.
Proof. split; simpl; lia. Qed.

Lemma hv_inv_two_neighbors : hv_inv two_neighbors.
Proof. constructor; try (intros p _; apply not_elem_of_nil); by_decision. Qed.

Lemma hyparview_run_invariant_witness :
  wf_config DefaultHyparviewConfig ∧
  ∃ s w, @hv_run counting_rand sample_run
    (NewHyparviewStateWithRand [0] None DefaultHyparviewConfig None 7) = Some ((), s, w) ∧
    NoDup (ActivePeers s).
Proof.
  split; [exact wf_default|].
  destruct (@hyparview_run_invariant counting_rand [0] None DefaultHyparviewConfig None 7
    sample_run wf_default) as (s & w & Hr & Hn & _). exists s, w. by split.
Defined.

Definition sample_quit : list HyparviewInEvent :=
  sample_run ++ [HyparviewQuit; HyparviewRecvMessage [4] (HyparviewJoin None)].

Lemma neighbor_events_determine_active_view_witness :
  (fst <$> @hv_trace counting_rand sample_quit (NewHyparviewStateWithRand [0] None DefaultHyparviewConfig None 7))
    ≫= (λ s, Some (ActivePeers s)) = Some [[4]] ∧
  ∃ s ws, @hv_trace counting_rand sample_quit
    (NewHyparviewStateWithRand [0] None DefaultHyparviewConfig None 7) = Some (s, ws) ∧
    length ws = length sample_quit ∧ ActivePeers s = observed sample_quit ws [].
Proof.
  split; [vm_compute; reflexivity|].
  exact (@neighbor_events_determine_active_view counting_rand [0] None DefaultHyparviewConfig
    None 7 sample_quit wf_default).
Defined.

Lemma peer_data_only_for_known_peers_witness :
  ∃ s w, @hv_run counting_rand sample_run
    (NewHyparviewStateWithRand [0] None DefaultHyparviewConfig None 7) = Some ((), s, w) ∧
    ∀ q, is_Some (peerData s !! q) →
      q ∈ ActivePeers s ∨ q ∈ PassivePeers s ∨ q ∈ pendingNeighbor s.
Proof.
  exact (@peer_data_only_for_known_peers counting_rand [0] None DefaultHyparviewConfig
    None 7 sample_run wf_default).
Defined.

Lemma random_walk_shrinks_witness :
  ∃ s' w,
    @Handle counting_rand (HyparviewRecvMessage [1]
      (HyparviewForwardJoin (MkForwardJoin (MkPeerInfo [3] None) 6))) two_neighbors
      = Some ((), s', w) ∧
    (omap walk_out w = [] ∨
     ∃ to, omap walk_out w = [(to, 6 - 1)] ∧ 0 < 6 ∧ to ∈ active two_neighbors ∧ to ≠ [1]).
Proof.
  apply (@random_walk_shrinks counting_rand two_neighbors [1]);
    [exact hv_inv_two_neighbors|exact wf_default|reflexivity|lia].
Defined.

Lemma stranger_is_disconnected_witness :
  ∃ s' w, @Handle counting_rand
    (HyparviewRecvMessage [5] (HyparviewShuffleReply (MkShuffleReply []))) two_neighbors
      = Some ((), s', w) ∧ ([5] ∈ ActivePeers s' ∨ HyparviewDisconnectPeer [5] ∈ w).
Proof.
  apply (@stranger_is_disconnected counting_rand two_neighbors [5]);
    [exact hv_inv_two_neighbors|exact wf_default|discriminate].
Defined.

Lemma neighbor_request_admission_witness :
  ∃ s' w, @Handle counting_rand
    (HyparviewRecvMessage [5] (HyparviewNeighbor (MkNeighbor PriorityLow None))) two_neighbors
      = Some ((), s', w) ∧ [5] ∈ ActivePeers s'.
Proof.
  exact (@neighbor_request_admission counting_rand two_neighbors [5] PriorityLow None
    hv_inv_two_neighbors wf_default ltac:(discriminate)).
Defined.
