(* ===== verification/Plumtree.v ===== *)
(** * PlumTree broadcast: internal/gossipproto/plumtree.go

    The IO-less broadcast state machine of one topic.  [PlumtreeState] is the
    Go struct and every method is a computation of [PT].  Two things the code
    takes from elsewhere are arguments of the model: the BLAKE3 digest of
    lukechampine.com/blake3 (class [Blake3]) and the order in which a [range]
    over a map visits its keys ([MapRange], any permutation of the keys).  One
    [Handle] visits at most one map whose order shows in its outputs, so one
    order per call covers every behaviour. *)

From S2P Require Import Prelude GoMonad GossipTypes GossipWire.

(** blake3.Sum256, a function of the content. *)
Class Blake3 := Sum256 : bytes → bytes.

Record MapRange := MkMapRange {
  range_keys :> gset PeerID → list PeerID;
  range_keys_perm : ∀ X, range_keys X ≡ₚ elements X;
}.

(** ** Configuration, inputs, outputs *)

Inductive Scope := ScopeSwarm | ScopeNeighbors.

Record PlumtreeConfig := MkPlumtreeConfig {
  GraftTimeout1 : Duration;
  GraftTimeout2 : Duration;
  DispatchTimeout : Duration;
  OptimizationThreshold : Round;
  MessageCacheRetention : Duration;
  MessageIDRetention : Duration;
  CacheEvictInterval : Duration;
  Config_MaxPayloadSize : Z;
}.

#[global] Instance PlumtreeConfig_eq_dec : EqDecision PlumtreeConfig.
Proof. solve_decision. Defined.

Definition zeroPlumtreeConfig : PlumtreeConfig := MkPlumtreeConfig 0 0 0 0 0 0 0 0.

Definition DefaultPlumtreeConfig : PlumtreeConfig := {|
  GraftTimeout1 := 80 * Millisecond;
  GraftTimeout2 := 40 * Millisecond;
  DispatchTimeout := 5 * Millisecond;
  OptimizationThreshold := 7;
  MessageCacheRetention := 30 * Second;
  MessageIDRetention := 90 * Second;
  CacheEvictInterval := Second;
  Config_MaxPayloadSize := DefaultMaxPayloadSize;
|}.

Record PlumtreeStats := MkPlumtreeStats {
  PayloadMessagesReceived : Z;
  ControlMessagesReceived : Z;
  MaxLastDeliveryHop : Z;
}.

Inductive PlumtreeTimer :=
  | PlumtreeTimerSendGraft (ID : MessageID)
  | PlumtreeTimerDispatchLazyPush
  | PlumtreeTimerEvictCache.

(** An input; the time [Now] of the Go struct is a separate argument of [Handle]. *)
Inductive PlumtreeInEvent :=
  | PlumtreeRecvMessage (From : PeerID) (Message : PlumtreeMessage)
  | PlumtreeBroadcast (Content : bytes) (scope : Scope)
  | PlumtreeTimerExpired (Timer : PlumtreeTimer)
  | PlumtreeNeighborUp (Neighbor : PeerID)
  | PlumtreeNeighborDown (Neighbor : PeerID).

Inductive PlumtreeEvent :=
  | PlumtreeReceived (Content : bytes) (DeliveredFrom : PeerID) (scope : DeliveryScope).

Inductive PlumtreeOutEvent :=
  | PlumtreeSendMessage (To : PeerID) (Message : PlumtreeMessage)
  | PlumtreeScheduleTimer (After : Duration) (Timer : PlumtreeTimer)
  | PlumtreeEmitEvent (Event : PlumtreeEvent).

(** ** State *)

Definition maxMissingPerPeer : Z := 1024.
Definition maxMissing : Z := 16 * maxMissingPerPeer.

Record graftTarget := MkGraftTarget { gt_peer : PeerID; gt_round : Round }.
Record cachedGossip := MkCachedGossip { cg_message : Gossip; cg_expire : Time }.

Record PlumtreeState := MkPlumtreeState {
  me : PeerID;
  config : PlumtreeConfig;
  eager : gset PeerID;
  lazy : gset PeerID;
  lazyQueue : gmap PeerID (list IHave);
  missing : gmap MessageID (list graftTarget);
  nmissing : gmap PeerID Z;
  ntargets : Z;
  received : gmap MessageID Time;
  cache : gmap MessageID cachedGossip;
  graftTimerScheduled : gset MessageID;
  dispatchTimerScheduled : bool;
  init : bool;
  stats : PlumtreeStats;
  maxPayloadSize : Z;
}.

(** Field updates, by groups of fields the code writes together. *)
Definition set_peers e l s :=
  {| me := me s; config := config s; eager := e; lazy := l; lazyQueue := lazyQueue s;
     missing := missing s; nmissing := nmissing s; ntargets := ntargets s;
     received := received s; cache := cache s; graftTimerScheduled := graftTimerScheduled s;
     dispatchTimerScheduled := dispatchTimerScheduled s; init := init s; stats := stats s;
     maxPayloadSize := maxPayloadSize s |}.
Definition set_lazyQueue q s :=
  {| me := me s; config := config s; eager := eager s; lazy := lazy s; lazyQueue := q;
     missing := missing s; nmissing := nmissing s; ntargets := ntargets s;
     received := received s; cache := cache s; graftTimerScheduled := graftTimerScheduled s;
     dispatchTimerScheduled := dispatchTimerScheduled s; init := init s; stats := stats s;
     maxPayloadSize := maxPayloadSize s |}.
Definition set_missing m s :=
  {| me := me s; config := config s; eager := eager s; lazy := lazy s;
     lazyQueue := lazyQueue s; missing := m; nmissing := nmissing s; ntargets := ntargets s;
     received := received s; cache := cache s; graftTimerScheduled := graftTimerScheduled s;
     dispatchTimerScheduled := dispatchTimerScheduled s; init := init s; stats := stats s;
     maxPayloadSize := maxPayloadSize s |}.
Definition set_counts nm nt s :=
  {| me := me s; config := config s; eager := eager s; lazy := lazy s;
     lazyQueue := lazyQueue s; missing := missing s; nmissing := nm; ntargets := nt;
     received := received s; cache := cache s; graftTimerScheduled := graftTimerScheduled s;
     dispatchTimerScheduled := dispatchTimerScheduled s; init := init s; stats := stats s;
     maxPayloadSize := maxPayloadSize s |}.
Definition set_store r c s :=
  {| me := me s; config := config s; eager := eager s; lazy := lazy s;
     lazyQueue := lazyQueue s; missing := missing s; nmissing := nmissing s;
     ntargets := ntargets s; received := r; cache := c;
     graftTimerScheduled := graftTimerScheduled s;
     dispatchTimerScheduled := dispatchTimerScheduled s; init := init s; stats := stats s;
     maxPayloadSize := maxPayloadSize s |}.
Definition set_graftTimerScheduled g s :=
  {| me := me s; config := config s; eager := eager s; lazy := lazy s;
     lazyQueue := lazyQueue s; missing := missing s; nmissing := nmissing s;
     ntargets := ntargets s; received := received s; cache := cache s;
     graftTimerScheduled := g; dispatchTimerScheduled := dispatchTimerScheduled s;
     init := init s; stats := stats s; maxPayloadSize := maxPayloadSize s |}.
Definition set_dispatchTimerScheduled b s :=
  {| me := me s; config := config s; eager := eager s; lazy := lazy s;
     lazyQueue := lazyQueue s; missing := missing s; nmissing := nmissing s;
     ntargets := ntargets s; received := received s; cache := cache s;
     graftTimerScheduled := graftTimerScheduled s; dispatchTimerScheduled := b;
     init := init s; stats := stats s; maxPayloadSize := maxPayloadSize s |}.
Definition set_init b s :=
  {| me := me s; config := config s; eager := eager s; lazy := lazy s;
     lazyQueue := lazyQueue s; missing := missing s; nmissing := nmissing s;
     ntargets := ntargets s; received := received s; cache := cache s;
     graftTimerScheduled := graftTimerScheduled s;
     dispatchTimerScheduled := dispatchTimerScheduled s; init := b; stats := stats s;
     maxPayloadSize := maxPayloadSize s |}.
Definition set_stats t s :=
  {| me := me s; config := config s; eager := eager s; lazy := lazy s;
     lazyQueue := lazyQueue s; missing := missing s; nmissing := nmissing s;
     ntargets := ntargets s; received := received s; cache := cache s;
     graftTimerScheduled := graftTimerScheduled s;
     dispatchTimerScheduled := dispatchTimerScheduled s; init := init s; stats := t;
     maxPayloadSize := maxPayloadSize s |}.

Notation PT := (GoM PlumtreeState PlumtreeOutEvent).

(** [if config == (PlumtreeConfig{})] and [if config.MaxPayloadSize <= 0] *)
Definition normalizePlumtreeConfig (c : PlumtreeConfig) : PlumtreeConfig :=
  let c := if decide (c = zeroPlumtreeConfig) then DefaultPlumtreeConfig else c in
  if Config_MaxPayloadSize c <=? 0
  then {| GraftTimeout1 := GraftTimeout1 c; GraftTimeout2 := GraftTimeout2 c;
          DispatchTimeout := DispatchTimeout c;
          OptimizationThreshold := OptimizationThreshold c;
          MessageCacheRetention := MessageCacheRetention c;
          MessageIDRetention := MessageIDRetention c;
          CacheEvictInterval := CacheEvictInterval c;
          Config_MaxPayloadSize := DefaultMaxPayloadSize |}
  else c.

Definition NewPlumtreeState (me : PeerID) (config : PlumtreeConfig) : PlumtreeState :=
  let config := normalizePlumtreeConfig config in
  {| me := me; config := config; eager := ∅; lazy := ∅; lazyQueue := ∅; missing := ∅;
     nmissing := ∅; ntargets := 0; received := ∅; cache := ∅; graftTimerScheduled := ∅;
     dispatchTimerScheduled := false; init := false; stats := MkPlumtreeStats 0 0 0;
     maxPayloadSize := Config_MaxPayloadSize config |}.

Definition Stats (s : PlumtreeState) : PlumtreeStats := stats s.
Definition State_MaxPayloadSize (s : PlumtreeState) : Z := maxPayloadSize s.

(** ** Helpers *)

Definition cloneBytes (b : bytes) : bytes := [] ++ b.

(** [time.Time.Add] and [time.Time.After] *)
Definition Add (t : Time) (d : Duration) : Time := t + d.
Definition After (t u : Time) : bool := t >? u.

Definition hasGraftTarget (targets : list graftTarget) (peer : PeerID) : bool :=
  existsb (λ target, bool_decide (gt_peer target = peer)) targets.

Definition removeGraftTargets (targets : list graftTarget) (peer : PeerID) :
    list graftTarget :=
  List.filter (λ target, negb (bool_decide (gt_peer target = peer))) targets.

(** Map reads with Go's zero value for an absent key. *)
Definition targets_of (s : PlumtreeState) (id : MessageID) : list graftTarget :=
  default [] (missing s !! id).
Definition nmissing_of (s : PlumtreeState) (peer : PeerID) : Z := default 0 (nmissing s !! peer).

(** ** Operations *)

Definition addEager (peer : PeerID) : PT () :=
  modify (λ s, set_peers ({[peer]} ∪ eager s) (lazy s ∖ {[peer]}) s).

Definition addLazy (peer : PeerID) : PT () :=
  modify (λ s, set_peers (eager s ∖ {[peer]}) ({[peer]} ∪ lazy s) s).

Definition forgetMissing (peer : PeerID) : PT () :=
  modify (λ s, set_counts (nmissing s) (i64 (ntargets s - 1)) s);;
  modify (λ s,
    if nmissing_of s peer <=? 1 then set_counts (delete peer (nmissing s)) (ntargets s) s
    else set_counts (<[peer := i64 (nmissing_of s peer - 1)]> (nmissing s)) (ntargets s) s).

Definition eagerPush (order : MapRange) (message : Gossip) (sender : PeerID) : PT () :=
  s ← get;
  for_each (order (eager s)) (λ peer,
    if bool_decide (peer = me s) || bool_decide (peer = sender) then mret ()
    else emit (PlumtreeSendMessage peer (PlumtreeGossip message))).

Definition lazyPush (order : MapRange) (message : Gossip) (sender : PeerID) : PT () :=
  match Gossip_Scope message with
  | DeliveryScopeNeighbors => mret ()
  | DeliveryScopeSwarm round =>
      s ← get;
      for_each (order (lazy s)) (λ peer,
        if bool_decide (peer = sender) then mret ()
        else modify (λ s, set_lazyQueue
               (<[peer := default [] (lazyQueue s !! peer)
                          ++ [MkIHave (Gossip_ID message) round]]> (lazyQueue s)) s));;
      when (negb (dispatchTimerScheduled s))
        (emit (PlumtreeScheduleTimer (DispatchTimeout (config s))
                 PlumtreeTimerDispatchLazyPush);;
         modify (set_dispatchTimerScheduled true))
  end.

(** The best announcer: the first of those with the lowest round. *)
Definition bestTarget (first : graftTarget) (rest : list graftTarget) : graftTarget :=
  foldl (λ best candidate, if gt_round candidate <? gt_round best then candidate else best)
    first rest.

Definition optimizeTree (sender : PeerID) (message : Gossip) (ihaves : list graftTarget) :
    PT () :=
  match Gossip_Scope message, ihaves with
  | DeliveryScopeSwarm round, first :: rest =>
      let best := bestTarget first rest in
      s ← get;
      when ((gt_round best <? round)
            && (u16 (round - gt_round best) >=? OptimizationThreshold (config s)))
        (when (negb (bool_decide (gt_peer best ∈ eager s)))
           (addEager (gt_peer best);;
            emit (PlumtreeSendMessage (gt_peer best)
                    (PlumtreeGraft (MkGraft None (gt_round best)))));;
         addLazy sender;;
         emit (PlumtreeSendMessage sender PlumtreePrune))
  | _, _ => mret ()
  end.

Definition onIHave (sender : PeerID) (ihaves : list IHave) : PT () :=
  for_each ihaves (λ ihave,
    let id := IHave_ID ihave in
    s ← get;
    if bool_decide (is_Some (received s !! id)) then mret ()
    else if (nmissing_of s sender >=? maxMissingPerPeer) || (ntargets s >=? maxMissing)
            || (Z.of_nat (size (graftTimerScheduled s)) >=? maxMissing)
            || hasGraftTarget (targets_of s id) sender
    then mret ()
    else
      modify (λ s, set_missing
        (<[id := targets_of s id ++ [MkGraftTarget sender (IHave_Round ihave)]]> (missing s)) s);;
      modify (λ s, set_counts (<[sender := i64 (nmissing_of s sender + 1)]> (nmissing s))
                     (i64 (ntargets s + 1)) s);;
      when (negb (bool_decide (id ∈ graftTimerScheduled s)))
        (modify (λ s, set_graftTimerScheduled ({[id]} ∪ graftTimerScheduled s) s);;
         emit (PlumtreeScheduleTimer (GraftTimeout1 (config s)) (PlumtreeTimerSendGraft id)))).

Definition onSendGraftTimer (id : MessageID) : PT () :=
  modify (λ s, set_graftTimerScheduled (graftTimerScheduled s ∖ {[id]}) s);;
  s ← get;
  if bool_decide (is_Some (received s !! id)) then mret ()
  else
    match targets_of s id with
    | [] => mret ()
    | target :: rest =>
        modify (λ s, set_missing
          (match rest with [] => delete id (missing s) | _ => <[id := rest]> (missing s) end) s);;
        forgetMissing (gt_peer target);;
        addEager (gt_peer target);;
        emit (PlumtreeSendMessage (gt_peer target)
                (PlumtreeGraft (MkGraft (Some id) (gt_round target))));;
        emit (PlumtreeScheduleTimer (GraftTimeout2 (config s)) (PlumtreeTimerSendGraft id))
    end.

Definition onGraft (sender : PeerID) (graft : Graft) : PT () :=
  addEager sender;;
  match Graft_ID graft with
  | None => mret ()
  | Some id =>
      s ← get;
      match cache s !! id with
      | Some cached => emit (PlumtreeSendMessage sender (PlumtreeGossip (cg_message cached)))
      | None => mret ()
      end
  end.

(** [for len(ihaves) > 0]; each round takes at least one element when
    [chunkLen] is positive, so the length of the list is fuel enough. *)
Fixpoint dispatch_loop (fuel : nat) (chunkLen : Z) (peer : PeerID) (ihaves : list IHave) :
    PT () :=
  match fuel with
  | O => mret ()
  | S fuel =>
      if len ihaves >? 0 then
        let n := Z.min chunkLen (len ihaves) in
        emit (PlumtreeSendMessage peer (PlumtreeIHave (take (Z.to_nat n) ihaves)));;
        dispatch_loop fuel chunkLen peer (drop (Z.to_nat n) ihaves)
      else mret ()
  end.

Definition dispatchChunkLen (s : PlumtreeState) : Z :=
  let chunkLen := Z.quot (maxPayloadSize s - 3) iHavePostcardMaxSize in
  if chunkLen <? 1 then 1 else chunkLen.

Definition onDispatchTimer (order : MapRange) : PT () :=
  s ← get;
  for_each (order (dom (lazyQueue s))) (λ peer,
    let ihaves := default [] (lazyQueue s !! peer) in
    dispatch_loop (length ihaves) (dispatchChunkLen s) peer ihaves;;
    modify (λ s, set_lazyQueue (delete peer (lazyQueue s)) s));;
  modify (set_dispatchTimerScheduled false).

(** The loop over [missing] rewrites or deletes each entry on its own. *)
Definition onNeighborDown (peer : PeerID) : PT () :=
  modify (λ s, set_missing
    (omap (λ targets, match removeGraftTargets targets peer with
                      | [] => None
                      | targets => Some targets
                      end) (missing s)) s);;
  modify (λ s, set_counts (delete peer (nmissing s))
                 (i64 (ntargets s - nmissing_of s peer)) s);;
  modify (λ s, set_peers (eager s ∖ {[peer]}) (lazy s ∖ {[peer]}) s).

Definition onEvictCacheTimer (now : Time) : PT () :=
  modify (λ s, set_store
    (filter (λ kv, After kv.2 now = true) (received s))
    (filter (λ kv, After (cg_expire kv.2) now = true) (cache s)) s);;
  s ← get;
  emit (PlumtreeScheduleTimer (CacheEvictInterval (config s)) PlumtreeTimerEvictCache).

Section broadcast.
Context `{!Blake3}.

Definition MessageIDFromContent (content : bytes) : MessageID := Sum256 content.

(** [s.received[id] = ...; s.cache[id] = ...] *)
Definition remember (id : MessageID) (message : Gossip) (now : Time) : PT () :=
  modify (λ s, set_store
    (<[id := Add now (MessageIDRetention (config s))]> (received s))
    (<[id := MkCachedGossip message (Add now (MessageCacheRetention (config s)))]> (cache s)) s).

Definition broadcast (order : MapRange) (content : bytes) (scope : Scope) (now : Time) : PT () :=
  let id := MessageIDFromContent content in
  let dscope := match scope with
                | ScopeNeighbors => DeliveryScopeNeighbors
                | ScopeSwarm => DeliveryScopeSwarm 0
                end in
  let message := MkGossip id (cloneBytes content) dscope in
  s ← get;
  match dscope with
  | DeliveryScopeSwarm _ => remember id message now;; lazyPush order message (me s)
  | DeliveryScopeNeighbors => mret ()
  end;;
  eagerPush order message (me s).

Definition onGossip (order : MapRange) (sender : PeerID) (message : Gossip) (now : Time) :
    PT () :=
  let id := Gossip_ID message in
  if negb (bool_decide (id = MessageIDFromContent (Gossip_Content message))) then mret ()
  else
    s ← get;
    if bool_decide (is_Some (received s !! id))
    then addLazy sender;; emit (PlumtreeSendMessage sender PlumtreePrune)
    else
      match Gossip_Scope message with
      | DeliveryScopeSwarm round =>
          let forward := MkGossip id (Gossip_Content message)
                           (DeliveryScopeSwarm (u16 (round + 1))) in
          remember id forward now;;
          eagerPush order forward sender;;
          lazyPush order forward sender;;
          modify (λ s, set_graftTimerScheduled (graftTimerScheduled s ∖ {[id]}) s);;
          s ← get;
          let previous := targets_of s id in
          modify (λ s, set_missing (delete id (missing s)) s);;
          for_each previous (λ target, forgetMissing (gt_peer target));;
          optimizeTree sender forward previous;;
          modify (λ s, if round >? MaxLastDeliveryHop (stats s)
            then set_stats (MkPlumtreeStats (PayloadMessagesReceived (stats s))
                   (ControlMessagesReceived (stats s)) round) s
            else s)
      | DeliveryScopeNeighbors => mret ()
      end;;
      emit (PlumtreeEmitEvent
              (PlumtreeReceived (cloneBytes (Gossip_Content message)) sender
                 (Gossip_Scope message))).

(** [PayloadMessagesReceived++] or [ControlMessagesReceived++] *)
Definition countMessage (payload : bool) (t : PlumtreeStats) : PlumtreeStats :=
  if payload
  then MkPlumtreeStats (u64 (PayloadMessagesReceived t + 1)) (ControlMessagesReceived t)
         (MaxLastDeliveryHop t)
  else MkPlumtreeStats (PayloadMessagesReceived t) (u64 (ControlMessagesReceived t + 1))
         (MaxLastDeliveryHop t).

Definition handleMessage (order : MapRange) (sender : PeerID) (message : PlumtreeMessage)
    (now : Time) : PT () :=
  let payload := match message with PlumtreeGossip _ => true | _ => false end in
  modify (λ s, set_stats (countMessage payload (stats s)) s);;
  match message with
  | PlumtreeGossip m => onGossip order sender m now
  | PlumtreePrune => addLazy sender
  | PlumtreeIHave m => onIHave sender m
  | PlumtreeGraft m => onGraft sender m
  end.

Definition dispatch (order : MapRange) (ev : PlumtreeInEvent) (now : Time) : PT () :=
  match ev with
  | PlumtreeRecvMessage from message => handleMessage order from message now
  | PlumtreeBroadcast content scope => broadcast order content scope now
  | PlumtreeTimerExpired PlumtreeTimerDispatchLazyPush => onDispatchTimer order
  | PlumtreeTimerExpired (PlumtreeTimerSendGraft id) => onSendGraftTimer id
  | PlumtreeTimerExpired PlumtreeTimerEvictCache => onEvictCacheTimer now
  | PlumtreeNeighborUp peer => addEager peer
  | PlumtreeNeighborDown peer => onNeighborDown peer
  end.

Definition Handle (order : MapRange) (ev : PlumtreeInEvent) (now : Time) : PT () :=
  s ← get;
  when (negb (init s)) (modify (set_init true);; onEvictCacheTimer now);;
  dispatch order ev now.
End broadcast.
