(* ===== verification/PlumtreeFacts.v ===== *)
(** * PlumTree: the invariant of the broadcast state

    The book-keeping of announced messages ([missing], [nmissing], [ntargets])
    agrees with itself and stays within its bounds, and a peer is never both
    eager and lazy.  [Keeps] is the class of computations that preserve this;
    the hint database [pt] closes it under the monad's constructs. *)

From S2P Require Import Prelude GoMonad GossipTypes GossipWire Plumtree.

(** Targets of [peer] in one entry. *)
Definition occ (peer : PeerID) (l : list graftTarget) : Z :=
  len (List.filter (λ t, bool_decide (gt_peer t = peer)) l).

(** ** The invariant *)

(** [counts rest s]: the counters are those of [missing] plus the targets
    [rest], which have left the map and are still to be forgotten. *)
Record counts (rest : list graftTarget) (s : PlumtreeState) : Prop := {
  cnt_total : ntargets s = msum len (missing s) + len rest;
  cnt_peer : ∀ p, nmissing_of s p = msum (occ p) (missing s) + occ p rest;
  cnt_pos : ∀ p n, nmissing s !! p = Some n → 0 < n;
  cnt_peer_max : ∀ p, nmissing_of s p ≤ maxMissingPerPeer;
  cnt_max : ntargets s ≤ maxMissing;
}.

Record pt_shape (s : PlumtreeState) : Prop := {
  shape_disjoint : eager s ## lazy s;
  shape_nonempty : ∀ id l, missing s !! id = Some l → l ≠ [];
  shape_nodup : ∀ id l, missing s !! id = Some l → NoDup (gt_peer <$> l);
  shape_timers : Z.of_nat (size (graftTimerScheduled s)) ≤ maxMissing;
}.

Definition pt_inv (s : PlumtreeState) : Prop := pt_shape s ∧ counts [] s.

(** What no operation changes. *)
Definition same_setup (s s' : PlumtreeState) : Prop :=
  me s' = me s ∧ config s' = config s ∧ maxPayloadSize s' = maxPayloadSize s.

Definition Keeps {A} (m : PT A) : Prop :=
  ∀ s, pt_inv s → wp m (λ _ s' _, pt_inv s' ∧ same_setup s s') s.

Create HintDb pt discriminated.

(** ** Targets of one message *)

Lemma occ_nonneg p l : 0 ≤ occ p l.
Proof. apply len_nonneg. Qed.
Lemma occ_nil p : occ p [] = 0.
Proof. done. Qed.
Lemma occ_cons p t l : occ p (t :: l) = (if decide (gt_peer t = p) then 1 else 0) + occ p l.
Proof.
  unfold occ. simpl. case_bool_decide; [rewrite decide_True, len_cons by done|
    rewrite decide_False by done]; lia.
Qed.
Lemma occ_app p l k : occ p (l ++ k) = occ p l + occ p k.
Proof. unfold occ. by rewrite List.filter_app, len_app. Qed.

Lemma hasGraftTarget_false l p : hasGraftTarget l p = false ↔ p ∉ gt_peer <$> l.
Proof.
  unfold hasGraftTarget. induction l as [|t l IH]; simpl.
  - split; [intros _; apply not_elem_of_nil|done].
  - rewrite orb_false_iff, IH, bool_decide_eq_false, not_elem_of_cons. naive_solver.
Qed.

Lemma removeGraftTargets_len l p : len l = occ p l + len (removeGraftTargets l p).
Proof.
  induction l as [|t l IH]; [done|]. rewrite occ_cons, len_cons. simpl.
  case_bool_decide; simpl; [rewrite decide_True by done|
    rewrite decide_False, len_cons by done]; lia.
Qed.

Lemma removeGraftTargets_occ l p q :
  occ q (removeGraftTargets l p) = if decide (q = p) then 0 else occ q l.
Proof.
  induction l as [|t l IH]; simpl; [by case_decide|].
  rewrite occ_cons. case_bool_decide; simpl; rewrite ?occ_cons, IH;
    repeat case_decide; simplify_eq; lia.
Qed.

Lemma removeGraftTargets_nodup l p :
  NoDup (gt_peer <$> l) → NoDup (gt_peer <$> removeGraftTargets l p).
Proof.
  induction l as [|t l IH]; csimpl; [done|]. intros [Ht Hl]%NoDup_cons.
  case_bool_decide; csimpl; [auto|]. apply NoDup_cons. split; [|auto].
  intros (u & E & Hu)%list_elem_of_fmap. apply Ht, list_elem_of_fmap. exists u. split; [done|].
  apply list_elem_of_In in Hu. apply List.filter_In in Hu as [Hu _]. by apply list_elem_of_In.
Qed.

(** ** Closure of [Keeps] *)

Lemma same_setup_trans s s' s'' : same_setup s s' → same_setup s' s'' → same_setup s s''.
Proof. unfold same_setup. intros (?&?&?) (?&?&?). split_and!; congruence. Qed.

Lemma Keeps_ret {A} (a : A) : Keeps (mret a).
Proof. intros s Hi. by apply wp_ret. Qed.
Lemma Keeps_get : Keeps get.
Proof. intros s Hi. by apply wp_get. Qed.
Lemma Keeps_emit e : Keeps (emit e).
Proof. intros s Hi. by apply wp_emit. Qed.
Lemma Keeps_modify f :
  (∀ s, pt_inv s → pt_inv (f s) ∧ same_setup s (f s)) → Keeps (modify f).
Proof. intros Hf s Hi. apply wp_modify. by apply Hf. Qed.
Lemma Keeps_bind {A B} (m : PT A) (f : A → PT B) :
  Keeps m → (∀ a, Keeps (f a)) → Keeps (m ≫= f).
Proof.
  intros Hm Hf s Hi. apply wp_bind. eapply wp_mono; [by apply Hm|]; cbv beta.
  intros a s' w [Hi' Hs]. eapply wp_mono; [by apply Hf|]; cbv beta.
  intros b s'' w' [? ?]. split; [done|by eapply same_setup_trans].
Qed.
Lemma Keeps_when b (m : PT ()) : Keeps m → Keeps (when b m).
Proof. destruct b; [done|]. intros _. apply Keeps_ret. Qed.
Lemma Keeps_for_each {A} (l : list A) (f : A → PT ()) :
  (∀ x, Keeps (f x)) → Keeps (for_each l f).
Proof. intros Hf. induction l; simpl; [apply Keeps_ret|by apply Keeps_bind]. Qed.

#[export] Hint Resolve Keeps_ret Keeps_get Keeps_emit Keeps_bind Keeps_when Keeps_for_each : pt.
#[export] Hint Extern 3 (Keeps (match ?x with _ => _ end)) => destruct x : pt.

(** An update of fields the invariant does not mention. *)
Ltac keeps_fields := apply Keeps_modify; intros ? [[] []]; by repeat constructor.
#[export] Hint Extern 4 (Keeps (modify _)) => keeps_fields : pt.

(** ** The operations *)

Lemma Keeps_addEager p : Keeps (addEager p).
Proof.
  apply Keeps_modify. intros s [[] Hc]. destruct Hc. repeat constructor; simpl; try done. set_solver.
Qed.
Lemma Keeps_addLazy p : Keeps (addLazy p).
Proof.
  apply Keeps_modify. intros s [[] Hc]. destruct Hc. repeat constructor; simpl; try done. set_solver.
Qed.
#[export] Hint Resolve Keeps_addEager Keeps_addLazy : pt.

Lemma Keeps_eagerPush o m p : Keeps (eagerPush o m p).
Proof. unfold eagerPush. auto 10 with pt. Qed.
Lemma Keeps_lazyPush o m p : Keeps (lazyPush o m p).
Proof. unfold lazyPush. auto 10 with pt. Qed.
Lemma Keeps_onGraft p g : Keeps (onGraft p g).
Proof. unfold onGraft. auto 10 with pt. Qed.
Lemma Keeps_dispatch_loop n c p l : Keeps (dispatch_loop n c p l).
Proof. revert l. induction n; intros l; simpl; auto 10 with pt. Qed.
Lemma Keeps_optimizeTree p m l : Keeps (optimizeTree p m l).
Proof. unfold optimizeTree. auto 15 with pt. Qed.
Lemma Keeps_onEvictCacheTimer now : Keeps (onEvictCacheTimer now).
Proof. unfold onEvictCacheTimer. auto 10 with pt. Qed.
#[export] Hint Resolve Keeps_eagerPush Keeps_lazyPush Keeps_onGraft Keeps_dispatch_loop
  Keeps_optimizeTree Keeps_onEvictCacheTimer : pt.

Lemma Keeps_onDispatchTimer o : Keeps (onDispatchTimer o).
Proof. unfold onDispatchTimer. auto 10 with pt. Qed.
#[export] Hint Resolve Keeps_onDispatchTimer : pt.

Lemma nmissing_of_set_counts nm nt s p :
  nmissing_of (set_counts nm nt s) p = default 0 (nm !! p).
Proof. done. Qed.

Lemma counts_total_nonneg rest s : counts rest s → 0 ≤ ntargets s - len rest.
Proof.
  intros [-> _ _ _ _]. pose proof (msum_nonneg len (missing s) len_nonneg). lia.
Qed.

(** Taking one target of [gt_peer t] off the counters. *)
Lemma counts_forget t rest s nm :
  counts (t :: rest) s →
  (∀ p, default 0 (nm !! p) = nmissing_of s p - if decide (p = gt_peer t) then 1 else 0) →
  (∀ p n, nm !! p = Some n → 0 < n) →
  counts rest (set_counts nm (ntargets s - 1) s).
Proof.
  intros [Ht Hp Hpos Hpm Hm] Hnm Hnpos. rewrite len_cons in Ht.
  constructor; simpl; try done; [lia|intros p..|lia]; rewrite nmissing_of_set_counts, Hnm.
  - rewrite Hp, occ_cons. repeat case_decide; simplify_eq; lia.
  - specialize (Hpm p). case_decide; lia.
Qed.

(** [forgetMissing] settles one target that has left the map. *)
Lemma forgetMissing_spec t rest s :
  counts (t :: rest) s →
  wp (forgetMissing (gt_peer t)) (λ _ s' w, counts rest s' ∧ w = [] ∧
    ∃ nm nt, s' = set_counts nm nt s) s.
Proof.
  intros Hc. pose proof (counts_total_nonneg _ _ Hc) as Hn. pose proof Hc as [_ Hp Hpos Hpm Hm].
  rewrite len_cons in Hn. pose proof (len_nonneg rest).
  specialize (Hpm (gt_peer t)) as Hpt. specialize (Hp (gt_peer t)) as H1.
  rewrite occ_cons, decide_True in H1 by done. pose proof (occ_nonneg (gt_peer t) rest).
  pose proof (msum_nonneg (occ (gt_peer t)) (missing s) (occ_nonneg _)).
  unfold maxMissing, maxMissingPerPeer in Hm, Hpt.
  unfold forgetMissing. do 3 wp_step. rewrite nmissing_of_set_counts.
  fold (nmissing_of s (gt_peer t)). rewrite (i64_small (ntargets s - 1)) by lia.
  destruct (Z.leb_spec (nmissing_of s (gt_peer t)) 1); split_and!; try done; try by eexists _, _.
  - apply (counts_forget t rest s); [done|..]; intros p;
      destruct (decide (p = gt_peer t)) as [->|]; rewrite ?lookup_delete_eq, ?lookup_delete_ne by done;
      simpl; unfold nmissing_of in *; [lia|lia|done|apply Hpos].
  - rewrite i64_small by lia. apply (counts_forget t rest s); [done|..]; intros p;
      destruct (decide (p = gt_peer t)) as [->|]; rewrite ?lookup_insert_eq, ?lookup_insert_ne by done;
      simpl; unfold nmissing_of in *; [lia|lia|intros ? [= <-]; lia|apply Hpos].
Qed.

Lemma forget_all_spec l s :
  counts l s →
  wp (for_each l (λ t, forgetMissing (gt_peer t))) (λ _ s' w, counts [] s' ∧ w = [] ∧
    ∃ nm nt, s' = set_counts nm nt s) s.
Proof.
  revert s. induction l as [|t l IH]; intros s Hc; simpl.
  - apply wp_ret. split_and!; [done..|]. exists (nmissing s), (ntargets s). by destruct s.
  - apply wp_bind. eapply wp_mono; [by apply forgetMissing_spec|]; cbv beta.
    intros _ s1 w1 (Hc1&->&nm&nt&->). eapply wp_mono; [by apply IH|]; cbv beta.
    intros _ s2 w2 (?&->&nm'&nt'&->). split_and!; [done..|]. by exists nm', nt'.
Qed.

(** Additive measures of target lists, such as [len] and [occ p]. *)
Class Additive (f : list graftTarget → Z) : Prop :=
  additive_app : ∀ l k, f (l ++ k) = f l + f k.
#[global] Instance len_Additive : Additive len := len_app.
#[global] Instance occ_Additive p : Additive (occ p) := occ_app p.

Lemma additive_nil f `{!Additive f} : f [] = 0.
Proof. pose proof (additive_app [] []) as E. simpl in E. lia. Qed.

Section entries.
Context (f : list graftTarget → Z) `{!Additive f}.
Implicit Types m : gmap MessageID (list graftTarget).

Lemma msum_append m id t :
  msum f (<[id := default [] (m !! id) ++ [t]]> m) = msum f m + f [t].
Proof.
  destruct (m !! id) as [l|] eqn:E; simpl.
  - rewrite (msum_update f m id l) by done. rewrite additive_app. lia.
  - rewrite msum_insert by done. lia.
Qed.

Lemma msum_pop m id t rest :
  m !! id = Some (t :: rest) →
  msum f m = msum f (match rest with [] => delete id m | _ => <[id := rest]> m end) + f [t].
Proof.
  intros Hid. assert (f (t :: rest) = f [t] + f rest) as E by apply (additive_app [t] rest).
  destruct rest as [|u rest].
  - rewrite (msum_delete f m id [t]) by done. lia.
  - rewrite (msum_update f m id _ _ Hid). lia.
Qed.
End entries.

Lemma occ_single p t : occ p [t] = if decide (gt_peer t = p) then 1 else 0.
Proof. rewrite occ_cons, occ_nil. lia. Qed.

(** Recording one more announcement, below the bounds. *)
Lemma counts_announce id t s :
  counts [] s → nmissing_of s (gt_peer t) < maxMissingPerPeer → ntargets s < maxMissing →
  counts [] (set_counts (<[gt_peer t := i64 (nmissing_of s (gt_peer t) + 1)]> (nmissing s))
    (i64 (ntargets s + 1)) (set_missing (<[id := targets_of s id ++ [t]]> (missing s)) s)).
Proof.
  intros Hc Hp Hm. pose proof (counts_total_nonneg _ _ Hc) as Hn. rewrite (len_nil (A := graftTarget)) in Hn.
  destruct Hc as [Ht Hpeer Hpos Hpm _]. unfold maxMissing, maxMissingPerPeer in *.
  assert (0 ≤ nmissing_of s (gt_peer t)).
  { rewrite Hpeer. pose proof (msum_nonneg _ (missing s) (occ_nonneg (gt_peer t))).
    pose proof (occ_nonneg (gt_peer t) []). lia. }
  rewrite !i64_small by lia. unfold targets_of.
  assert (∀ p, default 0 ((<[gt_peer t := nmissing_of s (gt_peer t) + 1]> (nmissing s)) !! p)
    = nmissing_of s p + if decide (gt_peer t = p) then 1 else 0) as Hnm.
  { intros p. destruct (decide (gt_peer t = p)) as [<-|].
    - by rewrite lookup_insert_eq.
    - rewrite lookup_insert_ne by done. unfold nmissing_of. lia. }
  constructor; simpl; [|intros p..|]; rewrite ?nmissing_of_set_counts, ?Hnm.
  - rewrite (msum_append len), len_cons, Ht, !len_nil. lia.
  - rewrite (msum_append (occ p)), occ_single, Hpeer. lia.
  - intros n. destruct (decide (gt_peer t = p)) as [<-|];
      rewrite ?lookup_insert_eq, ?lookup_insert_ne by done; [intros [= <-]; lia|apply Hpos].
  - specialize (Hpm p). unfold maxMissingPerPeer. case_decide; subst; lia.
  - unfold maxMissing, maxMissingPerPeer. lia.
Qed.

Lemma shape_announce id t s :
  pt_shape s → t.(gt_peer) ∉ gt_peer <$> targets_of s id →
  pt_shape (set_missing (<[id := targets_of s id ++ [t]]> (missing s)) s).
Proof.
  intros [Hd Hne Hnd Htm] Ht. constructor; simpl; [done| | |done]; intros i l.
  - destruct (decide (id = i)) as [<-|]; rewrite ?lookup_insert_eq, ?lookup_insert_ne by done.
    + intros [= <-] [_ ?]%app_nil. done.
    + apply Hne.
  - destruct (decide (id = i)) as [<-|]; rewrite ?lookup_insert_eq, ?lookup_insert_ne by done; [|apply Hnd].
    intros [= <-]. unfold targets_of in *. rewrite fmap_app. apply NoDup_app. split_and!.
    + destruct (missing s !! id) as [l|] eqn:E; [by eapply Hnd|constructor].
    + intros p Hp ->%list_elem_of_singleton. done.
    + apply NoDup_singleton.
Qed.

Lemma Keeps_onIHave p l : Keeps (onIHave p l).
Proof.
  unfold onIHave. apply Keeps_for_each. intros [id r] s [Hs Hc]. simpl. do 2 wp_step.
  case_bool_decide; [by apply wp_ret|].
  destruct (_ || _) eqn:Hg; [by apply wp_ret|].
  rewrite !orb_false_iff, !Z.geb_leb, !Z.leb_gt, hasGraftTarget_false in Hg.
  destruct Hg as [[[Hp Hm] Htm] Hg].
  pose proof (counts_announce id (MkGraftTarget p r) s Hc Hp Hm) as Hc'.
  pose proof (shape_announce id (MkGraftTarget p r) s Hs Hg) as Hs'.
  do 4 wp_step. destruct Hs' as [Hd' Hn' Hnd' _]. destruct Hc'.
  apply wp_when; intros Hin; [do 2 wp_step; apply wp_emit|]; split; [|done|..|done];
    split; constructor; simpl in *; try done.
  - rewrite size_union_alt. pose proof (size_singleton (C := gset MessageID) id).
    pose proof (subseteq_size (graftTimerScheduled s ∖ {[id]}) (graftTimerScheduled s)
      ltac:(set_solver)). lia.
  - lia.
Qed.
#[export] Hint Resolve Keeps_onIHave : pt.

(** Moving one target, or a whole entry, out of [missing]. *)
Lemma counts_pop id t rest s :
  counts [] s → missing s !! id = Some (t :: rest) →
  counts [t] (set_missing
    (match rest with [] => delete id (missing s) | _ => <[id := rest]> (missing s) end) s).
Proof.
  intros [Ht Hp Hpos Hpm Hm] Hid. constructor; simpl; try done.
  - rewrite Ht, (msum_pop len (missing s) id t rest Hid), len_nil. lia.
  - intros p. unfold nmissing_of; simpl. fold (nmissing_of s p).
    rewrite Hp, (msum_pop (occ p) (missing s) id t rest Hid), occ_nil. lia.
Qed.

Lemma counts_take id s :
  counts [] s → counts (targets_of s id) (set_missing (delete id (missing s)) s).
Proof.
  intros [Ht Hp Hpos Hpm Hm]. unfold targets_of.
  destruct (missing s !! id) as [l|] eqn:E; simpl; [|by rewrite delete_id].
  constructor; simpl; try done.
  - rewrite Ht, (msum_delete len _ id l E), len_nil. lia.
  - intros p. unfold nmissing_of; simpl. fold (nmissing_of s p).
    rewrite Hp, (msum_delete (occ p) _ id l E), occ_nil. lia.
Qed.

(** Shrinking entries of [missing] keeps their shape. *)
Lemma shape_shrink m s :
  pt_shape s →
  (∀ id l, m !! id = Some l → l ≠ [] ∧ NoDup (gt_peer <$> l)) → pt_shape (set_missing m s).
Proof. intros [] Hm. constructor; simpl; try done; intros id l Hl; by apply (Hm id l). Qed.

Lemma shape_pop id t rest s :
  pt_shape s → missing s !! id = Some (t :: rest) →
  pt_shape (set_missing
    (match rest with [] => delete id (missing s) | _ => <[id := rest]> (missing s) end) s).
Proof.
  intros Hs Hid. apply shape_shrink; [done|]. intros i l. destruct Hs as [_ Hne Hnd _].
  destruct rest as [|u rest].
  - rewrite lookup_delete_Some. intros [_ Hl]. split; [by eapply Hne|by eapply Hnd].
  - rewrite lookup_insert_Some. intros [[<- <-]|[_ Hl]];
      [|split; [by eapply Hne|by eapply Hnd]].
    split; [done|]. apply Hnd in Hid. csimpl in *. by apply NoDup_cons in Hid as [_ ?].
Qed.

Lemma shape_set_counts nm nt s : pt_shape s → pt_shape (set_counts nm nt s).
Proof. intros []. by constructor. Qed.

Lemma timers_drop (X : gset MessageID) id n :
  Z.of_nat (size X) ≤ n → Z.of_nat (size (X ∖ {[id]})) ≤ n.
Proof. pose proof (subseteq_size (X ∖ {[id]}) X ltac:(set_solver)). lia. Qed.

Lemma Keeps_onSendGraftTimer id : Keeps (onSendGraftTimer id).
Proof.
  unfold onSendGraftTimer. apply Keeps_bind.
  { apply Keeps_modify. intros s [[] []]. repeat constructor; simpl; try done.
    by apply timers_drop. }
  intros _ s [Hs Hc]. do 2 wp_step. case_bool_decide; [by apply wp_ret|].
  unfold targets_of. destruct (missing s !! id) as [[|t rest]|] eqn:E; simpl; [by apply wp_ret| |by apply wp_ret].
  do 2 wp_step. apply wp_bind.
  eapply wp_mono; [apply forgetMissing_spec; by apply counts_pop|]; cbv beta.
  intros _ s1 w1 (Hc1&_&nm&nt&->).
  assert (∀ m : PT (), Keeps m → ∀ s0, pt_inv s0 → same_setup s s0 →
    wp m (λ _ s' _, pt_inv s' ∧ same_setup s s') s0) as Hcont.
  { intros m Hm s0 Hi0 Hs0. eapply wp_mono; [by apply Hm|]; cbv beta.
    intros ? ? ? [? ?]. split; [done|by eapply same_setup_trans]. }
  apply Hcont; [auto 10 with pt| |done]. split; [|done].
  apply shape_set_counts. by apply (shape_pop id t rest).
Qed.

Lemma counts_neighbor_down peer s :
  counts [] s →
  counts [] (set_counts (delete peer (nmissing s)) (i64 (ntargets s - nmissing_of s peer))
    (set_missing (omap (λ l, match removeGraftTargets l peer with
                             | [] => None | l => Some l end) (missing s)) s)).
Proof.
  intros Hc. pose proof (counts_total_nonneg _ _ Hc) as Hn. rewrite (len_nil (A := graftTarget)) in Hn.
  destruct Hc as [Ht Hp Hpos Hpm Hm]. set (h := λ l, match _ with [] => None | _ => _ end).
  assert (∀ f `{!Additive f} l, default 0 (f <$> h l) = f (removeGraftTargets l peer)) as Hh.
  { intros f ? l. unfold h. destruct (removeGraftTargets l peer); simpl; [|done].
    by rewrite additive_nil. }
  assert (msum len (missing s) = msum (occ peer) (missing s) + msum len (omap h (missing s))) as El.
  { apply msum_omap. intros l. rewrite (Hh len _). apply removeGraftTargets_len. }
  assert (∀ p, msum (occ p) (missing s) =
    msum (λ l, if decide (p = peer) then occ p l else 0) (missing s)
    + msum (occ p) (omap h (missing s))) as Eo.
  { intros p. apply msum_omap. intros l. rewrite (Hh (occ p) _), removeGraftTargets_occ.
    case_decide; lia. }
  pose proof (msum_nonneg len (omap h (missing s)) len_nonneg).
  specialize (Hp peer) as Hpp. rewrite occ_nil, len_nil in *.
  unfold maxMissing, maxMissingPerPeer in Hm.
  pose proof (msum_nonneg (occ peer) (missing s) (occ_nonneg peer)).
  rewrite i64_small by lia. constructor; simpl.
  - rewrite len_nil. lia.
  - intros p. rewrite nmissing_of_set_counts, occ_nil. specialize (Eo p).
    destruct (decide (p = peer)) as [->|].
    + rewrite lookup_delete_eq. simpl. change (λ l, occ peer l) with (occ peer) in Eo. lia.
    + rewrite lookup_delete_ne by done. fold (nmissing_of s p). rewrite Hp, occ_nil.
      rewrite Eo. replace (msum (λ _, 0) (missing s)) with 0; [lia|].
      symmetry. clear. induction (missing s) using map_ind; [done|]. by rewrite msum_insert.
  - intros p n [_ ?]%lookup_delete_Some. by eapply Hpos.
  - intros p. rewrite nmissing_of_set_counts. destruct (decide (p = peer)) as [->|].
    + by rewrite lookup_delete_eq.
    + rewrite lookup_delete_ne by done. apply Hpm.
  - unfold maxMissing, maxMissingPerPeer. lia.
Qed.

Lemma Keeps_onNeighborDown p : Keeps (onNeighborDown p).
Proof.
  intros s [Hs Hc]. unfold onNeighborDown. do 5 wp_step.
  pose proof (counts_neighbor_down p s Hc) as []. split; [|done].
  assert (pt_shape (set_missing (omap (λ l, match removeGraftTargets l p with
                             | [] => None | l => Some l end) (missing s)) s)) as [].
  { apply shape_shrink; [done|]. intros id l. rewrite lookup_omap_Some. intros (l0&Hl&Hl0).
    destruct Hs as [_ _ Hnd _]. apply Hnd, (removeGraftTargets_nodup _ p) in Hl0.
    destruct (removeGraftTargets l0 p); by simplify_eq. }
  split; constructor; simpl in *; try done. set_solver.
Qed.
#[export] Hint Resolve Keeps_onSendGraftTimer Keeps_onNeighborDown : pt.

(** Taking the announcers of [id] out of the book-keeping, and going on with them. *)
Lemma Keeps_take id (k : list graftTarget → PT ()) :
  (∀ l, Keeps (k l)) →
  Keeps (s ← get;
         modify (λ s, set_missing (delete id (missing s)) s);;
         for_each (targets_of s id) (λ target, forgetMissing (gt_peer target));;
         k (targets_of s id)).
Proof.
  intros Hk s [Hs Hc]. do 4 wp_step. apply wp_bind.
  eapply wp_mono; [by apply forget_all_spec, counts_take|]; cbv beta.
  intros _ s1 w1 (Hc1&_&nm&nt&->). eapply wp_mono; [apply Hk|]; cbv beta.
  - split; [|done]. apply shape_set_counts, shape_shrink; [done|].
    intros i l [_ Hl]%lookup_delete_Some. destruct Hs. eauto.
  - intros _ s2 w2 [? ?]. split; [done|]. by eapply same_setup_trans.
Qed.

Lemma Keeps_drop_timer id :
  Keeps (modify (λ s, set_graftTimerScheduled (graftTimerScheduled s ∖ {[id]}) s)).
Proof.
  apply Keeps_modify. intros s [[] []]. repeat constructor; simpl; try done.
  by apply timers_drop.
Qed.
#[export] Hint Resolve Keeps_take Keeps_drop_timer : pt.

Section handle.
Context `{!Blake3}.

Lemma Keeps_broadcast o c sc now : Keeps (broadcast o c sc now).
Proof. unfold broadcast, remember. destruct sc; auto 10 with pt. Qed.

Lemma Keeps_onGossip o p m now : Keeps (onGossip o p m now).
Proof.
  unfold onGossip, remember. destruct (negb _); [auto with pt|].
  apply Keeps_bind; [auto with pt|]. intros s. case_bool_decide; [auto with pt|].
  apply Keeps_bind; [|auto with pt]. destruct (Gossip_Scope m) as [r|]; [|auto with pt].
  do 4 (apply Keeps_bind; [auto with pt|intros _]). refine (Keeps_take (Gossip_ID m)
    (λ l, optimizeTree p _ l;; modify _) _). intros l.
  apply Keeps_bind; [auto with pt|]. intros _. apply Keeps_modify.
  intros s0 [[] []]. case_match; by repeat constructor.
Qed.

Lemma Keeps_Handle o ev now : Keeps (Handle o ev now).
Proof.
  assert (Keeps (dispatch o ev now)) as Hd.
  { unfold dispatch, handleMessage.
    destruct ev as [p []| |[]| |]; auto 10 using Keeps_broadcast, Keeps_onGossip with pt. }
  unfold Handle. auto 10 with pt.
Qed.
End handle.

Lemma pt_inv_New p c : pt_inv (NewPlumtreeState p c).
Proof. by split; constructor. Qed.
