(* ===== verification/PlumtreeProps.v ===== *)
(** * PlumTree: what the broadcast machine promises

    The invariant along runs, delivery at most once within the retention
    window, forwarding of fresh messages, and the lazy announcements. *)

From S2P Require Import Prelude GoMonad GossipTypes Postcard PostcardFacts GossipWire.
From S2P Require Import GossipWireFacts Plumtree PlumtreeFacts.

(** A run: one order for map iteration, one event and one time per step. *)
Definition pt_run `{!Blake3} (evs : list (MapRange * PlumtreeInEvent * Time)) : PT () :=
  for_each evs (λ '(o, ev, now), Handle o ev now).

(** The swarm-scoped deliveries of message [id] among the outputs. *)
Definition delivers `{!Blake3} (id : MessageID) (e : PlumtreeOutEvent) : bool :=
  match e with
  | PlumtreeEmitEvent (PlumtreeReceived c _ (DeliveryScopeSwarm _)) =>
      bool_decide (MessageIDFromContent c = id)
  | _ => false
  end.
Definition deliveries `{!Blake3} (id : MessageID) (w : list PlumtreeOutEvent) :=
  List.filter (delivers id) w.

(** Full payloads sent, with their addressee. *)
Definition payload_out (e : PlumtreeOutEvent) : option (PeerID * Gossip) :=
  match e with
  | PlumtreeSendMessage to (PlumtreeGossip m) => Some (to, m)
  | _ => None
  end.

(** Announcements sent to [p]. *)
Definition ihave_out (p : PeerID) (e : PlumtreeOutEvent) : option (list IHave) :=
  match e with
  | PlumtreeSendMessage to (PlumtreeIHave l) => if decide (to = p) then Some l else None
  | _ => None
  end.

(** Graft requests for message [id], with their addressee. *)
Definition graft_out (e : PlumtreeOutEvent) : option (PeerID * Graft) :=
  match e with
  | PlumtreeSendMessage to (PlumtreeGraft g) => Some (to, g)
  | _ => None
  end.

(** The ascending order of a map, and the identity as a digest, to evaluate the
    machine on. *)
Definition elements_order : MapRange := MkMapRange elements (λ X, reflexivity _).
Definition identity_digest : Blake3 := λ c, c.

(** ** Computations that neither deliver nor touch the received table *)

Definition no_event (e : PlumtreeOutEvent) : Prop :=
  match e with PlumtreeEmitEvent _ => False | _ => True end.

Definition still (s s' : PlumtreeState) : Prop :=
  received s' = received s ∧ config s' = config s.
#[global] Instance still_PreOrder : PreOrder still.
Proof. split; [done|]. intros ??? [??] [??]. split; congruence. Qed.

Notation Still := (Frame still no_event).

Lemma Still_addEager p : Still (addEager p).
Proof. unfold addEager. auto with frame. Qed.
Lemma Still_addLazy p : Still (addLazy p).
Proof. unfold addLazy. auto with frame. Qed.
Lemma Still_forgetMissing p : Still (forgetMissing p).
Proof. unfold forgetMissing. auto with frame. Qed.
#[export] Hint Resolve Still_addEager Still_addLazy Still_forgetMissing : frame.
Lemma Still_eagerPush o m p : Still (eagerPush o m p).
Proof. unfold eagerPush. auto 10 with frame. Qed.
Lemma Still_lazyPush o m p : Still (lazyPush o m p).
Proof. unfold lazyPush. auto 10 with frame. Qed.
Lemma Still_optimizeTree p m l : Still (optimizeTree p m l).
Proof. unfold optimizeTree. auto 15 with frame. Qed.
Lemma Still_onIHave p l : Still (onIHave p l).
Proof. unfold onIHave. auto 15 with frame. Qed.
Lemma Still_onSendGraftTimer id : Still (onSendGraftTimer id).
Proof. unfold onSendGraftTimer. auto 20 with frame. Qed.
Lemma Still_onGraft p g : Still (onGraft p g).
Proof. unfold onGraft. auto 10 with frame. Qed.
Lemma Still_dispatch_loop n c p l : Still (dispatch_loop n c p l).
Proof. revert l. induction n; intros l; simpl; auto 10 with frame. Qed.
#[export] Hint Resolve Still_eagerPush Still_lazyPush Still_optimizeTree Still_onIHave
  Still_onSendGraftTimer Still_onGraft Still_dispatch_loop : frame.
Lemma Still_onDispatchTimer o : Still (onDispatchTimer o).
Proof. unfold onDispatchTimer. auto 10 with frame. Qed.
Lemma Still_onNeighborDown p : Still (onNeighborDown p).
Proof. unfold onNeighborDown. auto 10 with frame. Qed.
#[export] Hint Resolve Still_onDispatchTimer Still_onNeighborDown : frame.

(** ** Delivery at most once *)

Section once.
Context `{!Blake3} (id : MessageID) (ret bound : Z).

(** Message [id] is remembered until [bound] at least. *)
Definition held (s : PlumtreeState) : Prop := ∃ e, received s !! id = Some e ∧ bound ≤ e.

(** One step or several: nothing is delivered once [id] is held, and a delivery
    makes it held. *)
Definition once (s s' : PlumtreeState) (w : list PlumtreeOutEvent) : Prop :=
  (held s → held s' ∧ deliveries id w = []) ∧
  (deliveries id w = [] ∨ len (deliveries id w) = 1 ∧ held s').

Definition Once {A} (m : PT A) : Prop := ∀ s a s' w,
  MessageIDRetention (config s) = ret → m s = Some (a, s', w) →
  config s' = config s ∧ once s s' w.

Lemma deliveries_app w w' : deliveries id (w ++ w') = deliveries id w ++ deliveries id w'.
Proof. apply List.filter_app. Qed.

Lemma deliveries_none w : Forall no_event w → deliveries id w = [].
Proof. induction 1 as [|e w He Hw IH]; [done|]. destruct e; simpl in *; done. Qed.

Lemma once_trans s s' s'' w w' : once s s' w → once s' s'' w' → once s s'' (w ++ w').
Proof.
  intros [Hh1 Hd1] [Hh2 Hd2]. unfold once. rewrite deliveries_app. split.
  - intros Hh. destruct (Hh1 Hh) as [Hh' ->]. by destruct (Hh2 Hh') as [? ->].
  - destruct Hd1 as [->|[Hl Hh]]; [done|]. destruct (Hh2 Hh) as [? ->].
    rewrite app_nil_r. auto.
Qed.

Lemma Once_bind {A B} (m : PT A) (f : A → PT B) :
  Once m → (∀ a, Once (f a)) → Once (m ≫= f).
Proof.
  intros Hm Hf s b s' w Hr Hx. run_inv. apply Hm in Hrun as [Ec ?]; [|done].
  apply Hf in Hx as [Ec' ?]; [|congruence]. split; [congruence|by eapply once_trans].
Qed.

Lemma Still_Once {A} (m : PT A) : Still m → Once m.
Proof.
  intros Hm s a s' w _ [[Hr Hc] Hw]%Hm. split; [done|]. unfold once, held.
  rewrite Hr, deliveries_none by done. auto.
Qed.

Lemma Once_when b (m : PT ()) : Once m → Once (when b m).
Proof. destruct b; [done|]. intros _. apply Still_Once, Frame_ret, _. Qed.

Context (now : Time) (Hnow : now < bound ≤ now + ret).

Lemma Once_evict : Once (onEvictCacheTimer now).
Proof.
  unfold onEvictCacheTimer. apply Once_bind; [|intros _; apply Still_Once; auto with frame].
  intros s a s' w _ Hx. run_inv. split; [done|]. split; [|by left].
  intros (e & He & Hb). split; [|done]. exists e. split; [|done]. simpl.
  apply map_lookup_filter_Some. split; [done|]. unfold After. simpl. apply Z.gtb_lt. lia.
Qed.

Lemma held_remember i m s a s' w :
  MessageIDRetention (config s) = ret → remember i m now s = Some (a, s', w) →
  config s' = config s ∧ w = [] ∧ (held s → held s') ∧ (i = id → held s').
Proof.
  intros Hr Hx. unfold remember in Hx. run_inv. split_and!; [done..| |].
  - intros (e & He & Hb). unfold held. simpl. destruct (decide (i = id)) as [->|].
    + rewrite lookup_insert_eq. eexists. split; [done|]. unfold Add. lia.
    + rewrite lookup_insert_ne by done. eauto.
  - intros ->. unfold held. simpl. rewrite lookup_insert_eq. eexists. split; [done|].
    unfold Add. lia.
Qed.

Lemma Once_broadcast o c sc : Once (broadcast o c sc now).
Proof.
  assert (∀ i m, Once (remember i m now)) as Hrem.
  { intros i m s a s' w Hr Hx. apply held_remember in Hx as (?&->&?&_); [|done].
    split; [done|]. split; [auto|by left]. }
  unfold broadcast. apply Once_bind; [apply Still_Once, Frame_get, _|]. intros s.
  apply Once_bind; [|intros _; apply Still_Once; auto with frame].
  destruct sc; [|apply Still_Once, Frame_ret, _].
  apply Once_bind; [apply Hrem|intros _; apply Still_Once; auto with frame].
Qed.

(** A fresh swarm message is remembered before it is delivered. *)
Lemma Once_onGossip o p m : Once (onGossip o p m now).
Proof.
  unfold onGossip. destruct (bool_decide (Gossip_ID m = _)) eqn:Hid; simpl;
    [|apply Still_Once, Frame_ret, _]. apply bool_decide_eq_true in Hid.
  intros s a s' w Hr Hx. apply bind_Some in Hx as (s0&s1&w1&w2&(->&->&->)%get_Some&Hx&->).
  case_bool_decide as Hrec.
  { apply (Still_Once (addLazy p;; emit (PlumtreeSendMessage p PlumtreePrune))) in Hx;
      auto with frame. }
  destruct (Gossip_Scope m) as [r|] eqn:Hsc.
  - apply bind_Some in Hx as (u&s2&w3&w4&Hbody&Hev&->).
    apply bind_Some in Hbody as (u'&s3&w5&w6&Hrm&Hrest&->).
    apply held_remember in Hrm as (Ec3&->&Hh3&Hid3); [|done].
    assert (received s2 = received s3 ∧ config s2 = config s3 ∧ Forall no_event w6) as (Er&Ec&Hw).
    { frame_run still no_event Hrest. unfold still in Hrest. naive_solver. }
    apply emit_Some in Hev as [-> ->]. split; [congruence|]. unfold once, held. rewrite Er. simpl.
    rewrite deliveries_app, (deliveries_none w6) by done. simpl.
    unfold cloneBytes. simpl. rewrite <-Hid. case_bool_decide as Hi; simpl.
    + split; [|right; split; [done|by apply Hid3]].
      intros (e&He&_). rewrite Hi in Hrec. destruct Hrec. eauto.
    + split; [|by left]. intros Hh. split; [by apply Hh3|done].
  - run_inv. split; [done|]. split; [done|by left].
Qed.

Lemma Once_Handle o ev : Once (Handle o ev now).
Proof.
  unfold Handle. apply Once_bind; [apply Still_Once, Frame_get, _|]. intros s.
  apply Once_bind.
  { apply Once_when, Once_bind; [apply Still_Once; auto with frame|intros _; apply Once_evict]. }
  intros _. unfold dispatch, handleMessage.
  destruct ev as [p msg|c sc|[]|p|p]; try (apply Still_Once; by auto with frame).
  - apply Once_bind; [apply Still_Once; auto with frame|]. intros _.
    destruct msg; [apply Once_onGossip|apply Still_Once; auto with frame..].
  - apply Once_broadcast.
  - apply Once_evict.
Qed.
End once.

Section runs.
Context `{!Blake3}.

Lemma Keeps_run evs : Keeps (pt_run evs).
Proof. apply Keeps_for_each. intros [[o ev] now]. apply Keeps_Handle. Qed.

Lemma Once_run id ret bound evs :
  Forall (λ '(_, _, now), now < bound ≤ now + ret) evs → Once id ret bound (pt_run evs).
Proof.
  unfold pt_run. induction 1 as [|[[o ev] now] evs Hnow _ IH]; simpl.
  - apply Still_Once, Frame_ret, _.
  - apply Once_bind; [by apply Once_Handle|done].
Qed.

(** C18: From a fresh state, whatever events arrive in whatever order of map
    iteration, the broadcast machine does not panic, no peer is both eager and
    lazy, the counters of announced messages agree with the table they count,
    and the table, its per-peer share and the graft timers stay within their
    limits. *)
Theorem plumtree_run_invariant (p : PeerID) (cfg : PlumtreeConfig)
    (evs : list (MapRange * PlumtreeInEvent * Time)) :
  ∃ s w, pt_run evs (NewPlumtreeState p cfg) = Some ((), s, w) ∧
    eager s ## lazy s ∧
    ntargets s = msum len (missing s) ∧
    (∀ q, nmissing_of s q = msum (occ q) (missing s)) ∧
    (∀ q, nmissing_of s q ≤ maxMissingPerPeer) ∧
    ntargets s ≤ maxMissing ∧
    Z.of_nat (size (graftTimerScheduled s)) ≤ maxMissing.
Proof.
  destruct (wp_run _ _ _ (Keeps_run evs _ (pt_inv_New p cfg)))
    as ([] & s & w & Hr & [[] [Ht Hp _ ? ?]] & _).
  exists s, w. split_and!; try done.
  - rewrite Ht, len_nil. lia.
  - intros q. rewrite Hp, occ_nil. lia.
Qed.

(** C7: Within one retention window a swarm message is delivered to the
    application at most once, whoever sends it, however often, and whatever
    else happens in between. *)
Theorem at_most_once_delivery (id : MessageID) (s : PlumtreeState) (t0 : Time)
    (evs : list (MapRange * PlumtreeInEvent * Time))
    (Hi : pt_inv s)
    (Hnow : Forall (λ '(_, _, now), t0 ≤ now < t0 + MessageIDRetention (config s)) evs) :
  ∃ s' w, pt_run evs s = Some ((), s', w) ∧ len (deliveries id w) ≤ 1.
Proof.
  destruct (wp_run _ _ _ (Keeps_run evs _ Hi)) as ([] & s' & w & Hr & _).
  exists s', w. split; [done|].
  apply (Once_run id (MessageIDRetention (config s)) (t0 + MessageIDRetention (config s)))
    in Hr as [_ [_ Hd]]; [|eapply Forall_impl; [done|]; intros [[??]?]; lia|done].
  destruct Hd as [->|[-> _]]; [by rewrite len_nil|done].
Qed.
End runs.

Lemma at_most_once_delivery_witness :
  let m := MkGossip [7] [7] (DeliveryScopeSwarm 3) in
  let evs := [(elements_order, PlumtreeRecvMessage [1] (PlumtreeGossip m), 5);
              (elements_order, PlumtreeRecvMessage [2] (PlumtreeGossip m), 6)] in
  ∃ s' w, @pt_run identity_digest evs (NewPlumtreeState [0] zeroPlumtreeConfig)
    = Some ((), s', w) ∧ len (@deliveries identity_digest [7] w) ≤ 1.
Proof.
  intros m evs. apply (@at_most_once_delivery identity_digest [7] _ 5).
  - apply pt_inv_New.
  - repeat constructor; vm_compute; done.
Defined.

(** ** Forwarding *)

(** Application events among the outputs. *)
Definition event_out (e : PlumtreeOutEvent) : option PlumtreeEvent :=
  match e with PlumtreeEmitEvent ev => Some ev | _ => None end.

(** Neither a payload nor an application event. *)
Definition control_only (e : PlumtreeOutEvent) : Prop :=
  payload_out e = None ∧ event_out e = None.

Lemma control_only_out w :
  Forall control_only w → omap payload_out w = [] ∧ omap event_out w = [].
Proof.
  induction 1 as [|e w [Hp He] _ [IH1 IH2]]; [done|]. csimpl. by rewrite Hp, He.
Qed.

(** The state the switch of [Handle] starts from, and the outputs before it. *)
Definition prepared (now : Time) (s : PlumtreeState) : PlumtreeState :=
  if init s then s
  else set_store (filter (λ kv, After kv.2 now = true) (received s))
         (filter (λ kv, After (cg_expire kv.2) now = true) (cache s)) (set_init true s).
Definition preface (s : PlumtreeState) : list PlumtreeOutEvent :=
  if init s then []
  else [PlumtreeScheduleTimer (CacheEvictInterval (config s)) PlumtreeTimerEvictCache].

Lemma preface_control s : Forall control_only (preface s).
Proof. unfold preface. destruct (init s); by repeat constructor. Qed.

Lemma Handle_wp `{!Blake3} o ev now Q s :
  wp (dispatch o ev now) (λ a s' w, Q a s' (preface s ++ w)) (prepared now s) →
  wp (Handle o ev now) Q s.
Proof.
  intros Hd. unfold Handle. do 2 wp_step. apply wp_bind. unfold prepared, preface in Hd.
  destruct (init s); simpl.
  - by apply wp_ret.
  - unfold onEvictCacheTimer. repeat wp_step. done.
Qed.

(** Fields of the prepared state. *)
Lemma prepared_fields now s :
  eager (prepared now s) = eager s ∧ lazy (prepared now s) = lazy s ∧
  me (prepared now s) = me s ∧ config (prepared now s) = config s ∧
  lazyQueue (prepared now s) = lazyQueue s ∧ missing (prepared now s) = missing s ∧
  maxPayloadSize (prepared now s) = maxPayloadSize s.
Proof. unfold prepared. by destruct (init s). Qed.

Lemma prepared_received now s id :
  received s !! id = None → received (prepared now s) !! id = None.
Proof.
  unfold prepared. destruct (init s); [done|]. intros Hid. simpl.
  apply map_lookup_filter_None. by left.
Qed.

Lemma pushed_to_perm (o : MapRange) (X : gset PeerID) p q :
  List.filter (λ x, negb (bool_decide (x = p) || bool_decide (x = q))) (o X)
  ≡ₚ elements (X ∖ {[p; q]}).
Proof.
  apply NoDup_Permutation; [|apply NoDup_elements|].
  - apply NoDup_ListNoDup, List.NoDup_filter, NoDup_ListNoDup. rewrite range_keys_perm.
    apply NoDup_elements.
  - intros x. rewrite list_elem_of_In, List.filter_In, <-list_elem_of_In, range_keys_perm.
    rewrite !elem_of_elements, negb_true_iff, orb_false_iff, !bool_decide_eq_false. set_solver.
Qed.

Lemma eagerPush_spec o m p s :
  wp (eagerPush o m p) (λ _ s' w, s' = s ∧ omap event_out w = [] ∧
    omap payload_out w ≡ₚ (λ q, (q, m)) <$> elements (eager s ∖ {[me s; p]})) s.
Proof.
  cut (wp (eagerPush o m p) (λ _ s' w, s' = s ∧ omap event_out w = [] ∧
    omap payload_out w = (λ q, (q, m)) <$> List.filter
      (λ x, negb (bool_decide (x = me s) || bool_decide (x = p))) (o (eager s))) s).
  { intros Hp. eapply wp_mono; [exact Hp|]; cbv beta. intros _ s' w (?&?&->).
    by rewrite pushed_to_perm. }
  unfold eagerPush. do 2 wp_step.
  generalize (o (eager s)) as l. induction l as [|x l IH]; simpl; [by apply wp_ret|].
  apply wp_bind. destruct (_ || _) eqn:E; simpl; wp_step;
    (eapply wp_mono; [apply IH|]); cbv beta; intros _ s' w (->&He&Hp); csimpl.
  - done.
  - split_and!; [done..|]. f_equal. exact Hp.
Qed.

(** Announcing to the lazy peers queues one [IHave] for each of them. *)
Lemma queue_all l ih sender s :
  NoDup l →
  wp (for_each l (λ peer,
        if bool_decide (peer = sender) then mret ()
        else modify (λ s, set_lazyQueue
               (<[peer := default [] (lazyQueue s !! peer) ++ [ih]]> (lazyQueue s)) s)) : PT ())
    (λ _ s' w, w = [] ∧ ∃ q', s' = set_lazyQueue q' s ∧ ∀ q, q' !! q =
      if decide (q ∈ l ∧ q ≠ sender) then Some (default [] (lazyQueue s !! q) ++ [ih])
      else lazyQueue s !! q) s.
Proof.
  revert s. induction l as [|x l IH]; intros s Hl; simpl.
  - apply wp_ret. split; [done|]. exists (lazyQueue s). split; [by destruct s|].
    done.
  - apply NoDup_cons in Hl as [Hx Hl]. apply wp_bind.
    case_bool_decide as Es; wp_step; (eapply wp_mono; [by apply IH|]); cbv beta;
      intros _ s' w (->&q'&->&Hq); (split; [done|]); exists q'; (split; [done|]);
      intros q; rewrite Hq; simpl.
    + repeat case_decide; set_solver.
    + destruct (decide (q = x)) as [->|Hne];
        rewrite ?lookup_insert_eq, ?lookup_insert_ne by done; repeat case_decide; set_solver.
Qed.

Definition announced (q' q0 : gmap PeerID (list IHave)) (X : gset PeerID) (sender : PeerID)
    (ih : IHave) : Prop :=
  ∀ q, q' !! q = if decide (q ∈ X ∧ q ≠ sender) then Some (default [] (q0 !! q) ++ [ih])
                 else q0 !! q.

Lemma lazyPush_spec o i c r sender s :
  wp (lazyPush o (MkGossip i c (DeliveryScopeSwarm r)) sender) (λ _ s' w,
    Forall control_only w ∧ announced (lazyQueue s') (lazyQueue s) (lazy s) sender (MkIHave i r) ∧
    received s' = received s ∧ missing s' = missing s ∧ config s' = config s) s.
Proof.
  unfold lazyPush. simpl. do 2 wp_step. apply wp_bind.
  assert (NoDup (o (lazy s))) as Hnd by (rewrite range_keys_perm; apply NoDup_elements).
  eapply wp_mono; [apply (queue_all _ (MkIHave i r)), Hnd|]; cbv beta.
  intros _ s1 w1 (->&q'&->&Hq).
  assert (announced q' (lazyQueue s) (lazy s) sender (MkIHave i r)) as Ha.
  { intros q. rewrite Hq, (decide_ext _ (q ∈ lazy s ∧ q ≠ sender)); [done|].
    by rewrite range_keys_perm, elem_of_elements. }
  apply wp_when; intros _; [do 2 wp_step; apply wp_modify|]; split_and!; try done;
    by repeat constructor.
Qed.

(** After the pushes: the announcers are forgotten and the tree optimised. *)
Definition settle_still (s s' : PlumtreeState) : Prop :=
  lazyQueue s' = lazyQueue s ∧ received s' = received s.
#[global] Instance settle_still_PreOrder : PreOrder settle_still.
Proof. split; [done|]. intros ??? [??] [??]. split; congruence. Qed.

Section forwarding.
Context `{!Blake3}.

Definition settle (sender : PeerID) (forward : Gossip) (round : Round) : PT () :=
  modify (λ s, set_graftTimerScheduled (graftTimerScheduled s ∖ {[Gossip_ID forward]}) s);;
  s ← get;
  let previous := targets_of s (Gossip_ID forward) in
  modify (λ s, set_missing (delete (Gossip_ID forward) (missing s)) s);;
  for_each previous (λ target, forgetMissing (gt_peer target));;
  optimizeTree sender forward previous;;
  modify (λ s, if round >? MaxLastDeliveryHop (stats s)
    then set_stats (MkPlumtreeStats (PayloadMessagesReceived (stats s))
           (ControlMessagesReceived (stats s)) round) s
    else s).

Lemma Frame_settle p f r : Frame settle_still control_only (settle p f r).
Proof. unfold settle, forgetMissing, optimizeTree, addEager, addLazy. auto 40 with frame. Qed.

(** The fresh swarm branch of [onGossip]. *)
Lemma onGossip_fresh o p i c r now s :
  i = MessageIDFromContent c → received s !! i = None →
  onGossip o p (MkGossip i c (DeliveryScopeSwarm r)) now s =
  (let forward := MkGossip i c (DeliveryScopeSwarm (u16 (r + 1))) in
   (remember i forward now;; eagerPush o forward p;; lazyPush o forward p;;
    settle p forward r);;
   emit (PlumtreeEmitEvent (PlumtreeReceived c p (DeliveryScopeSwarm r)))) s.
Proof.
  intros -> Hr. unfold onGossip. simpl. rewrite bool_decide_eq_true_2 by done. simpl.
  rewrite get_bind, bool_decide_eq_false_2 by (rewrite Hr; by intros [? ?]). done.
Qed.

Lemma Keeps_settle p f r : Keeps (settle p f r).
Proof.
  unfold settle. apply Keeps_bind; [auto with pt|]. intros _.
  refine (Keeps_take (Gossip_ID f) (λ l, optimizeTree p f l;; modify _) _). intros l.
  apply Keeps_bind; [auto with pt|]. intros _. apply Keeps_modify.
  intros s0 [[] []]. case_match; by repeat constructor.
Qed.

Lemma onGossip_fresh_spec o p i c r now s :
  pt_inv s → i = MessageIDFromContent c → received s !! i = None →
  let forward := MkGossip i c (DeliveryScopeSwarm (u16 (r + 1))) in
  wp (onGossip o p (MkGossip i c (DeliveryScopeSwarm r)) now) (λ _ s' w,
    omap payload_out w ≡ₚ (λ q, (q, forward)) <$> elements (eager s ∖ {[me s; p]}) ∧
    announced (lazyQueue s') (lazyQueue s) (lazy s) p (MkIHave i (u16 (r + 1))) ∧
    omap event_out w = [PlumtreeReceived c p (DeliveryScopeSwarm r)] ∧
    received s' !! i = Some (Add now (MessageIDRetention (config s)))) s.
Proof.
  intros Hi Hid Hr forward. unfold wp at 1. rewrite onGossip_fresh by done.
  lazymatch goal with |- match ?m s with _ => _ end => change (wp m
    (λ _ s' w, omap payload_out w ≡ₚ (λ q, (q, forward)) <$> elements (eager s ∖ {[me s; p]}) ∧
      announced (lazyQueue s') (lazyQueue s) (lazy s) p (MkIHave i (u16 (r + 1))) ∧
      omap event_out w = [PlumtreeReceived c p (DeliveryScopeSwarm r)] ∧
      received s' !! i = Some (Add now (MessageIDRetention (config s)))) s) end.
  cbv zeta. fold forward. unfold remember. do 4 wp_step.
  set (s1 := set_store _ _ s). assert (pt_inv s1) as Hi1 by (destruct Hi as [[] []]; by split; constructor).
  eapply wp_mono; [apply eagerPush_spec|]; cbv beta. intros _ s2 w2 (->&He2&Hp2).
  apply wp_bind. eapply wp_mono; [apply wp_and; [by apply Keeps_lazyPush|apply lazyPush_spec]|]; cbv beta.
  intros _ s3 w3 ([Hi3 _]&(Hw3&Hq3&Hr3&_)). apply control_only_out in Hw3 as [Hp3 He3].
  eapply wp_mono; [eapply (wp_frame settle_still control_only); [by apply Keeps_settle|apply Frame_settle]|];
    cbv beta. intros _ s4 w4 (_&[Hq4 Hr4]&Hw4). apply control_only_out in Hw4 as [Hp4 He4].
  wp_step. rewrite !omap_app, Hp2, He2, Hp3, He3, Hp4, He4. csimpl. rewrite Hq4, Hr4, Hr3.
  split_and!; [by rewrite !app_nil_r|done|done|]. subst s1. simpl. by rewrite lookup_insert_eq.
Qed.

(** C32: A swarm message seen for the first time is pushed in full to exactly
    the eager peers other than this node and the sender, one round further,
    queued as an announcement for exactly the lazy peers other than the sender,
    delivered once to the application, and remembered for the retention time. *)
Theorem fresh_gossip_is_forwarded (o : MapRange) (s : PlumtreeState) (sender : PeerID)
    (content : bytes) (round : Round) (now : Time)
    (Hi : pt_inv s) (Hr : received s !! MessageIDFromContent content = None) :
  let id := MessageIDFromContent content in
  let forward := MkGossip id content (DeliveryScopeSwarm (u16 (round + 1))) in
  ∃ s' w,
    Handle o (PlumtreeRecvMessage sender
      (PlumtreeGossip (MkGossip id content (DeliveryScopeSwarm round)))) now s = Some ((), s', w) ∧
    omap payload_out w ≡ₚ (λ q, (q, forward)) <$> elements (eager s ∖ {[me s; sender]}) ∧
    (∀ q, lazyQueue s' !! q =
       if decide (q ∈ lazy s ∧ q ≠ sender)
       then Some (default [] (lazyQueue s !! q) ++ [MkIHave id (u16 (round + 1))])
       else lazyQueue s !! q) ∧
    omap event_out w = [PlumtreeReceived content sender (DeliveryScopeSwarm round)] ∧
    received s' !! id = Some (Add now (MessageIDRetention (config s))).
Proof.
  intros id forward.
  lazymatch goal with |- ∃ s' w, ?h = _ ∧ @?Q s' w => cut (wp (Handle o (PlumtreeRecvMessage sender
    (PlumtreeGossip (MkGossip id content (DeliveryScopeSwarm round)))) now) (λ _ s' w, Q s' w) s) end;
    cbv beta.
  { intros ([] & s' & w & ? & ?)%wp_run. eauto. }
  apply Handle_wp. destruct (prepared_fields now s) as (Ee&El&Em&Ec&Eq&_).
  pose proof (prepared_received now s _ Hr) as Hr'.
  assert (pt_inv (prepared now s)) as Hi'.
  { unfold prepared. destruct (init s); [done|]. destruct Hi as [[] []]; by split; constructor. }
  unfold dispatch, handleMessage. do 2 wp_step.
  set (s1 := set_stats _ _). assert (pt_inv s1) by (destruct Hi' as [[] []]; by split; constructor).
  eapply wp_mono; [by apply (onGossip_fresh_spec o sender id content round now s1)|]; cbv beta zeta.
  intros _ s' w (Hp&Hq&He&Hrv). destruct (control_only_out _ (preface_control s)) as [Hp0 He0].
  rewrite !omap_app, Hp0, He0. subst s1. simpl in *. rewrite Ee, Em in Hp. rewrite Ec in Hrv.
  split_and!; try done. intros q. specialize (Hq q). simpl in Hq. by rewrite El, Eq in Hq.
Qed.
End forwarding.

Lemma fresh_gossip_is_forwarded_witness :
  let s := set_peers {[ [1]; [2] ]} {[ [3] ]} (NewPlumtreeState [0] zeroPlumtreeConfig) in
  ∃ s' w,
    @Handle identity_digest elements_order (PlumtreeRecvMessage [1]
      (PlumtreeGossip (MkGossip [7] [7] (DeliveryScopeSwarm 3)))) 5 s = Some ((), s', w) ∧
    omap event_out w = [PlumtreeReceived [7] [1] (DeliveryScopeSwarm 3)].
Proof.
  intros s.
  assert (pt_inv s) as Hi.
  { destruct (pt_inv_New [0] zeroPlumtreeConfig) as [[] []]. split; constructor; try done.
    subst s. simpl. set_solver. }
  destruct (@fresh_gossip_is_forwarded identity_digest elements_order s [1] [7] 3 5 Hi eq_refl)
    as (s' & w & Hh & _ & _ & He & _). exists s', w. by split.
Defined.
