(* ===== verification/PlumtreeLazy.v ===== *)
(** * PlumTree: announcements and grafts

    The lazy half of the protocol: queued announcements leave in chunks that
    fit a frame, and a missing message is asked of each announcer in turn. *)

From S2P Require Import Prelude GoMonad GossipTypes Postcard PostcardFacts GossipWire.
From S2P Require Import GossipWireFacts Plumtree PlumtreeFacts PlumtreeProps.

(** An announcement of at most [c] messages, not empty. *)
Definition ihave_chunk (c : Z) (e : PlumtreeOutEvent) : Prop :=
  match e with
  | PlumtreeSendMessage _ (PlumtreeIHave l) => l ≠ [] ∧ len l ≤ c
  | PlumtreeSendMessage _ _ => False
  | _ => True
  end.

(** Graft timers of [id] expiring one after the other. *)
Definition graft_timers (o : MapRange) (id : MessageID) (times : list Time) :
    list (MapRange * PlumtreeInEvent * Time) :=
  (λ t, (o, PlumtreeTimerExpired (PlumtreeTimerSendGraft id), t)) <$> times.

(** ** Dispatch *)

Lemma dispatchChunkLen_pos s : 1 ≤ dispatchChunkLen s.
Proof. unfold dispatchChunkLen. destruct (Z.ltb_spec (Z.quot (maxPayloadSize s - 3) iHavePostcardMaxSize) 1); lia. Qed.

Lemma dispatch_loop_spec fuel c p l s :
  1 ≤ c → (length l ≤ fuel)%nat →
  wp (dispatch_loop fuel c p l) (λ _ s' w, s' = s ∧ Forall (ihave_chunk c) w ∧
    ∀ q, concat (omap (ihave_out q) w) = if decide (p = q) then l else []) s.
Proof.
  intros Hc. revert l. induction fuel as [|fuel IH]; intros l Hf; simpl.
  { destruct l; [|simpl in Hf; lia]. apply wp_ret. split_and!; [done..|]. intros q. by case_decide. }
  destruct (Z.gtb_spec (len l) 0) as [Hl|Hl].
  2:{ assert (l = []) as -> by (apply len_0_nil; pose proof (len_nonneg l); lia).
      apply wp_ret. split_and!; [done..|]. intros q. by case_decide. }
  set (n := Z.to_nat (Z.min c (len l))).
  assert (0 < n ≤ length l)%nat as Hn by (unfold n, len in *; lia).
  do 2 wp_step. eapply wp_mono; [apply IH|]; cbv beta; [rewrite length_drop; lia|].
  intros _ s' w (->&Hw&Hq). split_and!; [done| |].
  - constructor; [|done]. simpl. assert (length (take n l) = n) as E by (rewrite length_take; lia).
    split; [intros E0; rewrite E0 in E; simpl in E; lia|]. unfold len. rewrite E. unfold n, len. lia.
  - intros q. csimpl. specialize (Hq q). case_decide; csimpl; rewrite Hq; [apply take_drop|done].
Qed.

(** The loop over the queues, of which [q0] is the snapshot it reads. *)
Lemma dispatch_all_spec c (q0 : gmap PeerID (list IHave)) l s :
  1 ≤ c → NoDup l →
  wp (for_each l (λ peer,
        let ihaves := default [] (q0 !! peer) in
        dispatch_loop (length ihaves) c peer ihaves;;
        modify (λ s, set_lazyQueue (delete peer (lazyQueue s)) s)) : PT ())
    (λ _ s' w, (∃ q', s' = set_lazyQueue q' s ∧
        ∀ q, q' !! q = if decide (q ∈ l) then None else lazyQueue s !! q) ∧
      Forall (ihave_chunk c) w ∧
      ∀ q, concat (omap (ihave_out q) w) =
        if decide (q ∈ l) then default [] (q0 !! q) else []) s.
Proof.
  intros Hc. revert s. induction l as [|x l IH]; intros s Hl; simpl.
  { apply wp_ret. split_and!; [|done..]. exists (lazyQueue s). by destruct s. }
  apply NoDup_cons in Hl as [Hx Hl]. apply wp_bind, wp_bind.
  eapply wp_mono; [apply dispatch_loop_spec; lia|]; cbv beta. intros _ s1 w1 (->&Hw1&Hq1).
  wp_step. eapply wp_mono; [by apply IH|]; cbv beta.
  intros _ s2 w2 ((q'&->&Hq')&Hw2&Hq2). rewrite app_nil_r. split_and!.
  - exists q'. split; [done|]. intros q. rewrite Hq'. simpl. destruct (decide (q = x)) as [->|].
    + rewrite lookup_delete_eq. repeat case_decide; set_solver.
    + rewrite lookup_delete_ne by done. repeat case_decide; set_solver.
  - by apply Forall_app.
  - intros q. rewrite omap_app, concat_app, Hq1, Hq2.
    destruct (decide (x = q)) as [->|].
    + rewrite (decide_False (P := q ∈ l)) by done.
      rewrite (decide_True (P := q ∈ q :: l)) by set_solver. apply app_nil_r.
    + repeat case_decide; set_solver.
Qed.

Lemma onDispatchTimer_spec o s :
  wp (onDispatchTimer o) (λ _ s' w, lazyQueue s' = ∅ ∧ dispatchTimerScheduled s' = false ∧
    Forall (ihave_chunk (dispatchChunkLen s)) w ∧
    ∀ q, concat (omap (ihave_out q) w) = default [] (lazyQueue s !! q)) s.
Proof.
  unfold onDispatchTimer. do 2 wp_step. apply wp_bind.
  eapply wp_mono; [apply dispatch_all_spec; [apply dispatchChunkLen_pos|]|]; cbv beta.
  { rewrite range_keys_perm. apply NoDup_elements. }
  intros _ s1 w1 ((q'&->&Hq')&Hw&Hq). wp_step. rewrite !app_nil_r.
  assert (∀ q, q ∈ o (dom (lazyQueue s)) ↔ is_Some (lazyQueue s !! q)) as Hdom.
  { intros q. by rewrite range_keys_perm, elem_of_elements, elem_of_dom. }
  split_and!; [|done|done|].
  - simpl. apply map_empty. intros q. rewrite Hq'. case_decide as Hd; [done|].
    rewrite Hdom in Hd. by apply eq_None_not_Some.
  - intros q. rewrite app_nil_l, Hq. case_decide as Hd; [done|]. rewrite Hdom in Hd.
    apply eq_None_not_Some in Hd. by rewrite Hd.
Qed.

(** ** Announcements on the wire *)

Lemma enc_ihaves l e :
  Forall wf_IHave l →
  ∃ bs, enc_all IHave_codec l e = Ok (e ++ bs) ∧ len bs ≤ iHavePostcardMaxSize * len l.
Proof.
  intros Hl. revert e. induction Hl as [|[i r] l [[_ Hi] Hr] _ IH]; intros e; simpl.
  { exists []. by rewrite app_nil_r. }
  unfold wf_u16 in Hr. simpl in *. unfold Encoder_Uint.
  rewrite appendVarint_eq by lia. rewrite <-app_assoc.
  destruct (IH (e ++ i ++ varint r)) as (bs & Hbs & Hlen). rewrite Hbs.
  exists ((i ++ varint r) ++ bs). split; [by rewrite !app_assoc|].
  assert (len (varint r) ≤ 3) by (apply (varint_len_le 3); simpl; lia).
  unfold iHavePostcardMaxSize in *. rewrite !len_app, len_cons. lia.
Qed.

Lemma ihave_frame_fits l s maxSize (w : bytes) :
  Forall wf_IHave l → len l ≤ dispatchChunkLen s →
  maxPayloadSize s = MaxPayloadSize maxSize → NormalizeMaxMessageSize maxSize ≤ 2 ^ 63 →
  ∃ w', WriteFrame buffer_Write TopicMessage_codec w
          (TopicMessageGossip (PlumtreeIHave l)) maxSize = Ok w'.
Proof.
  intros Hl Hc Hm Hmax. rewrite MaxPayloadSize_eq in Hm.
  pose proof (NormalizeMaxMessageSize_min maxSize). pose proof (len_nonneg l).
  assert (iHavePostcardMaxSize * len l ≤ NormalizeMaxMessageSize maxSize - 40) as Hb.
  { unfold dispatchChunkLen, iHavePostcardMaxSize in *. change (32 + 3) with 35 in *. rewrite Hm, Z.quot_div_nonneg in Hc by lia.
    pose proof (Z.mul_div_le (NormalizeMaxMessageSize maxSize - 37 - 3) 35 ltac:(lia)).
    assert (1 ≤ (NormalizeMaxMessageSize maxSize - 37 - 3) / 35) by (apply Z.div_le_lower_bound; lia).
    destruct (Z.ltb_spec ((NormalizeMaxMessageSize maxSize - 37 - 3) / 35) 1); lia. }
  unfold iHavePostcardMaxSize in Hb.
  unfold WriteFrame, Marshal. simpl. unfold Encoder_Uint. rewrite wrapU_small by lia.
  rewrite !appendVarint_eq by lia.
  destruct (enc_ihaves l (((varint 1) ++ varint 3) ++ varint (len l)) Hl) as (bs & Hbs & Hlen).
  unfold iHavePostcardMaxSize in Hlen. rewrite app_nil_l, Hbs.
  assert (len (varint (len l)) ≤ 10) by (apply (varint_len_le 10); simpl; lia).
  match goal with |- context [?a >=? ?b] => destruct (Z.geb_spec a b) as [Hge|] end.
  - exfalso. rewrite !len_app in Hge. change (len (varint 1)) with 1 in Hge.
    change (len (varint 3)) with 1 in Hge. lia.
  - unfold buffer_Write. eauto.
Qed.

Section lazy_props.
Context `{!Blake3}.

Lemma dispatch_timer_wp o now s :
  wp (Handle o (PlumtreeTimerExpired PlumtreeTimerDispatchLazyPush) now) (λ _ s' w,
    lazyQueue s' = ∅ ∧ dispatchTimerScheduled s' = false ∧
    Forall (ihave_chunk (dispatchChunkLen s)) w ∧
    ∀ q, concat (omap (ihave_out q) w) = default [] (lazyQueue s !! q)) s.
Proof.
  apply Handle_wp. destruct (prepared_fields now s) as (_&_&_&_&Eq&_&Ep).
  eapply wp_mono; [apply onDispatchTimer_spec|]; cbv beta. rewrite Eq.
  unfold dispatchChunkLen at 1. rewrite Ep. fold (dispatchChunkLen s).
  intros _ s' w (?&?&Hw&Hq). split_and!; [done..| |].
  - apply Forall_app. split; [|done]. unfold preface. destruct (init s); by repeat constructor.
  - intros q. rewrite omap_app, concat_app, Hq. unfold preface. by destruct (init s).
Qed.

(** When the dispatch timer expires, every queued announcement is sent:
    the messages to a peer, in order, carry exactly the peer's queue, none is
    empty or longer than the chunk length, and nothing else is sent. *)
Theorem queued_announcements_are_sent (o : MapRange) (now : Time) (s : PlumtreeState) :
  ∃ s' w,
    Handle o (PlumtreeTimerExpired PlumtreeTimerDispatchLazyPush) now s = Some ((), s', w) ∧
    lazyQueue s' = ∅ ∧ dispatchTimerScheduled s' = false ∧
    Forall (ihave_chunk (dispatchChunkLen s)) w ∧
    ∀ q, concat (omap (ihave_out q) w) = default [] (lazyQueue s !! q).
Proof. destruct (wp_run _ _ _ (dispatch_timer_wp o now s)) as ([] & s' & w & ? & ?). eauto. Qed.

(** Every announcement dispatched by a machine whose payload budget is the
    one computed from the message size limit is written by [WriteFrame]: the
    chunk length leaves room for the frame. *)
Theorem dispatched_announcements_fit_frame (o : MapRange) (now : Time) (s : PlumtreeState)
    (maxSize : Z) (stream : bytes)
    (Hm : maxPayloadSize s = MaxPayloadSize maxSize)
    (Hmax : NormalizeMaxMessageSize maxSize ≤ 2 ^ 63)
    (Hq : map_Forall (λ _ l, Forall wf_IHave l) (lazyQueue s)) :
  ∃ s' w,
    Handle o (PlumtreeTimerExpired PlumtreeTimerDispatchLazyPush) now s = Some ((), s', w) ∧
    ∀ p m, PlumtreeSendMessage p m ∈ w →
      ∃ stream', WriteFrame buffer_Write TopicMessage_codec stream (TopicMessageGossip m) maxSize
                 = Ok stream'.
Proof.
  destruct (wp_run _ _ _ (dispatch_timer_wp o now s)) as ([] & s' & w & Hr & _ & _ & Hw & Hc).
  exists s', w. split; [done|]. intros p m Hin.
  rewrite Forall_forall in Hw. specialize (Hw _ Hin). destruct m as [| | |l]; try done.
  destruct Hw as [_ Hlen]. apply (ihave_frame_fits l s); [|done..].
  apply Forall_forall. intros x Hx.
  assert (x ∈ default [] (lazyQueue s !! p)) as Hx'.
  { rewrite <-Hc. apply list_elem_of_In, List.in_concat. exists l. rewrite <-!list_elem_of_In. split; [|done].
    apply list_elem_of_omap. exists (PlumtreeSendMessage p (PlumtreeIHave l)).
    split; [done|]. simpl. by rewrite decide_True. }
  destruct (lazyQueue s !! p) as [k|] eqn:E; [|by apply elem_of_nil in Hx'].
  apply Hq in E. rewrite Forall_forall in E. by apply E.
Qed.
End lazy_props.

Lemma dispatched_announcements_fit_frame_witness :
  let s := set_lazyQueue {[ [1] := [MkIHave (replicate 32 7) 2] ]}
             (NewPlumtreeState [0] zeroPlumtreeConfig) in
  ∃ s' w,
    @Handle identity_digest elements_order
      (PlumtreeTimerExpired PlumtreeTimerDispatchLazyPush) 5 s = Some ((), s', w) ∧
    ∀ p m, PlumtreeSendMessage p m ∈ w →
      ∃ stream', WriteFrame buffer_Write TopicMessage_codec [] (TopicMessageGossip m) 4096
                 = Ok stream'.
Proof.
  intros s. apply (@dispatched_announcements_fit_frame identity_digest elements_order 5 s).
  - vm_compute. reflexivity.
  - vm_compute. discriminate.
  - apply map_Forall_singleton. constructor; [|constructor]. split; [|split; simpl; lia].
    split; [apply Forall_replicate; unfold is_byte; lia|reflexivity].
Defined.

(** ** Grafts *)

(** What [onSendGraftTimer] does while the message is missing. *)
Lemma onSendGraftTimer_spec id t rest s :
  received s !! id = None → targets_of s id = t :: rest →
  wp (onSendGraftTimer id) (λ _ s' w,
    received s' = received s ∧ targets_of s' id = rest ∧
    eager s' = {[gt_peer t]} ∪ eager s ∧
    omap graft_out w = [(gt_peer t, MkGraft (Some id) (gt_round t))]) s.
Proof.
  intros Hr Ht. unfold onSendGraftTimer, forgetMissing, addEager. do 4 wp_step.
  rewrite bool_decide_eq_false_2 by (simpl; rewrite Hr; by intros [? ?]).
  unfold targets_of at 1. simpl. fold (targets_of s id). rewrite Ht. repeat wp_step.
  unfold targets_of. simpl. case_match; simpl; destruct rest;
    rewrite ?lookup_delete_eq, ?lookup_insert_eq; done.
Qed.

Section grafts.
Context `{!Blake3}.

Lemma graft_timer_wp o id now t rest s :
  received s !! id = None → targets_of s id = t :: rest →
  wp (Handle o (PlumtreeTimerExpired (PlumtreeTimerSendGraft id)) now) (λ _ s' w,
    received s' !! id = None ∧ targets_of s' id = rest ∧
    eager s' = {[gt_peer t]} ∪ eager s ∧
    omap graft_out w = [(gt_peer t, MkGraft (Some id) (gt_round t))]) s.
Proof.
  intros Hr Ht. apply Handle_wp. destruct (prepared_fields now s) as (Ee&_&_&_&_&Em&_).
  pose proof (prepared_received now s id Hr) as Hr'.
  eapply wp_mono; [apply (onSendGraftTimer_spec id t rest); [done|]|]; cbv beta.
  { unfold targets_of. by rewrite Em. }
  intros _ s' w (->&?&->&Hw). rewrite omap_app, Hw, Ee. split_and!; [done..|].
  unfold preface. by destruct (init s).
Qed.

Lemma graft_timers_wp o id times s :
  received s !! id = None → length times = length (targets_of s id) →
  wp (pt_run (graft_timers o id times)) (λ _ s' w,
    omap graft_out w =
      (λ t, (gt_peer t, MkGraft (Some id) (gt_round t))) <$> targets_of s id ∧
    targets_of s' id = [] ∧ eager s' = list_to_set (gt_peer <$> targets_of s id) ∪ eager s) s.
Proof.
  revert s. induction times as [|now times IH]; intros s Hr Hn;
    destruct (targets_of s id) as [|t rest] eqn:Ht; try done; csimpl in *.
  { apply wp_ret. split_and!; [done..|]. set_solver. }
  apply wp_bind. eapply wp_mono; [by apply (graft_timer_wp o id now t rest)|]; cbv beta.
  intros _ s1 w1 (Hr1&Ht1&He1&Hw1).
  eapply wp_mono; [apply IH; [done|rewrite Ht1; lia]|]; cbv beta.
  intros _ s2 w2 (Hw2&Ht2&He2). rewrite omap_app, Hw1, Hw2, Ht1.
  split_and!; [done..|]. rewrite He2, He1, Ht1. simpl. set_solver.
Qed.

(** As long as an announced message does not arrive, each expiry of its
    graft timer asks the next announcer, in the order of the announcements;
    after as many expiries as there were announcers every one of them has been
    asked exactly once and made an eager peer. *)
Theorem announcers_are_asked_in_turn (o : MapRange) (id : MessageID) (times : list Time)
    (s : PlumtreeState)
    (Hr : received s !! id = None) (Hn : length times = length (targets_of s id)) :
  ∃ s' w, pt_run (graft_timers o id times) s = Some ((), s', w) ∧
    omap graft_out w =
      (λ t, (gt_peer t, MkGraft (Some id) (gt_round t))) <$> targets_of s id ∧
    targets_of s' id = [] ∧ eager s' = list_to_set (gt_peer <$> targets_of s id) ∪ eager s.
Proof.
  destruct (wp_run _ _ _ (graft_timers_wp o id times s Hr Hn)) as ([] & s' & w & ? & ?). eauto.
Qed.
End grafts.

Lemma announcers_are_asked_in_turn_witness :
  let s := set_missing {[ [7] := [MkGraftTarget [1] 3; MkGraftTarget [2] 5] ]}
             (NewPlumtreeState [0] zeroPlumtreeConfig) in
  ∃ s' w, @pt_run identity_digest (graft_timers elements_order [7] [5; 6]) s = Some ((), s', w) ∧
    omap graft_out w = [([1], MkGraft (Some [7]) 3); ([2], MkGraft (Some [7]) 5)].
Proof.
  intros s.
  destruct (@announcers_are_asked_in_turn identity_digest elements_order [7] [5; 6] s)
    as (s' & w & Hr & Hw & _); [reflexivity|reflexivity|]. exists s', w. by split.
Defined.
