(* ===== verification/GossipTopic.v ===== *)
(** * One topic: internal/gossipproto/topic.go

    [TopicState] runs a HyParView and a PlumTree machine side by side: outputs
    of the first are translated, and its neighbor events are fed to the second
    as they are translated. *)

From S2P Require Import Prelude GoMonad GoRand GossipTypes Hyparview Plumtree.

(** ** Configuration, inputs, outputs *)

Record TopicConfig := MkTopicConfig {
  Membership : HyparviewConfig;
  Broadcast : PlumtreeConfig;
}.

#[global] Instance TopicConfig_eq_dec : EqDecision TopicConfig.
Proof. solve_decision. Defined.

Definition zeroTopicConfig : TopicConfig :=
  MkTopicConfig zeroHyparviewConfig zeroPlumtreeConfig.

Definition DefaultTopicConfig : TopicConfig := {|
  Membership := DefaultHyparviewConfig;
  Broadcast := DefaultPlumtreeConfig;
|}.

Inductive TopicCommand :=
  | TopicCommandJoin (Peers : list PeerID)
  | TopicCommandBroadcast (Content : bytes) (scope : Scope)
  | TopicCommandQuit.

Inductive TopicTimer :=
  | TopicTimerHyparview (t : HyparviewTimer)
  | TopicTimerPlumtree (t : PlumtreeTimer).

(** An input; the time [Now] of the Go struct is a separate argument of [Handle]. *)
Inductive TopicInEvent :=
  | TopicRecvMessage (From : PeerID) (Message : TopicMessage)
  | TopicCommandEvent (Command : TopicCommand)
  | TopicTimerExpired (Timer : TopicTimer)
  | TopicPeerDisconnected (Peer : PeerID)
  | TopicUpdatePeerData (Data : PeerData).

Inductive TopicEvent :=
  | TopicNeighborUp (Peer : PeerID)
  | TopicNeighborDown (Peer : PeerID)
  | TopicReceived (Content : bytes) (DeliveredFrom : PeerID) (scope : DeliveryScope).

Inductive TopicOutEvent :=
  | TopicSendMessage (To : PeerID) (Message : TopicMessage)
  | TopicEmitEvent (Event : TopicEvent)
  | TopicScheduleTimer (After : Duration) (Timer : TopicTimer)
  | TopicDisconnectPeer (To : PeerID)
  | TopicPeerData (To : PeerID) (Data : option PeerData).

Record TopicStats := MkTopicStats { MessagesSent : Z; MessagesReceived : Z }.

Record TopicState := MkTopicState {
  me : PeerID;
  swarm : HyparviewState;
  gossip : PlumtreeState;
  stats : TopicStats;
}.

Definition set_swarm h s :=
  {| me := me s; swarm := h; gossip := gossip s; stats := stats s |}.
Definition set_gossip g s :=
  {| me := me s; swarm := swarm s; gossip := g; stats := stats s |}.
Definition set_stats t s :=
  {| me := me s; swarm := swarm s; gossip := gossip s; stats := t |}.

Notation TM := (GoM TopicState TopicOutEvent).

(** ** Construction *)

Definition NewTopicStateWithRand (me : PeerID) (data : option PeerData) (config : TopicConfig)
    (r : option Rand) (nanos : Z) : TopicState :=
  let config := if decide (config = zeroTopicConfig) then DefaultTopicConfig else config in
  {| me := me;
     swarm := NewHyparviewStateWithRand me data (Membership config) r nanos;
     gossip := NewPlumtreeState me (Broadcast config);
     stats := MkTopicStats 0 0 |}.

Definition NewTopicState (me : PeerID) (data : option PeerData) (config : TopicConfig)
    (nanos : Z) : TopicState :=
  NewTopicStateWithRand me data config None nanos.

Definition Stats (s : TopicState) : TopicStats := stats s.
Definition HasActivePeers (s : TopicState) : bool := len (ActivePeers (swarm s)) >? 0.

(** ** Translating outputs *)

Definition plumtreeOut (ev : PlumtreeOutEvent) : TopicOutEvent :=
  match ev with
  | PlumtreeSendMessage to m => TopicSendMessage to (TopicMessageGossip m)
  | PlumtreeScheduleTimer after t => TopicScheduleTimer after (TopicTimerPlumtree t)
  | PlumtreeEmitEvent (PlumtreeReceived content from scope) =>
      TopicEmitEvent (TopicReceived (cloneBytes content) from scope)
  end.

Definition fromPlumtree (events : list PlumtreeOutEvent) : TM () :=
  for_each events (λ ev, emit (plumtreeOut ev)).

Section topic.
Context `{!RandSource} `{!Blake3}.

(** [s.fromPlumtree(s.gossip.Handle(ev))] *)
Definition gossipHandle (order : MapRange) (ev : PlumtreeInEvent) (now : Time) : TM () := λ s,
  match Plumtree.Handle order ev now (gossip s) with
  | None => None
  | Some (_, g, events) => fromPlumtree events (set_gossip g s)
  end.

Definition fromHyparviewEvent (order : MapRange) (ev : HyparviewOutEvent) : TM () :=
  match ev with
  | HyparviewSendMessage to m => emit (TopicSendMessage to (TopicMessageSwarm m))
  | HyparviewScheduleTimer after t => emit (TopicScheduleTimer after (TopicTimerHyparview t))
  | HyparviewDisconnectPeer to => emit (TopicDisconnectPeer to)
  | HyparviewEmitEvent (HyparviewNeighborUp peer) =>
      emit (TopicEmitEvent (TopicNeighborUp peer));;
      gossipHandle order (PlumtreeNeighborUp peer) zeroTime
  | HyparviewEmitEvent (HyparviewNeighborDown peer) =>
      emit (TopicEmitEvent (TopicNeighborDown peer));;
      gossipHandle order (PlumtreeNeighborDown peer) zeroTime
  | HyparviewPeerData to data => emit (TopicPeerData to (clonePeerDataPtr data))
  end.

Definition fromHyparview (order : MapRange) (events : list HyparviewOutEvent) : TM () :=
  for_each events (fromHyparviewEvent order).

(** [s.fromHyparview(s.swarm.Handle(ev))] *)
Definition swarmHandle (order : MapRange) (ev : HyparviewInEvent) : TM () := λ s,
  match Hyparview.Handle ev (swarm s) with
  | None => None
  | Some (_, h, events) => fromHyparview order events (set_swarm h s)
  end.

(** ** The handler *)

Definition dispatch (order : MapRange) (ev : TopicInEvent) (now : Time) : TM () :=
  match ev with
  | TopicCommandEvent (TopicCommandJoin peers) =>
      for_each peers (λ peer, swarmHandle order (HyparviewRequestJoin peer))
  | TopicCommandEvent (TopicCommandBroadcast content scope) =>
      gossipHandle order (PlumtreeBroadcast content scope) now
  | TopicCommandEvent TopicCommandQuit => swarmHandle order HyparviewQuit
  | TopicRecvMessage from message =>
      modify (λ s, set_stats (MkTopicStats (MessagesSent (stats s))
                                (i64 (MessagesReceived (stats s) + 1))) s);;
      match message with
      | TopicMessageSwarm m => swarmHandle order (HyparviewRecvMessage from m)
      | TopicMessageGossip m => gossipHandle order (PlumtreeRecvMessage from m) now
      end
  | TopicTimerExpired (TopicTimerHyparview t) => swarmHandle order (HyparviewTimerExpired t)
  | TopicTimerExpired (TopicTimerPlumtree t) =>
      gossipHandle order (PlumtreeTimerExpired t) now
  | TopicPeerDisconnected peer =>
      swarmHandle order (HyparviewPeerDisconnected peer);;
      gossipHandle order (PlumtreeNeighborDown peer) now
  | TopicUpdatePeerData data =>
      swarmHandle order (HyparviewUpdatePeerData (Some (clonePeerData data)))
  end.

Definition isSend (ev : TopicOutEvent) : bool :=
  match ev with TopicSendMessage _ _ => true | _ => false end.

(** The loop over [out] that counts the messages sent. *)
Definition countSent (out : list TopicOutEvent) (s : TopicState) : TopicState :=
  foldl (λ s ev, if isSend ev
                 then set_stats (MkTopicStats (i64 (MessagesSent (stats s) + 1))
                                   (MessagesReceived (stats s))) s
                 else s) s out.

Definition Handle (order : MapRange) (ev : TopicInEvent) (now : Time) : TM () := λ s,
  match dispatch order ev now s with
  | None => None
  | Some (_, s, out) => Some ((), countSent out s, out)
  end.
End topic.
