(* ===== verification/GossipTopicFacts.v ===== *)
(** * One topic: the two machines stay in step

    Every neighbor of the membership machine is an eager or lazy peer of the
    broadcast machine, along every run. *)

From S2P Require Import Prelude GoMonad GoRand GossipTypes Hyparview HyparviewFacts Plumtree.
From S2P Require Import PlumtreeFacts GossipTopic.

(** The peers the broadcast machine pushes or announces to. *)
Definition known (g : PlumtreeState) : gset PeerID := eager g ∪ lazy g.

Record topic_inv (s : TopicState) : Prop := {
  ti_swarm : hv_inv (swarm s);
  ti_config : wf_config (Hyparview.config (swarm s));
  ti_me : Hyparview.me (swarm s) = Plumtree.me (gossip s);
  ti_gossip : pt_inv (gossip s);
  ti_known : ∀ p, p ∈ active (swarm s) → p ∈ known (gossip s);
}.

Definition TopicKeeps {A} (m : TM A) : Prop :=
  ∀ s, topic_inv s → wp m (λ _ s' _, topic_inv s') s.

(** A run: one order for map iteration, one event and one time per step. *)
Definition topic_run `{!RandSource} `{!Blake3}
    (evs : list (MapRange * TopicInEvent * Time)) : TM () :=
  for_each evs (λ '(o, ev, now), Handle o ev now).

(** ** What PlumTree forgets *)

Definition grows (g g' : PlumtreeState) : Prop := known g ⊆ known g'.
#[global] Instance grows_PreOrder : PreOrder grows.
Proof. split; unfold Reflexive, Transitive, grows; intros; [done|by etrans]. Qed.

Notation Grows := (Frame grows (λ _ : PlumtreeOutEvent, True)).

Lemma Grows_addEager p : Grows (addEager p).
Proof. apply Frame_modify. intros g q. unfold known. simpl. destruct (decide (q = p)); set_solver. Qed.
Lemma Grows_addLazy p : Grows (addLazy p).
Proof. apply Frame_modify. intros g q. unfold known. simpl. destruct (decide (q = p)); set_solver. Qed.
#[export] Hint Resolve Grows_addEager Grows_addLazy : frame.
#[export] Hint Extern 5 (Grows (modify _)) =>
  apply Frame_modify; intros ?; repeat case_match; unfold grows, known; simpl; reflexivity : frame.

Lemma Grows_forgetMissing p : Grows (forgetMissing p).
Proof. unfold forgetMissing. auto with frame. Qed.
Lemma Grows_dispatch_loop n c p l : Grows (dispatch_loop n c p l).
Proof. revert l. induction n; intros l; simpl; auto 10 with frame. Qed.
Lemma Grows_onEvictCacheTimer now : Grows (onEvictCacheTimer now).
Proof. unfold onEvictCacheTimer. auto 10 with frame. Qed.
#[export] Hint Resolve Grows_forgetMissing Grows_dispatch_loop Grows_onEvictCacheTimer : frame.

Section topic.
Context `{!RandSource} `{!Blake3}.

Lemma Grows_Handle o ev now :
  (∀ p, ev ≠ PlumtreeNeighborDown p) → Grows (Plumtree.Handle o ev now).
Proof.
  intros Hev. assert (Grows (Plumtree.dispatch o ev now)) as Hd.
  { unfold Plumtree.dispatch, Plumtree.handleMessage, onGossip, onIHave, onGraft, broadcast,
      remember, eagerPush, lazyPush, optimizeTree, onDispatchTimer, onSendGraftTimer.
    destruct ev as [p []|? []|[]|p|p]; [auto 40 with frame..|naive_solver]. }
  unfold Plumtree.Handle. auto 10 with frame.
Qed.

Lemma NeighborUp_known o p now g a g' w :
  Plumtree.Handle o (PlumtreeNeighborUp p) now g = Some (a, g', w) → p ∈ known g'.
Proof.
  unfold Plumtree.Handle. intros Hr. apply bind_Some in Hr as (?&?&?&?&_&Hr&_).
  apply bind_Some in Hr as (?&?&?&?&_&Hr&_). simpl in Hr. unfold addEager in Hr. run_inv.
  unfold known. simpl. set_solver.
Qed.

Lemma NeighborDown_known o p now g a g' w q :
  Plumtree.Handle o (PlumtreeNeighborDown p) now g = Some (a, g', w) →
  q ≠ p → q ∈ known g → q ∈ known g'.
Proof.
  unfold Plumtree.Handle. intros Hr Hne Hq. apply bind_Some in Hr as (?&?&?&?&Hg&Hr&_).
  apply get_Some in Hg as (->&->&_). apply bind_Some in Hr as (?&g1&?&?&He&Hr&_).
  assert (Grows (when (negb (init g)) (modify (set_init true);; onEvictCacheTimer now))) as Hf
    by auto 10 with frame.
  apply Hf in He as [He _]. simpl in Hr. unfold onNeighborDown in Hr. run_inv.
  apply He in Hq. unfold known in *. simpl. set_solver.
Qed.

(** ** The topic's own steps *)

(** [fromPlumtree] only emits. *)
Lemma fromPlumtree_wp events (s : TopicState) :
  wp (fromPlumtree events) (λ _ s' w, s' = s ∧ w = plumtreeOut <$> events) s.
Proof.
  unfold fromPlumtree. induction events as [|e events IH]; simpl; [by apply wp_ret|].
  do 2 wp_step. eapply wp_mono; [apply IH|]; cbv beta. intros _ s' w [-> ->]. done.
Qed.

Lemma gossipHandle_wp o ev now s :
  pt_inv (gossip s) →
  wp (gossipHandle o ev now) (λ _ s' w, ∃ g events,
    Plumtree.Handle o ev now (gossip s) = Some ((), g, events) ∧ pt_inv g ∧
    Plumtree.me g = Plumtree.me (gossip s) ∧ s' = set_gossip g s ∧ w = plumtreeOut <$> events) s.
Proof.
  intros Hi. destruct (wp_run _ _ _ (Keeps_Handle o ev now _ Hi)) as ([] & g & events & Hr & Hg & Hm & _).
  unfold wp at 1, gossipHandle. rewrite Hr.
  pose proof (fromPlumtree_wp events (set_gossip g s)) as Hp. unfold wp in Hp.
  destruct (fromPlumtree events (set_gossip g s)) as [[[[] s'] w]|]; [|done].
  destruct Hp as [-> ->]. eauto 10.
Qed.

(** Translating HyParView's outputs keeps every peer they leave active known. *)
Lemma fromHyparview_wp o events l s :
  pt_inv (gossip s) → (∀ p, p ∈ l → p ∈ known (gossip s)) →
  wp (fromHyparview o events) (λ _ s' _, swarm s' = swarm s ∧ pt_inv (gossip s') ∧
    Plumtree.me (gossip s') = Plumtree.me (gossip s) ∧ ∀ p, p ∈ track events l → p ∈ known (gossip s')) s.
Proof.
  unfold fromHyparview. revert l s. induction events as [|e events IH]; intros l s Hi Hl; simpl.
  { by apply wp_ret. }
  apply wp_bind.
  apply (wp_mono _ (λ _ s1 _, swarm s1 = swarm s ∧ pt_inv (gossip s1) ∧
    Plumtree.me (gossip s1) = Plumtree.me (gossip s) ∧ ∀ p, p ∈ track_event l e → p ∈ known (gossip s1))).
  - destruct e as [| | |[p|p]|]; simpl; try by apply wp_emit.
    + do 2 wp_step. eapply wp_mono; [by apply gossipHandle_wp|]; cbv beta.
      intros _ s1 w1 (g&events'&Hr&Hg&Em&->&_). split_and!; [done..|]. simpl.
      intros q [Hq| ->%list_elem_of_singleton]%elem_of_app; [|by eapply NeighborUp_known].
      apply Grows_Handle in Hr as [Hr _]; [|done]. by apply Hr, Hl.
    + do 2 wp_step. eapply wp_mono; [by apply gossipHandle_wp|]; cbv beta.
      intros _ s1 w1 (g&events'&Hr&Hg&Em&->&_). split_and!; [done..|]. simpl.
      intros q [Hne Hq]%list_elem_of_filter. eapply NeighborDown_known; [done..|]. by apply Hl.
  - cbv beta. intros _ s1 w1 (Es&Hi1&Em&Hl1). eapply wp_mono; [by apply (IH (track_event l e))|];
      cbv beta. intros _ s2 w2 (?&?&?&?). split_and!; [congruence|done|congruence|done].
Qed.

(** Quitting only removes neighbors, without announcing it. *)
Definition leaves (h h' : HyparviewState) : Prop := ∀ p, p ∈ active h' → p ∈ active h.
#[local] Instance leaves_PreOrder : PreOrder leaves.
Proof. split; [by intros ??|]. intros h1 h2 h3 H12 H23 p Hp. by apply H12, H23. Qed.

Lemma Quiet_leaves {A} (m : HV A) : Quiet m → Frame leaves silent m.
Proof.
  intros Hm h a h' w Hr. destruct (run_wp _ _ _ _ _ _ (Hm h) Hr) as (_&Ha&_&Hw).
  split; [|done]. intros p. by rewrite Ha.
Qed.

Lemma quit_leaves : Frame leaves silent (Hyparview.Handle HyparviewQuit).
Proof.
  unfold Hyparview.Handle. simpl. apply (Frame_bind leaves silent).
  - unfold handleQuit. apply (Frame_bind leaves silent); [apply (Frame_get leaves silent)|]. intros h0. apply (Frame_for_each leaves silent).
    intros q. apply (Frame_bind leaves silent); [|intros _; apply Quiet_leaves, Quiet_sendDisconnect].
    apply (Frame_modify leaves silent). intros h p. simpl. rewrite peerList_remove_fst.
    apply elem_of_remove_first.
  - intros _. apply Quiet_leaves, Quiet_bind; [apply Quiet_get|]. intros h.
    apply Quiet_bind; [|intros _; apply Quiet_forgetStrangers].
    apply Quiet_when, Quiet_bind; [by apply Quiet_emit|intros _; by apply Quiet_modify].
Qed.

Lemma swarmHandle_wp o ev s :
  topic_inv s →
  wp (swarmHandle o ev) (λ _ s' _, topic_inv s' ∧
    ∃ events, Hyparview.Handle ev (swarm s) = Some ((), swarm s', events)) s.
Proof.
  intros [Hs Hc Hm Hg Hk].
  destruct (wp_run _ _ _ (Safe_Handle ev _ Hs Hc)) as ([] & h & events & Hr & Hh & [Eh Ec]).
  unfold wp at 1, swarmHandle. rewrite Hr.
  assert (∀ p, p ∈ active h → p ∈ track events (active (swarm s))) as Ht.
  { assert (ev = HyparviewQuit ∨ ev ≠ HyparviewQuit) as [->|Hq] by (destruct ev; auto).
    - apply quit_leaves in Hr as [Hl Hw]. by rewrite track_silent.
    - pose proof (run_wp _ _ _ _ _ _ (Tracks_Handle ev Hq _ Hs Hc) Hr) as (_&_&->). done. }
  pose proof (fromHyparview_wp o events (active (swarm s)) (set_swarm h s) Hg Hk) as Hf.
  unfold wp in Hf. destruct (fromHyparview o events (set_swarm h s)) as [[[[] s'] w]|]; [|done].
  destruct Hf as (Es&Hg'&Em&Hk'). simpl in Es, Em. rewrite Es. split; [|eauto].
  constructor; rewrite ?Es, ?Ec; auto. congruence.
Qed.

(** A closed connection leaves the active view. *)
Lemma disconnected_not_active p h :
  hv_inv h → wf_config (Hyparview.config h) →
  wp (Hyparview.Handle (HyparviewPeerDisconnected p)) (λ _ h' _, p ∉ active h') h.
Proof.
  intros Hi Hc. unfold Hyparview.Handle. apply wp_bind.
  apply (wp_mono _ (λ _ h1 _, p ∉ active h1)).
  - unfold Hyparview.dispatch, handleConnectionClosed, drop_pending. do 4 wp_step.
    set (h1 := set_pendingNeighbor _ h). assert (hv_inv h1) as Hi1 by (destruct Hi; by constructor).
    destruct (peerList_contains (active h1) p) eqn:Hp.
    + eapply wp_mono; [by apply removeActive_spec|]; cbv beta.
      intros _ h2 w (_&_&->&_). apply not_elem_of_remove_first. by destruct Hi1.
    + apply contains_false in Hp. unfold passive_remove, drop_peerData. case_match; repeat wp_step; done.
  - cbv beta. intros _ h1 w1 Hp. eapply wp_mono.
    { apply Quiet_bind; [apply Quiet_get|]. intros h2.
      apply Quiet_bind; [|intros _; apply Quiet_forgetStrangers].
      apply Quiet_when, Quiet_bind; [by apply Quiet_emit|intros _; by apply Quiet_modify]. }
    cbv beta. intros _ h2 w2 (_&->&_). done.
Qed.

Lemma TopicKeeps_bind {A B} (m : TM A) (f : A → TM B) :
  TopicKeeps m → (∀ a, TopicKeeps (f a)) → TopicKeeps (m ≫= f).
Proof.
  intros Hm Hf s Hi. apply wp_bind. eapply wp_mono; [by apply Hm|]; cbv beta.
  intros a s' w Hi'. eapply wp_mono; [by apply Hf|]; cbv beta. auto.
Qed.
Lemma TopicKeeps_for_each {A} (l : list A) (f : A → TM ()) :
  (∀ x, TopicKeeps (f x)) → TopicKeeps (for_each l f).
Proof. intros Hf. induction l; simpl; [intros s Hi; by apply wp_ret|by apply TopicKeeps_bind]. Qed.

Lemma TopicKeeps_swarm o ev : TopicKeeps (swarmHandle o ev).
Proof. intros s Hi. eapply wp_mono; [by apply swarmHandle_wp|]; cbv beta. naive_solver. Qed.

(** The broadcast machine keeps every neighbor, unless told one is down. *)
Lemma gossipHandle_keeps o ev now s :
  topic_inv s → (∀ p, ev = PlumtreeNeighborDown p → p ∉ active (swarm s)) →
  wp (gossipHandle o ev now) (λ _ s' _, topic_inv s') s.
Proof.
  intros [Hs Hc Hm Hg Hk] Hev. eapply wp_mono; [by apply gossipHandle_wp|]; cbv beta.
  intros _ s1 w1 (g&events&Hr&Hg'&Em&->&_). constructor; simpl; try done; [congruence|]. intros q Hq.
  assert ((∃ p, ev = PlumtreeNeighborDown p) ∨ ∀ p, ev ≠ PlumtreeNeighborDown p) as [[p ->]|Hn]
    by (destruct ev; eauto).
  - eapply NeighborDown_known; [done| |by apply Hk]. intros ->. by apply (Hev p).
  - apply Grows_Handle in Hr as [Hr _]; [|done]. by apply Hr, Hk.
Qed.

Lemma TopicKeeps_gossip o ev now :
  (∀ p, ev ≠ PlumtreeNeighborDown p) → TopicKeeps (gossipHandle o ev now).
Proof. intros Hev s Hi. apply gossipHandle_keeps; [done|]. intros p ->. naive_solver. Qed.

Lemma TopicKeeps_dispatch o ev now : TopicKeeps (dispatch o ev now).
Proof.
  destruct ev as [p m|[peers|c sc|]|[t|t]|p|d]; simpl;
    try solve [apply TopicKeeps_swarm|by apply TopicKeeps_gossip].
  - apply TopicKeeps_bind.
    + intros s []. apply wp_modify. by constructor.
    + intros _. destruct m; [apply TopicKeeps_swarm|by apply TopicKeeps_gossip].
  - apply TopicKeeps_for_each. intros q. apply TopicKeeps_swarm.
  - intros s Hi. apply wp_bind. eapply wp_mono; [by apply swarmHandle_wp|]; cbv beta.
    intros _ s1 w1 [Hi1 [events Hr]]. apply gossipHandle_keeps; [done|]. intros q [= <-].
    destruct Hi. by apply (run_wp _ _ _ _ _ _ (disconnected_not_active p _ ti_swarm0 ti_config0) Hr).
Qed.

Lemma countSent_fields out s :
  swarm (countSent out s) = swarm s ∧ gossip (countSent out s) = gossip s.
Proof.
  unfold countSent. revert s. induction out as [|e out IH]; intros s; simpl; [done|].
  destruct (isSend e); [|done]. by destruct (IH (set_stats
    (MkTopicStats (i64 (MessagesSent (stats s) + 1)) (MessagesReceived (stats s))) s)) as [-> ->].
Qed.

Lemma TopicKeeps_Handle o ev now : TopicKeeps (Handle o ev now).
Proof.
  intros s Hi. pose proof (TopicKeeps_dispatch o ev now s Hi) as Hd. unfold wp, Handle in *.
  destruct (dispatch o ev now s) as [[[u s1] w]|]; [|done].
  destruct (countSent_fields w s1) as [Es Eg]. destruct Hd. by constructor; rewrite ?Es, ?Eg.
Qed.
End topic.

Lemma topic_inv_New p data cfg r nanos :
  wf_config (Membership cfg) → topic_inv (NewTopicStateWithRand p data cfg r nanos).
Proof.
  intros Hc. constructor.
  - apply hv_inv_New.
  - apply wf_config_New. by case_decide.
  - done.
  - apply pt_inv_New.
  - intros q ?%elem_of_nil. done.
Qed.
