(* ===== verification/GossipTopicProps.v ===== *)
(** * One topic: what the composition promises *)

From S2P Require Import Prelude GoMonad GoRand GossipTypes Hyparview HyparviewFacts.
From S2P Require Import HyparviewProps Plumtree PlumtreeFacts PlumtreeProps GossipTopic.
From S2P Require Import GossipTopicFacts.

Section topic.
Context `{!RandSource} `{!Blake3}.

(** A swarm broadcast pushes to the eager peers and queues for the lazy ones. *)
Lemma broadcast_swarm_spec o c now g :
  let id := MessageIDFromContent c in
  wp (broadcast o c ScopeSwarm now) (λ _ g' w,
    omap payload_out w ≡ₚ (λ q, (q, MkGossip id c (DeliveryScopeSwarm 0))) <$>
      elements (eager g ∖ {[Plumtree.me g; Plumtree.me g]}) ∧
    announced (lazyQueue g') (lazyQueue g) (lazy g) (Plumtree.me g) (MkIHave id 0)) g.
Proof.
  intros id. unfold broadcast, remember. do 5 wp_step. simpl.
  set (g1 := Plumtree.set_store _ _ g).
  eapply wp_mono; [apply wp_frame with (R := λ a b : PlumtreeState, eager b = eager a ∧
    Plumtree.me b = Plumtree.me a) (P := λ _, True); [apply (lazyPush_spec o id c 0 (Plumtree.me g) g1)|]|].
  { unfold lazyPush. simpl.
    assert (PreOrder (λ a b : PlumtreeState, eager b = eager a ∧ Plumtree.me b = Plumtree.me a))
      by (split; [by intros ?|intros ??? [??] [??]; split; congruence]).
    auto 10 with frame. }
  cbv beta. intros _ g2 w2 ((Hw2&Hq&_)&[Ee Em]&_). apply control_only_out in Hw2 as [Hp2 _].
  eapply wp_mono; [apply eagerPush_spec|]; cbv beta. intros _ g3 w3 (->&_&Hp3).
  rewrite !omap_app, Hp2, Hp3, Ee, Em. split; [by csimpl|done].
Qed.

(** C13: From a fresh topic, whatever events arrive, nothing panics and the two
    machines agree: every active neighbor of the membership machine is an eager
    or a lazy peer of the broadcast machine, and none is both. *)
Theorem topic_neighbors_are_broadcast_peers (p : PeerID) data (cfg : TopicConfig) r nanos
    (evs : list (MapRange * TopicInEvent * Time)) (Hc : wf_config (Membership cfg)) :
  ∃ s w, topic_run evs (NewTopicStateWithRand p data cfg r nanos) = Some ((), s, w) ∧
    (∀ q, q ∈ ActivePeers (swarm s) → q ∈ eager (gossip s) ∪ lazy (gossip s)) ∧
    eager (gossip s) ## lazy (gossip s).
Proof.
  assert (TopicKeeps (topic_run evs)) as Hk.
  { apply TopicKeeps_for_each. intros [[o ev] now]. apply TopicKeeps_Handle. }
  destruct (wp_run _ _ _ (Hk _ (topic_inv_New p data cfg r nanos Hc))) as ([] & s & w & Hr & [_ _ _ [[] _] ?]).
  by exists s, w.
Qed.

Lemma payload_sent_out q m (w : list PlumtreeOutEvent) :
  (q, m) ∈ omap payload_out w →
  TopicSendMessage q (TopicMessageGossip (PlumtreeGossip m)) ∈ plumtreeOut <$> w.
Proof.
  rewrite list_elem_of_omap. intros (e & He & Hm). apply list_elem_of_fmap. exists e.
  split; [|done]. by destruct e as [? []| |]; simplify_eq/=.
Qed.

(** C33: A swarm broadcast reaches every active neighbor: each is sent the full
    payload at once, or has the announcement of the message queued as the last
    of its announcements. *)
Theorem broadcast_reaches_every_neighbor (o : MapRange) (s : TopicState) (content : bytes)
    (now : Time) (Hi : topic_inv s) :
  let id := MessageIDFromContent content in
  ∃ s' w,
    Handle o (TopicCommandEvent (TopicCommandBroadcast content ScopeSwarm)) now s
      = Some ((), s', w) ∧
    ∀ q, q ∈ ActivePeers (swarm s) →
      TopicSendMessage q (TopicMessageGossip
        (PlumtreeGossip (MkGossip id content (DeliveryScopeSwarm 0)))) ∈ w ∨
      ∃ l, lazyQueue (gossip s') !! q = Some (l ++ [MkIHave id 0]).
Proof.
  intros id. destruct Hi as [Hs _ Hm Hg Hk].
  destruct (wp_run _ _ _ (gossipHandle_wp o (PlumtreeBroadcast content ScopeSwarm) now s Hg))
    as ([] & s1 & w & Hr & g & events & Hb & _ & _ & -> & ->).
  unfold Handle. simpl. rewrite Hr. eexists _, _. split; [done|].
  destruct (countSent_fields (plumtreeOut <$> events) (set_gossip g s)) as [_ ->]. simpl.
  assert (wp (Plumtree.Handle o (PlumtreeBroadcast content ScopeSwarm) now) (λ _ g' w,
    omap payload_out w ≡ₚ (λ q, (q, MkGossip id content (DeliveryScopeSwarm 0))) <$>
      elements (eager (gossip s) ∖ {[Plumtree.me (gossip s); Plumtree.me (gossip s)]}) ∧
    announced (lazyQueue g') (lazyQueue (gossip s)) (lazy (gossip s)) (Plumtree.me (gossip s))
      (MkIHave id 0)) (gossip s)) as Hw.
  { apply Handle_wp. destruct (prepared_fields now (gossip s)) as (Ee&El&Em&_&Eq&_).
    eapply wp_mono; [apply broadcast_swarm_spec|]; cbv beta zeta. intros _ g' w'.
    rewrite Ee, El, Em, Eq, omap_app. by rewrite (proj1 (control_only_out _ (preface_control _))). }
  destruct (run_wp _ _ _ _ _ _ Hw Hb) as [Hp Hq]. intros q Hin.
  assert (q ≠ Plumtree.me (gossip s)) as Hne.
  { destruct Hs. intros ->. rewrite <-Hm in Hin. done. }
  apply Hk in Hin as [He|Hl]%elem_of_union.
  - left. apply payload_sent_out. rewrite Hp. apply list_elem_of_fmap. exists q.
    split; [done|]. apply elem_of_elements. set_solver.
  - right. specialize (Hq q). rewrite decide_True in Hq by done. eauto.
Qed.
End topic.

(** A fresh topic that peer [[1]] has joined. *)
Definition sample_topic : TopicState :=
  set_swarm (set_active [[1]] (NewHyparviewStateWithRand [0] None zeroHyparviewConfig None 7))
    (set_gossip (set_peers {[ [1] ]} ∅ (NewPlumtreeState [0] zeroPlumtreeConfig))
       (NewTopicStateWithRand [0] None zeroTopicConfig None 7)).

Lemma topic_inv_sample : topic_inv sample_topic.
Proof.
  constructor.
  - constructor; try (intros ? _; apply not_elem_of_nil); by_decision.
  - split; vm_compute; discriminate.
  - reflexivity.
  - by split; constructor.
  - intros p ->%list_elem_of_singleton. unfold known. simpl. set_solver.
Qed.

Lemma topic_neighbors_are_broadcast_peers_witness :
  ∃ s w, @topic_run counting_rand identity_digest
      [(elements_order, TopicRecvMessage [1] (TopicMessageSwarm (HyparviewJoin None)), 5);
       (elements_order, TopicPeerDisconnected [1], 6)]
      (NewTopicStateWithRand [0] None zeroTopicConfig None 7) = Some ((), s, w) ∧
    (∀ q, q ∈ ActivePeers (swarm s) → q ∈ eager (gossip s) ∪ lazy (gossip s)) ∧
    eager (gossip s) ## lazy (gossip s).
Proof.
  apply (@topic_neighbors_are_broadcast_peers counting_rand identity_digest).
  split; vm_compute; discriminate.
Defined.

Lemma broadcast_reaches_every_neighbor_witness :
  ∃ s' w,
    @Handle counting_rand identity_digest elements_order
      (TopicCommandEvent (TopicCommandBroadcast [7] ScopeSwarm)) 5 sample_topic
      = Some ((), s', w) ∧
    ∀ q, q ∈ ActivePeers (swarm sample_topic) →
      TopicSendMessage q (TopicMessageGossip
        (PlumtreeGossip (MkGossip [7] [7] (DeliveryScopeSwarm 0)))) ∈ w ∨
      ∃ l, lazyQueue (gossip s') !! q = Some (l ++ [MkIHave [7] 0]).
Proof.
  exact (@broadcast_reaches_every_neighbor counting_rand identity_digest elements_order
    sample_topic [7] 5 topic_inv_sample).
Defined.
