(* ===== verification/GossipState.v ===== *)
(** * The gossip protocol: internal/gossipproto/state.go

    [State] holds one [TopicState] per joined topic and, per peer, the topics
    for which messages of that peer have been received, which decide when a
    connection is no longer needed.  The [Generation] field of [OutEvent] is
    written by the adapter around this machine and is not part of it. *)

From S2P Require Import Prelude GoMonad GoRand GossipTypes GossipWire Hyparview Plumtree.
From S2P Require Import GossipTopic.

(** ** Configuration, inputs, outputs *)

Record Config := MkConfig { Config_Topic : TopicConfig; Config_MaxMessageSize : Z }.

#[global] Instance Config_eq_dec : EqDecision Config.
Proof. solve_decision. Defined.

Definition zeroConfig : Config := MkConfig zeroTopicConfig 0.
Definition DefaultConfig : Config := MkConfig DefaultTopicConfig DefaultMaxMessageSize.

Record Timer := MkTimer { Timer_Topic : TopicID; Timer_Timer : TopicTimer }.

(** An input; the time [Now] of the Go struct is a separate argument of [Handle]. *)
Inductive InEvent :=
  | RecvMessage (From : PeerID) (m : Message)
  | CommandEvent (Topic : TopicID) (Command : TopicCommand)
  | TimerExpired (t : Timer)
  | PeerDisconnected (Peer : PeerID)
  | UpdatePeerData (Data : PeerData).

Inductive OutEvent :=
  | SendMessage (To : PeerID) (m : Message)
  | EmitEvent (Topic : TopicID) (Event : TopicEvent)
  | ScheduleTimer (Topic : TopicID) (After : Duration) (t : Timer)
  | DisconnectPeer (To : PeerID)
  | PeerDataEvent (Topic : TopicID) (To : PeerID) (Data : option PeerData).

Record State := MkState {
  me : PeerID;
  meData : PeerData;
  config : Config;
  rand : Rand;
  topics : gmap TopicID TopicState;
  peerTopics : gmap PeerID (gset TopicID);
}.

Definition set_meData d s :=
  {| me := me s; meData := d; config := config s; rand := rand s; topics := topics s;
     peerTopics := peerTopics s |}.
Definition set_rand r s :=
  {| me := me s; meData := meData s; config := config s; rand := r; topics := topics s;
     peerTopics := peerTopics s |}.
Definition set_topics t s :=
  {| me := me s; meData := meData s; config := config s; rand := rand s; topics := t;
     peerTopics := peerTopics s |}.
Definition set_peerTopics p s :=
  {| me := me s; meData := meData s; config := config s; rand := rand s; topics := topics s;
     peerTopics := p |}.

Notation SM := (GoM State OutEvent).

(** ** Construction *)

(** The payload budget follows the message size limit. *)
Definition withMaxPayloadSize (c : TopicConfig) (n : Z) : TopicConfig :=
  let b := Broadcast c in
  MkTopicConfig (Membership c)
    {| GraftTimeout1 := GraftTimeout1 b; GraftTimeout2 := GraftTimeout2 b;
       DispatchTimeout := DispatchTimeout b;
       OptimizationThreshold := OptimizationThreshold b;
       MessageCacheRetention := MessageCacheRetention b;
       MessageIDRetention := MessageIDRetention b;
       CacheEvictInterval := CacheEvictInterval b; Config_MaxPayloadSize := n |}.

(** [r = None] is a nil [*rand.Rand]: the state seeds its own with the clock, [nanos]. *)
Definition NewStateWithRand (me : PeerID) (data : PeerData) (config : Config)
    (r : option Rand) (nanos : Z) : State :=
  let config := if decide (config = zeroConfig) then DefaultConfig else config in
  let r := match r with None => NewSource nanos | Some r => r end in
  let size := NormalizeMaxMessageSize (Config_MaxMessageSize config) in
  {| me := me; meData := clonePeerData data;
     config := MkConfig (withMaxPayloadSize (Config_Topic config) (MaxPayloadSize size)) size;
     rand := r; topics := ∅; peerTopics := ∅ |}.

Definition NewState (me : PeerID) (data : PeerData) (config : Config) (nanos : Z) : State :=
  NewStateWithRand me data config None nanos.

(** ** Topics *)

(** bytes.Compare *)
Fixpoint bytes_Compare (a b : bytes) : comparison :=
  match a, b with
  | [], [] => Eq
  | [], _ => Lt
  | _, [] => Gt
  | x :: a, y :: b => match x ?= y with Eq => bytes_Compare a b | c => c end
  end.

Definition bytes_le (a b : bytes) : Prop := bytes_Compare a b ≠ Gt.
#[global] Instance bytes_le_dec : RelDecision bytes_le.
Proof. intros a b. unfold bytes_le. destruct (bytes_Compare a b); [left|left|right]; naive_solver. Defined.

Definition Topics (s : State) : list TopicID := merge_sort bytes_le (elements (dom (topics s))).

Definition HasActivePeers (s : State) (topic : TopicID) : bool :=
  match topics s !! topic with
  | None => false
  | Some st => GossipTopic.HasActivePeers st
  end.

(** ** Outputs *)

(** Whether the peer is no longer used by any topic. *)
Definition dropPeerTopic (peer : PeerID) (topic : TopicID) : SM bool :=
  s ← get;
  let ts := default ∅ (peerTopics s !! peer) in
  if bool_decide (ts = ∅) then mret false
  else
    modify (λ s, set_peerTopics (<[peer := ts ∖ {[topic]}]> (peerTopics s)) s);;
    if negb (bool_decide (ts ∖ {[topic]} = ∅)) then mret false
    else
      modify (λ s, set_peerTopics (delete peer (peerTopics s)) s);;
      mret true.

Definition handleTopicOut (topic : TopicID) (ev : TopicOutEvent) : SM () :=
  match ev with
  | TopicSendMessage to m => emit (SendMessage to (MkMessage topic m))
  | TopicEmitEvent e => emit (EmitEvent topic e)
  | TopicScheduleTimer after t => emit (ScheduleTimer topic after (MkTimer topic t))
  | TopicDisconnectPeer to =>
      last ← dropPeerTopic to topic;
      when last (emit (DisconnectPeer to))
  | TopicPeerData to data => emit (PeerDataEvent topic to (clonePeerDataPtr data))
  end.

(** ** The handler *)

Section state.
Context `{!RandSource} `{!Blake3}.

(** [for _, ev := range st.Handle(ev) { s.handleTopicOut(topic, ev, &out) }] for the
    joined topic [topic], whose state [st] is updated in place. *)
Definition topicHandle (order : MapRange) (topic : TopicID) (st : TopicState)
    (ev : TopicInEvent) (now : Time) : SM () := λ s,
  match GossipTopic.Handle order ev now st with
  | None => None
  | Some (_, st, events) =>
      for_each events (handleTopicOut topic) (set_topics (<[topic := st]> (topics s)) s)
  end.

(** [received] is the sender of a received message, whose topic is noted. *)
Definition handleTopicEvent (order : MapRange) (topic : TopicID) (ev : TopicInEvent)
    (now : Time) (received : option PeerID) : SM () :=
  s ← get;
  match topics s !! topic with
  | None => mret ()
  | Some st =>
      match received with
      | Some from => modify (λ s, set_peerTopics
          (<[from := {[topic]} ∪ default ∅ (peerTopics s !! from)]> (peerTopics s)) s)
      | None => mret ()
      end;;
      topicHandle order topic st ev now
  end.

(** [for _, topic := range s.Topics() { st := s.topics[topic]; ... }] *)
Definition eachTopic (order : MapRange) (ev : TopicInEvent) (now : Time) : SM () :=
  s ← get;
  for_each (Topics s) (λ topic,
    s ← get;
    match topics s !! topic with
    | None => panic
    | Some st => topicHandle order topic st ev now
    end).

(** The topic a Join creates if it is not there. *)
Definition joinTopic (topic : TopicID) : SM () :=
  s ← get;
  match topics s !! topic with
  | Some _ => mret ()
  | None =>
      let '(seed, r) := Int63 (rand s) in
      modify (λ s, set_topics
        (<[topic := NewTopicStateWithRand (me s) (Some (clonePeerData (meData s)))
                      (Config_Topic (config s)) (Some (NewSource seed)) 0]> (topics s))
        (set_rand r s))
  end.

Definition Handle (order : MapRange) (ev : InEvent) (now : Time) : SM () :=
  match ev with
  | RecvMessage from m =>
      handleTopicEvent order (Message_Topic m) (TopicRecvMessage from (Message_Message m)) now
        (Some from)
  | CommandEvent topic command =>
      match command with TopicCommandJoin _ => joinTopic topic | _ => mret () end;;
      handleTopicEvent order topic (TopicCommandEvent command) now None;;
      match command with
      | TopicCommandQuit => modify (λ s, set_topics (delete topic (topics s)) s)
      | _ => mret ()
      end
  | TimerExpired t =>
      handleTopicEvent order (Timer_Topic t) (TopicTimerExpired (Timer_Timer t)) now None
  | PeerDisconnected peer =>
      eachTopic order (TopicPeerDisconnected peer) now;;
      modify (λ s, set_peerTopics (delete peer (peerTopics s)) s)
  | UpdatePeerData data =>
      modify (set_meData (clonePeerData data));;
      s ← get;
      eachTopic order (TopicUpdatePeerData (meData s)) now
  end.
End state.
