(* ===== verification/GossipStateProps.v ===== *)
(** * The gossip protocol: topics share connections, and nothing else

    The invariants of all topics along runs, the isolation of topics from each
    other, and when a connection is given up. *)

From S2P Require Import Prelude GoMonad GoRand GossipTypes GossipWire Hyparview HyparviewFacts.
From S2P Require Import HyparviewProps Plumtree PlumtreeFacts PlumtreeProps GossipTopic.
From S2P Require Import GossipTopicFacts GossipTopicProps GossipState.

Record state_inv (s : State) : Prop := {
  si_topics : map_Forall (λ _ st, topic_inv st) (topics s);
  si_config : wf_config (Membership (Config_Topic (config s)));
}.

(** A run: one order for map iteration, one event and one time per step. *)
Definition state_run `{!RandSource} `{!Blake3}
    (evs : list (MapRange * InEvent * Time)) : SM () :=
  for_each evs (λ '(o, ev, now), Handle o ev now).

(** The topic an event is addressed to, and the topic an output belongs to. *)
Definition event_topic (ev : InEvent) : option TopicID :=
  match ev with
  | RecvMessage _ m => Some (Message_Topic m)
  | CommandEvent t _ => Some t
  | TimerExpired t => Some (Timer_Topic t)
  | PeerDisconnected _ | UpdatePeerData _ => None
  end.
Definition out_of (t : TopicID) (e : OutEvent) : Prop :=
  match e with
  | SendMessage _ m => Message_Topic m = t
  | EmitEvent t' _ | PeerDataEvent t' _ _ => t' = t
  | ScheduleTimer t' _ tm => t' = t ∧ Timer_Topic tm = t
  | DisconnectPeer _ => True
  end.

Definition uses (s : State) (p : PeerID) (t : TopicID) : Prop :=
  t ∈ default ∅ (peerTopics s !! p).

(** Connections given up by [w] are unused at the end, and none is taken up. *)
Definition gives_up (s s' : State) (w : list OutEvent) : Prop :=
  (∀ p, peerTopics s !! p = None → peerTopics s' !! p = None) ∧
  (∀ p, DisconnectPeer p ∈ w → peerTopics s' !! p = None).

(** What belongs to a topic other than [t] is left alone. *)
Definition spares (t : TopicID) (s s' : State) (w : list OutEvent) : Prop :=
  (∀ p t', t' ≠ t → uses s p t' → uses s' p t' ∧ DisconnectPeer p ∉ w) ∧ Forall (out_of t) w.

Definition outs (t : TopicID) (s s' : State) (w : list OutEvent) : Prop :=
  topics s' = topics s ∧ config s' = config s ∧ gives_up s s' w ∧ spares t s s' w.

Lemma gives_up_trans s s' s'' w w' :
  gives_up s s' w → gives_up s' s'' w' → gives_up s s'' (w ++ w').
Proof.
  intros [Hn Hd] [Hn' Hd']. split; [auto|]. intros p [Hp|Hp]%elem_of_app; auto.
Qed.

Lemma spares_trans t s s' s'' w w' :
  spares t s s' w → spares t s' s'' w' → spares t s s'' (w ++ w').
Proof.
  intros [Hu Hw] [Hu' Hw']. split; [|by apply Forall_app]. intros p t' Ht Hp.
  destruct (Hu p t' Ht Hp) as [Hp' ?]. destruct (Hu' p t' Ht Hp') as [? ?].
  split; [done|]. rewrite elem_of_app. naive_solver.
Qed.

Lemma outs_trans t s s' s'' w w' : outs t s s' w → outs t s' s'' w' → outs t s s'' (w ++ w').
Proof.
  intros (?&?&?&?) (?&?&?&?). split_and!;
    [congruence..|by eapply gives_up_trans|by eapply spares_trans].
Qed.

Lemma outs_refl t s w :
  Forall (out_of t) w → (∀ p, DisconnectPeer p ∉ w) → outs t s s w.
Proof.
  intros Hw Hd. split_and!; [done..| |]; split; try done; intros p Hp; by destruct (Hd p).
Qed.

(** ** Handling the outputs of a topic *)

Lemma handleTopicOut_wp t e s : wp (handleTopicOut t e) (λ _ s' w, outs t s s' w) s.
Proof.
  destruct e as [to m|e|after tm|to|to d]; simpl;
    try (apply wp_emit, outs_refl; [by repeat constructor|by intros p ?%list_elem_of_singleton]).
  unfold dropPeerTopic. do 3 wp_step. case_bool_decide as He.
  { wp_step. apply wp_ret, outs_refl; [constructor|intros ? ?%elem_of_nil; done]. }
  set (ts := default ∅ (peerTopics s !! to)) in *.
  assert (is_Some (peerTopics s !! to)) as Hs.
  { subst ts. destruct (peerTopics s !! to); [done|]. by destruct He. }
  destruct (negb (bool_decide (ts ∖ {[t]} = ∅))) eqn:Hts; repeat wp_step; try done; simpl in *.
  - split_and!; [done..| |]; split; simpl.
    + intros p Hp. rewrite lookup_insert_ne; [done|]. intros <-. rewrite Hp in Hs. by destruct Hs.
    + intros p ?%elem_of_nil. done.
    + intros p t' Ht Hu. split; [|apply not_elem_of_nil]. unfold uses in *. simpl.
      destruct (decide (p = to)) as [->|]; [|by rewrite lookup_insert_ne].
      rewrite lookup_insert_eq. simpl. fold ts in Hu. set_solver.
    + constructor.
  - apply negb_false_iff, bool_decide_eq_true in Hts.
    split_and!; [done..| |]; split; simpl.
    + intros p Hp. destruct (decide (p = to)) as [->|]; [apply lookup_delete_eq|].
      by rewrite lookup_delete_ne, lookup_insert_ne.
    + intros p [= ->]%list_elem_of_singleton. apply lookup_delete_eq.
    + intros p t' Ht Hu. assert (p ≠ to) as Hne.
      { intros ->. unfold uses in Hu. fold ts in Hu. set_solver. }
      unfold uses. simpl. rewrite lookup_delete_ne, lookup_insert_ne by done. split; [done|].
      intros [= ->]%list_elem_of_singleton. done.
    + by repeat constructor.
Qed.

Lemma handle_outs_wp t events s :
  wp (for_each events (handleTopicOut t)) (λ _ s' w, outs t s s' w) s.
Proof.
  revert s. induction events as [|e events IH]; intros s; simpl.
  { apply wp_ret, outs_refl; [constructor|intros ? ?%elem_of_nil; done]. }
  apply wp_bind. eapply wp_mono; [apply handleTopicOut_wp|]; cbv beta. intros _ s1 w1 H1.
  eapply wp_mono; [apply IH|]; cbv beta. intros _ s2 w2 H2. by eapply outs_trans.
Qed.

(** ** The steps of the handler *)

Section state.
Context `{!RandSource} `{!Blake3}.

Definition stepped (t : TopicID) (s s' : State) (w : list OutEvent) : Prop :=
  state_inv s' ∧ dom (topics s') = {[t]} ∪ dom (topics s) ∧
  (∀ t', t' ≠ t → topics s' !! t' = topics s !! t') ∧ gives_up s s' w ∧ spares t s s' w.

Lemma topicHandle_wp o t st ev now s :
  state_inv s → topic_inv st → wp (topicHandle o t st ev now) (λ _ s' w, stepped t s s' w) s.
Proof.
  intros [Hs Hc] Hst. unfold wp at 1, topicHandle.
  destruct (wp_run _ _ _ (TopicKeeps_Handle o ev now st Hst)) as ([] & st' & events & -> & Hst').
  pose proof (handle_outs_wp t events (set_topics (<[t := st']> (topics s)) s)) as Hw.
  unfold wp in Hw. destruct (for_each _ _ _) as [[[[] s'] w]|]; [|done].
  destruct Hw as (Et&Ec&Hg&Hsp). simpl in *. split_and!; [|by rewrite Et, dom_insert_L| |done|done].
  - constructor; [|by rewrite Ec]. rewrite Et. by apply map_Forall_insert_2.
  - intros t' Hne. by rewrite Et, lookup_insert_ne.
Qed.

(** Isolation, for an event addressed to [t]. *)
Definition isolated (t : TopicID) (s s' : State) (w : list OutEvent) : Prop :=
  state_inv s' ∧ (∀ t', t' ≠ t → topics s' !! t' = topics s !! t') ∧ spares t s s' w ∧
  (∀ p, DisconnectPeer p ∈ w → peerTopics s' !! p = None).

Lemma spares_refl t s s' : peerTopics s' = peerTopics s → spares t s s' [].
Proof.
  intros E. split; [|done]. intros p t' _. unfold uses. rewrite E.
  intros Hu. split; [done|apply not_elem_of_nil].
Qed.

Lemma isolated_refl t s : state_inv s → isolated t s s [].
Proof. intros Hi. split_and!; [done..|by apply spares_refl|]. intros p ?%elem_of_nil. done. Qed.

Lemma note_spares t from s :
  spares t s (set_peerTopics
    (<[from := {[t]} ∪ default ∅ (peerTopics s !! from)]> (peerTopics s)) s) [].
Proof.
  split; [|done]. intros p t' Ht Hu. split; [|apply not_elem_of_nil]. unfold uses in *. simpl.
  destruct (decide (p = from)) as [->|]; [|by rewrite lookup_insert_ne].
  rewrite lookup_insert_eq. simpl. set_solver.
Qed.

Lemma handleTopicEvent_wp o t ev now from s :
  state_inv s → wp (handleTopicEvent o t ev now from) (λ _ s' w, isolated t s s' w) s.
Proof.
  intros Hi. unfold handleTopicEvent. do 2 wp_step.
  destruct (topics s !! t) as [st|] eqn:Et; [|by apply wp_ret, isolated_refl].
  assert (topic_inv st) as Hst by (destruct Hi as [Hs _]; by apply (Hs t)).
  apply wp_bind.
  apply (wp_mono _ (λ _ s1 w1, w1 = [] ∧ state_inv s1 ∧ topics s1 = topics s ∧ spares t s s1 [])).
  { destruct from as [from|].
    - apply wp_modify. split_and!; [done| |done|apply note_spares]. destruct Hi. by constructor.
    - apply wp_ret. split_and!; try done. by apply spares_refl. }
  cbv beta. intros _ s1 w1 (->&Hi1&Et1&Hsp1).
  eapply wp_mono; [by apply topicHandle_wp|]; cbv beta. intros _ s2 w2 (Hi2&_&Ht2&[_ Hd2]&Hsp2).
  split_and!; [done| |by apply (spares_trans t s s1 s2 [])|done].
  intros t' Hne. by rewrite Ht2, Et1.
Qed.

Lemma eachTopic_wp o ev now s :
  state_inv s → wp (eachTopic o ev now) (λ _ s' w, state_inv s' ∧ gives_up s s' w) s.
Proof.
  intros Hi. unfold eachTopic. do 2 wp_step.
  assert (∀ t, t ∈ Topics s → t ∈ dom (topics s)) as Hin.
  { intros t. unfold Topics. by rewrite merge_sort_Permutation, elem_of_elements. }
  assert (gives_up s s []) as Hg0.
  { split; [done|]. intros p ?%elem_of_nil. done. }
  eapply wp_mono; [apply (wp_for_each (Topics s) _ (λ s1 w1, state_inv s1 ∧
    dom (topics s1) = dom (topics s) ∧ gives_up s s1 w1) s []); [done|]|]; cbv beta.
  - intros t s1 w1 Ht (Hi1&Hd1&Hg1). do 2 wp_step.
    apply Hin in Ht as Ht'. rewrite <-Hd1 in Ht'. apply elem_of_dom in Ht' as [st Hst]. rewrite Hst.
    assert (topic_inv st) by (destruct Hi1 as [Hs1 _]; by apply (Hs1 t)).
    eapply wp_mono; [by apply topicHandle_wp|]; cbv beta. intros _ s2 w2 (?&Hd2&_&?&_).
    split_and!; [done| |by eapply gives_up_trans]. rewrite Hd2, Hd1. apply Hin in Ht. set_solver.
  - intros _ s1 w1 (?&_&?). done.
Qed.

Lemma joinTopic_wp t s :
  state_inv s → wp (joinTopic t) (λ _ s' w, w = [] ∧ isolated t s s' []) s.
Proof.
  intros Hi. unfold joinTopic. do 2 wp_step.
  destruct (topics s !! t) eqn:E; [apply wp_ret; split; [done|by apply isolated_refl]|].
  destruct (Int63 (rand s)) as [sd r]. apply wp_modify. split; [done|]. destruct Hi as [Hs Hc].
  split_and!; simpl; [|intros; by rewrite lookup_insert_ne|by apply spares_refl|].
  - constructor; [|done]. apply map_Forall_insert_2; [|done]. by apply topic_inv_New.
  - intros p ?%elem_of_nil. done.
Qed.

Lemma isolated_trans t s s' s'' w w' :
  isolated t s s' w → (∀ p, DisconnectPeer p ∈ w → peerTopics s' !! p = None →
    peerTopics s'' !! p = None) →
  isolated t s' s'' w' → isolated t s s'' (w ++ w').
Proof.
  intros (_&Ht&Hs&Hd) Hk (?&Ht'&Hs'&Hd'). split_and!; [done| |by eapply spares_trans|].
  - intros t' Hne. rewrite Ht', Ht by done. done.
  - intros p [Hp|Hp]%elem_of_app; auto.
Qed.

Lemma Handle_isolated o ev now t s :
  state_inv s → event_topic ev = Some t → wp (Handle o ev now) (λ _ s' w, isolated t s s' w) s.
Proof.
  intros Hi Ht. destruct ev as [from m|t' c|tm|p|d]; simplify_eq/=;
    try by apply handleTopicEvent_wp.
  apply wp_bind. apply (wp_mono _ (λ _ s1 w1, w1 = [] ∧ isolated t s s1 [])).
  { destruct c; [by apply joinTopic_wp|apply wp_ret..]; split; try done; by apply isolated_refl. }
  cbv beta. intros _ s1 w1 [-> Hj]. pose proof Hj as (Hi1&_).
  apply wp_bind. eapply wp_mono; [by apply handleTopicEvent_wp|]; cbv beta. intros _ s2 w2 H2.
  assert (isolated t s s2 w2) as H12.
  { apply (isolated_trans t s s1 s2 []); [done| |done]. intros p ?%elem_of_nil. done. }
  destruct c; try (apply wp_ret; by rewrite app_nil_l, app_nil_r).
  apply wp_modify. rewrite app_nil_l, app_nil_r. destruct H12 as ([Hs Hc]&Ht&Hsp&Hd).
  split_and!; [|intros; simpl; rewrite lookup_delete_ne by done; by apply Ht|done|done].
  constructor; [|done]. by apply map_Forall_delete.
Qed.

(** Every event keeps the invariant and gives up only unused connections. *)
Lemma State_Handle_wp o ev now s :
  state_inv s → wp (Handle o ev now) (λ _ s' w, state_inv s' ∧
    ∀ p, DisconnectPeer p ∈ w → peerTopics s' !! p = None) s.
Proof.
  intros Hi. destruct (event_topic ev) as [t|] eqn:Et.
  { eapply wp_mono; [by apply (Handle_isolated o ev now t)|]; cbv beta. intros _ s' w (?&_&_&?). done. }
  destruct ev as [| | |p|d]; try done; simpl.
  - apply wp_bind. eapply wp_mono; [by apply eachTopic_wp|]; cbv beta. intros _ s1 w1 [Hi1 [_ Hd]].
    apply wp_modify. rewrite app_nil_r. split; [destruct Hi1; by constructor|].
    intros q Hq. simpl. apply lookup_delete_None. right. by apply Hd.
  - do 4 wp_step. set (s1 := set_meData _ s). assert (state_inv s1) as Hi1 by (destruct Hi; by constructor).
    eapply wp_mono; [by apply eachTopic_wp|]; cbv beta. intros _ s2 w2 [Hi2 [_ Hd]]. done.
Qed.
End state.

(** ** Who gives up a connection *)

(** A topic's use of a peer ends only where [asked] says. *)
Definition keeps_uses (asked : PeerID → TopicID → Prop) (s s' : State) : Prop :=
  ∀ p t, uses s p t → uses s' p t ∨ asked p t.

Lemma keeps_uses_trans asked s s' s'' :
  keeps_uses asked s s' → keeps_uses asked s' s'' → keeps_uses asked s s''.
Proof. intros H1 H2 p t [Hu|]%H1; auto. Qed.
Lemma keeps_uses_impl asked asked' s s' :
  keeps_uses asked s s' → (∀ p t, asked p t → asked' p t) → keeps_uses asked' s s'.
Proof. intros H Hi p t [|]%H; auto. Qed.
Lemma keeps_uses_refl asked s s' : peerTopics s' = peerTopics s → keeps_uses asked s s'.
Proof. intros E p t. unfold uses. rewrite E. auto. Qed.

Lemma handleTopicOut_uses t e s :
  wp (handleTopicOut t e) (λ _ s' _, keeps_uses (λ p t', t' = t ∧ e = TopicDisconnectPeer p) s s') s.
Proof.
  destruct e as [to m|e|after tm|to|to d]; simpl; try (by apply wp_emit, keeps_uses_refl).
  unfold dropPeerTopic. do 3 wp_step. case_bool_decide as He; [wp_step; by apply wp_ret, keeps_uses_refl|].
  set (ts := default ∅ (peerTopics s !! to)) in *.
  destruct (negb (bool_decide (ts ∖ {[t]} = ∅))) eqn:Hts; repeat wp_step; try done; intros p t' Hu;
    (destruct (decide (p = to)) as [->|Hne]; [destruct (decide (t' = t)) as [->|Ht]; [by right|left]|left]);
    unfold uses in *; simpl; rewrite ?lookup_delete_ne, ?lookup_insert_ne by done; try done.
  - rewrite lookup_insert_eq. simpl. fold ts in Hu. set_solver.
  - apply negb_false_iff, bool_decide_eq_true in Hts. fold ts in Hu. set_solver.
Qed.

Lemma handle_outs_uses t events s :
  wp (for_each events (handleTopicOut t))
    (λ _ s' _, keeps_uses (λ p t', t' = t ∧ TopicDisconnectPeer p ∈ events) s s') s.
Proof.
  revert s. induction events as [|e events IH]; intros s; simpl; [by apply wp_ret, keeps_uses_refl|].
  apply wp_bind. eapply wp_mono; [apply handleTopicOut_uses|]; cbv beta. intros _ s1 _ H1.
  eapply wp_mono; [apply IH|]; cbv beta. intros _ s2 _ H2. eapply keeps_uses_trans.
  - eapply keeps_uses_impl; [exact H1|]. intros p t' [-> ->]. split; [done|by left].
  - eapply keeps_uses_impl; [exact H2|]. intros p t' [-> ?]. split; [done|by right].
Qed.

Section asking.
Context `{!RandSource} `{!Blake3}.

(** The machine of a topic in state [st] answers [ev] by asking to disconnect [p]. *)
Definition topic_asks (o : MapRange) (ev : TopicInEvent) (now : Time) (st : TopicState) (p : PeerID) : Prop :=
  ∃ st' events, GossipTopic.Handle o ev now st = Some ((), st', events) ∧ TopicDisconnectPeer p ∈ events.

Lemma topicHandle_uses o t st ev now s :
  topic_inv st →
  wp (topicHandle o t st ev now) (λ _ s' _, keeps_uses (λ p t', t' = t ∧ topic_asks o ev now st p) s s') s.
Proof.
  intros Hst. unfold wp at 1, topicHandle.
  destruct (wp_run _ _ _ (TopicKeeps_Handle o ev now st Hst)) as ([] & st' & events & E & _). rewrite E.
  pose proof (handle_outs_uses t events (set_topics (<[t := st']> (topics s)) s)) as Hw.
  unfold wp in Hw. destruct (for_each _ _ _) as [[[[] s'] w]|]; [|done].
  intros p t' Hu. destruct (Hw p t' Hu) as [|[-> ?]]; [by left|right]. split; [done|]. by eexists _, _.
Qed.

Lemma handleTopicEvent_uses o t ev now from s :
  state_inv s →
  wp (handleTopicEvent o t ev now from)
    (λ _ s' _, keeps_uses (λ p t', t' = t ∧ ∃ st, topics s !! t = Some st ∧ topic_asks o ev now st p) s s') s.
Proof.
  intros [Hs _]. unfold handleTopicEvent. do 2 wp_step.
  destruct (topics s !! t) as [st|] eqn:Et; [|by apply wp_ret, keeps_uses_refl].
  apply wp_bind. apply (wp_mono _ (λ _ s1 _, ∀ p t', uses s p t' → uses s1 p t')).
  { destruct from as [from|]; [|by apply wp_ret]. apply wp_modify. intros p t'. unfold uses. simpl.
    destruct (decide (p = from)) as [->|]; [|by rewrite lookup_insert_ne].
    rewrite lookup_insert_eq. simpl. set_solver. }
  cbv beta. intros _ s1 _ H1. eapply wp_mono; [apply topicHandle_uses; by apply (Hs t)|]; cbv beta.
  intros _ s2 _ H2 p t' Hu. destruct (H2 p t' (H1 _ _ Hu)) as [|[-> ?]]; [by left|right]. split; [done|]. by exists st.
Qed.

Lemma eachTopic_uses o ev now s :
  state_inv s →
  wp (eachTopic o ev now)
    (λ _ s' _, keeps_uses (λ p t, ∃ st, topics s !! t = Some st ∧ topic_asks o ev now st p) s s') s.
Proof.
  intros Hi. unfold eachTopic. do 2 wp_step. set (asked := λ p t, ∃ st, _).
  assert (∀ l s1, NoDup l → state_inv s1 → (∀ t, t ∈ l → topics s1 !! t = topics s !! t ∧ is_Some (topics s !! t)) →
    wp (for_each l (λ topic, s ← get; match topics s !! topic with
                                      | None => panic
                                      | Some st => topicHandle o topic st ev now
                                      end)) (λ _ s2 _, keeps_uses asked s1 s2) s1) as Hloop.
  { induction l as [|t l IH]; intros s1 Hnd Hi1 Hl; simpl; [by apply wp_ret, keeps_uses_refl|].
    apply NoDup_cons in Hnd as [Hnt Hnd]. destruct (Hl t) as [Et [st Hst]]; [by left|]. rewrite Hst in Et.
    do 3 wp_step. rewrite Et. assert (topic_inv st) as Hok by (destruct Hi1 as [Hs _]; by apply (Hs t)).
    eapply wp_mono; [apply wp_and; [by apply topicHandle_wp|by apply topicHandle_uses]|]; cbv beta.
    intros _ s2 w2 [(Hi2 & _ & Hsame & _) Hu2]. eapply wp_mono; [apply IH|]; cbv beta.
    - done.
    - done.
    - intros t' Ht'. rewrite Hsame by (intros ->; done). apply Hl. by right.
    - intros _ s3 _ H3. eapply keeps_uses_trans; [|exact H3]. eapply keeps_uses_impl; [exact Hu2|].
      intros p t' [-> ?]. by exists st. }
  apply Hloop; [|done|].
  - unfold Topics. rewrite merge_sort_Permutation. apply NoDup_elements.
  - intros t Ht. split; [done|]. unfold Topics in Ht.
    by rewrite merge_sort_Permutation, elem_of_elements, elem_of_dom in Ht.
Qed.

Lemma joinTopic_uses t s : wp (joinTopic t) (λ _ s' _, peerTopics s' = peerTopics s) s.
Proof.
  unfold joinTopic. do 2 wp_step. destruct (topics s !! t); [by apply wp_ret|].
  destruct (Int63 (rand s)) as [sd r]. by apply wp_modify.
Qed.

(** What an event is to the machine of topic [t], if it reaches it. *)
Definition topic_input (ev : InEvent) (t : TopicID) : option TopicInEvent :=
  match ev with
  | RecvMessage from m =>
      if decide (t = Message_Topic m) then Some (TopicRecvMessage from (Message_Message m)) else None
  | CommandEvent t' c => if decide (t = t') then Some (TopicCommandEvent c) else None
  | TimerExpired tm => if decide (t = Timer_Topic tm) then Some (TopicTimerExpired (Timer_Timer tm)) else None
  | PeerDisconnected p => Some (TopicPeerDisconnected p)
  | UpdatePeerData d => Some (TopicUpdatePeerData (clonePeerData d))
  end.

(** The state in which the machine of [t] finds itself: a Join creates it
    first. *)
Definition topic_before (ev : InEvent) (s : State) (t : TopicID) : option TopicState :=
  match ev with
  | CommandEvent t' (TopicCommandJoin _) => '(_, s1, _) ← joinTopic t' s; topics s1 !! t
  | _ => topics s !! t
  end.

(** Topic [t] itself answers the event [ev] by asking to disconnect [p]. *)
Definition asks_disconnect (o : MapRange) (ev : InEvent) (now : Time) (s : State) (t : TopicID)
    (p : PeerID) : Prop :=
  ∃ tev st, topic_input ev t = Some tev ∧ topic_before ev s t = Some st ∧ topic_asks o tev now st p.

(** Every use of a disconnected peer was given up by the topic that had it. *)
Definition given_up_by (asked : PeerID → TopicID → Prop) (s : State) (w : list OutEvent) : Prop :=
  ∀ p t, DisconnectPeer p ∈ w → uses s p t → asked p t.

Lemma given_up_of asked asked' s s' w :
  keeps_uses asked s s' → (∀ p, DisconnectPeer p ∈ w → peerTopics s' !! p = None) →
  (∀ p t, asked p t → asked' p t) → given_up_by asked' s w.
Proof.
  intros Hk Hd Hi p t Hp [Hu|]%Hk; [|auto]. unfold uses in Hu. rewrite (Hd p Hp) in Hu. set_solver.
Qed.

Lemma Handle_given_up o ev now s :
  state_inv s → wp (Handle o ev now) (λ _ s' w, given_up_by (λ p t, asks_disconnect o ev now s t p) s w) s.
Proof.
  intros Hi. destruct ev as [from m|t c|tm|p|d]; simpl.
  1, 3: eapply wp_mono; [by apply wp_and; [apply handleTopicEvent_wp|apply handleTopicEvent_uses]|]; cbv beta;
    intros _ s' w [(_&_&_&Hd) Hk]; apply (given_up_of _ _ _ _ _ Hk Hd);
    intros p t' (-> & st & Hst & Ha); eexists _, st; split_and!; [|done|done]; simpl; by rewrite decide_True.
  - apply wp_bind.
    apply (wp_mono _ (λ _ s1 w1, w1 = [] ∧ state_inv s1 ∧ peerTopics s1 = peerTopics s ∧
      topic_before (CommandEvent t c) s t = topics s1 !! t)).
    { destruct c as [ps| |]; try by apply wp_ret.
      pose proof (wp_and _ _ _ _ (joinTopic_wp t s Hi) (joinTopic_uses t s)) as Hw. unfold wp in *.
      unfold topic_before. by destruct (joinTopic t s) as [[[? s1] w1]|]; [destruct Hw as [(->&?&_) ?]|]. }
    cbv beta. intros _ s1 w1 (->&Hi1&Ep&Eb). apply wp_bind.
    eapply wp_mono; [by apply wp_and; [apply handleTopicEvent_wp|apply handleTopicEvent_uses]|]; cbv beta.
    intros _ s2 w2 [(_&_&_&Hd) Hk].
    assert (given_up_by (λ p t', asks_disconnect o (CommandEvent t c) now s t' p) s w2) as Hg.
    { apply (given_up_of _ _ _ _ _ (keeps_uses_trans _ _ _ _ (keeps_uses_refl _ _ _ Ep) Hk) Hd). intros p' t'' (-> & st & Hst & Ha). eexists _, st. split_and!; [|by rewrite Eb|done]. simpl. by rewrite decide_True. }
    destruct c; [apply wp_ret..|apply wp_modify]; by rewrite app_nil_l, app_nil_r.
  - apply wp_bind. eapply wp_mono; [by apply wp_and; [apply eachTopic_wp|apply eachTopic_uses]|]; cbv beta.
    intros _ s1 w1 [[_ [_ Hd]] Hk]. apply wp_modify. rewrite app_nil_r. apply (given_up_of _ _ _ _ _ Hk Hd).
    intros q t (st & Hst & Ha). by eexists _, st.
  - do 4 wp_step. set (s1 := set_meData _ s). assert (state_inv s1) as Hi1 by (destruct Hi; by constructor).
    eapply wp_mono; [by apply wp_and; [apply eachTopic_wp|apply eachTopic_uses]|]; cbv beta.
    intros _ s2 w2 [[_ [_ Hd]] Hk]. rewrite !app_nil_l. apply (given_up_of _ _ _ _ _ Hk Hd).
    intros q t (st & Hst & Ha). by eexists _, st.
Qed.
End asking.

(** ** Order of topics *)

Lemma bytes_Compare_opp a b : bytes_Compare b a = CompOpp (bytes_Compare a b).
Proof.
  revert b. induction a as [|x a IH]; intros [|y b]; simpl; try done.
  rewrite (Z.compare_antisym x y). destruct (x ?= y); simpl; auto.
Qed.

#[global] Instance bytes_le_total : Total bytes_le.
Proof. intros a b. unfold bytes_le. rewrite (bytes_Compare_opp a b). destruct (bytes_Compare a b); simpl; auto. Qed.

#[global] Instance bytes_le_trans : Transitive bytes_le.
Proof.
  unfold bytes_le. intros a. induction a as [|x a IH]; intros [|y b] [|z c]; simpl; try done.
  destruct (Z.compare_spec x y), (Z.compare_spec y z), (Z.compare_spec x z); subst; try done; try lia.
  apply IH.
Qed.

Lemma state_inv_New p data cfg r nanos :
  wf_config (Membership (Config_Topic cfg)) → state_inv (NewStateWithRand p data cfg r nanos).
Proof.
  intros Hc. constructor; simpl; [apply map_Forall_empty|]. case_decide; [split; simpl; lia|done].
Qed.

(** ** Properties *)

Section props.
Context `{!RandSource} `{!Blake3}.

(** C19: From a fresh gossip state, whatever messages, commands, timers and
    disconnections arrive, nothing panics, and in every joined topic the
    membership views keep their invariant and every active neighbor is a peer
    of the broadcast machine. *)
Theorem gossip_run_invariant (p : PeerID) data (cfg : Config) r nanos
    (evs : list (MapRange * InEvent * Time))
    (Hc : wf_config (Membership (Config_Topic cfg))) :
  ∃ s w, state_run evs (NewStateWithRand p data cfg r nanos) = Some ((), s, w) ∧
    ∀ t st, topics s !! t = Some st →
      hv_inv (swarm st) ∧
      ∀ q, q ∈ ActivePeers (swarm st) → q ∈ eager (gossip st) ∪ lazy (gossip st).
Proof.
  assert (wp (state_run evs) (λ _ s _, state_inv s) (NewStateWithRand p data cfg r nanos)) as Hw.
  { apply (wp_for_each evs (λ '(o, ev, now), Handle o ev now) (λ s _, state_inv s) _ []).
    - by apply state_inv_New.
    - intros [[o ev] now] s w _ Hi. eapply wp_mono; [by apply State_Handle_wp|]; cbv beta. naive_solver. }
  destruct (wp_run _ _ _ Hw) as ([] & s & w & Hr & [Hs _]). exists s, w. split; [done|].
  intros t st Hst. apply Hs in Hst as []. done.
Qed.

(** C34: A connection that several topics share is given up only by all of
    them.  When an event makes the state disconnect a peer, every topic that
    used the peer before the event has itself asked for the disconnect while
    it handled this event, and afterwards no topic uses the peer. *)
Theorem disconnected_peer_is_unused (o : MapRange) (ev : InEvent) (now : Time) (s : State)
    (Hi : state_inv s) :
  ∃ s' w, Handle o ev now s = Some ((), s', w) ∧
    ∀ p, DisconnectPeer p ∈ w → ∀ t,
      (uses s p t → asks_disconnect o ev now s t p) ∧ ¬ uses s' p t.
Proof.
  destruct (wp_run _ _ _ (wp_and _ _ _ _ (State_Handle_wp o ev now s Hi) (Handle_given_up o ev now s Hi)))
    as ([] & s' & w & Hr & [_ Hd] & Hg).
  exists s', w. split; [done|]. intros p Hp t. split; [by apply Hg|].
  unfold uses. rewrite (Hd p Hp). set_solver.
Qed.

(** C10: Topics are isolated: an event addressed to one topic leaves the state
    of every other topic as it was, produces outputs of that topic only, and
    neither disconnects a peer that another topic uses nor forgets that use. *)
Theorem topics_are_isolated (o : MapRange) (ev : InEvent) (now : Time) (t : TopicID) (s : State)
    (Hi : state_inv s) (Ht : event_topic ev = Some t) :
  ∃ s' w, Handle o ev now s = Some ((), s', w) ∧ Forall (out_of t) w ∧
    ∀ t', t' ≠ t → topics s' !! t' = topics s !! t' ∧
      ∀ p, uses s p t' → uses s' p t' ∧ DisconnectPeer p ∉ w.
Proof.
  destruct (wp_run _ _ _ (Handle_isolated o ev now t s Hi Ht))
    as ([] & s' & w & Hr & _ & Htop & [Hu Hw] & _).
  exists s', w. split_and!; [done..|]. intros t' Hne. split; [by apply Htop|].
  intros p. by apply Hu.
Qed.

(** [Topics] lists exactly the joined topics, once each, in ascending byte
    order. *)
Theorem topics_sorted (s : State) :
  StronglySorted bytes_le (Topics s) ∧ NoDup (Topics s) ∧
  ∀ t, t ∈ Topics s ↔ is_Some (topics s !! t).
Proof.
  unfold Topics. split_and!.
  - apply Sorted_StronglySorted; [apply _|]. apply Sorted_merge_sort, _.
  - rewrite merge_sort_Permutation. apply NoDup_elements.
  - intros t. by rewrite merge_sort_Permutation, elem_of_elements, elem_of_dom.
Qed.
End props.

(** A node that has joined topic [[9]], of which peer [[1]] is a neighbor. *)
Definition sample_state : State :=
  set_topics {[ [9] := sample_topic ]}
    (set_peerTopics {[ [1] := {[ [9] ]} ]} (NewStateWithRand [0] [] zeroConfig None 7)).

Lemma state_inv_sample : state_inv sample_state.
Proof.
  constructor; [|split; vm_compute; discriminate].
  apply map_Forall_singleton. exact topic_inv_sample.
Qed.

Lemma gossip_run_invariant_witness :
  ∃ s w, @state_run counting_rand identity_digest
      [(elements_order, CommandEvent [9] (TopicCommandJoin [[1]]), 5);
       (elements_order, PeerDisconnected [1], 6)]
      (NewStateWithRand [0] [] zeroConfig None 7) = Some ((), s, w) ∧
    ∀ t st, topics s !! t = Some st →
      hv_inv (swarm st) ∧
      ∀ q, q ∈ ActivePeers (swarm st) → q ∈ eager (gossip st) ∪ lazy (gossip st).
Proof.
  apply (@gossip_run_invariant counting_rand identity_digest). split; vm_compute; discriminate.
Defined.

Lemma disconnected_peer_is_unused_witness :
  ∃ s' w, @Handle counting_rand identity_digest elements_order
      (CommandEvent [9] TopicCommandQuit) 5 sample_state = Some ((), s', w) ∧
    DisconnectPeer [1] ∈ w ∧
    @asks_disconnect counting_rand identity_digest elements_order
      (CommandEvent [9] TopicCommandQuit) 5 sample_state [9] [1] ∧ ¬ uses s' [1] [9].
Proof.
  destruct (@disconnected_peer_is_unused counting_rand identity_digest elements_order
    (CommandEvent [9] TopicCommandQuit) 5 sample_state state_inv_sample) as (s' & w & Hr & Hd).
  assert (DisconnectPeer [1] ∈ w) as Hin.
  { assert (∃ u, @Handle counting_rand identity_digest elements_order
      (CommandEvent [9] TopicCommandQuit) 5 sample_state = Some u ∧ DisconnectPeer [1] ∈ u.2) as ([[? ?] ?] & Hr' & ?).
    { eexists. split; [vm_compute; reflexivity|]. simpl. set_solver. }
    rewrite Hr in Hr'. by simplify_eq. }
  exists s', w. split_and!; [done..| |].
  - apply (Hd [1] Hin [9]). unfold uses, sample_state. simpl. rewrite lookup_singleton_eq. set_solver.
  - by apply (Hd [1] Hin [9]).
Defined.

Lemma topics_are_isolated_witness :
  ∃ s' w, @Handle counting_rand identity_digest elements_order
      (CommandEvent [8] (TopicCommandJoin [[2]])) 5 sample_state = Some ((), s', w) ∧
    Forall (out_of [8]) w ∧
    ∀ t', t' ≠ [8] → topics s' !! t' = topics sample_state !! t' ∧
      ∀ p, uses sample_state p t' → uses s' p t' ∧ DisconnectPeer p ∉ w.
Proof.
  exact (@topics_are_isolated counting_rand identity_digest elements_order
    (CommandEvent [8] (TopicCommandJoin [[2]])) 5 [8] sample_state state_inv_sample eq_refl).
Defined.
