(* ===== verification/GoFloat.v ===== *)
(** * float64 as the sources use it

    Binary64 arithmetic is the specification in [SpecFloat], computed on
    mantissa and exponent, rounding to nearest even.  A conversion of a float to
    an integer type that cannot hold the truncated value is left to the
    implementation by the language, so its result is a parameter. *)

From Stdlib Require Import SpecFloat.
From S2P Require Import Prelude.

Class FloatConversion := out_of_range : spec_float → Z.

(** [float64(x)] of an integer. *)
Definition float64 (x : Z) : spec_float := binary_normalize 53 1024 x 0 false.
Definition fmul : spec_float → spec_float → spec_float := SFmul 53 1024.
Definition fdiv : spec_float → spec_float → spec_float := SFdiv 53 1024.

(** The integer part of a finite float. *)
Definition truncate (m : positive) (e : Z) : Z :=
  if 0 <=? e then Z.pos m * 2 ^ e else Z.pos m `div` 2 ^ (- e).

Definition signed (s : bool) (v : Z) : Z := if s then - v else v.

(** [int64(f)] *)
Definition to_int64 `{!FloatConversion} (f : spec_float) : Z :=
  match f with
  | S754_zero _ => 0
  | S754_finite s m e =>
      let v := signed s (truncate m e) in
      if (- 2 ^ 63 <=? v) && (v <? 2 ^ 63) then v else out_of_range f
  | _ => out_of_range f
  end.

(** ** Exact results

    A product that fits 53 bits is not rounded. *)

Lemma digits2_log2 p : Z.pos (digits2_pos p) = Z.log2 (Z.pos p) + 1.
Proof.
  induction p as [p IH|p IH|]; simpl digits2_pos; [| |done].
  - rewrite Pos2Z.inj_succ, IH, Pos2Z.inj_xI, Z.log2_succ_double by lia. lia.
  - rewrite Pos2Z.inj_succ, IH, Pos2Z.inj_xO, Z.log2_double by lia. lia.
Qed.

Lemma iter_pos_iter {A} (f : A → A) n x : SpecFloat.iter_pos f n x = Nat.iter (Pos.to_nat n) f x.
Proof.
  revert x. induction n as [n IH|n IH|]; intros x; cbn [SpecFloat.iter_pos]; [| |done].
  - rewrite !IH, Pos2Nat.inj_xI, <-Nat.iter_succ_r, <-Nat.iter_add. f_equal. lia.
  - rewrite !IH, Pos2Nat.inj_xO, <-Nat.iter_add. f_equal. lia.
Qed.

Lemma shr_exact n p :
  Nat.iter n shr_1 {| shr_m := Z.pos p * 2 ^ Z.of_nat n; shr_r := false; shr_s := false |} =
  {| shr_m := Z.pos p; shr_r := false; shr_s := false |}.
Proof.
  induction n as [|n IH]; [by rewrite Z.mul_1_r|].
  rewrite Nat.iter_succ_r. rewrite <-IH. f_equal.
  assert (0 < 2 ^ Z.of_nat n) by (apply Z.pow_pos_nonneg; lia).
  rewrite Nat2Z.inj_succ, Z.pow_succ_r by lia.
  destruct (Z.pos p * 2 ^ Z.of_nat n) as [|q|q] eqn:E; [lia| |lia].
  replace (Z.pos p * (2 * 2 ^ Z.of_nat n)) with (Z.pos q~0) by lia. done.
Qed.

(** One rounding step at precision 53, when the bits it drops are zero. *)
Lemma shr_fexp_exact m e q k :
  0 ≤ k → Z.pos m = Z.pos q * 2 ^ k → Z.log2 (Z.pos q) < 53 → -1000 ≤ e →
  ∃ m' e', shr_fexp 53 1024 (Z.pos m) e loc_Exact =
      ({| shr_m := Z.pos m'; shr_r := false; shr_s := false |}, e') ∧
    e ≤ e' ≤ e + Z.max 0 (Z.log2 (Z.pos m)) ∧ Z.pos m' * 2 ^ (e' - e) = Z.pos m ∧
    Z.log2 (Z.pos m') < 53.
Proof.
  intros Hk Hm Hq He. unfold shr_fexp. simpl Zdigits2. rewrite digits2_log2.
  pose proof (Z.log2_nonneg (Z.pos m)) as Hlm.
  assert (Z.log2 (Z.pos m) = Z.log2 (Z.pos q) + k) as Hlog.
  { rewrite Hm, Z.log2_mul_pow2 by lia. lia. }
  unfold fexp, emin. simpl shr_record_of_loc. set (d := Z.max _ _ - e).
  assert (d = Z.log2 (Z.pos m) - 52) as Hd by (unfold d; lia). clearbody d.
  destruct d as [|p|p] eqn:Ed; simpl shr.
  1,3: eexists _, _; split_and!; [done|lia|lia|rewrite Z.sub_diag; lia|lia].
  assert (∃ m', Z.pos m = Z.pos m' * 2 ^ Z.pos p) as [m' Hm'].
  { assert (0 < Z.pos q * 2 ^ (k - Z.pos p)) as Hpos by (apply Z.mul_pos_pos; [lia|apply Z.pow_pos_nonneg; lia]).
    exists (Z.to_pos (Z.pos q * 2 ^ (k - Z.pos p))). rewrite Z2Pos.id by done.
    rewrite Hm, <-Z.mul_assoc, <-Z.pow_add_r by lia. do 2 f_equal. lia. }
  exists m', (e + Z.pos p). rewrite iter_pos_iter, Hm'.
  replace (Z.pos p) with (Z.of_nat (Pos.to_nat p)) at 1 by lia. rewrite shr_exact.
  replace (e + Z.pos p - e) with (Z.pos p) by lia. split_and!; [done|lia| |done|].
  - rewrite <-Hm'. lia.
  - assert (Z.log2 (Z.pos m) = Z.log2 (Z.pos m') + Z.pos p); [|lia].
    rewrite Hm', Z.log2_mul_pow2 by lia. lia.
Qed.

Lemma round_exact m e q k :
  0 ≤ k → Z.pos m = Z.pos q * 2 ^ k → Z.log2 (Z.pos q) < 53 →
  -1000 ≤ e ≤ 0 → Z.log2 (Z.pos m) ≤ 200 →
  ∃ m' e', binary_round_aux 53 1024 false (Z.pos m) e loc_Exact = S754_finite false m' e' ∧
    e ≤ e' ∧ Z.pos m' * 2 ^ (e' - e) = Z.pos m.
Proof.
  intros Hk Hm Hq He Hl. unfold binary_round_aux.
  destruct (shr_fexp_exact m e q k) as (m1 & e1 & -> & ? & Hm1 & Hl1); [done..|lia|].
  simpl round_nearest_even.
  pose proof (Z.log2_nonneg (Z.pos m)). pose proof (Z.log2_nonneg (Z.pos m1)).
  destruct (shr_fexp_exact m1 e1 m1 0) as (m2 & e2 & -> & ? & Hm2 & Hl2); [lia..|].
  simpl shr_m. destruct (Z.leb_spec e2 (1024 - 53)); [|lia].
  eexists _, _. split_and!; [done|lia|].
  replace (e2 - e) with ((e2 - e1) + (e1 - e)) by lia.
  rewrite Z.pow_add_r, Z.mul_assoc, Hm2 by lia. done.
Qed.

Lemma iter_xO m d : Z.pos (Pos.iter xO m d) = Z.pos m * 2 ^ Z.pos d.
Proof.
  induction d as [|d IH] using Pos.peano_ind; [simpl; lia|].
  rewrite Pos.iter_succ, Pos2Z.inj_succ, Z.pow_succ_r, Pos2Z.inj_xO, IH by lia. lia.
Qed.

(** Integers below 2^53 are represented exactly. *)
Lemma float64_exact x :
  0 < x < 2 ^ 53 →
  ∃ m e, float64 x = S754_finite false m e ∧ -52 ≤ e ≤ 52 ∧ Z.pos m * 2 ^ (e + 52) = x * 2 ^ 52.
Proof.
  intros Hx. destruct x as [|p|p]; [lia| |lia]. unfold float64, binary_normalize, binary_round.
  rewrite digits2_log2.
  assert (Z.log2 (Z.pos p) < 53) as Hl by (apply Z.log2_lt_pow2; lia).
  pose proof (Z.log2_nonneg (Z.pos p)) as Hl0.
  unfold fexp, emin. set (ex := Z.max _ _).
  assert (ex = Z.log2 (Z.pos p) - 52) as Hex by (unfold ex; lia). clearbody ex.
  assert (∃ m, shl_align p 0 ex = (m, ex) ∧ Z.pos m = Z.pos p * 2 ^ (- ex)) as (m & -> & Hm).
  { unfold shl_align. destruct (ex - 0) as [|d|d] eqn:Ed; [| lia|].
    - exists p. replace ex with 0 by lia. split; [done|lia].
    - exists (Pos.iter xO p d). split; [done|]. rewrite iter_xO. do 2 f_equal. lia. }
  assert (Z.log2 (Z.pos m) = 52) as Hlm by (rewrite Hm, Z.log2_mul_pow2 by lia; lia).
  destruct (round_exact m ex p (- ex)) as (m' & e' & -> & He & Hm'); [lia|done|lia..|].
  assert (Z.log2 (Z.pos m) = e' - ex + Z.log2 (Z.pos m')) as Hlog.
  { rewrite <-Hm', Z.log2_mul_pow2; lia. }
  exists m', e'. pose proof (Z.log2_nonneg (Z.pos m')). split_and!; [done|lia..|].
  replace (e' + 52) with ((e' - ex) + (ex + 52)) by lia.
  rewrite Z.pow_add_r, Z.mul_assoc, Hm', Hm, <-Z.mul_assoc, <-Z.pow_add_r by lia. do 2 f_equal. lia.
Qed.

Lemma truncate_spec m e k v :
  0 ≤ k → 0 ≤ e + k → Z.pos m * 2 ^ (e + k) = v → truncate m e = v `div` 2 ^ k.
Proof.
  intros Hk Hek <-. unfold truncate. destruct (Z.leb_spec 0 e).
  - rewrite Z.pow_add_r, Z.mul_assoc, Z.div_mul by lia. done.
  - replace (2 ^ k) with (2 ^ (- e) * 2 ^ (e + k)) by (rewrite <-Z.pow_add_r by lia; f_equal; lia).
    rewrite Z.div_mul_cancel_r; [done|lia..].
Qed.

(** Multiplying by the constants 3/4 and 3/2, whose mantissa is 3 * 2^51. *)
Lemma fmul_three x ey :
  0 < x < 2 ^ 51 → -53 ≤ ey ≤ -52 →
  ∃ m e, fmul (float64 x) (S754_finite false (3 * 2 ^ 51) ey) = S754_finite false m e ∧
    truncate m e = (3 * x * 2 ^ 51) `div` 2 ^ (- ey).
Proof.
  intros Hx Hey. destruct (float64_exact x) as (mx & ex & -> & He & Hmx); [lia|].
  unfold fmul, SFmul. simpl xorb.
  assert (∃ q k, 0 ≤ k ∧ Z.pos (mx * (3 * 2 ^ 51)) = Z.pos q * 2 ^ k ∧ Z.log2 (Z.pos q) < 53 ∧ k ≤ 103)
    as (q & k & Hk & Hm & Hq & Hk').
  { rewrite !Pos2Z.inj_mul, Pos2Z.inj_pow. destruct (Z.le_gt_cases ex 0).
    - exists (Z.to_pos (3 * x)), (51 - ex). rewrite Z2Pos.id by lia. split_and!; [lia| | |lia].
      + assert (Z.pos mx = x * 2 ^ (- ex)) as ->.
        { apply (Z.mul_reg_r _ _ (2 ^ (ex + 52))); [lia|].
          rewrite Hmx, <-Z.mul_assoc, <-Z.pow_add_r by lia. do 2 f_equal. lia. }
        replace (51 - ex) with (- ex + 51) by lia. rewrite Z.pow_add_r by lia. ring.
      + apply Z.log2_lt_pow2; lia.
    - exists (mx * 3)%positive, 51. split_and!; [lia|rewrite Pos2Z.inj_mul; ring| |lia].
      assert (x = Z.pos mx * 2 ^ ex) as Hxm.
      { apply (Z.mul_reg_r _ _ (2 ^ 52)); [lia|]. rewrite <-Hmx, Z.pow_add_r by lia. ring. }
      assert (0 < 2 ^ ex) by (apply Z.pow_pos_nonneg; lia).
      apply Z.log2_lt_pow2; [lia|]. rewrite Pos2Z.inj_mul. nia. }
  destruct (round_exact (mx * (3 * 2 ^ 51)) (ex + ey) q k) as (m & e & -> & Hee & Hme); [done..|lia| |].
  { rewrite Hm, Z.log2_mul_pow2 by lia. lia. }
  eexists _, _. split; [done|].
  erewrite (truncate_spec m e (52 - ey)); [|lia|lia|done].
  assert (Z.pos m * 2 ^ (e + (52 - ey)) = 3 * x * 2 ^ 51 * 2 ^ 52) as ->.
  { replace (e + (52 - ey)) with ((e - (ex + ey)) + (ex + 52)) by lia.
    rewrite Z.pow_add_r, Z.mul_assoc, Hme by lia.
    rewrite !Pos2Z.inj_mul, Pos2Z.inj_pow.
    replace (Z.pos mx * (3 * 2 ^ 51) * 2 ^ (ex + 52)) with (Z.pos mx * 2 ^ (ex + 52) * 3 * 2 ^ 51) by ring.
    rewrite Hmx. ring. }
  replace (52 - ey) with (- ey + 52) by lia. rewrite Z.pow_add_r by lia.
  rewrite Z.div_mul_cancel_r; [done|lia..].
Qed.

Definition three_quarters : spec_float := fdiv (float64 3) (float64 4).
Definition one_and_a_half : spec_float := fdiv (float64 3) (float64 2).

Lemma fmul_three_quarters `{!FloatConversion} x :
  0 ≤ x < 2 ^ 51 → to_int64 (fmul (float64 x) three_quarters) = (3 * x) `div` 4.
Proof.
  intros Hx. destruct (decide (x = 0)) as [->|]; [done|].
  replace three_quarters with (S754_finite false (3 * 2 ^ 51) (-53)) by (by vm_compute).
  destruct (fmul_three x (-53)) as (m & e & -> & E); [lia..|]. simpl to_int64. rewrite E.
  replace (2 ^ (- -53)) with (4 * 2 ^ 51) by done. rewrite Z.div_mul_cancel_r by lia.
  pose proof (Z.div_mod (3 * x) 4). pose proof (Z.mod_pos_bound (3 * x) 4).
  destruct (andb _ _) eqn:Eb; [done|]. lia.
Qed.

