(* ===== verification/QuicVarint.v ===== *)
(** * QUIC variable-length integers: internal/qng/quicvarint/varint.go

    The two high bits of the first byte give the length.  A panic is [None]. *)

From S2P Require Import Prelude.

Definition maxVarInt1 : Z := 63.
Definition maxVarInt2 : Z := 16383.
Definition maxVarInt4 : Z := 1073741823.
Definition maxVarInt8 : Z := 4611686018427387903.
Definition Max : Z := maxVarInt8.

Definition Len (i : Z) : option Z :=
  if i <=? maxVarInt1 then Some 1
  else if i <=? maxVarInt2 then Some 2
  else if i <=? maxVarInt4 then Some 4
  else if i <=? maxVarInt8 then Some 8
  else None.

Definition Append (b : bytes) (i : Z) : option bytes :=
  if i <=? maxVarInt1 then Some (b ++ [u8 i])
  else if i <=? maxVarInt2 then
    Some (b ++ [Z.lor (u8 (Z.shiftr i 8)) 0x40; u8 i])
  else if i <=? maxVarInt4 then
    Some (b ++ [Z.lor (u8 (Z.shiftr i 24)) 0x80; u8 (Z.shiftr i 16); u8 (Z.shiftr i 8); u8 i])
  else if i <=? maxVarInt8 then
    Some (b ++ [Z.lor (u8 (Z.shiftr i 56)) 0xc0; u8 (Z.shiftr i 48); u8 (Z.shiftr i 40);
                u8 (Z.shiftr i 32); u8 (Z.shiftr i 24); u8 (Z.shiftr i 16);
                u8 (Z.shiftr i 8); u8 i])
  else None.

(** The prefix byte of a padded encoding. *)
Definition lenPrefix (length : Z) : bytes :=
  if length =? 2 then [0x40] else if length =? 4 then [0x80]
  else if length =? 8 then [0xc0] else [].

Definition AppendWithLen (b : bytes) (i : Z) (length : Z) : option bytes :=
  if negb (length =? 1) && negb (length =? 2) && negb (length =? 4) && negb (length =? 8)
  then None
  else
    match Len i with
    | None => None
    | Some l =>
        if l =? length then Append b i
        else if l >? length then None
        else
          let b := b ++ lenPrefix length in
          let b := b ++ replicate (Z.to_nat (length - l - 1)) 0 in
          Some (b ++ ((λ j, u8 (Z.shiftr i (8 * (l - 1 - Z.of_nat j)))) <$> seq 0 (Z.to_nat l)))
    end.

(** An [io.ByteReader] over the bytes [r], which reports EOF at their end. *)
Definition ReadByte (r : bytes) : result ReadError (Z * bytes) :=
  match r with [] => Err EOF | b :: r => Ok (b, r) end.

Definition Read (r : bytes) : result ReadError (Z * bytes) :=
  '(firstByte, r) ← ReadByte r;
  let l := Z.shiftl 1 (Z.shiftr (Z.land firstByte 0xc0) 6) in
  let b1 := Z.land firstByte (0xff - 0xc0) in
  if l =? 1 then Ok (b1, r)
  else
    '(b2, r) ← ReadByte r;
    if l =? 2 then Ok (u64 (b2 + Z.shiftl b1 8), r)
    else
      '(b3, r) ← ReadByte r;
      '(b4, r) ← ReadByte r;
      if l =? 4
      then Ok (u64 (b4 + Z.shiftl b3 8 + Z.shiftl b2 16 + Z.shiftl b1 24), r)
      else
        '(b5, r) ← ReadByte r;
        '(b6, r) ← ReadByte r;
        '(b7, r) ← ReadByte r;
        '(b8, r) ← ReadByte r;
        Ok (u64 (b8 + Z.shiftl b7 8 + Z.shiftl b6 16 + Z.shiftl b5 24 + Z.shiftl b4 32
                 + Z.shiftl b3 40 + Z.shiftl b2 48 + Z.shiftl b1 56), r).

(** binary.BigEndian.Uint64 of the first eight bytes. *)
Definition BigEndian_Uint64 (b0 b1 b2 b3 b4 b5 b6 b7 : Z) : Z :=
  Z.lor (Z.lor (Z.lor (Z.lor (Z.lor (Z.lor (Z.lor b7 (Z.shiftl b6 8)) (Z.shiftl b5 16))
    (Z.shiftl b4 24)) (Z.shiftl b3 32)) (Z.shiftl b2 40)) (Z.shiftl b1 48)) (Z.shiftl b0 56).

(** The value and the number of bytes consumed; [None] is the panic after the switch. *)
Definition Parse (b : bytes) : option (result ReadError (Z * Z)) :=
  match b with
  | [] => Some (Err EOF)
  | first :: rest =>
      let low := Z.land first 0x3f in
      match Z.shiftr first 6, rest with
      | 0, _ => Some (Ok (low, 1))
      | 1, b1 :: _ => Some (Ok (Z.lor b1 (Z.shiftl low 8), 2))
      | 2, b1 :: b2 :: b3 :: _ =>
          Some (Ok (Z.lor (Z.lor (Z.lor b3 (Z.shiftl b2 8)) (Z.shiftl b1 16))
                      (Z.shiftl low 24), 4))
      | 3, b1 :: b2 :: b3 :: b4 :: b5 :: b6 :: b7 :: _ =>
          Some (Ok (Z.land (BigEndian_Uint64 first b1 b2 b3 b4 b5 b6 b7)
                      0x3fffffffffffffff, 8))
      | 1, _ | 2, _ | 3, _ => Some (Err ErrUnexpectedEOF)
      | _, _ => None
      end
  end.

(** ** Lemmas *)

(** The number of bytes of an encoding, from its first byte. *)
Definition prefix_len (first : Z) : Z := 2 ^ (first / 64).

Lemma be_acc acc l :
  foldl (λ a b, a * 256 + b) acc l = acc * 256 ^ len l + be l.
Proof.
  unfold be. revert acc. induction l as [|x l IH]; intros acc; cbn [foldl].
  { rewrite len_nil. lia. }
  rewrite (IH (acc * 256 + x)), (IH (0 * 256 + x)), len_cons, Z.pow_add_r by (apply len_nonneg || lia).
  lia.
Qed.

Lemma be_cons b l : be (b :: l) = b * 256 ^ len l + be l.
Proof. unfold be at 1. cbn [foldl]. rewrite be_acc. lia. Qed.

Lemma be_be_bytes_mod n x : 0 ≤ x → be (be_bytes n x) = x `mod` 256 ^ Z.of_nat n.
Proof.
  revert x. induction n as [|n IH]; intros x Hx; cbn [be_bytes].
  { simpl. unfold be. simpl. by rewrite Z.mod_1_r. }
  rewrite be_snoc, IH by (apply Z.div_pos; lia).
  rewrite Nat2Z.inj_succ, Z.pow_succ_r, Z.rem_mul_r by lia. lia.
Qed.

(** The byte tails of [Append]. *)
Lemma tail_bytes_3 i :
  [u8 (Z.shiftr i 16); u8 (Z.shiftr i 8); u8 i] = be_bytes 3 i.
Proof.
  unfold wrapU. rewrite !Z.shiftr_div_pow2 by lia. cbn [be_bytes app].
  by rewrite !Z.div_div by lia.
Qed.
Lemma tail_bytes_7 i :
  [u8 (Z.shiftr i 48); u8 (Z.shiftr i 40); u8 (Z.shiftr i 32); u8 (Z.shiftr i 24);
   u8 (Z.shiftr i 16); u8 (Z.shiftr i 8); u8 i] = be_bytes 7 i.
Proof.
  unfold wrapU. rewrite !Z.shiftr_div_pow2 by lia. cbn [be_bytes app].
  by rewrite !Z.div_div by lia.
Qed.

(** The first byte: tag and high bits. *)
Lemma first_byte x tag :
  0 ≤ x < 64 → 0 ≤ tag < 4 →
  Z.lor (u8 x) (Z.shiftl tag 6) = x + tag * 64 ∧ (x + tag * 64) / 64 = tag ∧
  (x + tag * 64) `mod` 64 = x ∧ is_byte (x + tag * 64).
Proof.
  intros Hx Ht. rewrite wrapU_small by lia. rewrite lor_disjoint by lia. split_and!.
  - done.
  - rewrite Z.div_add, Z.div_small by lia. lia.
  - rewrite Z.mod_add, Z.mod_small by lia. done.
  - unfold is_byte. lia.
Qed.

Lemma byte_shiftr_6 b : Z.shiftr b 6 = b / 64.
Proof. by rewrite Z.shiftr_div_pow2 by lia. Qed.
Lemma byte_low b : Z.land b 0x3f = b `mod` 64.
Proof. apply (land_ones_low b 6). lia. Qed.
Lemma byte_high b : is_byte b → Z.shiftr (Z.land b 0xc0) 6 = b / 64.
Proof.
  intros Hb. rewrite Z.shiftr_land, byte_shiftr_6.
  change (Z.shiftr 192 6) with (2 ^ 2 - 1). rewrite land_ones_low by lia.
  unfold is_byte in Hb. apply Z.mod_small. split; [apply Z.div_pos; lia|apply Z.div_lt_upper_bound; lia].
Qed.

Lemma byte_tag b : is_byte b → b / 64 = 0 ∨ b / 64 = 1 ∨ b / 64 = 2 ∨ b / 64 = 3.
Proof.
  unfold is_byte. intros Hb. assert (0 ≤ b / 64 < 4); [|lia].
  split; [apply Z.div_pos; lia|apply Z.div_lt_upper_bound; lia].
Qed.

Ltac bytes_inv :=
  repeat match goal with
  | H : Forall is_byte (_ :: _) |- _ => apply Forall_cons in H as [? H]
  end.

(** Collapse disjoint ors into sums. *)
Ltac lor_sums :=
  unfold is_byte in *;
  repeat match goal with
  | |- context [Z.lor ?a (Z.shiftl ?b ?k)] => rewrite (lor_disjoint a b k) by lia
  end.

Lemma Parse_spec first rest :
  Forall is_byte (first :: rest) →
  Parse (first :: rest) = Some
    (if len (first :: rest) <? prefix_len first then Err ErrUnexpectedEOF
     else Ok (be (first `mod` 64 :: take (Z.to_nat (prefix_len first - 1)) rest), prefix_len first)).
Proof.
  intros Hb. pose proof Hb as [H0 Hr]%Forall_cons. unfold Parse, prefix_len.
  rewrite byte_shiftr_6, byte_low.
  pose proof (Z.mod_pos_bound first 64 ltac:(lia)) as Hm.
  assert (is_byte (first `mod` 64)) as Hmb by (unfold is_byte; lia).
  destruct (byte_tag first H0) as [E|[E|[E|E]]]; rewrite E.
  - change (2 ^ 0) with 1. change (Z.to_nat (1 - 1)) with 0%nat. rewrite !len_cons.
    pose proof (len_nonneg rest). rewrite (proj2 (Z.ltb_ge _ _)) by lia.
    rewrite take_0, be_cons, len_nil. unfold be. simpl. do 3 f_equal. lia.
  - change (2 ^ 1) with 2. change (Z.to_nat (2 - 1)) with 1%nat.
    destruct rest as [|b1 rest]; [done|]. bytes_inv. lor_sums.
    rewrite !len_cons. pose proof (len_nonneg rest). rewrite (proj2 (Z.ltb_ge _ _)) by lia.
    rewrite !firstn_cons, take_0, !be_cons, !len_cons, (len_nil (A := Z)). change (be []) with 0. do 3 f_equal. lia.
  - change (2 ^ 2) with 4. change (Z.to_nat (4 - 1)) with 3%nat.
    destruct rest as [|b1 [|b2 [|b3 rest]]]; try done. bytes_inv. lor_sums.
    rewrite !len_cons. pose proof (len_nonneg rest). rewrite (proj2 (Z.ltb_ge _ _)) by lia.
    rewrite !firstn_cons, take_0, !be_cons, !len_cons, (len_nil (A := Z)). change (be []) with 0. do 3 f_equal. lia.
  - change (2 ^ 3) with 8. change (Z.to_nat (8 - 1)) with 7%nat.
    destruct rest as [|b1 [|b2 [|b3 [|b4 [|b5 [|b6 [|b7 rest]]]]]]]; try done. bytes_inv.
    unfold BigEndian_Uint64. lor_sums.
    change 0x3fffffffffffffff with (2 ^ 62 - 1). rewrite land_ones_low by lia.
    rewrite !len_cons. pose proof (len_nonneg rest). rewrite (proj2 (Z.ltb_ge _ _)) by lia.
    rewrite !firstn_cons, take_0, !be_cons, !len_cons, (len_nil (A := Z)). change (be []) with 0. do 3 f_equal.
    rewrite (Z.div_mod first 64) at 1 by lia. rewrite E.
    match goal with |- ?x `mod` ?m = ?y => replace x with (y + 3 * m) by lia end.
    rewrite Z.mod_add by lia. apply Z.mod_small. unfold is_byte in *. lia.
Qed.

Lemma Read_spec first rest :
  Forall is_byte (first :: rest) →
  Read (first :: rest) =
    if len (first :: rest) <? prefix_len first then Err EOF
    else Ok (be (first `mod` 64 :: take (Z.to_nat (prefix_len first - 1)) rest),
             drop (Z.to_nat (prefix_len first - 1)) rest).
Proof.
  intros Hb. pose proof Hb as [H0 Hr]%Forall_cons. unfold Read, prefix_len, ReadByte.
  cbn [mbind result_bind Z.eqb Pos.eqb]. rewrite byte_high by done. change (255 - 192) with 0x3f.
  rewrite byte_low, Z.shiftl_1_l.
  pose proof (Z.mod_pos_bound first 64 ltac:(lia)) as Hm.
  destruct (byte_tag first H0) as [E|[E|[E|E]]]; rewrite E.
  - change (2 ^ 0) with 1. change (Z.to_nat (1 - 1)) with 0%nat. rewrite !len_cons.
    pose proof (len_nonneg rest). rewrite (proj2 (Z.ltb_ge _ _)) by lia.
    rewrite take_0, drop_0, be_cons, len_nil. unfold be. simpl. do 2 f_equal. lia.
  - change (2 ^ 1) with 2. change (Z.to_nat (2 - 1)) with 1%nat.
    destruct rest as [|b1 rest]; [done|]. bytes_inv. unfold is_byte in *. cbn [mbind result_bind Z.eqb Pos.eqb].
    rewrite !len_cons. pose proof (len_nonneg rest). rewrite (proj2 (Z.ltb_ge _ _)) by lia.
    rewrite !firstn_cons, take_0, !be_cons, !len_cons, (len_nil (A := Z)). change (be []) with 0.
    rewrite !Z.shiftl_mul_pow2 by lia. rewrite wrapU_small by lia. rewrite !skipn_cons, drop_0. do 2 f_equal. lia.
  - change (2 ^ 2) with 4. change (Z.to_nat (4 - 1)) with 3%nat.
    destruct rest as [|b1 [|b2 [|b3 rest]]]; try done. bytes_inv. unfold is_byte in *.
    cbn [mbind result_bind Z.eqb Pos.eqb]. rewrite !len_cons. pose proof (len_nonneg rest).
    rewrite (proj2 (Z.ltb_ge _ _)) by lia.
    rewrite !firstn_cons, take_0, !be_cons, !len_cons, (len_nil (A := Z)). change (be []) with 0.
    rewrite !Z.shiftl_mul_pow2 by lia. rewrite wrapU_small by lia. rewrite !skipn_cons, drop_0. do 2 f_equal. lia.
  - change (2 ^ 3) with 8. change (Z.to_nat (8 - 1)) with 7%nat.
    destruct rest as [|b1 [|b2 [|b3 [|b4 [|b5 [|b6 [|b7 rest]]]]]]]; try done. bytes_inv.
    unfold is_byte in *. cbn [mbind result_bind Z.eqb Pos.eqb]. rewrite !len_cons. pose proof (len_nonneg rest).
    rewrite (proj2 (Z.ltb_ge _ _)) by lia.
    rewrite !firstn_cons, take_0, !be_cons, !len_cons, (len_nil (A := Z)). change (be []) with 0.
    rewrite !Z.shiftl_mul_pow2 by lia. rewrite wrapU_small by lia. rewrite !skipn_cons, drop_0. do 2 f_equal. lia.
Qed.

(** An encoding of [n] bytes of the value [i]. *)
Definition encoding (bs : bytes) (i n : Z) : Prop :=
  ∃ first rest, bs = first :: rest ∧ Forall is_byte bs ∧ prefix_len first = n ∧ len bs = n ∧
    be (first `mod` 64 :: rest) = i.

Lemma Parse_encoding bs i n tl :
  encoding bs i n → Forall is_byte tl → Parse (bs ++ tl) = Some (Ok (i, n)).
Proof.
  intros (f & r & -> & Hb & Hp & Hl & <-) Ht.
  rewrite <-app_comm_cons, Parse_spec by (rewrite app_comm_cons; by apply Forall_app).
  rewrite Hp. rewrite len_cons in *. rewrite len_app. pose proof (len_nonneg tl).
  rewrite (proj2 (Z.ltb_ge _ _)) by lia. do 5 f_equal.
  replace (Z.to_nat (n - 1)) with (length r) by (unfold len in *; lia). apply take_app_length.
Qed.

(** A tagged first byte before the [n]-byte tail of [i]. *)
Lemma encoding_tagged i tag (n : nat) :
  0 ≤ i → 0 ≤ i / 256 ^ Z.of_nat n < 64 → 0 ≤ tag < 4 → 2 ^ tag = 1 + Z.of_nat n →
  encoding (Z.lor (u8 (i / 256 ^ Z.of_nat n)) (Z.shiftl tag 6) :: be_bytes n i) i (1 + Z.of_nat n).
Proof.
  intros Hi Hh Ht Hn. destruct (first_byte _ _ Hh Ht) as (E & Ed & Em & Hb). rewrite E.
  eexists _, _. split; [done|]. split_and!.
  - constructor; [done|apply be_bytes_is_byte].
  - unfold prefix_len. by rewrite Ed.
  - rewrite len_cons. unfold len. rewrite be_bytes_length. lia.
  - rewrite be_cons, Em, be_be_bytes_mod by done. unfold len. rewrite be_bytes_length.
    rewrite (Z.div_mod i (256 ^ Z.of_nat n)) at 3 by lia. lia.
Qed.

Lemma div_256_range i n : 0 ≤ i < 64 * 256 ^ Z.of_nat n → 0 ≤ i / 256 ^ Z.of_nat n < 64.
Proof.
  intros Hi. split; [apply Z.div_pos; lia|apply Z.div_lt_upper_bound; lia].
Qed.

Lemma Append_encoding b i :
  0 ≤ i ≤ Max → ∃ bs n, Append b i = Some (b ++ bs) ∧ Len i = Some n ∧ encoding bs i n.
Proof.
  unfold Max, Append, Len. intros Hi.
  destruct (Z.leb_spec i maxVarInt1) as [H1|H1];
    [|destruct (Z.leb_spec i maxVarInt2) as [H2|H2];
    [|destruct (Z.leb_spec i maxVarInt4) as [H4|H4];
    [|destruct (Z.leb_spec i maxVarInt8) as [H8|H8]; [|lia]]]];
    unfold maxVarInt1, maxVarInt2, maxVarInt4, maxVarInt8 in *;
    eexists _, _; (split; [done|]); (split; [done|]).
  - pose proof (encoding_tagged i 0 0 ltac:(lia) (div_256_range i 0 ltac:(simpl; lia)) ltac:(lia) eq_refl) as He.
    change (256 ^ Z.of_nat 0) with 1 in He. rewrite Z.div_1_r in He.
    change (Z.shiftl 0 6) with 0 in He. by rewrite Z.lor_0_r in He.
  - pose proof (encoding_tagged i 1 1 ltac:(lia) (div_256_range i 1 ltac:(simpl; lia)) ltac:(lia) eq_refl) as He.
    rewrite Z.shiftr_div_pow2 by lia. exact He.
  - pose proof (encoding_tagged i 2 3 ltac:(lia) (div_256_range i 3 ltac:(simpl; lia)) ltac:(lia) eq_refl) as He.
    rewrite <-tail_bytes_3 in He. rewrite (Z.shiftr_div_pow2 i 24) by lia. exact He.
  - pose proof (encoding_tagged i 3 7 ltac:(lia) (div_256_range i 7 ltac:(simpl; lia)) ltac:(lia) eq_refl) as He.
    rewrite <-tail_bytes_7 in He. rewrite (Z.shiftr_div_pow2 i 56) by lia. exact He.
Qed.

(** The shifted bytes of the padded encoding. *)
Lemma shifted_bytes i (l : nat) :
  0 ≤ i →
  (λ j, u8 (Z.shiftr i (8 * (Z.of_nat l - 1 - Z.of_nat j)))) <$> seq 0 l = be_bytes l i.
Proof.
  revert i. induction l as [|l IH]; intros i Hi; [done|].
  rewrite seq_S, fmap_app. cbn [be_bytes]. f_equal.
  - rewrite <-IH by (apply Z.div_pos; lia). apply list_fmap_ext. intros k j [-> Hj]%lookup_seq.
    rewrite !Z.shiftr_div_pow2 by lia. unfold wrapU. f_equal. change 256 with (2 ^ 8).
    rewrite Z.div_div by lia. rewrite <-Z.pow_add_r by lia. do 2 f_equal. lia.
  - simpl. do 2 f_equal. unfold wrapU. replace (8 * _) with 0 by lia. by rewrite Z.shiftr_0_r.
Qed.

Lemma be_zeros k l : be (replicate k 0 ++ l) = be l.
Proof. induction k; simpl; [done|]. by rewrite be_cons, IHk. Qed.

Lemma padded_encoding i (l k : nat) tag :
  0 ≤ i < 256 ^ Z.of_nat l → 1 ≤ tag < 4 → 2 ^ tag = Z.of_nat (S (k + l)) →
  encoding (tag * 64 :: replicate k 0 ++ be_bytes l i) i (Z.of_nat (S (k + l))).
Proof.
  intros Hi Ht Hn. eexists _, _. split; [done|].
  destruct (first_byte 0 tag ltac:(lia) ltac:(lia)) as (_ & Ed & Em & Hb).
  rewrite Z.add_0_l in *. split_and!.
  - constructor; [done|]. apply Forall_app.
    split; [apply Forall_replicate; unfold is_byte; lia|apply be_bytes_is_byte].
  - unfold prefix_len. by rewrite Ed.
  - rewrite len_cons, len_app. unfold len. rewrite length_replicate, be_bytes_length. lia.
  - rewrite be_cons, Em, be_zeros. by apply be_be_bytes.
Qed.

(** The encodable lengths. *)
Definition valid_length (n : Z) : Prop := n = 1 ∨ n = 2 ∨ n = 4 ∨ n = 8.

Lemma Len_spec i n : 0 ≤ i → Len i = Some n → valid_length n ∧ i < 256 ^ n.
Proof.
  unfold Len, valid_length, maxVarInt1, maxVarInt2, maxVarInt4, maxVarInt8. intros Hi.
  repeat case_match; intros [= <-]; (split; [tauto|simpl; lia]).
Qed.

Lemma AppendWithLen_encoding b i length n :
  0 ≤ i ≤ Max → valid_length length → Len i = Some n → n ≤ length →
  ∃ bs, AppendWithLen b i length = Some (b ++ bs) ∧ encoding bs i length.
Proof.
  intros Hi Hv Hn Hle. pose proof (Len_spec i n ltac:(lia) Hn) as [Hvn Hlt].
  unfold AppendWithLen. rewrite Hn.
  replace (negb (length =? 1) && _ && _ && _) with false
    by (destruct Hv as [-> | [-> | [-> | ->]]]; done).
  destruct (Z.eqb_spec n length) as [<-|Hne].
  { destruct (Append_encoding b i Hi) as (bs & n' & E & En & He). naive_solver congruence. }
  rewrite Z.gtb_ltb, (proj2 (Z.ltb_ge length n)) by lia.
  set (k := Z.to_nat (length - n - 1)). set (l := Z.to_nat n).
  assert (Z.of_nat l = n) as El by (unfold valid_length in Hvn; lia). rewrite <-El.
  rewrite shifted_bytes by lia. eexists. rewrite <-!app_assoc. split; [done|].
  assert (∃ tag, lenPrefix length = [tag * 64] ∧ 1 ≤ tag < 4 ∧ 2 ^ tag = length) as (tag & Ep & Ht & Etag).
  { unfold valid_length in *. destruct Hv as [-> | [-> | [-> | ->]]];
      [lia|exists 1|exists 2|exists 3]; split_and!; done. }
  rewrite Ep. assert (Z.of_nat (S (k + l)) = length) as Es by (unfold k, l, valid_length in *; lia).
  rewrite <-Es. apply padded_encoding; [rewrite El; lia|done|lia].
Qed.

(** ** Properties *)

(** The two readers agree on every byte string: the streaming [Read]
    returns the value [Parse] returns and leaves what [Parse] does not consume,
    and it fails exactly when [Parse] does; [Parse] never panics. *)
Theorem quic_varint_read_agrees (b : bytes) (Hb : Forall is_byte b) :
  match Parse b with
  | Some (Ok (v, n)) => Read b = Ok (v, drop (Z.to_nat n) b) ∧ 1 ≤ n ≤ len b
  | Some (Err _) => Read b = Err EOF
  | None => False
  end.
Proof.
  destruct b as [|f r]; [done|]. rewrite Parse_spec, Read_spec by done.
  destruct (Z.ltb_spec (len (f :: r)) (prefix_len f)) as [|Hl]; [done|].
  apply Forall_cons in Hb as [Hf _]. unfold prefix_len in *.
  assert (1 ≤ 2 ^ (f / 64)) by (destruct (byte_tag f Hf) as [-> | [-> | [-> | ->]]]; lia).
  split; [|done]. replace (Z.to_nat (2 ^ (f / 64))) with (S (Z.to_nat (2 ^ (f / 64) - 1))) by lia.
  done.
Qed.

(** C15: Every value up to [Max] is appended in [Len] bytes, and both readers get
    it back from the result, whatever follows: Parse gives the value and that
    length, Read the value and the bytes that follow. *)
Theorem quic_varint_roundtrip (b : bytes) (i : Z) (rest : bytes)
    (Hi : 0 ≤ i ≤ Max) (Hr : Forall is_byte rest) :
  ∃ bs n, Append b i = Some (b ++ bs) ∧ Len i = Some n ∧ len bs = n ∧
    Parse (bs ++ rest) = Some (Ok (i, n)) ∧ Read (bs ++ rest) = Ok (i, rest).
Proof.
  destruct (Append_encoding b i Hi) as (bs & n & Ha & Hn & He).
  pose proof (Parse_encoding _ _ _ rest He Hr) as Hp.
  destruct He as (f & r & _ & Hb & _ & Hl & _).
  exists bs, n. split_and!; [done..|]. pose proof (quic_varint_read_agrees (bs ++ rest)) as H.
  rewrite Hp in H. destruct H as [-> _]; [by apply Forall_app|].
  do 2 f_equal. by rewrite drop_app_length' by (unfold len in Hl; lia).
Qed.

Lemma quic_varint_roundtrip_witness :
  ∃ bs n, Append [] 15293 = Some ([] ++ bs) ∧ Len 15293 = Some n ∧ len bs = n ∧
    Parse (bs ++ [7]) = Some (Ok (15293, n)) ∧ Read (bs ++ [7]) = Ok (15293, [7]).
Proof.
  apply (quic_varint_roundtrip [] 15293 [7]); [vm_compute; by split|by_decision].
Defined.

(** A value padded to a longer length takes exactly that many bytes and
    reads back as the same value. *)
Theorem quic_varint_padding (b : bytes) (i length n : Z) (rest : bytes)
    (Hi : 0 ≤ i ≤ Max) (Hv : valid_length length) (Hn : Len i = Some n) (Hle : n ≤ length)
    (Hr : Forall is_byte rest) :
  ∃ bs, AppendWithLen b i length = Some (b ++ bs) ∧ len bs = length ∧
    Parse (bs ++ rest) = Some (Ok (i, length)).
Proof.
  destruct (AppendWithLen_encoding b i length n Hi Hv Hn Hle) as (bs & Ha & He).
  exists bs. split_and!; [done| |by apply Parse_encoding].
  by destruct He as (? & ? & _ & _ & _ & ? & _).
Qed.

Lemma quic_varint_padding_witness :
  ∃ bs, AppendWithLen [] 37 8 = Some ([] ++ bs) ∧ len bs = 8 ∧
    Parse (bs ++ [7]) = Some (Ok (37, 8)).
Proof.
  apply (quic_varint_padding [] 37 8 1 [7]);
    [vm_compute; by split|unfold valid_length; tauto|reflexivity|lia|by_decision].
Defined.

Lemma quic_varint_read_agrees_witness : Read [0x40; 0x25; 9] = Ok (37, [9]).
Proof. exact (proj1 (quic_varint_read_agrees [0x40; 0x25; 9] ltac:(by_decision))). Defined.
