(* ===== verification/RingBuffer.v ===== *)
(** * The queue internal/utils/ringbuffer/ringbuffer.go

    A slice is its backing storage and its length; [make] and [clear] fill with
    the zero value of the element type, [inhabitant].  A panic is [None]. *)

From S2P Require Import Prelude.

#[local] Open Scope nat_scope.

(** Go's [copy(dst, src)]: the destination afterwards. *)
Definition copy_slice {T} (dst src : list T) : list T :=
  take (length dst) src ++ drop (length src) dst.

Section ringbuffer.
Context {T : Type} `{!Inhabited T}.

(** [rb_store] is [r.ring[:cap(r.ring)]], [rb_len] is [len(r.ring)]. *)
Record RingBuffer := MkRingBuffer { rb_store : list T; rb_len : nat; rb_headPos : nat }.

Definition rb_cap (r : RingBuffer) : nat := length (rb_store r).
Definition NewRingBuffer : RingBuffer := MkRingBuffer [] 0 0.

Definition RingBuffer_Init (size : nat) : RingBuffer := MkRingBuffer (replicate size inhabitant) 0 0.
Definition RingBuffer_Len (r : RingBuffer) : nat := rb_len r.
Definition RingBuffer_Empty (r : RingBuffer) : bool := rb_len r =? 0.

Definition RingBuffer_grow (r : RingBuffer) : option RingBuffer :=
  let oldRing := take (rb_len r) (rb_store r) in
  let newSize := rb_cap r * 2 in
  let newSize := if newSize =? 0 then 1 else newSize in
  if (rb_len r <=? newSize) && (rb_headPos r <=? rb_len r) then
    let newRing := replicate (rb_len r) inhabitant in
    let head := drop (rb_headPos r) oldRing in
    let headLen := min (length newRing) (length head) in
    let newRing := copy_slice newRing head in
    let newRing := take headLen newRing ++
                   copy_slice (drop headLen newRing) (take (rb_headPos r) oldRing) in
    Some (MkRingBuffer (newRing ++ replicate (newSize - rb_len r) inhabitant) (rb_len r) 0)
  else None.

Definition RingBuffer_PushBack (r : RingBuffer) (t : T) : option RingBuffer :=
  r ← (if rb_len r =? rb_cap r then RingBuffer_grow r else Some r);
  let tailPos := rb_headPos r + rb_len r in
  let tailPos := if rb_cap r <=? tailPos then tailPos - rb_cap r else tailPos in
  if (rb_len r + 1 <=? rb_cap r) && (tailPos <? rb_cap r) then
    Some (MkRingBuffer (<[tailPos := t]> (rb_store r)) (rb_len r + 1) (rb_headPos r))
  else None.

Definition RingBuffer_PopFront (r : RingBuffer) : option (T * RingBuffer) :=
  if RingBuffer_Empty r then None
  else
    let l := rb_len r - 1 in
    t ← rb_store r !! rb_headPos r;
    let store := <[rb_headPos r := inhabitant]> (rb_store r) in
    let headPos := rb_headPos r + 1 in
    let headPos := if headPos =? rb_cap r then 0 else headPos in
    Some (t, MkRingBuffer store l headPos).

Definition RingBuffer_PeekFront (r : RingBuffer) : option T :=
  if RingBuffer_Empty r then None else rb_store r !! rb_headPos r.

Definition RingBuffer_Clear (r : RingBuffer) : RingBuffer :=
  MkRingBuffer (replicate (rb_cap r) inhabitant) 0 0.

(** ** The queue it stands for *)

Definition ring_ok (r : RingBuffer) : Prop :=
  rb_len r ≤ rb_cap r ∧ (rb_headPos r < rb_cap r ∨ rb_headPos r = 0).

(** The storage read from the head position around. *)
Definition rotated (r : RingBuffer) : list T :=
  drop (rb_headPos r) (rb_store r) ++ take (rb_headPos r) (rb_store r).
Definition contents (r : RingBuffer) : list T := take (rb_len r) (rotated r).

Lemma rotated_length r : length (rotated r) = rb_cap r.
Proof. unfold rotated, rb_cap. rewrite length_app, length_drop, length_take. lia. Qed.

Lemma contents_length r : ring_ok r → length (contents r) = rb_len r.
Proof. intros [? _]. unfold contents. rewrite length_take, rotated_length. lia. Qed.

Lemma ring_ok_new : ring_ok NewRingBuffer ∧ contents NewRingBuffer = [].
Proof. unfold ring_ok. cbn. auto with lia. Qed.

Lemma RingBuffer_Init_spec size : ring_ok (RingBuffer_Init size) ∧ contents (RingBuffer_Init size) = [].
Proof. unfold ring_ok. cbn. auto with lia. Qed.

Lemma RingBuffer_Clear_spec r : ring_ok (RingBuffer_Clear r) ∧ contents (RingBuffer_Clear r) = [].
Proof. unfold ring_ok. cbn. auto with lia. Qed.

Lemma RingBuffer_Empty_spec r : ring_ok r → RingBuffer_Empty r = bool_decide (contents r = []).
Proof.
  intros Hok. pose proof (contents_length r Hok) as Hl. unfold RingBuffer_Empty.
  destruct (Nat.eqb_spec (rb_len r) 0) as [H0|H0]; case_bool_decide as Hc; try done; exfalso.
  - apply Hc, nil_length_inv. lia.
  - rewrite Hc in Hl. cbn in Hl. lia.
Qed.

(** Growing keeps the queue, with room for another element. *)
Lemma RingBuffer_grow_spec r :
  ring_ok r → rb_len r = rb_cap r →
  ∃ r', RingBuffer_grow r = Some r' ∧ ring_ok r' ∧ contents r' = contents r ∧ rb_len r' = rb_len r ∧
    rb_len r' < rb_cap r'.
Proof.
  intros [Hlen Hhead] Hfull. unfold RingBuffer_grow.
  assert (rb_headPos r ≤ rb_cap r) as Hh by (destruct Hhead; lia).
  set (newSize := if (rb_cap r * 2 =? 0) then 1 else rb_cap r * 2).
  assert (rb_len r < newSize) as Hs by (subst newSize; destruct (Nat.eqb_spec (rb_cap r * 2) 0); lia).
  rewrite (proj2 (Nat.leb_le _ _)), (proj2 (Nat.leb_le (rb_headPos r) _)) by lia. cbn [andb].
  set (new := take _ _ ++ copy_slice _ _).
  assert (new = rotated r) as Hnew.
  { subst new. unfold copy_slice, rotated. rewrite Hfull. unfold rb_cap in *.
    rewrite (take_ge (rb_store r)) by lia. rewrite !length_replicate, !length_drop.
    rewrite Nat.min_r, drop_replicate by lia.
    rewrite (take_ge (drop _ _)) by (rewrite length_drop; lia).
    rewrite take_app_length' , drop_app_length' by (rewrite length_drop; lia). f_equal.
    rewrite length_app, length_replicate, drop_replicate, length_drop, length_take.
    rewrite (take_ge (take _ _)) by (rewrite length_take; lia).
    replace (_ - _ - _) with 0 by lia. apply app_nil_r. }
  rewrite Hnew. eexists. split; [done|].
  assert (rb_cap (MkRingBuffer (rotated r ++ replicate (newSize - rb_len r) inhabitant) (rb_len r) 0) = newSize) as Hc
    by (unfold rb_cap; cbn; rewrite length_app, length_replicate, rotated_length; lia).
  unfold ring_ok. rewrite !Hc. cbn. split_and!; [lia|lia| |done|lia].
  change (take (rb_len r) (rotated (MkRingBuffer (rotated r ++ replicate (newSize - rb_len r) inhabitant) (rb_len r) 0)) = contents r).
  unfold rotated at 1. cbn [rb_headPos rb_store]. rewrite drop_0, take_0, app_nil_r.
  rewrite take_app_le by (rewrite rotated_length; lia). done.
Qed.

(** Writing behind the last element. *)
Lemma push_room r t :
  ring_ok r → rb_len r < rb_cap r →
  let tailPos := rb_headPos r + rb_len r in
  let tailPos := if rb_cap r <=? tailPos then tailPos - rb_cap r else tailPos in
  let r' := MkRingBuffer (<[tailPos := t]> (rb_store r)) (rb_len r + 1) (rb_headPos r) in
  tailPos < rb_cap r ∧ ring_ok r' ∧ contents r' = contents r ++ [t].
Proof.
  intros [Hlen Hhead] Hroom tail0 tailPos r'. subst tail0.
  assert (tailPos < rb_cap r) as Ht
    by (subst tailPos; destruct (Nat.leb_spec (rb_cap r) (rb_headPos r + rb_len r)); lia).
  assert (rotated r' = <[rb_len r := t]> (rotated r)) as Hrot.
  { unfold rotated, r', rb_cap in *. cbn. subst tailPos.
    destruct (Nat.leb_spec (length (rb_store r)) (rb_headPos r + rb_len r)).
    - rewrite drop_insert_lt, take_insert_lt by lia.
      rewrite insert_app_r_alt by (rewrite length_drop; lia). rewrite length_drop. do 2 f_equal. lia.
    - rewrite drop_insert_ge, take_insert_ge by lia.
      rewrite insert_app_l by (rewrite length_drop; lia). do 2 f_equal. lia. }
  split; [done|]. split.
  { unfold ring_ok, r', rb_cap in *. cbn. rewrite length_insert. lia. }
  unfold contents. rewrite Hrot. cbn. rewrite Nat.add_1_r, (take_S_r _ _ t).
  - by rewrite take_insert_ge.
  - apply list_lookup_insert_eq. rewrite rotated_length. lia.
Qed.

Lemma RingBuffer_PushBack_spec r t :
  ring_ok r → ∃ r', RingBuffer_PushBack r t = Some r' ∧ ring_ok r' ∧ contents r' = contents r ++ [t].
Proof.
  intros Hok. unfold RingBuffer_PushBack.
  assert (∃ r1, (if rb_len r =? rb_cap r then RingBuffer_grow r else Some r) = Some r1 ∧ ring_ok r1 ∧
    contents r1 = contents r ∧ rb_len r1 < rb_cap r1) as (r1 & -> & Hok1 & <- & Hroom).
  { destruct (Nat.eqb_spec (rb_len r) (rb_cap r)) as [E|E].
    - destruct (RingBuffer_grow_spec r Hok E) as (r1 & ? & ? & ? & ? & ?). exists r1. auto.
    - exists r. pose proof (proj1 Hok). split_and!; [done|done|done|lia]. }
  cbn [mbind option_bind]. cbv zeta in *. destruct (push_room r1 t Hok1 Hroom) as (Ht & Hok' & Hc).
  rewrite (proj2 (Nat.leb_le _ _)), (proj2 (Nat.ltb_lt _ _)) by (exact Ht || lia). eauto.
Qed.

Lemma head_lookup r : ring_ok r → rb_store r !! rb_headPos r = rotated r !! 0.
Proof.
  intros [_ Hhead]. unfold rotated, rb_cap in *. destruct Hhead as [H|H].
  - rewrite lookup_app_l by (rewrite length_drop; lia). rewrite lookup_drop. f_equal. lia.
  - by rewrite H, drop_0, take_0, app_nil_r.
Qed.

Lemma contents_cons r x xs :
  ring_ok r → contents r = x :: xs → RingBuffer_Empty r = false ∧ rb_store r !! rb_headPos r = Some x.
Proof.
  intros Hok Hc. split; [by rewrite RingBuffer_Empty_spec, Hc|]. rewrite head_lookup by done.
  apply (f_equal (.!! 0)) in Hc. unfold contents in Hc. rewrite lookup_take in Hc. by case_decide.
Qed.

Lemma RingBuffer_PeekFront_spec r : ring_ok r → RingBuffer_PeekFront r = head (contents r).
Proof.
  intros Hok. unfold RingBuffer_PeekFront. destruct (contents r) as [|x xs] eqn:Hc.
  - by rewrite RingBuffer_Empty_spec, Hc.
  - destruct (contents_cons r x xs Hok Hc) as [-> ->]. done.
Qed.

Lemma RingBuffer_PopFront_spec r :
  ring_ok r →
  match contents r with
  | [] => RingBuffer_PopFront r = None
  | x :: xs => ∃ r', RingBuffer_PopFront r = Some (x, r') ∧ ring_ok r' ∧ contents r' = xs
  end.
Proof.
  intros Hok. unfold RingBuffer_PopFront. destruct (contents r) as [|x xs] eqn:Hc.
  { by rewrite RingBuffer_Empty_spec, Hc. }
  destruct (contents_cons r x xs Hok Hc) as [-> Hx]. rewrite Hx. cbn. eexists. split; [done|].
  pose proof (contents_length r Hok) as Hl. rewrite Hc in Hl. cbn in Hl.
  destruct Hok as [Hlen Hhead]. pose proof (lookup_lt_Some _ _ _ Hx) as Hcap.
  assert (∀ l h, ring_ok (MkRingBuffer (<[rb_headPos r := inhabitant]> (rb_store r)) l h) ↔
    l ≤ rb_cap r ∧ (h < rb_cap r ∨ h = 0)) as Hiff.
  { intros l h. unfold ring_ok, rb_cap. cbn. by rewrite length_insert. }
  split. { apply Hiff. unfold rb_cap in *. destruct (Nat.eqb_spec (rb_headPos r + 1) (length (rb_store r))); lia. }
  unfold contents in *. cbn.
  assert (drop (rb_headPos r) (rb_store r) = x :: drop (S (rb_headPos r)) (rb_store r)) as Hd
    by by apply drop_S.
  unfold rotated in Hc. rewrite Hd, <-Hl in Hc. cbn in Hc. injection Hc as Hc.
  rewrite <-Hl. cbn. rewrite Nat.sub_0_r. rewrite <-Hc at 2. unfold rotated, rb_cap. cbn.
  destruct (Nat.eqb_spec (rb_headPos r + 1) (length (rb_store r))) as [E|E].
  - rewrite (drop_ge (rb_store r)) by lia. cbn. rewrite app_nil_r.
    assert (length xs ≤ rb_headPos r) by (unfold rb_cap in *; lia).
    rewrite take_take, Nat.min_l by lia. by rewrite drop_0, take_insert_ge.
  - rewrite Nat.add_1_r, drop_insert_lt by lia.
    assert (length xs ≤ length (drop (S (rb_headPos r)) (rb_store r) ++ take (rb_headPos r) (rb_store r))).
    { rewrite length_app, length_drop, length_take. unfold rb_cap in *. lia. }
    rewrite (take_S_r _ _ inhabitant) by (by apply list_lookup_insert_eq).
    rewrite take_insert_ge by lia. rewrite app_assoc, take_app_le by done. done.
Qed.
End ringbuffer.
Arguments RingBuffer T : clear implicits.

(** ** Runs of operations

    What a client sees of a run: the results of the operations, [None] for the
    panic of an operation on an empty buffer, which ends the run. *)
Inductive RingOp (T : Type) := RPush (t : T) | RPop | RPeek | RLen | RClear.
Arguments RPush {T}.
Arguments RPop {T}.
Arguments RPeek {T}.
Arguments RLen {T}.
Arguments RClear {T}.

Inductive RingResult (T : Type) := RDone | RValue (t : T) | RCount (n : nat).
Arguments RDone {T}.
Arguments RValue {T}.
Arguments RCount {T}.

Fixpoint ring_run {T} `{!Inhabited T} (ops : list (RingOp T)) (r : RingBuffer T) : list (option (RingResult T)) :=
  match ops with
  | [] => []
  | op :: ops =>
      match op with
      | RPush t =>
          match RingBuffer_PushBack r t with
          | Some r => Some RDone :: ring_run ops r
          | None => [None]
          end
      | RPop =>
          match RingBuffer_PopFront r with
          | Some (t, r) => Some (RValue t) :: ring_run ops r
          | None => [None]
          end
      | RPeek =>
          match RingBuffer_PeekFront r with
          | Some t => Some (RValue t) :: ring_run ops r
          | None => [None]
          end
      | RLen => Some (RCount (RingBuffer_Len r)) :: ring_run ops r
      | RClear => Some RDone :: ring_run ops (RingBuffer_Clear r)
      end
  end.

(** The same run on a plain list. *)
Fixpoint queue_run {T} (ops : list (RingOp T)) (q : list T) : list (option (RingResult T)) :=
  match ops with
  | [] => []
  | op :: ops =>
      match op, q with
      | RPush t, _ => Some RDone :: queue_run ops (q ++ [t])
      | RPop, t :: q => Some (RValue t) :: queue_run ops q
      | RPeek, t :: _ => Some (RValue t) :: queue_run ops q
      | (RPop | RPeek), [] => [None]
      | RLen, _ => Some (RCount (length q)) :: queue_run ops q
      | RClear, _ => Some RDone :: queue_run ops []
      end
  end.

Lemma ring_run_queue {T} `{!Inhabited T} (ops : list (RingOp T)) r :
  ring_ok r → ring_run ops r = queue_run ops (contents r).
Proof.
  revert r. induction ops as [|[t| | | |] ops IH]; intros r Hok; cbn [ring_run queue_run]; [done|..].
  - destruct (RingBuffer_PushBack_spec r t Hok) as (r' & -> & Hok' & <-). by rewrite IH.
  - pose proof (RingBuffer_PopFront_spec r Hok) as Hp. destruct (contents r); [by rewrite Hp|].
    destruct Hp as (r' & -> & Hok' & <-). by rewrite IH.
  - rewrite RingBuffer_PeekFront_spec by done. destruct (contents r) eqn:Hc; [done|]. cbn. by rewrite IH, Hc.
  - unfold RingBuffer_Len. by rewrite IH, contents_length.
  - destruct (RingBuffer_Clear_spec r) as [Hok' Hc]. by rewrite IH, Hc.
Qed.

(** C27: The ring buffer is a queue: whatever sequence of operations runs on a buffer
    made with any initial size, growing and wrapping around, each operation returns
    what it would return on a list, and panics exactly on an empty one. *)
Theorem ring_buffer_is_fifo {T} `{!Inhabited T} (ops : list (RingOp T)) (size : nat) :
  ring_run ops (RingBuffer_Init size) = queue_run ops [] ∧
  ring_run ops NewRingBuffer = queue_run ops [].
Proof.
  destruct (RingBuffer_Init_spec (T:=T) size) as [Hi Hci]. destruct (ring_ok_new (T:=T)) as [Hn Hcn].
  by rewrite !ring_run_queue, Hci, Hcn.
Qed.
