(* ===== verification/MinHeap.v ===== *)
(** * The priority queue internal/utils/minheap/minheap.go

    A binary heap in a slice, ordered by key.  Indexing out of range is [None].
    [up] walks towards the root and [down] away from it, so the length of the
    heap is enough fuel for either. *)

From S2P Require Import Prelude GoMonad GoRand.

#[local] Open Scope nat_scope.

Section minheap.
Context {V : Type}.
Implicit Types (h : list (Z * V)) (i j k : nat).

(** [Heap[K, V]], a slice of entries. *)
Notation Heap := (list (Z * V)).

Definition Heap_Len (h : Heap) : nat := length h.
Definition Heap_Empty (h : Heap) : bool := length h =? 0.
Definition Heap_Peek (h : Heap) : option (Z * V) := h !! 0.

Fixpoint heap_up (fuel : nat) (h : Heap) (i : nat) : option Heap :=
  match fuel with
  | O => None
  | S fuel =>
      if i =? 0 then Some h
      else
        let parent := (i - 1) / 2 in
        p ← h !! parent;
        c ← h !! i;
        if (p.1 <=? c.1)%Z then Some h else heap_up fuel (swap parent i h) parent
  end.

Fixpoint heap_down (fuel : nat) (h : Heap) (i : nat) : option Heap :=
  match fuel with
  | O => None
  | S fuel =>
      let child := 2 * i + 1 in
      if length h <=? child then Some h
      else
        c ← h !! child;
        let child :=
          match h !! (child + 1) with
          | Some r => if (r.1 <? c.1)%Z then child + 1 else child
          | None => child
          end in
        c ← h !! child;
        x ← h !! i;
        if (x.1 <=? c.1)%Z then Some h else heap_down fuel (swap i child h) child
  end.

Definition Heap_Push (h : Heap) (key : Z) (value : V) : option Heap :=
  let h := h ++ [(key, value)] in
  heap_up (S (length h)) h (length h - 1).

Definition Heap_Pop (h : Heap) : option (Z * V * Heap) :=
  let last := length h - 1 in
  v ← h !! 0;
  l ← h !! last;
  let values := take last (<[0 := l]> h) in
  values ← (if 0 <? last then heap_down (S (length values)) values 0 else Some values);
  Some (v, values).

Definition Heap_Clear (h : Heap) : Heap := [].

(** ** The heap property *)

(** [le_at h i j]: the key at [i] is at most the key at [j]. *)
Definition le_at (h : Heap) (i j : nat) : Prop :=
  ∀ x y, h !! i = Some x → h !! j = Some y → (x.1 ≤ y.1)%Z.

(** Every entry is at least its parent, except possibly around [hole]. *)
Definition heap_except (hole : nat → Prop) (h : Heap) : Prop :=
  ∀ j, 0 < j → ¬ hole j → le_at h ((j - 1) / 2) j.
Definition is_heap (h : Heap) : Prop := heap_except (λ _, False) h.

Lemma parent_lt j : 0 < j → (j - 1) / 2 < j.
Proof. intros. apply Nat.Div0.div_lt_upper_bound. lia. Qed.

Lemma parent_inv i j : 0 < j → (j - 1) / 2 = i → j = 2 * i + 1 ∨ j = 2 * i + 2.
Proof. intros ? <-. pose proof (Nat.div_mod (j - 1) 2 ltac:(lia)). pose proof (Nat.mod_upper_bound (j - 1) 2). lia. Qed.

Lemma parent_left i : (2 * i + 1 - 1) / 2 = i.
Proof. rewrite Nat.add_sub, Nat.mul_comm. by apply Nat.div_mul. Qed.
Lemma parent_right i : (2 * i + 2 - 1) / 2 = i.
Proof. replace (2 * i + 2 - 1) with (1 + i * 2) by lia. by rewrite Nat.div_add. Qed.

(** The root is minimal. *)
Lemma heap_root h j : is_heap h → le_at h 0 j.
Proof.
  intros Hh. induction j as [j IH] using lt_wf_ind. intros x y Hx Hy.
  destruct (decide (j = 0)) as [->|Hj]; [by simplify_eq|].
  pose proof (parent_lt j ltac:(lia)) as Hp.
  destruct (lookup_lt_is_Some_2 h ((j - 1) / 2)) as [p Hp'].
  { apply lookup_lt_Some in Hy. lia. }
  etrans; [by eapply (IH _ Hp)|]. by eapply (Hh j); [lia|auto|..].
Qed.

Lemma swap_lookup {A} (l : list A) i j x y k :
  l !! i = Some x → l !! j = Some y → i ≠ j →
  swap i j l !! k = if decide (k = i) then Some y else if decide (k = j) then Some x else l !! k.
Proof.
  intros Hx Hy Hij. unfold swap. rewrite Hx, Hy.
  pose proof (lookup_lt_Some _ _ _ Hx). pose proof (lookup_lt_Some _ _ _ Hy).
  destruct (decide (k = i)) as [->|].
  - rewrite list_lookup_insert_ne by done. apply list_lookup_insert_eq. lia.
  - destruct (decide (k = j)) as [->|].
    + apply list_lookup_insert_eq. by rewrite length_insert.
    + by rewrite !list_lookup_insert_ne.
Qed.

Lemma swap_length {A} (l : list A) i j : length (swap i j l) = length l.
Proof. apply Permutation_length, swap_Permutation. Qed.

(** Only [i] may be smaller than its parent, and the parent is below [i]'s children. *)
Definition up_inv (h : Heap) (i : nat) : Prop :=
  heap_except (eq i) h ∧
  ∀ j, 0 < i → 0 < j → (j - 1) / 2 = i → le_at h ((i - 1) / 2) j.

Lemma heap_up_spec fuel h i :
  i < length h → i < fuel → up_inv h i →
  ∃ h', heap_up fuel h i = Some h' ∧ is_heap h' ∧ h' ≡ₚ h.
Proof.
  revert h i. induction fuel as [|fuel IH]; intros h i Hi Hf [Hheap Hchild]; [lia|]. cbn [heap_up].
  destruct (Nat.eqb_spec i 0) as [->|Hi0].
  { exists h. split_and!; [done| |done]. intros j Hj _. apply Hheap; [done|lia]. }
  pose proof (parent_lt i ltac:(lia)) as Hp. set (p := (i - 1) / 2) in *.
  destruct (lookup_lt_is_Some_2 h p) as [x Hx]; [lia|].
  destruct (lookup_lt_is_Some_2 h i Hi) as [y Hy]. cbv zeta.
  fold p. rewrite Hx. cbn [mbind option_bind]. rewrite Hy. cbn [mbind option_bind].
  destruct (Z.leb_spec x.1 y.1) as [Hle|Hgt].
  { exists h. split_and!; [done| |done]. intros j Hj _. destruct (decide (i = j)) as [<-|Hne].
    - intros x' y' Hx' Hy'. fold p in Hx'. by simplify_eq.
    - by apply Hheap. }
  destruct (IH (swap p i h) p) as (h' & -> & Hh' & Hperm); [rewrite swap_length; lia|lia| |].
  2: { exists h'. split_and!; [done|done|]. by rewrite Hperm, swap_Permutation. }
  assert (∀ k, swap p i h !! k = if decide (k = p) then Some y else if decide (k = i) then Some x else h !! k)
    as Hsw by (intros k; apply swap_lookup; [done|done|lia]).
  split.
  - intros j Hj Hjp a b Ha Hb. rewrite Hsw in Ha, Hb. fold p in Ha, Hb.
    destruct (decide (j = p)); [lia|]. destruct (decide (j = i)) as [->|Hji].
    + fold p in Ha. rewrite decide_True in Ha by done. simplify_eq. lia.
    + destruct (decide ((j - 1) / 2 = p)) as [Hpj|].
      * simplify_eq. etrans; [|eapply (Hheap j); [lia|done|by rewrite Hpj|done]]. lia.
      * destruct (decide ((j - 1) / 2 = i)) as [Hij|].
        -- simplify_eq. eapply (Hchild j); [lia|done|done|done|done].
        -- by eapply (Hheap j).
  - intros j Hp0 Hj Hjp a b Ha Hb. rewrite Hsw in Ha, Hb.
    pose proof (parent_lt p Hp0). rewrite decide_False, decide_False in Ha by lia.
    assert (a.1 ≤ x.1)%Z as Hax by (eapply (Hheap p); [lia|lia|done|done]).
    pose proof (parent_lt j Hj). destruct (decide (j = p)); [lia|]. destruct (decide (j = i)); [by simplify_eq|].
    etrans; [done|]. eapply (Hheap j); [lia|done|by rewrite Hjp|done].
Qed.

Lemma Heap_Push_spec h key value :
  is_heap h → ∃ h', Heap_Push h key value = Some h' ∧ is_heap h' ∧ h' ≡ₚ (key, value) :: h.
Proof.
  intros Hh. unfold Heap_Push. rewrite length_app. cbn [length].
  destruct (heap_up_spec (S (length h + 1)) (h ++ [(key, value)]) (length h + 1 - 1)) as (h' & -> & ? & Hp).
  - rewrite length_app. cbn. lia.
  - lia.
  - replace (length h + 1 - 1) with (length h) by lia. split.
    + intros j Hj Hne x y Hx Hy. pose proof (lookup_lt_Some _ _ _ Hy) as Hl.
      rewrite length_app in Hl. cbn in Hl. pose proof (parent_lt j Hj).
      rewrite lookup_app_l in Hx, Hy by lia. by eapply (Hh j); [|auto|..].
    + intros j _ Hj Hpj x y Hx Hy. pose proof (parent_lt j Hj).
      apply lookup_lt_Some in Hy. rewrite length_app in Hy. cbn in Hy. lia.
  - exists h'. split_and!; [done|done|]. rewrite Hp. symmetry. apply Permutation_cons_append.
Qed.

(** Only the children of [i] may be smaller than their parent. *)
Definition down_inv (h : Heap) (i : nat) : Prop :=
  heap_except (λ j, (j - 1) / 2 = i) h ∧
  ∀ j, 0 < i → 0 < j → (j - 1) / 2 = i → le_at h ((i - 1) / 2) j.

(** The child that [down] looks at: the smaller one. *)
Lemma smaller_child h i c :
  h !! (2 * i + 1) = Some c →
  let child := match h !! (2 * i + 1 + 1) with
               | Some r => if (r.1 <? c.1)%Z then 2 * i + 1 + 1 else 2 * i + 1
               | None => 2 * i + 1
               end in
  child < length h ∧ i < child ∧ (child - 1) / 2 = i ∧
  ∀ j, 0 < j → (j - 1) / 2 = i → le_at h child j.
Proof.
  intros Hc child. pose proof (lookup_lt_Some _ _ _ Hc) as Hl.
  assert (2 * i + 1 + 1 = 2 * i + 2) as E2 by lia.
  assert (child = 2 * i + 1 ∨ (child = 2 * i + 2 ∧ is_Some (h !! (2 * i + 2)))) as Hch.
  { subst child. rewrite E2. destruct (h !! (2 * i + 2)) as [r|]; [|auto]. destruct (_ <? _)%Z; eauto. }
  split_and!.
  - destruct Hch as [->|[-> [? H]]]; [done|by apply lookup_lt_Some in H].
  - lia.
  - destruct Hch as [->|[-> _]]; [apply parent_left|apply parent_right].
  - intros j Hj Hp x y Hx Hy. subst child. rewrite E2 in Hx.
    destruct (parent_inv i j Hj Hp) as [-> | ->].
    + destruct (h !! (2 * i + 2)) as [r|] eqn:Hr; [|by simplify_eq].
      destruct (Z.ltb_spec r.1 c.1); simplify_eq; lia.
    + rewrite Hy in Hx. destruct (Z.ltb_spec y.1 c.1); simplify_eq; lia.
Qed.

Lemma heap_down_spec fuel h i :
  i < length h → length h - i < fuel → down_inv h i →
  ∃ h', heap_down fuel h i = Some h' ∧ is_heap h' ∧ h' ≡ₚ h.
Proof.
  revert h i. induction fuel as [|fuel IH]; intros h i Hi Hf [Hheap Hchild]; [lia|]. cbn [heap_down].
  destruct (Nat.leb_spec (length h) (2 * i + 1)) as [Hleaf|Hin].
  { exists h. split_and!; [done| |done]. intros j Hj _ x y Hx Hy.
    destruct (decide ((j - 1) / 2 = i)) as [Hp|]; [|by eapply (Hheap j)].
    apply lookup_lt_Some in Hy. destruct (parent_inv i j Hj Hp); lia. }
  destruct (lookup_lt_is_Some_2 h _ Hin) as [c Hc]. rewrite Hc. cbn [mbind option_bind].
  destruct (smaller_child h i c Hc) as (Hcl & Hic & Hpc & Hmin).
  set (child := match h !! (2 * i + 1 + 1) with Some _ => _ | None => _ end) in *. clearbody child.
  destruct (lookup_lt_is_Some_2 h child Hcl) as [y Hy]. destruct (lookup_lt_is_Some_2 h i Hi) as [x Hx].
  rewrite Hy. cbn [mbind option_bind]. rewrite Hx. cbn [mbind option_bind].
  destruct (Z.leb_spec x.1 y.1) as [Hle|Hgt].
  { exists h. split_and!; [done| |done]. intros j Hj _ a b Ha Hb.
    destruct (decide ((j - 1) / 2 = i)) as [Hp|]; [|by eapply (Hheap j)].
    rewrite Hp in Ha. simplify_eq. etrans; [done|]. by eapply (Hmin j). }
  destruct (IH (swap i child h) child) as (h' & -> & Hh' & Hperm); [by rewrite swap_length|rewrite swap_length; lia| |].
  2: { exists h'. split_and!; [done|done|]. by rewrite Hperm, swap_Permutation. }
  assert (∀ k, swap i child h !! k = if decide (k = i) then Some y else if decide (k = child) then Some x else h !! k)
    as Hsw by (intros k; apply swap_lookup; [done|done|lia]).
  split.
  - intros j Hj Hjp a b Ha Hb. rewrite Hsw in Ha, Hb. rewrite (decide_False (P:=_ = child)) in Ha by done.
    destruct (decide ((j - 1) / 2 = i)) as [Hpj|Hpj].
    + destruct (decide (j = i)) as [->|]; [pose proof (parent_lt i Hj); lia|].
      destruct (decide (j = child)); simplify_eq; [lia|]. by eapply (Hmin j).
    + destruct (decide (j = i)) as [->|].
      * simplify_eq. by eapply (Hchild child); [lia|lia|..].
      * destruct (decide (j = child)); [congruence|]. by eapply (Hheap j).
  - intros j Hc0 Hj Hjp a b Ha Hb. rewrite Hsw in Ha, Hb. rewrite Hpc, decide_True in Ha by done.
    simplify_eq. pose proof (parent_lt j Hj).
    rewrite decide_False, decide_False in Hb by lia.
    eapply (Hheap j); [lia| |done|done]. lia.
Qed.

Lemma Heap_Peek_spec h x y : is_heap h → Heap_Peek h = Some x → y ∈ h → (x.1 ≤ y.1)%Z.
Proof. intros Hh Hx [j Hj]%list_elem_of_lookup. by eapply heap_root. Qed.

Lemma Heap_Pop_spec h :
  is_heap h → h ≠ [] →
  ∃ v h', Heap_Pop h = Some (v, h') ∧ Heap_Peek h = Some v ∧ is_heap h' ∧ v :: h' ≡ₚ h.
Proof.
  intros Hh Hne. destruct h as [|v t]; [done|]. unfold Heap_Pop. cbn [lookup list_lookup length mbind option_bind].
  replace (S (length t) - 1) with (length t) by lia.
  destruct t as [|l init _] using rev_ind.
  { cbn. exists v, []. split_and!; [done|done| |done]. intros j _ _ x y Hx. done. }
  rewrite length_app. cbn [length]. rewrite Nat.add_1_r.
  change ((v :: init ++ [l]) !! S (length init)) with ((init ++ [l]) !! length init).
  rewrite lookup_mid. cbn [mbind option_bind Nat.ltb Nat.leb].
  change (take (S (length init)) (<[0:=l]> (v :: init ++ [l]))) with (l :: take (length init) (init ++ [l])).
  rewrite take_app_length.
  destruct (heap_down_spec (S (length (l :: init))) (l :: init) 0) as (h' & -> & Hh' & Hp); [cbn; lia|lia| |].
  - split; [|lia]. intros j Hj Hp x y Hx Hy. destruct j as [|j]; [lia|].
    destruct ((S j - 1) / 2) as [|p] eqn:Ep; [done|].
    pose proof (parent_lt (S j) Hj). pose proof (lookup_lt_Some _ _ _ Hy) as Hl. cbn in Hl.
    eapply (Hh (S j)); [lia|auto| |].
    + rewrite Ep. change ((init ++ [l]) !! p = Some x). rewrite lookup_app_l by lia. exact Hx.
    + change ((init ++ [l]) !! j = Some y). rewrite lookup_app_l by lia. exact Hy.
  - exists v, h'. split_and!; [done|done|done|]. rewrite Hp. constructor. apply Permutation_cons_append.
Qed.

(** ** Runs of operations

    The keys a client sees, [None] for the panic on an empty heap. *)
Inductive HeapOp := HPush (key : Z) (value : V) | HPop | HPeek | HLen | HClear.

Fixpoint heap_run (ops : list HeapOp) (h : Heap) : list (option Z) :=
  match ops with
  | [] => []
  | HPush key value :: ops =>
      match Heap_Push h key value with Some h => heap_run ops h | None => [None] end
  | HPop :: ops =>
      match Heap_Pop h with Some (v, h) => Some v.1 :: heap_run ops h | None => [None] end
  | HPeek :: ops =>
      match Heap_Peek h with Some v => Some v.1 :: heap_run ops h | None => [None] end
  | HLen :: ops => Some (Z.of_nat (Heap_Len h)) :: heap_run ops h
  | HClear :: ops => heap_run ops (Heap_Clear h)
  end.

(** The reference keeps its keys in a sorted list. *)
Fixpoint insert_key (k : Z) (q : list Z) : list Z :=
  match q with
  | [] => [k]
  | x :: q => if (k <=? x)%Z then k :: x :: q else x :: insert_key k q
  end.

Fixpoint sorted_run (ops : list HeapOp) (q : list Z) : list (option Z) :=
  match ops with
  | [] => []
  | HPush key _ :: ops => sorted_run ops (insert_key key q)
  | HPop :: ops => match q with k :: q => Some k :: sorted_run ops q | [] => [None] end
  | HPeek :: ops => match q with k :: _ => Some k :: sorted_run ops q | [] => [None] end
  | HLen :: ops => Some (Z.of_nat (length q)) :: sorted_run ops q
  | HClear :: ops => sorted_run ops []
  end.

Lemma insert_key_perm (k : Z) q : insert_key k q ≡ₚ k :: q.
Proof.
  induction q as [|x q IH]; cbn; [done|]. destruct (k <=? x)%Z; [done|]. rewrite IH. constructor.
Qed.
Lemma insert_key_sorted (k : Z) q : StronglySorted Z.le q → StronglySorted Z.le (insert_key k q).
Proof.
  induction 1 as [|x q Hs IH Hx]; cbn; [repeat constructor|].
  destruct (Z.leb_spec k x).
  - repeat constructor; try done. eapply Forall_impl; [exact Hx|]. cbn. lia.
  - constructor; [done|]. rewrite insert_key_perm. constructor; [lia|done].
Qed.

(** The smallest key of a heap is the first of the sorted keys. *)
Lemma heap_min h v q (k : Z) :
  is_heap h → Heap_Peek h = Some v → StronglySorted Z.le (k :: q) → h.*1 ≡ₚ k :: q → v.1 = k.
Proof.
  intros Hh Hv Hs Hp. apply Z.le_antisymm.
  - assert (k ∈ h.*1) as (y & -> & Hy)%list_elem_of_fmap by (rewrite Hp; constructor).
    by eapply Heap_Peek_spec.
  - assert (v.1 ∈ k :: q) as Hin.
    { rewrite <-Hp. apply list_elem_of_fmap. exists v. split; [done|]. by apply list_elem_of_lookup_2 in Hv. }
    apply elem_of_cons in Hin as [->|Hin]; [done|].
    apply StronglySorted_inv in Hs as [_ Hf]. by eapply (proj1 (Forall_forall _ _) Hf).
Qed.

Lemma heap_run_sorted ops h q :
  is_heap h → StronglySorted Z.le q → h.*1 ≡ₚ q → heap_run ops h = sorted_run ops q.
Proof.
  revert h q. induction ops as [|[key value| | | |] ops IH]; intros h q Hh Hs Hp; cbn [heap_run sorted_run]; [done|..].
  - destruct (Heap_Push_spec h key value Hh) as (h' & -> & Hh' & Hp'). apply IH; [done|by apply insert_key_sorted|].
    rewrite Hp', insert_key_perm. cbn. by rewrite Hp.
  - destruct q as [|k q].
    { apply Permutation_nil_r in Hp. apply fmap_nil_inv in Hp as ->. done. }
    destruct (Heap_Pop_spec h Hh) as (v & h' & -> & Hpk & Hh' & Hp'); [by intros ->; apply Permutation_nil_l in Hp|].
    pose proof (heap_min h v q k Hh Hpk Hs Hp) as <-. f_equal. apply IH; [done|by apply StronglySorted_inv in Hs as [? _]|].
    rewrite <-Hp' in Hp. cbn in Hp. by apply Permutation_cons_inv in Hp.
  - destruct q as [|k q].
    { apply Permutation_nil_r in Hp. apply fmap_nil_inv in Hp as ->. done. }
    destruct (Heap_Peek h) as [v|] eqn:Hpk.
    + rewrite (heap_min h v q k Hh Hpk Hs Hp). f_equal. by apply IH.
    + destruct h; [by apply Permutation_nil_l in Hp|done].
  - unfold Heap_Len. rewrite <-(length_fmap fst), Hp. f_equal. by apply IH.
  - apply IH; [|constructor|done]. intros j _ _ x y Hx. done.
Qed.
End minheap.

(** C28: The heap is a priority queue: along any sequence of operations from the empty
    heap, the keys and lengths it returns are those of a list that is kept sorted by
    insertion, and it panics exactly on an empty heap. *)
Theorem heap_equals_sorted_list {V : Type} (ops : list (HeapOp (V:=V))) :
  heap_run ops [] = sorted_run ops [].
Proof. apply heap_run_sorted; [|constructor|done]. intros j _ _ x y Hx. done. Qed.
