(* ===== verification/Protocol.v ===== *)
(** * The vocabulary of the QUIC connection: internal/protocol

    Stream identifiers and their numbering, packet numbers and their
    abbreviation on the wire, connection identifiers, encryption levels. *)

From S2P Require Import Prelude.

(** protocol.go *)
Definition MaxByteCount : Z := 2 ^ 62 - 1.
Definition MaxPacketBufferSize : Z := 1452.
Definition MinStreamFrameBufferSize : Z := 128.
Definition MinStreamFrameSize : Z := 128.

(** ** Streams (stream.go) *)

Inductive Perspective := PerspectiveServer | PerspectiveClient.
#[global] Instance Perspective_eq_dec : EqDecision Perspective.
Proof. solve_decision. Defined.

Inductive StreamType := StreamTypeUni | StreamTypeBidi.
#[global] Instance StreamType_eq_dec : EqDecision StreamType.
Proof. solve_decision. Defined.

Definition InvalidStreamID : Z := -1.
Definition MaxStreamCount : Z := 2 ^ 60.
Definition MaxStreamID : Z := 2 ^ 62 - 1.

(** StreamNum.StreamID *)
Definition StreamNum_StreamID (s : Z) (stype : StreamType) (pers : Perspective) : Z :=
  if s =? 0 then InvalidStreamID
  else
    let first :=
      match stype, pers with
      | StreamTypeBidi, PerspectiveClient => 0
      | StreamTypeBidi, PerspectiveServer => 1
      | StreamTypeUni, PerspectiveClient => 2
      | StreamTypeUni, PerspectiveServer => 3
      end in
    i64 (first + i64 (4 * i64 (s - 1))).

Definition StreamInitiator (id : Z) : Perspective :=
  if Z.rem id 2 =? 0 then PerspectiveClient else PerspectiveServer.

Definition StreamTypeOf (id : Z) : StreamType :=
  if Z.rem id 4 >=? 2 then StreamTypeUni else StreamTypeBidi.

(** StreamID.StreamNum *)
Definition StreamID_StreamNum (s : Z) : Z := i64 (Z.quot s 4 + 1).

(** ** Packet numbers (packet_number.go) *)

Definition InvalidPacketNumber : Z := -1.

Definition DecodePacketNumber (length largest truncated : Z) : Z :=
  let expected := i64 (largest + 1) in
  let win := i64 (Z.shiftl 1 (u8 (length * 8))) in
  let hwin := Z.quot win 2 in
  let mask := i64 (win - 1) in
  let candidate := Z.lor (Z.land expected (Z.lnot mask)) truncated in
  if (candidate <=? i64 (expected - hwin)) && (candidate <? i64 (2 ^ 62 - win))
  then i64 (candidate + win)
  else if (candidate >? i64 (expected + hwin)) && (candidate >=? win)
  then i64 (candidate - win)
  else candidate.

Definition PacketNumberLengthForHeader (pn largestAcked : Z) : Z :=
  let numUnacked :=
    if largestAcked =? InvalidPacketNumber then i64 (pn + 1) else i64 (pn - largestAcked) in
  if numUnacked <? 2 ^ (16 - 1) then 2
  else if numUnacked <? 2 ^ (24 - 1) then 3
  else 4.

(** ** Connection identifiers (connection_id.go) *)

Definition MaxConnIDLen : Z := 20.

(** A twenty-byte array and the number of bytes in use. *)
Record ConnectionID := MkConnectionID { cid_b : bytes; cid_l : Z }.
#[global] Instance ConnectionID_eq_dec : EqDecision ConnectionID.
Proof. solve_decision. Defined.

(** [None] is the panic on more than twenty bytes. *)
Definition ParseConnectionID (b : bytes) : option ConnectionID :=
  if len b >? MaxConnIDLen then None
  else Some (MkConnectionID (b ++ replicate (20 - length b) 0) (u8 (len b))).

Definition ConnectionID_Len (c : ConnectionID) : Z := cid_l c.
Definition ConnectionID_Bytes (c : ConnectionID) : bytes := take (Z.to_nat (cid_l c)) (cid_b c).

(** The values ParseConnectionID makes: the unused bytes are zero, so that the
    equality of the struct is equality of the identifiers. *)
Definition conn_id_ok (c : ConnectionID) : Prop :=
  0 ≤ cid_l c ≤ MaxConnIDLen ∧ Forall is_byte (cid_b c) ∧ length (cid_b c) = 20%nat ∧
  drop (Z.to_nat (cid_l c)) (cid_b c) = replicate (20 - Z.to_nat (cid_l c)) 0.

(** ** Encryption levels (encryption_level.go) *)

Inductive EncryptionLevel :=
  | EncryptionInitial | EncryptionHandshake | Encryption0RTT | Encryption1RTT.
#[global] Instance EncryptionLevel_eq_dec : EqDecision EncryptionLevel.
Proof. solve_decision. Defined.

(** ** Lemmas *)

Lemma conn_id_Bytes_len c : conn_id_ok c → len (ConnectionID_Bytes c) = cid_l c.
Proof.
  unfold conn_id_ok, ConnectionID_Bytes, len, MaxConnIDLen. intros (?&_&Hl&_).
  rewrite length_take. lia.
Qed.

Lemma conn_id_Bytes_is_byte c : conn_id_ok c → Forall is_byte (ConnectionID_Bytes c).
Proof. intros (_&Hb&_). by apply Forall_take. Qed.

Lemma ParseConnectionID_Bytes c : conn_id_ok c → ParseConnectionID (ConnectionID_Bytes c) = Some c.
Proof.
  intros Hc. pose proof (conn_id_Bytes_len c Hc) as Hl. destruct Hc as (Hr&_&H20&Hz).
  unfold ParseConnectionID. rewrite Hl. unfold MaxConnIDLen in *.

  destruct (Z.gtb_spec (cid_l c) 20); [lia|].
  unfold wrapU. rewrite Z.mod_small by lia.
  replace (20 - length (ConnectionID_Bytes c))%nat with (20 - Z.to_nat (cid_l c))%nat
    by (unfold len in Hl; lia).
  rewrite <-Hz. unfold ConnectionID_Bytes. rewrite take_drop. by destruct c.
Qed.

Lemma ParseConnectionID_ok b c :
  Forall is_byte b → ParseConnectionID b = Some c → conn_id_ok c ∧ ConnectionID_Bytes c = b.
Proof.
  unfold ParseConnectionID, MaxConnIDLen. destruct (Z.gtb_spec (len b) 20); [done|].
  intros Hb [= <-]. pose proof (len_nonneg b).
  unfold conn_id_ok, ConnectionID_Bytes, MaxConnIDLen; cbn [cid_l cid_b].
  unfold wrapU. rewrite Z.mod_small by lia. unfold len in *. rewrite Nat2Z.id.
  rewrite take_app_length, drop_app_length, length_app, length_replicate.
  split_and!; try (done || lia). apply Forall_app. split; [done|].
  apply Forall_replicate. unfold is_byte. lia.
Qed.

(** Replacing the low bits of a number. *)
Lemma replace_low_bits e t k :
  0 ≤ k → 0 ≤ t < 2 ^ k → Z.lor (Z.land e (Z.lnot (2 ^ k - 1))) t = e / 2 ^ k * 2 ^ k + t.
Proof.
  intros Hk Ht. replace (2 ^ k - 1) with (Z.ones k) by (rewrite Z.ones_equiv; lia).
  rewrite <-Z.ldiff_land, Z.ldiff_ones_r by done.
  rewrite Z.lor_comm, lor_disjoint, Z.shiftr_div_pow2 by done. lia.
Qed.

(** The arithmetic of the reconstruction: [pn] lies in the window of size [w]
    around [e], and agrees with the candidate modulo [w]. *)
Lemma window_unique e pn w :
  0 < w → e - w / 2 < pn ≤ e + w / 2 →
  let c := e / w * w + pn `mod` w in
  (c ≤ e - w / 2 → pn = c + w) ∧ (e + w / 2 < c → pn = c - w) ∧
  (e - w / 2 < c ≤ e + w / 2 → w `mod` 2 = 0 → pn = c).
Proof.
  intros Hw Hpn c. subst c.
  pose proof (Z.div_mod pn w ltac:(lia)). pose proof (Z.div_mod e w ltac:(lia)).
  pose proof (Z.mod_pos_bound pn w ltac:(lia)). pose proof (Z.mod_pos_bound e w ltac:(lia)).
  pose proof (Z.div_mod w 2 ltac:(lia)). pose proof (Z.mod_pos_bound w 2 ltac:(lia)).
  assert (pn / w = e / w - 1 ∨ pn / w = e / w ∨ pn / w = e / w + 1) as Hc by nia.
  split_and!; intros; destruct Hc as [Hc|[Hc|Hc]]; nia.
Qed.

Lemma DecodePacketNumber_window l largest pn :
  1 ≤ l ≤ 4 → 0 ≤ pn < 2 ^ 62 - 2 ^ 32 → -1 ≤ largest < 2 ^ 62 - 2 ^ 32 →
  largest + 1 - 2 ^ (8 * l) / 2 < pn ≤ largest + 1 + 2 ^ (8 * l) / 2 →
  DecodePacketNumber l largest (pn `mod` 2 ^ (8 * l)) = pn.
Proof.
  intros Hl Hpn Hla Hwin.
  assert (2 ^ (8 * l) `mod` 2 = 0 ∧ 256 ≤ 2 ^ (8 * l) ≤ 2 ^ 32) as [Heven Hw].
  { assert (l = 1 ∨ l = 2 ∨ l = 3 ∨ l = 4) as [->|[->|[->| ->]]] by lia; by vm_compute. }
  pose proof (Z.mod_pos_bound pn (2 ^ (8 * l)) ltac:(lia)) as Hm.
  destruct (window_unique (largest + 1) pn (2 ^ (8 * l))) as (U1 & U2 & U3); [lia|lia|].
  pose proof (Z.div_mod (largest + 1) (2 ^ (8 * l)) ltac:(lia)).
  pose proof (Z.mod_pos_bound (largest + 1) (2 ^ (8 * l)) ltac:(lia)).
  pose proof (Z.div_mod (2 ^ (8 * l)) 2 ltac:(lia)).
  assert (0 ≤ (largest + 1) / 2 ^ (8 * l)) by (apply Z.div_pos; lia).
  unfold DecodePacketNumber. rewrite (wrapU_small 8 (l * 8)) by lia.
  rewrite Z.shiftl_mul_pow2, (Z.mul_comm l 8), Z.mul_1_l by lia.
  rewrite !(i64_small (2 ^ (8 * l))), (i64_small (largest + 1)), (i64_small (2 ^ (8 * l) - 1)) by lia.
  rewrite Z.quot_div_nonneg, replace_low_bits by lia.
  set (w := 2 ^ (8 * l)) in *. set (c := (largest + 1) / w * w + pn `mod` w) in *.
  rewrite !i64_small by lia.
  destruct (Z.leb_spec c (largest + 1 - w / 2)); simpl.
  - specialize (U1 ltac:(lia)). destruct (Z.ltb_spec c (2 ^ 62 - w)); simpl; [rewrite ?i64_small; lia|lia].
  - rewrite Z.gtb_ltb, Z.geb_leb. destruct (Z.ltb_spec (largest + 1 + w / 2) c); simpl; [|lia].
    specialize (U2 ltac:(lia)). destruct (Z.leb_spec w c); simpl; [rewrite ?i64_small; lia|lia].
Qed.

Lemma chosen_length_window pn largestAcked :
  0 ≤ pn < 2 ^ 62 - 2 ^ 32 → -1 ≤ largestAcked < pn → pn - largestAcked < 2 ^ 31 →
  let l := PacketNumberLengthForHeader pn largestAcked in
  2 ≤ l ≤ 4 ∧ pn - largestAcked < 2 ^ (8 * l) / 2.
Proof.
  intros Hpn Hacked Hunacked l. subst l. unfold PacketNumberLengthForHeader, InvalidPacketNumber.
  set (n := if _ =? _ then _ else _).
  assert (n = pn - largestAcked) as ->.
  { subst n. destruct (Z.eqb_spec largestAcked (-1)) as [->|]; rewrite i64_small; lia. }
  destruct (Z.ltb_spec (pn - largestAcked) (2 ^ (16 - 1)));
    [|destruct (Z.ltb_spec (pn - largestAcked) (2 ^ (24 - 1)))];
    (split; [lia|]; match goal with H : pn - largestAcked < _ |- _ =>
       apply (Z.lt_le_trans _ _ _ H); by vm_compute end).
Qed.

(** C36: A packet number truncated to [l] bytes is reconstructed by every receiver
    whose next expected number is less than half a window of [l] bytes ahead of
    it, or at most half a window behind.  The length the sender chooses ensures
    the second for every receiver that has the largest acknowledged packet. *)
Theorem packet_number_is_recovered (pn largest : Z)
    (Hpn : 0 ≤ pn < 2 ^ 62 - 2 ^ 32) (Hlargest : -1 ≤ largest < 2 ^ 62 - 2 ^ 32) :
  (∀ l, 1 ≤ l ≤ 4 → largest + 1 - 2 ^ (8 * l) / 2 < pn ≤ largest + 1 + 2 ^ (8 * l) / 2 →
     DecodePacketNumber l largest (pn `mod` 2 ^ (8 * l)) = pn) ∧
  ∀ largestAcked, -1 ≤ largestAcked < pn → pn - largestAcked < 2 ^ 31 → largestAcked ≤ largest →
    let l := PacketNumberLengthForHeader pn largestAcked in
    largest + 1 - pn < 2 ^ (8 * l) / 2 → DecodePacketNumber l largest (pn `mod` 2 ^ (8 * l)) = pn.
Proof.
  split; [intros l Hl Hwin; by apply DecodePacketNumber_window|].
  intros largestAcked Hacked Hunacked Hle l Hahead.
  destruct (chosen_length_window pn largestAcked Hpn Hacked Hunacked) as [Hl Hw]. fold l in Hl, Hw.
  apply DecodePacketNumber_window; lia.
Qed.

(** A packet 100000 behind, which takes three bytes. *)
Lemma packet_number_is_recovered_witness :
  PacketNumberLengthForHeader 7000000 6000000 = 3 ∧
  DecodePacketNumber (PacketNumberLengthForHeader 7000000 6000000) 7100000
    (7000000 `mod` 2 ^ (8 * PacketNumberLengthForHeader 7000000 6000000)) = 7000000.
Proof.
  split; [reflexivity|]. destruct (packet_number_is_recovered 7000000 7100000) as [_ H]; [lia|lia|].
  apply H; [lia|lia|lia|by vm_compute].
Defined.

(** Streams are numbered per type and initiator, and the identifier determines
    all three. *)
Lemma stream_numbering s stype pers :
  1 ≤ s ≤ MaxStreamCount →
  let id := StreamNum_StreamID s stype pers in
  0 ≤ id ≤ MaxStreamID ∧ StreamID_StreamNum id = s ∧ StreamTypeOf id = stype ∧ StreamInitiator id = pers.
Proof.
  unfold MaxStreamCount. intros Hs. unfold StreamNum_StreamID.
  rewrite (proj2 (Z.eqb_neq s 0)) by lia. rewrite (i64_small (s - 1)), (i64_small (4 * _)) by lia.
  unfold MaxStreamID, StreamID_StreamNum, StreamTypeOf, StreamInitiator.
  destruct stype, pers; cbv zeta; rewrite !(i64_small (_ + 4 * _)) by lia;
    rewrite Z.quot_div_nonneg, !Z.rem_mod_nonneg by lia;
    (match goal with |- context [(?f + 4 * (s - 1)) / 4] =>
       assert ((f + 4 * (s - 1)) / 4 = s - 1 ∧ (f + 4 * (s - 1)) `mod` 4 = f ∧
               (f + 4 * (s - 1)) `mod` 2 = f `mod` 2) as (-> & -> & ->)
         by (split_and!; Z.to_euclidean_division_equations; lia)
     end; rewrite i64_small by lia; repeat split; simpl; lia).
Qed.
