(* ===== verification/WireBase.v ===== *)
(** * Frame types and shared pieces of the QUIC frame codecs: internal/wire

    The frame type numbers and the predicates on them (frame_type.go,
    frame.go), the errors of the parsers, the reading and writing of varints
    that every codec repeats, and the addresses carried by some frames
    (net/netip). *)

From stdpp Require Import strings.
From S2P Require Import Prelude QuicVarint Protocol.
Open Scope Z_scope.

(** ** Frame types (frame_type.go) *)

Definition FrameTypePing : Z := 0x1.
Definition FrameTypeAck : Z := 0x2.
Definition FrameTypeAckECN : Z := 0x3.
Definition FrameTypeResetStream : Z := 0x4.
Definition FrameTypeStopSending : Z := 0x5.
Definition FrameTypeCrypto : Z := 0x6.
Definition FrameTypeNewToken : Z := 0x7.
Definition FrameTypeMaxData : Z := 0x10.
Definition FrameTypeMaxStreamData : Z := 0x11.
Definition FrameTypeBidiMaxStreams : Z := 0x12.
Definition FrameTypeUniMaxStreams : Z := 0x13.
Definition FrameTypeDataBlocked : Z := 0x14.
Definition FrameTypeStreamDataBlocked : Z := 0x15.
Definition FrameTypeBidiStreamBlocked : Z := 0x16.
Definition FrameTypeUniStreamBlocked : Z := 0x17.
Definition FrameTypeNewConnectionID : Z := 0x18.
Definition FrameTypeRetireConnectionID : Z := 0x19.
Definition FrameTypePathChallenge : Z := 0x1a.
Definition FrameTypePathResponse : Z := 0x1b.
Definition FrameTypeConnectionClose : Z := 0x1c.
Definition FrameTypeApplicationClose : Z := 0x1d.
Definition FrameTypeHandshakeDone : Z := 0x1e.
Definition FrameTypeResetStreamAt : Z := 0x24.
Definition FrameTypeAckFrequency : Z := 0xaf.
Definition FrameTypeImmediateAck : Z := 0x1f.
Definition FrameTypeDatagramNoLength : Z := 0x30.
Definition FrameTypeDatagramWithLength : Z := 0x31.
Definition FrameTypeObservedIPv4Addr : Z := 0x9f81a6.
Definition FrameTypeObservedIPv6Addr : Z := 0x9f81a7.
Definition FrameTypePathAck : Z := 0x3e.
Definition FrameTypePathAckECN : Z := 0x3f.
Definition FrameTypePathAbandon : Z := 0x3e75.
Definition FrameTypePathStatusBackup : Z := 0x3e76.
Definition FrameTypePathStatusAvailable : Z := 0x3e77.
Definition FrameTypePathNewConnectionID : Z := 0x3e78.
Definition FrameTypePathRetireConnectionID : Z := 0x3e79.
Definition FrameTypeMaxPathID : Z := 0x3e7a.
Definition FrameTypePathsBlocked : Z := 0x3e7b.
Definition FrameTypePathCIDsBlocked : Z := 0x3e7c.
Definition FrameTypeAddIPv4Address : Z := 0x3d7f90.
Definition FrameTypeAddIPv6Address : Z := 0x3d7f91.
Definition FrameTypeReachOutAtIPv4 : Z := 0x3d7f92.
Definition FrameTypeReachOutAtIPv6 : Z := 0x3d7f93.
Definition FrameTypeRemoveAddress : Z := 0x3d7f94.

(** Membership in the cases of a switch. *)
Definition one_of (t : Z) (cases : list Z) : bool := existsb (Z.eqb t) cases.

Definition IsStreamFrameType (t : Z) : bool := (t >=? 0x8) && (t <=? 0xf).
Definition isValidRFC9000 (t : Z) : bool := t <=? 0x1e.
Definition IsAckFrameType (t : Z) : bool := (t =? FrameTypeAck) || (t =? FrameTypeAckECN).
Definition IsDatagramFrameType (t : Z) : bool :=
  (t =? FrameTypeDatagramNoLength) || (t =? FrameTypeDatagramWithLength).

Definition isMultipathFrameType (t : Z) : bool :=
  one_of t [FrameTypePathAck; FrameTypePathAckECN; FrameTypePathAbandon;
    FrameTypePathStatusBackup; FrameTypePathStatusAvailable; FrameTypePathNewConnectionID;
    FrameTypePathRetireConnectionID; FrameTypeMaxPathID; FrameTypePathsBlocked;
    FrameTypePathCIDsBlocked].

Definition isAddressDiscoveryFrameType (t : Z) : bool :=
  (t =? FrameTypeObservedIPv4Addr) || (t =? FrameTypeObservedIPv6Addr).

Definition isNATTraversalFrameType (t : Z) : bool :=
  one_of t [FrameTypeAddIPv4Address; FrameTypeAddIPv6Address; FrameTypeReachOutAtIPv4;
    FrameTypeReachOutAtIPv6; FrameTypeRemoveAddress].

(** The panic on an unknown level has no counterpart: there are four levels. *)
Definition isAllowedAtEncLevel (t : Z) (encLevel : EncryptionLevel) : bool :=
  if isMultipathFrameType t then bool_decide (encLevel = Encryption1RTT)
  else if isAddressDiscoveryFrameType t then bool_decide (encLevel = Encryption1RTT)
  else if isNATTraversalFrameType t then bool_decide (encLevel = Encryption1RTT)
  else
    match encLevel with
    | EncryptionInitial | EncryptionHandshake =>
        one_of t [FrameTypeCrypto; FrameTypeAck; FrameTypeAckECN; FrameTypeConnectionClose;
          FrameTypePing]
    | Encryption0RTT =>
        negb (one_of t [FrameTypeCrypto; FrameTypeAck; FrameTypeAckECN; FrameTypeConnectionClose;
          FrameTypeNewToken; FrameTypePathResponse; FrameTypeRetireConnectionID])
    | Encryption1RTT => true
    end.

(** frame.go *)
Definition IsProbingFrameType (f : Z) : bool :=
  one_of f [FrameTypePathChallenge; FrameTypePathResponse; FrameTypeNewConnectionID].

(** internal/ackhandler/ack_eliciting.go *)
Definition IsFrameTypeAckEliciting (t : Z) : bool :=
  if (t =? FrameTypeAck) || (t =? FrameTypeAckECN) then false
  else if (t =? FrameTypePathAck) || (t =? FrameTypePathAckECN) then false
  else if (t =? FrameTypeConnectionClose) || (t =? FrameTypeApplicationClose) then false
  else true.

(** ** Errors of the frame parsers

    The sentinel errors and the messages made with [errors.New] and
    [fmt.Errorf]. *)
Inductive FrameError :=
  | ReadErr (e : ReadError)
  | errInvalidFirstAckRange
  | errInvalidAckRanges
  | errStreamOverflow
  | errEmptyStreamFrame
  | errStreamCount (n : Z)
  | errReliableSize (reliableSize finalSize : Z)
  | errRetirePriorTo (ret seq : Z)
  | errZeroLengthConnectionID
  | ErrInvalidConnectionIDLen
  | errConnectionIDLength (n : Z)
  | errEmptyToken
  | errInvalidPathID
  | errInvalidObservedAddr
  | errInvalidQNTAddress
  | errUnknownFrameType
  | errNotAllowedAtEncLevel (t : Z) (l : EncryptionLevel).
#[global] Instance ReadError_eq_dec : EqDecision ReadError.
Proof. solve_decision. Defined.
#[global] Instance FrameError_eq_dec : EqDecision FrameError.
Proof. solve_decision. Defined.

Definition replaceUnexpectedEOF (e : ReadError) : ReadError :=
  match e with ErrUnexpectedEOF => EOF | e => e end.

(** ** Varints in frames

    Every codec reads a varint with [v, l, err := quicvarint.Parse(b)], returns
    [replaceUnexpectedEOF(err)] on an error, and continues with [b = b[l:]]. *)
Definition varint (b : bytes) : outcome FrameError (Z * bytes) :=
  match Parse b with
  | None => Panic
  | Some (Err e) => Throw (ReadErr (replaceUnexpectedEOF e))
  | Some (Ok (v, l)) => b ← or_panic (slice_from b l); Ret (v, b)
  end.

(** [b = quicvarint.Append(b, v)] and [quicvarint.Len(v)], which panic on a value
    of more than 62 bits. *)
Definition appendVarint (b : bytes) (v : Z) : outcome FrameError bytes := or_panic (Append b v).
Definition lenVarint (v : Z) : outcome FrameError Z := or_panic (Len v).

(** A fixed number of bytes off the front: the length check and [copy]. *)
Definition fixed (n : Z) (e : FrameError) (b : bytes) : outcome FrameError (bytes * bytes) :=
  if len b <? n then Throw e
  else x ← or_panic (slice_to b n); b ← or_panic (slice_from b n); Ret (x, b).

(** ** Addresses (net/netip)

    The zero [Addr], an IPv4 address and an IPv6 address with its zone. *)
Inductive Addr :=
  | AddrZero
  | Addr4 (a : bytes)
  | Addr6 (a : bytes) (zone : string).
#[global] Instance Addr_eq_dec : EqDecision Addr.
Proof. solve_decision. Defined.

Definition Is6 (a : Addr) : bool := match a with Addr6 _ _ => true | _ => false end.
Definition AddrFrom4 (b : bytes) : Addr := Addr4 b.
Definition AddrFrom16 (b : bytes) : Addr := Addr6 b "".

(** The twelve bytes that prefix an IPv4 address mapped into IPv6. *)
Definition v4InV6Prefix : bytes := replicate 10 0 ++ [0xff; 0xff].

(** As4 panics on the zero [Addr] and on an IPv6 address that is not a mapped one. *)
Definition As4 (a : Addr) : option bytes :=
  match a with
  | AddrZero => None
  | Addr4 b => Some b
  | Addr6 b _ => if bool_decide (take 12 b = v4InV6Prefix) then Some (drop 12 b) else None
  end.
Definition As16 (a : Addr) : bytes :=
  match a with
  | AddrZero => replicate 16 0
  | Addr4 b => v4InV6Prefix ++ b
  | Addr6 b _ => b
  end.

(** binary.BigEndian.Uint16 and AppendUint16 *)
Definition BigEndian_Uint16 (b : bytes) : Z :=
  match b with b0 :: b1 :: _ => Z.lor b1 (Z.shiftl b0 8) | _ => 0 end.
Definition AppendUint16 (b : bytes) (v : Z) : bytes := b ++ [u8 (Z.shiftr v 8); u8 v].

Create HintDb wire discriminated.
#[global] Arguments appendVarint : simpl never.
#[global] Arguments lenVarint : simpl never.
#[global] Arguments varint : simpl never.
#[global] Arguments fixed : simpl never.
#[global] Arguments wrapU : simpl never.
#[global] Arguments wrapS : simpl never.
#[global] Arguments Z.gtb : simpl never.
#[global] Arguments Z.ltb : simpl never.
#[global] Arguments len : simpl never.

(** ** Lemmas: the canonical encoding of a varint *)

Definition enc (v : Z) : bytes := default [] (Append [] v).

#[global] Arguments enc : simpl never.

(** The values a varint can hold. *)
Definition vint (v : Z) : Prop := 0 ≤ v ≤ Max.
#[global] Instance vint_dec v : Decision (vint v).
Proof. unfold vint. apply _. Defined.

Lemma enc_spec v :
  vint v → (∀ b, Append b v = Some (b ++ enc v)) ∧ Len v = Some (len (enc v)) ∧
    encoding (enc v) v (len (enc v)).
Proof.
  intros Hv. destruct (Append_encoding [] v Hv) as (bs & n & Ha & Hl & He).
  assert (enc v = bs) as E by (unfold enc; by rewrite Ha).
  pose proof He as (_&_&_&_&_&Hn&_). rewrite E, Hn. split_and!; [|done|done].
  intros b. destruct (Append_encoding b v Hv) as (bs' & n' & Ha' & _).
  rewrite Ha'. f_equal. f_equal. revert Ha Ha'. clear. unfold Append.
  repeat case_match; intros [= Hb] [= Hb']; try done; apply app_inv_head in Hb'; congruence.
Qed.

Lemma enc_is_byte v : vint v → Forall is_byte (enc v).
Proof. intros Hv. by destruct (enc_spec v Hv) as (_&_&?&?&_&?&_). Qed.

Lemma enc_len v : vint v → 1 ≤ len (enc v) ≤ 8.
Proof.
  intros Hv. destruct (enc_spec v Hv) as (_ & Hl & _).
  apply Len_spec in Hl as [Hl _]; [|unfold vint in *; lia]. unfold valid_length in Hl. lia.
Qed.

Lemma appendVarint_enc b v : vint v → appendVarint b v = Ret (b ++ enc v).
Proof. intros Hv. unfold appendVarint. by rewrite (proj1 (enc_spec v Hv)). Qed.

Lemma lenVarint_enc v : vint v → lenVarint v = Ret (len (enc v)).
Proof. intros Hv. unfold lenVarint. by rewrite (proj1 (proj2 (enc_spec v Hv))). Qed.

Lemma varint_enc v rest :
  vint v → Forall is_byte rest → varint (enc v ++ rest) = Ret (v, rest).
Proof.
  intros Hv Hr. destruct (enc_spec v Hv) as (_&_&He). unfold varint.
  by rewrite (Parse_encoding _ _ _ rest He Hr), slice_from_app.
Qed.

Lemma enc_byte t : 0 ≤ t ≤ 63 → [t] = enc t.
Proof.
  intros Ht. unfold enc, Append, maxVarInt1. rewrite (proj2 (Z.leb_le _ _)) by lia.
  unfold wrapU. rewrite Z.mod_small by lia. done.
Qed.

Lemma enc_len_1 v : 0 ≤ v ≤ 63 → len (enc v) = 1.
Proof. intros. by rewrite <-enc_byte. Qed.

Lemma enc_len_2 v : 64 ≤ v ≤ 16383 → len (enc v) = 2.
Proof.
  intros Hv. destruct (enc_spec v) as (_ & Hl & _); [unfold vint, Max, maxVarInt8; lia|].
  unfold Len, maxVarInt1, maxVarInt2 in Hl.
  rewrite (proj2 (Z.leb_gt _ _)), (proj2 (Z.leb_le _ _)) in Hl by lia. by injection Hl.
Qed.

(** The lemmas above are all that is used of [enc]. *)
#[global] Opaque enc.

(** ** Lemmas: parsers that never panic

    [safe m Q]: the call does not panic, and what it returns satisfies [Q]. *)

Definition safe {E A} (m : outcome E A) (Q : A → Prop) : Prop :=
  match m with Ret a => Q a | Throw _ => True | Panic => False end.

Lemma safe_bind {E A B} (m : outcome E A) (f : A → outcome E B) (P : A → Prop) Q :
  safe m P → (∀ a, P a → safe (f a) Q) → safe (m ≫= f) Q.
Proof. destruct m; simpl; auto. Qed.

Lemma safe_mono {E A} (m : outcome E A) (P Q : A → Prop) :
  safe m P → (∀ a, P a → Q a) → safe m Q.
Proof. destruct m; simpl; auto. Qed.

(** What is left of [b] after reading [k] bytes or more. *)
Definition rest_of (k : Z) (b r : bytes) : Prop := Forall is_byte r ∧ len r + k ≤ len b.

Lemma prefix_len_range first : is_byte first → 1 ≤ prefix_len first ≤ 8.
Proof. intros Hb. unfold prefix_len. by destruct (byte_tag first Hb) as [->|[->|[->| ->]]]. Qed.

Lemma be_range l : Forall is_byte l → 0 ≤ be l < 256 ^ len l.
Proof.
  induction 1 as [|b l Hb Hl IH]; [by vm_compute|].
  rewrite be_cons, len_cons, Z.pow_add_r by (pose proof (len_nonneg l); lia).
  unfold is_byte in Hb. change (256 ^ 1) with 256. nia.
Qed.

Lemma Parse_range b v l :
  Forall is_byte b → Parse b = Some (Ok (v, l)) → 0 ≤ v ≤ Max ∧ 1 ≤ l ≤ len b.
Proof.
  intros Hb. destruct b as [|first rest]; [done|]. rewrite Parse_spec by done.
  destruct (Z.ltb_spec (len (first :: rest)) (prefix_len first)); [done|]. intros [= <- <-].
  apply Forall_cons in Hb as [Hf Hr]. pose proof (prefix_len_range first Hf). split; [|lia].
  set (k := Z.to_nat (prefix_len first - 1)).
  pose proof (be_range _ (Forall_take _ k _ Hr)) as Hbe. rewrite be_cons.
  assert (len (take k rest) ≤ 7) as Hk.
  { unfold len. rewrite length_take. lia. }
  pose proof (Z.mod_pos_bound first 64 ltac:(lia)).
  assert (256 ^ len (take k rest) ≤ 256 ^ 7) by (apply Z.pow_le_mono_r; lia).
  unfold Max, maxVarInt8. change (256 ^ 7) with 72057594037927936 in *. nia.
Qed.

Lemma varint_safe b :
  Forall is_byte b → safe (varint b) (λ '(v, r), vint v ∧ rest_of 1 b r).
Proof.
  intros Hb. unfold varint. destruct (Parse b) as [[[v l]|e]|] eqn:E; [|done|].
  - destruct (Parse_range b v l Hb E) as [Hv Hl].
    destruct (slice_split b l) as (x & r & -> & Hx & _ & ->); [lia|]. simpl.
    split; [done|]. apply Forall_app in Hb as [_ Hr]. split; [done|]. rewrite len_app. lia.
  - destruct b as [|first rest]; [done|]. by rewrite Parse_spec in E.
Qed.

Lemma fixed_safe n e b :
  0 ≤ n → Forall is_byte b →
  safe (fixed n e b) (λ '(x, r), len x = n ∧ Forall is_byte x ∧ rest_of n b r).
Proof.
  intros Hn Hb. unfold fixed. destruct (Z.ltb_spec (len b) n); [done|].
  destruct (slice_split b n) as (x & r & -> & Hx & -> & ->); [lia|]. simpl.
  apply Forall_app in Hb as [Hx' Hr]. split_and!; [done|done|]. split; [done|]. rewrite len_app. lia.
Qed.

Lemma fixed_app n e x r : len x = n → fixed n e (x ++ r) = Ret (x, r).
Proof.
  intros <-. unfold fixed. rewrite len_app. pose proof (len_nonneg r).
  rewrite (proj2 (Z.ltb_ge _ _)) by lia. by rewrite slice_to_app, slice_from_app.
Qed.

(** ** What a codec promises

    Appending a frame writes its type and a body, of the announced length, and
    the parser gives the frame back from the body whatever follows it. *)
Definition codec {F} (typ : Z) (append : bytes → outcome FrameError bytes)
    (length : outcome FrameError Z) (parse : bytes → outcome FrameError (F * Z)) (f : F) : Prop :=
  ∃ body, (∀ b, append b = Ret (b ++ enc typ ++ body)) ∧ Forall is_byte body ∧
    length = Ret (len (enc typ) + len body) ∧
    ∀ rest, Forall is_byte rest → parse (body ++ rest) = Ret (f, len body).

(** A frame without a length field extends to the end of the packet. *)
Definition codec_last {F} (typ : Z) (append : bytes → outcome FrameError bytes)
    (length : outcome FrameError Z) (parse : bytes → outcome FrameError (F * Z)) (f : F) : Prop :=
  ∃ body, (∀ b, append b = Ret (b ++ enc typ ++ body)) ∧ Forall is_byte body ∧
    length = Ret (len (enc typ) + len body) ∧
    parse body = Ret (f, len body).

Lemma codec_is_last {F} typ append length parse (f : F) :
  codec typ append length parse f → codec_last typ append length parse f.
Proof.
  intros (body & Ha & Hb & Hl & Hp). exists body. split_and!; [done..|].
  rewrite <-(app_nil_r body) at 1. apply Hp. constructor.
Qed.

(** ** Automation for the codecs *)

Lemma u64_vint v : vint v → u64 v = v.
Proof. unfold vint, Max, maxVarInt8. intros. apply wrapU_small. lia. Qed.
Lemma i64_vint v : vint v → i64 v = v.
Proof. unfold vint, Max, maxVarInt8. intros. apply i64_small. lia. Qed.

Lemma vint_0 : vint 0.
Proof. by_decision. Qed.

#[export] Hint Resolve vint_0 enc_is_byte conn_id_Bytes_is_byte : wire.
#[export] Hint Resolve Forall_nil_2 : wire.
#[export] Hint Extern 1 (Forall is_byte (_ ++ _)) => apply Forall_app; split : wire.
#[export] Hint Extern 1 (vint ?v) => is_const v; by_decision : wire.

Ltac len_facts :=
  rewrite ?len_app, ?len_cons;
  repeat match goal with
  | |- context [len ?l] =>
      lazymatch goal with H : 0 ≤ len l |- _ => fail | _ => pose proof (len_nonneg l) end
  end.
Ltac wire_lia := len_facts; unfold vint, Max, maxVarInt8 in *; lia.

(** Decide a guard of the code by arithmetic. *)
Ltac wire_guard :=
  match goal with
  | |- context [if ?c then _ else _] =>
      first [ assert (c = true) as -> by wire_lia | assert (c = false) as -> by wire_lia ];
      cbv iota
  end.

(** Evaluate the appends and varint lengths of a codec, and the reads of what
    was appended. *)
Ltac wire_eval :=
  repeat first
    [ match goal with
      | |- context [u64 ?x] => rewrite (u64_vint x) by eauto with wire
      | |- context [i64 ?x] => rewrite (i64_vint x) by eauto with wire
      end
    | rewrite appendVarint_enc by eauto with wire
    | rewrite lenVarint_enc by eauto with wire
    | rewrite <-!app_assoc
    | match goal with
      | |- context [varint (enc ?v ++ ?r)] => rewrite (varint_enc v r) by eauto 20 with wire
      end
    | match goal with
      | |- context [fixed ?n ?e (?x ++ ?r)] => rewrite (fixed_app n e x r) by done
      | |- context [slice_to (?x ++ ?r) (len ?x)] => rewrite (slice_to_app x r)
      end
    | progress cbn [mbind outcome_bind or_panic]
    | wire_guard ].

(** The type byte of a frame is the varint of its type. *)
Ltac type_byte :=
  repeat match goal with
  | |- context [?b ++ [?t]] => rewrite (enc_byte t) by by_decision
  end.

Lemma Ret_eq {E A} (x y : A) : x = y → Ret (E := E) x = Ret y.
Proof. by intros ->. Qed.
Lemma Ret_pair {E A B} (x y : A) (n m : B) : x = y → n = m → Ret (E := E) (x, n) = Ret (y, m).
Proof. by intros -> ->. Qed.

(** The length of the encoding of a constant. *)
Ltac const_len :=
  repeat match goal with
  | |- context [len (enc ?t)] =>
      is_const t; let n := eval vm_compute in (len (enc t)) in
      lazymatch n with Zpos _ => replace (len (enc t)) with n by (vm_compute; reflexivity) end
  end.

Ltac codec_solve :=
  eexists; split_and!;
  [ intros b; etransitivity; [type_byte; wire_eval; reflexivity|reflexivity]
  | eauto 20 with wire
  | wire_eval; rewrite ?len_app; const_len; apply Ret_eq; lia
  | intros rest Hrest; wire_eval; apply Ret_pair; [reflexivity|rewrite ?len_app; lia] ].
