(* ===== verification/WireFrames.v ===== *)
(** * QUIC frames without payload data: internal/wire

    One record per frame type with the parser of its body, Append and Length,
    in the files named after the frames.  The [protocol.Version] argument,
    which no codec reads, is left out.  A parser returns the frame and the
    number of bytes it consumed. *)

From stdpp Require Import strings.
From S2P Require Import Prelude QuicVarint Protocol WireBase.
Open Scope Z_scope.

(** ** ping_frame.go, handshake_done_frame.go, immediate_ack_frame.go *)

Definition PingFrame_Append (b : bytes) : outcome FrameError bytes := Ret (b ++ [FrameTypePing]).
Definition PingFrame_Length : outcome FrameError Z := Ret 1.

Definition HandshakeDoneFrame_Append (b : bytes) : outcome FrameError bytes :=
  Ret (b ++ [FrameTypeHandshakeDone]).
Definition HandshakeDoneFrame_Length : outcome FrameError Z := Ret 1.

Definition ImmediateAckFrame_Append (b : bytes) : outcome FrameError bytes :=
  appendVarint b FrameTypeImmediateAck.
Definition ImmediateAckFrame_Length : outcome FrameError Z := lenVarint FrameTypeImmediateAck.

(** ** reset_stream_frame.go *)

Record ResetStreamFrame := MkResetStreamFrame {
  rs_StreamID : Z; rs_ErrorCode : Z; rs_FinalSize : Z; rs_ReliableSize : Z }.

Definition parseResetStreamFrame (b : bytes) (isResetStreamAt : bool)
    : outcome FrameError (ResetStreamFrame * Z) :=
  let startLen := len b in
  '(streamID, b) ← varint b;
  '(errorCode, b) ← varint b;
  '(finalSize, b) ← varint b;
  '(reliableSize, b) ← (if isResetStreamAt then varint b else Ret (0, b));
  if reliableSize >? finalSize then Throw (errReliableSize reliableSize finalSize)
  else Ret (MkResetStreamFrame (i64 streamID) errorCode (i64 finalSize) (i64 reliableSize),
            startLen - len b).

Definition ResetStreamFrame_Append (f : ResetStreamFrame) (b : bytes) : outcome FrameError bytes :=
  b ← (if rs_ReliableSize f =? 0 then appendVarint b FrameTypeResetStream
       else appendVarint b FrameTypeResetStreamAt);
  b ← appendVarint b (u64 (rs_StreamID f));
  b ← appendVarint b (rs_ErrorCode f);
  b ← appendVarint b (u64 (rs_FinalSize f));
  if rs_ReliableSize f >? 0 then appendVarint b (u64 (rs_ReliableSize f)) else Ret b.

Definition ResetStreamFrame_Length (f : ResetStreamFrame) : outcome FrameError Z :=
  size ← (if rs_ReliableSize f >? 0
          then l ← lenVarint (u64 (rs_ReliableSize f)); Ret (1 + l) else Ret 1);
  l1 ← lenVarint (u64 (rs_StreamID f));
  l2 ← lenVarint (rs_ErrorCode f);
  l3 ← lenVarint (u64 (rs_FinalSize f));
  Ret (size + l1 + l2 + l3).

(** ** stop_sending_frame.go *)

Record StopSendingFrame := MkStopSendingFrame { ss_StreamID : Z; ss_ErrorCode : Z }.

Definition parseStopSendingFrame (b : bytes) : outcome FrameError (StopSendingFrame * Z) :=
  let startLen := len b in
  '(streamID, b) ← varint b;
  '(errorCode, b) ← varint b;
  Ret (MkStopSendingFrame (i64 streamID) errorCode, startLen - len b).

Definition StopSendingFrame_Length (f : StopSendingFrame) : outcome FrameError Z :=
  l1 ← lenVarint (u64 (ss_StreamID f));
  l2 ← lenVarint (ss_ErrorCode f);
  Ret (1 + (l1 + l2)).

Definition StopSendingFrame_Append (f : StopSendingFrame) (b : bytes) : outcome FrameError bytes :=
  let b := b ++ [FrameTypeStopSending] in
  b ← appendVarint b (u64 (ss_StreamID f));
  appendVarint b (ss_ErrorCode f).

(** ** new_token_frame.go *)

Record NewTokenFrame := MkNewTokenFrame { nt_Token : bytes }.

Definition parseNewTokenFrame (b : bytes) : outcome FrameError (NewTokenFrame * Z) :=
  let startLen := len b in
  '(tokenLen, b) ← varint b;
  let l := startLen - len b in
  if tokenLen =? 0 then Throw errEmptyToken
  else if len b <? tokenLen then Throw (ReadErr EOF)
  else
    token ← or_panic (slice_to b tokenLen);
    Ret (MkNewTokenFrame token, l + i64 tokenLen).

Definition NewTokenFrame_Append (f : NewTokenFrame) (b : bytes) : outcome FrameError bytes :=
  let b := b ++ [FrameTypeNewToken] in
  b ← appendVarint b (u64 (len (nt_Token f)));
  Ret (b ++ nt_Token f).

Definition NewTokenFrame_Length (f : NewTokenFrame) : outcome FrameError Z :=
  l ← lenVarint (u64 (len (nt_Token f)));
  Ret (1 + (l + len (nt_Token f))).

(** ** max_data_frame.go, data_blocked_frame.go *)

Record MaxDataFrame := MkMaxDataFrame { md_MaximumData : Z }.

Definition ParseMaxDataFrame (b : bytes) : outcome FrameError (Z * Z) :=
  let startLen := len b in
  '(maximumData, b) ← varint b;
  Ret (i64 maximumData, startLen - len b).

Definition parseMaxDataFrame (b : bytes) : outcome FrameError (MaxDataFrame * Z) :=
  '(maximumData, l) ← ParseMaxDataFrame b;
  Ret (MkMaxDataFrame maximumData, l).

Definition MaxDataFrame_Append (f : MaxDataFrame) (b : bytes) : outcome FrameError bytes :=
  let b := b ++ [FrameTypeMaxData] in
  appendVarint b (u64 (md_MaximumData f)).

Definition MaxDataFrame_Length (f : MaxDataFrame) : outcome FrameError Z :=
  l ← lenVarint (u64 (md_MaximumData f));
  Ret (1 + l).

Record DataBlockedFrame := MkDataBlockedFrame { db_MaximumData : Z }.

Definition parseDataBlockedFrame (b : bytes) : outcome FrameError (DataBlockedFrame * Z) :=
  let startLen := len b in
  '(offset, b) ← varint b;
  Ret (MkDataBlockedFrame (i64 offset), startLen - len b).

Definition DataBlockedFrame_Append (f : DataBlockedFrame) (b : bytes) : outcome FrameError bytes :=
  let b := b ++ [FrameTypeDataBlocked] in
  appendVarint b (u64 (db_MaximumData f)).

Definition DataBlockedFrame_Length (f : DataBlockedFrame) : outcome FrameError Z :=
  l ← lenVarint (u64 (db_MaximumData f));
  Ret (1 + l).

(** ** max_stream_data_frame.go, stream_data_blocked_frame.go *)

Record MaxStreamDataFrame := MkMaxStreamDataFrame {
  msd_StreamID : Z; msd_MaximumStreamData : Z }.

Definition ParseMaxStreamDataFrame (b : bytes) : outcome FrameError (Z * Z * Z) :=
  let startLen := len b in
  '(sid, b) ← varint b;
  '(offset, b) ← varint b;
  Ret (i64 sid, i64 offset, startLen - len b).

Definition parseMaxStreamDataFrame (b : bytes) : outcome FrameError (MaxStreamDataFrame * Z) :=
  '(streamID, maximumStreamData, l) ← ParseMaxStreamDataFrame b;
  Ret (MkMaxStreamDataFrame streamID maximumStreamData, l).

Definition MaxStreamDataFrame_Append (f : MaxStreamDataFrame) (b : bytes)
    : outcome FrameError bytes :=
  let b := b ++ [FrameTypeMaxStreamData] in
  b ← appendVarint b (u64 (msd_StreamID f));
  appendVarint b (u64 (msd_MaximumStreamData f)).

Definition MaxStreamDataFrame_Length (f : MaxStreamDataFrame) : outcome FrameError Z :=
  l1 ← lenVarint (u64 (msd_StreamID f));
  l2 ← lenVarint (u64 (msd_MaximumStreamData f));
  Ret (1 + (l1 + l2)).

Record StreamDataBlockedFrame := MkStreamDataBlockedFrame {
  sdb_StreamID : Z; sdb_MaximumStreamData : Z }.

Definition parseStreamDataBlockedFrame (b : bytes)
    : outcome FrameError (StreamDataBlockedFrame * Z) :=
  let startLen := len b in
  '(sid, b) ← varint b;
  '(offset, b') ← varint b;
  let l := len b - len b' in
  Ret (MkStreamDataBlockedFrame (i64 sid) (i64 offset), startLen - len b + l).

Definition StreamDataBlockedFrame_Append (f : StreamDataBlockedFrame) (b : bytes)
    : outcome FrameError bytes :=
  let b := b ++ [0x15] in
  b ← appendVarint b (u64 (sdb_StreamID f));
  appendVarint b (u64 (sdb_MaximumStreamData f)).

Definition StreamDataBlockedFrame_Length (f : StreamDataBlockedFrame) : outcome FrameError Z :=
  l1 ← lenVarint (u64 (sdb_StreamID f));
  l2 ← lenVarint (u64 (sdb_MaximumStreamData f));
  Ret (1 + (l1 + l2)).

(** ** max_streams_frame.go, streams_blocked_frame.go *)

Record MaxStreamsFrame := MkMaxStreamsFrame { ms_Type : StreamType; ms_MaxStreamNum : Z }.

Definition parseMaxStreamsFrame (b : bytes) (typ : Z) : outcome FrameError (MaxStreamsFrame * Z) :=
  let startLen := len b in
  let type := if typ =? FrameTypeBidiMaxStreams then StreamTypeBidi else StreamTypeUni in
  '(streamID, b) ← varint b;
  if i64 streamID >? MaxStreamCount then Throw (errStreamCount (i64 streamID))
  else Ret (MkMaxStreamsFrame type (i64 streamID), startLen - len b).

Definition MaxStreamsFrame_Append (f : MaxStreamsFrame) (b : bytes) : outcome FrameError bytes :=
  let b :=
    match ms_Type f with
    | StreamTypeBidi => b ++ [FrameTypeBidiMaxStreams]
    | StreamTypeUni => b ++ [FrameTypeUniMaxStreams]
    end in
  appendVarint b (u64 (ms_MaxStreamNum f)).

Definition MaxStreamsFrame_Length (f : MaxStreamsFrame) : outcome FrameError Z :=
  l ← lenVarint (u64 (ms_MaxStreamNum f));
  Ret (1 + l).

Record StreamsBlockedFrame := MkStreamsBlockedFrame { sb_Type : StreamType; sb_StreamLimit : Z }.

Definition parseStreamsBlockedFrame (b : bytes) (typ : Z)
    : outcome FrameError (StreamsBlockedFrame * Z) :=
  let startLen := len b in
  let type := if typ =? FrameTypeBidiStreamBlocked then StreamTypeBidi else StreamTypeUni in
  '(streamLimit, b) ← varint b;
  if i64 streamLimit >? MaxStreamCount then Throw (errStreamCount (i64 streamLimit))
  else Ret (MkStreamsBlockedFrame type (i64 streamLimit), startLen - len b).

Definition StreamsBlockedFrame_Append (f : StreamsBlockedFrame) (b : bytes)
    : outcome FrameError bytes :=
  let b :=
    match sb_Type f with
    | StreamTypeBidi => b ++ [FrameTypeBidiStreamBlocked]
    | StreamTypeUni => b ++ [FrameTypeUniStreamBlocked]
    end in
  appendVarint b (u64 (sb_StreamLimit f)).

Definition StreamsBlockedFrame_Length (f : StreamsBlockedFrame) : outcome FrameError Z :=
  l ← lenVarint (u64 (sb_StreamLimit f));
  Ret (1 + l).

(** ** path_challenge_frame.go, path_response_frame.go *)

Record PathChallengeFrame := MkPathChallengeFrame { pc_Data : bytes }.

Definition parsePathChallengeFrame (b : bytes) : outcome FrameError (PathChallengeFrame * Z) :=
  '(data, _) ← fixed 8 (ReadErr EOF) b;
  Ret (MkPathChallengeFrame data, 8).

Definition PathChallengeFrame_Append (f : PathChallengeFrame) (b : bytes)
    : outcome FrameError bytes :=
  let b := b ++ [FrameTypePathChallenge] in
  Ret (b ++ pc_Data f).

Definition PathChallengeFrame_Length : outcome FrameError Z := Ret (1 + 8).

Record PathResponseFrame := MkPathResponseFrame { pr_Data : bytes }.

Definition parsePathResponseFrame (b : bytes) : outcome FrameError (PathResponseFrame * Z) :=
  '(data, _) ← fixed 8 (ReadErr EOF) b;
  Ret (MkPathResponseFrame data, 8).

Definition PathResponseFrame_Append (f : PathResponseFrame) (b : bytes)
    : outcome FrameError bytes :=
  let b := b ++ [FrameTypePathResponse] in
  Ret (b ++ pr_Data f).

Definition PathResponseFrame_Length : outcome FrameError Z := Ret (1 + 8).

(** ** connection_close_frame.go *)

Record ConnectionCloseFrame := MkConnectionCloseFrame {
  cc_IsApplicationError : bool; cc_ErrorCode : Z; cc_FrameType : Z; cc_ReasonPhrase : bytes }.

Definition parseConnectionCloseFrame (b : bytes) (typ : Z)
    : outcome FrameError (ConnectionCloseFrame * Z) :=
  let startLen := len b in
  let isApplicationError := typ =? FrameTypeApplicationClose in
  '(ec, b) ← varint b;
  '(ft, b) ← (if negb isApplicationError then varint b else Ret (0, b));
  '(reasonPhraseLen, b) ← varint b;
  if i64 reasonPhraseLen >? len b then Throw (ReadErr EOF)
  else
    reasonPhrase ← or_panic (slice_to b reasonPhraseLen);
    Ret (MkConnectionCloseFrame isApplicationError ec ft reasonPhrase,
         startLen - len b + i64 reasonPhraseLen).

Definition ConnectionCloseFrame_Length (f : ConnectionCloseFrame) : outcome FrameError Z :=
  l1 ← lenVarint (cc_ErrorCode f);
  l2 ← lenVarint (u64 (len (cc_ReasonPhrase f)));
  let length := 1 + (l1 + l2) + len (cc_ReasonPhrase f) in
  if negb (cc_IsApplicationError f)
  then l ← lenVarint (cc_FrameType f); Ret (length + l)
  else Ret length.

Definition ConnectionCloseFrame_Append (f : ConnectionCloseFrame) (b : bytes)
    : outcome FrameError bytes :=
  let b := if cc_IsApplicationError f then b ++ [FrameTypeApplicationClose]
           else b ++ [FrameTypeConnectionClose] in
  b ← appendVarint b (cc_ErrorCode f);
  b ← (if negb (cc_IsApplicationError f) then appendVarint b (cc_FrameType f) else Ret b);
  b ← appendVarint b (u64 (len (cc_ReasonPhrase f)));
  Ret (b ++ cc_ReasonPhrase f).

(** ** ack_frequency_frame.go

    Durations are nanoseconds. *)

Definition Microsecond : Z := 1000.
Definition MaxInt64 : Z := 2 ^ 63 - 1.

Record AckFrequencyFrame := MkAckFrequencyFrame {
  af_SequenceNumber : Z; af_AckElicitingThreshold : Z;
  af_RequestMaxAckDelay : Z; af_ReorderingThreshold : Z }.

Definition parseAckFrequencyFrame (b : bytes) : outcome FrameError (AckFrequencyFrame * Z) :=
  let startLen := len b in
  '(seq, b) ← varint b;
  '(aeth, b) ← varint b;
  '(mad, b) ← varint b;
  let maxAckDelay := i64 (i64 mad * Microsecond) in
  let maxAckDelay := if maxAckDelay <? 0 then MaxInt64 else maxAckDelay in
  '(rth, b) ← varint b;
  Ret (MkAckFrequencyFrame seq aeth maxAckDelay (i64 rth), startLen - len b).

Definition AckFrequencyFrame_Append (f : AckFrequencyFrame) (b : bytes)
    : outcome FrameError bytes :=
  b ← appendVarint b FrameTypeAckFrequency;
  b ← appendVarint b (af_SequenceNumber f);
  b ← appendVarint b (af_AckElicitingThreshold f);
  b ← appendVarint b (u64 (Z.quot (af_RequestMaxAckDelay f) Microsecond));
  appendVarint b (u64 (af_ReorderingThreshold f)).

Definition AckFrequencyFrame_Length (f : AckFrequencyFrame) : outcome FrameError Z :=
  l1 ← lenVarint (af_SequenceNumber f);
  l2 ← lenVarint (af_AckElicitingThreshold f);
  l3 ← lenVarint (u64 (Z.quot (af_RequestMaxAckDelay f) Microsecond));
  l4 ← lenVarint (u64 (af_ReorderingThreshold f));
  Ret (2 + l1 + l2 + l3 + l4).

(** ** path_frames.go *)

Definition PathIDMax : Z := 2 ^ 32 - 1.

(** The path identifier and the bytes that follow it: the callers continue with
    [b = b[l:]]. *)
Definition parsePathID (b : bytes) : outcome FrameError (Z * bytes) :=
  '(v, b) ← varint b;
  if v >? PathIDMax then Throw errInvalidPathID else Ret (u32 v, b).

Record PathAbandonFrame := MkPathAbandonFrame { pa_PathID : Z; pa_ErrorCode : Z }.

Definition parsePathAbandonFrame (b : bytes) : outcome FrameError (PathAbandonFrame * Z) :=
  let startLen := len b in
  '(pid, b) ← parsePathID b;
  '(code, b) ← varint b;
  Ret (MkPathAbandonFrame pid code, startLen - len b).

Definition PathAbandonFrame_Append (f : PathAbandonFrame) (b : bytes) : outcome FrameError bytes :=
  b ← appendVarint b FrameTypePathAbandon;
  b ← appendVarint b (pa_PathID f);
  appendVarint b (pa_ErrorCode f).

Definition PathAbandonFrame_Length (f : PathAbandonFrame) : outcome FrameError Z :=
  l0 ← lenVarint FrameTypePathAbandon;
  l1 ← lenVarint (pa_PathID f);
  l2 ← lenVarint (pa_ErrorCode f);
  Ret (l0 + l1 + l2).

Definition parsePathStatus (b : bytes) : outcome FrameError (Z * Z * Z) :=
  let startLen := len b in
  '(pid, b) ← parsePathID b;
  '(seq, b) ← varint b;
  Ret (pid, seq, startLen - len b).

Definition appendPathStatus (b : bytes) (typ pid seq : Z) : outcome FrameError bytes :=
  b ← appendVarint b typ;
  b ← appendVarint b pid;
  appendVarint b seq.

Definition pathStatusLength (typ pid seq : Z) : outcome FrameError Z :=
  l0 ← lenVarint typ;
  l1 ← lenVarint pid;
  l2 ← lenVarint seq;
  Ret (l0 + l1 + l2).

Record PathStatusBackupFrame := MkPathStatusBackupFrame { psb_PathID : Z; psb_SeqNo : Z }.

Definition parsePathStatusBackupFrame (b : bytes)
    : outcome FrameError (PathStatusBackupFrame * Z) :=
  '(pid, seq, n) ← parsePathStatus b;
  Ret (MkPathStatusBackupFrame pid seq, n).

Definition PathStatusBackupFrame_Append (f : PathStatusBackupFrame) (b : bytes)
    : outcome FrameError bytes :=
  appendPathStatus b FrameTypePathStatusBackup (psb_PathID f) (psb_SeqNo f).

Definition PathStatusBackupFrame_Length (f : PathStatusBackupFrame) : outcome FrameError Z :=
  pathStatusLength FrameTypePathStatusBackup (psb_PathID f) (psb_SeqNo f).

Record PathStatusAvailableFrame := MkPathStatusAvailableFrame { psa_PathID : Z; psa_SeqNo : Z }.

Definition parsePathStatusAvailableFrame (b : bytes)
    : outcome FrameError (PathStatusAvailableFrame * Z) :=
  '(pid, seq, n) ← parsePathStatus b;
  Ret (MkPathStatusAvailableFrame pid seq, n).

Definition PathStatusAvailableFrame_Append (f : PathStatusAvailableFrame) (b : bytes)
    : outcome FrameError bytes :=
  appendPathStatus b FrameTypePathStatusAvailable (psa_PathID f) (psa_SeqNo f).

Definition PathStatusAvailableFrame_Length (f : PathStatusAvailableFrame)
    : outcome FrameError Z :=
  pathStatusLength FrameTypePathStatusAvailable (psa_PathID f) (psa_SeqNo f).

Definition appendSinglePathID (b : bytes) (typ pid : Z) : outcome FrameError bytes :=
  b ← appendVarint b typ;
  appendVarint b pid.

Definition singlePathIDLength (typ pid : Z) : outcome FrameError Z :=
  l0 ← lenVarint typ;
  l1 ← lenVarint pid;
  Ret (l0 + l1).

Record MaxPathIDFrame := MkMaxPathIDFrame { mp_PathID : Z }.

Definition parseMaxPathIDFrame (b : bytes) : outcome FrameError (MaxPathIDFrame * Z) :=
  let startLen := len b in
  '(pid, b) ← parsePathID b;
  Ret (MkMaxPathIDFrame pid, startLen - len b).

Definition MaxPathIDFrame_Append (f : MaxPathIDFrame) (b : bytes) : outcome FrameError bytes :=
  appendSinglePathID b FrameTypeMaxPathID (mp_PathID f).

Definition MaxPathIDFrame_Length (f : MaxPathIDFrame) : outcome FrameError Z :=
  singlePathIDLength FrameTypeMaxPathID (mp_PathID f).

Record PathsBlockedFrame := MkPathsBlockedFrame { pb_MaxPathID : Z }.

Definition parsePathsBlockedFrame (b : bytes) : outcome FrameError (PathsBlockedFrame * Z) :=
  let startLen := len b in
  '(pid, b) ← parsePathID b;
  Ret (MkPathsBlockedFrame pid, startLen - len b).

Definition PathsBlockedFrame_Append (f : PathsBlockedFrame) (b : bytes)
    : outcome FrameError bytes :=
  appendSinglePathID b FrameTypePathsBlocked (pb_MaxPathID f).

Definition PathsBlockedFrame_Length (f : PathsBlockedFrame) : outcome FrameError Z :=
  singlePathIDLength FrameTypePathsBlocked (pb_MaxPathID f).

Record PathCIDsBlockedFrame := MkPathCIDsBlockedFrame { pcb_PathID : Z; pcb_NextSeq : Z }.

Definition parsePathCIDsBlockedFrame (b : bytes) : outcome FrameError (PathCIDsBlockedFrame * Z) :=
  let startLen := len b in
  '(pid, b) ← parsePathID b;
  '(seq, b) ← varint b;
  Ret (MkPathCIDsBlockedFrame pid seq, startLen - len b).

Definition PathCIDsBlockedFrame_Append (f : PathCIDsBlockedFrame) (b : bytes)
    : outcome FrameError bytes :=
  b ← appendVarint b FrameTypePathCIDsBlocked;
  b ← appendVarint b (pcb_PathID f);
  appendVarint b (pcb_NextSeq f).

Definition PathCIDsBlockedFrame_Length (f : PathCIDsBlockedFrame) : outcome FrameError Z :=
  l0 ← lenVarint FrameTypePathCIDsBlocked;
  l1 ← lenVarint (pcb_PathID f);
  l2 ← lenVarint (pcb_NextSeq f);
  Ret (l0 + l1 + l2).

(** ** new_connection_id_frame.go, retire_connection_id_frame.go

    A nil path identifier is [None]. *)

Record NewConnectionIDFrame := MkNewConnectionIDFrame {
  nc_PathID : option Z; nc_SequenceNumber : Z; nc_RetirePriorTo : Z;
  nc_ConnectionID : ConnectionID; nc_StatelessResetToken : bytes }.

(** The optional path identifier in front of both frames. *)
Definition parseOptPathID (b : bytes) (readPath : bool) : outcome FrameError (option Z * bytes) :=
  if readPath then '(pid, b) ← parsePathID b; Ret (Some pid, b) else Ret (None, b).

Definition parseNewConnectionIDFrame (b : bytes) (readPath : bool)
    : outcome FrameError (NewConnectionIDFrame * Z) :=
  let startLen := len b in
  '(pathID, b) ← parseOptPathID b readPath;
  '(seq, b) ← varint b;
  '(ret, b) ← varint b;
  if ret >? seq then Throw (errRetirePriorTo ret seq)
  else
    match b with
    | [] => Throw (ReadErr EOF)
    | connIDLen :: b =>
        if connIDLen =? 0 then Throw errZeroLengthConnectionID
        else if connIDLen >? MaxConnIDLen then Throw ErrInvalidConnectionIDLen
        else
          '(cid, b) ← fixed connIDLen (ReadErr EOF) b;
          connID ← or_panic (ParseConnectionID cid);
          '(token, _) ← fixed 16 (ReadErr EOF) b;
          Ret (MkNewConnectionIDFrame pathID seq ret connID token, startLen - len b + 16)
    end.

Definition NewConnectionIDFrame_Append (f : NewConnectionIDFrame) (b : bytes)
    : outcome FrameError bytes :=
  b ← (match nc_PathID f with
       | Some pid => b ← appendVarint b FrameTypePathNewConnectionID; appendVarint b pid
       | None => Ret (b ++ [FrameTypeNewConnectionID])
       end);
  b ← appendVarint b (nc_SequenceNumber f);
  b ← appendVarint b (nc_RetirePriorTo f);
  let connIDLen := ConnectionID_Len (nc_ConnectionID f) in
  if connIDLen >? MaxConnIDLen then Throw (errConnectionIDLength connIDLen)
  else
    let b := b ++ [u8 connIDLen] in
    let b := b ++ ConnectionID_Bytes (nc_ConnectionID f) in
    Ret (b ++ nc_StatelessResetToken f).

Definition NewConnectionIDFrame_Length (f : NewConnectionIDFrame) : outcome FrameError Z :=
  typeLen ← (match nc_PathID f with
             | Some pid =>
                 l0 ← lenVarint FrameTypePathNewConnectionID; l1 ← lenVarint pid; Ret (l0 + l1)
             | None => Ret 1
             end);
  l2 ← lenVarint (nc_SequenceNumber f);
  l3 ← lenVarint (nc_RetirePriorTo f);
  Ret (typeLen + (l2 + l3 + 1 + ConnectionID_Len (nc_ConnectionID f)) + 16).

Record RetireConnectionIDFrame := MkRetireConnectionIDFrame {
  rc_PathID : option Z; rc_SequenceNumber : Z }.

Definition parseRetireConnectionIDFrame (b : bytes) (readPath : bool)
    : outcome FrameError (RetireConnectionIDFrame * Z) :=
  let startLen := len b in
  '(pathID, b) ← parseOptPathID b readPath;
  '(seq, b) ← varint b;
  Ret (MkRetireConnectionIDFrame pathID seq, startLen - len b).

Definition RetireConnectionIDFrame_Append (f : RetireConnectionIDFrame) (b : bytes)
    : outcome FrameError bytes :=
  b ← (match rc_PathID f with
       | Some pid => b ← appendVarint b FrameTypePathRetireConnectionID; appendVarint b pid
       | None => Ret (b ++ [FrameTypeRetireConnectionID])
       end);
  appendVarint b (rc_SequenceNumber f).

Definition RetireConnectionIDFrame_Length (f : RetireConnectionIDFrame) : outcome FrameError Z :=
  typeLen ← (match rc_PathID f with
             | Some pid =>
                 l0 ← lenVarint FrameTypePathRetireConnectionID; l1 ← lenVarint pid; Ret (l0 + l1)
             | None => Ret 1
             end);
  l2 ← lenVarint (rc_SequenceNumber f);
  Ret (typeLen + l2).

(** ** observed_addr_frame.go

    The address and the port, which end this frame and those of qnt_frames.go;
    the two parsers differ in the error for a short body. *)

Definition parseAddrPort (short : FrameError) (isIPv6 : bool) (b : bytes)
    : outcome FrameError (Addr * Z * bytes) :=
  '(addr, b) ← (if isIPv6 then '(a, b) ← fixed 16 short b; Ret (AddrFrom16 a, b)
                else '(a, b) ← fixed 4 short b; Ret (AddrFrom4 a, b));
  '(p, b) ← fixed 2 short b;
  Ret (addr, BigEndian_Uint16 p, b).

Definition appendAddrPort (b : bytes) (addr : Addr) (port : Z) : outcome FrameError bytes :=
  b ← (if Is6 addr then Ret (b ++ As16 addr)
       else v4 ← or_panic (As4 addr); Ret (b ++ v4));
  Ret (AppendUint16 b port).

Record ObservedAddrFrame := MkObservedAddrFrame { oa_SeqNo : Z; oa_Addr : Addr; oa_Port : Z }.

Definition ObservedAddrFrame_frameType (f : ObservedAddrFrame) : Z :=
  if Is6 (oa_Addr f) then FrameTypeObservedIPv6Addr else FrameTypeObservedIPv4Addr.

Definition parseObservedAddrFrame (b : bytes) (isIPv6 : bool)
    : outcome FrameError (ObservedAddrFrame * Z) :=
  let startLen := len b in
  '(seq, b) ← varint b;
  '(addr, port, b) ← parseAddrPort errInvalidObservedAddr isIPv6 b;
  Ret (MkObservedAddrFrame seq addr port, startLen - len b).

Definition ObservedAddrFrame_Append (f : ObservedAddrFrame) (b : bytes)
    : outcome FrameError bytes :=
  b ← appendVarint b (ObservedAddrFrame_frameType f);
  b ← appendVarint b (oa_SeqNo f);
  appendAddrPort b (oa_Addr f) (oa_Port f).

Definition ObservedAddrFrame_Length (f : ObservedAddrFrame) : outcome FrameError Z :=
  let ipBytes := if Is6 (oa_Addr f) then 16 else 4 in
  l0 ← lenVarint (ObservedAddrFrame_frameType f);
  l1 ← lenVarint (oa_SeqNo f);
  Ret (l0 + l1 + ipBytes + 2).

(** ** qnt_frames.go *)

Definition parseQNTAddressBody (b : bytes) (isIPv6 : bool) : outcome FrameError (Z * Addr * Z * Z) :=
  let startLen := len b in
  '(seq, b) ← varint b;
  '(addr, port, b) ← parseAddrPort errInvalidQNTAddress isIPv6 b;
  Ret (seq, addr, port, startLen - len b).

Definition appendQNTAddress (b : bytes) (addr : Addr) (port : Z) : outcome FrameError bytes :=
  appendAddrPort b addr port.

Definition qntAddressFrameLength (typ n : Z) (addr : Addr) : outcome FrameError Z :=
  let ipBytes := if Is6 addr then 16 else 4 in
  l0 ← lenVarint typ;
  l1 ← lenVarint n;
  Ret (l0 + l1 + ipBytes + 2).

Record AddAddressFrame := MkAddAddressFrame { aa_SeqNo : Z; aa_Addr : Addr; aa_Port : Z }.

Definition AddAddressFrame_frameType (f : AddAddressFrame) : Z :=
  if Is6 (aa_Addr f) then FrameTypeAddIPv6Address else FrameTypeAddIPv4Address.

Definition parseAddAddressFrame (b : bytes) (isIPv6 : bool)
    : outcome FrameError (AddAddressFrame * Z) :=
  '(seq, addr, port, n) ← parseQNTAddressBody b isIPv6;
  Ret (MkAddAddressFrame seq addr port, n).

Definition AddAddressFrame_Append (f : AddAddressFrame) (b : bytes) : outcome FrameError bytes :=
  b ← appendVarint b (AddAddressFrame_frameType f);
  b ← appendVarint b (aa_SeqNo f);
  appendQNTAddress b (aa_Addr f) (aa_Port f).

Definition AddAddressFrame_Length (f : AddAddressFrame) : outcome FrameError Z :=
  qntAddressFrameLength (AddAddressFrame_frameType f) (aa_SeqNo f) (aa_Addr f).

Record ReachOutFrame := MkReachOutFrame { ro_Round : Z; ro_Addr : Addr; ro_Port : Z }.

Definition ReachOutFrame_frameType (f : ReachOutFrame) : Z :=
  if Is6 (ro_Addr f) then FrameTypeReachOutAtIPv6 else FrameTypeReachOutAtIPv4.

Definition parseReachOutFrame (b : bytes) (isIPv6 : bool) : outcome FrameError (ReachOutFrame * Z) :=
  '(round, addr, port, n) ← parseQNTAddressBody b isIPv6;
  Ret (MkReachOutFrame round addr port, n).

Definition ReachOutFrame_Append (f : ReachOutFrame) (b : bytes) : outcome FrameError bytes :=
  b ← appendVarint b (ReachOutFrame_frameType f);
  b ← appendVarint b (ro_Round f);
  appendQNTAddress b (ro_Addr f) (ro_Port f).

Definition ReachOutFrame_Length (f : ReachOutFrame) : outcome FrameError Z :=
  qntAddressFrameLength (ReachOutFrame_frameType f) (ro_Round f) (ro_Addr f).

Record RemoveAddressFrame := MkRemoveAddressFrame { ra_SeqNo : Z }.

Definition parseRemoveAddressFrame (b : bytes) : outcome FrameError (RemoveAddressFrame * Z) :=
  let startLen := len b in
  '(seq, b) ← varint b;
  Ret (MkRemoveAddressFrame seq, startLen - len b).

Definition RemoveAddressFrame_Append (f : RemoveAddressFrame) (b : bytes)
    : outcome FrameError bytes :=
  b ← appendVarint b FrameTypeRemoveAddress;
  appendVarint b (ra_SeqNo f).

Definition RemoveAddressFrame_Length (f : RemoveAddressFrame) : outcome FrameError Z :=
  l0 ← lenVarint FrameTypeRemoveAddress;
  l1 ← lenVarint (ra_SeqNo f);
  Ret (l0 + l1).
