(* ===== verification/WireFramesFacts.v ===== *)
(** * Laws of the frame codecs of WireFrames

    For each frame: its well-formedness, that its codec keeps the promise of
    [codec], and that its parser neither panics nor consumes more than it is
    given, and returns well-formed frames. *)

From stdpp Require Import strings.
From S2P Require Import Prelude QuicVarint Protocol WireBase WireFrames.
Open Scope Z_scope.

(** A parser of a frame body: no panic, a well-formed frame, and a count of
    consumed bytes that is within the input. *)
Definition parses {F} (ok : F → Prop) (b : bytes) (m : outcome FrameError (F * Z)) : Prop :=
  safe m (λ '(f, n), ok f ∧ 0 ≤ n ≤ len b).

Ltac parse_step :=
  match goal with
  | |- parses _ _ _ => unfold parses
  | |- safe (varint ?b ≫= _) _ =>
      eapply safe_bind; [apply varint_safe; eauto|]; let r := fresh "r" in intros [? r] [? [? ?]]; pose proof (len_nonneg r)
  | |- safe (fixed ?n ?e ?b ≫= _) _ =>
      eapply safe_bind; [apply fixed_safe; eauto; lia|]; let r := fresh "r" in intros [? r] (? & ? & [? ?]); pose proof (len_nonneg r)
  | |- safe (if ?c then _ else _) _ => destruct c eqn:?
  | |- safe ((if ?c then _ else _) ≫= _) _ => destruct c eqn:?
  | |- safe (Ret _ ≫= _) _ => cbn [mbind outcome_bind]
  | |- safe (Throw _) _ => exact I
  | |- safe (Ret _) _ => cbn [safe]
  end.
Ltac parse_solve :=
  repeat parse_step; rewrite ?i64_vint, ?u64_vint in * by eauto with wire; cbn in *; intuition wire_lia.

(** ** STOP_SENDING *)

Definition StopSendingFrame_ok (f : StopSendingFrame) : Prop :=
  vint (ss_StreamID f) ∧ vint (ss_ErrorCode f).

Lemma StopSendingFrame_codec f :
  StopSendingFrame_ok f →
  codec FrameTypeStopSending (StopSendingFrame_Append f) (StopSendingFrame_Length f)
    parseStopSendingFrame f.
Proof.
  destruct f as [sid ec]. intros [H1 H2]. simpl in *.
  unfold codec, StopSendingFrame_Append, StopSendingFrame_Length, parseStopSendingFrame; cbn [ss_StreamID ss_ErrorCode].
  codec_solve.
Qed.

Lemma parseStopSendingFrame_safe b :
  Forall is_byte b → parses StopSendingFrame_ok b (parseStopSendingFrame b).
Proof.
  intros Hb. unfold parseStopSendingFrame, StopSendingFrame_ok. parse_solve.
Qed.

(** ** PING, HANDSHAKE_DONE, IMMEDIATE_ACK

    These frames are their type: the parser reads nothing. *)

Lemma empty_codec {F} typ append length (f : F) :
  (∀ b, append b = Ret (b ++ enc typ)) → length = Ret (len (enc typ)) →
  codec typ append length (λ _, Ret (f, 0)) f.
Proof.
  intros Ha ->. exists []. rewrite app_nil_r. split_and!; [done|constructor| |done].
  by rewrite len_nil, Z.add_0_r.
Qed.

(** ** RESET_STREAM, RESET_STREAM_AT *)

Definition ResetStreamFrame_ok (f : ResetStreamFrame) : Prop :=
  vint (rs_StreamID f) ∧ vint (rs_ErrorCode f) ∧ vint (rs_FinalSize f) ∧
  0 ≤ rs_ReliableSize f ≤ rs_FinalSize f.

Lemma ResetStreamFrame_codec f :
  ResetStreamFrame_ok f →
  codec (if rs_ReliableSize f =? 0 then FrameTypeResetStream else FrameTypeResetStreamAt)
    (ResetStreamFrame_Append f) (ResetStreamFrame_Length f)
    (λ b, parseResetStreamFrame b (negb (rs_ReliableSize f =? 0))) f.
Proof.
  destruct f as [sid ec fs rs]. intros (H1 & H2 & H3 & H4). cbn in *.
  assert (vint rs) as H5 by wire_lia.
  unfold codec, ResetStreamFrame_Append, ResetStreamFrame_Length, parseResetStreamFrame; cbn.
  destruct (Z.eqb_spec rs 0) as [->|Hrs]; codec_solve.
Qed.

Lemma parseResetStreamFrame_safe b at' :
  Forall is_byte b → parses ResetStreamFrame_ok b (parseResetStreamFrame b at').
Proof.
  intros Hb. unfold parseResetStreamFrame, ResetStreamFrame_ok. destruct at'; parse_solve.
Qed.

(** ** The frames that carry one or two varints *)

Ltac codec_start f := destruct f; intros Hok; cbn in Hok; destruct_and?; unfold codec; cbn.

Definition MaxDataFrame_ok (f : MaxDataFrame) : Prop := vint (md_MaximumData f).

Lemma MaxDataFrame_codec f :
  MaxDataFrame_ok f →
  codec FrameTypeMaxData (MaxDataFrame_Append f) (MaxDataFrame_Length f) parseMaxDataFrame f.
Proof.
  unfold MaxDataFrame_ok, MaxDataFrame_Append, MaxDataFrame_Length, parseMaxDataFrame,
    ParseMaxDataFrame.
  codec_start f. codec_solve.
Qed.

Lemma ParseMaxDataFrame_safe b : Forall is_byte b → parses vint b (ParseMaxDataFrame b).
Proof. intros Hb. unfold ParseMaxDataFrame. parse_solve. Qed.

Lemma parseMaxDataFrame_safe b : Forall is_byte b → parses MaxDataFrame_ok b (parseMaxDataFrame b).
Proof.
  intros Hb. eapply safe_bind; [by apply ParseMaxDataFrame_safe|]. by intros [].
Qed.

Definition DataBlockedFrame_ok (f : DataBlockedFrame) : Prop := vint (db_MaximumData f).

Lemma DataBlockedFrame_codec f :
  DataBlockedFrame_ok f →
  codec FrameTypeDataBlocked (DataBlockedFrame_Append f) (DataBlockedFrame_Length f)
    parseDataBlockedFrame f.
Proof.
  unfold DataBlockedFrame_ok, DataBlockedFrame_Append, DataBlockedFrame_Length,
    parseDataBlockedFrame.
  codec_start f. codec_solve.
Qed.

Lemma parseDataBlockedFrame_safe b :
  Forall is_byte b → parses DataBlockedFrame_ok b (parseDataBlockedFrame b).
Proof. intros Hb. unfold parseDataBlockedFrame, DataBlockedFrame_ok. parse_solve. Qed.

Definition MaxStreamDataFrame_ok (f : MaxStreamDataFrame) : Prop :=
  vint (msd_StreamID f) ∧ vint (msd_MaximumStreamData f).

Lemma MaxStreamDataFrame_codec f :
  MaxStreamDataFrame_ok f →
  codec FrameTypeMaxStreamData (MaxStreamDataFrame_Append f) (MaxStreamDataFrame_Length f)
    parseMaxStreamDataFrame f.
Proof.
  unfold MaxStreamDataFrame_ok, MaxStreamDataFrame_Append, MaxStreamDataFrame_Length,
    parseMaxStreamDataFrame, ParseMaxStreamDataFrame.
  codec_start f. codec_solve.
Qed.

Lemma ParseMaxStreamDataFrame_safe b :
  Forall is_byte b →
  safe (ParseMaxStreamDataFrame b) (λ '(id, m, n), vint id ∧ vint m ∧ 0 ≤ n ≤ len b).
Proof. intros Hb. unfold ParseMaxStreamDataFrame. parse_solve. Qed.

Lemma parseMaxStreamDataFrame_safe b :
  Forall is_byte b → parses MaxStreamDataFrame_ok b (parseMaxStreamDataFrame b).
Proof.
  intros Hb. eapply safe_bind; [by apply ParseMaxStreamDataFrame_safe|].
  unfold MaxStreamDataFrame_ok. intros [[] ?]. cbn. tauto.
Qed.

Definition StreamDataBlockedFrame_ok (f : StreamDataBlockedFrame) : Prop :=
  vint (sdb_StreamID f) ∧ vint (sdb_MaximumStreamData f).

Lemma StreamDataBlockedFrame_codec f :
  StreamDataBlockedFrame_ok f →
  codec FrameTypeStreamDataBlocked (StreamDataBlockedFrame_Append f)
    (StreamDataBlockedFrame_Length f) parseStreamDataBlockedFrame f.
Proof.
  unfold StreamDataBlockedFrame_ok, StreamDataBlockedFrame_Append, StreamDataBlockedFrame_Length,
    parseStreamDataBlockedFrame. fold FrameTypeStreamDataBlocked.
  codec_start f. codec_solve.
Qed.

Lemma parseStreamDataBlockedFrame_safe b :
  Forall is_byte b → parses StreamDataBlockedFrame_ok b (parseStreamDataBlockedFrame b).
Proof. intros Hb. unfold parseStreamDataBlockedFrame, StreamDataBlockedFrame_ok. parse_solve. Qed.

Definition MaxStreamsFrame_ok (f : MaxStreamsFrame) : Prop :=
  0 ≤ ms_MaxStreamNum f ≤ MaxStreamCount.
Definition MaxStreamsFrame_type (f : MaxStreamsFrame) : Z :=
  match ms_Type f with
  | StreamTypeBidi => FrameTypeBidiMaxStreams
  | StreamTypeUni => FrameTypeUniMaxStreams
  end.

Lemma stream_count_vint n : 0 ≤ n ≤ MaxStreamCount → vint n.
Proof. unfold MaxStreamCount, vint, Max, maxVarInt8. lia. Qed.

Lemma MaxStreamsFrame_codec f :
  MaxStreamsFrame_ok f →
  codec (MaxStreamsFrame_type f) (MaxStreamsFrame_Append f) (MaxStreamsFrame_Length f)
    (λ b, parseMaxStreamsFrame b (MaxStreamsFrame_type f)) f.
Proof.
  unfold MaxStreamsFrame_ok, MaxStreamsFrame_Append, MaxStreamsFrame_Length, parseMaxStreamsFrame,
    MaxStreamsFrame_type.
  destruct f as [[] n]; cbn; intros Hn; pose proof (stream_count_vint n Hn);
    unfold codec; codec_solve.
Qed.

Lemma parseMaxStreamsFrame_safe b typ :
  Forall is_byte b → parses MaxStreamsFrame_ok b (parseMaxStreamsFrame b typ).
Proof. intros Hb. unfold parseMaxStreamsFrame, MaxStreamsFrame_ok. parse_solve. Qed.

Definition StreamsBlockedFrame_ok (f : StreamsBlockedFrame) : Prop :=
  0 ≤ sb_StreamLimit f ≤ MaxStreamCount.
Definition StreamsBlockedFrame_type (f : StreamsBlockedFrame) : Z :=
  match sb_Type f with
  | StreamTypeBidi => FrameTypeBidiStreamBlocked
  | StreamTypeUni => FrameTypeUniStreamBlocked
  end.

Lemma StreamsBlockedFrame_codec f :
  StreamsBlockedFrame_ok f →
  codec (StreamsBlockedFrame_type f) (StreamsBlockedFrame_Append f) (StreamsBlockedFrame_Length f)
    (λ b, parseStreamsBlockedFrame b (StreamsBlockedFrame_type f)) f.
Proof.
  unfold StreamsBlockedFrame_ok, StreamsBlockedFrame_Append, StreamsBlockedFrame_Length,
    parseStreamsBlockedFrame, StreamsBlockedFrame_type.
  destruct f as [[] n]; cbn; intros Hn; pose proof (stream_count_vint n Hn);
    unfold codec; codec_solve.
Qed.

Lemma parseStreamsBlockedFrame_safe b typ :
  Forall is_byte b → parses StreamsBlockedFrame_ok b (parseStreamsBlockedFrame b typ).
Proof. intros Hb. unfold parseStreamsBlockedFrame, StreamsBlockedFrame_ok. parse_solve. Qed.

(** ** NEW_TOKEN *)

Definition NewTokenFrame_ok (f : NewTokenFrame) : Prop :=
  Forall is_byte (nt_Token f) ∧ 0 < len (nt_Token f) ∧ vint (len (nt_Token f)).

Lemma NewTokenFrame_codec f :
  NewTokenFrame_ok f →
  codec FrameTypeNewToken (NewTokenFrame_Append f) (NewTokenFrame_Length f) parseNewTokenFrame f.
Proof.
  unfold NewTokenFrame_ok, NewTokenFrame_Append, NewTokenFrame_Length, parseNewTokenFrame.
  codec_start f. codec_solve.
Qed.

Lemma parseNewTokenFrame_safe b :
  Forall is_byte b → parses NewTokenFrame_ok b (parseNewTokenFrame b).
Proof.
  intros Hb. unfold parseNewTokenFrame, NewTokenFrame_ok. repeat parse_step.
  destruct (slice_split r z) as (x & k & -> & <- & -> & _); [wire_lia|]. cbn.
  rewrite i64_vint by done. rewrite len_app in *. decompose_Forall_hyps. intuition wire_lia.
Qed.

(** ** PATH_CHALLENGE, PATH_RESPONSE *)

Definition PathChallengeFrame_ok (f : PathChallengeFrame) : Prop :=
  len (pc_Data f) = 8 ∧ Forall is_byte (pc_Data f).
Definition PathResponseFrame_ok (f : PathResponseFrame) : Prop :=
  len (pr_Data f) = 8 ∧ Forall is_byte (pr_Data f).

Lemma PathChallengeFrame_codec f :
  PathChallengeFrame_ok f →
  codec FrameTypePathChallenge (PathChallengeFrame_Append f) PathChallengeFrame_Length
    parsePathChallengeFrame f.
Proof.
  unfold PathChallengeFrame_ok, PathChallengeFrame_Append, PathChallengeFrame_Length,
    parsePathChallengeFrame.
  codec_start f. codec_solve.
Qed.

Lemma PathResponseFrame_codec f :
  PathResponseFrame_ok f →
  codec FrameTypePathResponse (PathResponseFrame_Append f) PathResponseFrame_Length
    parsePathResponseFrame f.
Proof.
  unfold PathResponseFrame_ok, PathResponseFrame_Append, PathResponseFrame_Length,
    parsePathResponseFrame.
  codec_start f. codec_solve.
Qed.

Lemma parsePathChallengeFrame_safe b :
  Forall is_byte b → parses PathChallengeFrame_ok b (parsePathChallengeFrame b).
Proof. intros Hb. unfold parsePathChallengeFrame, PathChallengeFrame_ok. parse_solve. Qed.

Lemma parsePathResponseFrame_safe b :
  Forall is_byte b → parses PathResponseFrame_ok b (parsePathResponseFrame b).
Proof. intros Hb. unfold parsePathResponseFrame, PathResponseFrame_ok. parse_solve. Qed.

(** ** CONNECTION_CLOSE *)

Definition ConnectionCloseFrame_ok (f : ConnectionCloseFrame) : Prop :=
  vint (cc_ErrorCode f) ∧ vint (cc_FrameType f) ∧
  (cc_IsApplicationError f = true → cc_FrameType f = 0) ∧
  Forall is_byte (cc_ReasonPhrase f) ∧ vint (len (cc_ReasonPhrase f)).
Definition ConnectionCloseFrame_type (f : ConnectionCloseFrame) : Z :=
  if cc_IsApplicationError f then FrameTypeApplicationClose else FrameTypeConnectionClose.

Lemma ConnectionCloseFrame_codec f :
  ConnectionCloseFrame_ok f →
  codec (ConnectionCloseFrame_type f) (ConnectionCloseFrame_Append f)
    (ConnectionCloseFrame_Length f)
    (λ b, parseConnectionCloseFrame b (ConnectionCloseFrame_type f)) f.
Proof.
  unfold ConnectionCloseFrame_ok, ConnectionCloseFrame_Append, ConnectionCloseFrame_Length,
    parseConnectionCloseFrame, ConnectionCloseFrame_type.
  destruct f as [[] ec ft rp]; cbn; intros (H1 & H2 & H3 & H4 & H5); [rewrite H3 by done|];
    unfold codec; codec_solve.
Qed.

Lemma parseConnectionCloseFrame_safe b typ :
  Forall is_byte b →
  parses ConnectionCloseFrame_ok b (parseConnectionCloseFrame b typ).
Proof.
  intros Hb. unfold parseConnectionCloseFrame, ConnectionCloseFrame_ok.
  destruct (typ =? FrameTypeApplicationClose); repeat parse_step;
    rewrite i64_vint in * by done;
    match goal with H : (?n >? len ?r) = false |- _ =>
      destruct (slice_split r n) as (x & k & -> & <- & -> & _); [wire_lia|] end;
    cbn; rewrite len_app in *; decompose_Forall_hyps; intuition (done || wire_lia || eauto with wire).
Qed.

(** ** ACK_FREQUENCY

    The delay travels in whole microseconds. *)

Definition AckFrequencyFrame_ok (f : AckFrequencyFrame) : Prop :=
  vint (af_SequenceNumber f) ∧ vint (af_AckElicitingThreshold f) ∧
  0 ≤ af_RequestMaxAckDelay f ≤ MaxInt64 ∧ vint (af_ReorderingThreshold f).

Definition AckFrequencyFrame_sent (f : AckFrequencyFrame) : AckFrequencyFrame :=
  MkAckFrequencyFrame (af_SequenceNumber f) (af_AckElicitingThreshold f)
    (af_RequestMaxAckDelay f / Microsecond * Microsecond) (af_ReorderingThreshold f).

Lemma i64_range x : - 2 ^ 63 ≤ i64 x < 2 ^ 63.
Proof.
  unfold wrapS. change (64 - 1) with 63.
  pose proof (Z.mod_pos_bound (x + 2 ^ 63) (2 ^ 64) ltac:(lia)). lia.
Qed.

Lemma AckFrequencyFrame_codec f :
  AckFrequencyFrame_ok f →
  codec FrameTypeAckFrequency (AckFrequencyFrame_Append f) (AckFrequencyFrame_Length f)
    parseAckFrequencyFrame (AckFrequencyFrame_sent f).
Proof.
  unfold AckFrequencyFrame_ok, AckFrequencyFrame_Append, AckFrequencyFrame_Length,
    parseAckFrequencyFrame, AckFrequencyFrame_sent.
  destruct f as [seq aeth d rth]; cbn. intros (H1 & H2 & H3 & H4).
  rewrite Z.quot_div_nonneg by (unfold Microsecond; lia).
  assert (vint (d / Microsecond) ∧ 0 ≤ d / Microsecond * Microsecond ≤ d) as [H5 H6].
  { unfold Microsecond, MaxInt64, vint, Max, maxVarInt8 in *.
    pose proof (Z.div_mod d 1000 ltac:(lia)). pose proof (Z.mod_pos_bound d 1000 ltac:(lia)). lia. }
  set (m := d / Microsecond) in *.
  unfold codec. eexists; split_and!;
    [intros b; etransitivity; [wire_eval; reflexivity|reflexivity]|eauto 20 with wire|..].
  - wire_eval. rewrite ?len_app. const_len. apply Ret_eq. lia.
  - intros rest Hrest. wire_eval. unfold MaxInt64 in *.
    rewrite (i64_small (m * Microsecond)) by lia. wire_eval.
    apply Ret_pair; [done|]. rewrite ?len_app. lia.
Qed.

Lemma parseAckFrequencyFrame_safe b :
  Forall is_byte b → parses AckFrequencyFrame_ok b (parseAckFrequencyFrame b).
Proof.
  intros Hb. unfold parseAckFrequencyFrame, AckFrequencyFrame_ok. repeat parse_step.
  rewrite (i64_vint z1), (i64_vint z2) by done. cbn.
  pose proof (i64_range (z1 * Microsecond)). unfold MaxInt64 in *.
  destruct (Z.ltb_spec (i64 (z1 * Microsecond)) 0); intuition wire_lia.
Qed.

(** ** The multipath frames *)

Definition path_ok (pid : Z) : Prop := 0 ≤ pid ≤ PathIDMax.

Lemma path_ok_vint pid : path_ok pid → vint pid.
Proof. unfold path_ok, PathIDMax, vint, Max, maxVarInt8. lia. Qed.
#[export] Hint Resolve path_ok_vint : wire.

Lemma parsePathID_enc pid rest :
  path_ok pid → Forall is_byte rest → parsePathID (enc pid ++ rest) = Ret (pid, rest).
Proof.
  intros Hp Hr. unfold parsePathID. wire_eval. pose proof Hp as Hp'. unfold path_ok, PathIDMax in *.
  wire_eval. by rewrite wrapU_small by lia.
Qed.

Lemma parsePathID_safe b :
  Forall is_byte b → safe (parsePathID b) (λ '(pid, r), path_ok pid ∧ rest_of 1 b r).
Proof.
  intros Hb. unfold parsePathID, path_ok, PathIDMax. repeat parse_step.
  rewrite wrapU_small by wire_lia. split; [wire_lia|done].
Qed.

Ltac parse_path_step :=
  match goal with
  | |- safe (parsePathID ?b ≫= _) _ =>
      eapply safe_bind; [apply parsePathID_safe; eauto|];
      let r := fresh "r" in intros [? r] [? [? ?]]; pose proof (len_nonneg r)
  end.
Ltac parse_path_solve :=
  repeat (parse_step || parse_path_step); rewrite ?i64_vint, ?u64_vint in * by eauto with wire;
  cbn in *; intuition wire_lia.

(** The codecs of the path frames, after the path identifier is read. *)
Ltac path_codec_solve :=
  eexists; split_and!;
  [ intros b; etransitivity; [wire_eval; reflexivity|reflexivity]
  | eauto 20 with wire
  | wire_eval; rewrite ?len_app; apply Ret_eq; lia
  | intros rest Hrest; wire_eval; rewrite parsePathID_enc by eauto 20 with wire; wire_eval;
    apply Ret_pair; [reflexivity|rewrite ?len_app; lia] ].

Definition PathAbandonFrame_ok (f : PathAbandonFrame) : Prop :=
  path_ok (pa_PathID f) ∧ vint (pa_ErrorCode f).

Lemma PathAbandonFrame_codec f :
  PathAbandonFrame_ok f →
  codec FrameTypePathAbandon (PathAbandonFrame_Append f) (PathAbandonFrame_Length f)
    parsePathAbandonFrame f.
Proof.
  unfold PathAbandonFrame_ok, PathAbandonFrame_Append, PathAbandonFrame_Length,
    parsePathAbandonFrame.
  codec_start f. path_codec_solve.
Qed.

Lemma parsePathAbandonFrame_safe b :
  Forall is_byte b → parses PathAbandonFrame_ok b (parsePathAbandonFrame b).
Proof. intros Hb. unfold parsePathAbandonFrame, PathAbandonFrame_ok. parse_path_solve. Qed.

Definition PathStatusBackupFrame_ok (f : PathStatusBackupFrame) : Prop :=
  path_ok (psb_PathID f) ∧ vint (psb_SeqNo f).
Definition PathStatusAvailableFrame_ok (f : PathStatusAvailableFrame) : Prop :=
  path_ok (psa_PathID f) ∧ vint (psa_SeqNo f).

Lemma PathStatusBackupFrame_codec f :
  PathStatusBackupFrame_ok f →
  codec FrameTypePathStatusBackup (PathStatusBackupFrame_Append f) (PathStatusBackupFrame_Length f)
    parsePathStatusBackupFrame f.
Proof.
  unfold PathStatusBackupFrame_ok, PathStatusBackupFrame_Append, PathStatusBackupFrame_Length,
    parsePathStatusBackupFrame, appendPathStatus, pathStatusLength, parsePathStatus.
  codec_start f. path_codec_solve.
Qed.

Lemma PathStatusAvailableFrame_codec f :
  PathStatusAvailableFrame_ok f →
  codec FrameTypePathStatusAvailable (PathStatusAvailableFrame_Append f)
    (PathStatusAvailableFrame_Length f) parsePathStatusAvailableFrame f.
Proof.
  unfold PathStatusAvailableFrame_ok, PathStatusAvailableFrame_Append,
    PathStatusAvailableFrame_Length, parsePathStatusAvailableFrame, appendPathStatus,
    pathStatusLength, parsePathStatus.
  codec_start f. path_codec_solve.
Qed.

Lemma parsePathStatus_safe b :
  Forall is_byte b →
  safe (parsePathStatus b) (λ '(pid, seq, n), path_ok pid ∧ vint seq ∧ 0 ≤ n ≤ len b).
Proof. intros Hb. unfold parsePathStatus. parse_path_solve. Qed.

Lemma parsePathStatusBackupFrame_safe b :
  Forall is_byte b → parses PathStatusBackupFrame_ok b (parsePathStatusBackupFrame b).
Proof.
  intros Hb. eapply safe_bind; [by apply parsePathStatus_safe|].
  unfold PathStatusBackupFrame_ok. intros [[] ?]. cbn. tauto.
Qed.

Lemma parsePathStatusAvailableFrame_safe b :
  Forall is_byte b → parses PathStatusAvailableFrame_ok b (parsePathStatusAvailableFrame b).
Proof.
  intros Hb. eapply safe_bind; [by apply parsePathStatus_safe|].
  unfold PathStatusAvailableFrame_ok. intros [[] ?]. cbn. tauto.
Qed.

Definition MaxPathIDFrame_ok (f : MaxPathIDFrame) : Prop := path_ok (mp_PathID f).
Definition PathsBlockedFrame_ok (f : PathsBlockedFrame) : Prop := path_ok (pb_MaxPathID f).
Definition PathCIDsBlockedFrame_ok (f : PathCIDsBlockedFrame) : Prop :=
  path_ok (pcb_PathID f) ∧ vint (pcb_NextSeq f).

Lemma MaxPathIDFrame_codec f :
  MaxPathIDFrame_ok f →
  codec FrameTypeMaxPathID (MaxPathIDFrame_Append f) (MaxPathIDFrame_Length f)
    parseMaxPathIDFrame f.
Proof.
  unfold MaxPathIDFrame_ok, MaxPathIDFrame_Append, MaxPathIDFrame_Length, parseMaxPathIDFrame,
    appendSinglePathID, singlePathIDLength.
  codec_start f. path_codec_solve.
Qed.

Lemma PathsBlockedFrame_codec f :
  PathsBlockedFrame_ok f →
  codec FrameTypePathsBlocked (PathsBlockedFrame_Append f) (PathsBlockedFrame_Length f)
    parsePathsBlockedFrame f.
Proof.
  unfold PathsBlockedFrame_ok, PathsBlockedFrame_Append, PathsBlockedFrame_Length,
    parsePathsBlockedFrame, appendSinglePathID, singlePathIDLength.
  codec_start f. path_codec_solve.
Qed.

Lemma PathCIDsBlockedFrame_codec f :
  PathCIDsBlockedFrame_ok f →
  codec FrameTypePathCIDsBlocked (PathCIDsBlockedFrame_Append f) (PathCIDsBlockedFrame_Length f)
    parsePathCIDsBlockedFrame f.
Proof.
  unfold PathCIDsBlockedFrame_ok, PathCIDsBlockedFrame_Append, PathCIDsBlockedFrame_Length,
    parsePathCIDsBlockedFrame.
  codec_start f. path_codec_solve.
Qed.

Lemma parseMaxPathIDFrame_safe b :
  Forall is_byte b → parses MaxPathIDFrame_ok b (parseMaxPathIDFrame b).
Proof. intros Hb. unfold parseMaxPathIDFrame, MaxPathIDFrame_ok. parse_path_solve. Qed.

Lemma parsePathsBlockedFrame_safe b :
  Forall is_byte b → parses PathsBlockedFrame_ok b (parsePathsBlockedFrame b).
Proof. intros Hb. unfold parsePathsBlockedFrame, PathsBlockedFrame_ok. parse_path_solve. Qed.

Lemma parsePathCIDsBlockedFrame_safe b :
  Forall is_byte b → parses PathCIDsBlockedFrame_ok b (parsePathCIDsBlockedFrame b).
Proof. intros Hb. unfold parsePathCIDsBlockedFrame, PathCIDsBlockedFrame_ok. parse_path_solve. Qed.

(** ** NEW_CONNECTION_ID, RETIRE_CONNECTION_ID *)

Definition opt_path_ok (p : option Z) : Prop := match p with Some pid => path_ok pid | None => True end.
Definition is_path (p : option Z) : bool := match p with Some _ => true | None => false end.

Definition NewConnectionIDFrame_ok (f : NewConnectionIDFrame) : Prop :=
  opt_path_ok (nc_PathID f) ∧ vint (nc_SequenceNumber f) ∧
  0 ≤ nc_RetirePriorTo f ≤ nc_SequenceNumber f ∧
  conn_id_ok (nc_ConnectionID f) ∧ 1 ≤ cid_l (nc_ConnectionID f) ∧
  len (nc_StatelessResetToken f) = 16 ∧ Forall is_byte (nc_StatelessResetToken f).
Definition NewConnectionIDFrame_type (f : NewConnectionIDFrame) : Z :=
  if is_path (nc_PathID f) then FrameTypePathNewConnectionID else FrameTypeNewConnectionID.

Definition RetireConnectionIDFrame_ok (f : RetireConnectionIDFrame) : Prop :=
  opt_path_ok (rc_PathID f) ∧ vint (rc_SequenceNumber f).
Definition RetireConnectionIDFrame_type (f : RetireConnectionIDFrame) : Z :=
  if is_path (rc_PathID f) then FrameTypePathRetireConnectionID else FrameTypeRetireConnectionID.

Lemma parseOptPathID_safe b readPath :
  Forall is_byte b →
  safe (parseOptPathID b readPath) (λ '(p, r), opt_path_ok p ∧ rest_of 0 b r).
Proof.
  intros Hb. unfold parseOptPathID, rest_of. destruct readPath; [|simpl; auto with lia].
  repeat (parse_step || parse_path_step). cbn. auto with lia.
Qed.

Lemma RetireConnectionIDFrame_codec f :
  RetireConnectionIDFrame_ok f →
  codec (RetireConnectionIDFrame_type f) (RetireConnectionIDFrame_Append f)
    (RetireConnectionIDFrame_Length f)
    (λ b, parseRetireConnectionIDFrame b (is_path (rc_PathID f))) f.
Proof.
  unfold RetireConnectionIDFrame_ok, RetireConnectionIDFrame_Append,
    RetireConnectionIDFrame_Length, parseRetireConnectionIDFrame, RetireConnectionIDFrame_type,
    parseOptPathID.
  destruct f as [[pid|] seq]; cbn; intros [H1 H2]; unfold codec; [path_codec_solve|codec_solve].
Qed.

Lemma parseRetireConnectionIDFrame_safe b readPath :
  Forall is_byte b → parses RetireConnectionIDFrame_ok b (parseRetireConnectionIDFrame b readPath).
Proof.
  intros Hb. unfold parses, parseRetireConnectionIDFrame, RetireConnectionIDFrame_ok.
  eapply safe_bind; [by apply parseOptPathID_safe|]. intros [p r] [Hp [Hr Hl]]. parse_solve.
Qed.

(** The connection identifier and the token at the end of the frame. *)
Definition conn_id_tail (c : ConnectionID) (token : bytes) : bytes :=
  cid_l c :: ConnectionID_Bytes c ++ token.

Section conn_id_tail.
Context (c : ConnectionID) (tok : bytes) (Hc : conn_id_ok c) (H1 : 1 ≤ cid_l c)
  (Ht : len tok = 16) (Hb : Forall is_byte tok).

Lemma conn_id_tail_bytes : Forall is_byte (conn_id_tail c tok).
Proof.
  pose proof Hc as [Hl _]. constructor; [unfold MaxConnIDLen, is_byte in *; lia|].
  apply Forall_app. split; [by apply conn_id_Bytes_is_byte|done].
Qed.

Lemma conn_id_tail_len : len (conn_id_tail c tok) = cid_l c + 17.
Proof.
  unfold conn_id_tail. rewrite len_cons, len_app, (conn_id_Bytes_len c Hc). lia.
Qed.

Lemma conn_id_tail_append (b : bytes) :
  (cid_l c >? MaxConnIDLen) = false ∧
  ((b ++ [u8 (cid_l c)]) ++ ConnectionID_Bytes c) ++ tok = b ++ conn_id_tail c tok.
Proof.
  pose proof Hc as [Hl _]. unfold MaxConnIDLen in *. split; [lia|].
  rewrite wrapU_small by lia. by rewrite <-!app_assoc.
Qed.

Lemma conn_id_tail_parse p seq ret startLen rest :
  Forall is_byte rest →
  match conn_id_tail c tok ++ rest with
  | [] => Throw (ReadErr EOF)
  | connIDLen :: b =>
      if connIDLen =? 0 then Throw errZeroLengthConnectionID
      else if connIDLen >? MaxConnIDLen then Throw ErrInvalidConnectionIDLen
      else
        '(cid, b) ← fixed connIDLen (ReadErr EOF) b;
        connID ← or_panic (ParseConnectionID cid);
        '(token, _) ← fixed 16 (ReadErr EOF) b;
        Ret (MkNewConnectionIDFrame p seq ret connID token, startLen - len b + 16)
  end = Ret (MkNewConnectionIDFrame p seq ret c tok, startLen - len (tok ++ rest) + 16).
Proof.
  intros Hrest. pose proof Hc as [Hl _]. unfold MaxConnIDLen, conn_id_tail in *. cbn [app].
  rewrite <-app_assoc. wire_eval. rewrite fixed_app by by apply conn_id_Bytes_len.
  cbn [mbind outcome_bind or_panic]. rewrite ParseConnectionID_Bytes by done. by wire_eval.
Qed.
End conn_id_tail.

Lemma NewConnectionIDFrame_codec f :
  NewConnectionIDFrame_ok f →
  codec (NewConnectionIDFrame_type f) (NewConnectionIDFrame_Append f)
    (NewConnectionIDFrame_Length f)
    (λ b, parseNewConnectionIDFrame b (is_path (nc_PathID f))) f.
Proof.
  unfold NewConnectionIDFrame_ok, NewConnectionIDFrame_Append, NewConnectionIDFrame_Length,
    parseNewConnectionIDFrame, NewConnectionIDFrame_type, parseOptPathID, ConnectionID_Len.
  destruct f as [p seq ret c tok]; cbn. intros (Hp & Hs & Hr & Hc & H1 & Ht & Hb).
  assert (vint ret) by wire_lia.
  pose proof (conn_id_tail_bytes c tok Hc H1 Hb). pose proof (conn_id_tail_len c tok Hc Ht) as Hl.
  assert (cid_l c + 16 = len (ConnectionID_Bytes c) + len tok) by (rewrite conn_id_Bytes_len by done; lia).
  destruct (conn_id_tail_append c tok Hc H1 []) as [-> _].
  destruct p as [pid|]; cbn in *; unfold codec; eexists; split_and!;
    try (intros b; etransitivity;
         [type_byte; wire_eval; rewrite !app_assoc; apply Ret_eq, conn_id_tail_append; done
         |rewrite <-!app_assoc; reflexivity]).
  1,4: eauto 20 with wire.
  1,3: wire_eval; rewrite ?len_app, ?Hl; const_len; apply Ret_eq; lia.
  all: intros rest Hrest; wire_eval.
  1: rewrite parsePathID_enc by eauto 20 with wire; wire_eval.
  all: rewrite conn_id_tail_parse by done; apply Ret_pair; [done|]; rewrite ?len_app, ?Hl; lia.
Qed.

Lemma parseNewConnectionIDFrame_safe b readPath :
  Forall is_byte b → parses NewConnectionIDFrame_ok b (parseNewConnectionIDFrame b readPath).
Proof.
  intros Hb. unfold parses, parseNewConnectionIDFrame, NewConnectionIDFrame_ok.
  eapply safe_bind; [by apply parseOptPathID_safe|]. intros [p r] [Hp [Hr Hl]].
  repeat parse_step. destruct r1 as [|l r1]; [done|]. rewrite len_cons in *.
  decompose_Forall_hyps. unfold is_byte in *. repeat parse_step.
  destruct (ParseConnectionID l0) as [c|] eqn:E; cbn.
  - apply ParseConnectionID_ok in E as [Hc Hbc]; [|done].
    pose proof (conn_id_Bytes_len c Hc). repeat parse_step. cbn.
    split; [|lia]. subst. split_and!; (done || wire_lia).
  - unfold ParseConnectionID in E. destruct (len l0 >? MaxConnIDLen) eqn:?; [lia|done].
Qed.

(** ** OBSERVED_ADDRESS and the NAT traversal frames *)

Definition addr_ok (a : Addr) : Prop :=
  match a with
  | AddrZero => False
  | Addr4 b => len b = 4 ∧ Forall is_byte b
  | Addr6 b zone => len b = 16 ∧ Forall is_byte b ∧ zone = ""
  end.
Definition port_ok (p : Z) : Prop := 0 ≤ p < 2 ^ 16.

Definition addr_bytes (a : Addr) : bytes :=
  match a with AddrZero => [] | Addr4 b => b | Addr6 b _ => b end.
Definition addr_port_bytes (a : Addr) (port : Z) : bytes :=
  addr_bytes a ++ [port / 256; port `mod` 256].

Lemma Uint16_roundtrip hi lo : is_byte hi → is_byte lo → BigEndian_Uint16 [hi; lo] = hi * 256 + lo.
Proof.
  unfold is_byte. intros. unfold BigEndian_Uint16. rewrite lor_disjoint by lia. lia.
Qed.

Lemma port_bytes p : port_ok p → is_byte (p / 256) ∧ is_byte (p `mod` 256) ∧
  ∀ b, AppendUint16 b p = b ++ [p / 256; p `mod` 256].
Proof.
  unfold port_ok, is_byte. intros Hp.
  pose proof (Z.div_mod p 256 ltac:(lia)). pose proof (Z.mod_pos_bound p 256 ltac:(lia)).
  assert (0 ≤ p / 256 < 256) by lia. split; [lia|]. split; [lia|]. intros b.
  unfold AppendUint16. rewrite Z.shiftr_div_pow2 by lia. change (2 ^ 8) with 256.
  by rewrite (wrapU_small 8 (p / 256)) by lia.
Qed.

Section addr_port.
Context (a : Addr) (p : Z) (Ha : addr_ok a) (Hp : port_ok p).

Lemma addr_port_is_byte : Forall is_byte (addr_port_bytes a p).
Proof.
  destruct (port_bytes p Hp) as (?&?&_). apply Forall_app. split; [|by rewrite !Forall_cons, Forall_nil].
  destruct a; cbn in *; tauto.
Qed.

Lemma addr_port_len : len (addr_port_bytes a p) = (if Is6 a then 16 else 4) + 2.
Proof.
  unfold addr_port_bytes. rewrite len_app. destruct a; cbn in *; [done|destruct Ha as [-> _]..]; done.
Qed.

Lemma appendAddrPort_bytes b : appendAddrPort b a p = Ret (b ++ addr_port_bytes a p).
Proof.
  destruct (port_bytes p Hp) as (_&_&E). unfold appendAddrPort, addr_port_bytes.
  destruct a; cbn in *; [done|..]; by rewrite E, <-app_assoc.
Qed.

Lemma parseAddrPort_bytes e rest :
  parseAddrPort e (Is6 a) (addr_port_bytes a p ++ rest) = Ret (a, p, rest).
Proof.
  destruct (port_bytes p Hp) as (Hh&Hl&_). unfold parseAddrPort, addr_port_bytes.
  rewrite <-app_assoc. set (pb := [p / 256; p `mod` 256]).
  assert (BigEndian_Uint16 pb = p) as Ep.
  { unfold pb. rewrite Uint16_roundtrip by done. pose proof (Z.div_mod p 256 ltac:(lia)). lia. }
  assert (len pb = 2) by done. clearbody pb.
  destruct a as [|b|b z]; cbn in *; [done|..].
  - destruct Ha as [Hb _]. wire_eval. by rewrite Ep.
  - destruct Ha as (Hb & _ & ->). wire_eval. by rewrite Ep.
Qed.
End addr_port.

Lemma parseAddrPort_safe e is6 b :
  Forall is_byte b →
  safe (parseAddrPort e is6 b)
    (λ '(a, p, r), addr_ok a ∧ Is6 a = is6 ∧ port_ok p ∧ rest_of 0 b r).
Proof.
  intros Hb. unfold parseAddrPort.
  eapply (safe_bind _ _ (λ '(a, r), addr_ok a ∧ Is6 a = is6 ∧ rest_of 0 b r)).
  { destruct is6; repeat parse_step; unfold rest_of; cbn; auto with lia. }
  intros [a r] (Ha & Hi & Hr & Hl). repeat parse_step. split_and!; [done..| |split; [done|lia]].
  destruct l as [|x [|y l]]; cbn; [unfold port_ok; lia..|].
  decompose_Forall_hyps. unfold is_byte, port_ok in *. rewrite lor_disjoint by lia. lia.
Qed.

Definition ObservedAddrFrame_ok (f : ObservedAddrFrame) : Prop :=
  vint (oa_SeqNo f) ∧ addr_ok (oa_Addr f) ∧ port_ok (oa_Port f).
Definition AddAddressFrame_ok (f : AddAddressFrame) : Prop :=
  vint (aa_SeqNo f) ∧ addr_ok (aa_Addr f) ∧ port_ok (aa_Port f).
Definition ReachOutFrame_ok (f : ReachOutFrame) : Prop :=
  vint (ro_Round f) ∧ addr_ok (ro_Addr f) ∧ port_ok (ro_Port f).
Definition RemoveAddressFrame_ok (f : RemoveAddressFrame) : Prop := vint (ra_SeqNo f).

#[export] Hint Resolve addr_port_is_byte : wire.

(** The layout the three address frames share: type, number, address, port. *)
Lemma addr_codec {F} (f : F) typ n a p e (mk : Z → Addr → Z → F) :
  vint typ → vint n → addr_ok a → port_ok p → mk n a p = f →
  codec typ
    (λ b, b ← appendVarint b typ; b ← appendVarint b n; appendAddrPort b a p)
    (l0 ← lenVarint typ; l1 ← lenVarint n; Ret (l0 + l1 + (if Is6 a then 16 else 4) + 2))
    (λ b, let startLen := len b in
          '(n, b) ← varint b; '(a, p, b) ← parseAddrPort e (Is6 a) b;
          Ret (mk n a p, startLen - len b)) f.
Proof.
  intros Ht Hn Ha Hp Hf. unfold codec. eexists; split_and!.
  - intros b. etransitivity; [|reflexivity]. wire_eval. rewrite appendAddrPort_bytes by done.
    by rewrite <-!app_assoc.
  - eauto with wire.
  - wire_eval. rewrite len_app, addr_port_len by done. apply Ret_eq. lia.
  - intros rest Hrest. cbv zeta. wire_eval. rewrite parseAddrPort_bytes by done. wire_eval.
    apply Ret_pair; [done|]. rewrite ?len_app. lia.
Qed.

Lemma frame_type_vint (c : bool) x y : vint x → vint y → vint (if c then x else y).
Proof. by destruct c. Qed.

Lemma ObservedAddrFrame_codec f :
  ObservedAddrFrame_ok f →
  codec (ObservedAddrFrame_frameType f) (ObservedAddrFrame_Append f) (ObservedAddrFrame_Length f)
    (λ b, parseObservedAddrFrame b (Is6 (oa_Addr f))) f.
Proof.
  intros (Hn & Ha & Hp).
  apply (addr_codec f _ _ _ _ errInvalidObservedAddr MkObservedAddrFrame); [|done..|by destruct f].
  apply frame_type_vint; by_decision.
Qed.

Lemma parseObservedAddrFrame_safe b is6 :
  Forall is_byte b → parses ObservedAddrFrame_ok b (parseObservedAddrFrame b is6).
Proof.
  intros Hb. unfold parseObservedAddrFrame, ObservedAddrFrame_ok. repeat parse_step.
  eapply safe_bind; [by apply parseAddrPort_safe|]. intros [[a p] r'] (?&?&?&?&?).
  pose proof (len_nonneg r'). cbn. intuition lia.
Qed.

(** The address body of the NAT traversal frames, seen through [addr_codec]. *)
Lemma qnt_codec {F} (f : F) typ n a p (mk : Z → Addr → Z → F) :
  vint typ → vint n → addr_ok a → port_ok p → mk n a p = f →
  codec typ
    (λ b, b ← appendVarint b typ; b ← appendVarint b n; appendQNTAddress b a p)
    (qntAddressFrameLength typ n a)
    (λ b, '(n, a, p, l) ← parseQNTAddressBody b (Is6 a); Ret (mk n a p, l)) f.
Proof.
  intros Ht Hn Ha Hp Hf.
  destruct (addr_codec f typ n a p errInvalidQNTAddress mk) as (body & ?&?&?&Hparse); [done..|].
  exists body. split_and!; [done..|]. intros rest Hrest. specialize (Hparse rest Hrest).
  unfold parseQNTAddressBody. cbv zeta in Hparse |- *.
  destruct (varint (body ++ rest)) as [[v r]|?|]; [|done..]. cbn [mbind outcome_bind] in *.
  by destruct (parseAddrPort _ _ r) as [[[]]|?|].
Qed.

Lemma AddAddressFrame_codec f :
  AddAddressFrame_ok f →
  codec (AddAddressFrame_frameType f) (AddAddressFrame_Append f) (AddAddressFrame_Length f)
    (λ b, parseAddAddressFrame b (Is6 (aa_Addr f))) f.
Proof.
  intros (Hn & Ha & Hp). apply (qnt_codec f _ _ _ _ MkAddAddressFrame); [|done..|by destruct f].
  apply frame_type_vint; by_decision.
Qed.

Lemma ReachOutFrame_codec f :
  ReachOutFrame_ok f →
  codec (ReachOutFrame_frameType f) (ReachOutFrame_Append f) (ReachOutFrame_Length f)
    (λ b, parseReachOutFrame b (Is6 (ro_Addr f))) f.
Proof.
  intros (Hn & Ha & Hp). apply (qnt_codec f _ _ _ _ MkReachOutFrame); [|done..|by destruct f].
  apply frame_type_vint; by_decision.
Qed.

Lemma parseQNTAddressBody_safe b is6 :
  Forall is_byte b →
  safe (parseQNTAddressBody b is6)
    (λ '(n, a, p, l), vint n ∧ addr_ok a ∧ port_ok p ∧ 0 ≤ l ≤ len b).
Proof.
  intros Hb. unfold parseQNTAddressBody. repeat parse_step.
  eapply safe_bind; [by apply parseAddrPort_safe|]. intros [[a p] r'] (?&?&?&?&?).
  pose proof (len_nonneg r'). cbn. intuition lia.
Qed.

Lemma parseAddAddressFrame_safe b is6 :
  Forall is_byte b → parses AddAddressFrame_ok b (parseAddAddressFrame b is6).
Proof.
  intros Hb. eapply safe_bind; [by apply parseQNTAddressBody_safe|].
  unfold AddAddressFrame_ok. intros [[[] ?] ?]. cbn. tauto.
Qed.

Lemma parseReachOutFrame_safe b is6 :
  Forall is_byte b → parses ReachOutFrame_ok b (parseReachOutFrame b is6).
Proof.
  intros Hb. eapply safe_bind; [by apply parseQNTAddressBody_safe|].
  unfold ReachOutFrame_ok. intros [[[] ?] ?]. cbn. tauto.
Qed.

Lemma RemoveAddressFrame_codec f :
  RemoveAddressFrame_ok f →
  codec FrameTypeRemoveAddress (RemoveAddressFrame_Append f) (RemoveAddressFrame_Length f)
    parseRemoveAddressFrame f.
Proof.
  unfold RemoveAddressFrame_ok, RemoveAddressFrame_Append, RemoveAddressFrame_Length,
    parseRemoveAddressFrame.
  codec_start f. codec_solve.
Qed.

Lemma parseRemoveAddressFrame_safe b :
  Forall is_byte b → parses RemoveAddressFrame_ok b (parseRemoveAddressFrame b).
Proof. intros Hb. unfold parseRemoveAddressFrame, RemoveAddressFrame_ok. parse_solve. Qed.
