(* ===== verification/WireAck.v ===== *)
(** * ACK frames: internal/wire/ack_frame.go, ack_range.go, path_ack_frame.go

    The packet numbers and durations are int64; their arithmetic is written
    with its wrap-around. *)

From S2P Require Import Prelude QuicVarint Protocol WireBase WireFrames.

Record AckRange := MkAckRange { ar_Smallest : Z; ar_Largest : Z }.
#[global] Instance AckRange_eq_dec : EqDecision AckRange.
Proof. solve_decision. Defined.

Definition AckRange_Len (r : AckRange) : Z := i64 (i64 (ar_Largest r - ar_Smallest r) + 1).

Record AckFrame := MkAckFrame {
  ak_AckRanges : list AckRange; ak_DelayTime : Z; ak_ECT0 : Z; ak_ECT1 : Z; ak_ECNCE : Z }.
#[global] Instance AckFrame_eq_dec : EqDecision AckFrame.
Proof. solve_decision. Defined.

Definition MaxNumAckRanges : Z := 64.
Definition AckDelayExponent : Z := 3.
Definition DefaultAckDelayExponent : Z := 3.

(** Index of a slice with a Go [int]. *)
Definition index {A} (l : list A) (i : Z) : option A :=
  if i <? 0 then None else l !! Z.to_nat i.

Definition LargestAcked (f : AckFrame) : option Z := ar_Largest <$> index (ak_AckRanges f) 0.
Definition LowestAcked (f : AckFrame) : option Z :=
  ar_Smallest <$> index (ak_AckRanges f) (len (ak_AckRanges f) - 1).
Definition HasMissingRanges (f : AckFrame) : bool := len (ak_AckRanges f) >? 1.

(** AckFrame.Reset; the loop over the ranges changes copies of them. *)
Definition AckFrame_Reset (f : AckFrame) : AckFrame := MkAckFrame [] 0 0 0 0.

(** ** validateAckRanges *)

Fixpoint consistentRanges (lastAckRange : AckRange) (ranges : list AckRange) : bool :=
  match ranges with
  | [] => true
  | ackRange :: ranges =>
      if ar_Smallest lastAckRange <=? ar_Smallest ackRange then false
      else if ar_Smallest lastAckRange <=? i64 (ar_Largest ackRange + 1) then false
      else consistentRanges ackRange ranges
  end.

Definition validateAckRanges (f : AckFrame) : bool :=
  match ak_AckRanges f with
  | [] => false
  | first :: others =>
      if existsb (λ r, ar_Smallest r >? ar_Largest r) (ak_AckRanges f) then false
      else consistentRanges first others
  end.

(** ** parseAckFrame *)

(** The loop over the further ranges.  Every round reads bytes, so one round more
    than there are bytes is enough. *)
Fixpoint parseAckBlocks (fuel : nat) (numBlocks smallest : Z) (ranges : list AckRange) (b : bytes)
    : outcome FrameError (list AckRange * bytes) :=
  if numBlocks <=? 0 then Ret (ranges, b)
  else
    match fuel with
    | O => Panic
    | S fuel =>
        '(gap, b) ← varint b;
        let gap := i64 gap in
        if smallest <? i64 (gap + 2) then Throw errInvalidAckRanges
        else
          let largest := i64 (i64 (smallest - gap) - 2) in
          '(ab, b) ← varint b;
          let ackBlock := i64 ab in
          if ackBlock >? largest then Throw errInvalidAckRanges
          else
            let smallest := i64 (largest - ackBlock) in
            parseAckBlocks fuel (numBlocks - 1) smallest (ranges ++ [MkAckRange smallest largest]) b
    end.

Definition ackDelayTime (delay ackDelayExponent : Z) : Z :=
  let delayTime := i64 (i64 (u64 (Z.shiftl (u64 (delay * 1)) ackDelayExponent)) * Microsecond) in
  if delayTime <? 0 then MaxInt64 else delayTime.

Definition parseAckFrame (frame : AckFrame) (b : bytes) (typ ackDelayExponent : Z)
    : outcome FrameError (AckFrame * Z) :=
  let startLen := len b in
  let ecn := typ =? FrameTypeAckECN in
  '(la, b) ← varint b;
  let largestAcked := i64 la in
  '(delay, b) ← varint b;
  let delayTime := ackDelayTime delay ackDelayExponent in
  '(numBlocks, b) ← varint b;
  '(ab, b) ← varint b;
  let ackBlock := i64 ab in
  if ackBlock >? largestAcked then Throw errInvalidFirstAckRange
  else
    let smallest := i64 (largestAcked - ackBlock) in
    let ranges := ak_AckRanges frame ++ [MkAckRange smallest largestAcked] in
    '(ranges, b) ← parseAckBlocks (S (length b)) numBlocks smallest ranges b;
    let frame := MkAckFrame ranges delayTime (ak_ECT0 frame) (ak_ECT1 frame) (ak_ECNCE frame) in
    if negb (validateAckRanges frame) then Throw errInvalidAckRanges
    else if ecn then
      '(ect0, b) ← varint b;
      '(ect1, b) ← varint b;
      '(ecnce, b) ← varint b;
      Ret (MkAckFrame ranges delayTime ect0 ect1 ecnce, startLen - len b)
    else Ret (frame, startLen - len b).

(** ** Append *)

Definition encodeAckDelay (delay : Z) : Z := u64 (Z.quot delay (1000 * 2 ^ AckDelayExponent)).

Definition encodeAckRange (f : AckFrame) (i : Z) : option (Z * Z) :=
  if i =? 0 then
    r ← index (ak_AckRanges f) 0;
    Some (0, u64 (i64 (ar_Largest r - ar_Smallest r)))
  else
    p ← index (ak_AckRanges f) (i - 1);
    r ← index (ak_AckRanges f) i;
    Some (u64 (i64 (i64 (ar_Smallest p - ar_Largest r) - 2)),
          u64 (i64 (ar_Largest r - ar_Smallest r))).

Definition numRanges (f : AckFrame) : Z := len (ak_AckRanges f) `min` MaxNumAckRanges.
Definition hasECN (f : AckFrame) : bool := (ak_ECT0 f >? 0) || (ak_ECT1 f >? 0) || (ak_ECNCE f >? 0).

(** [n] rounds of [for i := 1; i < numRanges; i++]. *)
Fixpoint appendAckRanges (f : AckFrame) (n : nat) (i : Z) (b : bytes) : outcome FrameError bytes :=
  match n with
  | O => Ret b
  | S n =>
      '(gap, length) ← or_panic (encodeAckRange f i);
      b ← appendVarint b gap;
      b ← appendVarint b length;
      appendAckRanges f n (i + 1) b
  end.

(** What AckFrame.Append and PathAckFrame.Append write after the frame type. *)
Definition appendAckBody (f : AckFrame) (b : bytes) : outcome FrameError bytes :=
  la ← or_panic (LargestAcked f);
  b ← appendVarint b (u64 la);
  b ← appendVarint b (encodeAckDelay (ak_DelayTime f));
  b ← appendVarint b (u64 (numRanges f - 1));
  '(_, firstRange) ← or_panic (encodeAckRange f 0);
  b ← appendVarint b firstRange;
  b ← appendAckRanges f (Z.to_nat (numRanges f - 1)) 1 b;
  if hasECN f then
    b ← appendVarint b (ak_ECT0 f);
    b ← appendVarint b (ak_ECT1 f);
    appendVarint b (ak_ECNCE f)
  else Ret b.

Definition AckFrame_Append (f : AckFrame) (b : bytes) : outcome FrameError bytes :=
  let b := if hasECN f then b ++ [FrameTypeAckECN] else b ++ [FrameTypeAck] in
  appendAckBody f b.

(** ** Length and Truncate *)

Definition lenECN (f : AckFrame) : outcome FrameError Z :=
  if hasECN f then
    l0 ← lenVarint (ak_ECT0 f);
    l1 ← lenVarint (ak_ECT1 f);
    l2 ← lenVarint (ak_ECNCE f);
    Ret (l0 + l1 + l2)
  else Ret 0.

Fixpoint lenAckRanges (f : AckFrame) (n : nat) (i length : Z) : outcome FrameError Z :=
  match n with
  | O => Ret length
  | S n =>
      '(gap, l) ← or_panic (encodeAckRange f i);
      l1 ← lenVarint gap;
      l2 ← lenVarint l;
      lenAckRanges f n (i + 1) (length + l1 + l2)
  end.

Definition AckFrame_Length (f : AckFrame) : outcome FrameError Z :=
  first ← or_panic (index (ak_AckRanges f) 0);
  l1 ← lenVarint (u64 (ar_Largest first));
  l2 ← lenVarint (encodeAckDelay (ak_DelayTime f));
  l3 ← lenVarint (u64 (i64 (ar_Largest first - ar_Smallest first)));
  length ← lenAckRanges f (Z.to_nat (numRanges f - 1)) 1 (1 + l1 + l2 + 1 + l3);
  ecn ← lenECN f;
  Ret (length + ecn).

(** The loop that stops at the first range that no longer fits. *)
Fixpoint encodableLoop (f : AckFrame) (maxSize : Z) (n : nat) (i length : Z) : outcome FrameError Z :=
  match n with
  | O => Ret (numRanges f)
  | S n =>
      '(gap, l) ← or_panic (encodeAckRange f i);
      l1 ← lenVarint gap;
      l2 ← lenVarint l;
      let rangeLen := l1 + l2 in
      if length + rangeLen >? maxSize then Ret i
      else encodableLoop f maxSize n (i + 1) (length + rangeLen)
  end.

Definition numEncodableAckRanges (f : AckFrame) (maxSize : Z) : outcome FrameError Z :=
  let length := 1 + 8 + 8 + 1 + 8 in
  let length := if hasECN f then length + (8 + 8 + 8) else length in
  let length := length + 2 * 8 * (numRanges f - 1) in
  if length <=? maxSize then Ret (numRanges f)
  else
    la ← or_panic (LargestAcked f);
    l1 ← lenVarint (u64 la);
    l2 ← lenVarint (encodeAckDelay (ak_DelayTime f));
    '(_, firstRange) ← or_panic (encodeAckRange f 0);
    l3 ← lenVarint firstRange;
    ecn ← lenECN f;
    encodableLoop f maxSize (Z.to_nat (numRanges f - 1)) 1 (1 + l1 + l2 + 1 + l3 + ecn).

Definition AckFrame_Truncate (f : AckFrame) (maxSize : Z) : outcome FrameError AckFrame :=
  n ← numEncodableAckRanges f maxSize;
  ranges ← or_panic (slice_to (ak_AckRanges f) n);
  Ret (MkAckFrame ranges (ak_DelayTime f) (ak_ECT0 f) (ak_ECT1 f) (ak_ECNCE f)).

(** ** AcksPacket *)

Definition AcksPacket (f : AckFrame) (p : Z) : option bool :=
  lo ← LowestAcked f;
  if p <? lo then Some false
  else
    hi ← LargestAcked f;
    if p >? hi then Some false
    else
      i ← sort_Search (len (ak_AckRanges f))
            (λ i, r ← index (ak_AckRanges f) i; Some (p >=? ar_Smallest r));
      r ← index (ak_AckRanges f) i;
      Some (p <=? ar_Largest r).

(** ** path_ack_frame.go *)

Record PathAckFrame := MkPathAckFrame { pk_PathID : Z; pk_Ack : AckFrame }.

Definition parsePathAckFrame (b : bytes) (ecn : bool) (ackDelayExponent : Z)
    : outcome FrameError (PathAckFrame * Z) :=
  let startLen := len b in
  '(pid, b) ← parsePathID b;
  let typ := if ecn then FrameTypeAckECN else FrameTypeAck in
  '(ack, n) ← parseAckFrame (MkAckFrame [] 0 0 0 0) b typ ackDelayExponent;
  b ← or_panic (slice_from b n);
  Ret (MkPathAckFrame pid ack, startLen - len b).

Definition PathAckFrame_Append (f : PathAckFrame) (b : bytes) : outcome FrameError bytes :=
  b ← (if hasECN (pk_Ack f) then appendVarint b FrameTypePathAckECN
       else appendVarint b FrameTypePathAck);
  b ← appendVarint b (pk_PathID f);
  appendAckBody (pk_Ack f) b.

Definition PathAckFrame_Length (f : PathAckFrame) : outcome FrameError Z :=
  let typ := if hasECN (pk_Ack f) then FrameTypePathAckECN else FrameTypePathAck in
  l ← AckFrame_Length (pk_Ack f);
  l0 ← lenVarint typ;
  l1 ← lenVarint (pk_PathID f);
  Ret (l - 1 + (l0 + l1)).
