(* ===== verification/WireAckFacts.v ===== *)
(** * Laws of the ACK frames

    The ranges of a well-formed frame descend with a gap of at least one packet
    number between neighbours.  The encoding of such a frame, its length, what
    the parser makes of it, and what the parser makes of any input. *)

From S2P Require Import Prelude QuicVarint Protocol WireBase WireFrames WireFramesFacts WireAck.

(** ** Well-formed ranges *)

(** The ranges [l] lie below [s], which is the smallest number of the range before. *)
Fixpoint descending (s : Z) (l : list AckRange) : Prop :=
  match l with
  | [] => True
  | r :: l => 0 ≤ ar_Smallest r ≤ ar_Largest r ∧ ar_Largest r + 2 ≤ s ∧ descending (ar_Smallest r) l
  end.

Definition ack_ranges_ok (l : list AckRange) : Prop :=
  match l with
  | [] => False
  | r :: l => 0 ≤ ar_Smallest r ≤ ar_Largest r ∧ ar_Largest r ≤ Max ∧ descending (ar_Smallest r) l
  end.

Definition AckFrame_ok (f : AckFrame) : Prop :=
  ack_ranges_ok (ak_AckRanges f) ∧ 0 ≤ ak_DelayTime f ≤ MaxInt64 ∧
  vint (ak_ECT0 f) ∧ vint (ak_ECT1 f) ∧ vint (ak_ECNCE f).

Lemma descending_take s l n : descending s l → descending s (take n l).
Proof.
  revert s n. induction l as [|r l IH]; intros s [|n]; cbn; [done..|]. intros (?&?&?). auto.
Qed.

Lemma descending_valid p l :
  ar_Smallest p ≤ Max → descending (ar_Smallest p) l →
  consistentRanges p l = true ∧ existsb (λ r, ar_Smallest r >? ar_Largest r) l = false.
Proof.
  unfold Max, maxVarInt8. revert p. induction l as [|r l IH]; intros p Hp; cbn; [done|].
  intros (?&?&Hd). rewrite i64_small by lia.
  destruct (IH r) as [Hc ->]; [lia|done|].
  destruct (Z.leb_spec (ar_Smallest p) (ar_Smallest r)); [lia|].
  destruct (Z.leb_spec (ar_Smallest p) (ar_Largest r + 1)); [lia|].
  rewrite Z.gtb_ltb, (proj2 (Z.ltb_ge _ _)) by lia. done.
Qed.

(** A frame with well-formed ranges passes the check at the end of the parser. *)
Lemma ack_ranges_valid l d e0 e1 e2 :
  ack_ranges_ok l → validateAckRanges (MkAckFrame l d e0 e1 e2) = true.
Proof.
  destruct l as [|r l]; [done|]. cbn. intros (?&?&Hd).
  destruct (descending_valid r l) as [-> ->]; [lia|done|].
  by rewrite Z.gtb_ltb, (proj2 (Z.ltb_ge _ _)) by lia.
Qed.

(** ** The encoding of the ranges *)

Fixpoint ranges_enc (s : Z) (l : list AckRange) : bytes :=
  match l with
  | [] => []
  | r :: l =>
      enc (s - ar_Largest r - 2) ++ enc (ar_Largest r - ar_Smallest r) ++ ranges_enc (ar_Smallest r) l
  end.

(** The gap before a range and its length are varints. *)
Lemma range_vint s r :
  0 ≤ ar_Smallest r ≤ ar_Largest r → ar_Largest r + 2 ≤ s → s ≤ Max →
  vint (s - ar_Largest r - 2) ∧ vint (ar_Largest r - ar_Smallest r).
Proof. unfold vint. lia. Qed.

Lemma ranges_enc_is_byte s l : s ≤ Max → descending s l → Forall is_byte (ranges_enc s l).
Proof.
  revert s. induction l as [|r l IH]; intros s Hs; cbn; [constructor|]. intros (Hr&Hg&Hd).
  destruct (range_vint s r) as [??]; [done..|].
  repeat (apply Forall_app; split); [by apply enc_is_byte..|]. apply IH; [lia|done].
Qed.

Lemma ranges_enc_len s l :
  s ≤ Max → descending s l → 2 * len l ≤ len (ranges_enc s l) ≤ 16 * len l.
Proof.
  revert s. induction l as [|r l IH]; intros s Hs; cbn; [by vm_compute|]. intros (Hr&Hg&Hd).
  destruct (range_vint s r) as [H1 H2]; [done..|].
  pose proof (enc_len _ H1). pose proof (enc_len _ H2).
  rewrite !len_app, len_cons. destruct (IH (ar_Smallest r)); [lia|done|]. lia.
Qed.

Lemma index_app {A} (pre suf : list A) i x :
  i = len pre → suf !! 0%nat = Some x → index (pre ++ suf) i = Some x.
Proof.
  intros -> Hx. unfold index. pose proof (len_nonneg pre). destruct (Z.ltb_spec (len pre) 0); [lia|].
  unfold len. rewrite Nat2Z.id, lookup_app_r, Nat.sub_diag by lia. done.
Qed.

Lemma index_head {A} (x : A) l : index (x :: l) 0 = Some x.
Proof. done. Qed.

Lemma encodeAckRange_next f pre p r suf :
  ak_AckRanges f = pre ++ p :: r :: suf →
  0 ≤ ar_Smallest r ≤ ar_Largest r → ar_Largest r + 2 ≤ ar_Smallest p → ar_Smallest p ≤ Max →
  encodeAckRange f (len pre + 1)
    = Some (ar_Smallest p - ar_Largest r - 2, ar_Largest r - ar_Smallest r).
Proof.
  intros E Hr Hg Hp. destruct (range_vint (ar_Smallest p) r) as [H1 H2]; [done..|].
  unfold encodeAckRange. pose proof (len_nonneg pre).
  destruct (Z.eqb_spec (len pre + 1) 0); [lia|]. rewrite E.
  rewrite (index_app pre (p :: r :: suf) (len pre + 1 - 1) p) by (lia || done).
  replace (pre ++ p :: r :: suf) with ((pre ++ [p]) ++ r :: suf) by by rewrite <-app_assoc.
  rewrite (index_app (pre ++ [p]) (r :: suf) (len pre + 1) r) by (done || by rewrite len_app).
  cbn. unfold vint, Max, maxVarInt8 in *.
  by rewrite !i64_small, !wrapU_small by (rewrite ?i64_small; lia).
Qed.

(** ** The loops over the ranges *)

Section loops.
Context (f : AckFrame).

Lemma appendAckRanges_enc suf pre p n b :
  ak_AckRanges f = pre ++ p :: suf → ar_Smallest p ≤ Max → descending (ar_Smallest p) suf →
  (n ≤ length suf)%nat →
  appendAckRanges f n (len pre + 1) b = Ret (b ++ ranges_enc (ar_Smallest p) (take n suf)).
Proof.
  revert pre p n b. induction suf as [|r suf IH]; intros pre p [|n] b E Hp Hd Hn; cbn in *;
    [by rewrite app_nil_r|lia|by rewrite app_nil_r|].
  destruct Hd as (Hr & Hg & Hd). destruct (range_vint _ _ Hr Hg Hp) as [H1 H2].
  rewrite (encodeAckRange_next f pre p r suf) by done. wire_eval.
  replace (len pre + 1 + 1) with (len (pre ++ [p]) + 1) by by rewrite len_app.
  rewrite (IH (pre ++ [p]) r); [by rewrite <-!app_assoc|by rewrite <-app_assoc|lia|done|lia].
Qed.

Lemma lenAckRanges_enc suf pre p n L :
  ak_AckRanges f = pre ++ p :: suf → ar_Smallest p ≤ Max → descending (ar_Smallest p) suf →
  (n ≤ length suf)%nat →
  lenAckRanges f n (len pre + 1) L = Ret (L + len (ranges_enc (ar_Smallest p) (take n suf))).
Proof.
  revert pre p n L. induction suf as [|r suf IH]; intros pre p [|n] L E Hp Hd Hn; cbn in *;
    [apply Ret_eq; rewrite (len_nil (A:=Z)); lia|lia|apply Ret_eq; rewrite (len_nil (A:=Z)); lia|].
  destruct Hd as (Hr & Hg & Hd). destruct (range_vint _ _ Hr Hg Hp) as [H1 H2].
  rewrite (encodeAckRange_next f pre p r suf) by done. wire_eval.
  replace (len pre + 1 + 1) with (len (pre ++ [p]) + 1) by by rewrite len_app.
  rewrite (IH (pre ++ [p]) r); [|by rewrite <-app_assoc|lia|done|lia]. apply Ret_eq. rewrite !len_app. lia.
Qed.

(** The loop of numEncodableAckRanges stops at the largest number of ranges that fits. *)
Lemma encodableLoop_spec maxSize suf pre p n L :
  ak_AckRanges f = pre ++ p :: suf → ar_Smallest p ≤ Max → descending (ar_Smallest p) suf →
  (n ≤ length suf)%nat → numRanges f = len pre + 1 + Z.of_nat n →
  ∃ m, encodableLoop f maxSize n (len pre + 1) L = Ret (len pre + 1 + Z.of_nat m) ∧ (m ≤ n)%nat ∧
    (L ≤ maxSize → L + len (ranges_enc (ar_Smallest p) (take m suf)) ≤ maxSize) ∧
    ((m < n)%nat → maxSize < L + len (ranges_enc (ar_Smallest p) (take (S m) suf))).
Proof.
  revert pre p n L. induction suf as [|r suf IH]; intros pre p [|n] L E Hp Hd Hn Hnum; cbn in *; [|lia|..].
  { exists 0%nat. rewrite Hnum. cbn [take ranges_enc]. rewrite (len_nil (A:=Z)). split_and!; [done|lia..]. }
  { exists 0%nat. rewrite Hnum. cbn [take ranges_enc]. rewrite (len_nil (A:=Z)). split_and!; [done|lia..]. }
  destruct Hd as (Hr & Hg & Hd). destruct (range_vint _ _ Hr Hg Hp) as [H1 H2].
  rewrite (encodeAckRange_next f pre p r suf) by done. wire_eval.
  set (e1 := enc _). set (e2 := enc (ar_Largest r - _)).
  destruct (Z.gtb_spec (L + (len e1 + len e2)) maxSize).
  { exists 0%nat. cbn [take ranges_enc]. rewrite take_0. cbn [ranges_enc].
    rewrite !len_app, !(len_nil (A:=Z)). split_and!; [by rewrite Z.add_0_r|lia..]. }
  replace (len pre + 1 + 1) with (len (pre ++ [p]) + 1) by by rewrite len_app.
  destruct (IH (pre ++ [p]) r n (L + (len e1 + len e2))) as (m & -> & Hm & Hfit & Hmax);
    [by rewrite <-app_assoc|lia|done|lia|rewrite len_app; change (len [p]) with 1; lia|].
  exists (S m). cbn [take ranges_enc]. fold e1 e2. rewrite !len_app in *. change (len [p]) with 1.
  split_and!; [apply Ret_eq; lia|lia|lia|]. intros Hlt. specialize (Hmax ltac:(lia)).
  destruct suf as [|r' suf]; cbn [take ranges_enc] in *; [cbn in Hn; lia|]. rewrite ?len_app in *. lia.
Qed.
End loops.

(** ** The delay *)

Lemma encodeAckDelay_spec d :
  0 ≤ d ≤ MaxInt64 →
  vint (encodeAckDelay d) ∧ ackDelayTime (encodeAckDelay d) AckDelayExponent = d / 8000 * 8000.
Proof.
  unfold MaxInt64. intros Hd. unfold encodeAckDelay, AckDelayExponent, ackDelayTime, Microsecond.
  change (1000 * 2 ^ 3) with 8000. rewrite Z.quot_div_nonneg by lia.
  pose proof (Z.div_mod d 8000 ltac:(lia)). pose proof (Z.mod_pos_bound d 8000 ltac:(lia)).
  set (q := d / 8000) in *. rewrite (wrapU_small 64 q) by lia. split; [wire_lia|].
  rewrite Z.mul_1_r, (wrapU_small 64 q), Z.shiftl_mul_pow2 by lia. change (2 ^ 3) with 8.
  rewrite wrapU_small, !i64_small by (rewrite ?i64_small; lia).
  destruct (Z.ltb_spec (q * 8 * 1000) 0); lia.
Qed.

Lemma ackDelayTime_range d e : 0 ≤ ackDelayTime d e ≤ MaxInt64.
Proof.
  unfold ackDelayTime, MaxInt64. set (x := _ * Microsecond). pose proof (i64_range x).
  destruct (Z.ltb_spec (i64 x) 0); lia.
Qed.

(** ** The encoding of a frame *)

(** What arrives of a frame: at most 64 ranges, the delay in units of 8 microseconds. *)
Definition AckFrame_sent (f : AckFrame) : AckFrame :=
  MkAckFrame (take 64 (ak_AckRanges f)) (ak_DelayTime f / 8000 * 8000)
    (ak_ECT0 f) (ak_ECT1 f) (ak_ECNCE f).

Definition ecn_enc (f : AckFrame) : bytes :=
  if hasECN f then enc (ak_ECT0 f) ++ enc (ak_ECT1 f) ++ enc (ak_ECNCE f) else [].

Definition ack_enc (f : AckFrame) : bytes :=
  match ak_AckRanges f with
  | [] => []
  | r :: l =>
      enc (ar_Largest r) ++ enc (encodeAckDelay (ak_DelayTime f)) ++ enc (numRanges f - 1) ++
      enc (ar_Largest r - ar_Smallest r) ++ ranges_enc (ar_Smallest r) (take 63 l) ++ ecn_enc f
  end.

Definition ack_type (f : AckFrame) : Z := if hasECN f then FrameTypeAckECN else FrameTypeAck.

Lemma hasECN_sent f : hasECN (AckFrame_sent f) = hasECN f.
Proof. done. Qed.

Section frame.
Context (d e0 e1 e2 : Z) (r : AckRange) (l : list AckRange).
Let f := MkAckFrame (r :: l) d e0 e1 e2.
Context (Hf : AckFrame_ok f).

Lemma ack_first :
  vint (ar_Largest r) ∧ vint (ar_Largest r - ar_Smallest r) ∧ ar_Smallest r ≤ Max ∧
  descending (ar_Smallest r) l ∧ LargestAcked f = Some (ar_Largest r) ∧
  encodeAckRange f 0 = Some (0, ar_Largest r - ar_Smallest r).
Proof.
  destruct Hf as ((Hr & HM & Hd) & _). cbn in *.
  assert (vint (ar_Largest r)) by wire_lia. assert (vint (ar_Largest r - ar_Smallest r)) by wire_lia.
  split_and!; [done|done|lia|done|done|]. unfold encodeAckRange. cbn [ak_AckRanges f]. rewrite index_head. cbn. by wire_eval.
Qed.

Lemma numRanges_first : numRanges f - 1 = len (take 63 l) ∧ vint (len (take 63 l)) ∧
  Z.to_nat (numRanges f - 1) = length (take 63 l) ∧ (length (take 63 l) ≤ length l)%nat ∧
  take (length (take 63 l)) l = take 63 l ∧ len (take 63 l) ≤ 63.
Proof.
  unfold numRanges, MaxNumAckRanges. cbn [ak_AckRanges f]. rewrite len_cons.
  pose proof (len_nonneg l). assert (len (take 63 l) = len l `min` 63) as E.
  { unfold len. rewrite length_take. lia. }
  rewrite E. split_and!; [lia|wire_lia|unfold len in *; lia|rewrite length_take; lia| |lia].
  rewrite length_take. destruct (Nat.le_ge_cases (length l) 63).
  - rewrite Nat.min_r, firstn_all by lia. by rewrite take_ge by lia.
  - by rewrite Nat.min_l by lia.
Qed.

Lemma ecn_enc_bytes : Forall is_byte (ecn_enc f) ∧ lenECN f = Ret (len (ecn_enc f)) ∧
  len (ecn_enc f) ≤ (if hasECN f then 24 else 0).
Proof.
  destruct Hf as (_ & _ & H0 & H1 & H2). cbn in *. unfold ecn_enc, lenECN.
  destruct (hasECN f); [|by rewrite (len_nil (A:=Z))].
  pose proof (enc_len _ H0). pose proof (enc_len _ H1). pose proof (enc_len _ H2).
  cbn. wire_eval. rewrite !len_app. split_and!; [eauto 20 with wire|apply Ret_eq; lia|lia].
Qed.

Lemma ack_enc_bytes : Forall is_byte (ack_enc f).
Proof.
  destruct ack_first as (H1 & H2 & H3 & H4 & _). destruct numRanges_first as (E & Hv & _).
  destruct Hf as (_ & Hd & _). destruct (encodeAckDelay_spec d Hd) as [H5 _].
  unfold ack_enc. cbn [ak_AckRanges ak_DelayTime f]. rewrite E.
  repeat (apply Forall_app; split); try (by apply enc_is_byte); [|apply ecn_enc_bytes].
  apply ranges_enc_is_byte; [done|]. by apply descending_take.
Qed.

Lemma appendAckBody_enc b : appendAckBody f b = Ret (b ++ ack_enc f).
Proof.
  destruct ack_first as (H1 & H2 & H3 & H4 & Ela & Efirst).
  destruct numRanges_first as (E & Hv & En & Hle & Et & _).
  destruct Hf as (_ & Hd & He0 & He1 & He2). destruct (encodeAckDelay_spec d Hd) as [H5 _].
  cbn in He0, He1, He2.
  unfold appendAckBody, ack_enc. cbn [ak_AckRanges ak_DelayTime ak_ECT0 ak_ECT1 ak_ECNCE f]. fold f.
  rewrite Ela, Efirst, En, E. cbn [or_panic]. wire_eval.
  rewrite (appendAckRanges_enc f l [] r) by done. rewrite Et. unfold ecn_enc.
  destruct (hasECN f); wire_eval; rewrite ?app_nil_r; done.
Qed.

(** The length with [k] further ranges. *)
Definition ack_len (k : nat) : Z :=
  2 + len (enc (ar_Largest r)) + len (enc (encodeAckDelay d)) +
  len (enc (ar_Largest r - ar_Smallest r)) + len (ranges_enc (ar_Smallest r) (take k l)) +
  len (ecn_enc f).

Lemma AckFrame_Length_enc : AckFrame_Length f = Ret (ack_len 63) ∧ ack_len 63 = 1 + len (ack_enc f).
Proof.
  destruct ack_first as (H1 & H2 & H3 & H4 & _).
  destruct numRanges_first as (E & Hv & En & Hle & Et & H63).
  destruct ecn_enc_bytes as (_ & Hecn & _).
  destruct Hf as (_ & Hd & _). destruct (encodeAckDelay_spec d Hd) as [H5 _].
  split.
  - unfold AckFrame_Length, ack_len. rewrite En, Hecn. cbn [ak_AckRanges f]. rewrite index_head. cbn. wire_eval.
    rewrite (lenAckRanges_enc f l [] r) by done. rewrite Et. wire_eval. apply Ret_eq. lia.
  - unfold ack_len, ack_enc. cbn [ak_AckRanges ak_DelayTime f]. rewrite !len_app.
    assert (len (enc (numRanges f - 1)) = 1) as ->; [|lia].
    by rewrite <-enc_byte by (rewrite E; pose proof (len_nonneg (take 63 l)); lia).
Qed.
End frame.

(** ** Reading the encoding back *)

Lemma parseAckBlocks_enc l fuel s ranges rest :
  s ≤ Max → descending s l → (length l ≤ fuel)%nat → Forall is_byte rest →
  parseAckBlocks fuel (len l) s ranges (ranges_enc s l ++ rest) = Ret (ranges ++ l, rest).
Proof.
  revert fuel s ranges. induction l as [|r l IH]; intros fuel s ranges Hs Hd Hfuel Hrest.
  { rewrite app_nil_r. by destruct fuel. }
  destruct Hd as (Hr & Hg & Hd). destruct (range_vint _ _ Hr Hg Hs) as [H1 H2].
  destruct fuel as [|fuel]; [cbn in Hfuel; lia|]. cbn [parseAckBlocks ranges_enc].
  pose proof (ranges_enc_is_byte (ar_Smallest r) l ltac:(lia) Hd).
  pose proof (len_nonneg l). rewrite len_cons. destruct (Z.leb_spec (1 + len l) 0); [lia|].
  wire_eval. unfold vint, Max, maxVarInt8 in *. rewrite !i64_small by (rewrite ?i64_small; lia).
  replace (s - (s - ar_Largest r - 2) - 2) with (ar_Largest r) by lia.
  destruct (Z.ltb_spec s (s - ar_Largest r - 2 + 2)); [lia|]. wire_eval.
  replace (1 + len l - 1) with (len l) by lia.
  replace (ar_Largest r - (ar_Largest r - ar_Smallest r)) with (ar_Smallest r) by lia.
  rewrite IH by (done || cbn in Hfuel; lia). rewrite <-app_assoc. by destruct r.
Qed.

Lemma parseAckFrame_enc f rest :
  AckFrame_ok f → Forall is_byte rest →
  parseAckFrame (MkAckFrame [] 0 0 0 0) (ack_enc f ++ rest) (ack_type f) AckDelayExponent
    = Ret (AckFrame_sent f, len (ack_enc f)).
Proof.
  destruct f as [[|r l] d e0 e1 e2]; [by intros []|]. set (f := MkAckFrame _ _ _ _ _).
  intros Hf Hrest. destruct (ack_first _ _ _ _ _ _ Hf) as (H1 & H2 & H3 & H4 & _).
  destruct (numRanges_first d e0 e1 e2 r l) as (E & Hv & _). fold f in E.
  destruct (ecn_enc_bytes _ _ _ _ _ _ Hf) as (Hecn & _).
  pose proof (descending_take _ _ 63 H4) as Hd'.
  pose proof (ranges_enc_is_byte _ _ H3 Hd') as Hrb.
  pose proof (ranges_enc_len _ _ H3 Hd') as Hrl.
  destruct Hf as (Hr & Hd & He0 & He1 & He2). cbn in Hr, He0, He1, He2.
  destruct (encodeAckDelay_spec d Hd) as [H5 Hdelay]. cbn [ak_DelayTime f] in *.
  unfold parseAckFrame, ack_enc. cbn [ak_AckRanges ak_DelayTime f]. fold f. rewrite E. wire_eval.
  rewrite (i64_small (ar_Largest r - _)) by wire_lia.
  replace (ar_Largest r - (ar_Largest r - ar_Smallest r)) with (ar_Smallest r) by lia.
  cbn [ak_AckRanges app]. rewrite parseAckBlocks_enc;
    [|done|done|rewrite length_app; unfold len in Hrl; lia|by apply Forall_app].
  cbn [mbind outcome_bind app]. replace (MkAckRange (ar_Smallest r) (ar_Largest r)) with r by by destruct r.
  rewrite Hdelay, ack_ranges_valid by (cbn; split_and!; [lia|lia|lia|done]). cbn [negb].
  unfold ack_type, ecn_enc, AckFrame_sent. cbn [ak_AckRanges ak_DelayTime ak_ECT0 ak_ECT1 ak_ECNCE f].
  fold f. destruct (hasECN f) eqn:Hh.
  - cbn. wire_eval. apply Ret_pair; [done|]. rewrite !len_app. lia.
  - assert (e0 = 0 ∧ e1 = 0 ∧ e2 = 0) as (-> & -> & ->).
    { unfold hasECN, vint in *. cbn in Hh. lia. }
    cbn. apply Ret_pair; [done|]. rewrite !len_app, (len_nil (A:=Z)). lia.
Qed.

Lemma AckFrame_codec f :
  AckFrame_ok f →
  codec (ack_type f) (AckFrame_Append f) (AckFrame_Length f)
    (λ b, parseAckFrame (MkAckFrame [] 0 0 0 0) b (ack_type f) AckDelayExponent) (AckFrame_sent f).
Proof.
  intros Hf. exists (ack_enc f).
  pose proof (parseAckFrame_enc f) as Hparse.
  destruct f as [[|r l] d e0 e1 e2]; [by destruct Hf|]. set (f := MkAckFrame _ _ _ _ _) in *.
  split_and!.
  - intros b. unfold AckFrame_Append, ack_type.
    destruct (hasECN f); rewrite (appendAckBody_enc _ _ _ _ _ _ Hf); type_byte; by rewrite <-app_assoc.
  - by apply ack_enc_bytes.
  - destruct (AckFrame_Length_enc _ _ _ _ _ _ Hf) as [E1 E2]. etransitivity; [exact E1|].
    rewrite E2. apply Ret_eq. f_equal. unfold ack_type. by destruct (hasECN f).
  - intros rest Hrest. by apply Hparse.
Qed.

(** ** Any input *)

Lemma parseAckBlocks_safe fuel n s ranges b :
  Forall is_byte b → (length b < fuel)%nat → 0 ≤ s ≤ Max →
  safe (parseAckBlocks fuel n s ranges b)
    (λ '(ranges', r), (∃ l, ranges' = ranges ++ l ∧ descending s l) ∧ rest_of 0 b r).
Proof.
  revert n s ranges b. induction fuel as [|fuel IH]; intros n s ranges b Hb Hfuel Hs; [lia|].
  cbn [parseAckBlocks]. destruct (n <=? 0).
  { cbn. split; [|split; [done|lia]]. exists []. by rewrite app_nil_r. }
  repeat parse_step. rewrite (i64_vint z), (i64_vint z0) in * by done.
  unfold vint, Max, maxVarInt8 in *. rewrite (i64_small (z + 2)) in * by lia.
  rewrite (i64_small (s - z)) in * by lia. rewrite (i64_small (s - z - 2)) in * by lia.
  rewrite (i64_small (s - z - 2 - z0)) by lia.
  eapply safe_mono; [apply IH; [done|unfold len in *; lia|lia]|].
  intros [ranges' r'] [(l & -> & Hl) [Hr Hle]]. split; [|split; [done|lia]].
  eexists (_ :: l). rewrite <-app_assoc. split; [done|]. cbn. split_and!; [lia..|done].
Qed.

Lemma parseAckFrame_safe b typ e :
  Forall is_byte b → parses AckFrame_ok b (parseAckFrame (MkAckFrame [] 0 0 0 0) b typ e).
Proof.
  intros Hb. unfold parses, parseAckFrame. repeat parse_step. rewrite (i64_vint z), (i64_vint z2) in * by done.
  rewrite (i64_small (z - z2)) by wire_lia.
  eapply safe_bind; [apply parseAckBlocks_safe; [done|lia|wire_lia]|].
  intros [ranges r'] [(l & -> & Hl) [Hr Hle]]. cbn [ak_AckRanges app].
  assert (ack_ranges_ok (MkAckRange (z - z2) z :: l)) as Hok
    by (cbn; unfold vint in *; split_and!; [lia..|done]).
  rewrite ack_ranges_valid by done. cbn [negb]. pose proof (ackDelayTime_range z0 e).
  pose proof (len_nonneg r'). unfold AckFrame_ok.
  destruct (typ =? FrameTypeAckECN); repeat parse_step; cbn [ak_AckRanges ak_DelayTime ak_ECT0 ak_ECT1 ak_ECNCE];
    (split; [|lia]); split_and!; first [done|lia|apply vint_0].
Qed.

(** ** PATH_ACK *)

Definition PathAckFrame_ok (f : PathAckFrame) : Prop := path_ok (pk_PathID f) ∧ AckFrame_ok (pk_Ack f).
Definition PathAckFrame_sent (f : PathAckFrame) : PathAckFrame :=
  MkPathAckFrame (pk_PathID f) (AckFrame_sent (pk_Ack f)).
Definition PathAckFrame_type (f : PathAckFrame) : Z :=
  if hasECN (pk_Ack f) then FrameTypePathAckECN else FrameTypePathAck.

Lemma PathAckFrame_codec f :
  PathAckFrame_ok f →
  codec (PathAckFrame_type f) (PathAckFrame_Append f) (PathAckFrame_Length f)
    (λ b, parsePathAckFrame b (hasECN (pk_Ack f)) AckDelayExponent) (PathAckFrame_sent f).
Proof.
  destruct f as [pid [[|r l] d e0 e1 e2]]; [by intros [_ []]|].
  set (f := MkAckFrame _ _ _ _ _). intros [Hp Hf]. cbn in Hp, Hf.
  pose proof (parseAckFrame_enc f) as Hparse. pose proof (ack_enc_bytes _ _ _ _ _ _ Hf) as Hb.
  fold f in Hb. destruct (AckFrame_Length_enc _ _ _ _ _ _ Hf) as [E1 E2]. fold f in E1.
  unfold PathAckFrame_Append, PathAckFrame_Length, PathAckFrame_type, parsePathAckFrame,
    PathAckFrame_sent; cbn [pk_Ack pk_PathID].
  assert (vint (if hasECN f then FrameTypePathAckECN else FrameTypePathAck))
    by (apply frame_type_vint; by_decision).
  eexists; split_and!.
  - intros b. transitivity (Ret (E := FrameError) (b ++
      enc (if hasECN f then FrameTypePathAckECN else FrameTypePathAck) ++ enc pid ++ ack_enc f));
      [|reflexivity].
    destruct (hasECN f); wire_eval; rewrite (appendAckBody_enc _ _ _ _ _ _ Hf);
      by rewrite <-!app_assoc.
  - eauto with wire.
  - rewrite E1, E2. cbn [mbind outcome_bind]. wire_eval. apply Ret_eq. rewrite len_app. fold f. lia.
  - intros rest Hrest. rewrite <-app_assoc, parsePathID_enc by eauto with wire.
    cbn [mbind outcome_bind].
    change (if hasECN f then FrameTypeAckECN else FrameTypeAck) with (ack_type f).
    rewrite Hparse by done. cbn [mbind outcome_bind]. rewrite slice_from_app.
    cbn [or_panic mbind outcome_bind]. apply Ret_pair; [done|]. rewrite !len_app. lia.
Qed.

Lemma parsePathAckFrame_safe b ecn e :
  Forall is_byte b → parses PathAckFrame_ok b (parsePathAckFrame b ecn e).
Proof.
  intros Hb. unfold parsePathAckFrame, PathAckFrame_ok. repeat (parse_step || parse_path_step).
  eapply safe_bind; [by apply parseAckFrame_safe|]. intros [f n] [Hf Hn].
  destruct (slice_split r n) as (x & k & -> & Hx & _ & ->); [lia|].
  pose proof (len_nonneg k). rewrite len_app in *. cbn. split; [done|lia].
Qed.

(** ** What the frame acknowledges *)

Definition acked (f : AckFrame) (p : Z) : Prop :=
  ∃ r, r ∈ ak_AckRanges f ∧ ar_Smallest r ≤ p ≤ ar_Largest r.

(** In descending ranges, an index separates the larger from the smaller ones. *)
Lemma descending_lookup s l i r :
  descending s l → l !! i = Some r →
  0 ≤ ar_Smallest r ≤ ar_Largest r ∧ ar_Largest r + 2 ≤ s ∧ descending (ar_Smallest r) (drop (S i) l).
Proof.
  revert s i. induction l as [|r' l IH]; intros s [|i]; cbn; [done..| |].
  - intros (?&?&?) [= ->]. auto.
  - intros (?&?&Hd) Hi. destruct (IH _ _ Hd Hi) as (?&?&?). split_and!; [lia..|done].
Qed.

Lemma ack_ranges_lookup l i r :
  ack_ranges_ok l → l !! i = Some r →
  0 ≤ ar_Smallest r ≤ ar_Largest r ∧ descending (ar_Smallest r) (drop (S i) l).
Proof.
  destruct l as [|r0 l], i as [|i]; cbn; [done..| |].
  - intros (?&?&?) [= ->]. auto.
  - intros (?&?&Hd) Hi. destruct (descending_lookup _ _ _ _ Hd Hi) as (?&?&?). auto.
Qed.

Lemma ack_ranges_order l i j r q :
  ack_ranges_ok l → (i < j)%nat → l !! i = Some r → l !! j = Some q → ar_Largest q + 2 ≤ ar_Smallest r.
Proof.
  intros Hl Hij Hi Hj. destruct (ack_ranges_lookup l i r Hl Hi) as [_ Hd].
  eapply (descending_lookup _ _ (j - S i) q Hd). rewrite lookup_drop. by replace (S i + (j - S i))%nat with j by lia.
Qed.

Lemma index_lookup {A} (l : list A) i : 0 ≤ i → index l i = l !! Z.to_nat i.
Proof. intros. unfold index. destruct (Z.ltb_spec i 0); [lia|done]. Qed.

(** The first range is the highest and the last one the lowest. *)
Lemma ack_bounds f p :
  AckFrame_ok f → ∃ first last,
    ak_AckRanges f !! (length (ak_AckRanges f) - 1)%nat = Some last ∧
    LowestAcked f = Some (ar_Smallest last) ∧ LargestAcked f = Some (ar_Largest first) ∧
    (acked f p → ar_Smallest last ≤ p ≤ ar_Largest first).
Proof.
  intros [Hr _]. unfold LowestAcked, LargestAcked, acked. set (l := ak_AckRanges f) in *.
  assert (0 < length l)%nat as Hl by (destruct l; [done|cbn; lia]).
  destruct (lookup_lt_is_Some_2 l 0) as [first Hfirst]; [lia|].
  destruct (lookup_lt_is_Some_2 l (length l - 1)) as [last Hlast]; [lia|].
  exists first, last. rewrite !index_lookup by (unfold len; lia). unfold len.
  change (Z.to_nat 0) with 0%nat.
  replace (Z.to_nat (Z.of_nat (length l) - 1)) with (length l - 1)%nat by lia.
  rewrite Hfirst, Hlast. split_and!; [done..|].
  intros (r & [j Hj]%list_elem_of_lookup & Hp). pose proof (lookup_lt_Some _ _ _ Hj).
  destruct (ack_ranges_lookup _ _ _ Hr Hj) as [? _].
  assert (ar_Largest r ≤ ar_Largest first).
  { destruct j as [|j]; [by simplify_eq|].
    destruct (ack_ranges_lookup _ _ _ Hr Hfirst) as [? _].
    pose proof (ack_ranges_order l 0 (S j) first r Hr ltac:(lia) Hfirst Hj). lia. }
  assert (ar_Smallest last ≤ ar_Smallest r); [|lia].
  destruct (decide (j = (length l - 1)%nat)) as [->|]; [by simplify_eq|].
  destruct (ack_ranges_lookup _ _ _ Hr Hlast) as [? _].
  pose proof (ack_ranges_order l j (length l - 1) r last Hr ltac:(lia) Hj Hlast). lia.
Qed.

(** The binary search finds the first range that starts at or below [p]. *)
Lemma ack_search l p last :
  ack_ranges_ok l → l !! (length l - 1)%nat = Some last → ar_Smallest last ≤ p →
  ∃ k r, sort_Search (len l) (λ i, r ← index l i; Some (p >=? ar_Smallest r)) = Some (Z.of_nat k) ∧
    l !! k = Some r ∧ ar_Smallest r ≤ p ∧
    ∀ j r', (j < k)%nat → l !! j = Some r' → p < ar_Smallest r'.
Proof.
  intros Hr Hlast Hlp. pose proof (lookup_lt_Some _ _ _ Hlast) as Hlen.
  set (q := λ i, match l !! Z.to_nat i with Some r => p >=? ar_Smallest r | None => false end).
  destruct (sort_Search_spec (len l) (λ i, r ← index l i; Some (p >=? ar_Smallest r)) q)
    as (k & Hs & Hk & Hbelow & Hat); [apply len_nonneg| |].
  { intros i Hi. rewrite index_lookup by lia. unfold q.
    destruct (lookup_lt_is_Some_2 l (Z.to_nat i)) as [r ->]; [unfold len in Hi; lia|done]. }
  assert (∀ r, l !! Z.to_nat (k - 1) = Some r → 0 < k → p < ar_Smallest r) as Hprev.
  { intros r Hl Hk0. specialize (Hbelow Hk0). unfold q in Hbelow. rewrite Hl in Hbelow. lia. }
  assert (k < len l) as Hlt.
  { destruct (decide (k = len l)) as [E|]; [|lia]. specialize (Hprev last).
    replace (Z.to_nat (k - 1)) with (length l - 1)%nat in Hprev by (unfold len in E; lia).
    specialize (Hprev Hlast). unfold len in E. lia. }
  destruct (lookup_lt_is_Some_2 l (Z.to_nat k)) as [r Hkr]; [unfold len in *; lia|].
  exists (Z.to_nat k), r. rewrite Z2Nat.id by lia. split_and!; [done|done| |].
  - specialize (Hat Hlt). unfold q in Hat. rewrite Hkr in Hat. lia.
  - intros j r' Hj Hr'. destruct (lookup_lt_is_Some_2 l (Z.to_nat (k - 1))) as [r1 Hr1]; [unfold len in *; lia|].
    specialize (Hprev r1 Hr1 ltac:(lia)). destruct (ack_ranges_lookup _ _ _ Hr Hr1) as [? _].
    destruct (decide (j = Z.to_nat (k - 1))) as [->|]; [by simplify_eq|].
    pose proof (ack_ranges_order l j (Z.to_nat (k - 1)) r' r1 Hr ltac:(lia) Hr' Hr1). lia.
Qed.

(** C37: AcksPacket, whose search is binary, answers for every packet number whether
    one of the ranges of the frame contains it. *)
Theorem acks_packet_exact (f : AckFrame) (p : Z) (Hf : AckFrame_ok f) :
  ∃ b, AcksPacket f p = Some b ∧ (b = true ↔ acked f p).
Proof.
  destruct (ack_bounds f p Hf) as (first & last & Hlast & Hlo & Hhi & Hb).
  unfold AcksPacket. rewrite Hlo, Hhi. cbn.
  destruct (Z.ltb_spec p (ar_Smallest last)) as [|Hlp];
    [exists false; split; [done|]; split; [done|intros ?%Hb; lia]|].
  destruct (Z.gtb_spec p (ar_Largest first));
    [exists false; split; [done|]; split; [done|intros ?%Hb; lia]|].
  destruct Hf as [Hr _]. unfold acked. set (l := ak_AckRanges f) in *.
  destruct (ack_search l p last Hr Hlast Hlp) as (k & r & -> & Hkr & Hrp & Hbelow). cbn.
  rewrite index_lookup, Nat2Z.id, Hkr by lia. cbn. eexists. split; [done|]. rewrite Z.leb_le.
  split; [intros; exists r; split; [by eapply list_elem_of_lookup_2|lia]|].
  intros (r' & [j Hj]%list_elem_of_lookup & Hp').
  destruct (Nat.lt_trichotomy j k) as [Hlt|[->|Hgt]].
  - specialize (Hbelow j r' Hlt Hj). lia.
  - simplify_eq. lia.
  - pose proof (ack_ranges_order l k j r r' Hr Hgt Hkr Hj). lia.
Qed.

Lemma acks_packet_exact_witness :
  ∃ b, AcksPacket (MkAckFrame [MkAckRange 10 12; MkAckRange 3 5] 0 0 0 0) 4 = Some b ∧
    (b = true ↔ acked (MkAckFrame [MkAckRange 10 12; MkAckRange 3 5] 0 0 0 0) 4).
Proof.
  apply (acks_packet_exact (MkAckFrame [MkAckRange 10 12; MkAckRange 3 5] 0 0 0 0) 4).
  unfold AckFrame_ok, MaxInt64. cbn. unfold vint, Max, maxVarInt8. lia.
Defined.

(** ** Truncation *)

Definition first_ranges (f : AckFrame) (n : nat) : AckFrame :=
  MkAckFrame (take n (ak_AckRanges f)) (ak_DelayTime f) (ak_ECT0 f) (ak_ECT1 f) (ak_ECNCE f).

Section truncate.
Context (d e0 e1 e2 : Z) (r : AckRange) (l : list AckRange).
Let f := MkAckFrame (r :: l) d e0 e1 e2.
Context (Hf : AckFrame_ok f).

Lemma first_ranges_ok k : AckFrame_ok (first_ranges f (S k)).
Proof.
  destruct Hf as ((?&?&Hd)&?). split; [|done]. cbn. split_and!; try lia. by apply descending_take.
Qed.

Lemma first_ranges_Length k :
  (k ≤ 63)%nat → AckFrame_Length (first_ranges f (S k)) = Ret (ack_len d e0 e1 e2 r l k).
Proof.
  intros Hk. destruct (AckFrame_Length_enc d e0 e1 e2 r (take k l) (first_ranges_ok k)) as [E _].
  etransitivity; [exact E|]. unfold ack_len. rewrite take_take, Nat.min_r by lia. done.
Qed.

(** The estimate of the fast path is an upper bound. *)
Lemma ack_len_bound k :
  ack_len d e0 e1 e2 r l k ≤ 26 + (if hasECN f then 24 else 0) + 16 * len (take k l).
Proof.
  destruct (ack_first _ _ _ _ _ _ Hf) as (H1 & H2 & H3 & H4 & _).
  destruct (ecn_enc_bytes _ _ _ _ _ _ Hf) as (_ & _ & He). fold f in He.
  destruct Hf as (_ & Hd & _). destruct (encodeAckDelay_spec d Hd) as [H5 _].
  pose proof (ranges_enc_len _ _ H3 (descending_take _ _ k H4)).
  pose proof (enc_len _ H1). pose proof (enc_len _ H2). pose proof (enc_len _ H5).
  unfold ack_len. fold f. lia.
Qed.

Lemma numEncodable_spec maxSize :
  ack_len d e0 e1 e2 r l 0 ≤ maxSize →
  ∃ k, numEncodableAckRanges f maxSize = Ret (1 + Z.of_nat k) ∧ (k ≤ length (take 63 l))%nat ∧
    ack_len d e0 e1 e2 r l k ≤ maxSize ∧
    ((k < length (take 63 l))%nat → maxSize < ack_len d e0 e1 e2 r l (S k)).
Proof.
  intros Hmin. destruct (ack_first _ _ _ _ _ _ Hf) as (H1 & H2 & H3 & H4 & Ela & Efirst).
  destruct (numRanges_first d e0 e1 e2 r l) as (E & Hv & En & Hle & Et & H63).
  destruct (ecn_enc_bytes _ _ _ _ _ _ Hf) as (_ & Hecn & _).
  fold f in E, En, Ela, Efirst, Hecn. unfold numEncodableAckRanges. rewrite E.
  set (est := if hasECN f then _ else _).
  destruct (Z.leb_spec (est + 2 * 8 * len (take 63 l)) maxSize) as [Hest|Hest].
  { exists (length (take 63 l)). split_and!; [apply Ret_eq; unfold len in E; lia|lia| |lia].
    pose proof (ack_len_bound (length (take 63 l))) as Hb. rewrite Et in Hb.
    assert (est = 26 + (if hasECN f then 24 else 0)) by (subst est; destruct (hasECN f); lia). lia. }
  destruct Hf as (_ & Hd & _). destruct (encodeAckDelay_spec d Hd) as [H5 _].
  rewrite Ela, Efirst, Hecn. cbn [or_panic ak_DelayTime f]. wire_eval.
  replace (Z.to_nat (len (take 63 l))) with (length (take 63 l)) by (unfold len; lia).
  change 1 with (len ([] : list AckRange) + 1) at 1.
  destruct (encodableLoop_spec f maxSize l [] r (length (take 63 l))
    (1 + len (enc (ar_Largest r)) + len (enc (encodeAckDelay d)) + 1 +
       len (enc (ar_Largest r - ar_Smallest r)) + len (ecn_enc f)))
    as (k & Hk & Hkl & Hfit & Hmax); [done..|unfold len in *; cbn; lia|].
  exists k. split_and!; [etransitivity; [exact Hk|]; apply Ret_eq; unfold len; cbn; lia|done|..];
    unfold ack_len in *; rewrite ?take_0 in Hmin; cbn [ranges_enc] in Hmin;
    rewrite ?(len_nil (A:=Z)) in Hmin; fold f in Hmin |- *; lia.
Qed.
End truncate.

(** C38: Truncating an ACK frame keeps its highest ranges: the frame fits the size
    whenever one range does, and it is truncated only where one range more, or
    a 65th one, would not have fitted. *)
Theorem ack_truncate_fits (f : AckFrame) (maxSize L1 : Z) (Hf : AckFrame_ok f)
    (Hone : AckFrame_Length (first_ranges f 1) = Ret L1) (Hmax : L1 ≤ maxSize) :
  ∃ n L, AckFrame_Truncate f maxSize = Ret (first_ranges f n) ∧
    AckFrame_ok (first_ranges f n) ∧ (1 ≤ n ≤ 64)%nat ∧
    AckFrame_Length (first_ranges f n) = Ret L ∧ L ≤ maxSize ∧
    (n = 64%nat ∨ first_ranges f n = f ∨
     ∃ L', AckFrame_Length (first_ranges f (S n)) = Ret L' ∧ maxSize < L').
Proof.
  destruct f as [[|r l] d e0 e1 e2]; [by destruct Hf|].
  rewrite (first_ranges_Length d e0 e1 e2 r l Hf 0) in Hone by lia. injection Hone as <-.
  destruct (numEncodable_spec d e0 e1 e2 r l Hf maxSize Hmax) as (k & E & Hk & Hfit & Hmore).
  assert (k ≤ 63 ∧ k ≤ length l)%nat as [H63 Hkl] by (rewrite length_take in Hk; lia).
  exists (S k), (ack_len d e0 e1 e2 r l k).
  rewrite first_ranges_Length by done. split_and!; [|by apply first_ranges_ok|lia|lia|done|done|].
  - unfold AckFrame_Truncate. rewrite E. cbn [mbind outcome_bind ak_AckRanges].
    unfold slice_to. rewrite len_cons. unfold len.
    destruct (Z.leb_spec 0 (1 + Z.of_nat k)); [|lia].
    destruct (Z.leb_spec (1 + Z.of_nat k) (1 + Z.of_nat (length l))); [|lia].
    replace (Z.to_nat (1 + Z.of_nat k)) with (S k) by lia. done.
  - destruct (decide (k < length (take 63 l))%nat) as [Hlt|Hge].
    + right. right. exists (ack_len d e0 e1 e2 r l (S k)). split; [|auto].
      apply first_ranges_Length; [done|]. rewrite length_take in Hlt. lia.
    + rewrite length_take in Hge. destruct (decide (k = 63%nat)) as [->|]; [by left|].
      right. left. unfold first_ranges. cbn [ak_AckRanges ak_DelayTime ak_ECT0 ak_ECT1 ak_ECNCE].
      by rewrite take_ge by (cbn; lia).
Qed.

Lemma ack_truncate_fits_witness :
  ∃ n L, AckFrame_Truncate (MkAckFrame [MkAckRange 10 12; MkAckRange 3 5] 0 0 0 0) 6
      = Ret (first_ranges (MkAckFrame [MkAckRange 10 12; MkAckRange 3 5] 0 0 0 0) n) ∧
    AckFrame_ok (first_ranges (MkAckFrame [MkAckRange 10 12; MkAckRange 3 5] 0 0 0 0) n) ∧
    (1 ≤ n ≤ 64)%nat ∧
    AckFrame_Length (first_ranges (MkAckFrame [MkAckRange 10 12; MkAckRange 3 5] 0 0 0 0) n) = Ret L ∧
    L ≤ 6 ∧
    (n = 64%nat ∨ first_ranges (MkAckFrame [MkAckRange 10 12; MkAckRange 3 5] 0 0 0 0) n
       = MkAckFrame [MkAckRange 10 12; MkAckRange 3 5] 0 0 0 0 ∨
     ∃ L', AckFrame_Length
       (first_ranges (MkAckFrame [MkAckRange 10 12; MkAckRange 3 5] 0 0 0 0) (S n)) = Ret L' ∧ 6 < L').
Proof.
  apply (ack_truncate_fits (MkAckFrame [MkAckRange 10 12; MkAckRange 3 5] 0 0 0 0) 6 5);
    [|by vm_compute|lia].
  unfold AckFrame_ok, MaxInt64. cbn. unfold vint, Max, maxVarInt8. lia.
Defined.

(** C39: The acknowledgement delay is exact while it fits an int64.  A delay that does
    not fit is not always replaced by the maximum, as the comment in parseAckFrame says:
    only a negative product is noticed, and the largest delays can wrap to zero. *)
Theorem ack_delay_overflow (d e : Z) (Hd : vint d) (He : 0 ≤ e < 64) :
  (d * 2 ^ e * Microsecond ≤ MaxInt64 → ackDelayTime d e = d * 2 ^ e * Microsecond) ∧
  vint (2 ^ 61) ∧ MaxInt64 < 2 ^ 61 * 2 ^ 3 * Microsecond ∧ ackDelayTime (2 ^ 61) 3 = 0.
Proof.
  split; [|by_decision || (split_and!; by_decision)].
  unfold MaxInt64, Microsecond, ackDelayTime, vint in *. intros Hle.
  assert (0 < 2 ^ e) by (apply Z.pow_pos_nonneg; lia).
  assert (0 ≤ d * 2 ^ e) by nia.
  rewrite Z.mul_1_r, (wrapU_small 64 d), Z.shiftl_mul_pow2 by wire_lia.
  unfold Microsecond. set (x := d * 2 ^ e) in *.
  rewrite (wrapU_small 64 x), (i64_small x), (i64_small (x * 1000)) by lia.
  destruct (Z.ltb_spec (x * 1000) 0); lia.
Qed.

Lemma ack_delay_overflow_witness :
  (100 * 2 ^ 3 * Microsecond ≤ MaxInt64 → ackDelayTime 100 3 = 100 * 2 ^ 3 * Microsecond) ∧
  vint (2 ^ 61) ∧ MaxInt64 < 2 ^ 61 * 2 ^ 3 * Microsecond ∧ ackDelayTime (2 ^ 61) 3 = 0.
Proof. apply (ack_delay_overflow 100 3); [by_decision|lia]. Defined.
