(* ===== verification/WireStream.v ===== *)
(** * Frames that carry data: stream_frame.go, crypto_frame.go, datagram_frame.go, pool.go

    A stream frame keeps its data in a buffer that may come from a pool;
    [sf_cap] is the capacity of that buffer. *)

From S2P Require Import Prelude QuicVarint Protocol WireBase.

(** ** stream_frame.go *)

Record StreamFrame := MkStreamFrame {
  sf_StreamID : Z; sf_Offset : Z; sf_Data : bytes; sf_cap : Z;
  sf_Fin : bool; sf_DataLenPresent : bool; sf_fromPool : bool }.

(** The frames the pools make.  A recycled frame has the same capacity, since
    putStreamFrame only takes such frames, and the callers set every other field. *)
Definition GetStreamFrame : StreamFrame :=
  MkStreamFrame 0 0 [] MaxPacketBufferSize false false true.
Definition getSmallStreamFrame : StreamFrame :=
  MkStreamFrame 0 0 [] MinStreamFrameBufferSize false false true.

(** The pool a frame goes back to: none for a frame that did not come from a pool.
    [None] is the panic on a capacity no pool has. *)
Inductive Pool := NoPool | LargePool | SmallPool.
Definition putStreamFrame (f : StreamFrame) : option Pool :=
  if negb (sf_fromPool f) then Some NoPool
  else if sf_cap f =? MaxPacketBufferSize then Some LargePool
  else if sf_cap f =? MinStreamFrameBufferSize then Some SmallPool
  else None.

Definition StreamFrame_DataLen (f : StreamFrame) : Z := len (sf_Data f).

Definition ParseStreamFrame (b : bytes) (typ : Z) : outcome FrameError (StreamFrame * Z) :=
  let startLen := len b in
  let hasOffset := Z.land typ 4 >? 0 in
  let fin := Z.land typ 1 >? 0 in
  let hasDataLen := Z.land typ 2 >? 0 in
  '(streamID, b) ← varint b;
  '(offset, b) ← (if hasOffset then varint b else Ret (0, b));
  '(dataLen, b) ←
    (if hasDataLen then
       '(dataLen, b) ← varint b;
       if dataLen >? len b then Throw (ReadErr EOF) else Ret (dataLen, b)
     else Ret (len b, b));
  frame ←
    (if dataLen <? MinStreamFrameBufferSize then Ret getSmallStreamFrame
     else if dataLen >? sf_cap GetStreamFrame then Throw (ReadErr EOF)
     else Ret GetStreamFrame);
  data ← or_panic (slice_to b dataLen);
  let frame := MkStreamFrame (i64 streamID) (i64 offset) data (sf_cap frame) fin hasDataLen
                 (sf_fromPool frame) in
  if i64 (sf_Offset frame + StreamFrame_DataLen frame) >? MaxByteCount
  then Throw errStreamOverflow
  else Ret (frame, startLen - len b + i64 dataLen).

Definition StreamFrame_Append (f : StreamFrame) (b : bytes) : outcome FrameError bytes :=
  if (len (sf_Data f) =? 0) && negb (sf_Fin f) then Throw errEmptyStreamFrame
  else
    let typ := 0x8 in
    let typ := if sf_Fin f then Z.lxor typ 1 else typ in
    let hasOffset := negb (sf_Offset f =? 0) in
    let typ := if sf_DataLenPresent f then Z.lxor typ 2 else typ in
    let typ := if hasOffset then Z.lxor typ 4 else typ in
    let b := b ++ [typ] in
    b ← appendVarint b (u64 (sf_StreamID f));
    b ← (if hasOffset then appendVarint b (u64 (sf_Offset f)) else Ret b);
    b ← (if sf_DataLenPresent f then appendVarint b (u64 (StreamFrame_DataLen f)) else Ret b);
    Ret (b ++ sf_Data f).

Definition StreamFrame_Length (f : StreamFrame) : outcome FrameError Z :=
  l ← lenVarint (u64 (sf_StreamID f));
  let length := 1 + l in
  length ← (if negb (sf_Offset f =? 0)
            then l ← lenVarint (u64 (sf_Offset f)); Ret (length + l) else Ret length);
  length ← (if sf_DataLenPresent f
            then l ← lenVarint (u64 (StreamFrame_DataLen f)); Ret (length + l) else Ret length);
  Ret (length + StreamFrame_DataLen f).

Definition StreamFrame_MaxDataLen (f : StreamFrame) (maxSize : Z) : outcome FrameError Z :=
  l ← lenVarint (u64 (sf_StreamID f));
  let headerLen := 1 + l in
  headerLen ← (if negb (sf_Offset f =? 0)
               then l ← lenVarint (u64 (sf_Offset f)); Ret (headerLen + l) else Ret headerLen);
  let headerLen := if sf_DataLenPresent f then headerLen + 1 else headerLen in
  if headerLen >? maxSize then Ret 0
  else
    let maxDataLen := maxSize - headerLen in
    if sf_DataLenPresent f then
      l ← lenVarint (u64 maxDataLen);
      if negb (l =? 1) then Ret (maxDataLen - 1) else Ret maxDataLen
    else Ret maxDataLen.

(** The frame split off, whether splitting was required, and what is left of [f]. *)
Definition StreamFrame_MaybeSplitOffFrame (f : StreamFrame) (maxSize : Z)
    : outcome FrameError (option StreamFrame * bool * StreamFrame) :=
  length ← StreamFrame_Length f;
  if maxSize >=? length then Ret (None, false, f)
  else
    n ← StreamFrame_MaxDataLen f maxSize;
    if n =? 0 then Ret (None, true, f)
    else
      let new := GetStreamFrame in
      (* the data slices are swapped *)
      let newData := sf_Data f in
      let rest := len newData - n in
      if (rest <? 0) || (rest >? sf_cap new) then Panic
      else
        data ← or_panic (slice_from newData n);
        newData ← or_panic (slice_to newData n);
        Ret (Some (MkStreamFrame (sf_StreamID f) (sf_Offset f) newData (sf_cap f) false
                     (sf_DataLenPresent f) (sf_fromPool f)),
             true,
             MkStreamFrame (sf_StreamID f) (i64 (sf_Offset f + n)) data (sf_cap new) (sf_Fin f)
               (sf_DataLenPresent f) (sf_fromPool new)).

(** ** crypto_frame.go *)

Record CryptoFrame := MkCryptoFrame { cf_Offset : Z; cf_Data : bytes }.

Definition parseCryptoFrame (b : bytes) : outcome FrameError (CryptoFrame * Z) :=
  let startLen := len b in
  '(offset, b) ← varint b;
  '(dataLen, b) ← varint b;
  if dataLen >? len b then Throw (ReadErr EOF)
  else
    data ← (if negb (dataLen =? 0) then or_panic (slice_to b dataLen) else Ret []);
    Ret (MkCryptoFrame (i64 offset) data, startLen - len b + i64 dataLen).

Definition CryptoFrame_Append (f : CryptoFrame) (b : bytes) : outcome FrameError bytes :=
  let b := b ++ [FrameTypeCrypto] in
  b ← appendVarint b (u64 (cf_Offset f));
  b ← appendVarint b (u64 (len (cf_Data f)));
  Ret (b ++ cf_Data f).

Definition CryptoFrame_Length (f : CryptoFrame) : outcome FrameError Z :=
  l1 ← lenVarint (u64 (cf_Offset f));
  l2 ← lenVarint (u64 (len (cf_Data f)));
  Ret (1 + l1 + l2 + len (cf_Data f)).

Definition CryptoFrame_MaxDataLen (f : CryptoFrame) (maxSize : Z) : outcome FrameError Z :=
  l ← lenVarint (u64 (cf_Offset f));
  let headerLen := 1 + l + 1 in
  if headerLen >? maxSize then Ret 0
  else
    let maxDataLen := maxSize - headerLen in
    l ← lenVarint (u64 maxDataLen);
    if negb (l =? 1) then Ret (maxDataLen - 1) else Ret maxDataLen.

Definition CryptoFrame_MaybeSplitOffFrame (f : CryptoFrame) (maxSize : Z)
    : outcome FrameError (option CryptoFrame * bool * CryptoFrame) :=
  length ← CryptoFrame_Length f;
  if length <=? maxSize then Ret (None, false, f)
  else
    n ← CryptoFrame_MaxDataLen f maxSize;
    if n =? 0 then Ret (None, true, f)
    else
      let newLen := len (cf_Data f) - n in
      if newLen <? 0 then Panic
      else
        data ← or_panic (slice_from (cf_Data f) n);
        newData ← or_panic (slice_to (cf_Data f) n);
        Ret (Some (MkCryptoFrame (cf_Offset f) newData), true,
             MkCryptoFrame (i64 (cf_Offset f + n)) data).

(** ** datagram_frame.go *)

Record DatagramFrame := MkDatagramFrame { df_DataLenPresent : bool; df_Data : bytes }.

Definition parseDatagramFrame (b : bytes) (typ : Z) : outcome FrameError (DatagramFrame * Z) :=
  let startLen := len b in
  let dataLenPresent := Z.land typ 0x1 >? 0 in
  '(length, b) ←
    (if dataLenPresent then
       '(length, b) ← varint b;
       if length >? len b then Throw (ReadErr EOF) else Ret (length, b)
     else Ret (len b, b));
  data ← or_panic (slice_to b length);
  Ret (MkDatagramFrame dataLenPresent data, startLen - len b + i64 length).

Definition DatagramFrame_Append (f : DatagramFrame) (b : bytes) : outcome FrameError bytes :=
  let typ := 0x30 in
  let typ := if df_DataLenPresent f then Z.lxor typ 1 else typ in
  let b := b ++ [typ] in
  b ← (if df_DataLenPresent f then appendVarint b (u64 (len (df_Data f))) else Ret b);
  Ret (b ++ df_Data f).

Definition DatagramFrame_MaxDataLen (f : DatagramFrame) (maxSize : Z) : outcome FrameError Z :=
  let headerLen := 1 in
  let headerLen := if df_DataLenPresent f then headerLen + 1 else headerLen in
  if headerLen >? maxSize then Ret 0
  else
    let maxDataLen := maxSize - headerLen in
    if df_DataLenPresent f then
      l ← lenVarint (u64 maxDataLen);
      if negb (l =? 1) then Ret (maxDataLen - 1) else Ret maxDataLen
    else Ret maxDataLen.

Definition DatagramFrame_Length (f : DatagramFrame) : outcome FrameError Z :=
  let length := 1 + len (df_Data f) in
  if df_DataLenPresent f
  then l ← lenVarint (u64 (len (df_Data f))); Ret (length + l)
  else Ret length.
