(* ===== verification/WireStreamFacts.v ===== *)
(** * Laws of the frames that carry data

    Codecs and parser safety as for the other frames, and the splitting of
    STREAM and CRYPTO frames that do not fit a packet. *)

From S2P Require Import Prelude QuicVarint Protocol WireBase WireFrames WireFramesFacts WireStream.

(** ** STREAM *)

Definition StreamFrame_ok (f : StreamFrame) : Prop :=
  vint (sf_StreamID f) ∧ 0 ≤ sf_Offset f ∧ sf_Offset f + len (sf_Data f) ≤ MaxByteCount ∧
  Forall is_byte (sf_Data f) ∧ len (sf_Data f) ≤ MaxPacketBufferSize.

(** A frame that Append accepts. *)
Definition StreamFrame_sendable (f : StreamFrame) : Prop :=
  StreamFrame_ok f ∧ (sf_Fin f = true ∨ 0 < len (sf_Data f)).

Definition StreamFrame_type (f : StreamFrame) : Z :=
  8 + (if sf_Fin f then 1 else 0) + (if sf_DataLenPresent f then 2 else 0) +
  (if negb (sf_Offset f =? 0) then 4 else 0).

(** The frame as it arrives, in a buffer from a pool. *)
Definition StreamFrame_received (f : StreamFrame) : StreamFrame :=
  MkStreamFrame (sf_StreamID f) (sf_Offset f) (sf_Data f)
    (if len (sf_Data f) <? MinStreamFrameBufferSize then MinStreamFrameBufferSize
     else MaxPacketBufferSize)
    (sf_Fin f) (sf_DataLenPresent f) true.

Lemma stream_vint f :
  StreamFrame_ok f → vint (sf_StreamID f) ∧ vint (sf_Offset f) ∧ vint (len (sf_Data f)) ∧
    i64 (sf_Offset f + len (sf_Data f)) = sf_Offset f + len (sf_Data f).
Proof.
  unfold StreamFrame_ok, MaxByteCount. intros (?&?&?&_). pose proof (len_nonneg (sf_Data f)).
  split_and!; [done|wire_lia..|]. apply i64_small. lia.
Qed.

Lemma stream_flags f :
  (Z.land (StreamFrame_type f) 4 >? 0) = negb (sf_Offset f =? 0) ∧
  (Z.land (StreamFrame_type f) 1 >? 0) = sf_Fin f ∧
  (Z.land (StreamFrame_type f) 2 >? 0) = sf_DataLenPresent f.
Proof.
  unfold StreamFrame_type. by destruct (sf_Fin f), (sf_DataLenPresent f), (sf_Offset f =? 0).
Qed.

(** The buffer the parser takes for [n] bytes, and its copy of them. *)
Lemma stream_buffer {T} n (k : StreamFrame → outcome FrameError T) :
  n ≤ MaxPacketBufferSize →
  (frame ← (if n <? MinStreamFrameBufferSize then Ret getSmallStreamFrame
            else if n >? sf_cap GetStreamFrame then Throw (ReadErr EOF)
            else Ret GetStreamFrame); k frame) =
  k (if n <? MinStreamFrameBufferSize then getSmallStreamFrame else GetStreamFrame).
Proof.
  intros Hn. cbn [sf_cap GetStreamFrame]. destruct (n <? MinStreamFrameBufferSize); [done|].
  destruct (Z.gtb_spec n MaxPacketBufferSize); [lia|done].
Qed.

(** What Append writes after the type. *)
Definition stream_body (f : StreamFrame) : bytes :=
  enc (sf_StreamID f) ++ (if negb (sf_Offset f =? 0) then enc (sf_Offset f) else []) ++
  (if sf_DataLenPresent f then enc (len (sf_Data f)) else []) ++ sf_Data f.

(** Without a length field nothing may follow. *)
Lemma ParseStreamFrame_body f rest :
  StreamFrame_ok f → Forall is_byte rest → (sf_DataLenPresent f = false → rest = []) →
  ParseStreamFrame (stream_body f ++ rest) (StreamFrame_type f)
    = Ret (StreamFrame_received f, len (stream_body f)).
Proof.
  intros Hok Hrest Hlast. destruct (stream_vint f Hok) as (H1 & H2 & H3 & H4).
  destruct Hok as (_ & Ho & Hmax & Hb & Hcap). destruct (stream_flags f) as (E4 & E1 & E2).
  unfold ParseStreamFrame, stream_body, StreamFrame_received, StreamFrame_DataLen. rewrite E4, E1, E2.
  cbn [sf_Offset sf_Data].
  destruct f as [sid off data cap fin dlp pool].
  cbn [sf_StreamID sf_Offset sf_Data sf_cap sf_Fin sf_DataLenPresent sf_fromPool] in *.
  destruct (Z.eqb_spec off 0) as [->|]; destruct dlp; cbn [negb app];
    rewrite ?Hlast, ?app_nil_r by done; wire_eval;
    rewrite stream_buffer by done; wire_eval;
    try (assert (slice_to data (len data) = Some data) as ->
           by (rewrite <-(app_nil_r data) at 1; apply slice_to_app)); wire_eval;
    rewrite ?H4; wire_eval;
    (apply Ret_pair; [|rewrite ?len_app, ?(len_nil (A:=Z)); lia]);
    by destruct (len data <? MinStreamFrameBufferSize).
Qed.

Lemma stream_body_bytes f : StreamFrame_ok f → Forall is_byte (stream_body f).
Proof.
  intros Hok. destruct (stream_vint f Hok) as (H1 & H2 & H3 & _). destruct Hok as (_&_&_&Hb&_).
  unfold stream_body. repeat (apply Forall_app; split); [by apply enc_is_byte| | |done].
  - destruct (negb _); [by apply enc_is_byte|constructor].
  - destruct (sf_DataLenPresent f); [by apply enc_is_byte|constructor].
Qed.

Lemma stream_type_range f : 8 ≤ StreamFrame_type f ≤ 15.
Proof.
  unfold StreamFrame_type. destruct (sf_Fin f), (sf_DataLenPresent f), (sf_Offset f =? 0); cbn; lia.
Qed.

Lemma StreamFrame_Append_body f b :
  StreamFrame_sendable f →
  StreamFrame_Append f b = Ret (b ++ enc (StreamFrame_type f) ++ stream_body f).
Proof.
  intros [Hok Hne]. destruct (stream_vint f Hok) as (H1 & H2 & H3 & _).
  unfold StreamFrame_Append, stream_body, StreamFrame_DataLen. pose proof (stream_type_range f).
  assert ((len (sf_Data f) =? 0) && negb (sf_Fin f) = false) as ->
    by (destruct Hne as [->|]; [apply andb_false_r|lia]).
  assert ((if negb (sf_Offset f =? 0)
           then Z.lxor (if sf_DataLenPresent f then Z.lxor (if sf_Fin f then Z.lxor 8 1 else 8) 2
                        else if sf_Fin f then Z.lxor 8 1 else 8) 4
           else if sf_DataLenPresent f then Z.lxor (if sf_Fin f then Z.lxor 8 1 else 8) 2
                else if sf_Fin f then Z.lxor 8 1 else 8) = StreamFrame_type f) as ->
    by (unfold StreamFrame_type; by destruct (sf_Fin f), (sf_DataLenPresent f), (sf_Offset f =? 0)).
  rewrite enc_byte by lia.
  destruct (negb (sf_Offset f =? 0)), (sf_DataLenPresent f); wire_eval; done.
Qed.

Lemma StreamFrame_Length_body f :
  StreamFrame_ok f → StreamFrame_Length f = Ret (1 + len (stream_body f)).
Proof.
  intros Hok. destruct (stream_vint f Hok) as (H1 & H2 & H3 & _).
  unfold StreamFrame_Length, stream_body, StreamFrame_DataLen.
  destruct (negb (sf_Offset f =? 0)), (sf_DataLenPresent f); wire_eval; apply Ret_eq;
    rewrite ?len_app, ?(len_nil (A:=Z)); lia.
Qed.

Lemma StreamFrame_codec f :
  StreamFrame_sendable f →
  (sf_DataLenPresent f = true →
   codec (StreamFrame_type f) (StreamFrame_Append f) (StreamFrame_Length f)
     (λ b, ParseStreamFrame b (StreamFrame_type f)) (StreamFrame_received f)) ∧
  codec_last (StreamFrame_type f) (StreamFrame_Append f) (StreamFrame_Length f)
    (λ b, ParseStreamFrame b (StreamFrame_type f)) (StreamFrame_received f).
Proof.
  intros Hs. pose proof Hs as [Hok _]. pose proof (stream_type_range f).
  assert (StreamFrame_Length f = Ret (len (enc (StreamFrame_type f)) + len (stream_body f))) as El
    by (rewrite StreamFrame_Length_body, <-enc_byte by (done || lia); done).
  pose proof (stream_body_bytes f Hok).
  split; [intros Hd|]; exists (stream_body f); (split_and!; [|done|done|]).
  - intros b. by apply StreamFrame_Append_body.
  - intros rest Hrest. apply ParseStreamFrame_body; [done..|congruence].
  - intros b. by apply StreamFrame_Append_body.
  - rewrite <-(app_nil_r (stream_body f)) at 1. apply ParseStreamFrame_body; [done|constructor|done].
Qed.

Lemma ParseStreamFrame_safe b typ :
  Forall is_byte b → parses StreamFrame_ok b (ParseStreamFrame b typ).
Proof.
  intros Hb. unfold ParseStreamFrame, StreamFrame_ok, StreamFrame_DataLen.
  unfold parses. parse_step.
  eapply (safe_bind _ _ (λ '(off, r'), vint off ∧ rest_of 0 r r')).
  { destruct (Z.land typ 4 >? 0); [|cbn; split; [apply vint_0|split; [done|lia]]].
    eapply safe_mono; [by apply varint_safe|]. intros [] [? []]. unfold rest_of. auto with lia. }
  intros [off r1] [Hoff [Hr1 Hl1]].
  eapply (safe_bind _ _ (λ '(n, r'), 0 ≤ n ≤ len r' ∧ rest_of 0 r1 r')).
  { pose proof (len_nonneg r1).
    destruct (Z.land typ 2 >? 0); [|cbn; unfold rest_of; auto with lia].
    repeat parse_step. cbn. unfold rest_of, vint in *. auto with lia. }
  intros [n r2] [Hn [Hr2 Hl2]].
  eapply (safe_bind _ _ (λ _, n ≤ MaxPacketBufferSize)).
  { unfold MinStreamFrameBufferSize, MaxPacketBufferSize. repeat parse_step; try lia.
    cbn in *. unfold MaxPacketBufferSize in *. lia. }
  intros fr Hcap. destruct (slice_split r2 n) as (x & k & -> & Hx & -> & _); [lia|].
  unfold MaxByteCount, MaxPacketBufferSize in *. cbn [or_panic mbind outcome_bind sf_Offset sf_Data].
  apply Forall_app in Hr2 as [Hxb _]. rewrite len_app in *. pose proof (len_nonneg k).
  rewrite (i64_vint z), (i64_vint off) by done. unfold vint, Max, maxVarInt8 in *.
  rewrite (i64_small (off + len x)), (i64_small n) by lia.
  repeat parse_step. cbn [sf_StreamID sf_Offset sf_Data]. split; [|lia]. split_and!; done || lia.
Qed.

(** ** CRYPTO *)

Definition CryptoFrame_ok (f : CryptoFrame) : Prop :=
  vint (cf_Offset f) ∧ Forall is_byte (cf_Data f) ∧ vint (len (cf_Data f)).

Lemma slice_to_all (x : bytes) : slice_to x (len x) = Some x.
Proof. rewrite <-(app_nil_r x) at 1. apply slice_to_app. Qed.

Lemma CryptoFrame_codec f :
  CryptoFrame_ok f →
  codec FrameTypeCrypto (CryptoFrame_Append f) (CryptoFrame_Length f) parseCryptoFrame f.
Proof.
  unfold CryptoFrame_ok, CryptoFrame_Append, CryptoFrame_Length, parseCryptoFrame.
  destruct f as [off data]; cbn. intros (H1 & H2 & H3). unfold codec.
  destruct (Z.eqb_spec (len data) 0) as [E|]; [|codec_solve].
  apply len_0_nil in E as ->. cbn. codec_solve.
Qed.

Lemma parseCryptoFrame_safe b : Forall is_byte b → parses CryptoFrame_ok b (parseCryptoFrame b).
Proof.
  intros Hb. unfold parseCryptoFrame, CryptoFrame_ok. repeat parse_step;
    rewrite (i64_vint z), (i64_vint z0) by done.
  - destruct (slice_split r0 z0) as (x & k & -> & <- & -> & _); [wire_lia|]. cbn.
    rewrite len_app in *. decompose_Forall_hyps. intuition wire_lia.
  - cbn. rewrite (len_nil (A:=Z)). unfold vint in *. intuition (constructor || wire_lia).
Qed.

(** ** DATAGRAM *)

Definition DatagramFrame_ok (f : DatagramFrame) : Prop :=
  Forall is_byte (df_Data f) ∧ vint (len (df_Data f)).
Definition DatagramFrame_type (f : DatagramFrame) : Z :=
  if df_DataLenPresent f then FrameTypeDatagramWithLength else FrameTypeDatagramNoLength.

Lemma DatagramFrame_codec f :
  DatagramFrame_ok f →
  (df_DataLenPresent f = true →
   codec (DatagramFrame_type f) (DatagramFrame_Append f) (DatagramFrame_Length f)
     (λ b, parseDatagramFrame b (DatagramFrame_type f)) f) ∧
  codec_last (DatagramFrame_type f) (DatagramFrame_Append f) (DatagramFrame_Length f)
    (λ b, parseDatagramFrame b (DatagramFrame_type f)) f.
Proof.
  destruct f as [[] data]; unfold DatagramFrame_ok, DatagramFrame_type, DatagramFrame_Append,
    DatagramFrame_Length, parseDatagramFrame; cbn; intros [H1 H2].
  - change 49 with FrameTypeDatagramWithLength.
    match goal with |- (_ → codec ?t ?a ?l ?p ?f) ∧ _ => assert (codec t a l p f) as Hc end.
    { unfold codec. change (Z.land FrameTypeDatagramWithLength 1 >? 0) with true. codec_solve. }
    split; [done|]. by apply codec_is_last.
  - split; [done|]. change 48 with FrameTypeDatagramNoLength. exists data. split_and!; [|done|..].
    + intros b. type_byte. by rewrite <-app_assoc.
    + const_len. done.
    + change (Z.land FrameTypeDatagramNoLength 1 >? 0) with false. wire_eval.
      rewrite slice_to_all. cbn. apply Ret_pair; [done|lia].
Qed.

Lemma parseDatagramFrame_safe b typ :
  Forall is_byte b → vint (len b) → parses DatagramFrame_ok b (parseDatagramFrame b typ).
Proof.
  intros Hb Hv. unfold parses, parseDatagramFrame, DatagramFrame_ok. pose proof (len_nonneg b).
  eapply (safe_bind _ _ (λ '(n, r), 0 ≤ n ≤ len r ∧ rest_of 0 b r)).
  { destruct (Z.land typ 1 >? 0); [|cbn; unfold rest_of; auto with lia].
    repeat parse_step. cbn. unfold rest_of, vint in *. auto with lia. }
  intros [n r] [Hn [Hr Hl]]. destruct (slice_split r n) as (x & k & -> & Hx & -> & _); [lia|].
  cbn. rewrite i64_vint by wire_lia. rewrite len_app in *. decompose_Forall_hyps.
  intuition wire_lia.
Qed.

(** ** Splitting

    The data length chosen for a frame with [h] header bytes, of which one is for
    the length field, where the whole frame is longer than [maxSize]. *)
Lemma max_data_len h maxSize D :
  0 ≤ D ≤ 16383 → 0 < h → h ≤ maxSize → maxSize < h - 1 + len (enc D) + D →
  let m := maxSize - h in
  let n := if negb (len (enc m) =? 1) then m - 1 else m in
  vint m ∧ 0 ≤ n < D ∧ maxSize - 1 ≤ h - 1 + len (enc n) + n ≤ maxSize.
Proof.
  intros HD Hh Hle Hbig m n. subst m.
  destruct (decide (D ≤ 63)) as [H63|H63].
  - rewrite enc_len_1 in Hbig by lia. subst n. rewrite (enc_len_1 (maxSize - h)) by lia. cbn.
    rewrite enc_len_1 by lia. split; [wire_lia|lia].
  - rewrite enc_len_2 in Hbig by lia. destruct (decide (maxSize - h ≤ 63)) as [Hm|Hm].
    + subst n. rewrite (enc_len_1 (maxSize - h)) by lia. cbn. rewrite enc_len_1 by lia.
      split; [wire_lia|lia].
    + subst n. rewrite (enc_len_2 (maxSize - h)) by lia. cbn.
      split; [wire_lia|]. destruct (decide (maxSize - h - 1 = 63)) as [E|].
      * rewrite E, enc_len_1 by lia. lia.
      * rewrite enc_len_2 by lia. lia.
Qed.

(** The bytes of a STREAM frame before the data, with one byte for the length field. *)
Definition stream_header (f : StreamFrame) : Z :=
  1 + len (enc (sf_StreamID f)) + (if negb (sf_Offset f =? 0) then len (enc (sf_Offset f)) else 0) +
  (if sf_DataLenPresent f then 1 else 0).

Lemma stream_body_len f :
  1 + len (stream_body f) =
  stream_header f + (if sf_DataLenPresent f then len (enc (len (sf_Data f))) - 1 else 0) +
  len (sf_Data f).
Proof.
  unfold stream_body, stream_header. rewrite !len_app.
  destruct (negb _), (sf_DataLenPresent f); rewrite ?(len_nil (A:=Z)); lia.
Qed.

Lemma stream_header_pos f : vint (sf_StreamID f) → vint (sf_Offset f) → 0 < stream_header f.
Proof.
  intros H1 H2. pose proof (enc_len _ H1). pose proof (enc_len _ H2). unfold stream_header.
  destruct (negb _), (sf_DataLenPresent f); lia.
Qed.

Lemma StreamFrame_MaxDataLen_spec f maxSize :
  StreamFrame_ok f → maxSize < 1 + len (stream_body f) →
  ∃ n, StreamFrame_MaxDataLen f maxSize = Ret n ∧ 0 ≤ n < len (sf_Data f) + 1 ∧
    (n ≠ 0 → n < len (sf_Data f) ∧
       let m := stream_header f + (if sf_DataLenPresent f then len (enc n) - 1 else 0) + n in
       maxSize - 1 ≤ m ≤ maxSize).
Proof.
  intros Hok Hbig. destruct (stream_vint f Hok) as (H1 & H2 & H3 & _).
  pose proof (stream_header_pos f H1 H2) as Hh. rewrite stream_body_len in Hbig.
  destruct Hok as (_&_&_&_&Hcap). pose proof (len_nonneg (sf_Data f)).
  assert (StreamFrame_MaxDataLen f maxSize =
    if stream_header f >? maxSize then Ret 0
    else if sf_DataLenPresent f
    then l ← lenVarint (u64 (maxSize - stream_header f));
         if negb (l =? 1) then Ret (maxSize - stream_header f - 1) else Ret (maxSize - stream_header f)
    else Ret (maxSize - stream_header f)) as ->.
  { unfold StreamFrame_MaxDataLen, stream_header.
    destruct (negb (sf_Offset f =? 0)), (sf_DataLenPresent f); wire_eval; rewrite ?Z.add_0_r; done. }
  destruct (Z.gtb_spec (stream_header f) maxSize); [exists 0; split_and!; [done|lia..]|].
  destruct (sf_DataLenPresent f).
  - destruct (max_data_len (stream_header f) maxSize (len (sf_Data f))) as (Hv & Hn & Hm);
      [unfold MaxPacketBufferSize in Hcap; lia|lia|lia|lia|].
    rewrite u64_vint, lenVarint_enc by done. cbn [mbind outcome_bind].
    destruct (negb (len (enc (maxSize - stream_header f)) =? 1)); eexists; (split; [done|]); cbv zeta; lia.
  - eexists. split; [done|]. cbv zeta. lia.
Qed.

Lemma StreamFrame_split f maxSize :
  StreamFrame_ok f →
  ∃ new required rest, StreamFrame_MaybeSplitOffFrame f maxSize = Ret (new, required, rest) ∧
    match new with
    | None => rest = f ∧ (required = false ↔ ∃ L, StreamFrame_Length f = Ret L ∧ L ≤ maxSize)
    | Some g =>
        required = true ∧ sf_Data f = sf_Data g ++ sf_Data rest ∧
        sf_Data g ≠ [] ∧ sf_Data rest ≠ [] ∧
        sf_StreamID g = sf_StreamID f ∧ sf_StreamID rest = sf_StreamID f ∧
        sf_Offset g = sf_Offset f ∧ sf_Offset rest = sf_Offset f + len (sf_Data g) ∧
        sf_Fin g = false ∧ sf_Fin rest = sf_Fin f ∧
        StreamFrame_ok g ∧ StreamFrame_ok rest ∧
        (∃ L, StreamFrame_Length g = Ret L ∧ maxSize - 1 ≤ L ≤ maxSize) ∧
        (sf_DataLenPresent g = sf_DataLenPresent f ∧ sf_DataLenPresent rest = sf_DataLenPresent f) ∧
        (sf_cap g = sf_cap f ∧ sf_fromPool g = sf_fromPool f) ∧
        sf_cap rest = MaxPacketBufferSize ∧ sf_fromPool rest = true
    end.
Proof.
  intros Hf. unfold StreamFrame_MaybeSplitOffFrame. rewrite StreamFrame_Length_body by done. cbn [mbind outcome_bind].
  rewrite Z.geb_leb. destruct (Z.leb_spec (1 + len (stream_body f)) maxSize) as [Hfit|Hbig].
  { eexists None, false, f. split; [done|]. split; [done|]. split; [eauto|done]. }
  destruct (StreamFrame_MaxDataLen_spec f maxSize Hf Hbig) as (n & -> & Hn & Hsplit). cbn [mbind outcome_bind].
  destruct (Z.eqb_spec n 0) as [->|Hn0].
  { eexists None, true, f. split; [done|]. split; [done|]. split; [done|].
    intros (L & [= <-] & ?). lia. }
  destruct (Hsplit Hn0) as [Hlt Hm]. pose proof Hf as (Hs & Ho & Hmax & Hb & Hcap).
  destruct (slice_split (sf_Data f) n) as (x & k & E & Hx & -> & ->); [lia|]. cbn [sf_cap GetStreamFrame].
  destruct (Z.ltb_spec (len (sf_Data f) - n) 0); [lia|].
  destruct (Z.gtb_spec (len (sf_Data f) - n) MaxPacketBufferSize); [lia|]. cbn.
  unfold MaxByteCount, MaxPacketBufferSize in *. rewrite i64_small by lia.
  rewrite E, len_app in *. pose proof (len_nonneg k). apply Forall_app in Hb as [Hxb Hkb].
  set (g := MkStreamFrame _ _ x _ _ _ _). set (r := MkStreamFrame _ _ k _ _ _ _).
  assert (StreamFrame_ok g) as Hg
    by (unfold StreamFrame_ok, MaxByteCount, MaxPacketBufferSize; cbn; split_and!; done || lia).
  eexists (Some g), true, r. split; [done|]. split_and!; try done; cbn.
  - intros ->. done.
  - intros ->. rewrite (len_nil (A:=Z)) in *. lia.
  - by rewrite Hx.
  - unfold StreamFrame_ok, MaxByteCount, MaxPacketBufferSize; cbn. split_and!; done || lia.
  - exists (1 + len (stream_body g)). split; [by apply StreamFrame_Length_body|].
    rewrite stream_body_len. unfold stream_header in *. cbn. rewrite Hx in *. cbv zeta in Hm. lia.
Qed.

(** Data of at most the length MaxDataLen grants makes a frame that fits. *)
Lemma StreamFrame_MaxDataLen_fits f maxSize :
  vint (sf_StreamID f) → vint (sf_Offset f) → sf_DataLenPresent f = true → maxSize ≤ 16383 →
  ∃ n, StreamFrame_MaxDataLen f maxSize = Ret n ∧ 0 ≤ n ∧ n ≤ Z.max 0 (maxSize - 3) ∧
    ∀ D, 0 < D ≤ n → stream_header f - 1 + len (enc D) + D ≤ maxSize.
Proof.
  intros H1 H2 H3 Hmax. pose proof (enc_len _ H1). pose proof (enc_len _ H2).
  assert (3 ≤ stream_header f) as Hh
    by (unfold stream_header; rewrite H3; destruct (negb _); lia).
  assert (StreamFrame_MaxDataLen f maxSize =
    if stream_header f >? maxSize then Ret 0
    else l ← lenVarint (u64 (maxSize - stream_header f));
         if negb (l =? 1) then Ret (maxSize - stream_header f - 1) else Ret (maxSize - stream_header f)) as ->.
  { unfold StreamFrame_MaxDataLen, stream_header. rewrite H3.
    destruct (negb (sf_Offset f =? 0)); wire_eval; rewrite ?Z.add_0_r; done. }
  destruct (Z.gtb_spec (stream_header f) maxSize); [exists 0; split_and!; [done|lia..]|].
  rewrite u64_vint, lenVarint_enc by wire_lia. cbn [mbind outcome_bind].
  destruct (decide (maxSize - stream_header f ≤ 63)) as [Hm|Hm].
  - rewrite (enc_len_1 (maxSize - stream_header f)) by lia. cbn. eexists. split; [done|].
    split; [lia|]. split; [lia|]. intros D HD. rewrite enc_len_1 by lia. lia.
  - rewrite (enc_len_2 (maxSize - stream_header f)) by lia. cbn. eexists. split; [done|].
    split; [lia|]. split; [lia|]. intros D HD. destruct (decide (D ≤ 63)).
    + rewrite enc_len_1 by lia. lia.
    + rewrite enc_len_2 by lia. lia.
Qed.

(** A STREAM frame that is too long for the packet is split without losing,
    reordering or duplicating data: the frame split off carries the first bytes at the
    original offset without the FIN, fits the packet and wastes at most one byte of it;
    the rest stays in the frame, at the offset where the first part ends. *)
Theorem stream_split_preserves (f : StreamFrame) (maxSize : Z) (Hf : StreamFrame_ok f) :
  ∃ new required rest, StreamFrame_MaybeSplitOffFrame f maxSize = Ret (new, required, rest) ∧
    match new with
    | None => rest = f ∧ (required = false ↔ ∃ L, StreamFrame_Length f = Ret L ∧ L ≤ maxSize)
    | Some g =>
        required = true ∧ sf_Data f = sf_Data g ++ sf_Data rest ∧
        sf_Data g ≠ [] ∧ sf_Data rest ≠ [] ∧
        sf_StreamID g = sf_StreamID f ∧ sf_StreamID rest = sf_StreamID f ∧
        sf_Offset g = sf_Offset f ∧ sf_Offset rest = sf_Offset f + len (sf_Data g) ∧
        sf_Fin g = false ∧ sf_Fin rest = sf_Fin f ∧
        StreamFrame_ok g ∧ StreamFrame_ok rest ∧
        ∃ L, StreamFrame_Length g = Ret L ∧ maxSize - 1 ≤ L ≤ maxSize
    end.
Proof.
  destruct (StreamFrame_split f maxSize Hf) as (new & required & rest & -> & H).
  exists new, required, rest. split; [done|]. destruct new; [|done]. tauto.
Qed.

Lemma stream_split_preserves_witness :
  ∃ new required rest,
    StreamFrame_MaybeSplitOffFrame (MkStreamFrame 4 100 [1; 2; 3; 4; 5] 128 true true true) 8
      = Ret (new, required, rest) ∧
    match new with
    | None => rest = MkStreamFrame 4 100 [1; 2; 3; 4; 5] 128 true true true ∧
        (required = false ↔
         ∃ L, StreamFrame_Length (MkStreamFrame 4 100 [1; 2; 3; 4; 5] 128 true true true) = Ret L ∧ L ≤ 8)
    | Some g =>
        required = true ∧ [1; 2; 3; 4; 5] = sf_Data g ++ sf_Data rest ∧
        sf_Data g ≠ [] ∧ sf_Data rest ≠ [] ∧
        sf_StreamID g = 4 ∧ sf_StreamID rest = 4 ∧
        sf_Offset g = 100 ∧ sf_Offset rest = 100 + len (sf_Data g) ∧
        sf_Fin g = false ∧ sf_Fin rest = true ∧
        StreamFrame_ok g ∧ StreamFrame_ok rest ∧
        ∃ L, StreamFrame_Length g = Ret L ∧ 8 - 1 ≤ L ≤ 8
    end.
Proof.
  apply (stream_split_preserves (MkStreamFrame 4 100 [1; 2; 3; 4; 5] 128 true true true) 8).
  unfold StreamFrame_ok. split_and!; by_decision.
Defined.

(** CRYPTO frames are split in the same way. *)
Lemma CryptoFrame_MaxDataLen_spec f maxSize :
  CryptoFrame_ok f → len (cf_Data f) ≤ 16383 →
  let h := 1 + len (enc (cf_Offset f)) + 1 in
  maxSize < h - 1 + len (enc (len (cf_Data f))) + len (cf_Data f) →
  ∃ n, CryptoFrame_MaxDataLen f maxSize = Ret n ∧
    (n ≠ 0 → 0 ≤ n < len (cf_Data f) ∧ maxSize - 1 ≤ h - 1 + len (enc n) + n ≤ maxSize).
Proof.
  intros (H1 & H2 & H3) HD h Hbig. pose proof (len_nonneg (cf_Data f)). pose proof (enc_len _ H1).
  unfold CryptoFrame_MaxDataLen. rewrite u64_vint, lenVarint_enc by done. cbn [mbind outcome_bind].
  fold h. destruct (Z.gtb_spec h maxSize); [by exists 0|].
  destruct (max_data_len h maxSize (len (cf_Data f))) as (Hv & Hn & Hm); [lia..|].
  rewrite u64_vint, lenVarint_enc by done. cbn [mbind outcome_bind].
  destruct (negb (len (enc (maxSize - h)) =? 1)); eexists; (split; [done|]); lia.
Qed.

Lemma crypto_split_preserves f maxSize :
  CryptoFrame_ok f → len (cf_Data f) ≤ 16383 → cf_Offset f + len (cf_Data f) ≤ Max →
  ∃ new required rest, CryptoFrame_MaybeSplitOffFrame f maxSize = Ret (new, required, rest) ∧
    match new with
    | None => rest = f
    | Some g =>
        required = true ∧ cf_Data f = cf_Data g ++ cf_Data rest ∧ cf_Data rest ≠ [] ∧
        cf_Offset g = cf_Offset f ∧ cf_Offset rest = cf_Offset f + len (cf_Data g) ∧
        CryptoFrame_ok g ∧ CryptoFrame_ok rest ∧
        ∃ L, CryptoFrame_Length g = Ret L ∧ maxSize - 1 ≤ L ≤ maxSize
    end.
Proof.
  intros Hf HD Hmax. pose proof Hf as (H1 & H2 & H3). pose proof (len_nonneg (cf_Data f)).
  assert (∀ g, CryptoFrame_ok g → CryptoFrame_Length g =
    Ret (1 + len (enc (cf_Offset g)) + len (enc (len (cf_Data g))) + len (cf_Data g))) as El.
  { intros g (?&?&?). unfold CryptoFrame_Length. by wire_eval. }
  unfold CryptoFrame_MaybeSplitOffFrame. rewrite El by done. cbn [mbind outcome_bind].
  destruct (Z.leb_spec (1 + len (enc (cf_Offset f)) + len (enc (len (cf_Data f))) + len (cf_Data f)) maxSize);
    [by eexists None, false, f|].
  destruct (CryptoFrame_MaxDataLen_spec f maxSize Hf HD) as (n & -> & Hn); [lia|]. cbn [mbind outcome_bind].
  destruct (Z.eqb_spec n 0); [by eexists None, true, f|]. destruct Hn as [Hn Hm]; [done|].
  destruct (slice_split (cf_Data f) n) as (x & k & E & Hx & -> & ->); [lia|].
  destruct (Z.ltb_spec (len (cf_Data f) - n) 0); [lia|]. cbn.
  unfold vint, Max, maxVarInt8 in *. rewrite i64_small by lia. rewrite E, len_app in *.
  pose proof (len_nonneg k). apply Forall_app in H2 as [Hxb Hkb].
  set (g := MkCryptoFrame _ x). set (r := MkCryptoFrame _ k).
  assert (CryptoFrame_ok g) as Hg by (unfold CryptoFrame_ok; cbn; split_and!; done || wire_lia).
  eexists (Some g), true, r. split; [done|]. split_and!; try done; cbn.
  - intros ->. rewrite (len_nil (A:=Z)) in *. lia.
  - by rewrite Hx.
  - unfold CryptoFrame_ok; cbn. split_and!; done || wire_lia.
  - eexists. split; [by apply El|]. cbn. rewrite Hx. lia.
Qed.
