(* ===== verification/FrameParser.v ===== *)
(** * Parsing the frames of a packet: frame_parser.go, and handleFrames of connection.go

    The frames as one type with their Append and Length (the interface Frame of
    frame.go), the FrameParser, and the loop of the connection that parses and
    handles the frames of a packet.  What the connection does with a frame is a
    parameter of the loop. *)

From S2P Require Import Prelude QuicVarint Protocol WireBase WireFrames WireAck WireStream.

(** ** The interface Frame *)

Inductive Frame :=
  | FPing
  | FAck (f : AckFrame)
  | FResetStream (f : ResetStreamFrame)
  | FStopSending (f : StopSendingFrame)
  | FCrypto (f : CryptoFrame)
  | FNewToken (f : NewTokenFrame)
  | FStream (f : StreamFrame)
  | FMaxData (f : MaxDataFrame)
  | FMaxStreamData (f : MaxStreamDataFrame)
  | FMaxStreams (f : MaxStreamsFrame)
  | FDataBlocked (f : DataBlockedFrame)
  | FStreamDataBlocked (f : StreamDataBlockedFrame)
  | FStreamsBlocked (f : StreamsBlockedFrame)
  | FNewConnectionID (f : NewConnectionIDFrame)
  | FRetireConnectionID (f : RetireConnectionIDFrame)
  | FPathChallenge (f : PathChallengeFrame)
  | FPathResponse (f : PathResponseFrame)
  | FConnectionClose (f : ConnectionCloseFrame)
  | FHandshakeDone
  | FAckFrequency (f : AckFrequencyFrame)
  | FImmediateAck
  | FDatagram (f : DatagramFrame)
  | FObservedAddr (f : ObservedAddrFrame)
  | FPathAck (f : PathAckFrame)
  | FPathAbandon (f : PathAbandonFrame)
  | FPathStatusBackup (f : PathStatusBackupFrame)
  | FPathStatusAvailable (f : PathStatusAvailableFrame)
  | FMaxPathID (f : MaxPathIDFrame)
  | FPathsBlocked (f : PathsBlockedFrame)
  | FPathCIDsBlocked (f : PathCIDsBlockedFrame)
  | FAddAddress (f : AddAddressFrame)
  | FReachOut (f : ReachOutFrame)
  | FRemoveAddress (f : RemoveAddressFrame).

Definition Frame_Append (f : Frame) : bytes → outcome FrameError bytes :=
  match f with
  | FPing => PingFrame_Append
  | FAck f => AckFrame_Append f
  | FResetStream f => ResetStreamFrame_Append f
  | FStopSending f => StopSendingFrame_Append f
  | FCrypto f => CryptoFrame_Append f
  | FNewToken f => NewTokenFrame_Append f
  | FStream f => StreamFrame_Append f
  | FMaxData f => MaxDataFrame_Append f
  | FMaxStreamData f => MaxStreamDataFrame_Append f
  | FMaxStreams f => MaxStreamsFrame_Append f
  | FDataBlocked f => DataBlockedFrame_Append f
  | FStreamDataBlocked f => StreamDataBlockedFrame_Append f
  | FStreamsBlocked f => StreamsBlockedFrame_Append f
  | FNewConnectionID f => NewConnectionIDFrame_Append f
  | FRetireConnectionID f => RetireConnectionIDFrame_Append f
  | FPathChallenge f => PathChallengeFrame_Append f
  | FPathResponse f => PathResponseFrame_Append f
  | FConnectionClose f => ConnectionCloseFrame_Append f
  | FHandshakeDone => HandshakeDoneFrame_Append
  | FAckFrequency f => AckFrequencyFrame_Append f
  | FImmediateAck => ImmediateAckFrame_Append
  | FDatagram f => DatagramFrame_Append f
  | FObservedAddr f => ObservedAddrFrame_Append f
  | FPathAck f => PathAckFrame_Append f
  | FPathAbandon f => PathAbandonFrame_Append f
  | FPathStatusBackup f => PathStatusBackupFrame_Append f
  | FPathStatusAvailable f => PathStatusAvailableFrame_Append f
  | FMaxPathID f => MaxPathIDFrame_Append f
  | FPathsBlocked f => PathsBlockedFrame_Append f
  | FPathCIDsBlocked f => PathCIDsBlockedFrame_Append f
  | FAddAddress f => AddAddressFrame_Append f
  | FReachOut f => ReachOutFrame_Append f
  | FRemoveAddress f => RemoveAddressFrame_Append f
  end.

Definition Frame_Length (f : Frame) : outcome FrameError Z :=
  match f with
  | FPing => PingFrame_Length
  | FAck f => AckFrame_Length f
  | FResetStream f => ResetStreamFrame_Length f
  | FStopSending f => StopSendingFrame_Length f
  | FCrypto f => CryptoFrame_Length f
  | FNewToken f => NewTokenFrame_Length f
  | FStream f => StreamFrame_Length f
  | FMaxData f => MaxDataFrame_Length f
  | FMaxStreamData f => MaxStreamDataFrame_Length f
  | FMaxStreams f => MaxStreamsFrame_Length f
  | FDataBlocked f => DataBlockedFrame_Length f
  | FStreamDataBlocked f => StreamDataBlockedFrame_Length f
  | FStreamsBlocked f => StreamsBlockedFrame_Length f
  | FNewConnectionID f => NewConnectionIDFrame_Length f
  | FRetireConnectionID f => RetireConnectionIDFrame_Length f
  | FPathChallenge f => PathChallengeFrame_Length
  | FPathResponse f => PathResponseFrame_Length
  | FConnectionClose f => ConnectionCloseFrame_Length f
  | FHandshakeDone => HandshakeDoneFrame_Length
  | FAckFrequency f => AckFrequencyFrame_Length f
  | FImmediateAck => ImmediateAckFrame_Length
  | FDatagram f => DatagramFrame_Length f
  | FObservedAddr f => ObservedAddrFrame_Length f
  | FPathAck f => PathAckFrame_Length f
  | FPathAbandon f => PathAbandonFrame_Length f
  | FPathStatusBackup f => PathStatusBackupFrame_Length f
  | FPathStatusAvailable f => PathStatusAvailableFrame_Length f
  | FMaxPathID f => MaxPathIDFrame_Length f
  | FPathsBlocked f => PathsBlockedFrame_Length f
  | FPathCIDsBlocked f => PathCIDsBlockedFrame_Length f
  | FAddAddress f => AddAddressFrame_Length f
  | FReachOut f => ReachOutFrame_Length f
  | FRemoveAddress f => RemoveAddressFrame_Length f
  end.

Definition IsProbingFrame (f : Frame) : bool :=
  match f with FPathChallenge _ | FPathResponse _ | FNewConnectionID _ => true | _ => false end.

(** internal/ackhandler/ack_eliciting.go *)
Definition IsFrameAckEliciting (f : Frame) : bool :=
  match f with FAck _ | FPathAck _ | FConnectionClose _ => false | _ => true end.
Fixpoint HasAckElicitingFrames (fs : list Frame) : bool :=
  match fs with
  | [] => false
  | f :: fs => if IsFrameAckEliciting f then true else HasAckElicitingFrames fs
  end.

(** ** Errors *)

(** qerr.TransportError; the message is the text of a frame error. *)
Definition FrameEncodingError : Z := 0x7.
Record TransportError := MkTransportError {
  te_ErrorCode : Z; te_FrameType : Z; te_ErrorMessage : FrameError }.

Inductive GoError :=
  | Plain (e : FrameError)
  | Transport (e : TransportError).
Definition io_EOF : GoError := Plain (ReadErr EOF).

#[global] Instance TransportError_eq_dec : EqDecision TransportError.
Proof. solve_decision. Defined.
#[global] Instance GoError_eq_dec : EqDecision GoError.
Proof. solve_decision. Defined.

(** An error of a frame codec, in a TransportError for the frame type. *)
Definition encodingError {A} (frameType : Z) (m : outcome FrameError A) : outcome GoError A :=
  match m with
  | Ret a => Ret a
  | Throw e => Throw (Transport (MkTransportError FrameEncodingError frameType e))
  | Panic => Panic
  end.
Definition plainError {A} (m : outcome FrameError A) : outcome GoError A :=
  match m with Ret a => Ret a | Throw e => Throw (Plain e) | Panic => Panic end.

(** ** FrameParser *)

(** [fp_ackFrame] is the ACK frame that is reused for every parse. *)
Record FrameParser := MkFrameParser {
  fp_ackDelayExponent : Z;
  fp_supportsDatagrams : bool;
  fp_supportsResetStreamAt : bool;
  fp_supportsAckFrequency : bool;
  fp_supportsMultipath : bool;
  fp_supportsAddressDiscovery : bool;
  fp_supportsNATTraversal : bool;
  fp_ackFrame : AckFrame }.

Definition NewFrameParser (supportsDatagrams supportsResetStreamAt supportsAckFrequency
    supportsMultipath : bool) : FrameParser :=
  MkFrameParser 0 supportsDatagrams supportsResetStreamAt supportsAckFrequency supportsMultipath
    false false (MkAckFrame [] 0 0 0 0).

Definition SetAckDelayExponent (p : FrameParser) (exp : Z) : FrameParser :=
  MkFrameParser exp (fp_supportsDatagrams p) (fp_supportsResetStreamAt p)
    (fp_supportsAckFrequency p) (fp_supportsMultipath p) (fp_supportsAddressDiscovery p)
    (fp_supportsNATTraversal p) (fp_ackFrame p).
Definition SetSupportsMultipath (p : FrameParser) (supported : bool) : FrameParser :=
  MkFrameParser (fp_ackDelayExponent p) (fp_supportsDatagrams p) (fp_supportsResetStreamAt p)
    (fp_supportsAckFrequency p) supported (fp_supportsAddressDiscovery p)
    (fp_supportsNATTraversal p) (fp_ackFrame p).
Definition SetSupportsAddressDiscovery (p : FrameParser) (supported : bool) : FrameParser :=
  MkFrameParser (fp_ackDelayExponent p) (fp_supportsDatagrams p) (fp_supportsResetStreamAt p)
    (fp_supportsAckFrequency p) (fp_supportsMultipath p) supported
    (fp_supportsNATTraversal p) (fp_ackFrame p).
Definition SetSupportsNATTraversal (p : FrameParser) (supported : bool) : FrameParser :=
  MkFrameParser (fp_ackDelayExponent p) (fp_supportsDatagrams p) (fp_supportsResetStreamAt p)
    (fp_supportsAckFrequency p) (fp_supportsMultipath p) (fp_supportsAddressDiscovery p)
    supported (fp_ackFrame p).

(** The frame types the parser admits. *)
Definition validFrameType (p : FrameParser) (ft : Z) : bool :=
  isValidRFC9000 ft
  || (fp_supportsDatagrams p && IsDatagramFrameType ft)
  || (fp_supportsResetStreamAt p && (ft =? FrameTypeResetStreamAt))
  || (fp_supportsAckFrequency p && ((ft =? FrameTypeAckFrequency) || (ft =? FrameTypeImmediateAck)))
  || (fp_supportsMultipath p && isMultipathFrameType ft)
  || (fp_supportsAddressDiscovery p && isAddressDiscoveryFrameType ft)
  || (fp_supportsNATTraversal p && isNATTraversalFrameType ft).

(** The loop of ParseType.  Every round reads a byte or more, so the fuel of
    ParseType is enough. *)
Fixpoint parseTypeLoop (p : FrameParser) (encLevel : EncryptionLevel) (fuel : nat) (b : bytes)
    (parsed : Z) : outcome GoError (Z * Z) :=
  match fuel with
  | O => Panic
  | S fuel =>
      match b with
      | [] => Throw io_EOF
      | _ :: _ =>
          match Parse b with
          | None => Panic
          | Some (Err e) =>
              Throw (Transport (MkTransportError FrameEncodingError 0 (ReadErr e)))
          | Some (Ok (typ, l)) =>
              let parsed := parsed + l in
              b ← or_panic (slice_from b l);
              if typ =? 0x0 then parseTypeLoop p encLevel fuel b parsed
              else if negb (validFrameType p typ) then
                Throw (Transport (MkTransportError FrameEncodingError typ errUnknownFrameType))
              else if negb (isAllowedAtEncLevel typ encLevel) then
                Throw (Transport (MkTransportError FrameEncodingError typ
                  (errNotAllowedAtEncLevel typ encLevel)))
              else Ret (typ, parsed)
          end
      end
  end.
Definition ParseType (p : FrameParser) (b : bytes) (encLevel : EncryptionLevel)
    : outcome GoError (Z * Z) :=
  parseTypeLoop p encLevel (S (length b)) b 0.

Definition FrameParser_ParseStreamFrame (p : FrameParser) (frameType : Z) (data : bytes)
    : outcome GoError (StreamFrame * Z) :=
  encodingError frameType (ParseStreamFrame data frameType).

(** The frame returned is the parser's own [fp_ackFrame]. *)
Definition ParseAckFrame (p : FrameParser) (frameType : Z) (data : bytes)
    (encLevel : EncryptionLevel) : outcome GoError (AckFrame * Z) :=
  let ackDelayExponent :=
    if negb (bool_decide (encLevel = Encryption1RTT)) then DefaultAckDelayExponent
    else fp_ackDelayExponent p in
  let ackFrame := AckFrame_Reset (fp_ackFrame p) in
  encodingError frameType (parseAckFrame ackFrame data frameType ackDelayExponent).

Definition ParseDatagramFrame (p : FrameParser) (frameType : Z) (data : bytes)
    : outcome GoError (DatagramFrame * Z) :=
  encodingError frameType (parseDatagramFrame data frameType).

(** A parser result as a Frame. *)
Definition as_frame {F} (c : F → Frame) (m : outcome FrameError (F * Z))
    : outcome FrameError (Frame * Z) :=
  '(f, l) ← m; Ret (c f, l).

(** The switch of ParseLessCommonFrame. *)
Definition parseLessCommon (p : FrameParser) (t : Z) (data : bytes)
    : outcome FrameError (Frame * Z) :=
  if t =? FrameTypePing then Ret (FPing, 0)
  else if t =? FrameTypeResetStream then as_frame FResetStream (parseResetStreamFrame data false)
  else if t =? FrameTypeStopSending then as_frame FStopSending (parseStopSendingFrame data)
  else if t =? FrameTypeCrypto then as_frame FCrypto (parseCryptoFrame data)
  else if t =? FrameTypeNewToken then as_frame FNewToken (parseNewTokenFrame data)
  else if t =? FrameTypeMaxData then as_frame FMaxData (parseMaxDataFrame data)
  else if t =? FrameTypeMaxStreamData then as_frame FMaxStreamData (parseMaxStreamDataFrame data)
  else if (t =? FrameTypeBidiMaxStreams) || (t =? FrameTypeUniMaxStreams)
  then as_frame FMaxStreams (parseMaxStreamsFrame data t)
  else if t =? FrameTypeDataBlocked then as_frame FDataBlocked (parseDataBlockedFrame data)
  else if t =? FrameTypeStreamDataBlocked
  then as_frame FStreamDataBlocked (parseStreamDataBlockedFrame data)
  else if (t =? FrameTypeBidiStreamBlocked) || (t =? FrameTypeUniStreamBlocked)
  then as_frame FStreamsBlocked (parseStreamsBlockedFrame data t)
  else if t =? FrameTypeNewConnectionID
  then as_frame FNewConnectionID (parseNewConnectionIDFrame data false)
  else if t =? FrameTypeRetireConnectionID
  then as_frame FRetireConnectionID (parseRetireConnectionIDFrame data false)
  else if t =? FrameTypePathChallenge then as_frame FPathChallenge (parsePathChallengeFrame data)
  else if t =? FrameTypePathResponse then as_frame FPathResponse (parsePathResponseFrame data)
  else if (t =? FrameTypeConnectionClose) || (t =? FrameTypeApplicationClose)
  then as_frame FConnectionClose (parseConnectionCloseFrame data t)
  else if t =? FrameTypeHandshakeDone then Ret (FHandshakeDone, 0)
  else if t =? FrameTypeResetStreamAt then as_frame FResetStream (parseResetStreamFrame data true)
  else if t =? FrameTypeAckFrequency then as_frame FAckFrequency (parseAckFrequencyFrame data)
  else if t =? FrameTypeImmediateAck then Ret (FImmediateAck, 0)
  else if t =? FrameTypeObservedIPv4Addr
  then as_frame FObservedAddr (parseObservedAddrFrame data false)
  else if t =? FrameTypeObservedIPv6Addr
  then as_frame FObservedAddr (parseObservedAddrFrame data true)
  else if t =? FrameTypePathAck
  then as_frame FPathAck (parsePathAckFrame data false (fp_ackDelayExponent p))
  else if t =? FrameTypePathAckECN
  then as_frame FPathAck (parsePathAckFrame data true (fp_ackDelayExponent p))
  else if t =? FrameTypePathAbandon then as_frame FPathAbandon (parsePathAbandonFrame data)
  else if t =? FrameTypePathStatusBackup
  then as_frame FPathStatusBackup (parsePathStatusBackupFrame data)
  else if t =? FrameTypePathStatusAvailable
  then as_frame FPathStatusAvailable (parsePathStatusAvailableFrame data)
  else if t =? FrameTypePathNewConnectionID
  then as_frame FNewConnectionID (parseNewConnectionIDFrame data true)
  else if t =? FrameTypePathRetireConnectionID
  then as_frame FRetireConnectionID (parseRetireConnectionIDFrame data true)
  else if t =? FrameTypeMaxPathID then as_frame FMaxPathID (parseMaxPathIDFrame data)
  else if t =? FrameTypePathsBlocked then as_frame FPathsBlocked (parsePathsBlockedFrame data)
  else if t =? FrameTypePathCIDsBlocked
  then as_frame FPathCIDsBlocked (parsePathCIDsBlockedFrame data)
  else if t =? FrameTypeAddIPv4Address then as_frame FAddAddress (parseAddAddressFrame data false)
  else if t =? FrameTypeAddIPv6Address then as_frame FAddAddress (parseAddAddressFrame data true)
  else if t =? FrameTypeReachOutAtIPv4 then as_frame FReachOut (parseReachOutFrame data false)
  else if t =? FrameTypeReachOutAtIPv6 then as_frame FReachOut (parseReachOutFrame data true)
  else if t =? FrameTypeRemoveAddress then as_frame FRemoveAddress (parseRemoveAddressFrame data)
  else Throw errUnknownFrameType.

Definition ParseLessCommonFrame (p : FrameParser) (frameType : Z) (data : bytes)
    : outcome GoError (Frame * Z) :=
  encodingError frameType (parseLessCommon p frameType data).

(** ** handleFrames (connection.go) *)

(** The parse of one frame in the loop of handleFrames, by frame type; MAX_DATA and
    MAX_STREAM_DATA are parsed inline, with the plain error of their parsers. *)
Definition parseFrame (p : FrameParser) (encLevel : EncryptionLevel) (frameType : Z) (data : bytes)
    : outcome GoError (Frame * Z) :=
  if IsStreamFrameType frameType then
    '(f, l) ← FrameParser_ParseStreamFrame p frameType data; Ret (FStream f, l)
  else if IsAckFrameType frameType then
    '(f, l) ← ParseAckFrame p frameType data encLevel; Ret (FAck f, l)
  else if IsDatagramFrameType frameType then
    '(f, l) ← ParseDatagramFrame p frameType data; Ret (FDatagram f, l)
  else if frameType =? FrameTypeMaxData then
    '(maximumData, l) ← plainError (ParseMaxDataFrame data);
    Ret (FMaxData (MkMaxDataFrame maximumData), l)
  else if frameType =? FrameTypeMaxStreamData then
    '(id, maximumStreamData, l) ← plainError (ParseMaxStreamDataFrame data);
    Ret (FMaxStreamData (MkMaxStreamDataFrame id maximumStreamData), l)
  else ParseLessCommonFrame p frameType data.

Section handleFrames.
(** The connection's state and its error type; what it does with a frame, with
    the PATH_CHALLENGE it reports; whether its handshake is complete, and what
    completing it does. *)
Context {S E : Type}.
Context (handle : Frame → S → S * option PathChallengeFrame * option E).
Context (handshakeComplete : S → bool) (handleHandshakeComplete : S → S * option E).

Inductive PacketError :=
  | ParseError (e : GoError)
  | HandleError (e : E).

(** The variables of the loop. *)
Record LoopState := MkLoopState {
  ls_conn : S;
  ls_isAckEliciting : bool;
  ls_isNonProbing : bool;
  ls_pathChallenge : option PathChallengeFrame;
  ls_handleErr : option E;
  ls_skipHandling : bool;
  ls_frames : list Frame }.

(** One frame: the flags from its type, then logging and handling. *)
Definition handleOne (log : bool) (frameType : Z) (frame : Frame) (s : LoopState) : LoopState :=
  let ackEliciting := if IsFrameTypeAckEliciting frameType then true else ls_isAckEliciting s in
  let nonProbing := if negb (IsProbingFrameType frameType) then true else ls_isNonProbing s in
  let frames := if log then ls_frames s ++ [frame] else ls_frames s in
  if ls_skipHandling s then
    MkLoopState (ls_conn s) ackEliciting nonProbing (ls_pathChallenge s) (ls_handleErr s) true frames
  else
    let '(conn, pc, handleErr) := handle frame (ls_conn s) in
    let pathChallenge := match pc with Some _ => pc | None => ls_pathChallenge s end in
    MkLoopState conn ackEliciting nonProbing pathChallenge handleErr
      (match handleErr with Some _ => true | None => false end) frames.

(** The loop: the state it leaves, and the error of an early return. *)
Fixpoint handleLoop (log : bool) (p : FrameParser) (encLevel : EncryptionLevel) (fuel : nat)
    (data : bytes) (s : LoopState) : LoopState * outcome PacketError unit :=
  match fuel with
  | O => (s, Panic)
  | Datatypes.S fuel =>
      if len data =? 0 then (s, Ret ())
      else
        match ParseType p data encLevel with
        | Panic => (s, Panic)
        | Throw err => if bool_decide (err = io_EOF) then (s, Ret ()) else (s, Throw (ParseError err))
        | Ret (frameType, l) =>
            match slice_from data l with
            | None => (s, Panic)
            | Some data =>
                match parseFrame p encLevel frameType data with
                | Panic => (s, Panic)
                | Throw err => (s, Throw (ParseError err))
                | Ret (frame, l) =>
                    match slice_from data l with
                    | None => (s, Panic)
                    | Some data =>
                        let s := handleOne log frameType frame s in
                        match ls_handleErr s with
                        | Some err =>
                            if log then handleLoop log p encLevel fuel data s
                            else (s, Throw (HandleError err))
                        | None => handleLoop log p encLevel fuel data s
                        end
                    end
                end
            end
        end
  end.

(** The state afterwards, the frames handed to the log, and the results. *)
Definition handleFrames (log : bool) (p : FrameParser) (data : bytes) (encLevel : EncryptionLevel)
    (c : S) : S * option (list Frame) * outcome PacketError (bool * bool * option PathChallengeFrame) :=
  let handshakeWasComplete := handshakeComplete c in
  let '(s, r) := handleLoop log p encLevel (Datatypes.S (length data)) data
                   (MkLoopState c false false None None false []) in
  match r with
  | Panic => (ls_conn s, None, Panic)
  | Throw err => (ls_conn s, None, Throw err)
  | Ret _ =>
      let logged := if log then Some (ls_frames s) else None in
      match (if log then ls_handleErr s else None) with
      | Some err => (ls_conn s, logged, Throw (HandleError err))
      | None =>
          let result := (ls_isAckEliciting s, ls_isNonProbing s, ls_pathChallenge s) in
          if negb handshakeWasComplete && handshakeComplete (ls_conn s) then
            match handleHandshakeComplete (ls_conn s) with
            | (conn, Some err) => (conn, logged, Throw (HandleError err))
            | (conn, None) => (conn, logged, Ret result)
            end
          else (ls_conn s, logged, Ret result)
      end
  end.
End handleFrames.
Arguments PacketError : clear implicits.
Arguments LoopState : clear implicits.
