(* ===== verification/FrameParserFacts.v ===== *)
(** * Laws of the frame parser

    Well-formed frames, their types, and what arrives of a frame; that the
    parser gives back what Append wrote, and that on any input it neither panics
    nor returns an ill-formed frame. *)

From S2P Require Import Prelude QuicVarint Protocol WireBase WireFrames WireFramesFacts WireAck WireAckFacts WireStream WireStreamFacts FrameParser.

(** ** Well-formed frames *)

Definition frame_ok (f : Frame) : Prop :=
  match f with
  | FPing | FHandshakeDone | FImmediateAck => True
  | FAck f => AckFrame_ok f
  | FResetStream f => ResetStreamFrame_ok f
  | FStopSending f => StopSendingFrame_ok f
  | FCrypto f => CryptoFrame_ok f
  | FNewToken f => NewTokenFrame_ok f
  | FStream f => StreamFrame_ok f
  | FMaxData f => MaxDataFrame_ok f
  | FMaxStreamData f => MaxStreamDataFrame_ok f
  | FMaxStreams f => MaxStreamsFrame_ok f
  | FDataBlocked f => DataBlockedFrame_ok f
  | FStreamDataBlocked f => StreamDataBlockedFrame_ok f
  | FStreamsBlocked f => StreamsBlockedFrame_ok f
  | FNewConnectionID f => NewConnectionIDFrame_ok f
  | FRetireConnectionID f => RetireConnectionIDFrame_ok f
  | FPathChallenge f => PathChallengeFrame_ok f
  | FPathResponse f => PathResponseFrame_ok f
  | FConnectionClose f => ConnectionCloseFrame_ok f
  | FAckFrequency f => AckFrequencyFrame_ok f
  | FDatagram f => DatagramFrame_ok f
  | FObservedAddr f => ObservedAddrFrame_ok f
  | FPathAck f => PathAckFrame_ok f
  | FPathAbandon f => PathAbandonFrame_ok f
  | FPathStatusBackup f => PathStatusBackupFrame_ok f
  | FPathStatusAvailable f => PathStatusAvailableFrame_ok f
  | FMaxPathID f => MaxPathIDFrame_ok f
  | FPathsBlocked f => PathsBlockedFrame_ok f
  | FPathCIDsBlocked f => PathCIDsBlockedFrame_ok f
  | FAddAddress f => AddAddressFrame_ok f
  | FReachOut f => ReachOutFrame_ok f
  | FRemoveAddress f => RemoveAddressFrame_ok f
  end.

(** Append refuses an empty STREAM frame without FIN. *)
Definition frame_sendable (f : Frame) : Prop :=
  match f with FStream f => StreamFrame_sendable f | f => frame_ok f end.

(** A frame that must be the last of its packet. *)
Definition needs_end (f : Frame) : bool :=
  match f with
  | FStream f => negb (sf_DataLenPresent f)
  | FDatagram f => negb (df_DataLenPresent f)
  | _ => false
  end.

Definition frame_type (f : Frame) : Z :=
  match f with
  | FPing => FrameTypePing
  | FAck f => ack_type f
  | FResetStream f =>
      if rs_ReliableSize f =? 0 then FrameTypeResetStream else FrameTypeResetStreamAt
  | FStopSending _ => FrameTypeStopSending
  | FCrypto _ => FrameTypeCrypto
  | FNewToken _ => FrameTypeNewToken
  | FStream f => StreamFrame_type f
  | FMaxData _ => FrameTypeMaxData
  | FMaxStreamData _ => FrameTypeMaxStreamData
  | FMaxStreams f => MaxStreamsFrame_type f
  | FDataBlocked _ => FrameTypeDataBlocked
  | FStreamDataBlocked _ => FrameTypeStreamDataBlocked
  | FStreamsBlocked f => StreamsBlockedFrame_type f
  | FNewConnectionID f => NewConnectionIDFrame_type f
  | FRetireConnectionID f => RetireConnectionIDFrame_type f
  | FPathChallenge _ => FrameTypePathChallenge
  | FPathResponse _ => FrameTypePathResponse
  | FConnectionClose f => ConnectionCloseFrame_type f
  | FHandshakeDone => FrameTypeHandshakeDone
  | FAckFrequency _ => FrameTypeAckFrequency
  | FImmediateAck => FrameTypeImmediateAck
  | FDatagram f => DatagramFrame_type f
  | FObservedAddr f => ObservedAddrFrame_frameType f
  | FPathAck f => PathAckFrame_type f
  | FPathAbandon _ => FrameTypePathAbandon
  | FPathStatusBackup _ => FrameTypePathStatusBackup
  | FPathStatusAvailable _ => FrameTypePathStatusAvailable
  | FMaxPathID _ => FrameTypeMaxPathID
  | FPathsBlocked _ => FrameTypePathsBlocked
  | FPathCIDsBlocked _ => FrameTypePathCIDsBlocked
  | FAddAddress f => AddAddressFrame_frameType f
  | FReachOut f => ReachOutFrame_frameType f
  | FRemoveAddress _ => FrameTypeRemoveAddress
  end.

(** What arrives of a frame: delays are rounded, an ACK keeps its 64 highest ranges,
    stream data is in a pooled buffer; every other frame arrives as it is. *)
Definition frame_received (f : Frame) : Frame :=
  match f with
  | FAck f => FAck (AckFrame_sent f)
  | FPathAck f => FPathAck (PathAckFrame_sent f)
  | FAckFrequency f => FAckFrequency (AckFrequencyFrame_sent f)
  | FStream f => FStream (StreamFrame_received f)
  | f => f
  end.

(** ** The codecs of all frames *)

(** What the parser promises to the connection for a frame. *)
Definition carries (p : FrameParser) (lvl : EncryptionLevel) (f : Frame) : Prop :=
  ∃ body, (∀ b, Frame_Append f b = Ret (b ++ enc (frame_type f) ++ body)) ∧ Forall is_byte body ∧
    Frame_Length f = Ret (len (enc (frame_type f)) + len body) ∧
    ∀ rest, Forall is_byte rest → (needs_end f = true → rest = []) →
      parseFrame p lvl (frame_type f) (body ++ rest) = Ret (frame_received f, len body).

Lemma carries_codec {F} p lvl f (c : F → Frame) x parse :
  codec (frame_type f) (Frame_Append f) (Frame_Length f) parse x →
  frame_received f = c x →
  (∀ data y n, parse data = Ret (y, n) → parseFrame p lvl (frame_type f) data = Ret (c y, n)) →
  carries p lvl f.
Proof.
  intros (body & Ha & Hb & Hl & Hp) Hrec Hparse. exists body. split_and!; [done..|].
  intros rest Hrest _. rewrite Hrec. by apply Hparse, Hp.
Qed.

(** Evaluate the dispatch on a constant frame type. *)
Ltac dispatch :=
  repeat match goal with
  | |- context [if ?c then _ else _] =>
      let v := eval vm_compute in c in
      lazymatch v with true => change c with true | false => change c with false end; cbv iota
  end.

Lemma as_frame_Ret {F} (c : F → Frame) (m : outcome FrameError (F * Z)) t x n :
  m = Ret (x, n) → encodingError t (as_frame c m) = Ret (c x, n).
Proof. by intros ->. Qed.

Ltac dispatch_less_common :=
  intros data y n Hy; unfold parseFrame, ParseLessCommonFrame, parseLessCommon;
  dispatch; first [by apply as_frame_Ret | by rewrite Hy | by injection Hy as <- <-].

Section carries.
Context (p : FrameParser) (lvl : EncryptionLevel).
Context (Hexp : fp_ackDelayExponent p = AckDelayExponent).

Lemma carries_simple_1 f :
  match f with
  | FPing | FHandshakeDone | FImmediateAck | FStopSending _ | FCrypto _ | FNewToken _
  | FMaxData _ | FMaxStreamData _ | FDataBlocked _ | FStreamDataBlocked _
  | FPathChallenge _ | FPathResponse _ | FAckFrequency _ => True | _ => False end →
  frame_ok f → carries p lvl f.
Proof.
  destruct f; intros []; intros Hf; cbn in Hf.
  - apply (carries_codec p lvl _ id FPing (λ _, Ret (FPing, 0))); [|done|dispatch_less_common].
    apply empty_codec; [|done]. intros b. cbn. unfold PingFrame_Append. by type_byte.
  - eapply (carries_codec p lvl _ FStopSending); [by apply StopSendingFrame_codec|done|dispatch_less_common].
  - eapply (carries_codec p lvl _ FCrypto); [by apply CryptoFrame_codec|done|dispatch_less_common].
  - eapply (carries_codec p lvl _ FNewToken); [by apply NewTokenFrame_codec|done|dispatch_less_common].
  - eapply (carries_codec p lvl _ FMaxData); [by apply MaxDataFrame_codec|done|].
    intros data y n. unfold parseFrame, parseMaxDataFrame. cbn [frame_type]. dispatch.
    destruct (ParseMaxDataFrame data) as [[]|?|]; [|done..]. by intros [= <- <-].
  - eapply (carries_codec p lvl _ FMaxStreamData); [by apply MaxStreamDataFrame_codec|done|].
    intros data y n. unfold parseFrame, parseMaxStreamDataFrame. cbn [frame_type]. dispatch.
    destruct (ParseMaxStreamDataFrame data) as [[[]]|?|]; [|done..]. by intros [= <- <-].
  - eapply (carries_codec p lvl _ FDataBlocked); [by apply DataBlockedFrame_codec|done|dispatch_less_common].
  - eapply (carries_codec p lvl _ FStreamDataBlocked);
      [by apply StreamDataBlockedFrame_codec|done|dispatch_less_common].
  - eapply (carries_codec p lvl _ FPathChallenge); [by apply PathChallengeFrame_codec|done|dispatch_less_common].
  - eapply (carries_codec p lvl _ FPathResponse); [by apply PathResponseFrame_codec|done|dispatch_less_common].
  - apply (carries_codec p lvl _ id FHandshakeDone (λ _, Ret (FHandshakeDone, 0)));
      [|done|dispatch_less_common].
    apply empty_codec; [|done]. intros b. cbn. unfold HandshakeDoneFrame_Append. by type_byte.
  - eapply (carries_codec p lvl _ FAckFrequency); [by apply AckFrequencyFrame_codec|done|dispatch_less_common].
  - apply (carries_codec p lvl _ id FImmediateAck (λ _, Ret (FImmediateAck, 0)));
      [|done|dispatch_less_common].
    apply empty_codec; [|done]. intros b. cbn. unfold ImmediateAckFrame_Append. by wire_eval.
Qed.

Lemma carries_path f :
  match f with
  | FPathAbandon _ | FPathStatusBackup _ | FPathStatusAvailable _ | FMaxPathID _
  | FPathsBlocked _ | FPathCIDsBlocked _ | FRemoveAddress _ => True | _ => False end →
  frame_ok f → carries p lvl f.
Proof.
  destruct f; intros []; intros Hf; cbn in Hf.
  - eapply (carries_codec p lvl _ FPathAbandon); [by apply PathAbandonFrame_codec|done|dispatch_less_common].
  - eapply (carries_codec p lvl _ FPathStatusBackup);
      [by apply PathStatusBackupFrame_codec|done|dispatch_less_common].
  - eapply (carries_codec p lvl _ FPathStatusAvailable);
      [by apply PathStatusAvailableFrame_codec|done|dispatch_less_common].
  - eapply (carries_codec p lvl _ FMaxPathID); [by apply MaxPathIDFrame_codec|done|dispatch_less_common].
  - eapply (carries_codec p lvl _ FPathsBlocked); [by apply PathsBlockedFrame_codec|done|dispatch_less_common].
  - eapply (carries_codec p lvl _ FPathCIDsBlocked);
      [by apply PathCIDsBlockedFrame_codec|done|dispatch_less_common].
  - eapply (carries_codec p lvl _ FRemoveAddress); [by apply RemoveAddressFrame_codec|done|dispatch_less_common].
Qed.

(** The frames whose type depends on their content. *)
Lemma carries_variant f :
  match f with
  | FResetStream _ | FMaxStreams _ | FStreamsBlocked _ | FNewConnectionID _
  | FRetireConnectionID _ | FConnectionClose _ => True | _ => False end →
  frame_ok f → carries p lvl f.
Proof.
  destruct f; intros []; intros Hf; cbn in Hf.
  - eapply (carries_codec p lvl _ FResetStream); [by apply ResetStreamFrame_codec|done|].
    cbn [frame_type]. destruct (rs_ReliableSize f =? 0); cbn [negb]; dispatch_less_common.
  - eapply (carries_codec p lvl _ FMaxStreams); [by apply MaxStreamsFrame_codec|done|].
    cbn [frame_type]. unfold MaxStreamsFrame_type. destruct (ms_Type f); dispatch_less_common.
  - eapply (carries_codec p lvl _ FStreamsBlocked); [by apply StreamsBlockedFrame_codec|done|].
    cbn [frame_type]. unfold StreamsBlockedFrame_type. destruct (sb_Type f); dispatch_less_common.
  - eapply (carries_codec p lvl _ FNewConnectionID); [by apply NewConnectionIDFrame_codec|done|].
    cbn [frame_type]. unfold NewConnectionIDFrame_type.
    destruct (is_path (nc_PathID f)); dispatch_less_common.
  - eapply (carries_codec p lvl _ FRetireConnectionID); [by apply RetireConnectionIDFrame_codec|done|].
    cbn [frame_type]. unfold RetireConnectionIDFrame_type.
    destruct (is_path (rc_PathID f)); dispatch_less_common.
  - eapply (carries_codec p lvl _ FConnectionClose); [by apply ConnectionCloseFrame_codec|done|].
    cbn [frame_type]. unfold ConnectionCloseFrame_type.
    destruct (cc_IsApplicationError f); dispatch_less_common.
Qed.

Lemma carries_addr f :
  match f with FObservedAddr _ | FAddAddress _ | FReachOut _ => True | _ => False end →
  frame_ok f → carries p lvl f.
Proof.
  destruct f; intros []; intros Hf; cbn in Hf.
  - eapply (carries_codec p lvl _ FObservedAddr); [by apply ObservedAddrFrame_codec|done|].
    cbn [frame_type]. unfold ObservedAddrFrame_frameType.
    destruct (Is6 (oa_Addr f)); dispatch_less_common.
  - eapply (carries_codec p lvl _ FAddAddress); [by apply AddAddressFrame_codec|done|].
    cbn [frame_type]. unfold AddAddressFrame_frameType.
    destruct (Is6 (aa_Addr f)); dispatch_less_common.
  - eapply (carries_codec p lvl _ FReachOut); [by apply ReachOutFrame_codec|done|].
    cbn [frame_type]. unfold ReachOutFrame_frameType.
    destruct (Is6 (ro_Addr f)); dispatch_less_common.
Qed.

Lemma carries_ack f :
  match f with FAck _ | FPathAck _ => True | _ => False end → frame_ok f → carries p lvl f.
Proof.
  destruct f; intros []; intros Hf; cbn in Hf.
  - eapply (carries_codec p lvl _ FAck); [by apply AckFrame_codec|done|].
    intros data y n Hy. cbn [frame_type]. unfold parseFrame, ParseAckFrame.
    assert ((if negb (bool_decide (lvl = Encryption1RTT)) then DefaultAckDelayExponent
             else fp_ackDelayExponent p) = AckDelayExponent) as -> by (rewrite Hexp; by destruct lvl).
    revert Hy. unfold ack_type, AckFrame_Reset. destruct (hasECN f); intros Hy; dispatch; by rewrite Hy.
  - eapply (carries_codec p lvl _ FPathAck); [by apply PathAckFrame_codec|done|].
    intros data y n. rewrite <-Hexp. cbn [frame_type]. unfold PathAckFrame_type.
    destruct (hasECN (pk_Ack f)); revert y n; revert data; dispatch_less_common.
Qed.

(** STREAM and DATAGRAM frames may reach to the end of the packet. *)
Lemma carries_data {F} f (c : F → Frame) x parse :
  (needs_end f = false → codec (frame_type f) (Frame_Append f) (Frame_Length f) parse x) →
  codec_last (frame_type f) (Frame_Append f) (Frame_Length f) parse x →
  frame_received f = c x →
  (∀ data y n, parse data = Ret (y, n) → parseFrame p lvl (frame_type f) data = Ret (c y, n)) →
  carries p lvl f.
Proof.
  intros Hc (body & Ha & Hb & Hl & Hp) Hrec Hparse. destruct (needs_end f) eqn:En.
  - exists body. split_and!; [done..|]. intros rest _ Hrest.
    rewrite (Hrest En), app_nil_r, Hrec. by apply Hparse.
  - by eapply (carries_codec p lvl); [apply Hc|..].
Qed.

Lemma frame_carries f : frame_sendable f → carries p lvl f.
Proof.
  intros Hf. destruct f; try (by apply carries_simple_1); try (by apply carries_path);
    try (by apply carries_variant); try (by apply carries_addr); try (by apply carries_ack).
  - destruct (StreamFrame_codec f Hf) as [Hc Hlast].
    eapply (carries_data (FStream f) FStream); [|exact Hlast|done|].
    { cbn. intros ?%negb_false_iff. by apply Hc. }
    intros data y n Hy. pose proof (stream_type_range f). cbn [frame_type].
    unfold parseFrame, IsStreamFrameType.
    rewrite Z.geb_leb, (proj2 (Z.leb_le _ _)), (proj2 (Z.leb_le _ _)) by lia. cbn.
    unfold FrameParser_ParseStreamFrame. by rewrite Hy.
  - destruct (DatagramFrame_codec f Hf) as [Hc Hlast].
    eapply (carries_data (FDatagram f) FDatagram); [|exact Hlast|done|].
    { cbn. intros ?%negb_false_iff. by apply Hc. }
    intros data y n Hy. cbn [frame_type]. unfold parseFrame, ParseDatagramFrame. revert Hy.
    unfold DatagramFrame_type. destruct (df_DataLenPresent f); intros Hy; dispatch; by rewrite Hy.
Qed.
End carries.

(** ** ParseType *)

(** The types ParseType lets through. *)
Definition admitted (p : FrameParser) (lvl : EncryptionLevel) (t : Z) : Prop :=
  validFrameType p t = true ∧ isAllowedAtEncLevel t lvl = true.
#[global] Instance admitted_dec p lvl t : Decision (admitted p lvl t).
Proof. unfold admitted. apply _. Defined.

Section ParseType.
Context (p : FrameParser) (lvl : EncryptionLevel).

(** PADDING is skipped and counted. *)
Lemma parseTypeLoop_padding k fuel b parsed :
  (k + length b < fuel)%nat → Forall is_byte b →
  parseTypeLoop p lvl fuel (replicate k 0 ++ b) parsed =
  parseTypeLoop p lvl (fuel - k) b (parsed + Z.of_nat k).
Proof.
  revert fuel parsed. induction k as [|k IH]; intros fuel parsed Hfuel Hb; cbn [replicate app].
  { by rewrite Nat.sub_0_r, Z.add_0_r. }
  destruct fuel as [|fuel]; [lia|]. cbn [parseTypeLoop].
  assert (Parse (0 :: replicate k 0 ++ b) = Some (Ok (0, 1))) as -> by done.
  assert (slice_from (0 :: replicate k 0 ++ b) 1 = Some (replicate k 0 ++ b)) as ->
    by exact (slice_from_app [0] (replicate k 0 ++ b)).
  cbn [or_panic mbind outcome_bind]. rewrite Z.eqb_refl, IH by (done || lia).
  f_equal; lia.
Qed.

Lemma parseTypeLoop_type t fuel rest parsed :
  vint t → t ≠ 0 → admitted p lvl t → Forall is_byte rest →
  parseTypeLoop p lvl (S fuel) (enc t ++ rest) parsed = Ret (t, parsed + len (enc t)).
Proof.
  intros Ht H0 [Hv Ha] Hrest. destruct (enc_spec t Ht) as (_ & _ & He). cbn [parseTypeLoop].
  rewrite (Parse_encoding _ _ _ rest He Hrest), slice_from_app. cbn [or_panic mbind outcome_bind].
  destruct (Z.eqb_spec t 0); [done|]. rewrite Hv, Ha. cbn [negb].
  destruct (enc t ++ rest) eqn:E; [|done]. pose proof (enc_len t Ht).
  apply (f_equal len) in E. rewrite len_app, (len_nil (A:=Z)) in E. pose proof (len_nonneg rest). lia.
Qed.

Lemma ParseType_frame k t rest :
  vint t → t ≠ 0 → admitted p lvl t → Forall is_byte rest →
  ParseType p (replicate k 0 ++ enc t ++ rest) lvl = Ret (t, Z.of_nat k + len (enc t)).
Proof.
  intros Ht H0 Ha Hrest. unfold ParseType. rewrite length_app, length_replicate.
  rewrite parseTypeLoop_padding by (lia || (apply Forall_app; split; [by apply enc_is_byte|done])).
  replace (S (k + length (enc t ++ rest)) - k)%nat with (S (length (enc t ++ rest))) by lia.
  by rewrite parseTypeLoop_type by done.
Qed.

Lemma ParseType_padding k : ParseType p (replicate k 0) lvl = Throw io_EOF.
Proof.
  unfold ParseType. rewrite <-(app_nil_r (replicate k 0)), length_app, length_replicate.
  rewrite parseTypeLoop_padding by (cbn; lia || constructor).
  replace (S (k + length ([] : bytes)) - k)%nat with 1%nat by (cbn; lia). done.
Qed.

Lemma parseTypeLoop_safe fuel b parsed :
  Forall is_byte b → (length b < fuel)%nat →
  match parseTypeLoop p lvl fuel b parsed with
  | Ret (t, n) => admitted p lvl t ∧ vint t ∧ t ≠ 0 ∧ parsed + 1 ≤ n ≤ parsed + len b
  | Throw e => e = io_EOF ∨ ∃ te, e = Transport te ∧ te_ErrorCode te = FrameEncodingError
  | Panic => False
  end.
Proof.
  revert b parsed. induction fuel as [|fuel IH]; intros b parsed Hb Hfuel; [lia|].
  cbn [parseTypeLoop]. destruct b as [|b0 b]; [by left|].
  destruct (Parse (b0 :: b)) as [[[t l]|e]|] eqn:E; [| |by rewrite Parse_spec in E].
  - destruct (Parse_range _ _ _ Hb E) as [Hv Hl].
    destruct (slice_split (b0 :: b) l) as (x & r & Eb & Hx & _ & ->); [lia|].
    cbn [or_panic mbind outcome_bind]. destruct (Z.eqb_spec t 0) as [->|Hne].
    + rewrite Eb in Hb. apply Forall_app in Hb as [_ Hr].
      assert (len (b0 :: b) = l + len r) as El by (rewrite Eb, len_app; lia).
      specialize (IH r (parsed + l) Hr). unfold len in El.
      destruct (parseTypeLoop p lvl fuel r (parsed + l)) as [[]|?|]; apply IH || idtac; try (unfold len; lia).
      destruct IH as (?&?&?&?); [lia|]. split_and!; [done..|lia|unfold len in *; lia].
    + destruct (validFrameType p t) eqn:Hvalid; cbn [negb]; [|right; by eexists].
      destruct (isAllowedAtEncLevel t lvl) eqn:Ha; cbn [negb]; [|right; by eexists].
      split_and!; try done; lia.
  - right. by eexists.
Qed.

Lemma ParseType_safe b :
  Forall is_byte b →
  match ParseType p b lvl with
  | Ret (t, n) => admitted p lvl t ∧ vint t ∧ t ≠ 0 ∧ 1 ≤ n ≤ len b
  | Throw e => e = io_EOF ∨ ∃ te, e = Transport te ∧ te_ErrorCode te = FrameEncodingError
  | Panic => False
  end.
Proof. intros Hb. apply (parseTypeLoop_safe (S (length b)) b 0 Hb). lia. Qed.
End ParseType.

(** ** Any input *)

(** RFC 9000, section 12.4: what Initial and Handshake packets may carry, and what
    a 0-RTT packet may not. *)
Definition frame_allowed (lvl : EncryptionLevel) (f : Frame) : bool :=
  match lvl with
  | EncryptionInitial | EncryptionHandshake =>
      match f with
      | FCrypto _ | FAck _ | FPing => true
      | FConnectionClose f => negb (cc_IsApplicationError f)
      | _ => false
      end
  | Encryption0RTT =>
      match f with
      | FCrypto _ | FAck _ | FNewToken _ | FPathResponse _ | FRetireConnectionID _ | FPathAck _
      | FPathAbandon _ | FPathStatusBackup _ | FPathStatusAvailable _ | FMaxPathID _
      | FPathsBlocked _ | FPathCIDsBlocked _ | FObservedAddr _ | FAddAddress _ | FReachOut _
      | FRemoveAddress _ => false
      | FConnectionClose f => cc_IsApplicationError f
      | _ => true
      end
  | Encryption1RTT => true
  end.

(** The outcomes of parsing a frame of type [t] from [data]: no panic, a well-formed
    frame, or an error that names the type, except for the two types parsed inline. *)
Definition frame_result (lvl : EncryptionLevel) (t : Z) (data : bytes)
    (m : outcome GoError (Frame * Z)) : Prop :=
  match m with
  | Ret (f, n) => frame_ok f ∧ frame_allowed lvl f = true ∧ 0 ≤ n ≤ len data
  | Throw e =>
      (e = io_EOF ∧ (t = FrameTypeMaxData ∨ t = FrameTypeMaxStreamData)) ∨
      ∃ msg, e = Transport (MkTransportError FrameEncodingError t msg)
  | Panic => False
  end.

Lemma encoding_result {F} lvl t data (c : F → Frame) (ok : F → Prop) (m : outcome FrameError (F * Z)) :
  parses ok data m → (∀ f, ok f → frame_ok (c f)) → (∀ f n, m = Ret (f, n) → frame_allowed lvl (c f) = true) →
  frame_result lvl t data ('(f, l) ← encodingError t m; Ret (c f, l)).
Proof.
  intros Hm Hc Hal. unfold parses in Hm. destruct m as [[f n]|e|]; cbn in *; [|by right; eexists|done].
  destruct Hm. split_and!; eauto; lia.
Qed.

Lemma less_common_result {F} lvl t data (c : F → Frame) (ok : F → Prop) (m : outcome FrameError (F * Z)) :
  parses ok data m → (∀ f, ok f → frame_ok (c f)) → (∀ f n, m = Ret (f, n) → frame_allowed lvl (c f) = true) →
  frame_result lvl t data (encodingError t (as_frame c m)).
Proof.
  intros Hm Hc Hal. pose proof (encoding_result lvl t data c ok m Hm Hc Hal) as H.
  destruct m as [[]|?|]; exact H.
Qed.

Lemma parseConnectionClose_app b typ f n :
  parseConnectionCloseFrame b typ = Ret (f, n) →
  cc_IsApplicationError f = (typ =? FrameTypeApplicationClose).
Proof.
  unfold parseConnectionCloseFrame. intros H.
  repeat (apply outcome_bind_Ret in H as ([] & _ & H)).
  destruct (_ >? _); [done|]. apply outcome_bind_Ret in H as (? & _ & H). by injection H as <- <-.
Qed.

Lemma varint_throw b e : varint b = Throw e → e = ReadErr EOF.
Proof.
  unfold varint. destruct (Parse b) as [[[v l]|[]]|]; [|by intros [= <-]..|done].
  by destruct (slice_from b l).
Qed.

(** The inline parsers fail with a plain io.EOF. *)
Lemma max_data_result lvl data :
  Forall is_byte data → frame_allowed lvl (FMaxData (MkMaxDataFrame 0)) = true →
  frame_result lvl FrameTypeMaxData data
    ('(m, l) ← plainError (ParseMaxDataFrame data); Ret (FMaxData (MkMaxDataFrame m), l)).
Proof.
  intros Hb Hal. pose proof (ParseMaxDataFrame_safe data Hb) as Hs. unfold parses in Hs.
  destruct (ParseMaxDataFrame data) as [[m l]|e|] eqn:E; cbn in *; [|left|done].
  - destruct Hs. split_and!; [done|by destruct lvl|lia|lia].
  - unfold ParseMaxDataFrame in E. destruct (varint data) as [[]|e'|] eqn:Ev; cbn in E; [done| |done].
    injection E as ->. apply varint_throw in Ev as ->. auto.
Qed.

Lemma max_stream_data_result lvl data :
  Forall is_byte data → frame_allowed lvl (FMaxStreamData (MkMaxStreamDataFrame 0 0)) = true →
  frame_result lvl FrameTypeMaxStreamData data
    ('(id, m, l) ← plainError (ParseMaxStreamDataFrame data);
     Ret (FMaxStreamData (MkMaxStreamDataFrame id m), l)).
Proof.
  intros Hb Hal. pose proof (ParseMaxStreamDataFrame_safe data Hb) as Hs.
  destruct (ParseMaxStreamDataFrame data) as [[[id m] l]|e|] eqn:E; cbn in *; [|left|done].
  - destruct Hs as (?&?&?). split; [done|split; [by destruct lvl|lia]].
  - unfold ParseMaxStreamDataFrame in E. destruct (varint data) as [[? r]|e'|] eqn:Ev; cbn in E; [| |done].
    + destruct (varint r) as [[]|e''|] eqn:Ev'; cbn in E; [done| |done].
      injection E as ->. apply varint_throw in Ev' as ->. auto.
    + injection E as ->. apply varint_throw in Ev as ->. auto.
Qed.

Section parseFrame_safe.
Context (p : FrameParser) (lvl : EncryptionLevel) (data : bytes).
Context (Hb : Forall is_byte data) (Hlen : vint (len data)).

(** Close a branch of the dispatch: the type is known, and with it the levels. *)
Ltac branch Hal lemma :=
  eapply less_common_result;
  [ apply lemma; done
  | done
  | intros f' n' Hf'; try (apply parseConnectionClose_app in Hf'); revert Hal; clear - Hf'; destruct lvl; first [done | by vm_compute | cbn; rewrite Hf'; by vm_compute] ].

Lemma parseLessCommon_safe t :
  isAllowedAtEncLevel t lvl = true →
  frame_result lvl t data (ParseLessCommonFrame p t data).
Proof.
  intros Hal. unfold ParseLessCommonFrame, parseLessCommon.
  repeat match goal with
  | |- frame_result _ _ _ (encodingError _ (if ?t =? ?c then _ else _)) =>
      destruct (Z.eqb_spec t c) as [->|_]
  | |- frame_result _ _ _ (encodingError _ (if (?t =? ?c) || (?t =? ?d) then _ else _)) =>
      destruct (Z.eqb_spec t c) as [->|_]; [cbn [orb]|
        destruct (Z.eqb_spec t d) as [->|_]; cbn [orb]]
  | |- frame_result _ _ _ (encodingError _ (Ret _)) =>
      pose proof (len_nonneg data); cbn; split_and!; [done| |lia|lia];
      revert Hal; clear; destruct lvl; by vm_compute
  | |- frame_result _ _ _ (encodingError _ (Throw _)) => by right; eexists
  | |- frame_result _ _ _ (encodingError _ (as_frame FResetStream _)) => branch Hal parseResetStreamFrame_safe
  | |- frame_result _ _ _ (encodingError _ (as_frame FStopSending _)) => branch Hal parseStopSendingFrame_safe
  | |- frame_result _ _ _ (encodingError _ (as_frame FCrypto _)) => branch Hal parseCryptoFrame_safe
  | |- frame_result _ _ _ (encodingError _ (as_frame FNewToken _)) => branch Hal parseNewTokenFrame_safe
  | |- frame_result _ _ _ (encodingError _ (as_frame FMaxData _)) => branch Hal parseMaxDataFrame_safe
  | |- frame_result _ _ _ (encodingError _ (as_frame FMaxStreamData _)) => branch Hal parseMaxStreamDataFrame_safe
  | |- frame_result _ _ _ (encodingError _ (as_frame FMaxStreams _)) => branch Hal parseMaxStreamsFrame_safe
  | |- frame_result _ _ _ (encodingError _ (as_frame FDataBlocked _)) => branch Hal parseDataBlockedFrame_safe
  | |- frame_result _ _ _ (encodingError _ (as_frame FStreamDataBlocked _)) => branch Hal parseStreamDataBlockedFrame_safe
  | |- frame_result _ _ _ (encodingError _ (as_frame FStreamsBlocked _)) => branch Hal parseStreamsBlockedFrame_safe
  | |- frame_result _ _ _ (encodingError _ (as_frame FNewConnectionID _)) => branch Hal parseNewConnectionIDFrame_safe
  | |- frame_result _ _ _ (encodingError _ (as_frame FRetireConnectionID _)) => branch Hal parseRetireConnectionIDFrame_safe
  | |- frame_result _ _ _ (encodingError _ (as_frame FPathChallenge _)) => branch Hal parsePathChallengeFrame_safe
  | |- frame_result _ _ _ (encodingError _ (as_frame FPathResponse _)) => branch Hal parsePathResponseFrame_safe
  | |- frame_result _ _ _ (encodingError _ (as_frame FConnectionClose _)) => branch Hal parseConnectionCloseFrame_safe
  | |- frame_result _ _ _ (encodingError _ (as_frame FAckFrequency _)) => branch Hal parseAckFrequencyFrame_safe
  | |- frame_result _ _ _ (encodingError _ (as_frame FObservedAddr _)) => branch Hal parseObservedAddrFrame_safe
  | |- frame_result _ _ _ (encodingError _ (as_frame FPathAck _)) => branch Hal parsePathAckFrame_safe
  | |- frame_result _ _ _ (encodingError _ (as_frame FPathAbandon _)) => branch Hal parsePathAbandonFrame_safe
  | |- frame_result _ _ _ (encodingError _ (as_frame FPathStatusBackup _)) => branch Hal parsePathStatusBackupFrame_safe
  | |- frame_result _ _ _ (encodingError _ (as_frame FPathStatusAvailable _)) => branch Hal parsePathStatusAvailableFrame_safe
  | |- frame_result _ _ _ (encodingError _ (as_frame FMaxPathID _)) => branch Hal parseMaxPathIDFrame_safe
  | |- frame_result _ _ _ (encodingError _ (as_frame FPathsBlocked _)) => branch Hal parsePathsBlockedFrame_safe
  | |- frame_result _ _ _ (encodingError _ (as_frame FPathCIDsBlocked _)) => branch Hal parsePathCIDsBlockedFrame_safe
  | |- frame_result _ _ _ (encodingError _ (as_frame FAddAddress _)) => branch Hal parseAddAddressFrame_safe
  | |- frame_result _ _ _ (encodingError _ (as_frame FReachOut _)) => branch Hal parseReachOutFrame_safe
  | |- frame_result _ _ _ (encodingError _ (as_frame FRemoveAddress _)) => branch Hal parseRemoveAddressFrame_safe
  end.
Qed.

Lemma parseFrame_safe t :
  isAllowedAtEncLevel t lvl = true → frame_result lvl t data (parseFrame p lvl t data).
Proof.
  intros Hal. unfold parseFrame.
  destruct (IsStreamFrameType t) eqn:Hs.
  { eapply encoding_result; [by apply ParseStreamFrame_safe|done|]. intros f' n' _.
    unfold IsStreamFrameType in Hs.
    assert (t = 8 ∨ t = 9 ∨ t = 10 ∨ t = 11 ∨ t = 12 ∨ t = 13 ∨ t = 14 ∨ t = 15) as Ht by lia.
    destruct Ht as [->|[->|[->|[->|[->|[->|[->| ->]]]]]]]; revert Hal; clear; destruct lvl; by vm_compute. }
  destruct (IsAckFrameType t) eqn:Ha.
  { eapply encoding_result; [by apply parseAckFrame_safe|done|]. intros f' n' _.
    unfold IsAckFrameType in Ha. apply orb_true_iff in Ha as [?%Z.eqb_eq|?%Z.eqb_eq]; subst t;
      revert Hal; clear; destruct lvl; by vm_compute. }
  destruct (IsDatagramFrameType t) eqn:Hd.
  { eapply encoding_result; [by apply parseDatagramFrame_safe|done|]. intros f' n' _.
    unfold IsDatagramFrameType in Hd. apply orb_true_iff in Hd as [?%Z.eqb_eq|?%Z.eqb_eq]; subst t;
      revert Hal; clear; destruct lvl; by vm_compute. }
  destruct (Z.eqb_spec t FrameTypeMaxData) as [->|_].
  { apply max_data_result; [done|]. revert Hal; clear; destruct lvl; by vm_compute. }
  destruct (Z.eqb_spec t FrameTypeMaxStreamData) as [->|_].
  { apply max_stream_data_result; [done|]. revert Hal; clear; destruct lvl; by vm_compute. }
  by apply parseLessCommon_safe.
Qed.
End parseFrame_safe.
