(* ===== verification/FrameParserProps.v ===== *)
(** * The frames of a packet: theorems

    What a sender appends is what the receiving connection handles, in order;
    and whatever bytes arrive, the loop ends without a panic and hands
    well-formed frames to the connection. *)

From S2P Require Import Prelude QuicVarint Protocol WireBase WireFrames WireFramesFacts WireAck WireAckFacts WireStream WireStreamFacts FrameParser FrameParserFacts.

Section packet.
Context {S E : Type}.
Context (handle : Frame → S → S * option PathChallengeFrame * option E).
Context (handshakeComplete : S → bool) (handleHandshakeComplete : S → S * option E).

Abbreviation loop := (handleLoop handle).
Abbreviation run := (handleFrames handle handshakeComplete handleHandshakeComplete).

(** ** Any input *)

(** The frames the loop has handed to the log, added to those before; another
    handler that does the same with well-formed frames gives the same result. *)
Lemma handleLoop_safe (handle' : Frame → S → S * option PathChallengeFrame * option E)
    log p lvl fuel data s :
  (∀ f c, frame_ok f → frame_allowed lvl f = true → handle' f c = handle f c) →
  Forall is_byte data → vint (len data) → (length data < fuel)%nat →
  Forall (λ f, frame_ok f ∧ frame_allowed lvl f = true) (ls_frames s) →
  handleLoop handle' log p lvl fuel data s = loop log p lvl fuel data s ∧
  let '(s', r) := loop log p lvl fuel data s in
  r ≠ Panic ∧ Forall (λ f, frame_ok f ∧ frame_allowed lvl f = true) (ls_frames s').
Proof.
  intros Hsame. revert data s. induction fuel as [|fuel IH]; intros data s Hb Hv Hfuel Hs; [lia|].
  cbn [handleLoop]. destruct (Z.eqb_spec (len data) 0) as [|Hne]; [done|].
  pose proof (ParseType_safe p lvl data Hb) as Ht.
  destruct (ParseType p data lvl) as [[t l]|e|]; [|split; [done|]; by case_bool_decide|done].
  destruct Ht as ((_ & Hal) & _ & _ & Hl).
  destruct (slice_split data l) as (x & d & -> & Hx & _ & ->); [lia|].
  apply Forall_app in Hb as [_ Hd]. rewrite len_app, length_app in *. pose proof (len_nonneg x).
  assert (vint (len d)) as Hv' by (pose proof (len_nonneg d); unfold vint in *; lia).
  pose proof (parseFrame_safe p lvl d Hd Hv' t Hal) as Hf.
  destruct (parseFrame p lvl t d) as [[f n]|e|]; [|done|done].
  destruct Hf as (Hok & Hlvl & Hn).
  destruct (slice_split d n) as (y & d' & -> & Hy & _ & ->); [lia|].
  apply Forall_app in Hd as [_ Hd']. rewrite len_app, length_app in *.
  assert (vint (len d')) by (pose proof (len_nonneg d'); pose proof (len_nonneg y); unfold vint in *; lia).
  assert (length d' < fuel)%nat by (unfold len in *; lia).
  assert (Forall (λ f, frame_ok f ∧ frame_allowed lvl f = true) (ls_frames (handleOne handle log t f s))).
  { unfold handleOne. destruct (ls_skipHandling s), log, (handle f (ls_conn s)) as [[]];
      cbn; rewrite ?Forall_app, ?Forall_singleton; done. }
  assert (handleOne handle' log t f s = handleOne handle log t f s) as ->
    by (unfold handleOne; by rewrite Hsame).
  destruct (ls_handleErr (handleOne handle log t f s)); [|by apply IH].
  destruct log; [by apply IH|done].
Qed.

(** ** What was appended *)

(** The bytes of a frame, and of frames with padding in front of each. *)
Definition frame_bytes (f : Frame) : bytes :=
  match Frame_Append f [] with Ret b => b | _ => [] end.
Fixpoint payload_bytes (fs : list (nat * Frame)) : bytes :=
  match fs with
  | [] => []
  | (k, f) :: fs => replicate k 0 ++ frame_bytes f ++ payload_bytes fs
  end.

(** Frames that may share a packet: only the last one lacks a length field. *)
Fixpoint packable (fs : list (nat * Frame)) (trailing : nat) : Prop :=
  match fs with
  | [] => True
  | (_, f) :: fs =>
      (needs_end f = true → fs = [] ∧ trailing = 0%nat) ∧ packable fs trailing
  end.

(** The handling of frames one after the other, as the loop does it. *)
Fixpoint deliver (log : bool) (fs : list Frame) (s : LoopState S E)
    : LoopState S E * outcome (PacketError E) unit :=
  match fs with
  | [] => (s, Ret ())
  | f :: fs =>
      let s := handleOne handle log (frame_type f) (frame_received f) s in
      match ls_handleErr s with
      | Some err => if log then deliver log fs s else (s, Throw (HandleError err))
      | None => deliver log fs s
      end
  end.

Section roundtrip.
Context (log : bool) (p : FrameParser) (lvl : EncryptionLevel).
Context (Hexp : fp_ackDelayExponent p = AckDelayExponent).

Definition good (f : Frame) : Prop := frame_sendable f ∧ admitted p lvl (frame_type f).

Lemma frame_type_range f : vint (frame_type f) ∧ frame_type f ≠ 0.
Proof.
  destruct f; cbn [frame_type];
    unfold ack_type, MaxStreamsFrame_type, StreamsBlockedFrame_type, NewConnectionIDFrame_type,
      RetireConnectionIDFrame_type, ConnectionCloseFrame_type, DatagramFrame_type,
      ObservedAddrFrame_frameType, PathAckFrame_type, AddAddressFrame_frameType, ReachOutFrame_frameType;
    try (pose proof (stream_type_range f); split; [wire_lia|lia]);
    repeat case_match; (split; [by_decision|done]).
Qed.

Lemma frame_bytes_spec f :
  good f → ∃ body, frame_bytes f = enc (frame_type f) ++ body ∧ Forall is_byte body ∧
    (∀ b, Frame_Append f b = Ret (b ++ frame_bytes f)) ∧ Frame_Length f = Ret (len (frame_bytes f)) ∧
    ∀ rest, Forall is_byte rest → (needs_end f = true → rest = []) →
      parseFrame p lvl (frame_type f) (body ++ rest) = Ret (frame_received f, len body).
Proof.
  intros [Hs _]. destruct (frame_carries p lvl Hexp f Hs) as (body & Ha & Hb & Hl & Hp).
  exists body. assert (frame_bytes f = enc (frame_type f) ++ body) as Ebytes
    by (unfold frame_bytes; by rewrite Ha).
  rewrite Ebytes. split_and!; [done|done|done|by rewrite len_app|done].
Qed.

Lemma payload_is_byte fs : Forall (good ∘ snd) fs → Forall is_byte (payload_bytes fs).
Proof.
  induction 1 as [|[k f] fs Hf _ IH]; cbn; [constructor|].
  destruct (frame_bytes_spec f Hf) as (body & -> & Hb & _). destruct (frame_type_range f) as [Hv _].
  repeat (apply Forall_app; split); [|by apply enc_is_byte|done|done].
  apply Forall_replicate. unfold is_byte. lia.
Qed.

(** The loop reads back the frames that were appended. *)
Lemma handleLoop_payload fs trailing fuel s :
  Forall (good ∘ snd) fs → packable fs trailing →
  (length (payload_bytes fs ++ replicate trailing 0%Z) < fuel)%nat →
  loop log p lvl fuel (payload_bytes fs ++ replicate trailing 0) s = deliver log (snd <$> fs) s.
Proof.
  revert fuel s. induction fs as [|[k f] fs IH]; intros fuel s Hfs Hpack Hfuel.
  { destruct fuel as [|fuel]; [lia|]. cbn [payload_bytes app fmap list_fmap deliver handleLoop].
    destruct trailing; [done|].
    destruct (Z.eqb_spec (len (replicate (Datatypes.S trailing) 0)) 0) as [E0|_];
      [apply len_0_nil in E0; done|].
    rewrite ParseType_padding. by rewrite bool_decide_true. }
  apply Forall_cons in Hfs as [Hf Hfs]. cbn in Hf. destruct Hpack as [Hend Hpack].
  destruct fuel as [|fuel]; [lia|]. cbn [fmap list_fmap snd deliver].
  destruct (frame_bytes_spec f Hf) as (body & Eb & Hb & _ & _ & Hparse).
  destruct (frame_type_range f) as [Hv Hne]. pose proof (enc_len _ Hv).
  cbn [payload_bytes] in *. set (tl := payload_bytes fs ++ replicate trailing 0) in *.
  assert (Forall is_byte tl) as Htl.
  { apply Forall_app. split; [by apply payload_is_byte|]. apply Forall_replicate. unfold is_byte. lia. }
  assert ((replicate k 0 ++ frame_bytes f ++ payload_bytes fs) ++ replicate trailing 0
          = replicate k 0 ++ enc (frame_type f) ++ body ++ tl) as Ebytes.
  { rewrite Eb. unfold tl. by rewrite <-!app_assoc. }
  rewrite Ebytes in *. cbn [handleLoop].
  destruct (Z.eqb_spec (len (replicate k 0 ++ enc (frame_type f) ++ body ++ tl)) 0) as [E0|_].
  { exfalso. rewrite !len_app in E0. pose proof (len_nonneg (replicate k 0)).
    pose proof (len_nonneg body). pose proof (len_nonneg tl). lia. }
  rewrite ParseType_frame by (done || apply Hf || by apply Forall_app).
  replace (Z.of_nat k + len (enc (frame_type f))) with (len (replicate k 0 ++ enc (frame_type f)))
    by (rewrite len_app; unfold len at 1; by rewrite length_replicate).
  rewrite app_assoc, slice_from_app, Hparse; [|done|].
  2: { intros He. destruct (Hend He) as [-> ->]. done. }
  rewrite slice_from_app.
  assert (length tl < fuel)%nat by (rewrite !length_app in Hfuel; unfold len in *; lia).
  destruct (ls_handleErr _); [destruct log; [|done]|]; by apply IH.
Qed.
End roundtrip.

(** ** The connection's view *)

(** Handling frames in order up to the first error. *)
Fixpoint handle_all (fs : list Frame) (c : S) : S * option E :=
  match fs with
  | [] => (c, None)
  | f :: fs =>
      let '(c, _, e) := handle f c in
      match e with Some err => (c, Some err) | None => handle_all fs c end
  end.

(** After an error, the frames are still logged but no longer handled. *)
Lemma deliver_skip fs s err :
  ls_skipHandling s = true → ls_handleErr s = Some err →
  ∃ s', deliver true fs s = (s', Ret ()) ∧ ls_conn s' = ls_conn s ∧ ls_handleErr s' = Some err ∧
    ls_frames s' = ls_frames s ++ (frame_received <$> fs).
Proof.
  revert s. induction fs as [|f fs IH]; intros s Hskip Herr; cbn [deliver].
  { exists s. by rewrite app_nil_r. }
  set (s1 := handleOne _ _ _ _ s).
  assert (ls_skipHandling s1 = true ∧ ls_handleErr s1 = Some err ∧ ls_conn s1 = ls_conn s ∧
          ls_frames s1 = ls_frames s ++ [frame_received f]) as (H1 & H2 & H3 & H4).
  { unfold s1, handleOne. by rewrite Hskip. }
  rewrite H2. destruct (IH s1 H1 H2) as (s' & -> & Hc & He & Hf).
  exists s'. split_and!; [done|congruence|done|]. rewrite Hf, H4, <-app_assoc. done.
Qed.

Lemma deliver_spec log fs s :
  ls_skipHandling s = false → ls_handleErr s = None →
  let '(s', r) := deliver log fs s in
  let '(c, e) := handle_all (frame_received <$> fs) (ls_conn s) in
  ls_conn s' = c ∧ (log = true → ls_frames s' = ls_frames s ++ (frame_received <$> fs)) ∧
  match e with
  | Some err => if log then r = Ret () ∧ ls_handleErr s' = Some err
                else r = Throw (HandleError err)
  | None => r = Ret () ∧ ls_handleErr s' = None ∧
      ls_isAckEliciting s' = ls_isAckEliciting s || existsb (IsFrameTypeAckEliciting ∘ frame_type) fs ∧
      ls_isNonProbing s' =
        ls_isNonProbing s || existsb (negb ∘ IsProbingFrameType ∘ frame_type) fs
  end.
Proof.
  revert s. induction fs as [|f fs IH]; intros s Hskip Herr; cbn.
  { rewrite app_nil_r, !orb_false_r. done. }
  unfold handleOne. rewrite Hskip. destruct (handle (frame_received f) (ls_conn s)) as [[c pc] e].
  set (s1 := MkLoopState _ _ _ _ _ _ _).
  assert (log = true → ls_frames s1 = ls_frames s ++ [frame_received f]) as Hlog by (by intros ->).
  destruct e as [err|]; cbn [ls_handleErr s1].
  - destruct log; [|done].
    destruct (deliver_skip fs s1 err eq_refl eq_refl) as (s' & -> & Hc & He & Hf).
    split_and!; [done| |done|done]. intros _. rewrite Hf, Hlog, <-app_assoc by done. done.
  - specialize (IH s1 eq_refl eq_refl). destruct (deliver log fs s1) as [s' r].
    cbn [ls_conn s1] in IH. destruct (handle_all (frame_received <$> fs) c) as [c' e'].
    destruct IH as (Hc & Hf & He). split_and!; [done|intros Hl; rewrite Hf, Hlog, <-app_assoc by done; done|].
    destruct e'; [done|]. destruct He as (? & ? & -> & ->). split_and!; [done|done|..]; cbn [ls_isAckEliciting ls_isNonProbing s1].
    + rewrite orb_assoc. f_equal. by destruct (IsFrameTypeAckEliciting _), (ls_isAckEliciting s).
    + rewrite orb_assoc. f_equal. change (_ || (_ || _)) with (IsProbingFrameType (frame_type f)).
      by destruct (IsProbingFrameType _), (ls_isNonProbing s).
Qed.

(** The results of handleFrames on what was appended, with or without a log. *)
Lemma handleFrames_payload log p lvl fs trailing c :
  fp_ackDelayExponent p = AckDelayExponent → handshakeComplete c = true →
  Forall (good p lvl ∘ snd) fs → packable fs trailing →
  let rcv := frame_received <$> (snd <$> fs) in
  let '(c', logged, r) := run log p (payload_bytes fs ++ replicate trailing 0) lvl c in
  let '(c1, e) := handle_all rcv c in
  c' = c1 ∧
  match e with
  | Some err => r = Throw (HandleError err)
  | None => ∃ pc, r = Ret (existsb (IsFrameTypeAckEliciting ∘ frame_type) (snd <$> fs),
                           existsb (negb ∘ IsProbingFrameType ∘ frame_type) (snd <$> fs), pc)
  end ∧
  (log = true → logged = Some rcv).
Proof.
  intros Hexp Hhs Hfs Hpack. unfold handleFrames.
  rewrite (handleLoop_payload log p lvl Hexp) by (done || lia).
  pose proof (deliver_spec log (snd <$> fs) (MkLoopState c false false None None false []) eq_refl eq_refl) as H.
  destruct (deliver _ _ _) as [s r]. cbn in H.
  destruct (handle_all (frame_received <$> (snd <$> fs)) c) as [c1 e].
  destruct H as (Hc & Hf & He). rewrite Hhs. cbn [negb andb]. destruct e as [err|].
  - destruct log; [destruct He as [-> ->]|subst r]; (split; [done|]); (split; [done|]); [|done].
    intros _. by rewrite Hf.
  - destruct He as (-> & He & -> & ->). rewrite He.
    assert ((if log then None else None : option E) = None) as -> by by destruct log.
    split; [done|]. split; [by eexists|]. intros ->. by rewrite Hf.
Qed.
End packet.

(** Frames appended one after the other, each behind some PADDING. *)
Fixpoint append_frames (fs : list (nat * Frame)) (b : bytes) : outcome FrameError bytes :=
  match fs with
  | [] => Ret b
  | (k, f) :: fs => b ← Frame_Append f (b ++ replicate k 0); append_frames fs b
  end.

Lemma append_frames_payload p lvl fs b :
  fp_ackDelayExponent p = AckDelayExponent → Forall (good p lvl ∘ snd) fs →
  append_frames fs b = Ret (b ++ payload_bytes fs).
Proof.
  intros Hexp Hfs. revert b. induction Hfs as [|[k f] fs Hf _ IH]; intros b; cbn [append_frames payload_bytes].
  { by rewrite app_nil_r. }
  destruct (frame_bytes_spec p lvl Hexp f Hf) as (body & _ & _ & Ha & _).
  rewrite Ha. cbn [mbind outcome_bind]. rewrite IH, <-!app_assoc. done.
Qed.

(** C11: The frames a sender appends to a packet, with any amount of PADDING between
    and behind them, are the frames the receiving connection handles: in order, each as
    it was sent up to the rounding of delays and the 64 highest ranges of an ACK, up to
    the first error of a handler, and the packet counts as ack-eliciting and as
    non-probing by the types of its frames. *)
Theorem appended_frames_are_handled {S E : Type}
    (handle : Frame → S → S * option PathChallengeFrame * option E)
    (handshakeComplete : S → bool) (handleHandshakeComplete : S → S * option E)
    (log : bool) (p : FrameParser) (lvl : EncryptionLevel) (fs : list (nat * Frame))
    (trailing : nat) (c : S)
    (Hexp : fp_ackDelayExponent p = AckDelayExponent) (Hhandshake : handshakeComplete c = true)
    (Hfs : Forall (λ kf, frame_sendable kf.2 ∧ admitted p lvl (frame_type kf.2)) fs)
    (Hpack : packable fs trailing) :
  ∃ payload, append_frames fs [] = Ret payload ∧
    let sent := snd <$> fs in
    let '(c', logged, r) :=
      handleFrames handle handshakeComplete handleHandshakeComplete log p
        (payload ++ replicate trailing 0) lvl c in
    let '(c1, e) := handle_all handle (frame_received <$> sent) c in
    c' = c1 ∧
    match e with
    | Some err => r = Throw (HandleError err)
    | None => ∃ pc, r = Ret (existsb (IsFrameTypeAckEliciting ∘ frame_type) sent,
                             existsb (negb ∘ IsProbingFrameType ∘ frame_type) sent, pc)
    end ∧
    (log = true → logged = Some (frame_received <$> sent)).
Proof.
  exists (payload_bytes fs). split; [by rewrite (append_frames_payload p lvl)|].
  by apply handleFrames_payload.
Qed.

Lemma appended_frames_are_handled_witness :
  let p := SetAckDelayExponent (NewFrameParser false false false false) AckDelayExponent in
  let fs := [(0%nat, FPing); (2%nat, FMaxData (MkMaxDataFrame 70))] in
  ∃ payload, append_frames fs [] = Ret payload ∧
    let sent := snd <$> fs in
    let '(c', logged, r) :=
      handleFrames (λ f seen, (seen ++ [f], None, @None unit)) (λ _, true) (λ c, (c, None)) true p
        (payload ++ replicate 3 0) Encryption1RTT [] in
    let '(c1, e) := handle_all (λ f seen, (seen ++ [f], None, @None unit)) (frame_received <$> sent) [] in
    c' = c1 ∧
    match e with
    | Some err => r = Throw (HandleError err)
    | None => ∃ pc, r = Ret (existsb (IsFrameTypeAckEliciting ∘ frame_type) sent,
                             existsb (negb ∘ IsProbingFrameType ∘ frame_type) sent, pc)
    end ∧
    (true = true → logged = Some (frame_received <$> sent)).
Proof.
  intros p fs.
  apply (appended_frames_are_handled (λ f seen, (seen ++ [f], None, @None unit)) (λ _, true)
    (λ c, (c, None)) true p Encryption1RTT fs 3 []); [done|done| |by split_and!].
  repeat constructor; by_decision.
Defined.

(** C16: Whatever bytes a packet carries, the connection's frame loop ends without
    a panic, and only well-formed frames that may occur at the packet's encryption
    level reach the connection.  What the connection would do with any other frame
    makes no difference: a handler that differs only there leaves the same state,
    logs the same frames and returns the same results and errors, with or
    without logging.  The frames in the log are well-formed too. *)
Theorem received_frames_well_formed {S E : Type}
    (handle : Frame → S → S * option PathChallengeFrame * option E)
    (handshakeComplete : S → bool) (handleHandshakeComplete : S → S * option E)
    (log : bool) (p : FrameParser) (data : bytes) (lvl : EncryptionLevel) (c : S)
    (Hbytes : Forall is_byte data) (Hlen : len data ≤ Max) :
  (∀ handle', (∀ f s, frame_ok f → frame_allowed lvl f = true → handle' f s = handle f s) →
     handleFrames handle' handshakeComplete handleHandshakeComplete log p data lvl c =
     handleFrames handle handshakeComplete handleHandshakeComplete log p data lvl c) ∧
  let '(_, logged, r) :=
    handleFrames handle handshakeComplete handleHandshakeComplete log p data lvl c in
  r ≠ Panic ∧
  ∀ frames, logged = Some frames → Forall (λ f, frame_ok f ∧ frame_allowed lvl f = true) frames.
Proof.
  assert (vint (len data)) as Hv by (pose proof (len_nonneg data); unfold vint; lia).
  pose proof (λ handle' H, handleLoop_safe handle handle' log p lvl (Datatypes.S (length data)) data
    (MkLoopState c false false None None false []) H Hbytes Hv ltac:(lia) (Forall_nil_2 _)) as H.
  split; [intros handle' Hs; unfold handleFrames; by rewrite (proj1 (H handle' Hs))|].
  unfold handleFrames. destruct (H handle ltac:(done)) as [_ Hsafe].
  destruct (handleLoop _ _ _ _ _ _ _) as [s r]. destruct Hsafe as [Hr Hf].
  assert (∀ frames, (if log then Some (ls_frames s) else None) = Some frames →
    Forall (λ f, frame_ok f ∧ frame_allowed lvl f = true) frames) as Hl
    by (intros frames; destruct log; [by intros [= <-]|done]).
  destruct r as [|e|]; [|done|done]. destruct (if log then ls_handleErr s else None); [done|].
  destruct (_ && _); [|done]. by destruct (handleHandshakeComplete (ls_conn s)) as [? []].
Qed.

(** A handler that keeps the frames it is given, and one that fails on a frame
    that does not belong into an Initial packet. *)
Definition keep_frame (f : Frame) (seen : list Frame) :
    list Frame * option PathChallengeFrame * option unit := (seen ++ [f], None, None).
Definition keep_allowed (f : Frame) (seen : list Frame) :
    list Frame * option PathChallengeFrame * option unit :=
  if frame_allowed EncryptionInitial f then keep_frame f seen else (seen, None, Some ()).

Lemma received_frames_well_formed_witness :
  let p := NewFrameParser false false false false in
  let data := [0; 1; 0x10; 0x25] in
  handleFrames keep_allowed (λ _, true) (λ c, (c, None)) false p data EncryptionInitial [] =
    handleFrames keep_frame (λ _, true) (λ c, (c, None)) false p data EncryptionInitial [] ∧
  handleFrames keep_frame (λ _, true) (λ c, (c, None)) false p data EncryptionInitial [] =
    ([FPing], None, Throw (ParseError (Transport (MkTransportError FrameEncodingError FrameTypeMaxData
      (errNotAllowedAtEncLevel FrameTypeMaxData EncryptionInitial))))) ∧
  let '(_, logged, r) :=
    handleFrames keep_frame (λ _, true) (λ c, (c, None)) false p data EncryptionInitial [] in
  r ≠ Panic ∧
  ∀ frames, logged = Some frames →
    Forall (λ f, frame_ok f ∧ frame_allowed EncryptionInitial f = true) frames.
Proof.
  intros p data.
  destruct (received_frames_well_formed keep_frame (λ _, true) (λ c, (c, None)) false p data
    EncryptionInitial []) as [Hsame Hr]; [by_decision..|]. split_and!; [|vm_compute; reflexivity|exact Hr].
  apply Hsame. intros f s Hf Ha. unfold keep_allowed. by rewrite Ha.
Defined.

(** C40: A frame that cannot be parsed ends the packet with a FRAME_ENCODING_ERROR
    for its type, except MAX_DATA and MAX_STREAM_DATA, which handleFrames parses
    itself: those return the bare io.EOF of the reader. *)
Theorem malformed_frame_errors (p : FrameParser) (lvl : EncryptionLevel) (t : Z) (data : bytes)
    (e : GoError)
    (Hbytes : Forall is_byte data) (Hlen : len data ≤ Max)
    (Hallowed : isAllowedAtEncLevel t lvl = true)
    (Herr : parseFrame p lvl t data = Throw e) :
  if (t =? FrameTypeMaxData) || (t =? FrameTypeMaxStreamData) then e = io_EOF
  else ∃ msg, e = Transport (MkTransportError FrameEncodingError t msg).
Proof.
  assert (vint (len data)) as Hv by (pose proof (len_nonneg data); unfold vint; lia).
  pose proof (parseFrame_safe p lvl data Hbytes Hv t Hallowed) as H. rewrite Herr in H. cbn in H.
  destruct H as [[-> [-> | ->]]|[msg ->]]; [done|done|].
  destruct (Z.eqb_spec t FrameTypeMaxData) as [->|]; [exfalso|].
  { cbn in Herr. destruct (ParseMaxDataFrame data) as [[]| |]; done. }
  destruct (Z.eqb_spec t FrameTypeMaxStreamData) as [->|]; [exfalso|by eexists].
  cbn in Herr. destruct (ParseMaxStreamDataFrame data) as [[[]]| |]; done.
Qed.

Lemma malformed_frame_errors_witness :
  let p := NewFrameParser false false false false in
  (∃ e, parseFrame p Encryption1RTT FrameTypeMaxData [0x40] = Throw e ∧ e = io_EOF) ∧
  (∃ e, parseFrame p Encryption1RTT FrameTypeDataBlocked [0x40] = Throw e ∧
     ∃ msg, e = Transport (MkTransportError FrameEncodingError FrameTypeDataBlocked msg)).
Proof.
  intros p. split; eexists; (split; [vm_compute; reflexivity|]).
  - apply (malformed_frame_errors p Encryption1RTT FrameTypeMaxData [0x40]); first [done | by_decision].
  - apply (malformed_frame_errors p Encryption1RTT FrameTypeDataBlocked [0x40]); first [done | by_decision].
Defined.
