(* ===== verification/ReceivedHistory.v ===== *)
(** * Received packets: internal/qng/internal/ackhandler/received_packet_history.go

    The packet numbers received, as an ascending list of maximal intervals.  A
    packet number is a non-negative 62-bit value held in an int64, so adding or
    subtracting one does not wrap.  Index out of range is [None]. *)

From S2P Require Import Prelude.

Definition PacketNumber : Type := Z.
Definition InvalidPacketNumber : PacketNumber := -1.
Definition MaxNumAckRanges : Z := 64.

Record interval := MkInterval { Start : PacketNumber; End_ : PacketNumber }.
#[global] Instance interval_eq_dec : EqDecision interval.
Proof. solve_decision. Defined.

Record receivedPacketHistory := MkHistory {
  ranges : list interval;
  deletedBelow : PacketNumber;
}.

Definition newReceivedPacketHistory : receivedPacketHistory :=
  MkHistory [] InvalidPacketNumber.

(** slices.Insert and slices.Delete, for indices in range. *)
Definition slices_Insert {A} (l : list A) (i : nat) (x : A) : list A := take i l ++ [x] ++ drop i l.
Definition slices_Delete {A} (l : list A) (i j : nat) : list A := take i l ++ drop j l.

(** The loop of [addToRanges] with [n - 1] the current index. *)
Fixpoint addLoop (p : PacketNumber) (n : nat) (rs : list interval) :
    option (list interval * bool) :=
  match n with
  | O => Some (slices_Insert rs 0 (MkInterval p p), true)
  | S i =>
      r ← rs !! i;
      if (p >=? Start r) && (p <=? End_ r) then Some (rs, false)
      else if End_ r =? p - 1 then Some (<[i := MkInterval (Start r) p]> rs, true)
      else if Start r =? p + 1 then
        let rs := <[i := MkInterval p (End_ r)]> rs in
        match i with
        | O => Some (rs, true)
        | S j =>
            q ← rs !! j;
            if End_ q + 1 =? p
            then Some (slices_Delete (<[j := MkInterval (Start q) (End_ r)]> rs) i (S i), true)
            else Some (rs, true)
        end
      else if p >? End_ r then Some (slices_Insert rs (S i) (MkInterval p p), true)
      else addLoop p i rs
  end.

Definition addToRanges (p : PacketNumber) (rs : list interval) : option (list interval * bool) :=
  if len rs =? 0 then Some (rs ++ [MkInterval p p], true)
  else addLoop p (length rs) rs.

Definition ReceivedPacket (p : PacketNumber) (h : receivedPacketHistory) :
    option (bool * receivedPacketHistory) :=
  if p <? deletedBelow h then Some (false, h)
  else
    '(rs, isNew) ← addToRanges p (ranges h);
    let rs := if len rs >? MaxNumAckRanges
              then slices_Delete rs 0 (Z.to_nat (len rs - MaxNumAckRanges)) else rs in
    Some (isNew, MkHistory rs (deletedBelow h)).

(** The loop of [DeleteBelow]: how many ranges lie below [p], and the rest with
    the first one cut. *)
Fixpoint deleteLoop (p : PacketNumber) (rs : list interval) : list interval :=
  match rs with
  | [] => []
  | r :: rs' =>
      if End_ r <? p then deleteLoop p rs'
      else if (p >? Start r) && (p <=? End_ r) then MkInterval p (End_ r) :: rs'
      else rs
  end.

Definition DeleteBelow (p : PacketNumber) (h : receivedPacketHistory) : receivedPacketHistory :=
  if p <? deletedBelow h then h
  else MkHistory (deleteLoop p (ranges h)) p.

(** The ranges in the order of the [Backward] iterator. *)
Definition Backward (h : receivedPacketHistory) : list interval := reverse (ranges h).

(** The loop of [HighestMissingUpTo] over the ranges from the last to the first. *)
Fixpoint missingLoop (deleted p : PacketNumber) (back : list interval) : PacketNumber :=
  match back with
  | [] => p
  | r :: back' =>
      if (p >=? Start r) && (p <=? End_ r) then
        let highest := Start r - 1 in
        if negb (deleted =? InvalidPacketNumber) && (highest <? deleted)
        then InvalidPacketNumber else highest
      else
        match back' with
        | q :: _ =>
            if (p >? End_ q) && (p <=? Start r) then p else missingLoop deleted p back'
        | [] => missingLoop deleted p back'
        end
  end.

Definition HighestMissingUpTo (p : PacketNumber) (h : receivedPacketHistory) : PacketNumber :=
  match Backward h with
  | [] => InvalidPacketNumber
  | last :: _ =>
      if negb (deletedBelow h =? InvalidPacketNumber) && (p <? deletedBelow h)
      then InvalidPacketNumber
      else missingLoop (deletedBelow h) (Z.min (End_ last) p) (Backward h)
  end.

Fixpoint duplicateLoop (p : PacketNumber) (back : list interval) : bool :=
  match back with
  | [] => false
  | r :: back' =>
      if p >? End_ r then false
      else if (p <=? End_ r) && (p >=? Start r) then true
      else duplicateLoop p back'
  end.

Definition IsPotentiallyDuplicate (p : PacketNumber) (h : receivedPacketHistory) : bool :=
  if p <? deletedBelow h then true else duplicateLoop p (Backward h).

(** ** Invariant *)

Definition before (a b : interval) : Prop := End_ a + 1 < Start b.
Definition covers (r : interval) (q : PacketNumber) : Prop := Start r ≤ q ≤ End_ r.
Definition covered (rs : list interval) (q : PacketNumber) : Prop := ∃ r, r ∈ rs ∧ covers r q.

(** Ascending, separated by gaps, none empty. *)
Record ranges_ok (rs : list interval) : Prop := {
  ok_sorted : StronglySorted before rs;
  ok_nonempty : Forall (λ r, Start r ≤ End_ r) rs;
}.

Lemma ranges_ok_app l k :
  ranges_ok (l ++ k) ↔
  ranges_ok l ∧ ranges_ok k ∧ ∀ a b, a ∈ l → b ∈ k → before a b.
Proof.
  split.
  - intros [Hs Hn]. apply StronglySorted_app in Hs as (?&?&?). apply Forall_app in Hn as [??].
    split_and!; [by constructor..|done].
  - intros ([]&[]&?). constructor; [by apply StronglySorted_app_2|by apply Forall_app].
Qed.

Lemma ranges_ok_singleton a b : a ≤ b → ranges_ok [MkInterval a b].
Proof. intros. constructor; repeat constructor. done. Qed.

Lemma ranges_ok_nil : ranges_ok [].
Proof. by repeat constructor. Qed.

Lemma covered_app l k q : covered (l ++ k) q ↔ covered l q ∨ covered k q.
Proof. unfold covered. setoid_rewrite elem_of_app. naive_solver. Qed.
Lemma covered_singleton r q : covered [r] q ↔ covers r q.
Proof. unfold covered. setoid_rewrite list_elem_of_singleton. naive_solver. Qed.
Lemma covered_nil q : ¬ covered [] q.
Proof. intros (r & ?%elem_of_nil & _). done. Qed.

(** ** Adding a packet *)

(** [rs'] records [p] in addition to [rs], and [new] says whether it was missing. *)
Definition adds (p : PacketNumber) (rs rs' : list interval) (new : bool) : Prop :=
  ranges_ok rs' ∧ (∀ q, covered rs' q ↔ covered rs q ∨ q = p) ∧ (new = true ↔ ¬ covered rs p).

Lemma Insert_after {A} (l k : list A) x y :
  slices_Insert (l ++ x :: k) (S (length l)) y = l ++ x :: y :: k.
Proof.
  assert (S (length l) = length (l ++ [x])) as E by (rewrite length_app; simpl; lia).
  unfold slices_Insert. rewrite (cons_middle x l k), (app_assoc l [x] k), E.
  by rewrite take_app_length, drop_app_length, <-app_assoc.
Qed.
Lemma Delete_mid {A} (l k : list A) x :
  slices_Delete (l ++ x :: k) (length l) (S (length l)) = l ++ k.
Proof.
  assert (S (length l) = length (l ++ [x])) as E by (rewrite length_app; simpl; lia).
  unfold slices_Delete. rewrite take_app_length, (cons_middle x l k), (app_assoc l [x] k), E.
  by rewrite drop_app_length.
Qed.

Lemma Delete_second {A} (l k : list A) x y :
  slices_Delete (l ++ x :: y :: k) (S (length l)) (S (S (length l))) = l ++ x :: k.
Proof.
  pose proof (Delete_mid (l ++ [x]) k y) as E. rewrite length_app, Nat.add_1_r in E.
  by rewrite <-!app_assoc in E.
Qed.

(** Replacing the middle of a list of ranges. *)
Lemma ranges_ok_mid l r k :
  ranges_ok (l ++ r :: k) ↔
  ranges_ok l ∧ ranges_ok k ∧ Start r ≤ End_ r ∧
  (∀ a, a ∈ l → before a r) ∧ (∀ b, b ∈ k → before r b) ∧
  (∀ a b, a ∈ l → b ∈ k → before a b).
Proof.
  change (l ++ r :: k) with (l ++ [r] ++ k). rewrite !ranges_ok_app.
  setoid_rewrite elem_of_app. setoid_rewrite list_elem_of_singleton. split.
  - intros (Hl&([_ Hn]&Hk&Hrk)&Hlr). apply Forall_cons in Hn as [Hn _]. split_and!; try done.
    + intros a Ha. apply Hlr; [done|by left].
    + intros b Hb. by apply Hrk.
    + intros a b Ha Hb. apply Hlr; [done|by right].
  - intros (Hl&Hk&Hr&Hlr&Hrk&Hlk). split_and!; try done.
    + constructor; by repeat constructor.
    + by intros a b -> Hb; apply Hrk.
    + intros a b Ha [->|Hb]; auto.
Qed.

Lemma covered_mid l r k q : covered (l ++ r :: k) q ↔ covered l q ∨ covers r q ∨ covered k q.
Proof.
  change (l ++ r :: k) with (l ++ [r] ++ k). by rewrite !covered_app, covered_singleton.
Qed.

(** Nothing before [b] covers its start or later. *)
Lemma not_covered_above l q : (∀ a, a ∈ l → End_ a < q) → ¬ covered l q.
Proof. intros Hl (r & Hr & Hc). specialize (Hl r Hr). unfold covers in Hc. lia. Qed.
Lemma not_covered_below l q : (∀ a, a ∈ l → q < Start a) → ¬ covered l q.
Proof. intros Hl (r & Hr & Hc). specialize (Hl r Hr). unfold covers in Hc. lia. Qed.

(** Extending the middle range down to [p], which nothing else covers. *)
Lemma adds_down l r k p :
  ranges_ok (l ++ r :: k) → Start r = p + 1 → (∀ a, a ∈ l → End_ a + 1 < p) →
  adds p (l ++ r :: k) (l ++ MkInterval p (End_ r) :: k) true.
Proof.
  intros (Hl&Hk&Hr&Hlr&Hrk&Hlk)%ranges_ok_mid Hs Hp. split_and!.
  - apply ranges_ok_mid. split_and!; try done. simpl. lia.
  - intros q. rewrite !covered_mid. unfold covers. simpl.
    assert (p ≤ q ≤ End_ r ↔ Start r ≤ q ≤ End_ r ∨ q = p) as -> by lia. tauto.
  - split; [intros _|done]. rewrite covered_mid. unfold covers. intros [Hc|[?|Hc]]; [|lia|].
    + revert Hc. apply not_covered_above. intros a Ha. specialize (Hp a Ha). lia.
    + revert Hc. apply not_covered_below. intros b Hb. specialize (Hrk b Hb).
      unfold before in Hrk. lia.
Qed.

(** Merging two ranges that only [p] separates. *)
Lemma adds_merge l q r k p :
  ranges_ok (l ++ q :: r :: k) → End_ q + 1 = p → Start r = p + 1 →
  adds p (l ++ q :: r :: k) (l ++ MkInterval (Start q) (End_ r) :: k) true.
Proof.
  intros (Hl&Hrk&Hq&Hlq&Hqrk&Hlrk)%ranges_ok_mid He Hs.
  apply (ranges_ok_mid []) in Hrk as (_&Hk&Hr&_&Hrk&_).
  assert (∀ x, covered (r :: k) x ↔ covers r x ∨ covered k x) as Hc.
  { intros x. rewrite (covered_mid [] r k). pose proof (covered_nil x). tauto. }
  split_and!.
  - apply ranges_ok_mid. split_and!; try done; simpl; [lia|]. intros a b Ha Hb.
    apply Hlrk; [done|]. by apply elem_of_cons; right.
  - intros x. rewrite !covered_mid, Hc. unfold covers. simpl.
    assert (Start q ≤ x ≤ End_ r ↔ Start q ≤ x ≤ End_ q ∨ Start r ≤ x ≤ End_ r ∨ x = p) as -> by lia.
    tauto.
  - split; [intros _|done]. rewrite covered_mid, Hc. unfold covers.
    intros [Hx|[?|[?|Hx]]]; [|lia|lia|].
    + revert Hx. apply not_covered_above. intros a Ha. specialize (Hlq a Ha). unfold before in Hlq. lia.
    + revert Hx. apply not_covered_below. intros b Hb. specialize (Hrk b Hb).
      unfold before in Hrk. lia.
Qed.

(** Extending the middle range up to [p]. *)
Lemma adds_up l r k p :
  ranges_ok (l ++ r :: k) → End_ r = p - 1 → (∀ b, b ∈ k → p + 1 < Start b) →
  adds p (l ++ r :: k) (l ++ MkInterval (Start r) p :: k) true.
Proof.
  intros (Hl&Hk&Hr&Hlr&Hrk&Hlk)%ranges_ok_mid He Hp. split_and!.
  - apply ranges_ok_mid. split_and!; try done; simpl; lia.
  - intros q. rewrite !covered_mid. unfold covers. simpl.
    assert (Start r ≤ q ≤ p ↔ Start r ≤ q ≤ End_ r ∨ q = p) as -> by lia. tauto.
  - split; [intros _|done]. rewrite covered_mid. unfold covers. intros [Hc|[?|Hc]]; [|lia|].
    + revert Hc. apply not_covered_above. intros a Ha. specialize (Hlr a Ha). unfold before in Hlr. lia.
    + revert Hc. apply not_covered_below. intros b Hb. specialize (Hp b Hb). lia.
Qed.

(** A range of its own, between [l] and [k]. *)
Lemma adds_new l k p :
  ranges_ok (l ++ k) → (∀ a, a ∈ l → End_ a + 1 < p) → (∀ b, b ∈ k → p + 1 < Start b) →
  adds p (l ++ k) (l ++ MkInterval p p :: k) true.
Proof.
  intros (Hl&Hk&Hlk)%ranges_ok_app Hpl Hpk. split_and!.
  - apply ranges_ok_mid. by split_and!.
  - intros q. rewrite covered_mid, covered_app. unfold covers. simpl.
    assert (p ≤ q ≤ p ↔ q = p) as -> by lia. tauto.
  - split; [intros _|done]. rewrite covered_app. intros [Hc|Hc]; revert Hc.
    + apply not_covered_above. intros a Ha. specialize (Hpl a Ha). lia.
    + apply not_covered_below. intros b Hb. specialize (Hpk b Hb). lia.
Qed.

Lemma addLoop_spec p pre post :
  ranges_ok (pre ++ post) → (∀ b, b ∈ post → p + 1 < Start b) →
  ∃ rs' new, addLoop p (length pre) (pre ++ post) = Some (rs', new) ∧
    adds p (pre ++ post) rs' new.
Proof.
  revert post. induction pre as [|r pre IH] using rev_ind; intros post Hok Hpost.
  { eexists _, _. split; [done|]. unfold slices_Insert. simpl. rewrite drop_0.
    apply (adds_new []); [done| |done]. intros a ?%elem_of_nil. done. }
  rewrite length_app. simpl. rewrite Nat.add_1_r, <-app_assoc in *. simpl in *. rewrite lookup_mid. simpl.
  pose proof Hok as (Hpre&Hk&Hr&Hl&Hg&Hlk)%ranges_ok_mid.
  destruct ((p >=? Start r) && (p <=? End_ r)) eqn:Hin.
  { eexists _, _. split; [done|]. assert (covered (pre ++ r :: post) p).
    { rewrite covered_mid. unfold covers. lia. }
    split_and!; [done| |split; [done|tauto]]. intros q. split; [tauto|]. by intros [?| ->]. }
  destruct (Z.eqb_spec (End_ r) (p - 1)) as [He|He].
  { eexists _, _. rewrite insert_mid. split; [done|]. by apply adds_up. }
  destruct (Z.eqb_spec (Start r) (p + 1)) as [Hs|Hs].
  { rewrite insert_mid. destruct pre as [|q pre _] using rev_ind; simpl.
    { eexists _, _. split; [done|]. apply (adds_down []); [done..|]. intros a ?%elem_of_nil. done. }
    rewrite length_app. simpl. rewrite Nat.add_1_r, <-!app_assoc in *. simpl in *.
    rewrite lookup_mid. simpl. destruct (Z.eqb_spec (End_ q + 1) p) as [Hq|Hq].
    - eexists _, _. rewrite insert_mid. split; [done|].
      rewrite Delete_second. by apply adds_merge.
    - eexists _, _. split; [done|].
      rewrite (cons_middle q pre (r :: post)), (cons_middle q pre (_ :: post)), !app_assoc.
      rewrite (cons_middle q pre (r :: post)), app_assoc in Hok. apply adds_down; [done..|].
      pose proof Hok as (Hpq&_&_&Hlr&_)%ranges_ok_mid. intros a [Ha|Ha]%elem_of_app.
      + apply ranges_ok_app in Hpq as (_&Hqq&Hb). specialize (Hb a q Ha ltac:(by left)).
        destruct Hqq as [_ [Hqq _]%Forall_cons]. specialize (Hlr q ltac:(set_solver)).
        unfold before in *. lia.
      + apply list_elem_of_singleton in Ha as ->. specialize (Hlr q ltac:(set_solver)).
        unfold before in Hlr. lia. }
  destruct (Z.gtb_spec p (End_ r)) as [Hgt|Hle].
  { eexists _, _. rewrite Insert_after. split; [done|].
    rewrite (cons_middle r pre post), (cons_middle r pre (_ :: post)), !app_assoc.
    apply adds_new; [by rewrite <-app_assoc| |done]. intros a [Ha|Ha]%elem_of_app.
    - specialize (Hl a Ha). unfold before in Hl. lia.
    - apply list_elem_of_singleton in Ha as ->. lia. }
  apply (IH (r :: post)); [done|]. intros b [->|Hb]%elem_of_cons; [lia|by apply Hpost].
Qed.

Lemma addToRanges_spec p rs :
  ranges_ok rs → ∃ rs' new, addToRanges p rs = Some (rs', new) ∧ adds p rs rs' new.
Proof.
  intros Hok. unfold addToRanges. destruct (Z.eqb_spec (len rs) 0) as [->%len_0_nil|_].
  - eexists _, _. split; [done|]. apply (adds_new [] []); [done|..]; intros ? ?%elem_of_nil; done.
  - destruct (addLoop_spec p rs []) as (rs' & new & E & Ha).
    { by rewrite app_nil_r. }
    { intros b ?%elem_of_nil. done. }
    rewrite app_nil_r in *. eauto.
Qed.

(** ** The history *)

Record history_ok (h : receivedPacketHistory) : Prop := {
  h_ranges : ranges_ok (ranges h);
  h_len : len (ranges h) ≤ MaxNumAckRanges;
  h_deleted : -1 ≤ deletedBelow h;
  h_low : ∀ r, r ∈ ranges h → 0 ≤ Start r ∧ deletedBelow h ≤ Start r;
}.

Lemma history_ok_New : history_ok newReceivedPacketHistory.
Proof. constructor; simpl; [apply ranges_ok_nil|done|done|]. intros r ?%elem_of_nil. done. Qed.

Lemma covered_start rs r : ranges_ok rs → r ∈ rs → covered rs (Start r).
Proof.
  intros [_ Hn] Hr. exists r. split; [done|]. rewrite Forall_forall in Hn. specialize (Hn r Hr).
  unfold covers. lia.
Qed.

(** Dropping the lowest ranges. *)
Lemma slices_Delete_0 {A} (l : list A) n : slices_Delete l 0 n = drop n l.
Proof. done. Qed.

Definition prune (rs : list interval) : list interval :=
  if len rs >? MaxNumAckRanges
  then slices_Delete rs 0 (Z.to_nat (len rs - MaxNumAckRanges)) else rs.

Lemma prune_spec rs :
  ranges_ok rs →
  ranges_ok (prune rs) ∧ len (prune rs) ≤ MaxNumAckRanges ∧
  (∀ r, r ∈ prune rs → r ∈ rs) ∧
  ∀ q, covered rs q → covered (prune rs) q ∨
    len (prune rs) = MaxNumAckRanges ∧ ∀ r, r ∈ prune rs → q < Start r.
Proof.
  intros Hok. unfold prune. destruct (Z.gtb_spec (len rs) MaxNumAckRanges) as [Hgt|Hle]; [|auto].
  rewrite slices_Delete_0. set (n := Z.to_nat _).
  pose proof (take_drop n rs) as E. rewrite <-E in Hok.
  pose proof Hok as (_&Hd&Hb)%ranges_ok_app.
  assert (len (drop n rs) = MaxNumAckRanges) as El.
  { unfold len in *. rewrite length_drop. unfold n, MaxNumAckRanges, len in *. lia. }
  split_and!; [done|lia| |].
  - intros r Hr. rewrite <-E. apply elem_of_app. by right.
  - intros q Hq. rewrite <-E, covered_app in Hq. destruct Hq as [(r & Hr & Hc)|]; [|by left].
    right. split; [done|]. intros b Hbk. specialize (Hb r b Hr Hbk). unfold before, covers in *. lia.
Qed.

(** What [ReceivedPacket] does to what is covered. *)
Lemma ReceivedPacket_spec p h :
  0 ≤ p → history_ok h →
  ∃ new h', ReceivedPacket p h = Some (new, h') ∧ history_ok h' ∧
    deletedBelow h' = deletedBelow h ∧
    (new = true ↔ deletedBelow h ≤ p ∧ ¬ covered (ranges h) p) ∧
    (∀ q, covered (ranges h') q → covered (ranges h) q ∨ q = p) ∧
    (∀ q, covered (ranges h) q ∨ (q = p ∧ deletedBelow h ≤ p) →
       covered (ranges h') q ∨
       len (ranges h') = MaxNumAckRanges ∧ ∀ r, r ∈ ranges h' → q < Start r).
Proof.
  intros Hp Hh. unfold ReceivedPacket. destruct (Z.ltb_spec p (deletedBelow h)) as [Hlt|Hge].
  { eexists _, _. split; [done|]. split_and!; [done..| |tauto|].
    - split; [done|]. lia.
    - intros q [?|[_ ?]]; [by left|lia]. }
  destruct Hh as [Hok Hlen Hdel Hlow]. destruct (addToRanges_spec p _ Hok) as (rs & new & -> & Hok' & Hc & Hn).
  simpl. fold (prune rs). eexists _, _. split; [done|]. simpl.
  destruct (prune_spec rs Hok') as (Hpo & Hpl & Hpi & Hpc). split_and!; try done.
  - constructor; simpl; [done|done|done|]. intros r Hr%Hpi. apply (covered_start _ _ Hok'), Hc in Hr as [Hr| ->]; [|done].
    destruct Hr as (r0 & Hr0 & Hcv). specialize (Hlow r0 Hr0). unfold covers in Hcv. lia.
  - rewrite Hn. tauto.
  - intros q (r & Hr%Hpi & Hq). apply Hc. by exists r.
  - intros q Hq. apply Hpc, Hc. tauto.
Qed.

Lemma deleteLoop_spec p rs :
  ranges_ok rs →
  ranges_ok (deleteLoop p rs) ∧ (length (deleteLoop p rs) ≤ length rs)%nat ∧
  (∀ q, covered (deleteLoop p rs) q ↔ covered rs q ∧ p ≤ q) ∧
  (∀ r, r ∈ deleteLoop p rs → p ≤ Start r ∧ ∃ r0, r0 ∈ rs ∧ Start r0 ≤ Start r).
Proof.
  induction rs as [|r rs IH]; intros Hok; simpl.
  { split_and!; [done..| |]; [intros q; pose proof (covered_nil q); tauto|intros r ?%elem_of_nil; done]. }
  pose proof Hok as (_&Hrs&Hr&_&Hb&_)%(ranges_ok_mid []).
  assert (∀ q, covered (r :: rs) q ↔ covers r q ∨ covered rs q) as Hc.
  { intros q. rewrite (covered_mid [] r rs). pose proof (covered_nil q). tauto. }
  assert (∀ q, covered rs q → End_ r < q) as Hab.
  { intros q (b & Hbk & Hcv). specialize (Hb b Hbk). unfold before, covers in *. lia. }
  assert (∀ b, b ∈ rs → End_ r < Start b) as Hst.
  { intros b Hbk. specialize (Hb b Hbk). unfold before in Hb. lia. }
  destruct (Z.ltb_spec (End_ r) p) as [He|He].
  { destruct (IH Hrs) as (?&?&Hq&Hs). split_and!; [done|lia| |].
    - intros q. rewrite Hq, Hc. unfold covers. split; [tauto|]. intros [[?|?] ?]; [lia|done].
    - intros r' Hr'. destruct (Hs r' Hr') as [? (r0 & ? & ?)]. split; [done|]. exists r0. set_solver. }
  destruct ((p >? Start r) && (p <=? End_ r)) eqn:Hcut.
  - split_and!; [|simpl; lia| |].
    + apply (ranges_ok_mid []). split_and!; try done; first [apply ranges_ok_nil|simpl; lia|
        intros ? Hx; by apply elem_of_nil in Hx|intros ? ? Hx; by apply elem_of_nil in Hx].
    + intros q. rewrite Hc, (covered_mid [] (MkInterval p (End_ r)) rs). pose proof (covered_nil q). unfold covers. simpl.
      split; [|intros [[?|?] ?]; [right; left; lia|by right; right]].
      intros [?|[?|Hq]]; [done|split; [left|]; lia|]. apply Hab in Hq as Hq'. split; [by right|lia].
    + intros r' [->|Hr']%elem_of_cons; simpl.
      * split; [lia|]. exists r. split; [by left|lia].
      * specialize (Hst r' Hr'). split; [lia|]. exists r'. split; [by right|lia].
  - assert (p ≤ Start r) as Hps by lia. split_and!; [done|done| |].
    + intros q. rewrite Hc. unfold covers. split; [|tauto].
      intros [?|Hq]; [split; [by left|lia]|]. apply Hab in Hq as Hq'. split; [by right|lia].
    + intros r' [->|Hr']%elem_of_cons; [split; [done|exists r; split; [by left|lia]]|].
      specialize (Hst r' Hr'). split; [lia|]. exists r'. split; [by right|lia].
Qed.

Lemma DeleteBelow_spec p h :
  history_ok h →
  history_ok (DeleteBelow p h) ∧ deletedBelow (DeleteBelow p h) = Z.max p (deletedBelow h) ∧
  ∀ q, covered (ranges (DeleteBelow p h)) q ↔ covered (ranges h) q ∧ p ≤ q.
Proof.
  intros [Hok Hlen Hdel Hlow]. unfold DeleteBelow. destruct (Z.ltb_spec p (deletedBelow h)) as [Hlt|Hge].
  - split_and!; [done|lia|]. intros q. split; [|tauto]. intros (r & Hr & Hc). split; [by exists r|].
    specialize (Hlow r Hr). unfold covers in Hc. lia.
  - destruct (deleteLoop_spec p _ Hok) as (?&?&?&Hs). split_and!; simpl; [|lia|done].
    constructor; simpl; [done|unfold len in *; lia|lia|]. intros r Hr.
    destruct (Hs r Hr) as [? (r0 & Hr0 & ?)]. specialize (Hlow r0 Hr0). lia.
Qed.

(** ** Queries *)

(** A descending list of ranges, as [Backward] yields them. *)
Lemma back_cons r back :
  ranges_ok (reverse (r :: back)) →
  ranges_ok (reverse back) ∧ Start r ≤ End_ r ∧ ∀ b, b ∈ back → before b r.
Proof.
  rewrite reverse_cons. intros (?&[_ [Hr _]%Forall_cons]&Hb)%ranges_ok_app. split_and!; try done.
  intros b Hbk. apply Hb; [by apply elem_of_reverse|by left].
Qed.

Lemma covered_reverse rs q : covered (reverse rs) q ↔ covered rs q.
Proof. unfold covered. by setoid_rewrite elem_of_reverse. Qed.

Lemma covered_cons r rs q : covered (r :: rs) q ↔ covers r q ∨ covered rs q.
Proof. rewrite (covered_mid [] r rs). pose proof (covered_nil q). tauto. Qed.

Lemma duplicateLoop_spec p back :
  ranges_ok (reverse back) → duplicateLoop p back = true ↔ covered back p.
Proof.
  induction back as [|r back IH]; intros Hok; simpl.
  { pose proof (covered_nil p). split; [done|tauto]. }
  apply back_cons in Hok as (Hok&Hr&Hb). rewrite covered_cons. unfold covers.
  destruct (Z.gtb_spec p (End_ r)) as [Hgt|Hle].
  - split; [done|]. intros [?|Hc]; [lia|]. exfalso. revert Hc. apply not_covered_above.
    intros b Hbk. specialize (Hb b Hbk). unfold before in Hb. lia.
  - destruct ((p <=? End_ r) && (p >=? Start r)) eqn:E; [split; [left; lia|done]|].
    rewrite (IH Hok). split; [tauto|]. intros [?|?]; [lia|done].
Qed.

(** [res] is the highest number up to [p] that is neither covered nor deleted. *)
Definition highest_missing (rs : list interval) (deleted p res : PacketNumber) : Prop :=
  (res = InvalidPacketNumber ∧ ∀ q, Z.max 0 deleted ≤ q ≤ p → covered rs q) ∨
  (Z.max 0 deleted ≤ res ≤ p ∧ ¬ covered rs res ∧ ∀ q, res < q ≤ p → covered rs q).

Lemma missingLoop_spec deleted p back :
  ranges_ok (reverse back) → -1 ≤ deleted → Z.max 0 deleted ≤ p →
  (∀ r, r ∈ back → 0 ≤ Start r ∧ deleted ≤ Start r) →
  (∀ r, head back = Some r → p ≤ End_ r) →
  highest_missing back deleted p (missingLoop deleted p back).
Proof.
  intros Hok Hd Hp Hlow. induction back as [|r back IH]; intros Hhd; cbn [missingLoop].
  { right. split_and!; [lia|lia|apply covered_nil|lia]. }
  apply back_cons in Hok as (Hok&Hr&Hb). specialize (Hhd r eq_refl).
  destruct (Hlow r ltac:(by left)) as [H0 Hdr].
  assert (∀ q, q < Start r → covered (r :: back) q ↔ covered back q) as Hlt.
  { intros q Hq. rewrite covered_cons. unfold covers. split; [|tauto]. intros [?|?]; [lia|done]. }
  assert (∀ q, Start r ≤ q ≤ p → covered (r :: back) q) as Hin.
  { intros q Hq. rewrite covered_cons. left. unfold covers. lia. }
  destruct ((p >=? Start r) && (p <=? End_ r)) eqn:E.
  - assert (¬ covered (r :: back) (Start r - 1)) as Hn.
    { rewrite Hlt by lia. apply not_covered_above. intros b Hbk. specialize (Hb b Hbk).
      unfold before in Hb. lia. }
    destruct (negb (deleted =? InvalidPacketNumber) && (Start r - 1 <? deleted)) eqn:Ed.
    + left. split; [done|]. intros q Hq. apply Hin. lia.
    + unfold highest_missing, InvalidPacketNumber in *. destruct (decide (Start r = 0)) as [Es|].
      * left. split; [lia|]. intros q Hq. apply Hin. lia.
      * right. split_and!; [lia|lia|done|]. intros q Hq. apply Hin. lia.
  - assert (p < Start r) as Hps by lia.
    assert (∀ res, highest_missing back deleted p res → highest_missing (r :: back) deleted p res)
      as Hstep.
    { intros res [[-> Hall]|(?&?&Hall)]; [left|right].
      - split; [done|]. intros q Hq. rewrite Hlt by lia. auto.
      - split_and!; [lia|lia|rewrite Hlt by lia; done|]. intros q Hq. rewrite Hlt by lia. auto. }
    destruct back as [|q back].
    + apply Hstep. cbn [missingLoop]. right. split_and!; [lia|lia|apply covered_nil|lia].
    + destruct ((p >? End_ q) && (p <=? Start r)) eqn:Eg.
      * apply Hstep. right. split_and!; [lia|lia| |lia]. apply not_covered_above.
        apply back_cons in Hok as (_&Hq&Hbq).
        intros b [->|Hbk]%elem_of_cons; [lia|]. specialize (Hbq b Hbk). unfold before in Hbq. lia.
      * apply Hstep, IH; [done|intros b Hbk; apply Hlow; by right|]. intros ? [= <-]. lia.
Qed.

(** ** Runs *)

(** The calls that change the history. *)
Inductive history_op := OpReceived (p : PacketNumber) | OpDeleteBelow (p : PacketNumber).

Definition history_step (op : history_op) (h : receivedPacketHistory) : option receivedPacketHistory :=
  match op with
  | OpReceived p => snd <$> ReceivedPacket p h
  | OpDeleteBelow p => Some (DeleteBelow p h)
  end.

Fixpoint history_run (ops : list history_op) (h : receivedPacketHistory) :
    option receivedPacketHistory :=
  match ops with
  | [] => Some h
  | op :: ops => h ← history_step op h; history_run ops h
  end.

Definition op_valid (op : history_op) : Prop :=
  match op with OpReceived p => 0 ≤ p | OpDeleteBelow _ => True end.

(** The histories [ops] leads to from [h]. *)
Lemma history_run_spec ops h :
  Forall op_valid ops → history_ok h →
  ∃ h', history_run ops h = Some h' ∧ history_ok h' ∧ deletedBelow h ≤ deletedBelow h' ∧
    (∀ q, covered (ranges h') q → covered (ranges h) q ∨ OpReceived q ∈ ops) ∧
    (∀ p, OpDeleteBelow p ∈ ops → p ≤ deletedBelow h').
Proof.
  intros Hv. revert h. induction Hv as [|op ops Hop Hops IH]; intros h Hh; simpl.
  { exists h. split_and!; [done..|tauto|]. intros p ?%elem_of_nil. done. }
  setoid_rewrite elem_of_cons. destruct op as [p|p]; simpl in *.
  - destruct (ReceivedPacket_spec p h Hop Hh) as (new & h1 & -> & Hh1 & Hd & _ & Hc & _).
    destruct (IH h1 Hh1) as (h' & E & ? & ? & Hc' & Hdel). exists h'. simpl. split_and!; try done; [lia| |].
    + intros q [[?| ->]%Hc|?]%Hc'; auto.
    + intros q [?|?]; [done|auto].
  - destruct (DeleteBelow_spec p h Hh) as (Hh1 & Hd & Hc).
    destruct (IH _ Hh1) as (h' & E & ? & ? & Hc' & Hdel). exists h'. split_and!; try done; [lia| |].
    + intros q [[? _]%Hc|?]%Hc'; auto.
    + intros q [[= ->]|?]; [lia|auto].
Qed.

(** C12: However packets arrive and deletions are interleaved, the history does
    not index out of range, keeps at most 64 ranges, disjoint, ascending and with
    a gap between neighbours, and acknowledges a number only if that packet
    was received and lies at or above every deletion bound. *)
Theorem acks_only_received_packets ops :
  Forall op_valid ops →
  ∃ h, history_run ops newReceivedPacketHistory = Some h ∧
    ranges_ok (ranges h) ∧ len (ranges h) ≤ MaxNumAckRanges ∧
    ∀ q, covered (ranges h) q →
      OpReceived q ∈ ops ∧ ∀ p, OpDeleteBelow p ∈ ops → p ≤ q.
Proof.
  intros Hv. destruct (history_run_spec ops _ Hv history_ok_New) as (h & E & Hh & _ & Hc & Hd).
  exists h. split_and!; [done|apply Hh..|]. intros q Hq. split.
  - destruct (Hc q Hq) as [?%covered_nil|?]; done.
  - intros p Hp%Hd. destruct Hq as (r & Hr & Hq). apply (h_low _ Hh) in Hr as [_ ?].
    unfold covers in Hq. lia.
Qed.

Definition sample_ops : list history_op :=
  [OpReceived 1; OpReceived 3; OpReceived 2; OpReceived 7; OpDeleteBelow 2].

Lemma acks_only_received_packets_witness :
  history_run sample_ops newReceivedPacketHistory = Some (MkHistory [MkInterval 2 3; MkInterval 7 7] 2) ∧
  ∃ h, history_run sample_ops newReceivedPacketHistory = Some h ∧
    ranges_ok (ranges h) ∧ len (ranges h) ≤ MaxNumAckRanges ∧
    ∀ q, covered (ranges h) q →
      OpReceived q ∈ sample_ops ∧ ∀ p, OpDeleteBelow p ∈ sample_ops → p ≤ q.
Proof.
  split; [reflexivity|]. apply acks_only_received_packets. repeat constructor; simpl; lia.
Defined.

(** Receiving a packet reports it as new exactly when it lies at or above the
    deletion bound and is not covered yet; afterwards it is covered, and nothing
    covered before is lost, save that with 64 ranges the numbers below all of them
    are forgotten. *)
Theorem received_packet_is_recorded p h :
  0 ≤ p → history_ok h →
  ∃ new h', ReceivedPacket p h = Some (new, h') ∧
    (new = true ↔ deletedBelow h ≤ p ∧ ¬ covered (ranges h) p) ∧
    (∀ q, covered (ranges h') q → covered (ranges h) q ∨ q = p) ∧
    (∀ q, covered (ranges h) q ∨ (q = p ∧ deletedBelow h ≤ p) →
       covered (ranges h') q ∨
       len (ranges h') = MaxNumAckRanges ∧ ∀ r, r ∈ ranges h' → q < Start r).
Proof.
  intros Hp Hh. destruct (ReceivedPacket_spec p h Hp Hh) as (new & h' & ?&_&_&?&?&?). eauto 10.
Qed.

Definition two_ranges : receivedPacketHistory := MkHistory [MkInterval 2 3; MkInterval 7 7] 2.

Lemma history_ok_two_ranges : history_ok two_ranges.
Proof.
  constructor; simpl; [|done|done|].
  - apply (ranges_ok_app [_] [_]). split_and!; [by apply ranges_ok_singleton..|].
    intros a b ->%list_elem_of_singleton ->%list_elem_of_singleton. done.
  - intros r Hr. apply elem_of_cons in Hr as [->| ->%list_elem_of_singleton]; simpl; lia.
Qed.

Lemma received_packet_is_recorded_witness :
  ReceivedPacket 4 two_ranges = Some (true, MkHistory [MkInterval 2 4; MkInterval 7 7] 2) ∧
  ∃ new h', ReceivedPacket 4 two_ranges = Some (new, h') ∧
    (new = true ↔ deletedBelow two_ranges ≤ 4 ∧ ¬ covered (ranges two_ranges) 4) ∧
    (∀ q, covered (ranges h') q → covered (ranges two_ranges) q ∨ q = 4) ∧
    (∀ q, covered (ranges two_ranges) q ∨ (q = 4 ∧ deletedBelow two_ranges ≤ 4) →
       covered (ranges h') q ∨
       len (ranges h') = MaxNumAckRanges ∧ ∀ r, r ∈ ranges h' → q < Start r).
Proof.
  split; [reflexivity|]. apply received_packet_is_recorded; [lia|apply history_ok_two_ranges].
Defined.

(** The duplicate check answers yes exactly for the numbers below the
    deletion bound and the numbers covered by a range. *)
Theorem duplicate_detection_exact p h :
  history_ok h →
  IsPotentiallyDuplicate p h = true ↔ p < deletedBelow h ∨ covered (ranges h) p.
Proof.
  intros [Hok _ _ _]. unfold IsPotentiallyDuplicate, Backward.
  destruct (Z.ltb_spec p (deletedBelow h)); [tauto|].
  rewrite duplicateLoop_spec by (by rewrite reverse_involutive). rewrite covered_reverse.
  split; [tauto|]. intros [?|?]; [lia|done].
Qed.

Lemma duplicate_detection_exact_witness :
  IsPotentiallyDuplicate 5 two_ranges = false ∧
  (IsPotentiallyDuplicate 5 two_ranges = true ↔
   5 < deletedBelow two_ranges ∨ covered (ranges two_ranges) 5).
Proof. split; [reflexivity|]. apply duplicate_detection_exact, history_ok_two_ranges. Defined.

(** [HighestMissingUpTo p] is the highest number up to [p] and to the largest
    one received that is neither covered nor below the deletion bound, and the
    invalid number when there is none. *)
Theorem highest_missing_is_highest p h r :
  history_ok h → last (ranges h) = Some r → 0 ≤ p →
  (p < deletedBelow h ∧ HighestMissingUpTo p h = InvalidPacketNumber) ∨
  (deletedBelow h ≤ p ∧
   highest_missing (ranges h) (deletedBelow h) (Z.min (End_ r) p) (HighestMissingUpTo p h)).
Proof.
  intros Hh Hlast Hp. destruct Hh as [Hok _ Hdel Hlow]. unfold HighestMissingUpTo, Backward.
  apply last_Some in Hlast as [l E]. rewrite E, reverse_snoc in *.
  destruct (negb (deletedBelow h =? InvalidPacketNumber) && (p <? deletedBelow h)) eqn:Ed.
  { left. split; [lia|done]. }
  unfold InvalidPacketNumber in Ed. assert (deletedBelow h ≤ p) as Hge by lia. right. split; [done|].
  assert (0 ≤ Start r ∧ deletedBelow h ≤ Start r) as [??] by (apply Hlow; set_solver).
  rewrite <-(reverse_involutive (l ++ [r])), reverse_snoc in Hok.
  pose proof (back_cons _ _ Hok) as (_&?&_).
  assert (highest_missing (r :: reverse l) (deletedBelow h) (Z.min (End_ r) p)
    (missingLoop (deletedBelow h) (Z.min (End_ r) p) (r :: reverse l))) as Hm.
  { apply missingLoop_spec; [done|done|lia| |].
    - intros b Hb. apply Hlow. set_solver.
    - intros ? [= <-]. lia. }
  rewrite <-reverse_snoc in *. unfold highest_missing in *. by setoid_rewrite covered_reverse in Hm.
Qed.

Lemma highest_missing_is_highest_witness :
  HighestMissingUpTo 9 two_ranges = 6 ∧
  ((9 < deletedBelow two_ranges ∧ HighestMissingUpTo 9 two_ranges = InvalidPacketNumber) ∨
   (deletedBelow two_ranges ≤ 9 ∧
    highest_missing (ranges two_ranges) (deletedBelow two_ranges)
      (Z.min (End_ (MkInterval 7 7)) 9) (HighestMissingUpTo 9 two_ranges))).
Proof.
  split; [reflexivity|]. apply highest_missing_is_highest; [apply history_ok_two_ranges|done|lia].
Defined.

(** A number that neither lies in a range nor touches one gets a range of its
    own. *)
Lemma addLoop_isolated p l k k' :
  (∀ a, a ∈ l → End_ a + 1 < p) → (∀ b, b ∈ k → p + 1 < Start b) →
  Forall (λ r, Start r ≤ End_ r) (l ++ k) →
  addLoop p (length (l ++ k)) ((l ++ k) ++ k') = Some (l ++ MkInterval p p :: k ++ k', true).
Proof.
  intros Hl. revert k'. induction k as [|r k IH] using rev_ind; intros k' Hk Hn.
  - rewrite app_nil_r in *. destruct l as [|a l _] using rev_ind; simpl; [done|].
    apply Forall_app in Hn as [_ [Ha _]%Forall_cons].
    rewrite length_app. simpl. rewrite Nat.add_1_r, <-!app_assoc. simpl. rewrite lookup_mid. simpl.
    specialize (Hl a ltac:(set_solver)).
    rewrite (proj2 (Z.eqb_neq (End_ a) (p - 1))), (proj2 (Z.leb_gt p (End_ a))), andb_false_r by lia.
    rewrite (proj2 (Z.eqb_neq (Start a) (p + 1))), (proj2 (Z.gtb_lt p (End_ a))) by lia. by rewrite Insert_after.
  - rewrite app_assoc in Hn. apply Forall_app in Hn as [Hn [Hr _]%Forall_cons].
    pose proof (Hk r ltac:(set_solver)) as Hs.
    rewrite app_assoc, length_app. simpl. rewrite Nat.add_1_r, <-(app_assoc (l ++ k)). simpl. rewrite lookup_mid. simpl.
    rewrite (proj2 (Z.eqb_neq (End_ r) (p - 1))), (proj2 (Z.eqb_neq (Start r) (p + 1))) by lia.
    assert ((p >=? Start r) = false) as -> by lia. assert ((p >? End_ r) = false) as -> by lia. simpl.
    rewrite (IH (r :: k')); [by rewrite <-app_assoc|set_solver|done].
Qed.

Lemma ReceivedPacket_isolated p h l k :
  history_ok h → ranges h = l ++ k → (0 < length (l ++ k))%nat → deletedBelow h ≤ p →
  (∀ a, a ∈ l → End_ a + 1 < p) → (∀ b, b ∈ k → p + 1 < Start b) →
  ReceivedPacket p h = Some (true, MkHistory (prune (l ++ MkInterval p p :: k)) (deletedBelow h)).
Proof.
  intros [[_ Hn] _ _ _] E Hlen Hd Hl Hk. unfold ReceivedPacket, addToRanges. rewrite E in *.
  rewrite (proj2 (Z.ltb_ge _ _)) by done. rewrite (proj2 (Z.eqb_neq _ _)) by (unfold len; lia).
  pose proof (addLoop_isolated p l k [] Hl Hk Hn) as Ha. rewrite !app_nil_r in Ha. by rewrite Ha.
Qed.

(** C35: Pruning to 64 ranges does not raise the deletion bound.  When a packet
    that touches no range arrives above the lowest of 64 ranges, that range is
    forgotten: each of its packets, a duplicate before, is no longer recognised
    as one, and receiving it again reports a new packet and leaves the history
    as it is, so it is new every time. *)
Theorem pruned_packet_looks_new h r l k p :
  history_ok h → ranges h = r :: l ++ k → len (ranges h) = MaxNumAckRanges →
  (∀ a, a ∈ r :: l → End_ a + 1 < p) → (∀ b, b ∈ k → p + 1 < Start b) →
  ∃ h', ReceivedPacket p h = Some (true, h') ∧
    ∀ q, covers r q →
      IsPotentiallyDuplicate q h = true ∧
      IsPotentiallyDuplicate q h' = false ∧ ReceivedPacket q h' = Some (true, h').
Proof.
  intros Hh E Hlen Hl Hk. pose proof Hh as [Hok _ _ Hlow]. rewrite E in *.
  pose proof Hok as (_&_&Hr&_&Hb&_)%(ranges_ok_mid []).
  assert (∀ m, prune (m :: l ++ MkInterval p p :: k) = l ++ MkInterval p p :: k) as Hprune.
  { intros m. assert (len (m :: l ++ MkInterval p p :: k) = MaxNumAckRanges + 1) as Em.
    { unfold len in *. simpl in *. rewrite !length_app in *. simpl. lia. }
    unfold prune. rewrite Em, slices_Delete_0. done. }
  set (h' := MkHistory (l ++ MkInterval p p :: k) (deletedBelow h)).
  destruct (Hlow r ltac:(by left)) as [H0 Hd]. pose proof (Hl r ltac:(by left)) as Hrp.
  assert (ReceivedPacket p h = Some (true, h')) as Hp.
  { rewrite (ReceivedPacket_isolated p h (r :: l) k); [|done|done|simpl; lia|lia|done|done].
    by rewrite <-app_comm_cons, Hprune. }
  exists h'. split; [done|]. intros q Hq.
  assert (history_ok h') as Hh'.
  { destruct (ReceivedPacket_spec p h) as (? & ? & E' & Hok' & _); [lia|done|]. rewrite Hp in E'. by simplify_eq. }
  assert (∀ b, b ∈ ranges h' → q + 1 < Start b) as Habove.
  { unfold covers in Hq. simpl. intros b [Hin|[->|Hin]%elem_of_cons]%elem_of_app; simpl; [|lia|];
      (assert (before r b) as Hrb by (apply Hb, elem_of_app; tauto)); unfold before in Hrb; lia. }
  unfold covers in Hq. split_and!.
  - apply duplicate_detection_exact; [done|]. right. rewrite E. by apply covered_cons; left.
  - apply not_true_iff_false. rewrite duplicate_detection_exact by done. intros [?|Hc]; [simpl in *; lia|].
    revert Hc. apply not_covered_below. intros b Hbk. specialize (Habove b Hbk). lia.
  - rewrite (ReceivedPacket_isolated q h' [] (ranges h')); [|done|done| |simpl; lia| |done].
    + simpl. by rewrite Hprune.
    + simpl. rewrite length_app. simpl. lia.
    + intros a ?%elem_of_nil. done.
Qed.

(** Every even number from 0 to 126: 64 ranges. *)
Definition every_other : list history_op := OpReceived ∘ (λ i, 2 * Z.of_nat i) <$> seq 0 64.

Lemma pruned_packet_looks_new_witness :
  ∃ h h', OpReceived 0 ∈ every_other ∧ history_run every_other newReceivedPacketHistory = Some h ∧
    ReceivedPacket 128 h = Some (true, h') ∧
    IsPotentiallyDuplicate 0 h = true ∧
    IsPotentiallyDuplicate 0 h' = false ∧ ReceivedPacket 0 h' = Some (true, h').
Proof.
  destruct (history_run_spec every_other newReceivedPacketHistory) as (h & E & Hh & _).
  { unfold every_other. apply Forall_fmap, Forall_true. intros i. simpl. lia. }
  { apply history_ok_New. }
  assert (ranges h = (λ i, MkInterval (2 * Z.of_nat i) (2 * Z.of_nat i)) <$> seq 0 64) as Er.
  { vm_compute in E. injection E as <-. reflexivity. }
  assert (∀ b, b ∈ ranges h → End_ b + 1 < 128) as Hb.
  { rewrite Er. apply Forall_forall, Forall_fmap, Forall_seq. intros j Hj. simpl. lia. }
  assert (ranges h = MkInterval 0 0 :: tail (ranges h) ++ []) as Ec by (rewrite Er; reflexivity).
  destruct (pruned_packet_looks_new h (MkInterval 0 0) (tail (ranges h)) [] 128 Hh Ec) as (h' & Hp & Hq).
  { rewrite Er. reflexivity. }
  { rewrite app_nil_r in Ec. by rewrite <-Ec. }
  { intros b []%elem_of_nil. }
  exists h, h'. split; [apply list_elem_of_fmap; exists 0%nat; split; [reflexivity|by left]|].
  split; [exact E|]. split; [exact Hp|]. apply Hq. unfold covers. simpl. lia.
Defined.
