(* ===== verification/FlowControl.v ===== *)
(** * QUIC flow control: flow_controller_{base,connection,stream}.go

    The receive windows with auto-tuning and the send credit of a connection and
    of its streams.  A stream controller holds a pointer to the connection's;
    its methods take and return the connection's state.  A method that returns
    an error returns it beside the state, which the code has changed by then.
    The mutexes make each method atomic with respect to the state it guards.

    What a call takes from outside is [Env]: the time, the smoothed round-trip
    time, and the answer of the callback that may veto a larger window. *)

From Stdlib Require Import SpecFloat.
From S2P Require Import Prelude GoFloat Protocol.

Definition ByteCount : Type := Z.
Definition StreamID : Type := Z.

Inductive TransportErrorCode := FlowControlError | FinalSizeError.
#[global] Instance TransportErrorCode_eq_dec : EqDecision TransportErrorCode.
Proof. solve_decision. Defined.

Record Env := MkEnv {
  now : Z;
  SmoothedRTT : Z;
  allowIncrease : ByteCount → bool;
}.

(** monotime.Time.Sub *)
Definition Time_Sub (t t2 : Z) : Z := i64 (t - t2).

(** ** Receiving *)

Record receiveFlowController := MkReceive {
  bytesRead : ByteCount;
  highestReceived : ByteCount;
  receiveWindow : ByteCount;
  receiveWindowSize : ByteCount;
  maxReceiveWindowSize : ByteCount;
  allowWindowIncrease : bool; (* whether the callback is set *)
  epochStartTime : Z;
  epochStartOffset : ByteCount;
}.
#[global] Instance receiveFlowController_eq_dec : EqDecision receiveFlowController.
Proof. solve_decision. Defined.

Definition set_bytesRead n c :=
  MkReceive n (highestReceived c) (receiveWindow c) (receiveWindowSize c) (maxReceiveWindowSize c)
    (allowWindowIncrease c) (epochStartTime c) (epochStartOffset c).
Definition set_highestReceived n c :=
  MkReceive (bytesRead c) n (receiveWindow c) (receiveWindowSize c) (maxReceiveWindowSize c)
    (allowWindowIncrease c) (epochStartTime c) (epochStartOffset c).
Definition set_receiveWindow n c :=
  MkReceive (bytesRead c) (highestReceived c) n (receiveWindowSize c) (maxReceiveWindowSize c)
    (allowWindowIncrease c) (epochStartTime c) (epochStartOffset c).
Definition set_receiveWindowSize n c :=
  MkReceive (bytesRead c) (highestReceived c) (receiveWindow c) n (maxReceiveWindowSize c)
    (allowWindowIncrease c) (epochStartTime c) (epochStartOffset c).

Definition startNewAutoTuningEpoch (t : Z) (c : receiveFlowController) : receiveFlowController :=
  MkReceive (bytesRead c) (highestReceived c) (receiveWindow c) (receiveWindowSize c)
    (maxReceiveWindowSize c) (allowWindowIncrease c) t (bytesRead c).

Definition addBytesRead (n : ByteCount) (c : receiveFlowController) : receiveFlowController :=
  set_bytesRead (i64 (bytesRead c + n)) c.

Definition checkFlowControlViolation (c : receiveFlowController) : bool :=
  highestReceived c >? receiveWindow c.

Section receive.
Context `{!FloatConversion}.

(** [1 - protocol.WindowUpdateThreshold] is the constant 3/4. *)
Definition hasWindowUpdate (c : receiveFlowController) : bool :=
  i64 (receiveWindow c - bytesRead c)
    <=? to_int64 (fmul (float64 (receiveWindowSize c)) three_quarters).

Definition maybeAdjustWindowSize (env : Env) (c : receiveFlowController) : receiveFlowController :=
  let bytesReadInEpoch := i64 (bytesRead c - epochStartOffset c) in
  if bytesReadInEpoch <=? receiveWindowSize c `quot` 2 then c
  else
    let rtt := SmoothedRTT env in
    if rtt =? 0 then c
    else
      let fraction := fdiv (float64 bytesReadInEpoch) (float64 (receiveWindowSize c)) in
      let c :=
        if Time_Sub (now env) (epochStartTime c)
             <? to_int64 (fmul (fmul (float64 4) fraction) (float64 rtt)) then
          let newSize := Z.min (i64 (2 * receiveWindowSize c)) (maxReceiveWindowSize c) in
          if (newSize >? receiveWindowSize c)
             && (negb (allowWindowIncrease c)
                 || allowIncrease env (i64 (newSize - receiveWindowSize c)))
          then set_receiveWindowSize newSize c else c
        else c in
      startNewAutoTuningEpoch (now env) c.

Definition getWindowUpdate (env : Env) (c : receiveFlowController) :
    ByteCount * receiveFlowController :=
  if negb (hasWindowUpdate c) then (0, c)
  else
    let c := maybeAdjustWindowSize env c in
    let c := set_receiveWindow (i64 (bytesRead c + receiveWindowSize c)) c in
    (receiveWindow c, c).
End receive.

(** ** The connection *)

Record connectionFlowController := MkConnection {
  c_recv : receiveFlowController;
  c_bytesSent : ByteCount;
  c_sendWindow : ByteCount;
  c_lastBlockedAt : ByteCount;
}.
#[global] Instance connectionFlowController_eq_dec : EqDecision connectionFlowController.
Proof. solve_decision. Defined.

Definition set_c_recv r c := MkConnection r (c_bytesSent c) (c_sendWindow c) (c_lastBlockedAt c).

Definition newConnectionFlowController (window maxWindow : ByteCount) (allow : bool) :
    connectionFlowController :=
  MkConnection (MkReceive 0 0 window window maxWindow allow 0 0) 0 0 0.

Definition IncrementHighestReceived (increment : ByteCount) (t : Z) (c : connectionFlowController) :
    option TransportErrorCode * connectionFlowController :=
  let r := c_recv c in
  let r := if highestReceived r =? 0 then startNewAutoTuningEpoch t r else r in
  let r := set_highestReceived (i64 (highestReceived r + increment)) r in
  (if checkFlowControlViolation r then Some FlowControlError else None, set_c_recv r c).

Definition Connection_TryAddBytesSent (n : ByteCount) (c : connectionFlowController) :
    bool * connectionFlowController :=
  if (c_bytesSent c >? c_sendWindow c) || (n >? i64 (c_sendWindow c - c_bytesSent c))
  then (false, c)
  else (true, MkConnection (c_recv c) (i64 (c_bytesSent c + n)) (c_sendWindow c) (c_lastBlockedAt c)).

(** The limiter is called once, with the credit available. *)
Definition Connection_AddBytesSentWithLimiter (n : ByteCount) (limiter : Z → Z)
    (c : connectionFlowController) : ByteCount * bool * connectionFlowController :=
  if c_bytesSent c >=? c_sendWindow c then (0, false, c)
  else
    let n := Z.min n (i64 (c_sendWindow c - c_bytesSent c)) in
    let added := Z.min (Z.max (limiter n) 0) n in
    (added, added <? n,
     MkConnection (c_recv c) (i64 (c_bytesSent c + added)) (c_sendWindow c) (c_lastBlockedAt c)).

Definition Connection_UpdateSendWindow (offset : ByteCount) (c : connectionFlowController) :
    bool * connectionFlowController :=
  if offset >? c_sendWindow c
  then (true, MkConnection (c_recv c) (c_bytesSent c) offset (c_lastBlockedAt c))
  else (false, c).

Definition Connection_SendWindowSize (c : connectionFlowController) : ByteCount :=
  i64 (c_sendWindow c - c_bytesSent c).

Definition Connection_IsNewlyBlocked (c : connectionFlowController) :
    bool * ByteCount * connectionFlowController :=
  if (c_bytesSent c <? c_sendWindow c) || (c_sendWindow c =? c_lastBlockedAt c)
  then (false, 0, c)
  else (true, c_sendWindow c, MkConnection (c_recv c) (c_bytesSent c) (c_sendWindow c) (c_sendWindow c)).

Definition Connection_Reset (c : connectionFlowController) : connectionFlowController :=
  MkConnection (c_recv c) 0 0 0.

(** Calling a callback that is not set is a nil dereference. *)
Definition EnsureMinimumWindowSize (inc : ByteCount) (env : Env) (c : connectionFlowController) :
    option connectionFlowController :=
  let r := c_recv c in
  if inc <=? receiveWindowSize r then Some c
  else
    let newSize := Z.min inc (maxReceiveWindowSize r) in
    let delta := i64 (newSize - receiveWindowSize r) in
    r ← (if delta >? 0 then
           if negb (allowWindowIncrease r) then None
           else Some (if allowIncrease env delta then set_receiveWindowSize newSize r else r)
         else Some r);
    Some (set_c_recv (startNewAutoTuningEpoch (now env) r) c).

(** ** A stream *)

Record streamFlowController := MkStream {
  s_recv : receiveFlowController;
  s_bytesSent : ByteCount;
  s_sendWindow : ByteCount;
  s_lastBlockedAt : ByteCount;
  streamID : StreamID;
  receivedFinalOffset : bool;
}.
#[global] Instance streamFlowController_eq_dec : EqDecision streamFlowController.
Proof. solve_decision. Defined.

Definition set_s_recv r s :=
  MkStream r (s_bytesSent s) (s_sendWindow s) (s_lastBlockedAt s) (streamID s) (receivedFinalOffset s).
Definition set_s_bytesSent n s :=
  MkStream (s_recv s) n (s_sendWindow s) (s_lastBlockedAt s) (streamID s) (receivedFinalOffset s).
Definition set_receivedFinalOffset s :=
  MkStream (s_recv s) (s_bytesSent s) (s_sendWindow s) (s_lastBlockedAt s) (streamID s) true.

(** A stream has no callback. *)
Definition newStreamFlowController (id : StreamID) (window maxWindow initialSendWindow : ByteCount) :
    streamFlowController :=
  MkStream (MkReceive 0 0 window window maxWindow false 0 0) 0 initialSendWindow 0 id false.

(** The checks and updates in the order of the code: the final size first, then
    the stream's window, then the connection's. *)
Definition UpdateHighestReceived (offset : ByteCount) (final : bool) (t : Z)
    (s : streamFlowController) (c : connectionFlowController) :
    option TransportErrorCode * streamFlowController * connectionFlowController :=
  if receivedFinalOffset s && final && negb (offset =? highestReceived (s_recv s))
  then (Some FinalSizeError, s, c)
  else if receivedFinalOffset s && (offset >? highestReceived (s_recv s))
  then (Some FinalSizeError, s, c)
  else
    let s := if final then set_receivedFinalOffset s else s in
    let r := s_recv s in
    if offset =? highestReceived r then (None, s, c)
    else if offset <? highestReceived r then
      (if final then Some FinalSizeError else None, s, c)
    else
      let r := if highestReceived r =? 0 then startNewAutoTuningEpoch t r else r in
      let increment := i64 (offset - highestReceived r) in
      let r := set_highestReceived offset r in
      let s := set_s_recv r s in
      if checkFlowControlViolation r then (Some FlowControlError, s, c)
      else
        let '(err, c) := IncrementHighestReceived increment t c in (err, s, c).

Definition UpdateSendWindow (offset : ByteCount) (s : streamFlowController) :
    bool * streamFlowController :=
  if offset >? s_sendWindow s
  then (true, MkStream (s_recv s) (s_bytesSent s) offset (s_lastBlockedAt s) (streamID s)
                (receivedFinalOffset s))
  else (false, s).

Definition TryAddBytesSent (n : ByteCount) (s : streamFlowController) (c : connectionFlowController) :
    bool * streamFlowController * connectionFlowController :=
  if (s_bytesSent s >? s_sendWindow s) || (n >? i64 (s_sendWindow s - s_bytesSent s))
  then (false, s, c)
  else
    let '(ok, c) := Connection_TryAddBytesSent n c in
    if negb ok then (false, s, c)
    else (true, set_s_bytesSent (i64 (s_bytesSent s + n)) s, c).

Definition AddBytesSentWithLimiter (n : ByteCount) (limiter : Z → Z)
    (s : streamFlowController) (c : connectionFlowController) :
    ByteCount * bool * streamFlowController * connectionFlowController :=
  if s_bytesSent s >=? s_sendWindow s then (0, false, s, c)
  else
    let n := Z.min n (i64 (s_sendWindow s - s_bytesSent s)) in
    let '(added, limited, c) := Connection_AddBytesSentWithLimiter n limiter c in
    (added, limited, set_s_bytesSent (i64 (s_bytesSent s + added)) s, c).

Definition SendWindowSize (s : streamFlowController) (c : connectionFlowController) : ByteCount :=
  Z.min (i64 (s_sendWindow s - s_bytesSent s)) (Connection_SendWindowSize c).

Definition isNewlyBlocked (s : streamFlowController) : bool * ByteCount * streamFlowController :=
  if (s_bytesSent s <? s_sendWindow s) || (s_sendWindow s =? s_lastBlockedAt s)
  then (false, 0, s)
  else (true, s_sendWindow s,
        MkStream (s_recv s) (s_bytesSent s) (s_sendWindow s) (s_sendWindow s) (streamID s)
          (receivedFinalOffset s)).

Definition IsNewlyBlocked (s : streamFlowController) : bool * streamFlowController :=
  let '(blocked, _, s) := isNewlyBlocked s in (blocked, s).

Section windows.
Context `{!FloatConversion}.

Definition Connection_AddBytesRead (n : ByteCount) (c : connectionFlowController) :
    bool * connectionFlowController :=
  let r := addBytesRead n (c_recv c) in (hasWindowUpdate r, set_c_recv r c).

Definition Connection_GetWindowUpdate (env : Env) (c : connectionFlowController) :
    ByteCount * connectionFlowController :=
  let '(offset, r) := getWindowUpdate env (c_recv c) in (offset, set_c_recv r c).

Definition shouldQueueWindowUpdate (s : streamFlowController) : bool :=
  negb (receivedFinalOffset s) && hasWindowUpdate (s_recv s).

Definition AddBytesRead (n : ByteCount) (s : streamFlowController) (c : connectionFlowController) :
    bool * bool * streamFlowController * connectionFlowController :=
  let s := set_s_recv (addBytesRead n (s_recv s)) s in
  let hasStreamWindowUpdate := shouldQueueWindowUpdate s in
  let '(hasConnWindowUpdate, c) := Connection_AddBytesRead n c in
  (hasStreamWindowUpdate, hasConnWindowUpdate, s, c).

Definition Abandon (s : streamFlowController) (c : connectionFlowController) :
    streamFlowController * connectionFlowController :=
  let r := s_recv s in
  let unread := i64 (highestReceived r - bytesRead r) in
  let s := set_s_recv (set_bytesRead (highestReceived r) r) s in
  (s, if unread >? 0 then (Connection_AddBytesRead unread c).2 else c).

(** [protocol.ConnectionFlowControlMultiplier] is the constant 3/2. *)
Definition GetWindowUpdate (env : Env) (s : streamFlowController) (c : connectionFlowController) :
    option (ByteCount * streamFlowController * connectionFlowController) :=
  if receivedFinalOffset s then Some (0, s, c)
  else
    let oldWindowSize := receiveWindowSize (s_recv s) in
    let '(offset, r) := getWindowUpdate env (s_recv s) in
    let s := set_s_recv r s in
    c ← (if receiveWindowSize r >? oldWindowSize
         then EnsureMinimumWindowSize
                (to_int64 (fmul (float64 (receiveWindowSize r)) one_and_a_half)) env c
         else Some c);
    Some (offset, s, c).
End windows.

(** ** Opening a stream: connection.go

    The peer's transport parameters and the local configuration the controller
    is created from. *)

Record FlowConfig := MkFlowConfig {
  perspective : Perspective;
  InitialConnectionReceiveWindow : Z;
  MaxConnectionReceiveWindow : Z;
  InitialStreamReceiveWindow : Z;
  MaxStreamReceiveWindow : Z;
  InitialMaxStreamDataUni : ByteCount;
  InitialMaxStreamDataBidiLocal : ByteCount;
  InitialMaxStreamDataBidiRemote : ByteCount;
}.

Definition newFlowController (cfg : FlowConfig) (id : StreamID) : streamFlowController :=
  let initialSendWindow :=
    if bool_decide (StreamTypeOf id = StreamTypeBidi) then
      if bool_decide (StreamInitiator id = perspective cfg)
      then InitialMaxStreamDataBidiRemote cfg else InitialMaxStreamDataBidiLocal cfg
    else InitialMaxStreamDataUni cfg in
  newStreamFlowController id (i64 (InitialStreamReceiveWindow cfg)) (i64 (MaxStreamReceiveWindow cfg))
    initialSendWindow.

(** The connection's controller, with the closure the connection passes. *)
Definition newConnFlowController (cfg : FlowConfig) : connectionFlowController :=
  newConnectionFlowController (i64 (InitialConnectionReceiveWindow cfg))
    (i64 (MaxConnectionReceiveWindow cfg)) true.
