(* ===== verification/FlowControlProps.v ===== *)
(** * Flow control: accounting and credit

    The controllers of a connection and of all streams it has opened, under
    any sequence of the calls the connection makes.  [flow_ok] is the invariant:
    the connection counts what its streams count, the peer is never ahead of the
    limit advertised to it, and nothing is sent beyond the peer's limit. *)

From S2P Require Import Prelude GoFloat Protocol FlowControl.

(** ** The connection and its streams *)

Record flow := MkFlow {
  conn : connectionFlowController;
  streams : gmap StreamID streamFlowController;
}.

Inductive flow_op :=
  | OpenStream (id : StreamID)
  | ReceiveData (id : StreamID) (offset : ByteCount) (final : bool) (t : Z)
  | ReadData (id : StreamID) (n : ByteCount)
  | AbandonStream (id : StreamID)
  | StreamUpdate (id : StreamID) (env : Env)
  | ConnUpdate (env : Env)
  | StreamCredit (id : StreamID) (offset : ByteCount)
  | ConnCredit (offset : ByteCount)
  | TrySend (id : StreamID) (n : ByteCount)
  | SendLimited (id : StreamID) (n : ByteCount) (limiter : Z → Z)
  | StreamBlocked (id : StreamID)
  | ConnBlocked.

Section flow.
Context `{!FloatConversion}.

(** One call; [None] for a nil dereference or a stream that is not open. *)
Definition flow_step (cfg : FlowConfig) (op : flow_op) (f : flow) :
    option (option TransportErrorCode * flow) :=
  let put id s c := MkFlow c (<[id := s]> (streams f)) in
  match op with
  | OpenStream id => Some (None, put id (newFlowController cfg id) (conn f))
  | ReceiveData id offset final t =>
      s ← streams f !! id;
      let '(err, s, c) := UpdateHighestReceived offset final t s (conn f) in Some (err, put id s c)
  | ReadData id n =>
      s ← streams f !! id;
      let '(_, _, s, c) := AddBytesRead n s (conn f) in Some (None, put id s c)
  | AbandonStream id =>
      s ← streams f !! id; let '(s, c) := Abandon s (conn f) in Some (None, put id s c)
  | StreamUpdate id env =>
      s ← streams f !! id;
      '(_, s, c) ← GetWindowUpdate env s (conn f); Some (None, put id s c)
  | ConnUpdate env =>
      Some (None, MkFlow (Connection_GetWindowUpdate env (conn f)).2 (streams f))
  | StreamCredit id offset =>
      s ← streams f !! id; Some (None, put id (UpdateSendWindow offset s).2 (conn f))
  | ConnCredit offset => Some (None, MkFlow (Connection_UpdateSendWindow offset (conn f)).2 (streams f))
  | TrySend id n =>
      s ← streams f !! id;
      let '(_, s, c) := TryAddBytesSent n s (conn f) in Some (None, put id s c)
  | SendLimited id n limiter =>
      s ← streams f !! id;
      let '(_, _, s, c) := AddBytesSentWithLimiter n limiter s (conn f) in Some (None, put id s c)
  | StreamBlocked id => s ← streams f !! id; Some (None, put id (IsNewlyBlocked s).2 (conn f))
  | ConnBlocked => Some (None, MkFlow (Connection_IsNewlyBlocked (conn f)).2 (streams f))
  end.

Definition offset_ok (n : ByteCount) : Prop := 0 ≤ n ≤ MaxByteCount.

(** What the callers ensure: offsets come from varints, a stream is opened once,
    and only data that was received is read. *)
Definition allowed (f : flow) (op : flow_op) : Prop :=
  match op with
  | OpenStream id => streams f !! id = None
  | ReceiveData id offset _ _ => is_Some (streams f !! id) ∧ offset_ok offset
  | ReadData id n =>
      ∃ s, streams f !! id = Some s ∧ 0 ≤ n ≤ highestReceived (s_recv s) - bytesRead (s_recv s)
  | StreamCredit id n | TrySend id n | SendLimited id n _ => is_Some (streams f !! id) ∧ offset_ok n
  | ConnCredit n => offset_ok n
  | AbandonStream id | StreamUpdate id _ | StreamBlocked id => is_Some (streams f !! id)
  | ConnUpdate _ | ConnBlocked => True
  end.

(** Windows below 2^51 bytes, which float64 scales exactly. *)
Definition window_ok (n : Z) : Prop := 0 ≤ n < 2 ^ 51.

Record config_ok (cfg : FlowConfig) : Prop := {
  ok_conn_window : window_ok (InitialConnectionReceiveWindow cfg);
  ok_conn_max : window_ok (MaxConnectionReceiveWindow cfg);
  ok_stream_window : window_ok (InitialStreamReceiveWindow cfg);
  ok_stream_max : window_ok (MaxStreamReceiveWindow cfg);
  ok_uni : offset_ok (InitialMaxStreamDataUni cfg);
  ok_local : offset_ok (InitialMaxStreamDataBidiLocal cfg);
  ok_remote : offset_ok (InitialMaxStreamDataBidiRemote cfg);
}.

Definition newFlow (cfg : FlowConfig) : flow := MkFlow (newConnFlowController cfg) ∅.

(** The states a connection passes through while no call has failed and the
    advertised connection limit is one that MAX_DATA can carry. *)
Inductive flow_reach (cfg : FlowConfig) : flow → Prop :=
  | reach_new : flow_reach cfg (newFlow cfg)
  | reach_step f op f' :
      flow_reach cfg f → receiveWindow (c_recv (conn f)) ≤ MaxByteCount →
      allowed f op → flow_step cfg op f = Some (None, f') → flow_reach cfg f'.

(** ** The invariant *)

(** [limit] bounds the size of the window. *)
Record recv_ok (limit : Z) (r : receiveFlowController) : Prop := {
  r_read : 0 ≤ bytesRead r ≤ highestReceived r;
  r_received : highestReceived r ≤ receiveWindow r;
  r_window : receiveWindow r ≤ bytesRead r + receiveWindowSize r;
  r_size : 0 ≤ receiveWindowSize r ≤ limit;
  r_max : 0 ≤ maxReceiveWindowSize r ≤ limit;
}.

Record conn_ok (cfg : FlowConfig) (c : connectionFlowController) : Prop := {
  co_recv : recv_ok (Z.max (InitialConnectionReceiveWindow cfg) (MaxConnectionReceiveWindow cfg)) (c_recv c);
  co_allow : allowWindowIncrease (c_recv c) = true;
  co_sent : 0 ≤ c_bytesSent c ≤ c_sendWindow c;
  co_credit : c_sendWindow c ≤ MaxByteCount;
}.

Record stream_ok (cfg : FlowConfig) (s : streamFlowController) : Prop := {
  so_recv : recv_ok (Z.max (InitialStreamReceiveWindow cfg) (MaxStreamReceiveWindow cfg)) (s_recv s);
  so_received : highestReceived (s_recv s) ≤ MaxByteCount;
  so_sent : 0 ≤ s_bytesSent s ≤ s_sendWindow s;
  so_credit : s_sendWindow s ≤ MaxByteCount;
}.

Definition received_of (s : streamFlowController) : Z := highestReceived (s_recv s).
Definition read_of (s : streamFlowController) : Z := bytesRead (s_recv s).

Record flow_ok (cfg : FlowConfig) (f : flow) : Prop := {
  fo_conn : conn_ok cfg (conn f);
  fo_streams : map_Forall (λ _, stream_ok cfg) (streams f);
  fo_received : highestReceived (c_recv (conn f)) = msum received_of (streams f);
  fo_read : bytesRead (c_recv (conn f)) = msum read_of (streams f);
  fo_sent : c_bytesSent (conn f) = msum s_bytesSent (streams f);
}.

(** ** Receive windows *)

Section window.
Context (limit : Z) (Hlimit : limit < 2 ^ 51).

Lemma hasWindowUpdate_spec r :
  recv_ok limit r → bytesRead r ≤ MaxByteCount →
  hasWindowUpdate r = true ↔ 4 * (receiveWindow r - bytesRead r) ≤ 3 * receiveWindowSize r.
Proof.
  intros [] Hr. unfold hasWindowUpdate, MaxByteCount in *.
  rewrite i64_small, fmul_three_quarters, Z.leb_le by lia.
  split; [|intros; apply Z.div_le_lower_bound; lia].
  intros Hle. pose proof (Z.mul_div_le (3 * receiveWindowSize r) 4). lia.
Qed.

(** Auto-tuning changes only the window size, upwards and within the limit, and
    the epoch. *)
Record tuned (r r' : receiveFlowController) : Prop := {
  t_read : bytesRead r' = bytesRead r;
  t_received : highestReceived r' = highestReceived r;
  t_size : receiveWindowSize r ≤ receiveWindowSize r' ≤ limit;
  t_max : maxReceiveWindowSize r' = maxReceiveWindowSize r;
  t_allow : allowWindowIncrease r' = allowWindowIncrease r;
}.

Lemma maybeAdjustWindowSize_spec env r :
  recv_ok limit r →
  tuned r (maybeAdjustWindowSize env r) ∧ receiveWindow (maybeAdjustWindowSize env r) = receiveWindow r.
Proof.
  intros []. unfold maybeAdjustWindowSize. repeat case_match; (split; [constructor|]); simpl; try done; lia.
Qed.

Lemma getWindowUpdate_spec env r offset r' :
  recv_ok limit r → bytesRead r ≤ MaxByteCount → getWindowUpdate env r = (offset, r') →
  recv_ok limit r' ∧ tuned r r' ∧
  if hasWindowUpdate r
  then offset = receiveWindow r' ∧ receiveWindow r' = bytesRead r + receiveWindowSize r' ∧
       receiveWindow r ≤ receiveWindow r'
  else offset = 0 ∧ r' = r.
Proof.
  intros Hr Hread. unfold getWindowUpdate. destruct (hasWindowUpdate r); simpl; intros [= <- <-].
  2:{ split_and!; [done| |done..]. destruct Hr. constructor; try done; lia. }
  destruct (maybeAdjustWindowSize_spec env r Hr) as [[] Hw]. destruct Hr. unfold MaxByteCount in *.
  rewrite i64_small by lia. split_and!; [|constructor|..]; simpl; try done; try lia.
  constructor; simpl; lia.
Qed.
End window.

(** ** Credit *)

Lemma Connection_TryAddBytesSent_spec cfg n c :
  conn_ok cfg c → 0 ≤ n →
  Connection_TryAddBytesSent n c =
    if n <=? c_sendWindow c - c_bytesSent c
    then (true, MkConnection (c_recv c) (c_bytesSent c + n) (c_sendWindow c) (c_lastBlockedAt c))
    else (false, c).
Proof.
  intros [] Hn. unfold Connection_TryAddBytesSent, MaxByteCount in *. rewrite i64_small by lia.
  destruct (Z.leb_spec n (c_sendWindow c - c_bytesSent c)).
  - rewrite i64_small by lia. destruct (_ || _) eqn:E; [lia|done].
  - destruct (_ || _) eqn:E; [done|lia].
Qed.

Lemma Connection_AddBytesSentWithLimiter_spec cfg n limiter c :
  conn_ok cfg c → 0 ≤ n →
  Connection_AddBytesSentWithLimiter n limiter c =
    if c_bytesSent c =? c_sendWindow c then (0, false, c)
    else
      let n := Z.min n (c_sendWindow c - c_bytesSent c) in
      let added := Z.min (Z.max (limiter n) 0) n in
      (added, added <? n,
       MkConnection (c_recv c) (c_bytesSent c + added) (c_sendWindow c) (c_lastBlockedAt c)).
Proof.
  intros [] Hn. unfold Connection_AddBytesSentWithLimiter, MaxByteCount in *.
  rewrite (i64_small (c_sendWindow c - c_bytesSent c)) by lia.
  destruct (Z.eqb_spec (c_bytesSent c) (c_sendWindow c)), (Z.geb_spec (c_bytesSent c) (c_sendWindow c));
    try lia; [done|].
  rewrite i64_small by lia. done.
Qed.

(** ** Every call keeps the accounts *)

Section moves.
Context (cfg : FlowConfig) (Hcfg : config_ok cfg).

(** Limits and counters of a stream only grow, and what was received does not
    change once the final offset is known. *)
Record advances (s s' : streamFlowController) : Prop := {
  a_window : receiveWindow (s_recv s) ≤ receiveWindow (s_recv s');
  a_received : received_of s ≤ received_of s';
  a_read : read_of s ≤ read_of s';
  a_sent : s_bytesSent s ≤ s_bytesSent s';
  a_credit : s_sendWindow s ≤ s_sendWindow s';
  a_final : receivedFinalOffset s = true →
    receivedFinalOffset s' = true ∧ received_of s' = received_of s;
}.

(** From [s], [c] to [s'], [c']: both well formed, and the connection's counters
    move by as much as the stream's. *)
Record moves (s : streamFlowController) (c : connectionFlowController)
    (s' : streamFlowController) (c' : connectionFlowController) : Prop := {
  m_stream : stream_ok cfg s';
  m_conn : conn_ok cfg c';
  m_advances : advances s s';
  m_window : receiveWindow (c_recv c) ≤ receiveWindow (c_recv c');
  m_received : highestReceived (c_recv c') - highestReceived (c_recv c) = received_of s' - received_of s;
  m_read : bytesRead (c_recv c') - bytesRead (c_recv c) = read_of s' - read_of s;
  m_sent : c_bytesSent c' - c_bytesSent c = s_bytesSent s' - s_bytesSent s;
}.

(** Solve a goal [moves] on explicit states. *)
Ltac moves_solve :=
  constructor; unfold received_of, read_of; simpl; try lia;
  (constructor; unfold MaxByteCount, received_of, read_of; simpl;
   try lazymatch goal with
   | |- recv_ok _ _ => constructor; simpl
   | |- _ = true → _ => let Hf := fresh in intros Hf; rewrite ?Hf in *; simpl in *; split
   end; try done; lia).

Lemma conn_limit : Z.max (InitialConnectionReceiveWindow cfg) (MaxConnectionReceiveWindow cfg) < 2 ^ 51.
Proof. destruct Hcfg as [[] [] _ _ _ _ _]. lia. Qed.
Lemma stream_limit : Z.max (InitialStreamReceiveWindow cfg) (MaxStreamReceiveWindow cfg) < 2 ^ 51.
Proof. destruct Hcfg as [_ _ [] [] _ _ _]. lia. Qed.

(** The code for a frame that ends at [offset], from the counters alone. *)
Definition receive_error (offset : ByteCount) (final : bool) (s : streamFlowController)
    (c : connectionFlowController) : option TransportErrorCode :=
  let highest := received_of s in
  if (receivedFinalOffset s && (highest <? offset))
     || (final && (offset <? highest))
  then Some FinalSizeError
  else if (highest <? offset)
     && ((receiveWindow (s_recv s) <? offset)
         || (receiveWindow (c_recv c) <? highestReceived (c_recv c) + (offset - highest)))
  then Some FlowControlError
  else None.

Lemma UpdateHighestReceived_error offset final t s c :
  stream_ok cfg s → conn_ok cfg c → offset_ok offset → receiveWindow (c_recv c) ≤ MaxByteCount →
  (UpdateHighestReceived offset final t s c).1.1 = receive_error offset final s c.
Proof.
  intros [[] ? _ _] [[] _ _ _] Ho Hw.
  unfold UpdateHighestReceived, receive_error, received_of, offset_ok, MaxByteCount in *.
  destruct (receivedFinalOffset s), final; simpl;
    destruct (Z.eqb_spec offset (highestReceived (s_recv s))), (Z.gtb_spec offset (highestReceived (s_recv s))),
      (Z.ltb_spec offset (highestReceived (s_recv s))), (Z.ltb_spec (highestReceived (s_recv s)) offset);
    simpl; try lia; try done;
  unfold IncrementHighestReceived, checkFlowControlViolation;
  destruct (highestReceived (s_recv s) =? 0), (highestReceived (c_recv c) =? 0); simpl;
  rewrite !Z.gtb_ltb; destruct (Z.ltb_spec (receiveWindow (s_recv s)) offset); simpl; try done;
  rewrite (i64_small (offset - _)), i64_small by lia; done.
Qed.

Lemma UpdateHighestReceived_moves offset final t s c s' c' :
  stream_ok cfg s → conn_ok cfg c → offset_ok offset → receiveWindow (c_recv c) ≤ MaxByteCount →
  UpdateHighestReceived offset final t s c = (None, s', c') → moves s c s' c'.
Proof.
  intros Hs Hc Ho Hw Hu. pose proof (UpdateHighestReceived_error offset final t s c Hs Hc Ho Hw) as He.
  rewrite Hu in He. simpl in He. symmetry in He.
  destruct Hs as [[] ? ? ?], Hc as [[] ? ? ?].
  unfold receive_error, received_of in He.
  unfold UpdateHighestReceived, IncrementHighestReceived, checkFlowControlViolation,
    offset_ok, MaxByteCount in *.
  repeat case_match; simplify_eq/=; try done;
  rewrite ?(i64_small (offset - _)) in * by lia; rewrite ?i64_small in * by lia;
  moves_solve.
Qed.

Lemma AddBytesRead_moves n s c bs bc s' c' :
  stream_ok cfg s → conn_ok cfg c → receiveWindow (c_recv c) ≤ MaxByteCount →
  0 ≤ n ≤ received_of s - read_of s →
  received_of s - read_of s ≤ highestReceived (c_recv c) - bytesRead (c_recv c) →
  AddBytesRead n s c = (bs, bc, s', c') → moves s c s' c'.
Proof.
  intros [[] ? ? ?] [[] ? ? ?] Hw Hn Hun [= _ _ <- <-]. pose proof conn_limit. pose proof stream_limit.
  unfold received_of, read_of, addBytesRead, MaxByteCount in *. rewrite !i64_small by lia. moves_solve.
Qed.

Lemma Abandon_moves s c s' c' :
  stream_ok cfg s → conn_ok cfg c → receiveWindow (c_recv c) ≤ MaxByteCount →
  received_of s - read_of s ≤ highestReceived (c_recv c) - bytesRead (c_recv c) →
  Abandon s c = (s', c') → moves s c s' c'.
Proof.
  intros [[] ? ? ?] [[] ? ? ?] Hw Hun [= <- <-]. pose proof conn_limit. pose proof stream_limit.
  unfold received_of, read_of, Connection_AddBytesRead, addBytesRead, MaxByteCount in *.
  rewrite (i64_small (highestReceived _ - _)) by lia. destruct (_ >? 0) eqn:E; simpl; rewrite ?i64_small by lia;
    moves_solve.
Qed.

Lemma UpdateSendWindow_moves offset s c :
  stream_ok cfg s → conn_ok cfg c → offset_ok offset → moves s c (UpdateSendWindow offset s).2 c.
Proof.
  intros [[] ? ? ?] [[] ? ? ?] Ho. unfold UpdateSendWindow, offset_ok, MaxByteCount in *.
  destruct (Z.gtb_spec offset (s_sendWindow s)); moves_solve.
Qed.

Lemma TryAddBytesSent_spec n s c :
  stream_ok cfg s → conn_ok cfg c → 0 ≤ n →
  TryAddBytesSent n s c =
    if (n <=? s_sendWindow s - s_bytesSent s) && (n <=? c_sendWindow c - c_bytesSent c)
    then (true, set_s_bytesSent (s_bytesSent s + n) s,
          MkConnection (c_recv c) (c_bytesSent c + n) (c_sendWindow c) (c_lastBlockedAt c))
    else (false, s, c).
Proof.
  intros Hs Hc Hn. unfold TryAddBytesSent. rewrite (Connection_TryAddBytesSent_spec cfg) by done.
  destruct Hs as [_ _ ? ?]. unfold MaxByteCount in *. rewrite (i64_small (_ - _)) by lia.
  destruct (Z.leb_spec n (s_sendWindow s - s_bytesSent s)); simpl.
  - destruct (_ || _) eqn:E; [lia|]. destruct (Z.leb_spec n (c_sendWindow c - c_bytesSent c)); simpl; [|done].
    by rewrite i64_small by lia.
  - destruct (_ || _) eqn:E; [done|lia].
Qed.

Lemma TryAddBytesSent_moves n s c b s' c' :
  stream_ok cfg s → conn_ok cfg c → 0 ≤ n → TryAddBytesSent n s c = (b, s', c') → moves s c s' c'.
Proof.
  intros Hs Hc Hn. rewrite TryAddBytesSent_spec by done. destruct Hs as [[] ? ? ?], Hc as [[] ? ? ?].
  unfold MaxByteCount in *. destruct (_ && _) eqn:E; intros [= <- <- <-]; moves_solve.
Qed.

(** What one call of the limiter adds, within both credits. *)
Definition limited_amount (n : ByteCount) (limiter : Z → Z) (s : streamFlowController)
    (c : connectionFlowController) : Z :=
  let n := Z.min n (Z.min (s_sendWindow s - s_bytesSent s) (c_sendWindow c - c_bytesSent c)) in
  if n =? 0 then 0 else Z.min (Z.max (limiter n) 0) n.

Lemma AddBytesSentWithLimiter_spec n limiter s c :
  stream_ok cfg s → conn_ok cfg c → 0 ≤ n →
  AddBytesSentWithLimiter n limiter s c =
    (limited_amount n limiter s c,
     limited_amount n limiter s c
       <? Z.min n (Z.min (s_sendWindow s - s_bytesSent s) (c_sendWindow c - c_bytesSent c)),
     set_s_bytesSent (s_bytesSent s + limited_amount n limiter s c) s,
     MkConnection (c_recv c) (c_bytesSent c + limited_amount n limiter s c) (c_sendWindow c)
       (c_lastBlockedAt c)).
Proof.
  intros Hs Hc Hn. pose proof Hs as [_ _ ? ?]. pose proof Hc as [_ _ ? ?].
  unfold AddBytesSentWithLimiter, limited_amount, MaxByteCount in *.
  destruct (Z.geb_spec (s_bytesSent s) (s_sendWindow s)) as [Hge|Hlt].
  { replace (Z.min n _) with 0 by lia. simpl. rewrite !Z.add_0_r. by destruct s, c. }
  rewrite (i64_small (s_sendWindow s - _)) by lia.
  rewrite (Connection_AddBytesSentWithLimiter_spec cfg) by (done || lia).
  destruct (Z.eqb_spec (c_bytesSent c) (c_sendWindow c)) as [He|He].
  { replace (Z.min n (Z.min _ (_ - c_bytesSent c))) with 0 by lia. simpl. rewrite i64_small, !Z.add_0_r by lia.
    by destruct s, c. }
  cbv zeta. rewrite <-Z.min_assoc. destruct (Z.eqb_spec (Z.min n (Z.min (s_sendWindow s - s_bytesSent s)
    (c_sendWindow c - c_bytesSent c))) 0) as [E|E].
  - rewrite E, (Z.min_r _ 0) by lia. by rewrite i64_small by lia.
  - by rewrite i64_small by lia.
Qed.

Lemma AddBytesSentWithLimiter_moves n limiter s c k b s' c' :
  stream_ok cfg s → conn_ok cfg c → 0 ≤ n →
  AddBytesSentWithLimiter n limiter s c = (k, b, s', c') → moves s c s' c'.
Proof.
  intros Hs Hc Hn. rewrite AddBytesSentWithLimiter_spec by done. intros [= _ _ <- <-].
  destruct Hs as [[] ? ? ?], Hc as [[] ? ? ?]. unfold MaxByteCount, limited_amount in *.
  destruct (_ =? 0); moves_solve.
Qed.

Lemma IsNewlyBlocked_moves s c :
  stream_ok cfg s → conn_ok cfg c → moves s c (IsNewlyBlocked s).2 c.
Proof.
  intros [[] ? ? ?] [[] ? ? ?]. unfold IsNewlyBlocked, isNewlyBlocked, MaxByteCount in *.
  destruct (_ || _); moves_solve.
Qed.

Lemma EnsureMinimumWindowSize_spec inc env c :
  conn_ok cfg c →
  ∃ c', EnsureMinimumWindowSize inc env c = Some c' ∧ conn_ok cfg c' ∧
    highestReceived (c_recv c') = highestReceived (c_recv c) ∧
    bytesRead (c_recv c') = bytesRead (c_recv c) ∧
    receiveWindow (c_recv c') = receiveWindow (c_recv c) ∧ c_bytesSent c' = c_bytesSent c.
Proof.
  intros Hc. pose proof Hc as [[] Hallow ? ?]. pose proof conn_limit. unfold EnsureMinimumWindowSize. rewrite Hallow. simpl.
  destruct (Z.leb_spec inc (receiveWindowSize (c_recv c))).
  { eexists. split; [done|]. by split_and!. }
  rewrite i64_small by lia. destruct (_ >? 0) eqn:E; [destruct (allowIncrease env _)|]; simpl; eexists; (split; [done|]);
    (split_and!; [|done..]); (constructor; [constructor|..]); simpl; try done; try lia.
Qed.

Lemma GetWindowUpdate_spec env s c :
  stream_ok cfg s → conn_ok cfg c →
  ∃ offset s' c', GetWindowUpdate env s c = Some (offset, s', c') ∧ moves s c s' c' ∧
    receiveWindow (c_recv c') = receiveWindow (c_recv c) ∧
    receiveWindow (s_recv s) ≤ receiveWindow (s_recv s') ∧
    (offset = 0 ∨ offset = receiveWindow (s_recv s')).
Proof.
  intros Hs Hc. unfold GetWindowUpdate. destruct (receivedFinalOffset s).
  { eexists _, _, _. split; [done|]. split_and!; [|done|done|by left].
    constructor; try done; try lia. }
  destruct (getWindowUpdate env (s_recv s)) as [offset r] eqn:Eu. pose proof stream_limit as Hl.
  apply (getWindowUpdate_spec _ Hl) in Eu as (Hr & [] & Ho); [|apply Hs|].
  2:{ destruct Hs as [[] ? ? ?]. lia. }
  assert (stream_ok cfg (set_s_recv r s)) as Hs'.
  { destruct Hs as [? ? ? ?]. constructor; simpl; try done. lia. }
  assert (receiveWindow (s_recv s) ≤ receiveWindow r ∧ (offset = 0 ∨ offset = receiveWindow r)) as [??].
  { destruct (hasWindowUpdate _); [destruct Ho as (->&?&?); auto|]. destruct Ho as [-> ->]. auto with lia. }
  destruct (_ >? _).
  - destruct (EnsureMinimumWindowSize_spec (to_int64 (fmul (float64 (receiveWindowSize r)) one_and_a_half)) env c Hc)
      as (c' & -> & Hc' & ? & ? & ? & ?). simpl. eexists _, _, _. split; [done|].
    split_and!; try done. constructor; [done|done|constructor|..]; unfold received_of, read_of; simpl; try done; lia.
  - simpl. eexists _, _, _. split; [done|]. split_and!; try done.
    constructor; [done|done|constructor|..]; unfold received_of, read_of; simpl; try done; lia.
Qed.

(** ** The system *)

Lemma msum_diff f g (m : gmap StreamID streamFlowController) i x :
  m !! i = Some x → map_Forall (λ _ x, g x ≤ f x) m → f x - g x ≤ msum f m - msum g m.
Proof.
  intros Hi Hm. rewrite (msum_delete f m i x Hi), (msum_delete g m i x Hi).
  assert (0 ≤ msum f (delete i m) - msum g (delete i m)); [|lia].
  assert (map_Forall (λ _ x, g x ≤ f x) (delete i m)) as Hd by (by apply map_Forall_delete).
  revert Hd. generalize (delete i m). intros m'. induction m' as [|j y m' Hj IH] using map_ind; intros Hm'.
  { by rewrite !msum_empty. }
  rewrite !msum_insert by done. apply map_Forall_insert in Hm' as [? ?%IH]; [lia|done].
Qed.

(** The connection has at least as many unread bytes as any stream. *)
Lemma flow_unread f id s :
  flow_ok cfg f → streams f !! id = Some s →
  received_of s - read_of s ≤ highestReceived (c_recv (conn f)) - bytesRead (c_recv (conn f)).
Proof.
  intros [_ Hs -> -> _] Hid. apply (msum_diff received_of read_of _ id); [done|].
  intros i x Hx. apply Hs in Hx as [[] _ _ _]. unfold received_of, read_of. lia.
Qed.

Lemma flow_ok_moves f id s s' c' :
  flow_ok cfg f → streams f !! id = Some s → moves s (conn f) s' c' →
  flow_ok cfg (MkFlow c' (<[id := s']> (streams f))).
Proof.
  intros [Hc Hs Hr Hd Ht] Hid []. constructor; simpl; [done|by apply map_Forall_insert_2|..];
    rewrite (msum_update _ _ _ s) by done; lia.
Qed.

Lemma flow_ok_conn f c' :
  flow_ok cfg f → conn_ok cfg c' →
  highestReceived (c_recv c') = highestReceived (c_recv (conn f)) →
  bytesRead (c_recv c') = bytesRead (c_recv (conn f)) → c_bytesSent c' = c_bytesSent (conn f) →
  flow_ok cfg (MkFlow c' (streams f)).
Proof. intros [Hc Hs Hr Hd Ht] Hc' ???. constructor; simpl; [done|done|lia..]. Qed.

(** What a call does to the whole system. *)
Record flow_moves (f f' : flow) : Prop := {
  fm_ok : flow_ok cfg f';
  fm_window : receiveWindow (c_recv (conn f)) ≤ receiveWindow (c_recv (conn f'));
  fm_streams : ∀ id s, streams f !! id = Some s → ∃ s', streams f' !! id = Some s' ∧ advances s s';
}.

Lemma advances_refl s : advances s s.
Proof. constructor; try done; lia. Qed.

Lemma flow_moves_stream f id s s' c' :
  flow_ok cfg f → streams f !! id = Some s → moves s (conn f) s' c' →
  flow_moves f (MkFlow c' (<[id := s']> (streams f))).
Proof.
  intros Hf Hid Hm. constructor; simpl; [by eapply flow_ok_moves|apply Hm|].
  intros i x Hi. destruct (decide (i = id)) as [->|].
  - exists s'. rewrite lookup_insert_eq. simplify_eq. split; [done|apply Hm].
  - exists x. rewrite lookup_insert_ne by done. auto using advances_refl.
Qed.

Lemma flow_moves_conn f c' :
  flow_ok cfg f → conn_ok cfg c' →
  highestReceived (c_recv c') = highestReceived (c_recv (conn f)) →
  bytesRead (c_recv c') = bytesRead (c_recv (conn f)) → c_bytesSent c' = c_bytesSent (conn f) →
  receiveWindow (c_recv (conn f)) ≤ receiveWindow (c_recv c') →
  flow_moves f (MkFlow c' (streams f)).
Proof.
  intros. constructor; simpl; [by apply flow_ok_conn|done|]. eauto using advances_refl.
Qed.

Lemma newFlowController_ok id :
  stream_ok cfg (newFlowController cfg id) ∧ received_of (newFlowController cfg id) = 0 ∧
  read_of (newFlowController cfg id) = 0 ∧ s_bytesSent (newFlowController cfg id) = 0.
Proof.
  destruct Hcfg as [[] [] [] [] [] [] []]. unfold newFlowController. split_and!; [|done..].
  constructor; simpl; rewrite ?i64_small by lia; [constructor; simpl; lia|done|..];
    repeat case_match; unfold MaxByteCount in *; lia.
Qed.

Lemma flow_moves_open f id :
  flow_ok cfg f → streams f !! id = None →
  flow_moves f (MkFlow (conn f) (<[id := newFlowController cfg id]> (streams f))).
Proof.
  intros [Hc Hs Hr Hd Ht] Hid. destruct (newFlowController_ok id) as (?&?&?&?).
  constructor; simpl; [|done|].
  - constructor; simpl; [done|by apply map_Forall_insert_2|..]; rewrite msum_insert by done; lia.
  - intros i x Hi. exists x. rewrite lookup_insert_ne by congruence. auto using advances_refl.
Qed.

(** The error a call returns. *)
Definition flow_error (op : flow_op) (f : flow) : option TransportErrorCode :=
  match op with
  | ReceiveData id offset final _ =>
      match streams f !! id with
      | Some s => receive_error offset final s (conn f)
      | None => None
      end
  | _ => None
  end.

Lemma flow_step_spec f op :
  flow_ok cfg f → receiveWindow (c_recv (conn f)) ≤ MaxByteCount → allowed f op →
  ∃ f', flow_step cfg op f = Some (flow_error op f, f') ∧ (flow_error op f = None → flow_moves f f').
Proof.
  intros Hf Hw Ha. pose proof (fo_conn _ _ Hf) as Hc.
  assert (∀ id s, streams f !! id = Some s → stream_ok cfg s) as Hst by apply Hf.
  destruct op as [id|id offset final t|id n|id|id env|env|id n|n|id n|id n lim|id|]; simpl in Ha |- *.
  - eexists. split; [done|]. intros _. by apply flow_moves_open.
  - destruct Ha as [[s Hs] Ho]. rewrite Hs. simpl.
    pose proof (UpdateHighestReceived_error offset final t s (conn f) (Hst _ _ Hs) Hc Ho Hw) as He.
    destruct (UpdateHighestReceived _ _ _ _ _) as [[err s'] c'] eqn:E. simpl in He. subst err.
    eexists. split; [done|]. intros Hn. rewrite Hn in E.
    eapply flow_moves_stream; [done..|]. eapply UpdateHighestReceived_moves; eauto.
  - destruct Ha as (s & Hs & Hn). rewrite Hs. simpl. eexists. split; [done|]. intros _.
    eapply flow_moves_stream; [done..|]. eapply AddBytesRead_moves; eauto using flow_unread.
  - destruct Ha as [s Hs]. rewrite Hs. simpl. eexists. split; [done|]. intros _.
    eapply flow_moves_stream; [done..|]. eapply Abandon_moves; eauto using flow_unread.
  - destruct Ha as [s Hs]. rewrite Hs. simpl.
    destruct (GetWindowUpdate_spec env s (conn f)) as (o & s' & c' & -> & Hm & _); [eauto..|].
    simpl. eexists. split; [done|]. intros _. by eapply flow_moves_stream.
  - eexists. split; [done|]. intros _. unfold Connection_GetWindowUpdate.
    destruct (getWindowUpdate env (c_recv (conn f))) as [o r] eqn:E.
    apply (getWindowUpdate_spec _ conn_limit) in E as (Hr & [] & Ho); [|apply Hc|].
    2:{ destruct Hc as [[] ? ? ?]. lia. }
    destruct Hc as [? ? ? ?]. apply flow_moves_conn; simpl; try done.
    + constructor; simpl; try done. congruence.
    + destruct (hasWindowUpdate _); [apply Ho|]. destruct Ho as [_ ->]. lia.
  - destruct Ha as [[s Hs] Ho]. rewrite Hs. simpl. eexists. split; [done|]. intros _.
    eapply flow_moves_stream; [done..|]. apply UpdateSendWindow_moves; eauto.
  - eexists. split; [done|]. intros _. unfold Connection_UpdateSendWindow, offset_ok in *.
    destruct Hc as [? ? ? ?]. destruct (Z.gtb_spec n (c_sendWindow (conn f))); simpl;
      apply flow_moves_conn; simpl; try done; (constructor; simpl; try done; lia).
  - destruct Ha as [[s Hs] [Hn _]]. rewrite Hs. simpl.
    destruct (TryAddBytesSent n s (conn f)) as [[b s'] c'] eqn:E. eexists. split; [done|]. intros _.
    eapply flow_moves_stream; [done..|]. eapply TryAddBytesSent_moves; eauto.
  - destruct Ha as [[s Hs] [Hn _]]. rewrite Hs. simpl.
    destruct (AddBytesSentWithLimiter n lim s (conn f)) as [[[k b] s'] c'] eqn:E.
    eexists. split; [done|]. intros _.
    eapply flow_moves_stream; [done..|]. eapply AddBytesSentWithLimiter_moves; eauto.
  - destruct Ha as [s Hs]. rewrite Hs. simpl. eexists. split; [done|]. intros _.
    eapply flow_moves_stream; [done..|]. apply IsNewlyBlocked_moves; eauto.
  - eexists. split; [done|]. intros _. unfold Connection_IsNewlyBlocked.
    destruct Hc as [? ? ? ?]. destruct (_ || _); simpl; apply flow_moves_conn; simpl; try done;
      constructor; simpl; done.
Qed.

(** The connection's credit is the largest MAX_DATA received. *)
Lemma flow_step_credit op f err f' :
  flow_step cfg op f = Some (err, f') →
  c_sendWindow (conn f') = match op with
                           | ConnCredit n => Z.max (c_sendWindow (conn f)) n
                           | _ => c_sendWindow (conn f)
                           end.
Proof.
  destruct op; simpl; try (destruct (streams f !! id) as [s|]; simpl; [|done]).
  - by intros [= <- <-].
  - unfold UpdateHighestReceived. repeat case_match; intros ?; simplify_eq; try done.
    all: match goal with H : IncrementHighestReceived _ _ _ = _ |- _ => by inversion H end.
  - by intros [= <- <-].
  - intros [= <- <-]. simpl. by destruct (_ >? 0).
  - unfold GetWindowUpdate, EnsureMinimumWindowSize. intros Hst. repeat (case_match; simplify_option_eq); done.
  - unfold Connection_GetWindowUpdate. intros [= <- <-]. simpl. by destruct (getWindowUpdate _ _).
  - by intros [= <- <-].
  - unfold Connection_UpdateSendWindow. intros [= <- <-]. simpl. destruct (Z.gtb_spec offset (c_sendWindow (conn f))); simpl; lia.
  - unfold TryAddBytesSent, Connection_TryAddBytesSent. repeat case_match; intros ?; by simplify_eq.
  - unfold AddBytesSentWithLimiter, Connection_AddBytesSentWithLimiter. repeat case_match; intros ?; by simplify_eq.
  - by intros [= <- <-].
  - unfold Connection_IsNewlyBlocked. intros [= <- <-]. simpl. by destruct (_ || _).
Qed.

Lemma flow_ok_new : flow_ok cfg (newFlow cfg).
Proof.
  destruct Hcfg as [[] [] [] [] [] [] []].
  constructor; simpl; rewrite ?msum_empty; try done.
  constructor; simpl; [|done|lia|unfold MaxByteCount; lia]. constructor; simpl; rewrite ?i64_small; lia.
Qed.

Lemma flow_reach_ok f : flow_reach cfg f → flow_ok cfg f.
Proof.
  induction 1 as [|f op f' Hr IH Hw Ha Hstep]; [apply flow_ok_new|].
  destruct (flow_step_spec f op IH Hw Ha) as (f2 & E & Hm). rewrite Hstep in E. simplify_eq.
  by apply Hm.
Qed.
End moves.
End flow.

(** ** A sample connection *)

(** The conversion of amd64. *)
#[local] Instance amd64_conversion : FloatConversion := λ _, - 2 ^ 63.

Definition sample_config : FlowConfig := MkFlowConfig PerspectiveClient 64 128 32 64 10 20 50.

Lemma sample_config_ok : config_ok sample_config.
Proof. constructor; vm_compute; split; congruence. Qed.

Definition sample_flow : flow :=
  MkFlow (MkConnection (MkReceive 20 25 64 64 128 true 7 0) 30 100 0)
    {[ 0 := MkStream (MkReceive 20 25 32 32 64 false 7 0) 30 50 0 0 false ]}.

Lemma reach_forward `{!FloatConversion} cfg f op f' :
  flow_reach cfg f → receiveWindow (c_recv (conn f)) ≤ MaxByteCount →
  flow_step cfg op f = Some (None, f') → allowed f op → flow_reach cfg f'.
Proof. intros. by eapply reach_step. Qed.

Ltac reach_by op :=
  lazymatch goal with
  | Hr : flow_reach _ _ |- _ =>
      eapply (reach_forward _ _ op) in Hr; [|done|vm_compute; reflexivity|]
  end.

Lemma sample_flow_reach : flow_reach sample_config sample_flow.
Proof.
  pose proof (reach_new sample_config) as Hr.
  reach_by (OpenStream 0); [|done].
  reach_by (ConnCredit 100); [|done].
  reach_by (ReceiveData 0 25 false 7); [|split; [by eexists|done]].
  reach_by (TrySend 0 30); [|split; [by eexists|done]].
  reach_by (ReadData 0 20); [|by eexists].
  exact Hr.
Qed.

(** ** Theorems *)

(** C8: At every point of a connection, the connection's counts of bytes received,
    read and sent are the sums of its streams' counts; on the connection and on
    every stream the peer has sent no more than was advertised to it, no more is
    buffered than the receive window size, which stays within the configured
    bounds, and no more was sent than the peer allows. *)
Theorem flow_accounts_balance `{!FloatConversion} cfg f :
  config_ok cfg → flow_reach cfg f →
  let c := conn f in
  (highestReceived (c_recv c) = msum received_of (streams f) ∧
   bytesRead (c_recv c) = msum read_of (streams f) ∧
   c_bytesSent c = msum s_bytesSent (streams f)) ∧
  (bytesRead (c_recv c) ≤ highestReceived (c_recv c) ≤ receiveWindow (c_recv c) ∧
   highestReceived (c_recv c) - bytesRead (c_recv c) ≤ receiveWindowSize (c_recv c)
     ≤ Z.max (InitialConnectionReceiveWindow cfg) (MaxConnectionReceiveWindow cfg) ∧
   c_bytesSent c ≤ c_sendWindow c) ∧
  ∀ id s, streams f !! id = Some s →
    read_of s ≤ received_of s ≤ receiveWindow (s_recv s) ∧
    received_of s - read_of s ≤ receiveWindowSize (s_recv s)
      ≤ Z.max (InitialStreamReceiveWindow cfg) (MaxStreamReceiveWindow cfg) ∧
    s_bytesSent s ≤ s_sendWindow s.
Proof.
  intros Hcfg [[[] ? ? ?] Hs ? ? ?]%flow_reach_ok; [|done]. cbv zeta. split_and!; try done; try lia.
  intros id s [[] ? ? ?]%Hs. unfold received_of, read_of. lia.
Qed.

Lemma flow_accounts_balance_witness :
  config_ok sample_config ∧
  let f := sample_flow in let c := conn f in
  (highestReceived (c_recv c) = msum received_of (streams f) ∧
   bytesRead (c_recv c) = msum read_of (streams f) ∧
   c_bytesSent c = msum s_bytesSent (streams f)) ∧
  (bytesRead (c_recv c) ≤ highestReceived (c_recv c) ≤ receiveWindow (c_recv c) ∧
   highestReceived (c_recv c) - bytesRead (c_recv c) ≤ receiveWindowSize (c_recv c)
     ≤ Z.max (InitialConnectionReceiveWindow sample_config) (MaxConnectionReceiveWindow sample_config) ∧
   c_bytesSent c ≤ c_sendWindow c) ∧
  ∀ id s, streams f !! id = Some s →
    read_of s ≤ received_of s ≤ receiveWindow (s_recv s) ∧
    received_of s - read_of s ≤ receiveWindowSize (s_recv s)
      ≤ Z.max (InitialStreamReceiveWindow sample_config) (MaxStreamReceiveWindow sample_config) ∧
    s_bytesSent s ≤ s_sendWindow s.
Proof.
  split; [apply sample_config_ok|].
  apply (flow_accounts_balance sample_config sample_flow sample_config_ok sample_flow_reach).
Defined.

(** C21: From every reachable state every allowed call returns, and the only
    errors are those of received data: a final-size error exactly when the offset
    passes a known final size or a final size falls below what was received, a
    flow-control error exactly when new data passes the stream's or the
    connection's advertised limit. *)
Theorem flow_errors_exact `{!FloatConversion} cfg f op :
  config_ok cfg → flow_reach cfg f → receiveWindow (c_recv (conn f)) ≤ MaxByteCount → allowed f op →
  ∃ f', flow_step cfg op f = Some (flow_error op f, f').
Proof.
  intros Hcfg Hf%flow_reach_ok Hw Ha; [|done]. destruct (flow_step_spec cfg Hcfg f op Hf Hw Ha) as (f' & ? & _).
  by exists f'.
Qed.

Lemma flow_errors_exact_witness :
  flow_error (ReceiveData 0 33 false 9) sample_flow = Some FlowControlError ∧
  flow_error (ReceiveData 0 24 true 9) sample_flow = Some FinalSizeError ∧
  ∃ f', flow_step sample_config (ReceiveData 0 33 false 9) sample_flow =
    Some (flow_error (ReceiveData 0 33 false 9) sample_flow, f').
Proof.
  split; [reflexivity|]. split; [reflexivity|].
  apply (flow_errors_exact sample_config sample_flow _ sample_config_ok sample_flow_reach); [done|].
  split; [by eexists|done].
Defined.

(** C20: No call that succeeds takes anything back: the limits advertised to the
    peer and the credit received from it never shrink, for the connection and for
    each stream, and after the final offset of a stream is known, the amount
    received on it never changes. *)
Theorem limits_never_shrink `{!FloatConversion} cfg f op f' :
  config_ok cfg → flow_reach cfg f → receiveWindow (c_recv (conn f)) ≤ MaxByteCount → allowed f op →
  flow_step cfg op f = Some (None, f') →
  receiveWindow (c_recv (conn f)) ≤ receiveWindow (c_recv (conn f')) ∧
  c_sendWindow (conn f) ≤ c_sendWindow (conn f') ∧
  ∀ id s, streams f !! id = Some s → ∃ s', streams f' !! id = Some s' ∧ advances s s'.
Proof.
  intros Hcfg Hf%flow_reach_ok Hw Ha Hs; [|done].
  destruct (flow_step_spec cfg Hcfg f op Hf Hw Ha) as (f2 & E & Hm).
  pose proof (flow_step_credit cfg op f None f' Hs) as Hc.
  rewrite Hs in E. simplify_eq. destruct Hm; [done|]. split_and!; [done| |done]. rewrite Hc. destruct op; lia.
Qed.

(** 4 * (20 / 32) * 100 = 250 time units have not passed: the window doubles. *)
Definition sample_update : flow_op := StreamUpdate 0 (MkEnv 100 100 (λ _, true)).

Lemma limits_never_shrink_witness :
  (s ← (f ← snd <$> flow_step sample_config sample_update sample_flow; streams f !! 0);
   Some (receiveWindow (s_recv s), receiveWindowSize (s_recv s))) = Some (84, 64) ∧
  ∃ f', flow_step sample_config sample_update sample_flow = Some (None, f') ∧
  receiveWindow (c_recv (conn sample_flow)) ≤ receiveWindow (c_recv (conn f')) ∧
  c_sendWindow (conn sample_flow) ≤ c_sendWindow (conn f') ∧
  ∀ id s, streams sample_flow !! id = Some s → ∃ s', streams f' !! id = Some s' ∧ advances s s'.
Proof.
  split; [vm_compute; reflexivity|]. eexists. split; [vm_compute; reflexivity|].
  apply (limits_never_shrink sample_config sample_flow sample_update);
    [apply sample_config_ok|apply sample_flow_reach|done|by eexists|vm_compute; reflexivity].
Defined.

(** A window update is due exactly when a quarter of the window has been
    read. *)
Theorem window_update_threshold `{!FloatConversion} cfg f :
  config_ok cfg → flow_reach cfg f → receiveWindow (c_recv (conn f)) ≤ MaxByteCount →
  (hasWindowUpdate (c_recv (conn f)) = true ↔
     4 * (receiveWindow (c_recv (conn f)) - bytesRead (c_recv (conn f)))
       ≤ 3 * receiveWindowSize (c_recv (conn f))) ∧
  ∀ id s, streams f !! id = Some s →
    (shouldQueueWindowUpdate s = true ↔
       receivedFinalOffset s = false ∧
       4 * (receiveWindow (s_recv s) - bytesRead (s_recv s)) ≤ 3 * receiveWindowSize (s_recv s)).
Proof.
  intros Hcfg [[Hc ? ? ?] Hs ? ? ?]%flow_reach_ok Hw; [|done]. split.
  - apply (hasWindowUpdate_spec _ (conn_limit cfg Hcfg)); [done|]. destruct Hc. lia.
  - intros id s [Hr ? ? ?]%Hs. unfold shouldQueueWindowUpdate.
    rewrite andb_true_iff, negb_true_iff, (hasWindowUpdate_spec _ (stream_limit cfg Hcfg)); [done..|].
    destruct Hr. lia.
Qed.

Lemma window_update_threshold_witness :
  hasWindowUpdate (c_recv (conn sample_flow)) = true ∧
  ((hasWindowUpdate (c_recv (conn sample_flow)) = true ↔
     4 * (receiveWindow (c_recv (conn sample_flow)) - bytesRead (c_recv (conn sample_flow)))
       ≤ 3 * receiveWindowSize (c_recv (conn sample_flow))) ∧
  ∀ id s, streams sample_flow !! id = Some s →
    (shouldQueueWindowUpdate s = true ↔
       receivedFinalOffset s = false ∧
       4 * (receiveWindow (s_recv s) - bytesRead (s_recv s)) ≤ 3 * receiveWindowSize (s_recv s))).
Proof.
  split; [vm_compute; reflexivity|].
  apply (window_update_threshold sample_config sample_flow sample_config_ok sample_flow_reach). done.
Defined.

(** Sending is granted exactly within the smaller of the stream's and the
    connection's credit: all of it or nothing by [TryAddBytesSent], the part the
    limiter approves by [AddBytesSentWithLimiter], counted on both levels alike. *)
Theorem send_credit_exact `{!FloatConversion} cfg f id s n limiter :
  config_ok cfg → flow_reach cfg f → streams f !! id = Some s → 0 ≤ n →
  let c := conn f in
  let spend k := (set_s_bytesSent (s_bytesSent s + k) s,
    MkConnection (c_recv c) (c_bytesSent c + k) (c_sendWindow c) (c_lastBlockedAt c)) in
  TryAddBytesSent n s c =
    (if n <=? SendWindowSize s c then (true, (spend n).1, (spend n).2) else (false, s, c)) ∧
  let n' := Z.min n (SendWindowSize s c) in
  let added := if n' =? 0 then 0 else Z.min (Z.max (limiter n') 0) n' in
  AddBytesSentWithLimiter n limiter s c = (added, added <? n', (spend added).1, (spend added).2).
Proof.
  intros Hcfg [Hc Hst ? ? ?]%flow_reach_ok Hs Hn; [|done]. apply Hst in Hs. cbv zeta.
  assert (SendWindowSize s (conn f) =
    Z.min (s_sendWindow s - s_bytesSent s) (c_sendWindow (conn f) - c_bytesSent (conn f))) as ->.
  { unfold SendWindowSize, Connection_SendWindowSize. destruct Hs as [_ _ ? ?], Hc as [_ _ ? ?].
    unfold MaxByteCount in *. by rewrite !i64_small by lia. }
  split.
  - rewrite (TryAddBytesSent_spec cfg) by done.
    repeat case_match; simplify_eq; try done; lia.
  - by rewrite (AddBytesSentWithLimiter_spec cfg).
Qed.

Definition sample_stream : streamFlowController :=
  MkStream (MkReceive 20 25 32 32 64 false 7 0) 30 50 0 0 false.

Lemma send_credit_exact_witness :
  SendWindowSize sample_stream (conn sample_flow) = 20 ∧
  let s := sample_stream in let c := conn sample_flow in
  let spend k := (set_s_bytesSent (s_bytesSent s + k) s,
    MkConnection (c_recv c) (c_bytesSent c + k) (c_sendWindow c) (c_lastBlockedAt c)) in
  TryAddBytesSent 25 s c =
    (if 25 <=? SendWindowSize s c then (true, (spend 25).1, (spend 25).2) else (false, s, c)) ∧
  let n' := Z.min 25 (SendWindowSize s c) in
  let added := if n' =? 0 then 0 else Z.min (Z.max (n' `div` 2) 0) n' in
  AddBytesSentWithLimiter 25 (λ n, n `div` 2) s c = (added, added <? n', (spend added).1, (spend added).2).
Proof.
  split; [reflexivity|].
  apply (send_credit_exact sample_config sample_flow 0 sample_stream 25 (λ n, n `div` 2)
    sample_config_ok sample_flow_reach); [reflexivity|lia].
Defined.
