(* ===== verification/SendStream.v ===== *)
(** * The sending side of a stream: send_stream.go, send_stream_buffer.go, send_stream_burst.go

    The state is the struct SendStream; the stream's flow controller is a field,
    the connection's is an argument of the operations that charge it.  Every
    operation runs under the stream's mutex.  What it calls of its streamSender
    afterwards is an output.

    A Write that does not return at once is a [Writer]: the local variables of
    the call, parked at one of the places where it gives up the mutex.  The
    channel writeChan holds at most one token, writeOnce is held by a Write in
    progress.  The clock is an argument, and so is the answer of the limiter of
    WriteWithLimit: [st_writeLimiter] tells whether one is installed.  An error
    passed to closeForShutdown is known by a number.  How far [append] grows a
    slice is left open. *)

From S2P Require Import Prelude QuicVarint Protocol WireBase WireFrames WireStream FlowControl.

(** ** Priorities *)

Definition defaultUrgency : Z := 3.

Definition encodeStreamPriority (urgency : Z) (incremental : bool) (generation : Z) : Z :=
  let priorityValue := Z.lor (u8 urgency) (u64 (Z.shiftl generation 32)) in
  if incremental then Z.lor priorityValue (Z.shiftl 1 8) else priorityValue.

Definition decodeStreamPriority (priorityValue : Z) : Z * bool * Z :=
  (wrapS 8 priorityValue, negb (u8 (Z.shiftr priorityValue 8) =? 0), u32 (Z.shiftr priorityValue 32)).

(** ** The state *)

Record StreamError := MkStreamError { se_StreamID : Z; se_ErrorCode : Z; se_Remote : bool }.

Inductive WriteError :=
  | StreamReset (e : StreamError)
  | Shutdown (e : Z)
  | WriteOnClosedStream
  | DeadlineExceeded
  | ErrWouldBlock
  | ErrWriteLimitReached.

(** What the stream tells the connection. *)
Inductive SenderCall :=
  | onHasStreamData
  | onHasStreamControlFrame
  | onHasStreamRetransmission
  | onStreamCompleted
  | recordStreamPriorityUpdated (urgency : Z) (incremental : bool)
  | updateStreamPriority.

(** [st_writeBuffer] is the slice with its capacity. *)
Record SendStream := MkSendStream {
  st_numOutstandingFrames : Z;
  st_retransmissionQueue : list StreamFrame;
  st_streamID : Z;
  st_reliableSize : Z;
  st_writeOffset : Z;
  st_shutdownErr : option Z;
  st_resetErr : option StreamError;
  st_queuedResetStreamFrame : option ResetStreamFrame;
  st_dataForWriting : option bytes;
  st_writeLimiter : bool;
  st_writeLimited : bool;
  st_nextFrame : option StreamFrame;
  st_nextFrameReserved : bool;
  st_writeBuffer : option (bytes * Z);
  st_writeBufferHead : Z;
  st_writeBufferLimit : Z;
  st_active : bool;
  st_writesInEpisode : Z;
  st_burstUntil : Z;
  st_corkPending : bool;
  st_activationTimer : bool;
  st_activationGen : Z;
  st_supportsResetStreamAt : bool;
  st_finishedWriting : bool;
  st_finSent : bool;
  st_cancellationFlagged : bool;
  st_completed : bool;
  st_priorityValue : Z;
  st_writeChan : bool;
  st_writeOnce : bool;
  st_deadline : Z;
  st_flowController : streamFlowController }.

#[global] Instance eta_SendStream : Eta SendStream := λ s,
  MkSendStream (st_numOutstandingFrames s) (st_retransmissionQueue s) (st_streamID s)
    (st_reliableSize s) (st_writeOffset s) (st_shutdownErr s) (st_resetErr s)
    (st_queuedResetStreamFrame s) (st_dataForWriting s) (st_writeLimiter s) (st_writeLimited s)
    (st_nextFrame s) (st_nextFrameReserved s) (st_writeBuffer s) (st_writeBufferHead s)
    (st_writeBufferLimit s) (st_active s) (st_writesInEpisode s) (st_burstUntil s)
    (st_corkPending s) (st_activationTimer s) (st_activationGen s) (st_supportsResetStreamAt s)
    (st_finishedWriting s) (st_finSent s) (st_cancellationFlagged s) (st_completed s)
    (st_priorityValue s) (st_writeChan s) (st_writeOnce s) (st_deadline s) (st_flowController s).

Definition newSendStream (streamID : Z) (fc : streamFlowController) (supportsResetStreamAt : bool)
    : SendStream :=
  MkSendStream 0 [] streamID 0 0 None None None None false false None false None 0 0 false 0 0
    false false 0 supportsResetStreamAt false false false false
    (encodeStreamPriority defaultUrgency true 0) false false 0 fc.

Definition signalWrite (s : SendStream) : SendStream := s <|st_writeChan := true|>.

Definition reliableOffset (s : SendStream) : Z :=
  if negb (st_supportsResetStreamAt s) then 0 else st_reliableSize s.

Definition StreamFrame_PutBack (f : StreamFrame) : outcome FrameError unit :=
  _ ← or_panic (putStreamFrame f); Ret ().

(** ** The write buffer (send_stream_buffer.go) *)

Definition sendStreamWriteBufferSize : Z := 4096.
Definition sendStreamWriteBufferMaxSize : Z := 65536.
Definition maxBufferedWriteSize : Z := sendStreamWriteBufferMaxSize / 4.

Definition writeBuffer (s : SendStream) : bytes :=
  match st_writeBuffer s with Some (d, _) => d | None => [] end.
Definition bufferedWriteLen (s : SendStream) : Z := len (writeBuffer s) - st_writeBufferHead s.

Definition writeBufferLimitLocked (s : SendStream) : Z :=
  if st_writeBufferLimit s =? 0 then sendStreamWriteBufferSize else st_writeBufferLimit s.

(** A positive limit reaches the cap in 16 rounds. *)
Fixpoint growLimit (fuel : nat) (need limit : Z) : Z :=
  match fuel with
  | O => limit
  | S fuel =>
      if (need >? limit) && (limit <? sendStreamWriteBufferMaxSize)
      then growLimit fuel need (limit * 2) else limit
  end.

Definition growWriteBufferFor (n : Z) (s : SendStream) : bool * SendStream :=
  let need := bufferedWriteLen s + n in
  let limit := growLimit 17 need (writeBufferLimitLocked s) in
  (need <=? limit, s <|st_writeBufferLimit := limit|>).

Section append.
Context (append_cap : Z → Z → Z).

Definition appendWriteBuffer (p : bytes) (s : SendStream) : outcome FrameError SendStream :=
  let '(d, cap) := match st_writeBuffer s with
                   | Some b => b
                   | None => ([], sendStreamWriteBufferSize)
                   end in
  '(d, head) ← (if cap - len d <? len p
                then d ← or_panic (slice_from d (st_writeBufferHead s)); Ret (d, 0)
                else Ret (d, st_writeBufferHead s));
  let n := len d + len p in
  Ret (s <|st_writeBuffer := Some (d ++ p, if n <=? cap then cap else append_cap cap n)|>
         <|st_writeBufferHead := head|>).
End append.

Definition dropWriteBuffer (s : SendStream) : SendStream :=
  s <|st_writeBuffer := None|> <|st_writeBufferHead := 0|>.

(** The bytes taken, at most [size]. *)
Definition takeWriteBuffer (size : Z) (s : SendStream) : outcome FrameError (bytes * SendStream) :=
  let n := Z.min (bufferedWriteLen s) size in
  if n =? 0 then Ret ([], s)
  else
    d ← or_panic (slice_to (writeBuffer s) (st_writeBufferHead s + n));
    d ← or_panic (slice_from d (st_writeBufferHead s));
    let s := s <|st_writeBufferHead := st_writeBufferHead s + n|> in
    Ret (d, if st_writeBufferHead s =? len (writeBuffer s)
            then s <|st_writeBuffer := match st_writeBuffer s with
                                       | Some (_, cap) => Some ([], cap)
                                       | None => None
                                       end|>
                   <|st_writeBufferHead := 0|>
            else s).

Definition bufferStartOffset (s : SendStream) : Z :=
  match st_nextFrame s with
  | Some f => st_writeOffset s + StreamFrame_DataLen f
  | None => st_writeOffset s
  end.

(** ** Bursts (send_stream_burst.go) *)

Definition sendStreamBurstFreshness : Z := 10 * Microsecond.
Definition sendStreamTailDelay : Z := 5 * Microsecond.
Definition sendStreamBurstMinWrites : Z := 4.
Definition sendStreamActivationThreshold : Z := 1200.

Definition stopActivationTimerLocked (s : SendStream) : SendStream :=
  if negb (st_activationTimer s) then s
  else s <|st_activationTimer := false|> <|st_activationGen := u64 (st_activationGen s + 1)|>.

Definition uncorkLocked (s : SendStream) : SendStream :=
  stopActivationTimerLocked s <|st_burstUntil := 0|> <|st_corkPending := false|>.

(** Whether the caller must call onHasStreamData. *)
Definition activateOrDelayLocked (now : Z) (s : SendStream) : bool * SendStream :=
  if negb (st_corkPending s) && ((st_burstUntil s =? 0) || negb (now <? st_burstUntil s)) then
    (true, s <|st_burstUntil := 0|> <|st_active := true|>)
  else
    let s := s <|st_corkPending := true|> in
    if (sendStreamTailDelay <=? 0) || (bufferedWriteLen s >=? sendStreamActivationThreshold) then
      (true, stopActivationTimerLocked s <|st_burstUntil := 0|> <|st_corkPending := false|>
               <|st_active := true|>)
    else if negb (st_activationTimer s) then
      (false, s <|st_activationGen := u64 (st_activationGen s + 1)|> <|st_activationTimer := true|>)
    else (false, s).

(** The timer armed for generation [gen] fires. *)
Definition activateAfterDelay (gen : Z) (s : SendStream) : list SenderCall * SendStream :=
  if negb (gen =? st_activationGen s) then ([], s)
  else
    let s := s <|st_activationTimer := false|> in
    if st_active s || bool_decide (is_Some (st_shutdownErr s)) || bool_decide (is_Some (st_resetErr s))
       || ((bufferedWriteLen s =? 0) && bool_decide (st_dataForWriting s = None))
    then ([], s)
    else ([onHasStreamData],
          s <|st_burstUntil := 0|> <|st_corkPending := false|> <|st_active := true|>).

Definition noteBufferedWriteLocked (s : SendStream) : SendStream :=
  if st_writesInEpisode s <? 2 ^ 16 - 1
  then s <|st_writesInEpisode := st_writesInEpisode s + 1|> else s.

Definition endEpisodeLocked (now : Z) (s : SendStream) : SendStream :=
  let s := if st_writesInEpisode s >=? sendStreamBurstMinWrites
           then s <|st_burstUntil := i64 (now + sendStreamBurstFreshness)|>
           else s <|st_burstUntil := 0|> in
  s <|st_writesInEpisode := 0|> <|st_corkPending := false|> <|st_active := false|>.

(** ** Completion *)

Definition isNewlyCompleted (s : SendStream) : bool * SendStream :=
  if st_completed s then (false, s)
  else if match st_nextFrame s with Some f => StreamFrame_DataLen f >? 0 | None => false end
  then (false, s)
  else if bufferedWriteLen s >? 0 then (false, s)
  else if (st_numOutstandingFrames s >? 0) || (len (st_retransmissionQueue s) >? 0)
          || bool_decide (is_Some (st_queuedResetStreamFrame s)) then (false, s)
  else if st_finSent s then (true, s <|st_completed := true|>)
  else if bool_decide (is_Some (st_resetErr s))
          && (st_cancellationFlagged s || st_finishedWriting s)
  then (true, s <|st_completed := true|>)
  else (false, s).

(** [if completed { sender.onStreamCompleted }] *)
Definition completedCall (completed : bool) : list SenderCall :=
  if completed then [onStreamCompleted] else [].

Fixpoint putBackAll (fs : list StreamFrame) : outcome FrameError unit :=
  match fs with
  | [] => Ret ()
  | f :: fs => _ ← StreamFrame_PutBack f; putBackAll fs
  end.

Definition returnFramesToPool (s : SendStream) : outcome FrameError SendStream :=
  let s := uncorkLocked s in
  _ ← putBackAll (st_retransmissionQueue s);
  let s := s <|st_retransmissionQueue := []|> in
  _ ← (match st_nextFrame s with Some f => StreamFrame_PutBack f | None => Ret () end);
  Ret (dropWriteBuffer (s <|st_nextFrame := None|> <|st_nextFrameReserved := false|>)).

(** ** Writing *)

Definition canBufferStreamFrame (s : SendStream) : bool :=
  if st_writeLimiter s || st_nextFrameReserved s then false
  else if bufferedWriteLen s >? 0 then false
  else
    let l := match st_nextFrame s with Some f => StreamFrame_DataLen f | None => 0 end in
    l + len (default [] (st_dataForWriting s)) <=? MaxPacketBufferSize.

(** [f.Data = f.Data[:n]] with [copy(f.Data[l:], p)]: the data extended by [p]. *)
Definition extendFrame (f : StreamFrame) (p : bytes) : outcome FrameError StreamFrame :=
  if len (sf_Data f) + len p <=? sf_cap f
  then Ret (MkStreamFrame (sf_StreamID f) (sf_Offset f) (sf_Data f ++ p) (sf_cap f) (sf_Fin f)
              (sf_DataLenPresent f) (sf_fromPool f))
  else Panic.

(** A frame from the pool at the write offset, with the given data. *)
Definition pooledFrame (s : SendStream) (offset : Z) (data : bytes) : outcome FrameError StreamFrame :=
  extendFrame (MkStreamFrame (st_streamID s) offset [] (sf_cap GetStreamFrame) false true
                 (sf_fromPool GetStreamFrame)) data.

(** The first checks of write and tryWriteAll. *)
Definition writeRefused (s : SendStream) : option WriteError :=
  match st_resetErr s, st_shutdownErr s with
  | Some e, _ => Some (StreamReset e)
  | None, Some e => Some (Shutdown e)
  | None, None => if st_finishedWriting s then Some WriteOnClosedStream else None
  end.

Section writing.
Context (append_cap : Z → Z → Z).

(** Whether the write was taken. *)
Definition writeFast (p : bytes) (limiter : bool) (s : SendStream) : outcome FrameError (bool * SendStream) :=
  if limiter || (len p =? 0) || (len p >? maxBufferedWriteSize) then Ret (false, s)
  else if negb (st_active s) || bool_decide (is_Some (st_dataForWriting s)) || st_writeLimited s
          || bool_decide (is_Some (st_resetErr s)) || bool_decide (is_Some (st_shutdownErr s))
          || st_finishedWriting s || negb (st_deadline s =? 0)
  then Ret (false, s)
  else
    let '(ok, s) := growWriteBufferFor (len p) s in
    if negb ok then Ret (false, s)
    else s ← appendWriteBuffer append_cap p s; Ret (true, noteBufferedWriteLocked s).

(** tryWriteAll: whether the stream is newly completed, whether it has data, the
    error. *)
Definition tryWriteAll (p : bytes) (s : SendStream) (c : connectionFlowController)
    : outcome FrameError (bool * bool * option WriteError * SendStream * connectionFlowController) :=
  match st_resetErr s with
  | Some e =>
      let '(completed, s) := isNewlyCompleted (s <|st_cancellationFlagged := true|>) in
      Ret (completed, false, Some (StreamReset e), s, c)
  | None =>
      match writeRefused s with
      | Some e => Ret (false, false, Some e, s, c)
      | None =>
          if len p =? 0 then Ret (false, false, None, s, c)
          else if bufferedWriteLen s >? 0 then Ret (false, false, Some ErrWouldBlock, s, c)
          else
            let bytesToReserve :=
              match st_nextFrame s with
              | Some f => if negb (st_nextFrameReserved s) then len p + StreamFrame_DataLen f else len p
              | None => len p
              end in
            let '(ok, fc, c) := TryAddBytesSent bytesToReserve (st_flowController s) c in
            let s := s <|st_flowController := fc|> in
            if negb ok then Ret (false, false, Some ErrWouldBlock, s, c)
            else
              f ← (match st_nextFrame s with
                   | Some f => Ret f
                   | None => pooledFrame s (st_writeOffset s) []
                   end);
              let l := len (sf_Data f) in
              f ← (if l + len p >? sf_cap f then
                     _ ← StreamFrame_PutBack f;
                     Ret (MkStreamFrame (st_streamID s) (sf_Offset f) (sf_Data f ++ p) (l + len p)
                            false true false)
                   else extendFrame f p);
              Ret (false, true, None,
                   s <|st_nextFrame := Some f|> <|st_nextFrameReserved := true|>, c)
      end
  end.

Definition TryWriteAll (p : bytes) (s : SendStream) (c : connectionFlowController)
    : outcome FrameError (option WriteError * list SenderCall * SendStream * connectionFlowController) :=
  if st_writeOnce s then Ret (Some ErrWouldBlock, [], s, c)
  else
    '(completed, hasData, err, s, c) ← tryWriteAll p s c;
    Ret (err, completedCall completed ++ (if hasData : bool then [onHasStreamData] else []), s, c).

(** *** write

    A call in progress: its slice, whether it has a limiter, the count and the
    flags of the loop, the deadline it waits for, and where it gave up the mutex. *)
Inductive WriterPhase := Buffered | Copied | Waiting.
Record Writer := MkWriter {
  wr_p : bytes; wr_limiter : bool; wr_bytesWritten : Z; wr_notifiedSender : bool;
  wr_deadline : Z; wr_phase : WriterPhase }.

Inductive WriteResult :=
  | Returned (n : Z) (err : option WriteError)
  | Parked (w : Writer).

(** The deferred function of write, and the release of writeOnce. *)
Definition writeReturns (n : Z) (err : option WriteError) (calls : list SenderCall) (s : SendStream)
    : outcome FrameError (WriteResult * list SenderCall * SendStream) :=
  Ret (Returned n err, calls,
       s <|st_writeLimiter := false|> <|st_writeLimited := false|> <|st_writeOnce := false|>).

(** After the loop. *)
Definition writeEpilogue (p : bytes) (bytesWritten : Z) (s : SendStream)
    : outcome FrameError (WriteResult * list SenderCall * SendStream) :=
  if bytesWritten =? len p then writeReturns bytesWritten None [] s
  else
    match st_shutdownErr s, st_resetErr s with
    | Some e, _ => writeReturns bytesWritten (Some (Shutdown e)) [] s
    | None, Some e =>
        let '(completed, s) := isNewlyCompleted (s <|st_cancellationFlagged := true|>) in
        writeReturns bytesWritten (Some (StreamReset e)) (completedCall completed) s
    | None, None =>
        if st_writeLimited s then writeReturns bytesWritten (Some ErrWriteLimitReached) [] s
        else writeReturns bytesWritten None [] s
    end.

(** Giving up the mutex at the end of a round. *)
Definition writeParks (w : Writer) (n deadline : Z) (phase : WriterPhase) (s : SendStream)
    : outcome FrameError (WriteResult * list SenderCall * SendStream) :=
  let s := uncorkLocked s <|st_active := true|> in
  Ret (Parked (MkWriter (wr_p w) (wr_limiter w) n true deadline phase),
       if negb (wr_notifiedSender w) then [onHasStreamData] else [], s).

(** A round of the loop, from the lock to the unlock. *)
Definition writeRound (now : Z) (w : Writer) (s : SendStream)
    : outcome FrameError (WriteResult * list SenderCall * SendStream) :=
  let p := wr_p w in
  let data := default [] (st_dataForWriting s) in
  if st_writeLimited s then
    writeEpilogue p (len p - len data) (s <|st_dataForWriting := None|>)
  else if bool_decide (is_Some (st_shutdownErr s)) || bool_decide (is_Some (st_resetErr s)) then
    writeEpilogue p (wr_bytesWritten w) s
  else
    let '(fits, s) :=
      if negb (wr_limiter w) && (st_deadline s =? 0) && (len data >? 0)
         && (len data <=? maxBufferedWriteSize)
      then growWriteBufferFor (len data) s else (false, s) in
    if fits then
      s ← appendWriteBuffer append_cap data s;
      writeParks w (len p) 0 Copied (s <|st_dataForWriting := None|>)
    else if canBufferStreamFrame s && (len data >? 0) then
      f ← (match st_nextFrame s with
           | None => pooledFrame s (st_writeOffset s) data
           | Some f => extendFrame f data
           end);
      writeParks w (len p) 0 Copied (s <|st_nextFrame := Some f|> <|st_dataForWriting := None|>)
    else
      let bytesWritten := len p - len data in
      let deadline := st_deadline s in
      if negb (deadline =? 0) && negb (now <? deadline) then
        writeReturns bytesWritten (Some DeadlineExceeded) [] (s <|st_dataForWriting := None|>)
      else if bool_decide (st_dataForWriting s = None) || bool_decide (is_Some (st_shutdownErr s))
              || bool_decide (is_Some (st_resetErr s))
      then writeEpilogue p bytesWritten s
      else writeParks w bytesWritten deadline Waiting s.

(** write, up to where it first gives up the mutex. *)
Definition write (now : Z) (p : bytes) (limiter : bool) (s : SendStream)
    : outcome FrameError (WriteResult * list SenderCall * SendStream) :=
  let s := s <|st_writeLimiter := limiter|> <|st_writeLimited := false|> in
  match st_resetErr s with
  | Some e =>
      let '(completed, s) := isNewlyCompleted (s <|st_cancellationFlagged := true|>) in
      writeReturns 0 (Some (StreamReset e)) (completedCall completed) s
  | None =>
      match writeRefused s with
      | Some e => writeReturns 0 (Some e) [] s
      | None =>
          if negb (st_deadline s =? 0) && negb (now <? st_deadline s) then
            writeReturns 0 (Some DeadlineExceeded) [] s
          else if len p =? 0 then writeReturns 0 None [] s
          else
            let '(fits, s) :=
              if negb limiter && (st_deadline s =? 0) && (len p <=? maxBufferedWriteSize)
              then growWriteBufferFor (len p) s else (false, s) in
            if fits then
              s ← appendWriteBuffer append_cap p s;
              let s := noteBufferedWriteLocked s in
              if st_active s then writeReturns (len p) None [] s
              else
                let '(activate, s) := activateOrDelayLocked now s in
                if negb activate then writeReturns (len p) None [] s
                else Ret (Parked (MkWriter p limiter (len p) true 0 Buffered), [onHasStreamData], s)
            else
              writeRound now (MkWriter p limiter 0 false 0 Waiting) (s <|st_dataForWriting := Some p|>)
      end
  end.

(** WriteWithLimit; the caller of the slow path has acquired writeOnce. *)
Definition WriteWithLimit (now : Z) (p : bytes) (limiter : bool) (s : SendStream)
    : outcome FrameError (WriteResult * list SenderCall * SendStream) :=
  '(taken, s) ← writeFast p limiter s;
  if taken : bool then Ret (Returned (len p) None, [], s)
  else write now p limiter (s <|st_writeOnce := true|>).

(** The call gets the mutex again: a waiting one after a token or the timer. *)
Definition writeResumes (now : Z) (w : Writer) (s : SendStream)
    : outcome FrameError (WriteResult * list SenderCall * SendStream) :=
  match wr_phase w with
  | Buffered => writeReturns (wr_bytesWritten w) None [] s
  | Copied => writeEpilogue (wr_p w) (wr_bytesWritten w) s
  | Waiting => writeRound now w s
  end.
End writing.

(** ** Packetizing *)

(** [f] with the first [n] bytes of its data. *)
Definition truncateFrame (f : StreamFrame) (n : Z) : outcome FrameError StreamFrame :=
  data ← or_panic (slice_to (sf_Data f) n);
  Ret (MkStreamFrame (sf_StreamID f) (sf_Offset f) data (sf_cap f) (sf_Fin f)
         (sf_DataLenPresent f) (sf_fromPool f)).

Definition getDataForWriting (f : StreamFrame) (maxBytes : Z) (s : SendStream)
    : outcome FrameError (StreamFrame * SendStream) :=
  let data := default [] (st_dataForWriting s) in
  if len data <=? maxBytes then
    f ← extendFrame f data;
    Ret (f, signalWrite (s <|st_dataForWriting := None|>))
  else
    taken ← or_panic (slice_to data maxBytes);
    f ← extendFrame f taken;
    rest ← or_panic (slice_from data maxBytes);
    let s := s <|st_dataForWriting := Some rest|> in
    Ret (f, if canBufferStreamFrame s then signalWrite s else s).

(** The frame, and whether there is more data, not taking the reliable size into
    account. *)
Definition popNewStreamFrame (maxDataLen : Z) (s : SendStream)
    : outcome FrameError (StreamFrame * bool * SendStream) :=
  match st_nextFrame s with
  | Some nextFrame =>
      let nextFrameReserved := st_nextFrameReserved s in
      let s := s <|st_nextFrame := None|> <|st_nextFrameReserved := false|> in
      '(nextFrame, s) ←
        (if StreamFrame_DataLen nextFrame >? maxDataLen then
           rest ← or_panic (slice_from (sf_Data nextFrame) maxDataLen);
           f ← (if StreamFrame_DataLen nextFrame - maxDataLen >? MaxPacketBufferSize
                then Ret (MkStreamFrame (st_streamID s) (st_writeOffset s + maxDataLen) rest
                            (len rest) false true false)
                else pooledFrame s (st_writeOffset s + maxDataLen) rest);
           nextFrame ← truncateFrame nextFrame maxDataLen;
           Ret (nextFrame, s <|st_nextFrame := Some f|> <|st_nextFrameReserved := nextFrameReserved|>)
         else Ret (nextFrame, signalWrite s));
      Ret (nextFrame,
           bool_decide (is_Some (st_nextFrame s)) || (bufferedWriteLen s >? 0)
           || bool_decide (is_Some (st_dataForWriting s)), s)
  | None =>
      f ← pooledFrame s (st_writeOffset s) [];
      if bufferedWriteLen s >? 0 then
        let size := Z.min maxDataLen (sf_cap f) in
        if size <? 0 then Panic
        else
          '(data, s) ← takeWriteBuffer size s;
          f ← extendFrame f data;
          let s := signalWrite s in
          Ret (f, (bufferedWriteLen s >? 0) || bool_decide (is_Some (st_dataForWriting s)), s)
      else
        '(f, s) ← getDataForWriting f maxDataLen s;
        Ret (f, bool_decide (is_Some (st_dataForWriting s)) || bool_decide (is_Some (st_nextFrame s))
                || st_finishedWriting s, s)
  end.

(** The frame that only carries the FIN bit. *)
Definition finFrame (s : SendStream) : StreamFrame :=
  MkStreamFrame (st_streamID s) (st_writeOffset s) [] 0 true true false.

(** The bytes that may go into the next frame. *)
Definition nextDataLen (maxBytes : Z) (s : SendStream) (c : connectionFlowController)
    : outcome FrameError Z :=
  let maxDataLen :=
    match st_nextFrameReserved s, st_nextFrame s with
    | true, Some f => Ret (StreamFrame_DataLen f)
    | true, None => Panic
    | false, _ => Ret (SendWindowSize (st_flowController s) c)
    end in
  maxDataLen ← maxDataLen;
  let maxDataLen :=
    if bool_decide (is_Some (st_resetErr s)) && (reliableOffset s >? 0)
    then Z.min maxDataLen (reliableOffset s - st_writeOffset s) else maxDataLen in
  match st_nextFrame s with
  | Some f =>
      m ← StreamFrame_MaxDataLen f maxBytes;
      Ret (Z.min (Z.min maxDataLen m) (StreamFrame_DataLen f))
  | None =>
      m ← StreamFrame_MaxDataLen
            (MkStreamFrame (st_streamID s) (st_writeOffset s) [] 0 false true false) maxBytes;
      let n := bufferedWriteLen s in
      let maxDataLen := Z.min (Z.min maxDataLen m) (n + len (default [] (st_dataForWriting s))) in
      Ret (if n >? 0 then Z.min maxDataLen n else maxDataLen)
  end.

(** The frame of [popNewStreamFrame], with what follows its data. *)
Definition popDataFrame (maxDataLen : Z) (s : SendStream)
    : outcome FrameError (StreamFrame * option StreamDataBlockedFrame * bool * SendStream) :=
  let reliable := reliableOffset s in
  '(f, hasMoreData, s) ← popNewStreamFrame maxDataLen s;
  let s := if StreamFrame_DataLen f >? 0
           then s <|st_writeOffset := i64 (st_writeOffset s + StreamFrame_DataLen f)|> else s in
  let hasMoreData :=
    if bool_decide (is_Some (st_resetErr s)) && (st_writeOffset s >=? reliable)
    then false else hasMoreData in
  let hasMoreData := if st_writeLimited s then false else hasMoreData in
  let '(blocked, s) :=
    if (StreamFrame_DataLen f >? 0) && negb (st_nextFrameReserved s) then
      let '(isBlocked, offset, fc) := isNewlyBlocked (st_flowController s) in
      (if isBlocked : bool then Some (MkStreamDataBlockedFrame (st_streamID s) offset) else None,
       s <|st_flowController := fc|>)
    else (None, s) in
  let fin := st_finishedWriting s && bool_decide (st_dataForWriting s = None)
             && bool_decide (st_nextFrame s = None) && (bufferedWriteLen s =? 0)
             && negb (st_finSent s) in
  Ret (MkStreamFrame (sf_StreamID f) (sf_Offset f) (sf_Data f) (sf_cap f) fin
         (sf_DataLenPresent f) (sf_fromPool f),
       blocked, hasMoreData, if fin then s <|st_finSent := true|> else s).

Definition popNewStreamFrameForPacket (limiter : Z → Z) (maxBytes : Z) (s : SendStream)
    (c : connectionFlowController)
    : outcome FrameError (option StreamFrame * option StreamDataBlockedFrame * bool * SendStream
                          * connectionFlowController) :=
  let cancelled :=
    bool_decide (is_Some (st_resetErr s))
    && ((reliableOffset s =? 0) || (st_writeOffset s >=? reliableOffset s)) in
  if bool_decide (is_Some (st_shutdownErr s)) || cancelled || st_writeLimited s then
    Ret (None, None, false, s, c)
  else if (len (default [] (st_dataForWriting s)) =? 0) && bool_decide (st_nextFrame s = None)
          && (bufferedWriteLen s =? 0) then
    if st_finishedWriting s && negb (st_finSent s)
    then Ret (Some (finFrame s), None, false, s <|st_finSent := true|>, c)
    else Ret (None, None, false, s, c)
  else
    let limitedWrite :=
      st_writeLimiter s && bool_decide (st_nextFrame s = None) && (bufferedWriteLen s =? 0) in
    maxDataLen ← nextDataLen maxBytes s c;
    if maxDataLen =? 0 then Ret (None, None, true, s, c)
    else if limitedWrite then
      let '(added, limited, fc, c) :=
        AddBytesSentWithLimiter maxDataLen limiter (st_flowController s) c in
      let s := s <|st_flowController := fc|> in
      let s := if limited : bool then signalWrite (s <|st_writeLimited := true|>) else s in
      if added =? 0 then Ret (None, None, negb limited, s, c)
      else
        '(f, blocked, hasMoreData, s) ← popDataFrame added s;
        Ret (Some f, blocked, hasMoreData, s, c)
    else
      let '(ok, fc, c) :=
        if st_nextFrameReserved s then (true, st_flowController s, c)
        else TryAddBytesSent maxDataLen (st_flowController s) c in
      let s := s <|st_flowController := fc|> in
      if negb ok then Ret (None, None, true, s, c)
      else
        '(f, blocked, hasMoreData, s) ← popDataFrame maxDataLen s;
        Ret (Some f, blocked, hasMoreData, s, c).

Definition popStreamFrame (now : Z) (limiter : Z → Z) (maxBytes : Z) (s : SendStream)
    (c : connectionFlowController)
    : outcome FrameError (option StreamFrame * option StreamDataBlockedFrame * bool * SendStream
                          * connectionFlowController) :=
  '(f, blocked, hasMoreData, s, c) ← popNewStreamFrameForPacket limiter maxBytes s c;
  let s := match f with
           | Some _ => s <|st_numOutstandingFrames := st_numOutstandingFrames s + 1|>
           | None => s
           end in
  let hasMoreData := match blocked with Some _ => false | None => hasMoreData end in
  Ret (f, blocked, hasMoreData, if hasMoreData : bool then s else endEpisodeLocked now s, c).

Definition popRetransmissionFrame (maxBytes : Z) (s : SendStream)
    : outcome FrameError (option StreamFrame * bool * SendStream) :=
  match st_shutdownErr s, st_retransmissionQueue s with
  | None, f :: queue =>
      '(newFrame, needsSplit, rest) ← StreamFrame_MaybeSplitOffFrame f maxBytes;
      let '(f, hasMore, queue) :=
        if needsSplit : bool then (newFrame, true, rest :: queue)
        else (Some rest, len queue >? 0, queue) in
      let s := s <|st_retransmissionQueue := queue|> in
      Ret (f, hasMore,
           match f with
           | Some _ => s <|st_numOutstandingFrames := st_numOutstandingFrames s + 1|>
           | None => s
           end)
  | _, _ => Ret (None, false, s)
  end.

(** ** Closing and cancelling *)

(** The error of Close is only for a cancelled stream. *)
Definition Close (s : SendStream) : bool * list SenderCall * SendStream :=
  if bool_decide (is_Some (st_shutdownErr s)) || st_finishedWriting s then (false, [], s)
  else
    let s := uncorkLocked (s <|st_finishedWriting := true|>) in
    let cancelled := bool_decide (is_Some (st_resetErr s)) in
    let s := if cancelled then s <|st_cancellationFlagged := true|> else s in
    let '(completed, s) := isNewlyCompleted s in
    (cancelled, completedCall completed ++ (if cancelled then [] else [onHasStreamData]), s).

Definition SetReliableBoundary (s : SendStream) : SendStream :=
  s <|st_reliableSize := Z.max (st_reliableSize s) (bufferStartOffset s + bufferedWriteLen s)|>.

(** The retransmission queue below the reliable offset. *)
Fixpoint truncateQueue (reliable : Z) (fs : list StreamFrame) : outcome FrameError (list StreamFrame) :=
  match fs with
  | [] => Ret []
  | f :: fs =>
      if sf_Offset f >=? reliable then _ ← StreamFrame_PutBack f; truncateQueue reliable fs
      else
        f ← (if sf_Offset f + StreamFrame_DataLen f <=? reliable then Ret f
             else truncateFrame f (reliable - sf_Offset f));
        fs ← truncateQueue reliable fs;
        Ret (f :: fs)
  end.

(** [if s.nextFrameReserved && s.nextFrame != nil]: the final size covers it. *)
Definition reservedEnd (s : SendStream) (finalSize : Z) : Z :=
  match st_nextFrame s with
  | Some f => if st_nextFrameReserved s
              then Z.max finalSize (sf_Offset f + StreamFrame_DataLen f) else finalSize
  | None => finalSize
  end.

(** What CancelWrite keeps of the data below the reliable offset. *)
Definition keepReliable (reliable : Z) (s : SendStream) : outcome FrameError SendStream :=
  let start := bufferStartOffset s in
  s ← (if start >=? reliable then Ret (dropWriteBuffer s)
       else if start + bufferedWriteLen s >? reliable then
         d ← or_panic (slice_to (writeBuffer s) (st_writeBufferHead s + (reliable - start)));
         Ret (s <|st_writeBuffer := match st_writeBuffer s with
                                    | Some (_, cap) => Some (d, cap)
                                    | None => None
                                    end|>)
       else Ret s);
  s ← (match st_nextFrame s with
       | None => Ret s
       | Some f =>
           if sf_Offset f >=? reliable then
             _ ← StreamFrame_PutBack f;
             Ret (s <|st_nextFrame := None|> <|st_nextFrameReserved := false|>)
           else if sf_Offset f + StreamFrame_DataLen f >? reliable then
             f ← truncateFrame f (reliable - sf_Offset f);
             Ret (s <|st_nextFrame := Some f|>)
           else Ret s
       end);
  queue ← truncateQueue reliable (st_retransmissionQueue s);
  Ret (s <|st_retransmissionQueue := queue|>).

Definition CancelWrite (errorCode : Z) (s : SendStream)
    : outcome FrameError (list SenderCall * SendStream) :=
  if bool_decide (is_Some (st_shutdownErr s)) then Ret ([], s)
  else
    let s := s <|st_cancellationFlagged := true|> in
    if bool_decide (is_Some (st_resetErr s)) then
      let '(completed, s) := isNewlyCompleted s in Ret (completedCall completed, s)
    else
      let s := s <|st_resetErr := Some (MkStreamError (st_streamID s) errorCode false)|> in
      let reliable := reliableOffset s in
      let finalSize := reservedEnd s (Z.max (st_writeOffset s) reliable) in
      s ← (if reliable =? 0 then returnFramesToPool (s <|st_numOutstandingFrames := 0|>) else Ret s);
      let s := s <|st_queuedResetStreamFrame :=
                     Some (MkResetStreamFrame (st_streamID s) errorCode finalSize reliable)|> in
      '(hasStreamData, s) ←
        (if reliable >? 0 then
           s ← keepReliable reliable s;
           let hasStreamData :=
             (bufferedWriteLen s >? 0) || bool_decide (is_Some (st_nextFrame s))
             || (len (st_retransmissionQueue s) >? 0) in
           Ret (hasStreamData,
                if hasStreamData then uncorkLocked s <|st_active := true|> else s)
         else Ret (false, s));
      Ret ((if hasStreamData : bool then [onHasStreamData] else []) ++ [onHasStreamControlFrame],
           signalWrite s).

Definition enableResetStreamAt (s : SendStream) : SendStream := s <|st_supportsResetStreamAt := true|>.

(** What updateSendWindow and onConnectionSendWindowUpdated do for queued data. *)
Definition wakeSender (s : SendStream) : list SenderCall * SendStream :=
  if bool_decide (is_Some (st_dataForWriting s)) || bool_decide (is_Some (st_nextFrame s))
     || (bufferedWriteLen s >? 0)
  then ([onHasStreamData], uncorkLocked s <|st_active := true|>)
  else ([], s).

Definition updateSendWindow (limit : Z) (s : SendStream) : list SenderCall * SendStream :=
  let '(updated, fc) := UpdateSendWindow limit (st_flowController s) in
  let s := s <|st_flowController := fc|> in
  if negb updated then ([], s) else wakeSender s.

Definition onConnectionSendWindowUpdated (s : SendStream) : list SenderCall * SendStream := wakeSender s.

Definition handleStopSendingFrame (f : StopSendingFrame) (s : SendStream)
    : outcome FrameError (list SenderCall * SendStream) :=
  if bool_decide (is_Some (st_shutdownErr s)) then Ret ([], s)
  else if bool_decide (is_Some (st_resetErr s)) && (reliableOffset s =? 0) then Ret ([], s)
  else
    let s := s <|st_reliableSize := 0|> <|st_numOutstandingFrames := 0|> in
    let finalSize := reservedEnd s (st_writeOffset s) in
    s ← returnFramesToPool s;
    let e := match st_resetErr s with
             | Some e => e
             | None => MkStreamError (st_streamID s) (ss_ErrorCode f) true
             end in
    Ret ([onHasStreamControlFrame],
         signalWrite (s <|st_resetErr := Some e|>
                        <|st_queuedResetStreamFrame :=
                            Some (MkResetStreamFrame (st_streamID s) (se_ErrorCode e) finalSize 0)|>)).

(** The RESET_STREAM frame to send. *)
Definition getControlFrame (s : SendStream) : option ResetStreamFrame * SendStream :=
  match st_queuedResetStreamFrame s with
  | None => (None, s)
  | Some f => (Some f, s <|st_numOutstandingFrames := st_numOutstandingFrames s + 1|>
                         <|st_queuedResetStreamFrame := None|>)
  end.

Definition SetPriority (urgency : Z) (incremental : bool) (s : SendStream)
    : list SenderCall * SendStream :=
  let urgency := Z.max 0 (Z.min urgency 7) in
  if st_completed s then ([], s)
  else
    let '(oldUrgency, oldIncremental, generation) := decodeStreamPriority (st_priorityValue s) in
    if (oldUrgency =? urgency) && Bool.eqb oldIncremental incremental then ([], s)
    else ([recordStreamPriorityUpdated urgency incremental; updateStreamPriority],
          s <|st_priorityValue := encodeStreamPriority urgency incremental (u32 (generation + 1))|>).

Definition priority (s : SendStream) : Z * bool * Z := decodeStreamPriority (st_priorityValue s).

Definition SetWriteDeadline (t : Z) (s : SendStream) : SendStream :=
  signalWrite (s <|st_deadline := t|>).

Definition closeForShutdown (err : Z) (s : SendStream) : outcome FrameError SendStream :=
  let s := s <|st_completed := true|> in
  s ← (if bool_decide (st_shutdownErr s = None) && negb (st_finishedWriting s)
       then returnFramesToPool (s <|st_shutdownErr := Some err|>) else Ret s);
  Ret (signalWrite s).

(** ** Acknowledgements *)

Definition countDown (s : SendStream) : outcome FrameError SendStream :=
  let s := s <|st_numOutstandingFrames := st_numOutstandingFrames s - 1|> in
  if st_numOutstandingFrames s <? 0 then Panic else Ret s.

Definition sendStreamAckHandler_OnAcked (sf : StreamFrame) (s : SendStream)
    : outcome FrameError (list SenderCall * SendStream) :=
  _ ← StreamFrame_PutBack sf;
  if bool_decide (is_Some (st_resetErr s)) && (reliableOffset s =? 0) then Ret ([], s)
  else
    s ← countDown s;
    let '(completed, s) := isNewlyCompleted s in
    Ret (completedCall completed, s).

Definition sendStreamAckHandler_OnLost (sf : StreamFrame) (s : SendStream)
    : outcome FrameError (list SenderCall * SendStream) :=
  let reset := bool_decide (is_Some (st_resetErr s)) in
  let reliable := reliableOffset s in
  if reset && (reliable =? 0) then _ ← StreamFrame_PutBack sf; Ret ([], s)
  else
    s ← countDown s;
    if reset && (reliable >? 0) && (sf_Offset sf >=? reliable) then
      _ ← StreamFrame_PutBack sf;
      let '(completed, s) := isNewlyCompleted s in Ret (completedCall completed, s)
    else
      sf ← (if reset && (reliable >? 0) && (sf_Offset sf + StreamFrame_DataLen sf >? reliable)
            then truncateFrame sf (reliable - sf_Offset sf) else Ret sf);
      let sf := MkStreamFrame (sf_StreamID sf) (sf_Offset sf) (sf_Data sf) (sf_cap sf) (sf_Fin sf)
                  true (sf_fromPool sf) in
      Ret (if len (st_retransmissionQueue s) =? 0 then [onHasStreamRetransmission] else [],
           s <|st_retransmissionQueue := st_retransmissionQueue s ++ [sf]|>).

Definition sendStreamResetStreamHandler_OnAcked (rsf : ResetStreamFrame) (s : SendStream)
    : outcome FrameError (list SenderCall * SendStream) :=
  if negb (rs_ReliableSize rsf =? reliableOffset s) then Ret ([], s)
  else
    s ← countDown s;
    let '(completed, s) := isNewlyCompleted s in
    Ret (completedCall completed, s).

Definition sendStreamResetStreamHandler_OnLost (rsf : ResetStreamFrame) (s : SendStream)
    : list SenderCall * SendStream :=
  if negb (rs_ReliableSize rsf =? reliableOffset s) then ([], s)
  else ([onHasStreamControlFrame],
        s <|st_queuedResetStreamFrame := Some rsf|>
          <|st_numOutstandingFrames := st_numOutstandingFrames s - 1|>).
