(* ===== verification/SendStreamFacts.v ===== *)
(** * Facts about the sending side of a stream

    [view s] is what matters of the state for the data sent: the write buffer is
    the list of bytes in it, and the timers, flags and limits that only decide when
    data is sent are left out.  [core_ok W k] relates it to the bytes [W] the
    application has written. *)

From S2P Require Import Prelude QuicVarint Protocol WireBase WireFrames WireFramesFacts WireStream WireStreamFacts FlowControl SendStream.

Record Core := MkCore {
  k_num : Z;
  k_queue : list StreamFrame;
  k_id : Z;
  k_rel : Z;
  k_wo : Z;
  k_shut : option Z;
  k_reset : option StreamError;
  k_queued : option ResetStreamFrame;
  k_dfw : option bytes;
  k_limiter : bool;
  k_limited : bool;
  k_next : option StreamFrame;
  k_res : bool;
  k_buf : bytes;
  k_sup : bool;
  k_closed : bool;
  k_finSent : bool;
  k_completed : bool;
  k_once : bool;
  k_fc : streamFlowController }.

#[global] Instance eta_Core : Eta Core := λ k,
  MkCore (k_num k) (k_queue k) (k_id k) (k_rel k) (k_wo k) (k_shut k) (k_reset k) (k_queued k)
    (k_dfw k) (k_limiter k) (k_limited k) (k_next k) (k_res k) (k_buf k) (k_sup k) (k_closed k)
    (k_finSent k) (k_completed k) (k_once k) (k_fc k).

Definition buffered (s : SendStream) : bytes := drop (Z.to_nat (st_writeBufferHead s)) (writeBuffer s).
Definition head_ok (s : SendStream) : Prop := 0 ≤ st_writeBufferHead s ≤ len (writeBuffer s).

Definition view (s : SendStream) : Core :=
  MkCore (st_numOutstandingFrames s) (st_retransmissionQueue s) (st_streamID s) (st_reliableSize s)
    (st_writeOffset s) (st_shutdownErr s) (st_resetErr s) (st_queuedResetStreamFrame s)
    (st_dataForWriting s) (st_writeLimiter s) (st_writeLimited s) (st_nextFrame s)
    (st_nextFrameReserved s) (buffered s) (st_supportsResetStreamAt s) (st_finishedWriting s)
    (st_finSent s) (st_completed s) (st_writeOnce s) (st_flowController s).

(** Operations that do not touch the data. *)
Definition quiet (s s' : SendStream) : Prop := view s' = view s ∧ (head_ok s → head_ok s').

Lemma quiet_refl s : quiet s s.
Proof. done. Qed.
Lemma quiet_then s1 s2 s3 : quiet s1 s2 → quiet s2 s3 → quiet s1 s3.
Proof. intros [H1 ?] [H2 ?]. split; [by rewrite H2|auto]. Qed.

(** A record update of fields outside the view. *)
Ltac quiet_solve := split; [done|by unfold head_ok, writeBuffer].

Lemma signalWrite_quiet s : quiet s (signalWrite s).
Proof. quiet_solve. Qed.
Lemma stopActivationTimer_quiet s : quiet s (stopActivationTimerLocked s).
Proof. unfold stopActivationTimerLocked. destruct (negb _); quiet_solve. Qed.
Lemma uncork_quiet s : quiet s (uncorkLocked s).
Proof.
  unfold uncorkLocked. eapply quiet_then; [apply stopActivationTimer_quiet|]. quiet_solve.
Qed.
Lemma noteBufferedWrite_quiet s : quiet s (noteBufferedWriteLocked s).
Proof. unfold noteBufferedWriteLocked. destruct (_ <? _); quiet_solve. Qed.
Lemma endEpisode_quiet now s : quiet s (endEpisodeLocked now s).
Proof. unfold endEpisodeLocked. destruct (_ >=? _); quiet_solve. Qed.
Lemma growWriteBuffer_quiet n s : quiet s (growWriteBufferFor n s).2.
Proof. quiet_solve. Qed.
Lemma activateOrDelay_quiet now s : quiet s (activateOrDelayLocked now s).2.
Proof.
  unfold activateOrDelayLocked. destruct (_ && _); [quiet_solve|].
  destruct (_ || _); [|destruct (negb _); quiet_solve]. cbn [snd].
  eapply quiet_then; [|eapply quiet_then; [apply stopActivationTimer_quiet|quiet_solve]]. quiet_solve.
Qed.
Lemma activateAfterDelay_quiet gen s : quiet s (activateAfterDelay gen s).2.
Proof. unfold activateAfterDelay. destruct (negb _); [quiet_solve|]. destruct (_ || _); quiet_solve. Qed.
Lemma SetPriority_quiet u i s : quiet s (SetPriority u i s).2.
Proof.
  unfold SetPriority. destruct (st_completed s); [quiet_solve|].
  destruct (decodeStreamPriority _) as [[??]?]. destruct (_ && _); quiet_solve.
Qed.
Lemma SetWriteDeadline_quiet t s : quiet s (SetWriteDeadline t s).
Proof. quiet_solve. Qed.
Lemma activated_quiet s : quiet s (uncorkLocked s <|st_active := true|>).
Proof. eapply quiet_then; [apply uncork_quiet|]. quiet_solve. Qed.
Lemma wakeSender_quiet s : quiet s (wakeSender s).2.
Proof. unfold wakeSender. destruct (_ || _); [apply activated_quiet|quiet_solve]. Qed.

(** ** The write buffer *)

Lemma bufferedWriteLen_eq s : head_ok s → bufferedWriteLen s = len (buffered s).
Proof.
  intros H. unfold bufferedWriteLen, buffered. destruct H. unfold len in *. rewrite length_drop. lia.
Qed.

Lemma appended_view d c h p s :
  0 ≤ h ≤ len d → drop (Z.to_nat h) d = buffered s →
  let s' := s <|st_writeBuffer := Some (d ++ p, c)|> <|st_writeBufferHead := h|> in
  head_ok s' ∧ view s' = view s <|k_buf := buffered s ++ p|>.
Proof.
  intros Hd E s'. pose proof (len_nonneg p). split.
  - unfold head_ok, writeBuffer, s'. upd. rewrite len_app. lia.
  - replace (buffered s ++ p) with (buffered s'); [done|]. unfold buffered, writeBuffer, s'. upd.
    rewrite drop_app_le by (unfold len in Hd; lia). by rewrite E.
Qed.

Lemma appendWriteBuffer_spec cap p s :
  head_ok s →
  ∃ s', appendWriteBuffer cap p s = Ret s' ∧ head_ok s' ∧
    view s' = view s <|k_buf := buffered s ++ p|>.
Proof.
  intros Hh. unfold appendWriteBuffer.
  pose proof (λ d c h, appended_view d c h p s) as Hgen.
  unfold head_ok, buffered, writeBuffer in Hh. unfold buffered at 1, writeBuffer at 1 in Hgen.
  destruct (st_writeBuffer s) as [[d c]|] eqn:Hwb.
  - destruct (c - len d <? len p).
    + rewrite slice_from_drop by done. eexists. split; [done|]. apply Hgen; [|done].
      pose proof (len_nonneg (drop (Z.to_nat (st_writeBufferHead s)) d)). lia.
    + eexists. split; [done|]. by apply Hgen.
  - assert (st_writeBufferHead s = 0) as E0 by (change (len (A:=Z) []) with 0 in Hh; lia). rewrite E0 in *.
    destruct (_ <? _); eexists; (split; [done|]); by apply Hgen.
Qed.

Lemma dropWriteBuffer_spec s :
  head_ok (dropWriteBuffer s) ∧ view (dropWriteBuffer s) = view s <|k_buf := []|>.
Proof. done. Qed.

Lemma taken_view n s :
  head_ok s → 0 < n ≤ len (buffered s) →
  let s1 := s <|st_writeBufferHead := st_writeBufferHead s + n|> in
  let s' := if st_writeBufferHead s1 =? len (writeBuffer s1)
            then s1 <|st_writeBuffer := match st_writeBuffer s1 with
                                        | Some (_, cap) => Some ([], cap)
                                        | None => None
                                        end|>
                    <|st_writeBufferHead := 0|>
            else s1 in
  head_ok s' ∧ view s' = view s <|k_buf := drop (Z.to_nat n) (buffered s)|>.
Proof.
  intros [Hh1 Hh2] Hn s1 s'.
  assert (len (buffered s) = len (writeBuffer s) - st_writeBufferHead s) as Hl
    by (unfold buffered, len in *; rewrite length_drop; lia).
  change (writeBuffer s1) with (writeBuffer s) in *.
  change (st_writeBufferHead s1) with (st_writeBufferHead s + n) in *.
  destruct (Z.eqb_spec (st_writeBufferHead s + n) (len (writeBuffer s))) as [E2|E2]; subst s'.
  - split; [unfold head_ok, writeBuffer; upd; by destruct (st_writeBuffer s1) as [[]|]|].
    rewrite (drop_ge (buffered s)) by (unfold len in *; lia).
    change (k_buf (view s)) with (buffered s). unfold view, buffered, writeBuffer. upd.
    by destruct (st_writeBuffer s1) as [[]|].
  - split; [unfold head_ok, writeBuffer in *; subst s1; upd; lia|].
    replace (drop (Z.to_nat n) (buffered s)) with (buffered s1); [done|].
    unfold buffered. change (writeBuffer s1) with (writeBuffer s). subst s1. upd.
    rewrite drop_drop. f_equal. lia.
Qed.

Lemma takeWriteBuffer_spec size s :
  head_ok s → 0 ≤ size →
  ∃ s', takeWriteBuffer size s = Ret (take (Z.to_nat size) (buffered s), s') ∧ head_ok s' ∧
    view s' = view s <|k_buf := drop (Z.to_nat size) (buffered s)|>.
Proof.
  intros Hh Hs. unfold takeWriteBuffer. rewrite bufferedWriteLen_eq by done.
  pose proof (len_nonneg (buffered s)).
  destruct (Z.eqb_spec (Z.min (len (buffered s)) size) 0) as [E|E].
  { exists s. assert (size = 0 ∨ buffered s = []) as [-> | Hb].
    { destruct (Z.min_spec (len (buffered s)) size) as [[_ Hm]|[_ Hm]]; [right|left; lia].
      apply len_0_nil. lia. }
    - by rewrite take_0, drop_0.
    - rewrite Hb, take_nil, drop_nil, <-Hb. done. }
  set (n := Z.min (len (buffered s)) size) in *.
  assert (take (Z.to_nat size) (buffered s) = take (Z.to_nat n) (buffered s) ∧
          drop (Z.to_nat size) (buffered s) = drop (Z.to_nat n) (buffered s)) as [-> ->].
  { destruct (decide (size ≤ len (buffered s))); [by replace n with size by lia|].
    rewrite !take_ge, !drop_ge by (unfold len in *; lia). done. }
  destruct (taken_view n s Hh) as [Ho Hv]; [lia|].
  destruct Hh as [Hh1 Hh2].
  assert (len (buffered s) = len (writeBuffer s) - st_writeBufferHead s) as Hl
    by (unfold buffered, len in *; rewrite length_drop; lia).
  rewrite slice_to_take by lia. cbn [mbind outcome_bind or_panic].
  rewrite slice_from_drop by (unfold len in *; rewrite length_take; lia).
  cbn [mbind outcome_bind or_panic]. eexists. split; [|split; [exact Ho|exact Hv]].
  f_equal. f_equal. rewrite Z2Nat.inj_add by lia.
  unfold buffered. by rewrite take_drop_commute.
Qed.

(** ** The invariant *)

Definition next_data (k : Core) : bytes := match k_next k with Some f => sf_Data f | None => [] end.
Definition unsent (k : Core) : bytes := next_data k ++ k_buf k.
Definition pending (k : Core) : bytes := unsent k ++ default [] (k_dfw k).
Definition live (k : Core) : Prop := k_reset k = None ∧ k_shut k = None.
Definition reliable (k : Core) : Z := if k_sup k then k_rel k else 0.
Definition reserved (k : Core) : Z := if k_res k then len (next_data k) else 0.

(** A frame can go back to its pool. *)
Definition pool_ok (f : StreamFrame) : Prop :=
  sf_fromPool f = true → sf_cap f = MaxPacketBufferSize.

(** The staged frame, for offset [off]. *)
Record next_ok (id off : Z) (f : StreamFrame) : Prop := {
  nx_id : sf_StreamID f = id;
  nx_off : sf_Offset f = off;
  nx_len : sf_DataLenPresent f = true;
  nx_data : sf_Data f ≠ [];
  nx_cap : len (sf_Data f) ≤ sf_cap f;
  nx_pool : pool_ok f }.

(** The bytes of [W] from [off] on, [n] of them. *)
Definition part (W : bytes) (off n : Z) : bytes := take (Z.to_nat n) (drop (Z.to_nat off) W).

(** A frame that was sent: it carries a part of what was written. *)
Record piece (W : bytes) (k : Core) (f : StreamFrame) : Prop := {
  pc_id : sf_StreamID f = k_id k;
  pc_off : 0 ≤ sf_Offset f;
  pc_end : sf_Offset f + len (sf_Data f) ≤ k_wo k;
  pc_data : sf_Data f = part W (sf_Offset f) (len (sf_Data f));
  pc_len : len (sf_Data f) ≤ MaxPacketBufferSize;
  pc_some : sf_Fin f = true ∨ 0 < len (sf_Data f);
  pc_pool : pool_ok f;
  pc_fin : live k → sf_Fin f = true →
    k_finSent k = true ∧ sf_Offset f + len (sf_Data f) = k_wo k }.

Record core_ok (W : bytes) (k : Core) : Prop := {
  ok_id : vint (k_id k);
  ok_bytes : Forall is_byte W;
  ok_wo : 0 ≤ k_wo k ≤ len W;
  ok_unsent : ∃ rest, drop (Z.to_nat (k_wo k)) W = unsent k ++ rest ∧
    (live k → rest = default [] (k_dfw k));
  ok_next : ∀ f, k_next k = Some f → next_ok (k_id k) (k_wo k) f ∧ (k_res k = true ∨ sf_fromPool f = true);
  ok_res : k_res k = true → is_Some (k_next k);
  ok_dfw : k_dfw k ≠ Some [];
  ok_rel : 0 ≤ k_rel k;
  ok_boundary : k_shut k = None → (k_reset k = None → k_rel k ≤ k_wo k + len (unsent k)) ∧
    reliable k ≤ k_wo k + len (unsent k);
  ok_flow : k_wo k + reserved k ≤ s_bytesSent (k_fc k) ≤ s_sendWindow (k_fc k);
  ok_window : s_sendWindow (k_fc k) ≤ MaxByteCount;
  ok_credit : live k → k_wo k + reserved k = s_bytesSent (k_fc k);
  ok_queue : Forall (piece W k) (k_queue k);
  ok_fin : k_finSent k = true → k_closed k = true ∧ (live k → pending k = []) }.

Lemma ok_pending W k : core_ok W k → live k → drop (Z.to_nat (k_wo k)) W = pending k.
Proof. intros H Hl. destruct (ok_unsent _ _ H) as (rest & -> & Hr). by rewrite Hr. Qed.

(** From one state to a later one, as far as the frames sent are concerned. *)
Record advance (W : bytes) (k : Core) (W' : bytes) (k' : Core) : Prop := {
  ad_id : k_id k' = k_id k;
  ad_wo : k_wo k ≤ k_wo k';
  ad_take : take (Z.to_nat (k_wo k)) W' = take (Z.to_nat (k_wo k)) W;
  ad_live : live k' → live k;
  ad_fin : live k' → k_finSent k = true → k_finSent k' = true ∧ k_wo k' = k_wo k }.

Lemma advance_refl W k : advance W k W k.
Proof. by constructor. Qed.

Lemma part_take W W' n off l :
  0 ≤ off → off + l ≤ n → take (Z.to_nat n) W' = take (Z.to_nat n) W → part W' off l = part W off l.
Proof.
  intros Ho Hl E. unfold part.
  assert (∀ V : bytes, take (Z.to_nat l) (drop (Z.to_nat off) V) =
    drop (Z.to_nat off) (take (Z.to_nat off + Z.to_nat l) (take (Z.to_nat n) V))) as H.
  { intros V. rewrite take_take, take_drop_commute. destruct (decide (0 ≤ l)).
    - by rewrite Nat.min_l by lia.
    - replace (Z.to_nat l) with 0%nat by lia. rewrite Nat.add_0_r, !drop_ge; [done|..];
        rewrite length_take; lia. }
  by rewrite (H W'), (H W), E.
Qed.

Lemma advance_piece W k W' k' f : advance W k W' k' → piece W k f → piece W' k' f.
Proof.
  intros [] []. constructor; try done; [congruence|lia| |].
  - rewrite pc_data0 at 1. symmetry. by eapply part_take.
  - intros Hl Hf. destruct pc_fin0 as [Hs Hw]; [auto|done|]. destruct (ad_fin0 Hl Hs). split; [done|lia].
Qed.

Lemma advance_pieces W k W' k' fs : advance W k W' k' → Forall (piece W k) fs → Forall (piece W' k') fs.
Proof. intros Ha H. eapply Forall_impl; [exact H|]. intros f. by apply advance_piece. Qed.

Lemma part_bytes W off n : Forall is_byte W → Forall is_byte (part W off n).
Proof. intros. unfold part. by apply Forall_take, Forall_drop. Qed.

Lemma piece_ok W k f : core_ok W k → piece W k f → StreamFrame_ok f.
Proof.
  intros Hk []. destruct Hk. unfold StreamFrame_ok. split_and!.
  - by rewrite pc_id0.
  - done.
  - assert (0 ≤ reserved k). { unfold reserved. destruct (k_res k); [apply len_nonneg|done]. } lia.
  - rewrite pc_data0. by apply part_bytes.
  - done.
Qed.

(** ** Small steps of the view *)

Lemma len_part W off n : 0 ≤ off → 0 ≤ n → off + n ≤ len W → len (part W off n) = n.
Proof. intros. unfold part, len in *. rewrite length_take, length_drop. lia. Qed.

(** What a write does to a stream that is neither reset nor shut down: the bytes
    written and the bytes pending change together. *)
Record write_step (W : bytes) (k : Core) (W' : bytes) (k' : Core) : Prop := {
  ws_same : k' = k <|k_next := k_next k'|> <|k_res := k_res k'|> <|k_buf := k_buf k'|>
                   <|k_dfw := k_dfw k'|> <|k_limiter := k_limiter k'|> <|k_limited := k_limited k'|>
                   <|k_once := k_once k'|> <|k_fc := k_fc k'|>;
  ws_bytes : Forall is_byte W';
  ws_len : k_wo k ≤ len W';
  ws_take : take (Z.to_nat (k_wo k)) W' = take (Z.to_nat (k_wo k)) W;
  ws_pending : drop (Z.to_nat (k_wo k)) W' = pending k';
  ws_unsent : len (unsent k) ≤ len (unsent k');
  ws_next : ∀ f, k_next k' = Some f →
    next_ok (k_id k) (k_wo k) f ∧ (k_res k' = true ∨ sf_fromPool f = true);
  ws_res : k_res k' = true → is_Some (k_next k');
  ws_dfw : k_dfw k' ≠ Some [];
  ws_flow : k_wo k + reserved k' = s_bytesSent (k_fc k') ∧
    s_bytesSent (k_fc k') ≤ s_sendWindow (k_fc k') ≤ MaxByteCount;
  ws_fin : k_finSent k = true → pending k' = [] }.

Lemma write_step_ok W k W' k' :
  core_ok W k → live k → write_step W k W' k' → core_ok W' k' ∧ advance W k W' k'.
Proof.
  intros Hk [Hr Hs] []. destruct Hk.
  assert (k_id k' = k_id k ∧ k_wo k' = k_wo k ∧ k_rel k' = k_rel k ∧ k_reset k' = k_reset k ∧
    k_shut k' = k_shut k ∧ k_queue k' = k_queue k ∧ k_finSent k' = k_finSent k ∧ k_closed k' = k_closed k ∧
    k_sup k' = k_sup k) as (E1 & E2 & E3 & E4 & E5 & E6 & E7 & E8 & E9).
  { clear -ws_same0. revert ws_same0.
    generalize (k_next k') (k_res k') (k_buf k') (k_dfw k') (k_limiter k') (k_limited k') (k_once k') (k_fc k').
    intros ???????? ->. split_and!; reflexivity. }
  assert (live k' ↔ live k) as Hlive by (unfold live; by rewrite E4, E5).
  assert (reliable k' = reliable k) as Hrel by (unfold reliable; by rewrite E3, E9).
  assert (advance W k W' k') as Ha by (constructor; rewrite ?E1, ?E2, ?E7, ?Hlive; done || lia).
  split; [|done].
  constructor; rewrite ?E1, ?E2, ?E3, ?E4, ?E5, ?E6, ?E7, ?E8, ?Hrel; try done; try lia.
  - exists (default [] (k_dfw k')). split; [by rewrite ws_pending0|done].
  - intros _. destruct (ok_boundary0 Hs). split; [|lia]. intros. etrans; [by apply H|lia].
  - by eapply advance_pieces.
  - intros Hf. split; [|auto]. by apply ok_fin0.
Qed.

(** ** Flow control *)

Definition conn_range (c : connectionFlowController) : Prop :=
  0 ≤ c_bytesSent c ≤ MaxByteCount ∧ 0 ≤ c_sendWindow c ≤ MaxByteCount.
Definition fc_range (fc : streamFlowController) : Prop :=
  0 ≤ s_bytesSent fc ≤ s_sendWindow fc ∧ s_sendWindow fc ≤ MaxByteCount.

Lemma reserved_nonneg k : 0 ≤ reserved k.
Proof. unfold reserved. destruct (k_res k); [apply len_nonneg|done]. Qed.
Lemma core_fc_range W k : core_ok W k → fc_range (k_fc k).
Proof.
  intros Hk. pose proof (ok_flow _ _ Hk). pose proof (ok_window _ _ Hk). pose proof (ok_wo _ _ Hk).
  pose proof (reserved_nonneg k). unfold fc_range. lia.
Qed.

Lemma send_credit_spec n fc c :
  fc_range fc → conn_range c → 0 ≤ n ∨ c_sendWindow c < c_bytesSent c →
  let '(ok, fc', c') := TryAddBytesSent n fc c in
  conn_range c' ∧ if ok then fc_range fc' ∧ s_bytesSent fc' = s_bytesSent fc + n ∧
                             s_sendWindow fc' = s_sendWindow fc ∧ 0 ≤ n
                  else fc' = fc.
Proof.
  intros (Hf & Hw) (Hc1 & Hc2) Hn. unfold TryAddBytesSent, Connection_TryAddBytesSent.
  unfold MaxByteCount, fc_range, conn_range in *.
  destruct (Z.gtb_spec (s_bytesSent fc) (s_sendWindow fc)); [done|].
  rewrite (i64_small (s_sendWindow fc - _)) by lia.
  destruct (Z.gtb_spec n (s_sendWindow fc - s_bytesSent fc)); cbn; [done|].
  destruct (Z.gtb_spec (c_bytesSent c) (c_sendWindow c)); [done|].
  rewrite (i64_small (c_sendWindow c - _)) by lia.
  destruct (Z.gtb_spec n (c_sendWindow c - c_bytesSent c)); cbn; [done|].
  rewrite !i64_small by lia. unfold MaxByteCount. lia.
Qed.

Lemma send_limited_spec n limiter fc c :
  fc_range fc → conn_range c → 0 ≤ n ∨ c_sendWindow c < c_bytesSent c →
  let '(added, limited, fc', c') := AddBytesSentWithLimiter n limiter fc c in
  conn_range c' ∧ fc_range fc' ∧ s_bytesSent fc' = s_bytesSent fc + added ∧
  s_sendWindow fc' = s_sendWindow fc ∧ ((added = 0 ∧ fc' = fc) ∨ 0 < added ≤ n).
Proof.
  intros (Hf & Hw) (Hc1 & Hc2) Hn. unfold AddBytesSentWithLimiter, Connection_AddBytesSentWithLimiter.
  unfold MaxByteCount, fc_range, conn_range in *.
  rewrite Z.geb_leb. destruct (Z.leb_spec (s_sendWindow fc) (s_bytesSent fc)); cbn.
  { rewrite Z.add_0_r. by auto 10. }
  rewrite (i64_small (s_sendWindow fc - _)) by lia. rewrite Z.geb_leb.
  assert (i64 (s_bytesSent fc + 0) = s_bytesSent fc) as E0 by (rewrite Z.add_0_r; apply i64_small; lia).
  assert (set_s_bytesSent (s_bytesSent fc) fc = fc) as Efc by by destruct fc.
  destruct (Z.leb_spec (c_sendWindow c) (c_bytesSent c)); cbn.
  { rewrite E0, Efc, Z.add_0_r. by auto 10. }
  rewrite (i64_small (c_sendWindow c - _)) by lia.
  set (m := Z.min (Z.min n (s_sendWindow fc - s_bytesSent fc)) (c_sendWindow c - c_bytesSent c)).
  set (a := Z.min (Z.max (limiter m) 0) m).
  assert (0 ≤ a ≤ m) as Ha by lia.
  assert (a ≤ s_sendWindow fc - s_bytesSent fc ∧ a ≤ c_sendWindow c - c_bytesSent c ∧ a ≤ n) as (Ha1 & Ha2 & Ha3) by lia.
  clearbody a m. rewrite !i64_small by lia. unfold MaxByteCount.
  split_and!; try lia; try done. destruct (decide (a = 0)) as [->|]; [left|right; lia].
  by rewrite Z.add_0_r.
Qed.

Lemma SendWindowSize_range fc c :
  fc_range fc → conn_range c →
  SendWindowSize fc c ≤ s_sendWindow fc - s_bytesSent fc ∧
  (0 ≤ SendWindowSize fc c ∨ c_sendWindow c < c_bytesSent c).
Proof.
  intros (Hf & Hw) (Hc1 & Hc2). unfold SendWindowSize, Connection_SendWindowSize, MaxByteCount in *.
  rewrite !i64_small by lia. lia.
Qed.

(** ** Frames in buffers *)

Lemma extendFrame_spec f p :
  len (sf_Data f) + len p ≤ sf_cap f →
  extendFrame f p = Ret (MkStreamFrame (sf_StreamID f) (sf_Offset f) (sf_Data f ++ p) (sf_cap f)
                           (sf_Fin f) (sf_DataLenPresent f) (sf_fromPool f)).
Proof. intros H. unfold extendFrame. by rewrite (proj2 (Z.leb_le _ _)). Qed.

Definition pooled (id off : Z) (data : bytes) : StreamFrame :=
  MkStreamFrame id off data MaxPacketBufferSize false true true.

Lemma pooledFrame_spec s off data :
  len data ≤ MaxPacketBufferSize → pooledFrame s off data = Ret (pooled (st_streamID s) off data).
Proof. intros H. unfold pooledFrame. by rewrite extendFrame_spec. Qed.

Lemma pooled_next_ok id off data :
  data ≠ [] → len data ≤ MaxPacketBufferSize → next_ok id off (pooled id off data).
Proof. by constructor. Qed.

Lemma PutBack_ok f : pool_ok f → StreamFrame_PutBack f = Ret ().
Proof.
  intros H. unfold StreamFrame_PutBack, putStreamFrame. destruct (sf_fromPool f) eqn:E; cbn; [|done].
  by rewrite H, Z.eqb_refl.
Qed.

Lemma putBackAll_ok fs : Forall pool_ok fs → putBackAll fs = Ret ().
Proof. induction 1 as [|f fs Hf _ IH]; [done|]. cbn [putBackAll]. by rewrite PutBack_ok. Qed.
