(* ===== verification/SendStreamWriting.v ===== *)
(** * What the write operations of a stream do to its data *)

From S2P Require Import Prelude QuicVarint Protocol WireBase WireFrames WireStream FlowControl SendStream SendStreamFacts.

#[global] Instance live_dec k : Decision (live k).
Proof. unfold live. apply _. Defined.

Definition stream_ok (W : bytes) (s : SendStream) : Prop := head_ok s ∧ core_ok W (view s).

Lemma quiet_ok W s s' : quiet s s' → stream_ok W s → stream_ok W s' ∧ advance W (view s) W (view s').
Proof. intros [E Hh] [? ?]. rewrite E. split; [split; [auto|by rewrite E]|apply advance_refl]. Qed.

Ltac core_cases H :=
  destruct H as [Hid Hbytes Hwo Hunsent Hnext Hres Hdfw Hrel Hbound Hflow Hwin Hcredit Hqueue Hfin].

(** The fields that [core_ok] is about. *)
Definition data_of (k : Core) :=
  (k_queue k, k_id k, k_rel k, k_wo k, k_shut k, k_reset k, k_dfw k, k_next k, k_res k, k_buf k,
   k_sup k, k_closed k, k_finSent k, k_fc k).

Lemma core_ok_ext W k k' : data_of k' = data_of k → core_ok W k → core_ok W k' ∧ advance W k W k'.
Proof.
  intros E Hk. injection E as E1 E2 E3 E4 E5 E6 E7 E8 E9 E10 E11 E12 E13 E14.
  destruct k, k'. cbn in *. subst. split; [|by constructor].
  core_cases Hk. constructor; try done.
  eapply Forall_impl; [exact Hqueue|]. intros f []. by constructor.
Qed.

(** Of a stream that is reset or shut down, the blocked data does not matter. *)
Lemma core_ok_dead W k : ¬ live k → core_ok W k → core_ok W (k <|k_dfw := None|>).
Proof.
  intros Hl Hk. core_cases Hk. constructor; upd; try done.
  - destruct Hunsent as (rest & ? & _). by exists rest.
  - eapply Forall_impl; [exact Hqueue|]. intros f []. by constructor.
  - intros Hf. split; [by apply Hfin|done].
Qed.

(** What the frames in flight see of a state. *)
Record same_frames (k k' : Core) : Prop := {
  sm_num : k_num k' = k_num k;
  sm_queue : k_queue k' = k_queue k;
  sm_queued : k_queued k' = k_queued k;
  sm_wo : k_wo k' = k_wo k;
  sm_fin : k_finSent k' = k_finSent k;
  sm_reset : k_reset k' = k_reset k;
  sm_shut : k_shut k' = k_shut k;
  sm_rel : k_rel k' = k_rel k;
  sm_sup : k_sup k' = k_sup k }.
Lemma same_frames_refl k : same_frames k k.
Proof. by constructor. Qed.
Lemma same_frames_trans k1 k2 k3 : same_frames k1 k2 → same_frames k2 k3 → same_frames k1 k3.
Proof. intros [] []. constructor; congruence. Qed.
Lemma quiet_same s s' : quiet s s' → same_frames (view s) (view s').
Proof. intros [-> _]. apply same_frames_refl. Qed.

Lemma advance_trans W1 k1 W2 k2 W3 k3 :
  advance W1 k1 W2 k2 → advance W2 k2 W3 k3 → k_wo k1 = k_wo k2 → advance W1 k1 W3 k3.
Proof.
  intros [H1 H2 H3 H4 H5] [G1 G2 G3 G4 G5] E. constructor; [congruence|lia| |auto|].
  - rewrite E in *. congruence.
  - intros Hl Hf. destruct (H5 (G4 Hl) Hf) as [Hf2 ?]. destruct (G5 Hl Hf2). split; [done|lia].
Qed.

(** Only flags change. *)
Definition flags_only (s s' : SendStream) : Prop :=
  data_of (view s') = data_of (view s) ∧ st_numOutstandingFrames s' = st_numOutstandingFrames s ∧
  st_queuedResetStreamFrame s' = st_queuedResetStreamFrame s ∧ (head_ok s → head_ok s').

Lemma flags_refl s : flags_only s s.
Proof. done. Qed.
Lemma flags_trans s1 s2 s3 : flags_only s1 s2 → flags_only s2 s3 → flags_only s1 s3.
Proof. intros (?&?&?&?) (?&?&?&?). split_and!; [congruence..|auto]. Qed.
Lemma quiet_flags s s' : quiet s s' → flags_only s s'.
Proof.
  intros [E H]. split_and!; [by rewrite E| | |done].
  - by apply (f_equal k_num) in E.
  - by apply (f_equal k_queued) in E.
Qed.
Ltac flags_solve := split_and!; [done|done|done|by unfold head_ok, writeBuffer].

Lemma flags_ok W s s' :
  flags_only s s' → stream_ok W s →
  stream_ok W s' ∧ advance W (view s) W (view s') ∧ same_frames (view s) (view s').
Proof.
  intros (E & Hn & Hq & Hh) [Hs Hk]. destruct (core_ok_ext W (view s) (view s') E Hk) as [? ?].
  split_and!; [split; auto|done|]. injection E as E1 E2 E3 E4 E5 E6 E7 E8 E9 E10 E11 E12 E13 E14.
  by constructor.
Qed.

Lemma isNewlyCompleted_flags s : flags_only s (isNewlyCompleted s).2.
Proof.
  unfold isNewlyCompleted. repeat (case_match || destruct (_ || _) || destruct (_ && _)); flags_solve.
Qed.

(** A stream completes when nothing is left to send, nor in flight. *)
Lemma isNewlyCompleted_true s :
  head_ok s → (isNewlyCompleted s).1 = true →
  unsent (view s) = [] ∧ st_numOutstandingFrames s ≤ 0 ∧ st_retransmissionQueue s = [] ∧
  st_queuedResetStreamFrame s = None ∧ (st_finSent s = true ∨ is_Some (st_resetErr s)).
Proof.
  intros Hh. unfold isNewlyCompleted. rewrite bufferedWriteLen_eq by done.
  destruct (st_completed s); [done|].
  destruct (match st_nextFrame s with Some _ => _ | None => _ end) eqn:Hn; [done|].
  destruct (Z.gtb_spec (len (buffered s)) 0) as [|Hbuf]; [done|].
  destruct (Z.gtb_spec (st_numOutstandingFrames s) 0) as [|Hnum]; [done|].
  destruct (Z.gtb_spec (len (st_retransmissionQueue s)) 0) as [|Hq]; [done|]. cbn [orb].
  destruct (bool_decide _) eqn:Hrq; [done|]. apply bool_decide_eq_false, eq_None_not_Some in Hrq.
  assert (unsent (view s) = [] ∧ st_retransmissionQueue s = []) as [Hu Hq'].
  { pose proof (len_nonneg (buffered s)). pose proof (len_nonneg (st_retransmissionQueue s)). split.
    - unfold unsent. change (k_buf (view s)) with (buffered s).
      rewrite (proj1 (len_0_nil (buffered s))), app_nil_r by lia.
      unfold next_data. change (k_next (view s)) with (st_nextFrame s).
      destruct (st_nextFrame s) as [f|]; [|done]. unfold StreamFrame_DataLen in Hn.
      apply len_0_nil. pose proof (len_nonneg (sf_Data f)). lia.
    - apply len_0_nil. lia. }
  destruct (st_finSent s) eqn:Hf; [by auto 10|].
  destruct (bool_decide (is_Some (st_resetErr s))) eqn:Hr; [|done].
  apply bool_decide_eq_true in Hr. auto 10.
Qed.

(** ** Steps of a write *)

Lemma take_wo (W p : bytes) n : 0 ≤ n ≤ len W → take (Z.to_nat n) (W ++ p) = take (Z.to_nat n) W.
Proof. intros. apply take_app_le. unfold len in *. lia. Qed.
Lemma drop_wo (W p : bytes) n : 0 ≤ n ≤ len W → drop (Z.to_nat n) (W ++ p) = drop (Z.to_nat n) W ++ p.
Proof. intros. apply drop_app_le. unfold len in *. lia. Qed.

Section steps.
Context (W : bytes) (k : Core) (Hk : core_ok W k) (Hl : live k).

Lemma live_flow :
  k_wo k + reserved k = s_bytesSent (k_fc k) ∧
  s_bytesSent (k_fc k) ≤ s_sendWindow (k_fc k) ≤ MaxByteCount.
Proof. core_cases Hk. specialize (Hcredit Hl). lia. Qed.

Lemma blocked_not_fin d : k_dfw k = Some d → k_finSent k = false.
Proof.
  intros E. destruct (k_finSent k) eqn:Hf; [|done]. destruct (ok_fin _ _ Hk Hf) as [_ Hp].
  specialize (Hp Hl). unfold pending in Hp. rewrite E in Hp. apply app_eq_nil in Hp as [_ Hd].
  cbn in Hd. pose proof (ok_dfw _ _ Hk). congruence.
Qed.

(** Small writes are appended to the buffer. *)
Lemma step_buffer p :
  k_dfw k = None → k_finSent k = false → Forall is_byte p →
  write_step W k (W ++ p) (k <|k_buf := k_buf k ++ p|>).
Proof.
  intros Hd Hf Hp. pose proof live_flow. pose proof (ok_pending W k Hk Hl) as Hpend. core_cases Hk.
  pose proof (len_nonneg p).
  constructor; upd; rewrite ?Hf; try done.
  - by apply Forall_app.
  - rewrite len_app. lia.
  - by apply take_wo.
  - rewrite drop_wo, Hpend by done. unfold pending, unsent, next_data. upd. rewrite Hd.
    cbn [default from_option id]. by rewrite !app_nil_r, app_assoc.
  - unfold unsent, next_data. upd. rewrite !len_app. lia.
Qed.

(** A larger write keeps its data in the caller's slice. *)
Lemma step_block p :
  k_dfw k = None → k_finSent k = false → Forall is_byte p → p ≠ [] →
  write_step W k (W ++ p) (k <|k_dfw := Some p|>).
Proof.
  intros Hd Hf Hp Hne. pose proof live_flow. pose proof (ok_pending W k Hk Hl) as Hpend. core_cases Hk.
  pose proof (len_nonneg p).
  constructor; upd; rewrite ?Hf; try done.
  - by apply Forall_app.
  - rewrite len_app. lia.
  - by apply take_wo.
  - rewrite drop_wo, Hpend by done. unfold pending, unsent, next_data. upd. rewrite Hd.
    cbn [default from_option id]. by rewrite app_nil_r.
  - congruence.
Qed.

Lemma step_unblock d :
  k_dfw k = Some d → write_step W k W (k <|k_buf := k_buf k ++ d|> <|k_dfw := None|>).
Proof.
  intros Hd. pose proof live_flow. pose proof (ok_pending W k Hk Hl) as Hpend.
  pose proof (blocked_not_fin d Hd) as Hf. core_cases Hk. pose proof (len_nonneg d).
  constructor; upd; rewrite ?Hf; try done; [lia|..].
  - rewrite Hpend. unfold pending, unsent, next_data. upd. rewrite Hd.
    cbn [default from_option id]. by rewrite app_nil_r, app_assoc.
  - unfold unsent, next_data. upd. rewrite !len_app. lia.
Qed.

Lemma step_stage d f :
  k_dfw k = Some d → k_buf k = [] → k_res k = false → next_ok (k_id k) (k_wo k) f →
  sf_Data f = next_data k ++ d → sf_fromPool f = true →
  write_step W k W (k <|k_next := Some f|> <|k_dfw := None|>).
Proof.
  intros Hd Hb Hr Hf Hdata Hpool. pose proof live_flow as Hlf. pose proof (ok_pending W k Hk Hl) as Hpend.
  pose proof (blocked_not_fin d Hd) as Hfin'. core_cases Hk. pose proof (len_nonneg d).
  constructor; upd; rewrite ?Hfin'; try done; [lia|..].
  - rewrite Hpend. unfold pending, unsent, next_data in *. upd. rewrite Hd, Hdata, Hb.
    cbn [default from_option id]. by rewrite !app_nil_r.
  - unfold unsent, next_data in *. upd. rewrite Hdata, !len_app. lia.
  - intros ? [= <-]. auto.
  - unfold reserved in *. upd. rewrite Hr in *. lia.
Qed.

(** A write that gives up: what it has not handed over is not part of the stream. *)
Lemma step_abort A p :
  W = A ++ p → len (default [] (k_dfw k)) ≤ len p →
  write_step W k (A ++ take (Z.to_nat (len p - len (default [] (k_dfw k)))) p) (k <|k_dfw := None|>).
Proof.
  intros EW Hle. set (d := default [] (k_dfw k)) in *. pose proof live_flow.
  pose proof (ok_pending W k Hk Hl) as Hpend. core_cases Hk. pose proof (len_nonneg d).
  assert (A ++ take (Z.to_nat (len p - len d)) p = take (Z.to_nat (len W - len d)) W) as ->.
  { subst W. rewrite len_app. rewrite take_app_ge by (unfold len in *; lia). f_equal. f_equal.
    unfold len in *. lia. }
  assert (len W = k_wo k + len (unsent k) + len d) as HlenW.
  { apply (f_equal len) in Hpend. unfold pending in Hpend. fold d in Hpend. rewrite len_app in Hpend.
    unfold len in *. rewrite length_drop in Hpend. lia. }
  pose proof (len_nonneg (unsent k)).
  constructor; upd; try done.
  - by apply Forall_take.
  - unfold len in *. rewrite length_take. lia.
  - rewrite take_take. f_equal. lia.
  - replace (Z.to_nat (len W - len d)) with (Z.to_nat (k_wo k) + Z.to_nat (len (unsent k)))%nat by lia.
    rewrite <-take_drop_commute, Hpend. unfold pending. cbn [default from_option id]. fold d. upd.
    rewrite take_app_length' by (unfold len; lia). unfold unsent, next_data. upd. by rewrite app_nil_r.
  - intros Hf. destruct (Hfin Hf) as [_ Hp]. specialize (Hp Hl). unfold pending in *. upd.
    apply app_eq_nil in Hp as [Hp _]. unfold unsent, next_data in *. upd. by rewrite Hp.
Qed.

(** TryWriteAll stages data with the credit for it. *)
Lemma step_reserve p f fc :
  k_dfw k = None → k_finSent k = false → Forall is_byte p → k_buf k = [] →
  next_ok (k_id k) (k_wo k) f → sf_Data f = next_data k ++ p →
  s_bytesSent fc = s_bytesSent (k_fc k) + len (sf_Data f) - reserved k →
  s_bytesSent fc ≤ s_sendWindow fc ≤ MaxByteCount →
  write_step W k (W ++ p) (k <|k_next := Some f|> <|k_res := true|> <|k_fc := fc|>).
Proof.
  intros Hd Hf Hp Hb Hn Hdata Hfc Hfw. pose proof live_flow. pose proof (ok_pending W k Hk Hl) as Hpend.
  core_cases Hk. pose proof (len_nonneg p).
  constructor; upd; rewrite ?Hf; try done.
  - by apply Forall_app.
  - rewrite len_app. lia.
  - by apply take_wo.
  - rewrite drop_wo, Hpend by done. unfold pending, unsent, next_data in *. upd.
    rewrite Hdata, Hd, Hb. cbn [default from_option id]. by rewrite !app_nil_r.
  - unfold unsent, next_data in *. upd. rewrite Hdata, !len_app. lia.
  - intros ? [= <-]. auto.
  - unfold reserved at 1, next_data at 1. upd. lia.
Qed.
End steps.

(** ** The operations *)

Lemma step_stream W s W' s' :
  stream_ok W s → live (view s) → head_ok s' → write_step W (view s) W' (view s') →
  stream_ok W' s' ∧ advance W (view s) W' (view s') ∧ same_frames (view s) (view s').
Proof.
  intros [Hh Hk] Hl Hh' Hstep. destruct (write_step_ok _ _ _ _ Hk Hl Hstep) as [Hk' Ha].
  split_and!; [done|done|]. destruct Hstep as [E _ _ _ _ _ _ _ _ _ _]. rewrite E. by constructor.
Qed.

(** What a call of write has done, for the bytes [A] written before and its slice
    [p]; [s] is the state before. *)
Definition writer_ok (p : bytes) (w : Writer) (s : SendStream) : Prop :=
  wr_p w = p ∧ 0 ≤ wr_bytesWritten w ≤ len p ∧ st_writeOnce s = true ∧
  match wr_phase w with
  | Waiting => wr_bytesWritten w + len (default [] (st_dataForWriting s)) ≤ len p
  | _ => wr_bytesWritten w = len p ∧ (live (view s) → st_dataForWriting s = None)
  end.

(** The bytes of [p] that belong to the stream when the call returns [n].  When a
    reset or a shutdown cut it off, later bytes do not matter. *)
Definition accepted (s : SendStream) (n : Z) (p : bytes) : bytes :=
  if decide (live (view s)) then take (Z.to_nat n) p else p.

Definition write_done (A p : bytes) (s s' : SendStream) (res : WriteResult) : Prop :=
  same_frames (view s) (view s') ∧
  match res with
  | Returned n err =>
      0 ≤ n ≤ len p ∧ (err = None → n = len p) ∧ st_writeOnce s' = false ∧
      stream_ok (A ++ accepted s' n p) s' ∧
      advance (A ++ p) (view s) (A ++ accepted s' n p) (view s') ∧
      (live (view s') → st_dataForWriting s' = None)
  | Parked w =>
      stream_ok (A ++ p) s' ∧ advance (A ++ p) (view s) (A ++ p) (view s') ∧ writer_ok p w s'
  end.

Lemma writeEpilogue_spec p n s :
  ∃ err calls s', writeEpilogue p n s = Ret (Returned n err, calls, s') ∧ flags_only s s' ∧
    st_writeOnce s' = false ∧
    (err = None → n = len p ∨ (st_shutdownErr s = None ∧ st_resetErr s = None ∧ st_writeLimited s = false)).
Proof.
  unfold writeEpilogue, writeReturns.
  destruct (Z.eqb_spec n (len p)) as [->|]; [eexists _, _, _; split_and!; [done|flags_solve|done|auto]|].
  destruct (st_shutdownErr s) as [e|]; [by eexists _, _, _; split_and!; [done|flags_solve|done|]|].
  destruct (st_resetErr s) as [e|] eqn:Hr.
  - pose proof (isNewlyCompleted_flags (s <|st_cancellationFlagged := true|>)) as Hf.
    destruct (isNewlyCompleted _) as [c s1]. eexists _, _, _. split; [done|]. split; [|done].
    eapply flags_trans; [|eapply flags_trans; [exact Hf|flags_solve]]. flags_solve.
  - destruct (st_writeLimited s); eexists _, _, _; (split_and!; [done|flags_solve|done|by auto]).
Qed.

(** Parking leaves the data as it is. *)
Lemma writeParks_spec w n deadline phase s :
  ∃ calls s', writeParks w n deadline phase s =
      Ret (Parked (MkWriter (wr_p w) (wr_limiter w) n true deadline phase), calls, s') ∧ quiet s s'.
Proof. unfold writeParks. eexists _, _. split; [done|]. apply activated_quiet. Qed.

(** What is done when a state change is followed by flags. *)
Lemma done_after A p s s1 res s' W1 :
  advance (A ++ p) (view s) W1 (view s1) → same_frames (view s) (view s1) → stream_ok W1 s1 →
  flags_only s1 s' →
  match res with
  | Returned n err =>
      0 ≤ n ≤ len p ∧ (err = None → n = len p) ∧ st_writeOnce s' = false ∧
      W1 = A ++ accepted s' n p ∧ (live (view s') → st_dataForWriting s' = None)
  | Parked w => W1 = A ++ p ∧ writer_ok p w s'
  end →
  write_done A p s s' res.
Proof.
  intros Ha Hs Hok Hf Hres. destruct (flags_ok _ _ _ Hf Hok) as (Hok' & Ha' & Hs').
  split; [by eapply same_frames_trans|].
  assert (advance (A ++ p) (view s) W1 (view s')) as Ha2.
  { eapply advance_trans; [exact Ha|exact Ha'|]. by rewrite (sm_wo _ _ Hs). }
  destruct res as [n err|w].
  - destruct Hres as (?&?&?&<-&?). auto 10.
  - destruct Hres as (->&?). auto 10.
Qed.

Lemma live_flags s s' : flags_only s s' → (live (view s') ↔ live (view s)).
Proof.
  intros (E & _). injection E as E1 E2 E3 E4 E5 E6 E7 E8 E9 E10 E11 E12 E13 E14.
  unfold live, view. cbn [k_reset k_shut]. by rewrite E5, E6.
Qed.
Lemma dfw_flags s s' : flags_only s s' → st_dataForWriting s' = st_dataForWriting s.
Proof. intros (E & _). by injection E. Qed.

Lemma accepted_live s n p : live (view s) → accepted s n p = take (Z.to_nat n) p.
Proof. intros H. unfold accepted. by rewrite decide_True. Qed.
Lemma accepted_dead s n p : ¬ live (view s) → accepted s n p = p.
Proof. intros H. unfold accepted. by rewrite decide_False. Qed.
Lemma accepted_all s p : accepted s (len p) p = p.
Proof. unfold accepted. case_decide; [|done]. apply take_ge. unfold len. lia. Qed.

(** Giving up the blocked data, in a stream in any state. *)
Lemma abort_ok A p s :
  stream_ok (A ++ p) s → len (default [] (st_dataForWriting s)) ≤ len p →
  let n := len p - len (default [] (st_dataForWriting s)) in
  let s1 := s <|st_dataForWriting := None|> in
  stream_ok (A ++ accepted s n p) s1 ∧
  advance (A ++ p) (view s) (A ++ accepted s n p) (view s1) ∧ same_frames (view s) (view s1).
Proof.
  intros Hok Hle n s1. destruct (decide (live (view s))) as [Hl|Hl].
  - rewrite accepted_live by done. apply step_stream; [done|done|apply Hok|].
    apply (step_abort (A ++ p) (view s) (proj2 Hok) Hl A p); done.
  - rewrite accepted_dead by done. destruct Hok as [Hh Hk]. split_and!; [|by constructor|by constructor].
    split; [done|]. by apply (core_ok_dead _ (view s)).
Qed.

Section operations.
Context (append_cap : Z → Z → Z).

Lemma blocked_some s :
  (len (default [] (st_dataForWriting s)) >? 0) = true →
  ∃ d, st_dataForWriting s = Some d ∧ default [] (st_dataForWriting s) = d.
Proof. destruct (st_dataForWriting s) as [d|]; [by exists d|done]. Qed.

(** The data moves from the caller's slice into the buffer. *)
Lemma unblock_ok W s d :
  stream_ok W s → live (view s) → st_dataForWriting s = Some d →
  ∃ s1, appendWriteBuffer append_cap d s = Ret s1 ∧
    let s2 := s1 <|st_dataForWriting := None|> in
    stream_ok W s2 ∧ advance W (view s) W (view s2) ∧ same_frames (view s) (view s2) ∧
    live (view s2) ∧ st_writeOnce s2 = st_writeOnce s.
Proof.
  intros Hok Hl Hd. destruct (appendWriteBuffer_spec append_cap d s (proj1 Hok)) as (s1 & -> & Hh & Hv).
  exists s1. split; [done|]. intros s2.
  assert (view s2 = view s <|k_buf := k_buf (view s) ++ d|> <|k_dfw := None|>) as Hv2
    by (change (view s2) with (view s1 <|k_dfw := None|>); by rewrite Hv).
  destruct (step_stream W s W s2 Hok Hl Hh) as (?&?&?).
  { rewrite Hv2. by apply step_unblock; [apply Hok|..]. }
  split_and!; [done..| |].
  - unfold live. by rewrite Hv2.
  - apply (f_equal k_once) in Hv2. exact Hv2.
Qed.

(** The data moves from the caller's slice into the staged frame. *)
Lemma stage_ok W s d :
  stream_ok W s → live (view s) → st_dataForWriting s = Some d → canBufferStreamFrame s = true →
  ∃ f, (match st_nextFrame s with
        | None => pooledFrame s (st_writeOffset s) d
        | Some f => extendFrame f d
        end) = Ret f ∧
    let s2 := s <|st_nextFrame := Some f|> <|st_dataForWriting := None|> in
    stream_ok W s2 ∧ advance W (view s) W (view s2) ∧ same_frames (view s) (view s2) ∧
    live (view s2) ∧ st_writeOnce s2 = st_writeOnce s.
Proof.
  intros Hok Hl Hd Hcan. unfold canBufferStreamFrame in Hcan. rewrite Hd in Hcan. cbn [default from_option id] in Hcan.
  destruct (st_writeLimiter s || st_nextFrameReserved s) eqn:Hlr; [done|].
  apply orb_false_iff in Hlr as [_ Hres].
  destruct (Z.gtb_spec (bufferedWriteLen s) 0) as [|Hbuf]; [done|]. apply Z.leb_le in Hcan.
  rewrite bufferedWriteLen_eq in Hbuf by apply Hok. pose proof (len_nonneg (buffered s)).
  assert (k_buf (view s) = []) as Hb by (apply len_0_nil; change (k_buf (view s)) with (buffered s); lia).
  destruct Hok as [Hh Hk]. pose proof (ok_next _ _ Hk) as Hnx. pose proof (ok_dfw _ _ Hk) as Hne.
  change (k_dfw (view s)) with (st_dataForWriting s) in Hne. rewrite Hd in Hne.
  assert (d ≠ []) as Hdne by congruence.
  assert (∃ f, (match st_nextFrame s with None => pooledFrame s (st_writeOffset s) d
    | Some f => extendFrame f d end) = Ret f ∧ next_ok (st_streamID s) (st_writeOffset s) f ∧
    sf_Data f = next_data (view s) ++ d ∧ sf_fromPool f = true) as (f & -> & Hf & Hdata & Hpool).
  { unfold next_data. change (k_next (view s)) with (st_nextFrame s) in *.
    destruct (st_nextFrame s) as [f|] eqn:Hnf.
    - destruct (Hnx f eq_refl) as [[Hid Hoff Hlen Hdat Hcap Hpo] [Hr|Hfp]];
        [change (k_res (view s)) with (st_nextFrameReserved s) in Hr; congruence|].
      unfold StreamFrame_DataLen in Hcan. rewrite extendFrame_spec by (rewrite Hpo; [lia|done]).
      eexists. split; [done|]. split_and!; [|done|done].
      constructor; cbn; [done..| |rewrite len_app, Hpo by done; lia|done].
      intros [? ?]%app_eq_nil. done.
    - rewrite pooledFrame_spec by lia. eexists. split; [done|]. split_and!; [|done|done].
      by apply pooled_next_ok; [|lia]. }
  exists f. split; [done|]. intros s2.
  destruct (step_stream W s W s2) as (?&?&?); [by split|done|exact Hh| |].
  { by apply (step_stage W (view s) Hk Hl d f). }
  auto.
Qed.

Lemma grow_flags n s : flags_only s (growWriteBufferFor n s).2.
Proof. apply quiet_flags, growWriteBuffer_quiet. Qed.

(** The rounds of the loop, by where they end. *)
Section round.
Context (A p : bytes) (w : Writer) (s : SendStream).
Context (Hp : wr_p w = p).

(** [s] has become [s2] and the call gives up the mutex. *)
Lemma parks_done s2 n deadline phase :
  advance (A ++ p) (view s) (A ++ p) (view s2) → same_frames (view s) (view s2) →
  stream_ok (A ++ p) s2 → st_writeOnce s2 = true → 0 ≤ n ≤ len p →
  match phase with
  | Waiting => n + len (default [] (st_dataForWriting s2)) ≤ len p
  | _ => n = len p ∧ st_dataForWriting s2 = None
  end →
  ∃ res calls s', writeParks w n deadline phase s2 = Ret (res, calls, s') ∧ write_done A p s s' res.
Proof.
  intros Ha Hs Hok Ho Hn Hph. destruct (writeParks_spec w n deadline phase s2) as (calls & s' & -> & Hq).
  eexists _, _, _. split; [done|]. pose proof (quiet_flags _ _ Hq) as Hf.
  eapply done_after; [exact Ha|exact Hs|exact Hok|exact Hf|]. split; [done|].
  unfold writer_ok. cbn [wr_p wr_bytesWritten wr_phase]. rewrite (dfw_flags _ _ Hf).
  destruct Hq as [Hq _]. apply (f_equal k_once) in Hq. unfold view in Hq. cbn [k_once] in Hq.
  split_and!; [done|lia|lia|congruence|]. destruct phase; tauto.
Qed.

(** The call ends with the blocked data given up. *)
Lemma limited_done :
  stream_ok (A ++ p) s → len (default [] (st_dataForWriting s)) ≤ len p → st_writeLimited s = true →
  ∃ res calls s', writeEpilogue p (len p - len (default [] (st_dataForWriting s)))
      (s <|st_dataForWriting := None|>) = Ret (res, calls, s') ∧ write_done A p s s' res.
Proof.
  intros Hok Hw Hlim. pose proof (len_nonneg (default [] (st_dataForWriting s))) as Hdn.
  destruct (abort_ok A p s Hok Hw) as (Hok1 & Ha1 & Hs1).
  destruct (writeEpilogue_spec p (len p - len (default [] (st_dataForWriting s)))
    (s <|st_dataForWriting := None|>)) as (err & calls & s' & -> & Hf & Ho & Herr).
  eexists _, _, _. split; [done|]. eapply done_after; [exact Ha1|exact Hs1|exact Hok1|exact Hf|].
  split_and!; [lia|lia| |done| |].
  - intros E. destruct (Herr E) as [?|(_&_&?)]; [done|]. upd. congruence.
  - unfold accepted. pose proof (live_flags _ _ Hf) as Hlf.
    change (live (view s') ↔ live (view s)) in Hlf. repeat case_decide; tauto.
  - intros _. by rewrite (dfw_flags _ _ Hf).
Qed.

Lemma dead_done :
  stream_ok (A ++ p) s → 0 ≤ wr_bytesWritten w ≤ len p →
  bool_decide (is_Some (st_shutdownErr s)) || bool_decide (is_Some (st_resetErr s)) = true →
  ∃ res calls s', writeEpilogue p (wr_bytesWritten w) s = Ret (res, calls, s') ∧ write_done A p s s' res.
Proof.
  intros Hok Hbw Hdead. assert (¬ live (view s)) as Hl.
  { intros [Hr Hs]. change (st_resetErr s = None) in Hr. change (st_shutdownErr s = None) in Hs.
    by rewrite Hr, Hs in Hdead. }
  destruct (writeEpilogue_spec p (wr_bytesWritten w) s) as (err & calls & s' & -> & Hf & Ho & Herr).
  eexists _, _, _. split; [done|]. eapply done_after;
    [apply advance_refl|apply same_frames_refl|exact Hok|exact Hf|].
  rewrite accepted_dead by (by rewrite (live_flags _ _ Hf)).
  split_and!; [lia|lia| |done|done|by rewrite (live_flags _ _ Hf)].
  intros E. destruct (Herr E) as [?|(Hs&Hr&_)]; [done|]. by rewrite Hs, Hr in Hdead.
Qed.

(** Nothing is blocked any more: the call returns. *)
Lemma drained_done :
  stream_ok (A ++ p) s → st_dataForWriting s = None →
  ∃ res calls s', writeEpilogue p (len p) s = Ret (res, calls, s') ∧ write_done A p s s' res.
Proof.
  intros Hok Hnone. destruct (writeEpilogue_spec p (len p) s) as (err & calls & s' & -> & Hf & Ho & Herr).
  eexists _, _, _. split; [done|]. eapply done_after;
    [apply advance_refl|apply same_frames_refl|exact Hok|exact Hf|].
  rewrite accepted_all. pose proof (len_nonneg p). split_and!; [lia|lia|done|done|done|].
  intros _. by rewrite (dfw_flags _ _ Hf).
Qed.

Lemma deadline_done :
  stream_ok (A ++ p) s → len (default [] (st_dataForWriting s)) ≤ len p → live (view s) →
  ∃ res calls s', writeReturns (len p - len (default [] (st_dataForWriting s))) (Some DeadlineExceeded) []
      (s <|st_dataForWriting := None|>) = Ret (res, calls, s') ∧ write_done A p s s' res.
Proof.
  intros Hok Hw Hl. pose proof (len_nonneg (default [] (st_dataForWriting s))) as Hdn.
  destruct (abort_ok A p s Hok Hw) as (Hok2 & Ha2 & Hs2). unfold writeReturns. eexists _, _, _.
  split; [done|]. rewrite accepted_live in Ha2, Hok2 by done.
  eapply done_after; [exact Ha2|exact Hs2|exact Hok2|flags_solve|].
  split_and!; [lia|lia|done|done|by rewrite accepted_live|done].
Qed.
End round.

(** What a call did after the flags of [s] changed. *)
Lemma done_before A p s s1 s' res W :
  flags_only s s1 → stream_ok W s → write_done A p s1 s' res → W = A ++ p → write_done A p s s' res.
Proof.
  intros Hf Hok [Hs Hres] ->. destruct (flags_ok _ _ _ Hf Hok) as (_ & Ha1 & Hs1).
  split; [by eapply same_frames_trans|].
  assert (∀ V, advance (A ++ p) (view s1) V (view s') → advance (A ++ p) (view s) V (view s')) as Htr.
  { intros V Ha. eapply advance_trans; [exact Ha1|exact Ha|]. by rewrite (sm_wo _ _ Hs1). }
  destruct res as [n err|w]; [destruct Hres as (?&?&?&?&?&?)|destruct Hres as (?&?&?)]; auto 10.
Qed.

Lemma writeRound_spec now w A p s :
  stream_ok (A ++ p) s → writer_ok p w s → wr_phase w = Waiting →
  ∃ res calls s', writeRound append_cap now w s = Ret (res, calls, s') ∧ write_done A p s s' res.
Proof.
  intros Hok (Hp & Hbw & Honce & Hw) Hph. rewrite Hph in Hw.
  assert (len (default [] (st_dataForWriting s)) ≤ len p) as Hlen by lia. unfold writeRound. rewrite Hp.
  pose proof (len_nonneg (default [] (st_dataForWriting s))) as Hdn.
  destruct (st_writeLimited s) eqn:Hlim; [by apply limited_done|].
  destruct (_ || _) eqn:Hdead; [by apply dead_done|].
  apply orb_false_iff in Hdead as [Hs%bool_decide_eq_false Hr%bool_decide_eq_false].
  apply eq_None_not_Some in Hs, Hr. assert (live (view s)) as Hl by done.
  set (g := if (_ : bool) then growWriteBufferFor _ s else (false, s)).
  assert (flags_only s g.2 ∧ (g.1 = true → (len (default [] (st_dataForWriting s)) >? 0) = true) ∧
    st_writeOnce g.2 = true ∧ st_shutdownErr g.2 = None ∧ st_resetErr g.2 = None)
    as (Hg & Hgt & Hgo & Hgs & Hgr).
  { subst g. destruct (negb _ && _ && (_ >? _) && _) eqn:Hc; [|done].
    split_and!; [apply grow_flags| |done|done|done]. intros _.
    by apply andb_true_iff in Hc as [[_ ?]%andb_true_iff _]. }
  destruct g as [fits s1]. cbn [fst snd] in *.
  destruct (flags_ok _ _ _ Hg Hok) as (Hok1 & _ & _). rewrite <-(dfw_flags _ _ Hg) in *.
  assert (live (view s1)) as Hl1 by done.
  assert (∀ m, (∃ res calls s', m = Ret (res, calls, s') ∧ write_done A p s1 s' res) →
    ∃ res calls s', (m : outcome FrameError (WriteResult * list SenderCall * SendStream)) =
      Ret (res, calls, s') ∧ write_done A p s s' res) as Hback.
  { intros m (res & calls & s' & -> & Hd). eexists _, _, _. split; [done|]. by eapply done_before. }
  destruct fits.
  { destruct (blocked_some s1 (Hgt eq_refl)) as (d & Hd & ->).
    destruct (unblock_ok (A ++ p) s1 d Hok1 Hl1 Hd) as (s2 & -> & Hok2 & Ha2 & Hs2 & Hl2 & Ho2).
    apply Hback, parks_done; try done; [congruence|lia]. }
  destruct (canBufferStreamFrame s1 && _) eqn:Hcan.
  { apply andb_true_iff in Hcan as [Hcan Hgt0]. destruct (blocked_some s1 Hgt0) as (d & Hd & ->).
    destruct (stage_ok (A ++ p) s1 d Hok1 Hl1 Hd Hcan) as (f & -> & Hok2 & Ha2 & Hs2 & Hl2 & Ho2).
    apply Hback, parks_done; try done. lia. }
  apply Hback. destruct (negb _ && negb _); [by apply deadline_done|].
  rewrite Hgs, Hgr, !(bool_decide_eq_false_2 (is_Some None)) by (by intros []). rewrite !orb_false_r.
  destruct (bool_decide (st_dataForWriting s1 = None)) eqn:Hnone.
  - apply bool_decide_eq_true in Hnone. rewrite Hnone. cbn [default from_option id].
    change (len (A:=Z) []) with 0. rewrite Z.sub_0_r. by apply drained_done.
  - apply parks_done; try done; lia.
Qed.

(** A call that gets the mutex again. *)
Lemma writeResumes_spec now w A p s :
  stream_ok (A ++ p) s → writer_ok p w s →
  ∃ res calls s', writeResumes append_cap now w s = Ret (res, calls, s') ∧ write_done A p s s' res.
Proof.
  intros Hok Hw. unfold writeResumes. destruct (wr_phase w) eqn:Hph; [..|by eapply writeRound_spec].
  - destruct Hw as (Hp & Hbw & Ho & Hw). rewrite Hph in Hw. destruct Hw as [Hn Hd].
    unfold writeReturns. eexists _, _, _. split; [done|].
    eapply done_after; [apply advance_refl|apply same_frames_refl|exact Hok|flags_solve|].
    rewrite Hn, accepted_all. pose proof (len_nonneg p). split_and!; [lia|lia|done|done|done|done].
  - destruct Hw as (Hp & Hbw & Ho & Hw). rewrite Hph in Hw. destruct Hw as [Hn Hd]. rewrite Hp, Hn.
    destruct (writeEpilogue_spec p (len p) s) as (err & calls & s' & -> & Hf & Ho' & Herr).
    eexists _, _, _. split; [done|].
    eapply done_after; [apply advance_refl|apply same_frames_refl|exact Hok|exact Hf|].
    rewrite accepted_all. pose proof (len_nonneg p). split_and!; [lia|lia|done|done|done|].
    intros Hl. rewrite (dfw_flags _ _ Hf). apply Hd. by rewrite <-(live_flags _ _ Hf).
Qed.

(** What a call did that started with the bytes [A] written; a stream that is not
    live refuses it. *)
Definition write_begun (A p : bytes) (s s' : SendStream) (res : WriteResult) : Prop :=
  same_frames (view s) (view s') ∧
  match res with
  | Returned n err =>
      0 ≤ n ≤ len p ∧ (err = None → n = len p) ∧ st_writeOnce s' = false ∧
      stream_ok (A ++ take (Z.to_nat n) p) s' ∧
      advance A (view s) (A ++ take (Z.to_nat n) p) (view s') ∧
      st_dataForWriting s' = st_dataForWriting s
  | Parked w =>
      stream_ok (A ++ p) s' ∧ advance A (view s) (A ++ p) (view s') ∧ writer_ok p w s' ∧
      live (view s)
  end.

Lemma refused_begun A p s s' n calls err :
  stream_ok A s → flags_only s s' → st_writeOnce s' = false → n = 0 → (err = None → len p = 0) →
  ∃ res cs s1, Ret (Returned n err, calls, s') =
      (Ret (res, cs, s1) : outcome FrameError (WriteResult * list SenderCall * SendStream)) ∧
    write_begun A p s s1 res.
Proof.
  intros Hok Hf Ho -> Herr. eexists _, _, _. split; [done|].
  destruct (flags_ok _ _ _ Hf Hok) as (Hok' & Ha & Hs). split; [done|].
  change (take (Z.to_nat 0) p) with (@nil Z). rewrite app_nil_r. pose proof (len_nonneg p).
  split_and!; [lia|lia| |done|done|done|]. { intros E. specialize (Herr E). lia. }
  by apply dfw_flags.
Qed.

Lemma writeRefused_none s :
  st_resetErr s = None → writeRefused s = None → live (view s) ∧ st_finishedWriting s = false.
Proof.
  unfold writeRefused, live. change (k_reset (view s)) with (st_resetErr s).
  change (k_shut (view s)) with (st_shutdownErr s). intros ->.
  destruct (st_shutdownErr s); [done|]. by destruct (st_finishedWriting s).
Qed.

Lemma open_not_fin W s : stream_ok W s → st_finishedWriting s = false → st_finSent s = false.
Proof.
  intros [_ Hk] Hf. destruct (st_finSent s) eqn:E; [|done].
  destruct (ok_fin _ _ Hk E) as [Hc _]. change (st_finishedWriting s = true) in Hc. congruence.
Qed.

(** The bytes go into the buffer. *)
Lemma buffer_ok A p s :
  stream_ok A s → live (view s) → st_dataForWriting s = None → st_finishedWriting s = false →
  Forall is_byte p →
  ∃ s1, appendWriteBuffer append_cap p s = Ret s1 ∧ stream_ok (A ++ p) s1 ∧
    advance A (view s) (A ++ p) (view s1) ∧ same_frames (view s) (view s1) ∧ live (view s1) ∧
    st_writeOnce s1 = st_writeOnce s ∧ st_dataForWriting s1 = None.
Proof.
  intros Hok Hl Hd Hfin Hp. destruct (appendWriteBuffer_spec append_cap p s (proj1 Hok)) as (s1 & -> & Hh & Hv).
  exists s1. split; [done|].
  destruct (step_stream A s (A ++ p) s1 Hok Hl Hh) as (?&?&?).
  { rewrite Hv. apply step_buffer; [apply Hok|done|done|by eapply open_not_fin|done]. }
  split_and!; [done..| | |].
  - unfold live. by rewrite Hv.
  - by apply (f_equal k_once) in Hv.
  - apply (f_equal k_dfw) in Hv. etrans; [exact Hv|]. exact Hd.
Qed.

(** The bytes stay in the caller's slice. *)
Lemma block_ok A p s :
  stream_ok A s → live (view s) → st_dataForWriting s = None → st_finishedWriting s = false →
  Forall is_byte p → p ≠ [] →
  let s1 := s <|st_dataForWriting := Some p|> in
  stream_ok (A ++ p) s1 ∧ advance A (view s) (A ++ p) (view s1) ∧ same_frames (view s) (view s1).
Proof.
  intros Hok Hl Hd Hfin Hp Hne s1. apply step_stream; [done|done|apply Hok|].
  apply (step_block A (view s)); [apply Hok|done|done|by eapply open_not_fin|done|done].
Qed.

(** A state change followed by flags, for a call that begins. *)
Lemma begun_after A p s s1 res s' W1 :
  advance A (view s) W1 (view s1) → same_frames (view s) (view s1) → stream_ok W1 s1 →
  flags_only s1 s' →
  match res with
  | Returned n err =>
      0 ≤ n ≤ len p ∧ (err = None → n = len p) ∧ st_writeOnce s' = false ∧
      W1 = A ++ take (Z.to_nat n) p ∧ st_dataForWriting s' = st_dataForWriting s
  | Parked w => W1 = A ++ p ∧ writer_ok p w s' ∧ live (view s)
  end →
  write_begun A p s s' res.
Proof.
  intros Ha Hs Hok Hf Hres. destruct (flags_ok _ _ _ Hf Hok) as (Hok' & Ha' & Hs').
  split; [by eapply same_frames_trans|].
  assert (advance A (view s) W1 (view s')) as Ha2.
  { eapply advance_trans; [exact Ha|exact Ha'|]. by rewrite (sm_wo _ _ Hs). }
  destruct res as [n err|w].
  - destruct Hres as (?&?&?&<-&?). auto 10.
  - destruct Hres as (->&?&?). auto 10.
Qed.

(** A call that begins by blocking its data and continues with a round. *)
Lemma begun_done A p s s1 s' res :
  advance A (view s) (A ++ p) (view s1) → same_frames (view s) (view s1) → live (view s) →
  st_dataForWriting s = None → write_done A p s1 s' res → write_begun A p s s' res.
Proof.
  intros Ha Hs Hl Hd [Hs' Hres]. split; [by eapply same_frames_trans|].
  assert (∀ V, advance (A ++ p) (view s1) V (view s') → advance A (view s) V (view s')) as Htr.
  { intros V Ha'. eapply advance_trans; [exact Ha|exact Ha'|]. by rewrite (sm_wo _ _ Hs). }
  assert (live (view s')) as Hl'.
  { destruct Hl. split; [rewrite (sm_reset _ _ Hs'), (sm_reset _ _ Hs)|rewrite (sm_shut _ _ Hs'), (sm_shut _ _ Hs)]; done. }
  destruct res as [n err|w].
  - destruct Hres as (?&?&?&Hok&Ha'&?). rewrite accepted_live in Hok, Ha' by done.
    split_and!; [lia|lia|done|done|done|auto|]. rewrite Hd. auto.
  - destruct Hres as (?&?&?). auto.
Qed.

Lemma buffered_begun now A p s s1 limiter :
  stream_ok (A ++ p) s1 → advance A (view s) (A ++ p) (view s1) → same_frames (view s) (view s1) →
  live (view s) → st_dataForWriting s = None → st_dataForWriting s1 = None → st_writeOnce s1 = true →
  ∃ res calls s',
    (let s1 := noteBufferedWriteLocked s1 in
     if st_active s1 then writeReturns (len p) None [] s1
     else
       let '(activate, s1) := activateOrDelayLocked now s1 in
       if negb activate then writeReturns (len p) None [] s1
       else Ret (Parked (MkWriter p limiter (len p) true 0 Buffered), [onHasStreamData], s1)) =
      Ret (res, calls, s') ∧ write_begun A p s s' res.
Proof.
  intros Hok Ha Hs Hl Hd Hd1 Ho. cbv zeta. pose proof (noteBufferedWrite_quiet s1) as Hq.
  set (s2 := noteBufferedWriteLocked s1) in *. pose proof (len_nonneg p).
  assert (take (Z.to_nat (len p)) p = p) as Htake by (apply take_ge; unfold len; lia).
  assert (∀ s3 calls, quiet s1 s3 → ∃ res cs s',
    writeReturns (len p) None calls s3 = Ret (res, cs, s') ∧ write_begun A p s s' res) as Hret.
  { intros s3 calls Hq3. unfold writeReturns. eexists _, _, _. split; [done|].
    eapply begun_after; [exact Ha|exact Hs|exact Hok|
      eapply flags_trans; [apply quiet_flags, Hq3|flags_solve]|].
    rewrite Htake. split_and!; [lia|lia|done|done|done|].
    change (st_dataForWriting s3 = st_dataForWriting s).
    by rewrite (dfw_flags _ _ (quiet_flags _ _ Hq3)), Hd1, Hd. }
  destruct (st_active s2); [by apply Hret|].
  pose proof (activateOrDelay_quiet now s2) as Hq2. destruct (activateOrDelayLocked now s2) as [activate s3].
  cbn [snd] in Hq2. pose proof (quiet_then _ _ _ Hq Hq2) as Hq3.
  destruct (negb activate); [by apply Hret|]. eexists _, _, _. split; [done|].
  eapply begun_after; [exact Ha|exact Hs|exact Hok|apply quiet_flags, Hq3|].
  split; [done|]. split; [|done]. unfold writer_ok. cbn [wr_p wr_bytesWritten wr_phase].
  rewrite (dfw_flags _ _ (quiet_flags _ _ Hq3)). destruct Hq3 as [Hq3 _].
  apply (f_equal k_once) in Hq3. unfold view in Hq3. cbn [k_once] in Hq3.
  split_and!; [done|lia|lia|congruence|done|done].
Qed.

Lemma write_spec now A p limiter s :
  stream_ok A s → (live (view s) → st_dataForWriting s = None) → st_writeOnce s = true →
  Forall is_byte p →
  ∃ res calls s', write append_cap now p limiter s = Ret (res, calls, s') ∧ write_begun A p s s' res.
Proof.
  intros Hok Hd Ho Hp. unfold write.
  set (s0 := s <|st_writeLimiter := limiter|> <|st_writeLimited := false|>).
  assert (flags_only s s0) as Hf0 by flags_solve.
  destruct (flags_ok _ _ _ Hf0 Hok) as (Hok0 & Ha0 & Hs0).
  destruct (st_resetErr s0) as [e|] eqn:Hr.
  { pose proof (isNewlyCompleted_flags (s0 <|st_cancellationFlagged := true|>)) as Hc.
    destruct (isNewlyCompleted _) as [c s1]. unfold writeReturns.
    apply refused_begun; [done| |done|done|done].
    eapply flags_trans; [exact Hf0|]. eapply flags_trans; [|eapply flags_trans; [exact Hc|flags_solve]].
    flags_solve. }
  assert (∀ n err calls, n = 0 → (err = None → len p = 0) → ∃ res cs s',
    writeReturns n err calls s0 = Ret (res, cs, s') ∧ write_begun A p s s' res) as Href.
  { intros n err calls Hn Herr. unfold writeReturns. apply refused_begun; [done|flags_solve|done|done|done]. }
  destruct (writeRefused s0) as [e|] eqn:Hwr; [by apply Href|].
  destruct (writeRefused_none s0 Hr Hwr) as [Hl Hfin].
  change (live (view s)) in Hl. specialize (Hd Hl).
  destruct (negb _ && negb _); [by apply Href|].
  destruct (Z.eqb_spec (len p) 0) as [|Hne]; [by apply Href|].
  assert (p ≠ []) as Hpne by (intros ->; done).
  set (g := if (_ : bool) then growWriteBufferFor _ s0 else (false, s0)).
  assert (flags_only s0 g.2 ∧ st_writeOnce g.2 = true ∧ st_finishedWriting g.2 = false) as (Hg & Hgo & Hgf).
  { subst g. destruct (negb _ && _ && _); [|done]. split; [apply grow_flags|done]. }
  destruct g as [fits s1]. cbn [fst snd] in *. pose proof (flags_trans _ _ _ Hf0 Hg) as Hf1.
  destruct (flags_ok _ _ _ Hf1 Hok) as (Hok1 & Ha1 & Hs1).
  assert (live (view s1)) as Hl1 by (by apply (live_flags _ _ Hf1)).
  assert (st_dataForWriting s1 = None) as Hd1 by (by rewrite (dfw_flags _ _ Hf1)).
  assert (∀ V s2, advance A (view s1) V (view s2) → same_frames (view s1) (view s2) →
    advance A (view s) V (view s2) ∧ same_frames (view s) (view s2)) as Htr.
  { intros V s2 Ha2 Hs2. split; [|by eapply same_frames_trans].
    eapply advance_trans; [exact Ha1|exact Ha2|]. by rewrite (sm_wo _ _ Hs1). }
  destruct fits.
  - destruct (buffer_ok A p s1) as (s2 & -> & Hok2 & Ha2 & Hs2 & Hl2 & Ho2 & Hd2); [done..|].
    destruct (Htr _ _ Ha2 Hs2). cbn [mbind outcome_bind]. apply buffered_begun; try done. congruence.
  - destruct (block_ok A p s1) as (Hok2 & Ha2 & Hs2); [done..|]. destruct (Htr _ _ Ha2 Hs2).
    destruct (writeRound_spec now (MkWriter p limiter 0 false 0 Waiting) A p
      (s1 <|st_dataForWriting := Some p|>)) as (res & calls & s' & -> & Hdone); [done| |done|].
    { pose proof (len_nonneg p). unfold writer_ok. cbn. split_and!; [done|lia|lia|done|upd; cbn; lia]. }
    eexists _, _, _. split; [done|]. by eapply begun_done.
Qed.

(** The fast path either takes all of [p] or leaves the data alone. *)
Lemma writeFast_spec A p limiter s :
  stream_ok A s → Forall is_byte p →
  ∃ taken s', writeFast append_cap p limiter s = Ret (taken, s') ∧
    st_writeOnce s' = st_writeOnce s ∧
    if (taken : bool) then
      stream_ok (A ++ p) s' ∧ advance A (view s) (A ++ p) (view s') ∧ same_frames (view s) (view s') ∧
      st_dataForWriting s' = st_dataForWriting s
    else flags_only s s'.
Proof.
  intros Hok Hp. unfold writeFast.
  destruct (limiter || _ || _); [by exists false, s|].
  destruct (_ || negb (st_deadline s =? 0)) eqn:Hc; [by exists false, s|].
  repeat (apply orb_false_iff in Hc as [Hc ?]).
  repeat match goal with H : bool_decide (is_Some _) = false |- _ =>
    apply bool_decide_eq_false in H; apply eq_None_not_Some in H end.
  pose proof (grow_flags (len p) s) as Hg.
  assert (st_writeOnce (growWriteBufferFor (len p) s).2 = st_writeOnce s) as Hgo by done.
  destruct (growWriteBufferFor (len p) s) as [ok s1] eqn:E. cbn [snd] in *.
  destruct ok; [|by exists false, s1].
  destruct (flags_ok _ _ _ Hg Hok) as (Hok1 & Ha1 & Hs1).
  assert (live (view s1)) as Hl1 by (by apply (live_flags _ _ Hg)).
  assert (st_dataForWriting s1 = None) as Hd1 by (by rewrite (dfw_flags _ _ Hg)).
  assert (st_finishedWriting s1 = false) as Hf1 by (injection E as _ <-; done).
  destruct (buffer_ok A p s1) as (s2 & -> & Hok2 & Ha2 & Hs2 & Hl2 & Ho2 & Hd2); [done..|].
  cbn [negb mbind outcome_bind]. eexists true, _. split; [done|].
  pose proof (noteBufferedWrite_quiet s2) as Hq. pose proof (quiet_flags _ _ Hq) as Hf.
  destruct (flags_ok _ _ _ Hf Hok2) as (Hok3 & Ha3 & Hs3). split_and!.
  - destruct Hq as [Hq _]. apply (f_equal k_once) in Hq. unfold view in Hq. cbn [k_once] in Hq. congruence.
  - done.
  - eapply advance_trans; [exact Ha1| |by rewrite (sm_wo _ _ Hs1)].
    eapply advance_trans; [exact Ha2|exact Ha3|by rewrite (sm_wo _ _ Hs2)].
  - eapply same_frames_trans; [exact Hs1|]. by eapply same_frames_trans.
  - rewrite (dfw_flags _ _ Hf). congruence.
Qed.

Lemma WriteWithLimit_spec now A p limiter s :
  stream_ok A s → (live (view s) → st_dataForWriting s = None) → st_writeOnce s = false →
  Forall is_byte p →
  ∃ res calls s', WriteWithLimit append_cap now p limiter s = Ret (res, calls, s') ∧
    write_begun A p s s' res.
Proof.
  intros Hok Hd Ho Hp. unfold WriteWithLimit. pose proof (len_nonneg p).
  destruct (writeFast_spec A p limiter s Hok Hp) as ([] & s1 & -> & Ho1 & H1); cbn [mbind outcome_bind].
  - destruct H1 as (?&?&?&?). eexists _, _, _. split; [done|]. split; [done|].
    rewrite (take_ge p) by (unfold len; lia). split_and!; [lia|lia|done|congruence|done|done|done].
  - assert (flags_only s (s1 <|st_writeOnce := true|>)) as Hf by (eapply flags_trans; [exact H1|flags_solve]).
    destruct (flags_ok _ _ _ Hf Hok) as (Hok1 & Ha1 & Hs1).
    destruct (write_spec now A p limiter (s1 <|st_writeOnce := true|>)) as (res & calls & s' & -> & Hb);
      [done| |done|done|].
    { intros Hl. rewrite (dfw_flags _ _ Hf). apply Hd. by apply (live_flags _ _ Hf). }
    eexists _, _, _. split; [done|]. destruct Hb as [Hs2 Hres]. split; [by eapply same_frames_trans|].
    assert (∀ V, advance A (view (s1 <|st_writeOnce := true|>)) V (view s') → advance A (view s) V (view s'))
      as Htr by (intros V Ha2; eapply advance_trans; [exact Ha1|exact Ha2|by rewrite (sm_wo _ _ Hs1)]).
    destruct res as [n err|w].
    + destruct Hres as (?&?&?&?&?&E). split_and!; [lia|lia|done|done|done|auto|].
      rewrite E. by apply dfw_flags.
    + destruct Hres as (?&?&?&Hl). split_and!; [done|auto|done|]. by apply (live_flags _ _ Hf).
Qed.

(** TryWriteAll takes all of [p], with credit for it, or nothing. *)
Definition tried (A p : bytes) (s s' : SendStream) (c' : connectionFlowController)
    (completed : bool) (err : option WriteError) : Prop :=
  same_frames (view s) (view s') ∧ conn_range c' ∧ st_writeOnce s' = st_writeOnce s ∧
  st_dataForWriting s' = st_dataForWriting s ∧ (completed = true → is_Some (st_resetErr s)) ∧
  let W' := match err with None => A ++ p | Some _ => A end in
  stream_ok W' s' ∧ advance A (view s) W' (view s').

Lemma tried_nothing A p s s' c comp err :
  flags_only s s' → stream_ok A s → conn_range c → st_writeOnce s' = st_writeOnce s →
  (comp = true → is_Some (st_resetErr s)) → (err = None → p = []) →
  tried A p s s' c comp err.
Proof.
  intros Hf Hok Hc Ho Hcomp Herr. destruct (flags_ok _ _ _ Hf Hok) as (?&?&?).
  assert ((match err with None => A ++ p | Some _ => A end) = A) as E.
  { destruct err; [done|]. by rewrite Herr, app_nil_r. }
  unfold tried. rewrite E. split_and!; try done. by apply dfw_flags.
Qed.

(** The staged frame with [p] added, in a larger buffer if need be. *)
Lemma stage_reserved A s p :
  stream_ok A s → p ≠ [] →
  ∃ f, (f ← match st_nextFrame s with
            | Some f => Ret f
            | None => pooledFrame s (st_writeOffset s) []
            end;
        if len (sf_Data f) + len p >? sf_cap f then
          _ ← StreamFrame_PutBack f;
          Ret (MkStreamFrame (st_streamID s) (sf_Offset f) (sf_Data f ++ p) (len (sf_Data f) + len p)
                 false true false)
        else extendFrame f p) = Ret f ∧
    next_ok (st_streamID s) (st_writeOffset s) f ∧ sf_Data f = next_data (view s) ++ p.
Proof.
  intros [Hh Hk] Hp. assert (∃ f, (match st_nextFrame s with Some f => Ret f
    | None => pooledFrame s (st_writeOffset s) [] end) = Ret f ∧
    sf_StreamID f = st_streamID s ∧ sf_Offset f = st_writeOffset s ∧ sf_DataLenPresent f = true ∧
    sf_Data f = next_data (view s) ∧ pool_ok f) as (f & -> & Hid & Hoff & Hlen & Hdata & Hpool).
  { unfold next_data. pose proof (ok_next _ _ Hk) as Hn. change (k_next (view s)) with (st_nextFrame s) in *.
    destruct (st_nextFrame s) as [f|].
    - destruct (Hn f eq_refl) as [[] _]. by exists f.
    - rewrite pooledFrame_spec by done. by eexists. }
  cbn [mbind outcome_bind]. pose proof (len_nonneg p).
  destruct (Z.gtb_spec (len (sf_Data f) + len p) (sf_cap f)).
  - rewrite PutBack_ok by done. cbn [mbind outcome_bind]. eexists. split; [done|].
    split; [|by rewrite <-Hdata]. constructor; cbn; [done|done|done| |by rewrite len_app|done].
    intros [_ ?]%app_eq_nil. done.
  - rewrite extendFrame_spec by done. eexists. split; [done|]. split; [|by rewrite <-Hdata].
    constructor; cbn; [done|done|done| |by rewrite len_app|done]. intros [_ ?]%app_eq_nil. done.
Qed.

Lemma tryWriteAll_spec A p s c :
  stream_ok A s → (live (view s) → st_dataForWriting s = None) → Forall is_byte p → conn_range c →
  ∃ completed hasData err s' c', tryWriteAll p s c = Ret (completed, hasData, err, s', c') ∧
    tried A p s s' c' completed err.
Proof.
  intros Hok Hd Hp Hc. unfold tryWriteAll.
  destruct (st_resetErr s) as [e|] eqn:Hr.
  { pose proof (isNewlyCompleted_flags (s <|st_cancellationFlagged := true|>)) as Hf.
    assert (st_writeOnce (isNewlyCompleted (s <|st_cancellationFlagged := true|>)).2 = st_writeOnce s) as Ho.
    { unfold isNewlyCompleted. repeat (case_match || destruct (_ || _) || destruct (_ && _)); done. }
    destruct (isNewlyCompleted _) as [comp s1]. eexists _, _, _, _, _. split; [done|].
    by apply tried_nothing. }
  destruct (writeRefused s) as [e|] eqn:Hwr.
  { eexists _, _, _, _, _. split; [done|]. by apply tried_nothing. }
  destruct (writeRefused_none s Hr Hwr) as [Hl Hfin]. specialize (Hd Hl).
  destruct (Z.eqb_spec (len p) 0) as [Hp0|Hp0].
  { eexists _, _, _, _, _. split; [done|]. apply tried_nothing; try done. intros _. by apply len_0_nil. }
  destruct (Z.gtb_spec (bufferedWriteLen s) 0) as [|Hbuf].
  { eexists _, _, _, _, _. split; [done|]. by apply tried_nothing. }
  assert (k_buf (view s) = []) as Hb.
  { rewrite bufferedWriteLen_eq in Hbuf by apply Hok. apply len_0_nil.
    pose proof (len_nonneg (buffered s)). change (k_buf (view s)) with (buffered s). lia. }
  set (n := match st_nextFrame s with Some f => _ | None => len p end).
  pose proof (proj2 Hok) as Hk. pose proof (len_nonneg p) as Hp1.
  assert (n = len (next_data (view s) ++ p) - reserved (view s)) as Hn.
  { rewrite len_app. subst n. unfold reserved, next_data, StreamFrame_DataLen.
    change (k_next (view s)) with (st_nextFrame s). change (k_res (view s)) with (st_nextFrameReserved s).
    destruct (st_nextFrame s) as [f|] eqn:Hnf.
    - destruct (st_nextFrameReserved s); cbn [negb]; lia.
    - destruct (st_nextFrameReserved s) eqn:Hres; [|change (len (A:=Z) []) with 0; lia].
      destruct (ok_res _ _ Hk Hres) as [? Hx]. change (k_next (view s)) with (st_nextFrame s) in Hx. congruence. }
  assert (0 ≤ n) as Hn0.
  { rewrite Hn, len_app. unfold reserved. pose proof (len_nonneg (next_data (view s))).
    destruct (k_res (view s)); lia. }
  pose proof (core_fc_range _ _ Hk) as Hfc. change (k_fc (view s)) with (st_flowController s) in Hfc.
  pose proof (send_credit_spec n (st_flowController s) c Hfc Hc (or_introl Hn0)) as Hcr.
  destruct (TryAddBytesSent n (st_flowController s) c) as [[ok fc] c'].
  destruct Hcr as [Hc' Hcr]. destruct ok; cbn [negb].
  2: { subst fc. eexists _, _, _, _, _. split; [done|]. by apply tried_nothing. }
  destruct Hcr as (Hfr & Hsent & Hwin & _).
  set (s1 := s <|st_flowController := fc|>).
  destruct (stage_reserved A s p Hok) as (f & Ef & Hf & Hdata); [intros ->; done|].
  apply outcome_bind_Ret in Ef as (f0 & E0 & E1).
  change (pooledFrame s1) with (pooledFrame s). change (st_nextFrame s1) with (st_nextFrame s).
  change (st_writeOffset s1) with (st_writeOffset s). change (st_streamID s1) with (st_streamID s).
  rewrite E0. cbn [mbind outcome_bind]. cbv zeta. rewrite E1. cbn [mbind outcome_bind].
  eexists _, _, _, _, _. split; [done|].
  set (s2 := s1 <|st_nextFrame := Some f|> <|st_nextFrameReserved := true|>).
  destruct (step_stream A s (A ++ p) s2) as (?&?&?); [done|done|apply Hok| |by split_and!].
  change (view s2) with (view s <|k_next := Some f|> <|k_res := true|> <|k_fc := fc|>).
  apply step_reserve; try done; [by eapply open_not_fin|rewrite Hdata; cbn in *; lia|destruct Hfr; lia].
Qed.
End operations.
