(* ===== verification/SendStreamSending.v ===== *)
(** * What packetizing does to the data of a stream

    A frame that is popped carries the first bytes that are pending, at the
    write offset, with flow control credit for them. *)

From S2P Require Import Prelude QuicVarint Protocol WireBase WireFrames WireStream WireStreamFacts FlowControl SendStream SendStreamFacts SendStreamWriting.

(** ** Taking data *)

(** Where the next frame takes its data: the staged frame, else the buffer, else
    the slice of a blocked write. *)
Definition front (k : Core) : bytes :=
  match k_next k with
  | Some f => sf_Data f
  | None => if decide (k_buf k = []) then default [] (k_dfw k) else k_buf k
  end.

Lemma front_unsent k : unsent k ≠ [] → (∀ f, k_next k = Some f → sf_Data f ≠ []) → len (front k) ≤ len (unsent k).
Proof.
  unfold front, unsent, next_data. intros Hu Hn. pose proof (len_nonneg (k_buf k)).
  destruct (k_next k) as [f|]; [rewrite len_app; lia|].
  cbn in *. by rewrite decide_False.
Qed.

(** [f] was taken off the front of the data of [k], which leaves [k']. *)
Record popped (n : Z) (k k' : Core) (f : StreamFrame) : Prop := {
  pp_same : k' = k <|k_next := k_next k'|> <|k_res := k_res k'|> <|k_buf := k_buf k'|>
                   <|k_dfw := k_dfw k'|>;
  pp_len : len (sf_Data f) = n;
  pp_data : (unsent k = sf_Data f ++ unsent k' ∧ k_dfw k' = k_dfw k) ∨
    (unsent k = [] ∧ unsent k' = [] ∧ default [] (k_dfw k) = sf_Data f ++ default [] (k_dfw k'));
  pp_next : ∀ g, k_next k' = Some g →
    next_ok (k_id k) (k_wo k + n) g ∧ (k_res k' = true ∨ sf_fromPool g = true);
  pp_res : k_res k' = true → is_Some (k_next k');
  pp_dfw : k_dfw k' ≠ Some [];
  pp_reserved : if k_res k then reserved k' = reserved k - n else k_res k' = false;
  pp_id : sf_StreamID f = k_id k;
  pp_off : sf_Offset f = k_wo k;
  pp_lenPresent : sf_DataLenPresent f = true;
  pp_pool : pool_ok f }.

Lemma len_take_front n (d : bytes) : 0 ≤ n ≤ len d → len (take (Z.to_nat n) d) = n.
Proof. intros. unfold len in *. rewrite length_take. lia. Qed.
Lemma len_drop_front n (d : bytes) : 0 ≤ n ≤ len d → len (drop (Z.to_nat n) d) = len d - n.
Proof. intros. unfold len in *. rewrite length_drop. lia. Qed.

(** The part of [core_ok] that popping relies on. *)
Definition staged (k : Core) : Prop :=
  (∀ f, k_next k = Some f → next_ok (k_id k) (k_wo k) f ∧ (k_res k = true ∨ sf_fromPool f = true)) ∧
  (k_res k = true → is_Some (k_next k)) ∧ k_dfw k ≠ Some [].

Section popping.
Context (s : SendStream) (n : Z).
Context (Hok : head_ok s ∧ staged (view s)) (Hn : 0 < n ≤ len (front (view s))) (Hmax : n ≤ MaxPacketBufferSize).

(** What is left of a staged frame: in a pooled frame, if it fits one. *)
Lemma remainder_ok (rest : bytes) :
  rest ≠ [] →
  ∃ r, (if len rest >? MaxPacketBufferSize
        then Ret (MkStreamFrame (st_streamID s) (st_writeOffset s + n) rest (len rest) false true false)
        else pooledFrame s (st_writeOffset s + n) rest) = Ret r ∧ sf_Data r = rest ∧
    next_ok (st_streamID s) (st_writeOffset s + n) r ∧
    (sf_fromPool r = true ∨ MaxPacketBufferSize < len rest).
Proof.
  intros Hne. destruct (Z.gtb_spec (len rest) MaxPacketBufferSize).
  - eexists. split_and!; [done|done| |by right]. by constructor.
  - rewrite pooledFrame_spec by lia. eexists. split_and!; [done|done| |by left]. by apply pooled_next_ok.
Qed.

(** From the staged frame. *)
Lemma popNext_spec g :
  st_nextFrame s = Some g →
  ∃ f more s', popNewStreamFrame n s = Ret (f, more, s') ∧ head_ok s' ∧ popped n (view s) (view s') f.
Proof.
  intros Hg. destruct Hok as (Hh & Hnext & Hresv & Hdfw). destruct (Hnext g Hg) as [[Hid Hoff Hlp Hne Hcap Hpool] Hres].
  unfold front in Hn. change (k_next (view s)) with (st_nextFrame s) in Hn. rewrite Hg in Hn.
  change (k_id (view s)) with (st_streamID s) in Hid. change (k_wo (view s)) with (st_writeOffset s) in Hoff.
  unfold popNewStreamFrame. rewrite Hg. cbv zeta. unfold StreamFrame_DataLen.
  destruct (Z.gtb_spec (len (sf_Data g)) n) as [Hgt|Hle].
  - pose proof (len_drop_front n (sf_Data g) ltac:(lia)) as Hld.
    rewrite slice_from_drop by lia. cbn [mbind outcome_bind or_panic].
    unfold truncateFrame. rewrite slice_to_take by lia. cbn [mbind outcome_bind or_panic].
    set (rest := drop (Z.to_nat n) (sf_Data g)) in *.
    destruct (remainder_ok rest) as (r & Er & Hr & Hnr & Hpr); [intros E; apply len_0_nil in E; lia|].
    rewrite <-Hld.
    set (s1 := s <|st_nextFrame := None|> <|st_nextFrameReserved := false|>).
    change (pooledFrame s1) with (pooledFrame s). change (st_streamID s1) with (st_streamID s).
    change (st_writeOffset s1) with (st_writeOffset s). rewrite Er. cbn [mbind outcome_bind].
    eexists _, _, _. split; [done|]. split; [exact Hh|].
    set (s2 := s1 <|st_nextFrame := Some r|> <|st_nextFrameReserved := st_nextFrameReserved s|>).
    change (view s2) with (view s <|k_next := Some r|> <|k_res := k_res (view s)|>).
    constructor; upd; try done; cbn [sf_Data].
    + apply len_take_front. lia.
    + left. split; [|done]. unfold unsent, next_data. upd. change (k_next (view s)) with (st_nextFrame s).
      rewrite Hg, Hr, app_assoc. unfold rest. by rewrite take_drop.
    + intros ? [= <-]. split; [done|]. destruct Hres as [Hres|Hres]; [by left|].
      destruct Hpr as [|Hbig]; [by right|]. specialize (Hpool Hres). lia.
    + destruct (k_res (view s)) eqn:E; [|done]. unfold reserved, next_data. upd. rewrite E.
      change (k_next (view s)) with (st_nextFrame s). rewrite Hg, Hr. lia.
  - cbn [mbind outcome_bind]. eexists _, _, _. split; [done|]. split; [exact Hh|].
    set (s2 := signalWrite _).
    change (view s2) with (view s <|k_next := None|> <|k_res := false|>).
    assert (len (sf_Data g) = n) by lia. constructor; upd; try done.
    + left. split; [|done]. unfold unsent, next_data. upd. change (k_next (view s)) with (st_nextFrame s).
      by rewrite Hg.
    + destruct (k_res (view s)) eqn:E; [|done]. unfold reserved, next_data. upd. rewrite E.
      change (k_next (view s)) with (st_nextFrame s). rewrite Hg. lia.
Qed.

Lemma no_next_unreserved : st_nextFrame s = None → k_res (view s) = false.
Proof.
  intros Hg. destruct (k_res (view s)) eqn:E; [|done].
  destruct (proj1 (proj2 (proj2 Hok)) E) as [? Hx]. change (k_next (view s)) with (st_nextFrame s) in Hx. congruence.
Qed.

(** From the write buffer. *)
Lemma popBuffer_spec :
  st_nextFrame s = None → buffered s ≠ [] →
  ∃ f more s', popNewStreamFrame n s = Ret (f, more, s') ∧ head_ok s' ∧ popped n (view s) (view s') f.
Proof.
  intros Hg Hb. pose proof (no_next_unreserved Hg) as Hres. destruct Hok as (Hh & _ & _ & Hdfw).
  unfold front in Hn. change (k_next (view s)) with (st_nextFrame s) in Hn.
  change (k_buf (view s)) with (buffered s) in Hn. rewrite Hg, decide_False in Hn by done.
  unfold popNewStreamFrame. rewrite Hg, pooledFrame_spec by done. cbn [mbind outcome_bind].
  rewrite bufferedWriteLen_eq by done. destruct (Z.gtb_spec (len (buffered s)) 0); [|lia].
  cbv zeta. cbn [pooled sf_cap]. rewrite Z.min_l by lia. destruct (Z.ltb_spec n 0); [lia|].
  destruct (takeWriteBuffer_spec n s Hh) as (s1 & -> & Hh1 & Hv); [lia|]. cbn [mbind outcome_bind].
  pose proof (len_take_front n (buffered s) ltac:(lia)) as Ht.
  rewrite extendFrame_spec by (cbn [pooled sf_Data sf_cap]; change (len (A:=Z) []) with 0; lia).
  cbn [mbind outcome_bind]. eexists _, _, _. split; [done|]. split; [exact Hh1|].
  change (view (signalWrite s1)) with (view s1). rewrite Hv.
  assert (k_next (view s) = None) as Hg' by done.
  constructor; upd; cbn [sf_Data sf_StreamID sf_Offset sf_DataLenPresent app pooled]; rewrite ?Hres, ?Hg'; try done.
  - left. split; [|done]. unfold unsent, next_data. upd. rewrite Hg'. cbn [app].
    by rewrite take_drop.
Qed.

(** From the slice of a blocked write. *)
Lemma popBlocked_spec :
  st_nextFrame s = None → buffered s = [] →
  ∃ f more s', popNewStreamFrame n s = Ret (f, more, s') ∧ head_ok s' ∧ popped n (view s) (view s') f.
Proof.
  intros Hg Hb. pose proof (no_next_unreserved Hg) as Hres. destruct Hok as (Hh & _ & _ & Hdfw).
  unfold front in Hn. change (k_next (view s)) with (st_nextFrame s) in Hn.
  change (k_buf (view s)) with (buffered s) in Hn. rewrite Hg, decide_True in Hn by done.
  change (k_dfw (view s)) with (st_dataForWriting s) in Hn.
  unfold popNewStreamFrame. rewrite Hg, pooledFrame_spec by done. cbn [mbind outcome_bind].
  rewrite bufferedWriteLen_eq, Hb by done. change (len (A:=Z) [] >? 0) with false. cbv iota.
  unfold getDataForWriting. set (d := default [] (st_dataForWriting s)) in *.
  assert (k_next (view s) = None) as Hg' by done. assert (k_buf (view s) = []) as Hb' by done.
  destruct (Z.leb_spec (len d) n).
  - rewrite extendFrame_spec by (cbn [pooled sf_Data sf_cap]; change (len (A:=Z) []) with 0; lia).
    cbn [mbind outcome_bind]. eexists _, _, _. split; [done|]. split; [exact Hh|].
    set (s1 := signalWrite _). change (view s1) with (view s <|k_dfw := None|>).
    constructor; upd; cbn [sf_Data sf_StreamID sf_Offset sf_DataLenPresent app pooled]; rewrite ?Hres, ?Hg'; try done.
    + lia.
    + right. unfold unsent, next_data. upd. rewrite Hg', Hb'. split_and!; [done|done|].
      cbn [default from_option id]. by rewrite app_nil_r.
  - rewrite slice_to_take by lia. cbn [mbind outcome_bind or_panic].
    pose proof (len_take_front n d ltac:(lia)) as Ht. pose proof (len_drop_front n d ltac:(lia)) as Hd.
    rewrite extendFrame_spec by (cbn [pooled sf_Data sf_cap]; change (len (A:=Z) []) with 0; lia).
    cbn [mbind outcome_bind]. rewrite slice_from_drop by lia. cbn [mbind outcome_bind or_panic].
    set (s1 := s <|st_dataForWriting := _|>). eexists _, _, _. split; [done|].
    set (s2 := if _ : bool then _ else _).
    assert (quiet s1 s2) as [Hv Hh2] by (unfold s2; destruct (canBufferStreamFrame s1); [apply signalWrite_quiet|apply quiet_refl]).
    split; [by apply Hh2|]. rewrite Hv.
    change (view s1) with (view s <|k_dfw := Some (drop (Z.to_nat n) d)|>).
    constructor; upd; cbn [sf_Data sf_StreamID sf_Offset sf_DataLenPresent app pooled]; rewrite ?Hres, ?Hg'; try done.
    + right. unfold unsent, next_data. upd. rewrite Hg', Hb'. split_and!; [done|done|].
      cbn [default from_option id]. change (k_dfw (view s)) with (st_dataForWriting s). fold d.
      by rewrite take_drop.
    + intros [= E]. apply len_0_nil in E. lia.
Qed.

Lemma popNewStreamFrame_spec :
  ∃ f more s', popNewStreamFrame n s = Ret (f, more, s') ∧ head_ok s' ∧ popped n (view s) (view s') f.
Proof.
  destruct (st_nextFrame s) as [g|] eqn:Hg; [by eapply popNext_spec|].
  destruct (decide (buffered s = [])); [by apply popBlocked_spec|by apply popBuffer_spec].
Qed.
End popping.

(** ** The state afterwards *)

Lemma core_staged W k : core_ok W k → staged k.
Proof. intros Hk. core_cases Hk. done. Qed.

(** Sending [f], with credit for it: the offset moves past it. *)
Section sent.
Context (W : bytes) (k k1 k2 k' : Core) (n : Z) (f : StreamFrame) (fin : bool).
Context (Hk : core_ok W k) (Hpop : popped n k1 k2 f) (Hn : 0 < n) (Hmax : n ≤ MaxPacketBufferSize).
Context (Hshut : k_shut k = None).
Context (Hreset : is_Some (k_reset k) → k_wo k + n ≤ reliable k).
Context (Hk1 : k1 = k <|k_fc := k_fc k1|> <|k_limited := k_limited k1|>).
Context (Hfc : s_bytesSent (k_fc k1) = s_bytesSent (k_fc k) + (if k_res k then 0 else n)).
Context (Hwindow : s_bytesSent (k_fc k1) ≤ s_sendWindow (k_fc k1) ≤ MaxByteCount).
Context (Hk' : k' = k2 <|k_wo := k_wo k + n|> <|k_finSent := k_finSent k'|> <|k_fc := k_fc k'|>
                       <|k_num := k_num k'|>).
Context (Hfc' : s_bytesSent (k_fc k') = s_bytesSent (k_fc k1) ∧ s_sendWindow (k_fc k') = s_sendWindow (k_fc k1)).
Context (Hfs : k_finSent k' = k_finSent k || fin).
Context (Hfin1 : fin = true → k_closed k = true ∧ unsent k2 = [] ∧ k_dfw k2 = None).

Lemma sent_fields :
  k_id k' = k_id k ∧ k_wo k' = k_wo k + n ∧ k_rel k' = k_rel k ∧ k_reset k' = k_reset k ∧
  k_shut k' = k_shut k ∧ k_queue k' = k_queue k ∧ k_closed k' = k_closed k ∧ k_sup k' = k_sup k ∧
  k_queued k' = k_queued k ∧ k_once k' = k_once k ∧
  k_next k' = k_next k2 ∧ k_res k' = k_res k2 ∧ k_buf k' = k_buf k2 ∧ k_dfw k' = k_dfw k2 ∧
  k_next k1 = k_next k ∧ k_res k1 = k_res k ∧ k_buf k1 = k_buf k ∧ k_dfw k1 = k_dfw k ∧
  k_id k1 = k_id k ∧ k_wo k1 = k_wo k.
Proof.
  clear -Hk' Hpop Hk1. pose proof (pp_same _ _ _ _ Hpop) as Hs.
  revert Hk' Hs Hk1. generalize (k_finSent k') (k_fc k') (k_num k') (k_fc k1) (k_limited k1).
  generalize (k_next k2) (k_res k2) (k_buf k2) (k_dfw k2). clear.
  intros ????????? -> -> ->. split_and!; reflexivity.
Qed.

(** The data is that pending at the write offset. *)
Lemma sent_data :
  ∃ rest, drop (Z.to_nat (k_wo k)) W = sf_Data f ++ unsent k2 ++ rest ∧
    (live k → rest = default [] (k_dfw k2)) ∧
    k_wo k + len (unsent k) ≤ k_wo k + n + len (unsent k2).
Proof.
  destruct sent_fields as (_&_&_&_&_&_&_&_&_&_&_&_&_&_&E1&E2&E3&E4&_).
  destruct (ok_unsent _ _ Hk) as (rest & Hd & Hr). pose proof (pp_len _ _ _ _ Hpop) as Hlen.
  assert (unsent k1 = unsent k) as Eu by (unfold unsent, next_data; by rewrite E1, E3).
  destruct (pp_data _ _ _ _ Hpop) as [[Hu Hdf]|(Hu & Hu2 & Hdf)].
  - exists rest. rewrite Hd, <-Eu, Hu, <-app_assoc. split; [done|]. split; [|rewrite len_app; lia].
    intros Hl. by rewrite Hr, Hdf, E4.
  - destruct (decide (live k)) as [Hl|Hl].
    + exists (default [] (k_dfw k2)). rewrite Hd, <-Eu, Hu, Hu2. cbn [app]. split_and!; [|done|].
      * by rewrite Hr, <-Hdf, E4.
      * change (len (A:=Z) []) with 0. lia.
    + exfalso. destruct (k_reset k) as [e|] eqn:He; [|by apply Hl].
      specialize (Hreset ltac:(done)). destruct (ok_boundary _ _ Hk Hshut) as [_ Hb].
      rewrite <-Eu, Hu in Hb. change (len (A:=Z) []) with 0 in Hb. lia.
Qed.

Lemma sent_live : live k' ↔ live k.
Proof. destruct sent_fields as (_&_&_&E1&E2&_). unfold live. by rewrite E1, E2. Qed.

Lemma sent_not_fin : live k → k_finSent k = false.
Proof.
  intros Hl. destruct (k_finSent k) eqn:Hf; [|done]. destruct (ok_fin _ _ Hk Hf) as [_ Hp].
  specialize (Hp Hl). destruct sent_data as (rest & Hd & _). rewrite (ok_pending _ _ Hk Hl), Hp in Hd.
  pose proof (pp_len _ _ _ _ Hpop) as Hlen. destruct (sf_Data f); [|done].
  change (len (A:=Z) []) with 0 in Hlen. lia.
Qed.

Lemma sent_advance : advance W k W k'.
Proof.
  destruct sent_fields as (E1&E2&_). constructor; [done|lia|done|by rewrite sent_live|].
  intros Hl Hf. rewrite sent_live in Hl. rewrite sent_not_fin in Hf; done.
Qed.

Lemma sent_reserved : k_wo k' + reserved k' = k_wo k + reserved k + (if k_res k then 0 else n).
Proof.
  destruct sent_fields as (_&E2&_&_&_&_&_&_&_&_&E3&E4&_&_&E5&E6&_).
  pose proof (pp_reserved _ _ _ _ Hpop) as Hr. rewrite E6 in Hr.
  assert (reserved k' = reserved k2) as -> by (unfold reserved, next_data; by rewrite E3, E4).
  assert (reserved k1 = reserved k) as Er by (unfold reserved, next_data; by rewrite E5, E6).
  unfold reserved at 2. destruct (k_res k) eqn:E.
  - rewrite Er in Hr. unfold reserved at 2 in Hr. rewrite E in Hr. lia.
  - unfold reserved. rewrite Hr. lia.
Qed.

Lemma sent_ok : core_ok W k'.
Proof.
  destruct sent_fields as (E1&E2&E3&E4&E5&E6&E7&E8&_&_&E9&E10&E11&E12&_&_&_&_&E13&E14).
  destruct sent_data as (rest & Hd & Hrest & Hun). pose proof sent_advance as Ha.
  pose proof sent_reserved as Hres'. pose proof (pp_len _ _ _ _ Hpop) as Hlen. pose proof sent_live as Hlive.
  pose proof sent_not_fin as Hnf.
  assert (unsent k' = unsent k2) as Eu by (unfold unsent, next_data; by rewrite E9, E11).
  assert (reliable k' = reliable k) as Erel by (unfold reliable; by rewrite E3, E8).
  destruct Hfc' as [Hfc1 Hfc2]. pose proof (ok_wo _ _ Hk) as Hwo'.
  assert (len (drop (Z.to_nat (k_wo k)) W) = len W - k_wo k) as HlenW by (apply len_drop_front; lia).
  rewrite Hd, !len_app in HlenW. pose proof (len_nonneg (unsent k2)). pose proof (len_nonneg rest).
  core_cases Hk. constructor; rewrite ?E1, ?E2, ?E3, ?E4, ?E5, ?E6, ?E7, ?Erel, ?Eu; try done; try lia.
  - exists rest. rewrite E12, Hlive. split; [|done].
    rewrite Z2Nat.inj_add, <-drop_drop, Hd by lia. rewrite drop_app_length' by (unfold len in *; lia). done.
  - rewrite E9, E10, <-E13, <-E14. apply (pp_next _ _ _ _ Hpop).
  - rewrite E9, E10. apply (pp_res _ _ _ _ Hpop).
  - rewrite E12. apply (pp_dfw _ _ _ _ Hpop).
  - intros _. destruct (Hbound Hshut) as [Hb1 Hb2]. split; [intros Hr; specialize (Hb1 Hr)|]; lia.
  - rewrite Hlive, Hfc1. intros Hl. specialize (Hcredit Hl). lia.
  - by eapply advance_pieces.
  - rewrite Hfs. intros Hf. destruct fin; [|rewrite orb_false_r in Hf].
    + destruct (Hfin1 eq_refl) as (? & Hu2 & Hd2). split; [done|]. intros _.
      unfold pending. by rewrite Eu, E12, Hu2, Hd2.
    + split; [by apply Hfin|]. rewrite Hlive. intros Hl. rewrite Hnf in Hf; done.
Qed.

Lemma sent_piece :
  piece W k' (MkStreamFrame (sf_StreamID f) (sf_Offset f) (sf_Data f) (sf_cap f) fin
                (sf_DataLenPresent f) (sf_fromPool f)).
Proof.
  destruct sent_fields as (E1&E2&_&_&_&_&_&_&_&_&_&_&_&_&_&_&_&_&E13&E14).
  destruct sent_data as (rest & Hd & _). pose proof (ok_wo _ _ Hk). pose proof sent_not_fin as Hnf.
  pose proof (pp_len _ _ _ _ Hpop) as Hlen. pose proof sent_live as Hlive.
  pose proof (pp_id _ _ _ _ Hpop). pose proof (pp_off _ _ _ _ Hpop).
  constructor; cbn [sf_StreamID sf_Offset sf_Data sf_Fin]; try congruence; try lia.
  - unfold part. replace (sf_Offset f) with (k_wo k) by congruence.
    by rewrite Hd, take_app_length' by (unfold len; lia).
  - exact (pp_pool _ _ _ _ Hpop).
  - intros _ Hf. split; [|lia]. rewrite Hfs, Hf. apply orb_true_r.
Qed.
End sent.

(** How the state changes when [f] is sent, apart from the number of frames. *)
Record sends (k k' : Core) (f : StreamFrame) : Prop := {
  sd_off : sf_Offset f = k_wo k;
  sd_wo : k_wo k' = k_wo k + len (sf_Data f);
  sd_lenPresent : sf_DataLenPresent f = true;
  sd_fin : k_finSent k' = k_finSent k || sf_Fin f;
  sd_queue : k_queue k' = k_queue k;
  sd_queued : k_queued k' = k_queued k;
  sd_reset : k_reset k' = k_reset k;
  sd_shut : k_shut k' = k_shut k;
  sd_rel : k_rel k' = k_rel k;
  sd_sup : k_sup k' = k_sup k;
  sd_once : k_once k' = k_once k;
  sd_dfw : len (default [] (k_dfw k')) ≤ len (default [] (k_dfw k));
  sd_none : k_dfw k = None → k_dfw k' = None }.

Lemma isNewlyBlocked_same fc :
  let '(_, _, fc') := isNewlyBlocked fc in
  s_bytesSent fc' = s_bytesSent fc ∧ s_sendWindow fc' = s_sendWindow fc.
Proof. unfold isNewlyBlocked. by destruct (_ || _). Qed.

Lemma popped_dfw n k k' f :
  popped n k k' f → len (default [] (k_dfw k')) ≤ len (default [] (k_dfw k)) ∧
  (0 < n → k_dfw k = None → k_dfw k' = None).
Proof.
  intros [_ Hl [[_ ->]|(_ & _ & E)] _ _ _ _ _ _ _ _]; [done|]. rewrite E, len_app.
  pose proof (len_nonneg (sf_Data f)). split; [lia|]. intros Hn Hd. rewrite Hd in E. cbn in E.
  destruct (sf_Data f); [|done]. change (len (A:=Z) []) with 0 in Hl. lia.
Qed.

(** What popDataFrame does after taking the frame: the offset, and the FIN. *)
Lemma popDataFrame_after n s f more s1 :
  popNewStreamFrame n s = Ret (f, more, s1) → 0 < n → len (sf_Data f) = n → head_ok s1 →
  st_finSent s1 = st_finSent s →
  ∃ blocked more' fin s', popDataFrame n s =
      Ret (MkStreamFrame (sf_StreamID f) (sf_Offset f) (sf_Data f) (sf_cap f) fin
             (sf_DataLenPresent f) (sf_fromPool f), blocked, more', s') ∧ head_ok s' ∧
    view s' = view s1 <|k_wo := i64 (k_wo (view s1) + n)|> <|k_finSent := k_finSent (view s')|>
                      <|k_fc := k_fc (view s')|> ∧
    k_finSent (view s') = k_finSent (view s) || fin ∧
    s_bytesSent (k_fc (view s')) = s_bytesSent (k_fc (view s1)) ∧
    s_sendWindow (k_fc (view s')) = s_sendWindow (k_fc (view s1)) ∧
    (fin = true → k_closed (view s1) = true ∧ unsent (view s1) = [] ∧ k_dfw (view s1) = None).
Proof.
  intros E Hn Hlen Hh Hf. unfold popDataFrame. rewrite E. cbn [mbind outcome_bind].
  unfold StreamFrame_DataLen. rewrite Hlen. destruct (Z.gtb_spec n 0); [|lia]. cbn [andb].
  set (s2 := s1 <|st_writeOffset := _|>).
  destruct (if negb (st_nextFrameReserved s2) then _ else _) as [blocked s3] eqn:E3.
  assert (∃ fc, s3 = s2 <|st_flowController := fc|> ∧
    s_bytesSent fc = s_bytesSent (st_flowController s1) ∧
    s_sendWindow fc = s_sendWindow (st_flowController s1)) as (fc & -> & Hfc1 & Hfc2).
  { destruct (negb _) in E3.
    - pose proof (isNewlyBlocked_same (st_flowController s2)) as Hb.
      destruct (isNewlyBlocked _) as [[isBlocked off] fc]. injection E3 as _ <-. by exists fc.
    - injection E3 as _ <-. by exists (st_flowController s1). }
  set (s3 := s2 <|st_flowController := fc|>). set (fin := _ && _).
  eexists _, _, fin, _. split; [done|].
  assert (fin = true → k_closed (view s1) = true ∧ unsent (view s1) = [] ∧ k_dfw (view s1) = None ∧
          st_finSent s1 = false) as Hfin.
  { unfold fin. rewrite !andb_true_iff, negb_true_iff, !bool_decide_eq_true, Z.eqb_eq.
    intros ((((Hc & Hd) & Hnx) & Hb) & Hfs). split_and!; [exact Hc| |exact Hd|exact Hfs].
    rewrite bufferedWriteLen_eq in Hb by exact Hh. apply len_0_nil in Hb.
    unfold unsent, next_data. change (k_next (view s1)) with (st_nextFrame s1).
    change (st_nextFrame s3) with (st_nextFrame s1) in Hnx. rewrite Hnx. exact Hb. }
  split_and!; [by destruct fin|by destruct fin| |by destruct fin|by destruct fin|naive_solver].
  cbn [k_finSent view]. rewrite <-Hf. destruct fin; cbn; [by rewrite orb_true_r|by rewrite orb_false_r].
Qed.

Lemma popDataFrame_spec W s0 s n :
  stream_ok W s0 → head_ok s →
  view s = view s0 <|k_fc := k_fc (view s)|> <|k_limited := k_limited (view s)|> →
  0 < n ≤ len (front (view s0)) → n ≤ MaxPacketBufferSize → k_shut (view s0) = None →
  (is_Some (k_reset (view s0)) → k_wo (view s0) + n ≤ reliable (view s0)) →
  s_bytesSent (k_fc (view s)) = s_bytesSent (k_fc (view s0)) + (if k_res (view s0) then 0 else n) →
  s_bytesSent (k_fc (view s)) ≤ s_sendWindow (k_fc (view s)) ≤ MaxByteCount →
  ∃ f blocked more s', popDataFrame n s = Ret (f, blocked, more, s') ∧
    stream_ok W s' ∧ advance W (view s0) W (view s') ∧ piece W (view s') f ∧
    sends (view s0) (view s') f ∧ k_num (view s') = k_num (view s0) ∧ len (sf_Data f) = n.
Proof.
  intros [Hh0 Hk] Hh Hv Hn Hmax Hshut Hreset Hfc Hwin.
  assert (staged (view s)) as Hst by (rewrite Hv; exact (core_staged _ _ Hk)).
  assert (front (view s) = front (view s0)) as Hfront by by rewrite Hv.
  destruct (popNewStreamFrame_spec s n (conj Hh Hst)) as (f & more & s1 & E1 & Hh1 & Hpop); [by rewrite Hfront|done|].
  pose proof (pp_len _ _ _ _ Hpop) as Hlen. pose proof (pp_same _ _ _ _ Hpop) as Hsame.
  destruct (popDataFrame_after n s f more s1 E1 ltac:(lia) Hlen Hh1) as
    (blocked & more' & fin & s' & E & Hh' & Hv' & Hfin & Hfc1 & Hfc2 & Hfin1).
  { apply (f_equal k_finSent) in Hsame. by upd. }
  assert (k_wo (view s1) = k_wo (view s0) ∧ k_finSent (view s) = k_finSent (view s0) ∧
          k_num (view s1) = k_num (view s0) ∧ k_closed (view s1) = k_closed (view s0)) as (Hw & Hf0 & Hnum & Hcl)
    by (rewrite Hsame, Hv; split_and!; reflexivity).
  set (k2 := view s1 <|k_wo := k_wo (view s0) + n|>).
  assert (i64 (k_wo (view s1) + n) = k_wo (view s0) + n) as Hi.
  { pose proof (sent_reserved (view s0) (view s) (view s1) k2 n f Hpop Hv Hfc eq_refl) as Hr.
    pose proof (ok_wo _ _ Hk). pose proof (ok_flow _ _ Hk).
    pose proof (reserved_nonneg k2).
    change (k_wo k2) with (k_wo (view s0) + n) in Hr. rewrite Hw. apply i64_small.
    unfold MaxByteCount in *. lia. }
  assert (k_fc (view s1) = k_fc (view s)) as Hfc0 by (rewrite Hsame; by upd).
  rewrite Hfc0 in Hfc1, Hfc2. destruct Hn as [Hn0 Hn1].
  rewrite Hi in Hv'. rewrite Hf0 in Hfin. rewrite Hcl in Hfin1.
  assert (view s' = view s1 <|k_wo := k_wo (view s0) + n|> <|k_finSent := k_finSent (view s')|>
            <|k_fc := k_fc (view s')|> <|k_num := k_num (view s')|>) as Hk'.
  { assert (k_num (view s') = k_num (view s1)) as -> by (rewrite Hv'; by upd). exact Hv'. }
  eexists _, _, _, _. split; [exact E|].
  destruct (sent_fields (view s0) (view s) (view s1) (view s') n f Hpop Hv Hk')
    as (_&E2&E3&E4&E5&E6&_&E8&E9&E10&_&_&_&E12&_&_&_&E13&_).
  destruct (popped_dfw _ _ _ _ Hpop) as [Hd1 Hd2]. rewrite E13 in Hd1, Hd2.
  split_and!; [split; [done|]|..].
  - by apply (sent_ok W (view s0) (view s) (view s1) (view s') n f fin).
  - by apply (sent_advance W (view s0) (view s) (view s1) (view s') n f fin).
  - by apply (sent_piece W (view s0) (view s) (view s1) (view s') n f fin).
  - constructor; cbn [sf_Offset sf_Data sf_DataLenPresent sf_Fin]; rewrite ?E12; try done; [|lia| |].
    + rewrite (pp_off _ _ _ _ Hpop). rewrite Hv. by upd.
    + apply (pp_lenPresent _ _ _ _ Hpop).
    + apply Hd2. lia.
  - rewrite Hv'. by upd.
  - done.
Qed.

(** ** How much to send *)

Definition bare (s : SendStream) : StreamFrame :=
  MkStreamFrame (st_streamID s) (st_writeOffset s) [] 0 false true false.

Lemma front_next f k : k_next k = Some f → front k = sf_Data f.
Proof. unfold front. by intros ->. Qed.

Lemma reliable_view s : reliable (view s) = reliableOffset s.
Proof. unfold reliable, reliableOffset, view. cbn. by destruct (st_supportsResetStreamAt s). Qed.

(** The bounds of the length of the next frame. *)
Record fitting (maxBytes : Z) (s : SendStream) (c : connectionFlowController) (n : Z) : Prop := {
  ft_front : n ≤ len (front (view s));
  ft_max : n ≤ MaxPacketBufferSize;
  ft_reset : is_Some (k_reset (view s)) → k_wo (view s) + n ≤ reliable (view s);
  ft_nonneg : 0 ≤ n ∨ (k_res (view s) = false ∧ c_sendWindow c < c_bytesSent c);
  ft_fits : ∀ D, 0 < D ≤ n → stream_header (bare s) - 1 + len (enc D) + D ≤ maxBytes }.

Lemma MaxDataLen_bare W s maxBytes f :
  stream_ok W s → maxBytes ≤ MaxPacketBufferSize →
  sf_StreamID f = st_streamID s → sf_Offset f = st_writeOffset s → sf_DataLenPresent f = true →
  ∃ m, StreamFrame_MaxDataLen f maxBytes = Ret m ∧ 0 ≤ m ≤ MaxPacketBufferSize ∧
    ∀ D, 0 < D ≤ m → stream_header (bare s) - 1 + len (enc D) + D ≤ maxBytes.
Proof.
  intros [_ Hk] Hmax Hid Hoff Hlp. unfold MaxPacketBufferSize in *.
  pose proof (core_fc_range _ _ Hk) as Hfc. pose proof (ok_flow _ _ Hk). pose proof (ok_wo _ _ Hk).
  pose proof (reserved_nonneg (view s)). unfold fc_range in Hfc.
  destruct (StreamFrame_MaxDataLen_fits f maxBytes) as (m & -> & Hm0 & Hm & Hfit); [..|done|lia|].
  - rewrite Hid. exact (ok_id _ _ Hk).
  - rewrite Hoff. change (st_writeOffset s) with (k_wo (view s)). unfold vint, Max, maxVarInt8. unfold MaxByteCount in *. lia.
  - exists m. split; [done|]. split; [lia|]. intros D HD. specialize (Hfit D HD).
    replace (stream_header (bare s)) with (stream_header f); [done|].
    unfold stream_header. cbn. by rewrite Hid, Hoff, Hlp.
Qed.

Lemma nextDataLen_spec W maxBytes s c :
  stream_ok W s → conn_range c → maxBytes ≤ MaxPacketBufferSize →
  (is_Some (st_resetErr s) → 0 < reliableOffset s ∧ st_writeOffset s < reliableOffset s) →
  ∃ n, nextDataLen maxBytes s c = Ret n ∧ fitting maxBytes s c n.
Proof.
  intros Hok Hc Hmax Hreset. pose proof Hok as [Hh Hk].
  assert (∃ m, match st_nextFrameReserved s, st_nextFrame s with
    | true, Some f => Ret (E:=FrameError) (StreamFrame_DataLen f)
    | true, None => Panic
    | false, _ => Ret (SendWindowSize (st_flowController s) c) end = Ret m ∧
    (0 ≤ m ∨ (k_res (view s) = false ∧ c_sendWindow c < c_bytesSent c))) as (m & Em & Hm).
  { destruct (st_nextFrameReserved s) eqn:Hr.
    - destruct (ok_res _ _ Hk Hr) as [f Hf]. change (k_next (view s)) with (st_nextFrame s) in Hf.
      rewrite Hf. eexists. split; [done|]. left. apply len_nonneg.
    - eexists. split; [done|].
      destruct (SendWindowSize_range (st_flowController s) c (core_fc_range _ _ Hk) Hc) as [_ [|]]; auto. }
  unfold nextDataLen. rewrite Em. cbn [mbind outcome_bind]. cbv zeta.
  set (m1 := if bool_decide _ && _ then _ else m).
  assert (m1 ≤ m ∧ (is_Some (st_resetErr s) → st_writeOffset s + m1 ≤ reliableOffset s) ∧
          (0 ≤ m → 0 ≤ m1)) as (Hm1 & Hrel & Hpos).
  { subst m1. case_bool_decide as Hr; cbn [andb]; [|split_and!; try done; lia].
    destruct (Hreset Hr) as [Hr1 Hr2]. rewrite Z.gtb_ltb, (proj2 (Z.ltb_lt _ _) Hr1). split_and!; lia. }
  destruct (st_nextFrame s) as [f|] eqn:Hf.
  - destruct (ok_next _ _ Hk f Hf) as [[Hid Hoff Hlp _ _ _] _].
    destruct (MaxDataLen_bare W s maxBytes f Hok Hmax Hid Hoff Hlp) as (q & -> & Hq & Hfit).
    cbn [mbind outcome_bind]. eexists. split; [done|]. pose proof (len_nonneg (sf_Data f)).
    unfold StreamFrame_DataLen. constructor.
    + rewrite (front_next f) by done. lia.
    + lia.
    + intros Hr. specialize (Hrel Hr). rewrite reliable_view. cbn. lia.
    + destruct Hm as [Hm|Hm]; [left|right; done]. specialize (Hpos Hm). lia.
    + intros D HD. apply Hfit. lia.
  - destruct (MaxDataLen_bare W s maxBytes (bare s) Hok Hmax) as (q & Eq & Hq & Hfit); try done.
    unfold bare in Eq. rewrite Eq. cbn [mbind outcome_bind]. eexists. split; [done|].
    rewrite bufferedWriteLen_eq by done. set (d := default [] (st_dataForWriting s)).
    pose proof (len_nonneg (buffered s)). pose proof (len_nonneg d).
    assert (front (view s) = if decide (buffered s = []) then d else buffered s) as Efr.
    { unfold front. change (k_next (view s)) with (st_nextFrame s). by rewrite Hf. }
    assert (len (buffered s) >? 0 = negb (bool_decide (buffered s = []))) as ->.
    { case_bool_decide as E; [by rewrite E|]. cbn. apply Z.gtb_lt.
      assert (len (buffered s) ≠ 0) by (by rewrite len_0_nil). lia. }
    constructor.
    + rewrite Efr. case_bool_decide as E; cbn [negb]; [|rewrite decide_False by done; lia].
      rewrite decide_True by done. rewrite E. change (len (A:=Z) []) with 0. lia.
    + destruct (negb _); lia.
    + intros Hr. specialize (Hrel Hr). rewrite reliable_view. cbn.
      destruct (negb _); lia.
    + destruct Hm as [Hm|Hm]; [left|right; done]. specialize (Hpos Hm). destruct (negb _); lia.
    + intros D HD. apply Hfit. destruct (negb _); lia.
Qed.

(** ** Popping a frame for a packet *)

(** What a pop leaves, and the frame. *)
Definition pop_result (W : bytes) (maxBytes : Z) (s s' : SendStream) (f : option StreamFrame) : Prop :=
  stream_ok W s' ∧ advance W (view s) W (view s') ∧
  match f with
  | None => same_frames (view s) (view s') ∧ k_once (view s') = k_once (view s) ∧
            k_dfw (view s') = k_dfw (view s)
  | Some f => piece W (view s') f ∧ sends (view s) (view s') f ∧
              ∃ L, StreamFrame_Length f = Ret L ∧ L ≤ maxBytes
  end.

Lemma pop_nothing W maxBytes s s' :
  stream_ok W s → flags_only s s' → st_writeOnce s' = st_writeOnce s → pop_result W maxBytes s s' None.
Proof.
  intros Hok Hf Ho. destruct (flags_ok _ _ _ Hf Hok) as (?&?&?). split_and!; [done..|].
  by apply dfw_flags.
Qed.

Lemma frame_fits W k f s maxBytes :
  core_ok W k → piece W k f → sf_StreamID f = st_streamID s → sf_Offset f = st_writeOffset s →
  sf_DataLenPresent f = true →
  stream_header (bare s) - 1 + len (enc (len (sf_Data f))) + len (sf_Data f) ≤ maxBytes →
  ∃ L, StreamFrame_Length f = Ret L ∧ L ≤ maxBytes.
Proof.
  intros Hk Hp Hid Hoff Hlp Hle. exists (1 + len (stream_body f)).
  split; [by apply StreamFrame_Length_body, (piece_ok W k)|]. rewrite stream_body_len, Hlp.
  assert (stream_header f = stream_header (bare s)) by (unfold stream_header; cbn; by rewrite Hid, Hoff, Hlp).
  lia.
Qed.

(** The frame that only carries the FIN. *)
Lemma popFin_ok W maxBytes s :
  stream_ok W s → MinStreamFrameSize ≤ maxBytes → live (view s) → pending (view s) = [] →
  st_finishedWriting s = true → st_finSent s = false →
  pop_result W maxBytes s (s <|st_finSent := true|>) (Some (finFrame s)).
Proof.
  intros [Hh Hk] Hmax Hl Hp Hc Hf. set (s' := s <|st_finSent := true|>).
  change (view s') with (view s <|k_finSent := true|>).
  assert (advance W (view s) W (view s <|k_finSent := true|>)) as Ha by by constructor; upd.
  assert (core_ok W (view s <|k_finSent := true|>)) as Hk'.
  { pose proof Hk as Hk0. core_cases Hk. constructor; upd; try done. by eapply advance_pieces. }
  pose proof (ok_wo _ _ Hk) as Hwo.
  assert (piece W (view s <|k_finSent := true|>) (finFrame s)) as Hpiece.
  { constructor; upd; unfold finFrame; cbn [sf_Data sf_StreamID sf_Offset sf_Fin sf_fromPool];
      change (len (A:=Z) []) with 0 in *; try done; try lia; try (by left).
    all: cbn in *; first [lia | intros; split; [done|lia]]. }
  split_and!; [split; done|done|done| |].
  - constructor; upd; cbn [finFrame sf_Data sf_Fin]; change (len (A:=Z) []) with 0; try done; [by rewrite Z.add_0_r|by rewrite orb_true_r].
  - eapply (frame_fits W _ _ s); [exact Hk'|done|done|done|done|].
    cbn [sf_Data finFrame]. change (len (A:=Z) []) with 0.
    pose proof (ok_id _ _ Hk) as Hid. cbn in Hid. pose proof (enc_len _ Hid).
    pose proof (core_fc_range _ _ Hk) as Hfc. pose proof (ok_flow _ _ Hk). pose proof (reserved_nonneg (view s)).
    assert (vint (st_writeOffset s)) as Hv
      by (change (st_writeOffset s) with (k_wo (view s)); unfold vint, Max, maxVarInt8, fc_range, MaxByteCount in *; lia).
    pose proof (enc_len _ Hv). unfold stream_header, bare, MinStreamFrameSize in *. cbn.
    change (len (enc 0)) with 1. destruct (negb _); lia.
Qed.

(** A data frame of the length that was charged. *)
Lemma popData_ok W maxBytes s s1 c n m :
  stream_ok W s → fitting maxBytes s c m → 0 < n ≤ m →
  head_ok s1 → view s1 = view s <|k_fc := k_fc (view s1)|> <|k_limited := k_limited (view s1)|> →
  st_shutdownErr s = None →
  s_bytesSent (k_fc (view s1)) = s_bytesSent (k_fc (view s)) + (if k_res (view s) then 0 else n) →
  fc_range (k_fc (view s1)) →
  ∃ f blocked more s', popDataFrame n s1 = Ret (f, blocked, more, s') ∧
    pop_result W maxBytes s s' (Some f) ∧ k_num (view s') = k_num (view s).
Proof.
  intros Hok [Hfront Hmax Hreset _ Hfits] Hn Hh Hv Hs Hfc Hr.
  destruct (popDataFrame_spec W s s1 n) as (f & blocked & more & s' & E & Hok' & Ha & Hp & Hsd & Hnum & Hlen);
    try done; [lia|lia|intros Hre; specialize (Hreset Hre); lia|unfold fc_range in Hr; lia|].
  eexists _, _, _, _. split; [done|]. split; [|done]. split_and!; try done.
  eapply (frame_fits W (view s') f s); [apply Hok'|done| | | |].
  - rewrite (pc_id _ _ _ Hp). exact (ad_id _ _ _ _ Ha).
  - exact (sd_off _ _ _ Hsd).
  - exact (sd_lenPresent _ _ _ Hsd).
  - rewrite Hlen. apply Hfits. lia.
Qed.

(** Nothing is pending when all three places of data are empty. *)
Lemma pending_nil s :
  head_ok s → len (default [] (st_dataForWriting s)) = 0 → st_nextFrame s = None → bufferedWriteLen s = 0 →
  pending (view s) = [].
Proof.
  intros Hh Hd Hn Hb. rewrite bufferedWriteLen_eq in Hb by done. apply len_0_nil in Hb, Hd.
  unfold pending, unsent, next_data, view. cbn [k_next k_buf k_dfw]. by rewrite Hn, Hb, Hd.
Qed.

Lemma cancelled_reliable s :
  (bool_decide (is_Some (st_resetErr s)) &&
    ((reliableOffset s =? 0) || (st_writeOffset s >=? reliableOffset s))) = false → 0 ≤ reliableOffset s →
  is_Some (st_resetErr s) → 0 < reliableOffset s ∧ st_writeOffset s < reliableOffset s.
Proof.
  intros E Hr Hs. rewrite bool_decide_true in E by done. cbn [andb] in E.
  apply orb_false_iff in E as [E1 E2]. lia.
Qed.

(** With credit of the stream and the connection, or a reservation. *)
Lemma popCredited_ok W maxBytes s c n :
  stream_ok W s → conn_range c → fitting maxBytes s c n → n ≠ 0 → st_shutdownErr s = None →
  ∃ f blocked more s' c',
    (let '(ok, fc, c) :=
       if st_nextFrameReserved s then (true, st_flowController s, c)
       else TryAddBytesSent n (st_flowController s) c in
     let s := s <|st_flowController := fc|> in
     if negb ok then Ret (None, None, true, s, c)
     else '(f, blocked, hasMoreData, s) ← popDataFrame n s; Ret (Some f, blocked, hasMoreData, s, c))
    = Ret (f, blocked, more, s', c') ∧
    conn_range c' ∧ pop_result W maxBytes s s' f ∧ k_num (view s') = k_num (view s).
Proof.
  intros Hok Hc Hfit Hn Hs. pose proof Hok as [Hh Hk]. pose proof (ft_nonneg _ _ _ _ Hfit) as Hnn.
  pose proof (core_fc_range _ _ Hk) as Hfc. change (k_fc (view s)) with (st_flowController s) in Hfc.
  destruct (st_nextFrameReserved s) eqn:Hr.
  - destruct Hnn as [Hnn|[Hr' _]]; [|change (st_nextFrameReserved s = false) in Hr'; congruence].
    cbn [negb]. set (s1 := s <|st_flowController := st_flowController s|>).
    destruct (popData_ok W maxBytes s s1 c n n) as (f & blocked & more & s' & E & Hres & Hnum); try done; [lia| |].
    { change (k_res (view s)) with (st_nextFrameReserved s). rewrite Hr, Z.add_0_r. done. }
    rewrite E. cbn [mbind outcome_bind]. by eexists _, _, _, _, _.
  - pose proof (send_credit_spec n (st_flowController s) c Hfc Hc) as Hcr.
    destruct (TryAddBytesSent n _ c) as [[ok fc] c']. destruct Hcr as [Hc' Hcr]; [naive_solver|].
    destruct ok; cbn [negb].
    2: { subst fc. eexists _, _, _, _, _. split; [done|]. split_and!; [done| |done]. by apply pop_nothing. }
    destruct Hcr as (Hfr & Hsent & Hwin & Hn0). set (s1 := s <|st_flowController := fc|>).
    destruct (popData_ok W maxBytes s s1 c n n) as (f & blocked & more & s' & E & Hres & Hnum); try done; [lia| |].
    { change (k_res (view s)) with (st_nextFrameReserved s). by rewrite Hr. }
    rewrite E. cbn [mbind outcome_bind]. by eexists _, _, _, _, _.
Qed.

(** With credit that the limiter of a write grants. *)
Lemma popLimited_ok W limiter maxBytes s c n :
  stream_ok W s → conn_range c → fitting maxBytes s c n → n ≠ 0 → st_shutdownErr s = None →
  st_nextFrame s = None →
  ∃ f blocked more s' c',
    (let '(added, limited, fc, c) := AddBytesSentWithLimiter n limiter (st_flowController s) c in
     let s := s <|st_flowController := fc|> in
     let s := if limited : bool then signalWrite (s <|st_writeLimited := true|>) else s in
     if added =? 0 then Ret (None, None, negb limited, s, c)
     else '(f, blocked, hasMoreData, s) ← popDataFrame added s; Ret (Some f, blocked, hasMoreData, s, c))
    = Ret (f, blocked, more, s', c') ∧
    conn_range c' ∧ pop_result W maxBytes s s' f ∧ k_num (view s') = k_num (view s).
Proof.
  intros Hok Hc Hfit Hn Hs Hnx. pose proof Hok as [Hh Hk]. pose proof (ft_nonneg _ _ _ _ Hfit) as Hnn.
  pose proof (core_fc_range _ _ Hk) as Hfc. change (k_fc (view s)) with (st_flowController s) in Hfc.
  pose proof (no_next_unreserved s (conj Hh (core_staged _ _ Hk)) Hnx) as Hr.
  pose proof (send_limited_spec n limiter (st_flowController s) c Hfc Hc) as Hcr.
  destruct (AddBytesSentWithLimiter n limiter _ c) as [[[added limited] fc] c'].
  destruct Hcr as (Hc' & Hfr & Hsent & Hwin & Hadd); [naive_solver|].
  cbv zeta. set (s1 := s <|st_flowController := fc|>).
  set (s2 := if limited then signalWrite (s1 <|st_writeLimited := true|>) else s1).
  assert (head_ok s2 ∧ view s2 = view s <|k_fc := k_fc (view s2)|> <|k_limited := k_limited (view s2)|> ∧
          k_fc (view s2) = fc ∧ st_writeOnce s2 = st_writeOnce s) as (Hh2 & Hv2 & Hfc2 & Ho2)
    by (unfold s2; by destruct limited).
  destruct (Z.eqb_spec added 0) as [->|Hne].
  { destruct Hadd as [[_ ->]|]; [|lia]. eexists _, _, _, _, _. split; [done|].
    split_and!; [done| |by destruct limited]. apply pop_nothing; [done| |by destruct limited].
    destruct limited; flags_solve. }
  destruct (popData_ok W maxBytes s s2 c added n) as (f & blocked & more & s' & E & Hres & Hnum); try done.
  - naive_solver lia.
  - rewrite Hfc2, Hr. exact Hsent.
  - by rewrite Hfc2.
  - rewrite E. cbn [mbind outcome_bind]. by eexists _, _, _, _, _.
Qed.

Lemma popNewStreamFrameForPacket_spec W limiter maxBytes s c :
  stream_ok W s → conn_range c → MinStreamFrameSize ≤ maxBytes ≤ MaxPacketBufferSize →
  ∃ f blocked more s' c', popNewStreamFrameForPacket limiter maxBytes s c = Ret (f, blocked, more, s', c') ∧
    conn_range c' ∧ pop_result W maxBytes s s' f ∧ k_num (view s') = k_num (view s).
Proof.
  intros Hok Hc Hmax. pose proof Hok as [Hh Hk]. unfold popNewStreamFrameForPacket.
  set (cancelled := bool_decide _ && _).
  destruct (bool_decide (is_Some (st_shutdownErr s)) || cancelled || st_writeLimited s) eqn:Eg.
  { eexists _, _, _, _, _. split; [done|]. by split_and!; [|apply pop_nothing|]. }
  apply orb_false_iff in Eg as [[Hshut Hcan]%orb_false_iff Hlim].
  apply bool_decide_eq_false in Hshut. apply eq_None_not_Some in Hshut.
  assert (0 ≤ reliableOffset s) as Hrel.
  { rewrite <-reliable_view. unfold reliable. destruct (k_sup _); [apply (ok_rel _ _ Hk)|done]. }
  pose proof (cancelled_reliable s Hcan Hrel) as Hreset. clear Hcan cancelled.
  destruct (_ && _ && _) eqn:Eempty.
  { rewrite !andb_true_iff, bool_decide_eq_true, !Z.eqb_eq in Eempty. destruct Eempty as [[Hd Hn] Hb].
    pose proof (pending_nil s Hh Hd Hn Hb) as Hp.
    destruct (st_finishedWriting s && negb (st_finSent s)) eqn:Ef.
    2: { eexists _, _, _, _, _. split; [done|]. by split_and!; [|apply pop_nothing|]. }
    apply andb_true_iff in Ef as [Hcl Hf%negb_true_iff].
    eexists _, _, _, _, _. split; [done|]. split_and!; [done| |done]. apply popFin_ok; try done; [lia|].
    split; [|done]. apply eq_None_not_Some. intros Hr. destruct (Hreset Hr) as [_ Hwo].
    destruct (ok_boundary _ _ Hk Hshut) as [_ Hb']. rewrite reliable_view in Hb'.
    apply app_eq_nil in Hp as [Hp _]. rewrite Hp in Hb'. change (len (A:=Z) []) with 0 in Hb'. cbn in Hb'. lia. }
  destruct (nextDataLen_spec W maxBytes s c Hok Hc) as (n & -> & Hfit); [lia|done|].
  cbn [mbind outcome_bind]. destruct (Z.eqb_spec n 0) as [->|Hn0].
  { eexists _, _, _, _, _. split; [done|]. by split_and!; [|apply pop_nothing|]. }
  destruct (st_writeLimiter s && _ && _) eqn:El.
  - rewrite !andb_true_iff, bool_decide_eq_true in El. apply popLimited_ok; try done. by apply El.
  - by apply popCredited_ok.
Qed.

(** popStreamFrame counts the frame. *)
Lemma popStreamFrame_spec W now limiter maxBytes s c :
  stream_ok W s → conn_range c → MinStreamFrameSize ≤ maxBytes ≤ MaxPacketBufferSize →
  ∃ f blocked more s' c', popStreamFrame now limiter maxBytes s c = Ret (f, blocked, more, s', c') ∧
    conn_range c' ∧ pop_result W maxBytes s s' f ∧
    k_num (view s') = k_num (view s) + (if f then 1 else 0).
Proof.
  intros Hok Hc Hmax. unfold popStreamFrame.
  destruct (popNewStreamFrameForPacket_spec W limiter maxBytes s c Hok Hc Hmax)
    as (f & blocked & more & s1 & c' & -> & Hc' & Hres & Hnum). cbn [mbind outcome_bind].
  set (s2 := match f with Some _ => _ | None => s1 end).
  set (m := match blocked with Some _ => false | None => more end).
  set (s3 := if m then s2 else _).
  eexists _, _, _, _, _. split; [done|]. split; [done|].
  assert (quiet s2 s3) as [Hv Hh] by (unfold s3; destruct m; [apply quiet_refl|apply endEpisode_quiet]).
  assert (view s2 = view s1 <|k_num := k_num (view s2)|> ∧ (head_ok s1 → head_ok s2) ∧
    k_num (view s2) = k_num (view s1) + (if f then 1 else 0)) as (Hv2 & Hh2 & Hn2).
  { unfold s2. destruct f; (split_and!; [done|done|]); [done|]. cbn. by rewrite Z.add_0_r. }
  split; [|by rewrite Hv, Hn2, Hnum].
  destruct Hres as ([Hh1 Hk1] & Ha & Hf).
  assert (data_of (view s3) = data_of (view s1)) as Hd by by rewrite Hv, Hv2.
  destruct (core_ok_ext W (view s1) (view s3) Hd Hk1) as [Hk3 Ha3].
  split_and!; [split; auto| |].
  - destruct Ha as [A1 A2 A3 A4 A5]. rewrite Hv, Hv2. by constructor.
  - rewrite Hv, Hv2. destruct f as [f|].
    + destruct Hf as (Hp & Hs & Hfit). split_and!; [|by destruct Hs|done].
      eapply advance_piece; [|exact Hp]. rewrite <-Hv2, <-Hv. exact Ha3.
    + destruct Hf as ([] & Ho & Hdf). split_and!; [|done|done]. constructor; try done.
Qed.
