(* ===== verification/SendStreamClosing.v ===== *)
(** * Retransmission, closing and cancelling of a stream, and acknowledgements

    What these operations do to the data a stream still has to send. *)

From S2P Require Import Prelude QuicVarint Protocol WireBase WireFrames WireStream WireStreamFacts FlowControl SendStream SendStreamFacts SendStreamWriting SendStreamSending.

(** ** Parts and pieces *)

Lemma part_prefix W off n m : 0 ≤ n → 0 ≤ m → take (Z.to_nat n) (part W off (n + m)) = part W off n.
Proof. intros. unfold part. rewrite take_take. f_equal. lia. Qed.
Lemma part_suffix W off n m :
  0 ≤ off → 0 ≤ n → 0 ≤ m → drop (Z.to_nat n) (part W off (n + m)) = part W (off + n) m.
Proof.
  intros. unfold part. rewrite !Z2Nat.inj_add by lia. by rewrite <-take_drop_commute, drop_drop.
Qed.

(** The two frames of a split. *)
Lemma piece_split W k g f r :
  piece W k g → sf_Data g = sf_Data f ++ sf_Data r → sf_Data f ≠ [] → sf_Data r ≠ [] →
  sf_StreamID f = sf_StreamID g → sf_StreamID r = sf_StreamID g →
  sf_Offset f = sf_Offset g → sf_Offset r = sf_Offset g + len (sf_Data f) →
  sf_Fin f = false → sf_Fin r = sf_Fin g → pool_ok f → pool_ok r → piece W k f ∧ piece W k r.
Proof.
  intros [Pid Poff Pend Pdata Plen Psome Ppool Pfin] Hd Hf Hr Hid1 Hid2 Ho1 Ho2 Hfin1 Hfin2 Hp1 Hp2.
  assert (∀ d : bytes, d ≠ [] → 0 < len d) as Hpos.
  { intros d Hne. pose proof (len_nonneg d). assert (len d ≠ 0) by by rewrite len_0_nil. lia. }
  pose proof (Hpos _ Hf). pose proof (Hpos _ Hr).
  rewrite Hd, len_app in Pend, Pdata, Plen, Pfin.
  split; constructor; rewrite ?Hid1, ?Hid2, ?Ho1, ?Ho2, ?Hfin1, ?Hfin2; try done; try lia; try (right; lia).
  - rewrite <-(part_prefix W _ (len (sf_Data f)) (len (sf_Data r))) by lia. rewrite <-Pdata.
    by rewrite take_app_length' by (unfold len; lia).
  - rewrite <-part_suffix by lia. rewrite <-Pdata. by rewrite drop_app_length' by (unfold len; lia).
  - intros Hl Hfin. destruct (Pfin Hl Hfin). split; [done|lia].
Qed.

(** The first bytes of a piece. *)
Lemma piece_truncate W k g n :
  piece W k g → 0 < n ≤ len (sf_Data g) → ¬ live k →
  truncateFrame g n = Ret (MkStreamFrame (sf_StreamID g) (sf_Offset g) (take (Z.to_nat n) (sf_Data g))
                             (sf_cap g) (sf_Fin g) (sf_DataLenPresent g) (sf_fromPool g)) ∧
  piece W k (MkStreamFrame (sf_StreamID g) (sf_Offset g) (take (Z.to_nat n) (sf_Data g))
               (sf_cap g) (sf_Fin g) (sf_DataLenPresent g) (sf_fromPool g)).
Proof.
  intros [Pid Poff Pend Pdata Plen Psome Ppool Pfin] Hn Hl. unfold truncateFrame. rewrite slice_to_take by lia. split; [done|].
  assert (len (take (Z.to_nat n) (sf_Data g)) = n) as Hlen by (apply len_take_front; lia).
  constructor; cbn [sf_StreamID sf_Offset sf_Data sf_Fin]; rewrite ?Hlen; try done; try lia; try (right; lia).
  rewrite Pdata at 1. replace (len (sf_Data g)) with (n + (len (sf_Data g) - n)) by lia.
  apply part_prefix; lia.
Qed.

Lemma core_ok_queue W k q n :
  core_ok W k → Forall (piece W k) q →
  core_ok W (k <|k_queue := q|> <|k_num := n|>) ∧ advance W k W (k <|k_queue := q|> <|k_num := n|>).
Proof.
  intros Hk Hq. assert (advance W k W (k <|k_queue := q|> <|k_num := n|>)) as Ha by by constructor.
  split; [|done]. core_cases Hk. constructor; upd; try done. by eapply advance_pieces.
Qed.

(** ** Retransmission *)

(** The byte at offset [i] is in [f], in one of [fs]. *)
Definition within (f : StreamFrame) (i : Z) : Prop := sf_Offset f ≤ i < sf_Offset f + len (sf_Data f).
Definition covered (fs : list StreamFrame) (i : Z) : Prop := Exists (λ f, within f i) fs.

Lemma in_frames_cons f fs i : covered (f :: fs) i ↔ within f i ∨ covered fs i.
Proof. apply Exists_cons. Qed.
Lemma in_frames_app fs gs i : covered (fs ++ gs) i ↔ covered fs i ∨ covered gs i.
Proof. apply Exists_app. Qed.

(** What popRetransmissionFrame takes from the queue. *)
Definition requeued (q q' : list StreamFrame) (f : StreamFrame) : Prop :=
  q = f :: q' ∨ ∃ g r tl, q = g :: tl ∧ q' = r :: tl ∧ sf_Data g = sf_Data f ++ sf_Data r ∧
    sf_Offset f = sf_Offset g ∧ sf_Offset r = sf_Offset g + len (sf_Data f) ∧
    sf_Fin f = false ∧ sf_Fin r = sf_Fin g.

Lemma popRetransmissionFrame_spec W maxBytes s :
  stream_ok W s →
  ∃ f more s', popRetransmissionFrame maxBytes s = Ret (f, more, s') ∧
    stream_ok W s' ∧ advance W (view s) W (view s') ∧
    view s' = view s <|k_queue := k_queue (view s')|> <|k_num := k_num (view s')|> ∧
    match f with
    | None => view s' = view s
    | Some f => requeued (k_queue (view s)) (k_queue (view s')) f ∧ k_num (view s') = k_num (view s) + 1 ∧
        piece W (view s') f ∧ ∃ L, StreamFrame_Length f = Ret L ∧ L ≤ maxBytes
    end.
Proof.
  intros [Hh Hk]. unfold popRetransmissionFrame.
  destruct (st_shutdownErr s) eqn:Hs; [by eexists _, _, _|].
  destruct (st_retransmissionQueue s) as [|g tl] eqn:Hq; [by eexists _, _, _|].
  pose proof (ok_queue _ _ Hk) as Hqk. change (k_queue (view s)) with (st_retransmissionQueue s) in Hqk.
  rewrite Hq in Hqk. apply Forall_cons in Hqk as [Hg Htl].
  destruct (StreamFrame_split g maxBytes (piece_ok _ _ _ Hk Hg)) as (new & required & rest & -> & Hsplit).
  cbn [mbind outcome_bind].
  assert (∀ q n, let s' := s <|st_retransmissionQueue := q|> <|st_numOutstandingFrames := n|> in
    Forall (piece W (view s)) q → stream_ok W s' ∧ advance W (view s) W (view s')) as Hgo.
  { intros q n s' Hqq. destruct (core_ok_queue W (view s) q n Hk Hqq) as [? ?]. done. }
  destruct new as [f|].
  - destruct Hsplit as (-> & Hd & Hf & Hr & Hid1 & Hid2 & Ho1 & Ho2 & Hfi1 & Hfi2 & _ & _ & HL & _ & (Hc1 & Hp1) & Hc2 & Hp2).
    destruct (piece_split W (view s) g f rest) as [Hpf Hpr]; try done.
    { unfold pool_ok. rewrite Hc1, Hp1. exact (pc_pool _ _ _ Hg). }
    { by unfold pool_ok. }
    destruct (Hgo (rest :: tl) (st_numOutstandingFrames s + 1)) as [Hok Ha]; [apply Forall_cons; split; assumption|].
    eexists _, _, _. split; [done|]. split_and!; [done|done|done| |done| |].
    + right. exists g, rest, tl. by change (k_queue (view s)) with (st_retransmissionQueue s).
    + by eapply advance_piece.
    + destruct HL as (L & ? & ?). exists L. split; [done|lia].
  - destruct Hsplit as [-> Hreq]. destruct required.
    + eexists _, _, _. split; [done|].
      assert (view (s <|st_retransmissionQueue := g :: tl|>) = view s) as Hv.
      { change (view (s <|st_retransmissionQueue := g :: tl|>)) with (view s <|k_queue := g :: tl|>).
        rewrite <-Hq. done. }
      rewrite Hv. split_and!; [split; [done|by rewrite Hv]|apply advance_refl|done|done].
    + destruct (Hgo tl (st_numOutstandingFrames s + 1)) as [Hok Ha]; [done|].
      eexists _, _, _. split; [done|]. split_and!; [done|done|done| |done| |by apply Hreq].
      * left. by change (k_queue (view s)) with (st_retransmissionQueue s).
      * by eapply advance_piece.
Qed.

(** ** Dropping everything *)

Definition emptied (k : Core) : Core :=
  k <|k_queue := []|> <|k_next := None|> <|k_res := false|> <|k_buf := []|>.

Lemma next_pool W k : core_ok W k → match k_next k with Some f => pool_ok f | None => True end.
Proof. intros Hk. destruct (k_next k) as [f|] eqn:E; [|done]. by destruct (ok_next _ _ Hk f E) as [[] _]. Qed.

Lemma returnFramesToPool_spec s :
  Forall pool_ok (st_retransmissionQueue s) →
  match st_nextFrame s with Some f => pool_ok f | None => True end →
  ∃ s', returnFramesToPool s = Ret s' ∧ head_ok s' ∧ view s' = emptied (view s).
Proof.
  intros Hq Hn. unfold returnFramesToPool. destruct (uncork_quiet s) as [Hv _].
  pose proof (f_equal k_queue Hv) as Eq. pose proof (f_equal k_next Hv) as En.
  change (st_retransmissionQueue (uncorkLocked s) = st_retransmissionQueue s) in Eq.
  change (st_nextFrame (uncorkLocked s) = st_nextFrame s) in En.
  rewrite Eq, putBackAll_ok by done. cbn [mbind outcome_bind].
  set (s1 := uncorkLocked s <|st_retransmissionQueue := []|>).
  change (st_nextFrame s1) with (st_nextFrame (uncorkLocked s)). rewrite En.
  assert ((match st_nextFrame s with Some f => StreamFrame_PutBack f | None => Ret () end) = Ret ()) as ->.
  { destruct (st_nextFrame s); [by apply PutBack_ok|done]. }
  cbn [mbind outcome_bind]. eexists. split; [done|]. split; [done|].
  set (s2 := dropWriteBuffer _). change (view s2) with (emptied (view (uncorkLocked s))). by rewrite Hv.
Qed.

(** A stream that has given up its data. *)
Lemma emptied_ok W k :
  core_ok W k → ¬ live k → (k_shut k = None → reliable k = 0) → core_ok W (emptied k).
Proof.
  intros Hk Hl Hr. core_cases Hk. unfold emptied. constructor; upd; try done.
  - exists (drop (Z.to_nat (k_wo k)) W). split; [done|]. intros Hl'. done.
  - intros Hs. specialize (Hr Hs). split.
    + intros Hre. exfalso. apply Hl. done.
    + unfold reliable in *. upd. rewrite Hr. unfold unsent, next_data. upd. change (len (A:=Z) ([] ++ [])) with 0. lia.
  - unfold reserved in *. upd. pose proof (reserved_nonneg k). unfold reserved in *. lia.
  - intros Hf. split; [by apply Hfin|]. intros Hl'. done.
Qed.

(** ** Keeping the reliable part *)

Lemma truncateQueue_spec W k rel q :
  ¬ live k → Forall (piece W k) q →
  ∃ q', truncateQueue rel q = Ret q' ∧ Forall (piece W k) q' ∧ ∀ i, i < rel → covered q i → covered q' i.
Proof.
  intros Hl. induction 1 as [|f q Hf Hq (q' & IH & Hq' & Hc)]; cbn [truncateQueue]; [by eexists|].
  rewrite Z.geb_leb. destruct (Z.leb_spec rel (sf_Offset f)).
  { rewrite PutBack_ok by apply Hf. cbn [mbind outcome_bind]. eexists. split_and!; [done|done|].
    intros i Hi [Hfi|Hfi]%in_frames_cons; [unfold within in Hfi; lia|auto]. }
  unfold StreamFrame_DataLen. destruct (Z.leb_spec (sf_Offset f + len (sf_Data f)) rel).
  - cbn [mbind outcome_bind]. rewrite IH. eexists. split; [done|]. split; [by apply Forall_cons|].
    intros i Hi [Hfi|Hfi]%in_frames_cons; apply in_frames_cons; auto.
  - destruct (piece_truncate W k f (rel - sf_Offset f) Hf) as [-> Hp]; [lia|done|].
    cbn [mbind outcome_bind]. rewrite IH. eexists. split; [done|]. split; [by apply Forall_cons|].
    intros i Hi [Hfi|Hfi]%in_frames_cons; apply in_frames_cons; [left|auto].
    unfold within in *. cbn [sf_Offset sf_Data]. rewrite len_take_front by lia. lia.
Qed.

(** On a stream that is reset, with [rel] bytes to keep. *)
Section keeping.
Context (W : bytes) (rel : Z).

Lemma keep_buffer_ok k n :
  core_ok W k → ¬ live k → reliable k = rel → n = rel - (k_wo k + len (next_data k)) →
  core_ok W (k <|k_buf := take (Z.to_nat n) (k_buf k)|>).
Proof.
  intros Hk Hl Hr Hn. core_cases Hk. constructor; upd; try done.
  - destruct Hunsent as (rest & Hd & _). exists (drop (Z.to_nat n) (k_buf k) ++ rest). split; [|done].
    rewrite Hd. unfold unsent, next_data. upd. rewrite <-!app_assoc. f_equal. by rewrite app_assoc, take_drop.
  - intros Hs. destruct (Hbound Hs) as [Hb1 Hb2]. split; [intros Hre; by destruct Hl|].
    change (reliable (k <|k_buf := take (Z.to_nat n) (k_buf k)|>)) with (reliable k).
    unfold unsent in *. change (next_data (k <|k_buf := take (Z.to_nat n) (k_buf k)|>)) with (next_data k). upd.
    rewrite len_app in *. pose proof (len_nonneg (next_data k)). pose proof (len_nonneg (k_buf k)).
    assert (len (take (Z.to_nat n) (k_buf k)) = Z.max 0 (Z.min n (len (k_buf k))))
      by (unfold len; rewrite length_take; lia).
    lia.
  - eapply Forall_impl; [exact Hqueue|]. intros f []. by constructor.
  - intros Hf. split; [by apply Hfin|done].
Qed.

Lemma keep_next_none k :
  core_ok W k → ¬ live k → reliable k = rel → rel ≤ k_wo k → k_buf k = [] →
  core_ok W (k <|k_next := None|> <|k_res := false|>).
Proof.
  intros Hk Hl Hr Hle Hb. core_cases Hk. constructor; upd; try done.
  - exists (drop (Z.to_nat (k_wo k)) W). unfold unsent, next_data. upd. by rewrite Hb.
  - intros Hs. split; [intros Hre; by destruct Hl|].
    change (reliable (k <|k_next := None|> <|k_res := false|>)) with (reliable k).
    match goal with |- _ ≤ _ + len ?l => pose proof (len_nonneg l) end. lia.
  - pose proof (reserved_nonneg k). unfold reserved at 1. upd. lia.
  - eapply Forall_impl; [exact Hqueue|]. intros f []. by constructor.
  - intros Hf. split; [by apply Hfin|done].
Qed.

Lemma keep_next_some k f n :
  core_ok W k → ¬ live k → reliable k = rel → k_next k = Some f → n = rel - k_wo k → 0 < n ≤ len (sf_Data f) →
  k_buf k = [] →
  core_ok W (k <|k_next := Some (MkStreamFrame (sf_StreamID f) (sf_Offset f) (take (Z.to_nat n) (sf_Data f))
               (sf_cap f) (sf_Fin f) (sf_DataLenPresent f) (sf_fromPool f))|>).
Proof.
  intros Hk Hl Hr Hf Hn Hlen Hb. core_cases Hk. destruct (Hnext f Hf) as [[Nid Noff Nlen Ndata Ncap Npool] Nres].
  assert (len (take (Z.to_nat n) (sf_Data f)) = n) as Ht by (apply len_take_front; lia).
  constructor; upd; try done.
  - destruct Hunsent as (rest & Hd & _). exists (drop (Z.to_nat n) (sf_Data f) ++ rest). split; [|done].
    rewrite Hd. unfold unsent, next_data. upd. rewrite Hf, Hb, !app_nil_r. cbn [sf_Data].
    by rewrite app_assoc, take_drop.
  - intros ? [= <-]. split; [|done]. constructor; cbn; try done; [|lia].
    intros E. rewrite E in Ht. change (len (A:=Z) []) with 0 in Ht. lia.
  - intros Hs. split; [intros Hre; by destruct Hl|].
    change (reliable (k <|k_next := _|>)) with (reliable k).
    unfold unsent, next_data. upd. cbn [sf_Data]. rewrite Hb, app_nil_r, Ht. lia.
  - unfold reserved, next_data in *. upd. rewrite Hf in Hflow. cbn [sf_Data]. destruct (k_res k); lia.
  - eapply Forall_impl; [exact Hqueue|]. intros g []. by constructor.
  - intros Hfi. split; [by apply Hfin|done].
Qed.

(** The write buffer cut at [rel]. *)
Lemma cutBuffer_spec s :
  stream_ok W s → ¬ live (view s) → reliable (view s) = rel →
  ∃ s', (let start := bufferStartOffset s in
         if start >=? rel then Ret (dropWriteBuffer s)
         else if start + bufferedWriteLen s >? rel then
           d ← or_panic (slice_to (writeBuffer s) (st_writeBufferHead s + (rel - start)));
           Ret (s <|st_writeBuffer := match st_writeBuffer s with
                                      | Some (_, cap) => Some (d, cap)
                                      | None => None
                                      end|>)
         else Ret s) = (Ret s' : outcome FrameError SendStream) ∧ stream_ok W s' ∧
    view s' = view s <|k_buf := k_buf (view s')|> ∧
    (rel ≤ k_wo (view s) + len (next_data (view s)) → k_buf (view s') = []).
Proof.
  intros [Hh Hk] Hl Hr. set (start := bufferStartOffset s).
  assert (start = k_wo (view s) + len (next_data (view s))) as Hst.
  { unfold start, bufferStartOffset, next_data, StreamFrame_DataLen.
    change (k_next (view s)) with (st_nextFrame s). change (k_wo (view s)) with (st_writeOffset s).
    destruct (st_nextFrame s); [done|]. change (len (A:=Z) []) with 0. lia. }
  pose proof (keep_buffer_ok (view s) (rel - start) Hk Hl Hr ltac:(lia)) as Hk'.
  change (k_buf (view s)) with (buffered s) in Hk'. cbv zeta. rewrite bufferedWriteLen_eq by done.
  pose proof (len_nonneg (buffered s)). rewrite Z.geb_leb.
  destruct (Z.leb_spec rel start) as [Hge|Hlt].
  { eexists. split; [done|]. replace (Z.to_nat (rel - start)) with 0%nat in Hk' by lia. by split_and!. }
  destruct (Z.gtb_spec (start + len (buffered s)) rel) as [Hgt|Hle].
  - destruct Hh as [Hh1 Hh2].
    assert (len (buffered s) = len (writeBuffer s) - st_writeBufferHead s) as Hlb
      by (unfold buffered, len in *; rewrite length_drop; lia).
    rewrite slice_to_take by lia. cbn [mbind outcome_bind or_panic]. eexists. split; [done|].
    set (s' := s <|st_writeBuffer := _|>).
    assert (writeBuffer s' = take (Z.to_nat (st_writeBufferHead s + (rel - start))) (writeBuffer s)) as Ewb.
    { unfold s', writeBuffer. upd. destruct (st_writeBuffer s) as [[]|]; [done|]. by rewrite take_nil. }
    assert (buffered s' = take (Z.to_nat (rel - start)) (buffered s)) as Eb.
    { unfold buffered at 1. rewrite Ewb. change (st_writeBufferHead s') with (st_writeBufferHead s).
      rewrite Z2Nat.inj_add by lia. by rewrite <-take_drop_commute. }
    assert (view s' = view s <|k_buf := take (Z.to_nat (rel - start)) (buffered s)|>) as Ev by by rewrite <-Eb.
    split_and!; [split; [|by rewrite Ev]|done|lia].
    unfold head_ok. rewrite Ewb. change (st_writeBufferHead s') with (st_writeBufferHead s).
    unfold len in *. rewrite length_take. lia.
  - eexists. split; [done|]. split_and!; [done|done|lia].
Qed.

Lemma keepReliable_spec s :
  stream_ok W s → ¬ live (view s) → reliable (view s) = rel →
  ∃ s', keepReliable rel s = Ret s' ∧ stream_ok W s' ∧
    view s' = view s <|k_buf := k_buf (view s')|> <|k_next := k_next (view s')|> <|k_res := k_res (view s')|>
                     <|k_queue := k_queue (view s')|> ∧
    ∀ i, i < rel → covered (k_queue (view s)) i → covered (k_queue (view s')) i.
Proof.
  intros Hok Hl Hr. unfold keepReliable.
  destruct (cutBuffer_spec s Hok Hl Hr) as (s1 & E1 & [Hh1 Hk1] & Hv1 & Hb1). cbv zeta in E1. cbv zeta. rewrite E1.
  clear E1. cbn [mbind outcome_bind].
  assert (¬ live (view s1)) as Hl1 by (rewrite Hv1; exact Hl).
  assert (reliable (view s1) = rel) as Hr1 by (rewrite Hv1; exact Hr).
  assert (next_data (view s1) = next_data (view s) ∧ k_wo (view s1) = k_wo (view s)) as [Hn1 Hw1] by (by rewrite Hv1).
  rewrite <-Hn1, <-Hw1 in Hb1. clear Hn1 Hw1.
  match goal with |- context [mbind _ ?m] => set (step := m) end.
  assert (∃ s2, step = Ret s2 ∧ stream_ok W s2 ∧
    view s2 = view s1 <|k_next := k_next (view s2)|> <|k_res := k_res (view s2)|>) as (s2 & -> & [Hh2 Hk2] & Hv2).
  { subst step. unfold StreamFrame_DataLen. destruct (st_nextFrame s1) as [f|] eqn:Hf; [|by exists s1].
    destruct (ok_next _ _ Hk1 f Hf) as [[Nid Noff Nlen Ndata Ncap Npool] _].
    change (k_wo (view s1)) with (st_writeOffset s1) in *. unfold next_data in Hb1.
    change (k_next (view s1)) with (st_nextFrame s1) in Hb1. rewrite Hf in Hb1.
    pose proof (len_nonneg (sf_Data f)). rewrite Noff, Z.geb_leb. destruct (Z.leb_spec rel (st_writeOffset s1)).
    - rewrite PutBack_ok by done. cbn [mbind outcome_bind]. eexists. split; [done|].
      split; [|done]. split; [done|]. apply (keep_next_none (view s1)); try done. apply Hb1. lia.
    - destruct (Z.gtb_spec (st_writeOffset s1 + len (sf_Data f)) rel); [|by exists s1].
      unfold truncateFrame. rewrite slice_to_take by lia. cbn [mbind outcome_bind or_panic]. eexists.
      split; [done|]. split; [|done]. split; [done|].
      apply (keep_next_some (view s1) f (rel - st_writeOffset s1)); try done; [lia|]. apply Hb1. lia. }
  cbn [mbind outcome_bind].
  assert (¬ live (view s2)) as Hl2 by (rewrite Hv2; exact Hl1).
  destruct (truncateQueue_spec W (view s2) rel (st_retransmissionQueue s2) Hl2) as (q & -> & Hq & Hcov);
    [exact (ok_queue _ _ Hk2)|].
  cbn [mbind outcome_bind]. eexists. split; [done|].
  set (s3 := s2 <|st_retransmissionQueue := q|>).
  destruct (core_ok_queue W (view s2) q (k_num (view s2)) Hk2 Hq) as [Hk3 _].
  split; [split; [done|exact Hk3]|].
  assert (k_queue (view s2) = k_queue (view s)) as Eq.
  { rewrite Hv2. change (k_queue (view s1) = k_queue (view s)). by rewrite Hv1. }
  split; [|change (k_queue (view s3)) with q; rewrite <-Eq; exact Hcov].
  change (view s3) with (view s2 <|k_queue := q|>). clear -Hv1 Hv2. revert Hv1 Hv2.
  generalize (k_buf (view s1)) (k_next (view s2)) (k_res (view s2)). intros ??? -> ->. reflexivity.
Qed.
End keeping.

(** ** Completion *)

(** Nothing is left to send, nor in flight. *)
Definition finished (k : Core) : Prop :=
  unsent k = [] ∧ k_num k ≤ 0 ∧ k_queue k = [] ∧ k_queued k = None ∧ (k_finSent k = true ∨ is_Some (k_reset k)).

Lemma isNewlyCompleted_once s : k_once (view (isNewlyCompleted s).2) = k_once (view s).
Proof.
  unfold isNewlyCompleted. repeat (case_match || destruct (_ || _) || destruct (_ && _)); done.
Qed.

(** The end of the operations that may complete the stream: flags change, and
    the completion is reported when nothing is left. *)
Lemma completing W s :
  stream_ok W s →
  ∃ c s', isNewlyCompleted s = (c, s') ∧ flags_only s s' ∧ k_once (view s') = k_once (view s) ∧
    (onStreamCompleted ∈ completedCall c → finished (view s)).
Proof.
  intros [Hh _]. pose proof (isNewlyCompleted_flags s) as Hf. pose proof (isNewlyCompleted_once s) as Ho.
  pose proof (isNewlyCompleted_true s Hh) as Ht. destruct (isNewlyCompleted s) as [c s'].
  exists c, s'. split_and!; [done|done|done|]. destruct c; [intros _|by intros ?%not_elem_of_nil].
  by destruct (Ht eq_refl) as (?&?&?&?&?).
Qed.

Lemma finished_flags s s' : flags_only s s' → finished (view s) → finished (view s').
Proof.
  intros (E & Hn & Hr & _) (Hu & Hnum & Hq & Hqr & Hf). injection E as E1 E2 E3 E4 E5 E6 E7 E8 E9 E10 E11 E12 E13 E14.
  unfold finished, unsent, next_data, view in *. cbn [k_next k_buf k_num k_queue k_queued k_finSent k_reset] in *.
  by rewrite E8, E10, E1, E13, E6, Hn, Hr.
Qed.

(** ** Operations of the application *)

(** Fields that the frames in flight do not depend on may change. *)
Record keeps (s s' : SendStream) : Prop := {
  kp_frames : same_frames (view s) (view s');
  kp_once : st_writeOnce s' = st_writeOnce s;
  kp_dfw : st_dataForWriting s' = st_dataForWriting s }.

Lemma keeps_flags s s' : flags_only s s' → k_once (view s') = k_once (view s) → keeps s s'.
Proof.
  intros Hf Ho. pose proof (dfw_flags _ _ Hf) as Hd. destruct Hf as (E & Hn & Hq & _).
  injection E as E1 E2 E3 E4 E5 E6 E7 E8 E9 E10 E11 E12 E13 E14. by constructor.
Qed.

Lemma Close_spec W s :
  stream_ok W s →
  let '(_, calls, s') := Close s in
  stream_ok W s' ∧ advance W (view s) W (view s') ∧ keeps s s' ∧
  (onStreamCompleted ∈ calls → finished (view s')).
Proof.
  intros Hok. unfold Close. destruct (_ || _).
  { split_and!; [done|apply advance_refl|by constructor|by intros ?%not_elem_of_nil]. }
  set (s1 := uncorkLocked (s <|st_finishedWriting := true|>)).
  set (s2 := if bool_decide (is_Some (st_resetErr s1)) then _ else s1).
  assert (flags_only (s <|st_finishedWriting := true|>) s2 ∧ k_once (view s2) = k_once (view s)) as [Hf2 Ho2].
  { destruct (uncork_quiet (s <|st_finishedWriting := true|>)) as [Hv Hh].
    pose proof (quiet_flags _ _ (uncork_quiet (s <|st_finishedWriting := true|>))) as Hf.
    assert (k_once (view s1) = k_once (view s)) by (unfold s1; by rewrite Hv).
    unfold s2. destruct (bool_decide _); [|done]. split; [|done]. eapply flags_trans; [exact Hf|]. flags_solve. }
  assert (stream_ok W (s <|st_finishedWriting := true|>) ∧
          advance W (view s) W (view (s <|st_finishedWriting := true|>))) as [Hok1 Ha1].
  { destruct Hok as [Hh Hk]. set (s0 := s <|st_finishedWriting := true|>).
    change (view s0) with (view s <|k_closed := true|>).
    assert (advance W (view s) W (view s <|k_closed := true|>)) as Ha by by constructor.
    split; [split; [done|]|done]. change (view s0) with (view s <|k_closed := true|>).
    core_cases Hk. constructor; upd; try done; [by eapply advance_pieces|].
    intros Hf. split; [done|]. by apply Hfin. }
  destruct (flags_ok _ _ _ Hf2 Hok1) as (Hok2 & Ha2 & Hs2).
  destruct (completing W s2 Hok2) as (c & s3 & E & Hf3 & Ho3 & Hc). rewrite E.
  destruct (flags_ok _ _ _ Hf3 Hok2) as (Hok3 & Ha3 & Hs3).
  split_and!; [done| | |].
  - eapply advance_trans; [exact Ha1| |done]. eapply advance_trans; [exact Ha2|exact Ha3|by rewrite (sm_wo _ _ Hs2)].
  - constructor.
    + destruct (same_frames_trans _ _ _ Hs2 Hs3). by constructor.
    + change (k_once (view s3) = k_once (view s)). congruence.
    + rewrite (dfw_flags _ _ Hf3), (dfw_flags _ _ Hf2). done.
  - intros [Hin|Hin]%elem_of_app; [by eapply finished_flags, Hc|].
    destruct (bool_decide _) in Hin; [by apply not_elem_of_nil in Hin|].
    by apply list_elem_of_singleton in Hin.
Qed.

Lemma boundary_eq W s :
  stream_ok W s → bufferStartOffset s + bufferedWriteLen s = k_wo (view s) + len (unsent (view s)).
Proof.
  intros [Hh Hk]. rewrite bufferedWriteLen_eq by done.
  unfold bufferStartOffset, unsent, next_data, StreamFrame_DataLen, view.
  cbn [k_next k_buf k_wo]. rewrite len_app. destruct (st_nextFrame s); [lia|]. change (len (A:=Z) []) with 0. lia.
Qed.

(** The boundary is the end of the data written so far. *)
Lemma SetReliableBoundary_spec W s :
  stream_ok W s → st_resetErr s = None →
  stream_ok W (SetReliableBoundary s) ∧ advance W (view s) W (view (SetReliableBoundary s)) ∧
  view (SetReliableBoundary s) =
    view s <|k_rel := Z.max (k_rel (view s)) (k_wo (view s) + len (unsent (view s)))|>.
Proof.
  intros Hok Hr. pose proof (boundary_eq W s Hok) as E. destruct Hok as [Hh Hk].
  assert (view (SetReliableBoundary s) =
    view s <|k_rel := Z.max (k_rel (view s)) (k_wo (view s) + len (unsent (view s)))|>) as Hv
    by (rewrite <-E; done).
  unfold stream_ok. rewrite Hv.
  assert (advance W (view s) W (view s <|k_rel := Z.max (k_rel (view s)) (k_wo (view s) + len (unsent (view s)))|>))
    as Ha by by constructor.
  split_and!; [done| |done|done].
  core_cases Hk. constructor; upd; try done; [lia| |by eapply advance_pieces].
  intros Hs. destruct (Hbound Hs) as [Hb1 Hb2]. specialize (Hb1 Hr).
  split; [lia|]. unfold reliable in *. upd. destruct (k_sup (view s)); [lia|].
  pose proof (len_nonneg (unsent (view s))). lia.
Qed.

Lemma enableResetStreamAt_spec W s :
  stream_ok W s → st_resetErr s = None →
  stream_ok W (enableResetStreamAt s) ∧ advance W (view s) W (view (enableResetStreamAt s)) ∧
  view (enableResetStreamAt s) = view s <|k_sup := true|>.
Proof.
  intros [Hh Hk] Hr. unfold stream_ok. change (view (enableResetStreamAt s)) with (view s <|k_sup := true|>).
  assert (advance W (view s) W (view s <|k_sup := true|>)) as Ha by by constructor.
  split_and!; [done| |done|done]. core_cases Hk. constructor; upd; try done; [|by eapply advance_pieces].
  intros Hs. destruct (Hbound Hs) as [Hb1 _]. specialize (Hb1 Hr). split; [done|]. exact Hb1.
Qed.

(** ** Cancelling *)

(** A stream may be reset in any state. *)
Lemma reset_ok W k e : core_ok W k → core_ok W (k <|k_reset := Some e|>) ∧ advance W k W (k <|k_reset := Some e|>).
Proof.
  intros Hk. assert (¬ live (k <|k_reset := Some e|>)) as Hl by (intros [? _]; done).
  assert (advance W k W (k <|k_reset := Some e|>)) as Ha by (constructor; upd; done || (intros ?; by destruct Hl)).
  split; [|done]. core_cases Hk. constructor; upd; try done.
  - destruct Hunsent as (rest & ? & _). by exists rest.
  - intros Hs. split; [done|]. by apply Hbound.
  - by eapply advance_pieces.
  - intros Hf. split; [by apply Hfin|done].
Qed.

(** The state after a reset that keeps [rel] bytes reliable. *)
Record was_reset (rel : Z) (k k' : Core) : Prop := {
  wr_shut : k_shut k' = None;
  wr_reset : is_Some (k_reset k');
  wr_rel : reliable k' = rel;
  wr_wo : k_wo k' = k_wo k;
  wr_fin : k_finSent k' = k_finSent k;
  wr_once : k_once k' = k_once k;
  wr_dfw : k_dfw k' = k_dfw k;
  wr_queued : ∃ r, k_queued k' = Some r ∧ rs_ReliableSize r = rel ∧ k_wo k ≤ rs_FinalSize r;
  wr_num : k_num k' = if rel =? 0 then 0 else k_num k;
  wr_queue : ∀ i, i < rel → covered (k_queue k) i → covered (k_queue k') i;
  wr_empty : rel = 0 → k_queue k' = [] }.

Lemma queue_pools W k : core_ok W k → Forall pool_ok (k_queue k).
Proof. intros Hk. eapply Forall_impl; [exact (ok_queue _ _ Hk)|]. by intros f []. Qed.

Lemma covered_nonneg W k fs i : Forall (piece W k) fs → covered fs i → 0 ≤ i.
Proof.
  intros Hfs (f & Hf & [Hw _])%Exists_exists.
  pose proof (pc_off _ _ _ (proj1 (Forall_forall _ _) Hfs f Hf)). lia.
Qed.

(** The reliable size of a stream that is reset may be lowered. *)
Lemma lower_ok W k rel :
  core_ok W k → is_Some (k_reset k) → 0 ≤ rel → (if k_sup k then rel else 0) = 0 → core_ok W (k <|k_rel := rel|>).
Proof.
  intros Hk [e He] Hrel' Hz. core_cases Hk. constructor; upd; try done.
  - intros Hs. split; [congruence|]. unfold reliable. upd. rewrite Hz.
    match goal with |- 0 ≤ _ + len ?l => pose proof (len_nonneg l) end. lia.
  - eapply Forall_impl; [exact Hqueue|]. intros f []. by constructor.
Qed.

(** The final size covers what was sent. *)
Lemma reservedEnd_ge s n : n ≤ reservedEnd s n.
Proof. unfold reservedEnd. destruct (st_nextFrame s); [destruct (st_nextFrameReserved s)|]; lia. Qed.

(** Giving up all data. *)
Lemma reset_emptied W k e r rel :
  core_ok W k → k_shut k = None → 0 ≤ rel → (if k_sup k then rel else 0) = 0 → rs_ReliableSize r = 0 →
  k_wo k ≤ rs_FinalSize r →
  let k' := emptied (k <|k_rel := rel|> <|k_num := 0|> <|k_reset := Some e|>) <|k_queued := Some r|> in
  core_ok W k' ∧ advance W k W k' ∧ was_reset 0 k k'.
Proof.
  intros Hk Hs Hge Hz Hr Hfinal. cbv zeta. destruct (reset_ok W k e Hk) as [Hk1 _].
  assert (¬ live (k <|k_reset := Some e|> <|k_rel := rel|>)) as Hl by (intros [? _]; done).
  pose proof (lower_ok W (k <|k_reset := Some e|>) rel Hk1 ltac:(by eexists) Hge Hz) as Hk2.
  pose proof (emptied_ok W _ Hk2 Hl (λ _, Hz)) as Hk3. split_and!.
  - apply (core_ok_ext W (emptied (k <|k_reset := Some e|> <|k_rel := rel|>))); done.
  - constructor; unfold emptied; upd; try done; by intros [? _].
  - constructor; unfold emptied; upd; try done; [by eexists|].
    intros i Hi Hc. pose proof (covered_nonneg W k _ i (ok_queue _ _ Hk) Hc). lia.
Qed.

Lemma was_reset_same rel k k' k'' :
  was_reset rel k k' → k_shut k'' = k_shut k' → k_reset k'' = k_reset k' → reliable k'' = reliable k' →
  k_wo k'' = k_wo k' → k_finSent k'' = k_finSent k' → k_once k'' = k_once k' → k_dfw k'' = k_dfw k' →
  k_queued k'' = k_queued k' → k_num k'' = k_num k' →
  (∀ i, i < rel → covered (k_queue k') i → covered (k_queue k'') i) → rel ≠ 0 → was_reset rel k k''.
Proof.
  intros [] E1 E2 E3 E4 E5 E6 E7 E8 E9 Hc Hne.
  constructor; rewrite ?E1, ?E2, ?E3, ?E4, ?E5, ?E6, ?E7, ?E8, ?E9; auto. intros ?. done.
Qed.

(** Resetting with reliable data left. *)
Lemma reset_keeping W s e r :
  stream_ok W s → st_shutdownErr s = None → 0 < reliableOffset s → rs_ReliableSize r = reliableOffset s →
  st_writeOffset s ≤ rs_FinalSize r →
  ∃ s', keepReliable (reliableOffset s) (s <|st_resetErr := Some e|> <|st_queuedResetStreamFrame := Some r|>) = Ret s' ∧
    stream_ok W s' ∧ advance W (view s) W (view s') ∧ was_reset (reliableOffset s) (view s) (view s').
Proof.
  intros [Hh Hk] Hs Hpos Hr Hfinal. set (s1 := s <|st_resetErr := Some e|> <|st_queuedResetStreamFrame := Some r|>).
  destruct (reset_ok W (view s) e Hk) as [Hk1 Ha1].
  destruct (core_ok_ext W (view s <|k_reset := Some e|>) (view s1)) as [Hk2 Ha2]; [done|done|].
  assert (¬ live (view s1)) as Hl by (intros [? _]; done).
  assert (reliable (view s1) = reliableOffset s) as Hrel by (rewrite reliable_view; done).
  destruct (keepReliable_spec W (reliableOffset s) s1) as (s' & -> & Hok & Hv & Hc); [by split|done|done|].
  exists s'. split; [done|]. split; [done|].
  assert (was_reset (reliableOffset s) (view s) (view s1)) as Hw.
  { constructor; try done; [by eexists| |lia]. destruct (Z.eqb_spec (reliableOffset s) 0); [lia|done]. }
  assert (k_shut (view s') = k_shut (view s1) ∧ k_reset (view s') = k_reset (view s1) ∧
    reliable (view s') = reliable (view s1) ∧ k_wo (view s') = k_wo (view s1) ∧
    k_finSent (view s') = k_finSent (view s1) ∧ k_once (view s') = k_once (view s1) ∧
    k_dfw (view s') = k_dfw (view s1) ∧ k_queued (view s') = k_queued (view s1) ∧
    k_num (view s') = k_num (view s1) ∧ k_id (view s') = k_id (view s1))
    as (F1 & F2 & F3 & F4 & F5 & F6 & F7 & F8 & F9 & F10) by (rewrite Hv; split_and!; reflexivity).
  split; [|eapply was_reset_same; try done; lia].
  assert (¬ live (view s')) as Hl' by (unfold live; rewrite F1, F2; exact Hl).
  constructor; [by rewrite F10|rewrite F4; done|done|intros ?; done|intros ?; done].
Qed.

Lemma reliable_nonneg W s : stream_ok W s → 0 ≤ reliableOffset s.
Proof.
  intros [_ Hk]. pose proof (ok_rel _ _ Hk) as H. change (k_rel (view s)) with (st_reliableSize s) in H.
  unfold reliableOffset. destruct (negb _); lia.
Qed.

Lemma CancelWrite_spec W code s :
  stream_ok W s →
  ∃ calls s', CancelWrite code s = Ret (calls, s') ∧ stream_ok W s' ∧ advance W (view s) W (view s') ∧
    ((¬ live (view s) ∧ keeps s s' ∧ (onStreamCompleted ∈ calls → finished (view s'))) ∨
     (st_resetErr s = None ∧ st_shutdownErr s = None ∧ onStreamCompleted ∉ calls ∧
      was_reset (reliableOffset s) (view s) (view s'))).
Proof.
  intros Hok. unfold CancelWrite. destruct (bool_decide (is_Some (st_shutdownErr s))) eqn:Hs.
  { eexists _, _. split; [done|]. split_and!; [done|apply advance_refl|left].
    split_and!; [|by constructor|by intros ?%not_elem_of_nil].
    apply bool_decide_eq_true in Hs. intros [_ Hn]. change (st_shutdownErr s = None) in Hn. rewrite Hn in Hs. by destruct Hs. }
  apply bool_decide_eq_false, eq_None_not_Some in Hs.
  set (s0 := s <|st_cancellationFlagged := true|>).
  assert (flags_only s s0) as Hf0 by flags_solve. destruct (flags_ok W _ _ Hf0 Hok) as (Hok0 & _ & _).
  change (st_resetErr s0) with (st_resetErr s).
  destruct (bool_decide (is_Some (st_resetErr s))) eqn:Hr.
  { destruct (completing W s0 Hok0) as (c & s1 & -> & Hf1 & Ho1 & Hc1).
    pose proof (flags_trans _ _ _ Hf0 Hf1) as Hf. destruct (flags_ok _ _ _ Hf Hok) as (Hok1 & Ha1 & _).
    eexists _, _. split; [done|]. split_and!; [done|done|left]. split_and!; [|by apply keeps_flags|].
    { apply bool_decide_eq_true in Hr. intros [Hn _]. change (st_resetErr s = None) in Hn. rewrite Hn in Hr. by destruct Hr. }
    intros Hin. eapply finished_flags; [exact Hf1|auto]. }
  apply bool_decide_eq_false, eq_None_not_Some in Hr. cbv zeta.
  set (e := MkStreamError _ code false). set (s1 := s0 <|st_resetErr := Some e|>).
  change (reliableOffset s1) with (reliableOffset s). pose proof (reliable_nonneg W s Hok) as Hge.
  destruct (Z.eqb_spec (reliableOffset s) 0) as [Hz|Hnz].
  - destruct (returnFramesToPool_spec (s1 <|st_numOutstandingFrames := 0|>)) as (s2 & -> & Hh2 & Hv2);
      [exact (queue_pools _ _ (proj2 Hok))|exact (next_pool _ _ (proj2 Hok))|].
    cbn [mbind outcome_bind]. rewrite Hz. cbn [Z.gtb Z.compare]. cbn [mbind outcome_bind].
    eexists _, _. split; [done|].
    match goal with |- context [signalWrite (s2 <|st_queuedResetStreamFrame := Some ?r|>)] => set (rsf := r) end.
    destruct (reset_emptied W (view s) e rsf (k_rel (view s)) (proj2 Hok) Hs) as (Hk & Ha & Hw);
      [by apply (ok_rel W), Hok|by rewrite <-reliable_view in Hz|done|by etrans; [|apply reservedEnd_ge]; apply Z.le_max_l|].
    set (s3 := signalWrite _).
    assert (view s3 = emptied (view s <|k_rel := k_rel (view s)|> <|k_num := 0|> <|k_reset := Some e|>)
      <|k_queued := Some rsf|>) as Hv3.
    { change (view s3) with (view s2 <|k_queued := Some rsf|>). rewrite Hv2. done. }
    unfold stream_ok. rewrite Hv3. split_and!; [done|exact Hk|exact Ha|right].
    split_and!; [done|done| |exact Hw]. cbn. by intros ?%list_elem_of_singleton.
  - cbn [mbind outcome_bind]. rewrite (proj2 (Z.gtb_lt _ _)) by lia.
    set (rsf := MkResetStreamFrame _ _ _ _).
    destruct (reset_keeping W s0 e rsf Hok0 Hs) as (s2 & E2 & Hok2 & Ha2 & Hw2);
      [change (reliableOffset s0) with (reliableOffset s); lia|done|by etrans; [|apply reservedEnd_ge]; apply Z.le_max_l|].
    change (keepReliable (reliableOffset s) (s1 <|st_queuedResetStreamFrame := Some rsf|>) = Ret s2) in E2.
    rewrite E2. clear E2. cbn [mbind outcome_bind].
    set (more := _ || _). set (s3 := if more then uncorkLocked s2 <|st_active := true|> else s2).
    assert (quiet s2 (signalWrite s3)) as Hq.
    { eapply quiet_then; [|apply signalWrite_quiet]. unfold s3. destruct more; [apply activated_quiet|apply quiet_refl]. }
    eexists _, _. split; [done|]. destruct (quiet_ok W _ _ Hq Hok2) as [Hok3 _]. destruct Hq as [Hv3 _].
    rewrite Hv3. split_and!; [done|exact Ha2|right]. split_and!; [done|done| |exact Hw2].
    by intros [Hin|Hin%list_elem_of_singleton]%elem_of_app; [destruct more; [apply list_elem_of_singleton in Hin|apply not_elem_of_nil in Hin]|].
Qed.

Lemma handleStopSendingFrame_spec W f s :
  stream_ok W s →
  ∃ calls s', handleStopSendingFrame f s = Ret (calls, s') ∧ stream_ok W s' ∧ advance W (view s) W (view s') ∧
    onStreamCompleted ∉ calls ∧
    (s' = s ∨ (st_shutdownErr s = None ∧ (st_resetErr s = None ∨ 0 < reliableOffset s) ∧
      was_reset 0 (view s) (view s'))).
Proof.
  intros Hok. unfold handleStopSendingFrame.
  assert (∃ calls s', (Ret ([], s) : outcome FrameError (list SenderCall * SendStream)) = Ret (calls, s') ∧ stream_ok W s' ∧
    advance W (view s) W (view s') ∧ onStreamCompleted ∉ calls ∧
    (s' = s ∨ (st_shutdownErr s = None ∧ (st_resetErr s = None ∨ 0 < reliableOffset s) ∧
      was_reset 0 (view s) (view s')))) as Hsame.
  { eexists _, _. split; [done|]. split_and!; [done|apply advance_refl|apply not_elem_of_nil|by left]. }
  destruct (bool_decide (is_Some (st_shutdownErr s))) eqn:Hs; [done|].
  apply bool_decide_eq_false, eq_None_not_Some in Hs.
  destruct (bool_decide (is_Some (st_resetErr s)) && (reliableOffset s =? 0)) eqn:Hr; [done|clear Hsame].
  assert (st_resetErr s = None ∨ 0 < reliableOffset s) as Hr'.
  { pose proof (reliable_nonneg W s Hok). apply andb_false_iff in Hr as [Hr|Hr].
    - left. by apply bool_decide_eq_false, eq_None_not_Some in Hr.
    - right. lia. }
  cbv zeta. set (s1 := s <|st_reliableSize := 0|> <|st_numOutstandingFrames := 0|>).
  destruct (returnFramesToPool_spec s1) as (s2 & -> & Hh2 & Hv2);
    [exact (queue_pools _ _ (proj2 Hok))|exact (next_pool _ _ (proj2 Hok))|].
  cbn [mbind outcome_bind]. eexists _, _. split; [done|].
  match goal with |- context [s2 <|st_resetErr := Some ?x|> <|st_queuedResetStreamFrame := Some ?r|>] =>
    set (e := x); set (rsf := r) end.
  destruct (reset_emptied W (view s) e rsf 0 (proj2 Hok) Hs) as (Hk & Ha & Hw); [done|by destruct (k_sup _)|done|apply reservedEnd_ge|].
  set (s3 := signalWrite _).
  assert (view s3 = emptied (view s <|k_rel := 0|> <|k_num := 0|> <|k_reset := Some e|>) <|k_queued := Some rsf|>) as Hv3.
  { change (view s3) with (view s2 <|k_reset := Some e|> <|k_queued := Some rsf|>). rewrite Hv2. done. }
  unfold stream_ok. rewrite Hv3. split_and!; [done|exact Hk|exact Ha| |right; done].
  by intros ?%list_elem_of_singleton.
Qed.

(** ** Shutting down *)

(** The state after the connection has closed an unfinished stream. *)
Lemma closeForShutdown_spec W err s :
  stream_ok W s →
  ∃ s', closeForShutdown err s = Ret s' ∧ stream_ok W s' ∧ advance W (view s) W (view s') ∧
    (keeps s s' ∨ (st_shutdownErr s = None ∧
      view s' = emptied (view s <|k_shut := Some err|> <|k_completed := true|>))).
Proof.
  intros Hok. unfold closeForShutdown. set (s0 := s <|st_completed := true|>). cbv zeta.
  change (st_shutdownErr s0) with (st_shutdownErr s). change (st_finishedWriting s0) with (st_finishedWriting s).
  destruct (bool_decide (st_shutdownErr s = None) && _) eqn:Hc.
  - apply andb_true_iff in Hc as [Hs%bool_decide_eq_true _].
    destruct (returnFramesToPool_spec (s0 <|st_shutdownErr := Some err|>)) as (s1 & -> & Hh1 & Hv1);
      [exact (queue_pools _ _ (proj2 Hok))|exact (next_pool _ _ (proj2 Hok))|].
    cbn [mbind outcome_bind]. eexists. split; [done|].
    assert (view (signalWrite s1) = emptied (view s <|k_shut := Some err|> <|k_completed := true|>)) as Hv
      by exact Hv1.
    unfold stream_ok. rewrite Hv.
    assert (¬ live (view s <|k_shut := Some err|> <|k_completed := true|>)) as Hl by (intros [_ ?]; done).
    assert (core_ok W (view s <|k_shut := Some err|> <|k_completed := true|>)) as Hk1.
    { destruct Hok as [_ Hk]. core_cases Hk. constructor; upd; try done.
      - destruct Hunsent as (rest & ? & _). by exists rest.
      - eapply Forall_impl; [exact Hqueue|]. intros f []. by constructor.
      - intros Hf. split; [by apply Hfin|done]. }
    split_and!; [done|by apply emptied_ok| |by right].
    constructor; unfold emptied; upd; try done; by intros [_ ?].
  - cbn [mbind outcome_bind]. eexists. split; [done|].
    assert (flags_only s (signalWrite s0)) as Hf by flags_solve.
    destruct (flags_ok W _ _ Hf Hok) as (?&?&?). split_and!; [done|done|left]. by apply keeps_flags.
Qed.

(** ** The connection *)

Lemma updateSendWindow_spec W limit s :
  stream_ok W s → limit ≤ MaxByteCount →
  let s' := (updateSendWindow limit s).2 in
  stream_ok W s' ∧ advance W (view s) W (view s') ∧ keeps s s' ∧
  s_sendWindow (st_flowController s') = Z.max (s_sendWindow (st_flowController s)) limit ∧
  onStreamCompleted ∉ (updateSendWindow limit s).1.
Proof.
  intros Hok Hlim. unfold updateSendWindow, UpdateSendWindow.
  assert (∀ t, onStreamCompleted ∉ (wakeSender t).1) as Hno.
  { intros t. unfold wakeSender. destruct (_ || _); cbn; [by intros ?%list_elem_of_singleton|apply not_elem_of_nil]. }
  set (fc := st_flowController s). rewrite Z.gtb_ltb. destruct (Z.ltb_spec (s_sendWindow fc) limit) as [Hlt|Hge].
  - set (s1 := s <|st_flowController := _|>). cbn [negb].
    assert (stream_ok W s1 ∧ advance W (view s) W (view s1)) as [Hok1 Ha1].
    { assert (advance W (view s) W (view s1)) as Ha by by constructor.
      split; [|done]. destruct Hok as [Hh Hk]. split; [done|]. core_cases Hk.
      change (k_fc (view s)) with fc in *. constructor; try done; [|by eapply advance_pieces].
      change (s_bytesSent (k_fc (view s1))) with (s_bytesSent fc).
      change (s_sendWindow (k_fc (view s1))) with limit. unfold reserved, next_data in *.
      change (k_wo (view s1)) with (k_wo (view s)). change (k_res (view s1)) with (k_res (view s)).
      change (k_next (view s1)) with (k_next (view s)). lia. }
    pose proof (wakeSender_quiet s1) as Hq. destruct (quiet_ok W _ _ Hq Hok1) as [Hok2 Ha2].
    destruct Hq as [Hv _].
    split_and!; [done| | | |by apply Hno].
    + rewrite Hv. exact Ha1.
    + constructor; [rewrite Hv; by constructor|..].
      * by apply (f_equal k_once) in Hv.
      * by apply (f_equal k_dfw) in Hv.
    + apply (f_equal k_fc) in Hv. change (st_flowController (wakeSender s1).2 = st_flowController s1) in Hv.
      rewrite Hv. change (limit = Z.max (s_sendWindow fc) limit). lia.
  - cbn [negb]. set (s1 := s <|st_flowController := _|>).
    assert (view s1 = view s) as Hv by done.
    cbn [fst snd]. unfold stream_ok. rewrite Hv. split_and!; [apply Hok|apply Hok|apply advance_refl| | |apply not_elem_of_nil].
    + constructor; [rewrite Hv; apply same_frames_refl|done|done].
    + change (st_flowController s1) with fc. lia.
Qed.

Lemma onConnectionSendWindowUpdated_spec W s :
  stream_ok W s →
  let s' := (onConnectionSendWindowUpdated s).2 in
  stream_ok W s' ∧ view s' = view s ∧ onStreamCompleted ∉ (onConnectionSendWindowUpdated s).1.
Proof.
  intros Hok. unfold onConnectionSendWindowUpdated. pose proof (wakeSender_quiet s) as Hq.
  destruct (quiet_ok W _ _ Hq Hok) as [? _]. split_and!; [done|apply Hq|].
  unfold wakeSender. destruct (_ || _); cbn; [by intros ?%list_elem_of_singleton|apply not_elem_of_nil].
Qed.

(** ** Acknowledgements *)

Lemma num_ok W s n :
  stream_ok W s →
  let s' := s <|st_numOutstandingFrames := n|> in stream_ok W s' ∧ advance W (view s) W (view s').
Proof.
  intros [Hh Hk] s'. destruct (core_ok_ext W (view s) (view s')) as [? ?]; [done|done|]. done.
Qed.

(** Frames of a stream whose data was given up are not counted. *)
Definition given_up (k : Core) : bool := bool_decide (is_Some (k_reset k)) && (reliable k =? 0).

Lemma given_up_view s :
  bool_decide (is_Some (st_resetErr s)) && (reliableOffset s =? 0) = given_up (view s).
Proof. unfold given_up. by rewrite reliable_view. Qed.

(** [s'] is [s] with the count lowered and the frames [fs] queued again. *)
Definition recounted (d : Z) (fs : list StreamFrame) (s s' : SendStream) : Prop :=
  keeps (s <|st_numOutstandingFrames := st_numOutstandingFrames s - d|>
           <|st_retransmissionQueue := st_retransmissionQueue s ++ fs|>) s'.

Lemma recounted_flags d s s' :
  flags_only (s <|st_numOutstandingFrames := st_numOutstandingFrames s - d|>) s' →
  k_once (view s') = k_once (view s) → recounted d [] s s'.
Proof.
  intros Hf Ho. unfold recounted. rewrite app_nil_r.
  destruct (keeps_flags _ _ Hf Ho) as [[] ? ?]. constructor; [by constructor|done|done].
Qed.

Lemma countDown_spec s :
  0 < st_numOutstandingFrames s →
  countDown s = Ret (s <|st_numOutstandingFrames := st_numOutstandingFrames s - 1|>).
Proof. intros H. unfold countDown. upd. destruct (Z.ltb_spec (st_numOutstandingFrames s - 1) 0); [lia|done]. Qed.

(** The end of an acknowledgement: the count is lowered and the stream may be
    complete. *)
Lemma counted_down W s :
  stream_ok W s → 0 < st_numOutstandingFrames s →
  ∃ calls s', (s ← countDown s; let '(completed, s) := isNewlyCompleted s in
      (Ret (completedCall completed, s) : outcome FrameError (list SenderCall * SendStream))) = Ret (calls, s') ∧
    stream_ok W s' ∧ advance W (view s) W (view s') ∧ recounted 1 [] s s' ∧
    (onStreamCompleted ∈ calls → finished (view s')).
Proof.
  intros Hok Hpos. rewrite countDown_spec by done. cbn [mbind outcome_bind].
  set (s1 := s <|st_numOutstandingFrames := st_numOutstandingFrames s - 1|>).
  destruct (num_ok W s (st_numOutstandingFrames s - 1) Hok) as [Hok1 Ha1]. fold s1 in Hok1, Ha1.
  destruct (completing W s1 Hok1) as (c & s2 & -> & Hf & Ho & Hc).
  destruct (flags_ok _ _ _ Hf Hok1) as (Hok2 & Ha2 & Hs2).
  eexists _, _. split; [done|]. split_and!; [done| |by apply recounted_flags|].
  - eapply advance_trans; [exact Ha1|exact Ha2|done].
  - intros Hin. eapply finished_flags; [exact Hf|auto].
Qed.

Lemma recounted_none s : recounted 0 [] s s.
Proof.
  unfold recounted. rewrite app_nil_r, Z.sub_0_r. constructor; [|done|done]. by constructor.
Qed.

Lemma OnAcked_spec W sf s :
  stream_ok W s → pool_ok sf → (given_up (view s) = false → 0 < st_numOutstandingFrames s) →
  ∃ calls s', sendStreamAckHandler_OnAcked sf s = Ret (calls, s') ∧ stream_ok W s' ∧
    advance W (view s) W (view s') ∧ recounted (if given_up (view s) then 0 else 1) [] s s' ∧
    (onStreamCompleted ∈ calls → finished (view s')).
Proof.
  intros Hok Hp Hpos. unfold sendStreamAckHandler_OnAcked. rewrite PutBack_ok by done. cbn [mbind outcome_bind].
  rewrite given_up_view. destruct (given_up (view s)); [|by apply counted_down, Hpos].
  eexists _, _. split; [done|]. split_and!; [done|apply advance_refl|apply recounted_none|by intros ?%not_elem_of_nil].
Qed.

(** What OnLost queues of a lost frame: all of it, or the reliable part. *)
Definition resent (k : Core) (sf : StreamFrame) (fs : list StreamFrame) : Prop :=
  (∀ i, within sf i → (is_Some (k_reset k) → i < reliable k) → covered fs i) ∧
  (k_reset k = None → Exists (λ f, sf_Fin f = sf_Fin sf) fs) ∧ (given_up k = true → fs = []).

Lemma queue_ok W s f :
  stream_ok W s → piece W (view s) f →
  let s' := s <|st_numOutstandingFrames := st_numOutstandingFrames s - 1|>
              <|st_retransmissionQueue := st_retransmissionQueue s ++ [f]|> in
  stream_ok W s' ∧ advance W (view s) W (view s').
Proof.
  intros [Hh Hk] Hp s'.
  destruct (core_ok_queue W (view s) (st_retransmissionQueue s ++ [f]) (st_numOutstandingFrames s - 1) Hk) as [? ?].
  { apply Forall_app. split; [exact (ok_queue _ _ Hk)|by apply Forall_singleton]. }
  done.
Qed.

Lemma OnLost_spec W sf s :
  stream_ok W s → piece W (view s) sf → (given_up (view s) = false → 0 < st_numOutstandingFrames s) →
  ∃ calls s' fs, sendStreamAckHandler_OnLost sf s = Ret (calls, s') ∧ stream_ok W s' ∧
    advance W (view s) W (view s') ∧ recounted (if given_up (view s) then 0 else 1) fs s s' ∧
    resent (view s) sf fs ∧ (onStreamCompleted ∈ calls → finished (view s')).
Proof.
  intros Hok Hp Hpos. unfold sendStreamAckHandler_OnLost. rewrite given_up_view.
  pose proof (pc_pool _ _ _ Hp) as Hpool. pose proof (pc_off _ _ _ Hp) as Hoff.
  pose proof (reliable_nonneg W s Hok) as Hge. rewrite <-reliable_view in *.
  destruct (given_up (view s)) eqn:Hup.
  { rewrite PutBack_ok by done. cbn [mbind outcome_bind]. apply andb_true_iff in Hup as [Hr%bool_decide_eq_true Hz].
    eexists _, _, []. split; [done|].
    split_and!; [done|apply advance_refl|apply recounted_none| |by intros ?%not_elem_of_nil].
    split_and!; [|intros Hn; rewrite Hn in Hr; by destruct Hr|done].
    intros i [Hi _] Hlim. specialize (Hlim Hr). lia. }
  change (bool_decide (is_Some (st_resetErr s))) with (bool_decide (is_Some (k_reset (view s)))) in *.
  destruct (bool_decide (is_Some (k_reset (view s))) && (reliable (view s) >? 0) && (sf_Offset sf >=? reliable (view s))) eqn:Hbeyond.
  { apply andb_true_iff in Hbeyond as [[Hr%bool_decide_eq_true _]%andb_true_iff Hb].
    destruct (counted_down W s Hok (Hpos eq_refl)) as (calls & s' & E & Hok' & Ha & Hrc & Hc).
    exists calls, s', []. rewrite countDown_spec in E |- * by auto. cbn [mbind outcome_bind] in E |- *.
    rewrite PutBack_ok by done. cbn [mbind outcome_bind]. rewrite E. split_and!; [done..| |done].
    split_and!; [|intros Hn; rewrite Hn in Hr; by destruct Hr|done].
    intros i [Hi _] Hlim. specialize (Hlim Hr). lia. }
  rewrite countDown_spec by auto. cbn [mbind outcome_bind].
  match goal with |- context [mbind _ ?m] => set (cut := m) end.
  assert (∃ g, cut = Ret g ∧ piece W (view s) g ∧ sf_Fin g = sf_Fin sf ∧
    ∀ i, within sf i → (is_Some (k_reset (view s)) → i < reliable (view s)) → within g i) as (g & -> & Hg & Hfin & Hin).
  { unfold cut, StreamFrame_DataLen. destruct (bool_decide (is_Some (k_reset (view s)))) eqn:Hr; cbn [andb] in *.
    2: { by exists sf. }
    apply bool_decide_eq_true in Hr.
    destruct (Z.gtb_spec (reliable (view s)) 0) as [Hgt|Hle]; cbn [andb] in *; [|by exists sf].
    destruct (Z.gtb_spec (sf_Offset sf + len (sf_Data sf)) (reliable (view s))); [|by exists sf].
    assert (¬ live (view s)) as Hl by (intros [Hn _]; rewrite Hn in Hr; by destruct Hr).
    destruct (piece_truncate W (view s) sf (reliable (view s) - sf_Offset sf) Hp) as [-> Ht]; [lia|done|].
    eexists. split; [done|]. split_and!; [done|done|]. intros i [Hi1 Hi2] Hlim. specialize (Hlim Hr).
    unfold within. cbn [sf_Offset sf_Data]. rewrite len_take_front by lia. lia. }
  cbn [mbind outcome_bind]. set (h := MkStreamFrame _ _ _ _ _ true _).
  assert (piece W (view s) h) as Hh by (destruct Hg; by constructor).
  destruct (queue_ok W s h Hok Hh) as [Hok' Ha].
  eexists _, _, [h]. split; [done|]. split_and!; [done|done| | |].
  - unfold recounted. constructor; [apply same_frames_refl|done|done].
  - split_and!; [|intros _; by apply Exists_cons; left|congruence]. intros i Hi Hlim. apply in_frames_cons. left. by apply Hin.
  - destruct (_ =? _); [by intros ?%list_elem_of_singleton|by intros ?%not_elem_of_nil].
Qed.

(** A lost frame that reaches beyond the reliable size is cut there. *)
Lemma OnLost_truncated W sf s :
  stream_ok W s → piece W (view s) sf → is_Some (st_resetErr s) → 0 < st_numOutstandingFrames s →
  sf_Offset sf < reliableOffset s < sf_Offset sf + len (sf_Data sf) →
  ∃ calls s' g, sendStreamAckHandler_OnLost sf s = Ret (calls, s') ∧ g ∈ st_retransmissionQueue s' ∧
    reliableOffset s' = reliableOffset s ∧ sf_Fin g = sf_Fin sf ∧
    sf_Offset g + len (sf_Data g) = reliableOffset s.
Proof.
  intros Hok Hp Hr Hpos Hrel. pose proof (pc_off _ _ _ Hp) as Hoff. unfold sendStreamAckHandler_OnLost.
  rewrite (bool_decide_eq_true_2 _ Hr). cbv zeta. rewrite (proj2 (Z.eqb_neq _ _)), (proj2 (Z.gtb_lt _ 0)) by lia.
  cbn [andb]. rewrite countDown_spec by done. cbn [mbind outcome_bind]. unfold StreamFrame_DataLen.
  assert ((sf_Offset sf >=? reliableOffset s) = false) as -> by lia. rewrite (proj2 (Z.gtb_lt _ _)) by lia.
  assert (¬ live (view s)) as Hl.
  { intros [Hn _]. change (st_resetErr s = None) in Hn. rewrite Hn in Hr. by destruct Hr. }
  destruct (piece_truncate W (view s) sf (reliableOffset s - sf_Offset sf) Hp) as [-> _]; [lia|done|].
  cbn [mbind outcome_bind]. eexists _, _, _. split; [done|].
  split_and!; [upd; apply elem_of_app; right; by apply list_elem_of_singleton|done|done|].
  cbn [sf_Offset sf_Data]. rewrite len_take_front by lia. lia.
Qed.

(** ** RESET_STREAM frames *)

Lemma queued_ok W s n q :
  stream_ok W s →
  let s' := s <|st_numOutstandingFrames := n|> <|st_queuedResetStreamFrame := q|> in
  stream_ok W s' ∧ advance W (view s) W (view s').
Proof.
  intros [Hh Hk] s'. destruct (core_ok_ext W (view s) (view s')) as [? ?]; [done|done|]. done.
Qed.

Lemma getControlFrame_spec W s :
  stream_ok W s →
  let '(f, s') := getControlFrame s in
  stream_ok W s' ∧ advance W (view s) W (view s') ∧ f = k_queued (view s) ∧
  view s' = view s <|k_num := k_num (view s) + (if f then 1 else 0)|> <|k_queued := None|>.
Proof.
  intros Hok. unfold getControlFrame. destruct (st_queuedResetStreamFrame s) as [f|] eqn:Hq.
  - destruct (queued_ok W s (st_numOutstandingFrames s + 1) None Hok) as [? ?]. done.
  - rewrite Z.add_0_r. split_and!; [done|apply advance_refl|done|]. rewrite <-Hq. done.
Qed.

Lemma ResetOnAcked_spec W r s :
  stream_ok W s → (rs_ReliableSize r = reliable (view s) → 0 < st_numOutstandingFrames s) →
  ∃ calls s', sendStreamResetStreamHandler_OnAcked r s = Ret (calls, s') ∧ stream_ok W s' ∧
    advance W (view s) W (view s') ∧
    recounted (if rs_ReliableSize r =? reliable (view s) then 1 else 0) [] s s' ∧
    (onStreamCompleted ∈ calls → finished (view s')).
Proof.
  intros Hok Hpos. unfold sendStreamResetStreamHandler_OnAcked. rewrite <-reliable_view.
  destruct (Z.eqb_spec (rs_ReliableSize r) (reliable (view s))); cbn [negb]; [by apply counted_down; auto|].
  eexists _, _. split; [done|]. split_and!; [done|apply advance_refl|apply recounted_none|by intros ?%not_elem_of_nil].
Qed.

Lemma ResetOnLost_spec W r s :
  stream_ok W s →
  let '(calls, s') := sendStreamResetStreamHandler_OnLost r s in
  stream_ok W s' ∧ advance W (view s) W (view s') ∧ onStreamCompleted ∉ calls ∧
  if rs_ReliableSize r =? reliable (view s)
  then view s' = view s <|k_queued := Some r|> <|k_num := k_num (view s) - 1|> else s' = s.
Proof.
  intros Hok. unfold sendStreamResetStreamHandler_OnLost. rewrite <-reliable_view.
  destruct (Z.eqb_spec (rs_ReliableSize r) (reliable (view s))); cbn [negb].
  - destruct (queued_ok W s (st_numOutstandingFrames s - 1) (Some r) Hok) as [? ?].
    split_and!; [done|done|by intros ?%list_elem_of_singleton|done].
  - split_and!; [done|apply advance_refl|apply not_elem_of_nil|done].
Qed.

(** ** Completion by a write

    A write that finds the stream reset may be what completes it. *)

Definition reports (calls : list SenderCall) (s' : SendStream) : Prop :=
  onStreamCompleted ∈ calls → head_ok s' → finished (view s').

Lemma reports_none s' : reports [] s'.
Proof. by intros ?%not_elem_of_nil. Qed.

Lemma reports_completed s f :
  (∀ t, head_ok (f t) ↔ head_ok t) → (∀ t, finished (view t) → finished (view (f t))) →
  let '(completed, s1) := isNewlyCompleted s in reports (completedCall completed) (f s1).
Proof.
  intros Hh Hf. pose proof (isNewlyCompleted_true s) as Ht. pose proof (isNewlyCompleted_flags s) as Hfl.
  assert (head_ok (isNewlyCompleted s).2 → head_ok s) as Hback.
  { unfold isNewlyCompleted. repeat (case_match || destruct (_ || _) || destruct (_ && _)); done. }
  destruct (isNewlyCompleted s) as [[] s1]; [|by intros ?%not_elem_of_nil].
  intros _ H1. apply (proj1 (Hh _)) in H1. apply Hf, (finished_flags _ _ Hfl). by destruct (Ht (Hback H1) eq_refl) as (?&?&?&?&?).
Qed.

Lemma writeReturns_reports n err s res calls s' :
  (let '(completed, s1) := isNewlyCompleted s in writeReturns n err (completedCall completed) s1) = Ret (res, calls, s') →
  reports calls s'.
Proof.
  pose proof (reports_completed s
    (λ t, t <|st_writeLimiter := false|> <|st_writeLimited := false|> <|st_writeOnce := false|>)) as H.
  destruct (isNewlyCompleted s) as [c s1]. unfold writeReturns. intros [= <- <- <-]. by apply H.
Qed.

Lemma writeEpilogue_reports p n s res calls s' :
  writeEpilogue p n s = Ret (res, calls, s') → reports calls s'.
Proof.
  unfold writeEpilogue.
  assert (∀ n err t, writeReturns n err [] t = Ret (res, calls, s') → reports calls s') as Hret.
  { unfold writeReturns. intros ??? [= <- <- <-]. apply reports_none. }
  destruct (n =? len p); [apply Hret|]. destruct (st_shutdownErr s); [apply Hret|].
  destruct (st_resetErr s); [apply writeReturns_reports|]. destruct (st_writeLimited s); apply Hret.
Qed.

Lemma writeParks_reports w n deadline phase s res calls s' :
  writeParks w n deadline phase s = Ret (res, calls, s') → reports calls s'.
Proof.
  unfold writeParks. intros [= <- <- <-]. destruct (negb _); [|apply reports_none].
  by intros ?%list_elem_of_singleton.
Qed.

Section completing_writes.
Context (append_cap : Z → Z → Z).

Lemma writeRound_reports now w s res calls s' :
  writeRound append_cap now w s = Ret (res, calls, s') → reports calls s'.
Proof.
  unfold writeRound. destruct (st_writeLimited s); [apply writeEpilogue_reports|].
  destruct (_ || _); [apply writeEpilogue_reports|].
  destruct (if (_ : bool) then growWriteBufferFor _ s else (false, s)) as [fits s1]. destruct fits.
  { intros (s2 & _ & H)%outcome_bind_Ret. by eapply writeParks_reports. }
  destruct (_ && _). { intros (f & _ & H)%outcome_bind_Ret. by eapply writeParks_reports. }
  destruct (_ && _). { unfold writeReturns. intros [= <- <- <-]. apply reports_none. }
  destruct (_ || _); [apply writeEpilogue_reports|apply writeParks_reports].
Qed.

Lemma writeResumes_reports now w s res calls s' :
  writeResumes append_cap now w s = Ret (res, calls, s') → reports calls s'.
Proof.
  unfold writeResumes. destruct (wr_phase w); [|apply writeEpilogue_reports|apply writeRound_reports].
  unfold writeReturns. intros [= <- <- <-]. apply reports_none.
Qed.

Lemma write_reports now p limiter s res calls s' :
  write append_cap now p limiter s = Ret (res, calls, s') → reports calls s'.
Proof.
  unfold write. set (s0 := s <|st_writeLimiter := _|> <|st_writeLimited := _|>).
  assert (∀ n err t, writeReturns n err [] t = Ret (res, calls, s') → reports calls s') as Hret.
  { unfold writeReturns. intros ??? [= <- <- <-]. apply reports_none. }
  destruct (st_resetErr s0); [apply writeReturns_reports|]. destruct (writeRefused s0); [apply Hret|].
  destruct (_ && _); [apply Hret|]. destruct (_ =? _); [apply Hret|].
  destruct (if (_ : bool) then growWriteBufferFor _ s0 else (false, s0)) as [fits s1].
  destruct fits; [|apply writeRound_reports].
  intros (s2 & _ & H)%outcome_bind_Ret. revert H. destruct (st_active _); [apply Hret|].
  destruct (activateOrDelayLocked _ _) as [act s3]. destruct (negb act); [apply Hret|].
  intros [= <- <- <-]. by intros ?%list_elem_of_singleton.
Qed.

Lemma WriteWithLimit_reports now p limiter s res calls s' :
  WriteWithLimit append_cap now p limiter s = Ret (res, calls, s') → reports calls s'.
Proof.
  unfold WriteWithLimit. intros ([taken s1] & _ & H)%outcome_bind_Ret. destruct taken.
  - injection H as <- <- <-. apply reports_none.
  - by eapply write_reports.
Qed.
End completing_writes.

Lemma TryWriteAll_reports p s c err calls s' c' :
  TryWriteAll p s c = Ret (err, calls, s', c') → reports calls s'.
Proof.
  unfold TryWriteAll. destruct (st_writeOnce s); [intros [= <- <- <- <-]; apply reports_none|].
  intros ([[[[comp more] err'] s1] c1] & H & E)%outcome_bind_Ret. injection E as <- <- <- <-.
  assert (reports (completedCall comp) s1) as Hr.
  { revert H. unfold tryWriteAll. destruct (st_resetErr s).
    - pose proof (reports_completed (s <|st_cancellationFlagged := true|>) id) as Hc.
      destruct (isNewlyCompleted _) as [c0 t]. intros [= <- <- <- <- <-]. by apply Hc.
    - destruct comp; [|intros _; apply reports_none]. destruct (writeRefused s); [done|].
      destruct (_ =? _); [done|]. destruct (_ >? _); [done|].
      destruct (TryAddBytesSent _ _ _) as [[ok fc] c0]. destruct ok; cbn [negb]; [|done].
      intros (f & _ & H)%outcome_bind_Ret. cbv zeta in H. by apply outcome_bind_Ret in H as (g & _ & H). }
  intros [Hin|Hin]%elem_of_app; [by apply Hr|].
  destruct more; [by apply list_elem_of_singleton in Hin|by apply not_elem_of_nil in Hin].
Qed.
