(* ===== verification/SendStreamFlight.v ===== *)
(** * The frames of a stream in flight

    [flight k out acked resets racked] relates the state of a stream to the STREAM
    frames in flight and acknowledged and to the RESET_STREAM frames in flight and
    acknowledged: the stream counts those it waits for, and every byte it has sent
    and still owes is acknowledged, in flight or queued for retransmission. *)

From S2P Require Import Prelude QuicVarint Protocol WireBase WireFrames WireStream FlowControl SendStream SendStreamFacts SendStreamWriting SendStreamSending SendStreamClosing.

(** The RESET_STREAM frames that announce the reliable size in force. *)
Definition matching (k : Core) (resets : list ResetStreamFrame) : list ResetStreamFrame :=
  filter (λ r, rs_ReliableSize r = reliable k) resets.

Lemma matching_none k resets : Forall (λ r, rs_ReliableSize r ≠ reliable k) resets → matching k resets = [].
Proof. unfold matching. induction 1; [done|]. by rewrite filter_cons_False. Qed.
Lemma matching_delete k resets n r :
  resets !! n = Some r →
  len (matching k resets) =
    len (matching k (delete n resets)) + (if rs_ReliableSize r =? reliable k then 1 else 0).
Proof.
  intros Hn%delete_Permutation. unfold matching, len. rewrite Hn at 1.
  destruct (Z.eqb_spec (rs_ReliableSize r) (reliable k)).
  - rewrite filter_cons_True by done. cbn [length]. lia.
  - rewrite filter_cons_False by done. lia.
Qed.

(** The bytes sent that the peer is to get. *)
Definition owed (k : Core) (i : Z) : Prop := 0 ≤ i < k_wo k ∧ (is_Some (k_reset k) → i < reliable k).

Record flight (k : Core) (out acked : list StreamFrame) (resets racked : list ResetStreamFrame) : Prop := {
  fl_num : k_num k = (if given_up k then 0 else len out) + len (matching k resets);
  fl_none : k_reset k = None → k_queued k = None ∧ resets = [];
  fl_queued : ∀ r, k_queued k = Some r → rs_ReliableSize r = reliable k;
  fl_sizes : Forall (λ r, rs_ReliableSize r = reliable k ∨ reliable k = 0) resets;
  fl_reset : is_Some (k_reset k) →
    is_Some (k_queued k) ∨ Exists (λ r, rs_ReliableSize r = reliable k) (resets ++ racked);
  fl_empty : given_up k = true → k_queue k = [];
  fl_cover : k_shut k = None → ∀ i, owed k i → covered (acked ++ out ++ k_queue k) i;
  fl_fin : k_shut k = None → k_reset k = None → k_finSent k = true →
    Exists (λ f, sf_Fin f = true) (acked ++ out ++ k_queue k) }.

Ltac flight_cases H := destruct H as [Fnum Fnone Fqueued Fsizes Freset Fempty Fcover Ffin].

(** [flight] depends on what the frames see of the state. *)
Lemma flight_same k k' out acked resets racked :
  same_frames k k' → flight k out acked resets racked → flight k' out acked resets racked.
Proof.
  intros [S1 S2 S3 S4 S5 S6 S7 S8 S9] Hf.
  assert (reliable k' = reliable k) as Hr by (unfold reliable; by rewrite S8, S9).
  assert (given_up k' = given_up k) as Hg by (unfold given_up; by rewrite S6, Hr).
  assert (∀ l, matching k' l = matching k l) as Hm by (intros l; unfold matching; by rewrite Hr).
  flight_cases Hf.
  constructor; unfold owed; rewrite ?Hg, ?Hm, ?Hr, ?S1, ?S2, ?S3, ?S4, ?S5, ?S6, ?S7; done.
Qed.

Section steps.
Context (k k' : Core) (out acked : list StreamFrame) (resets racked : list ResetStreamFrame).
Hypothesis (Hf : flight k out acked resets racked).

(** A new frame. *)
Lemma flight_pop f :
  sends k k' f → k_num k' = k_num k + 1 → given_up k = false → flight k' (f :: out) acked resets racked.
Proof.
  intros [Soff Swo _ Sfin Sq Sqd Sre Ssh Srel Ssup _ _ _] Hn Hup.
  assert (reliable k' = reliable k) as Hr by (unfold reliable; by rewrite Srel, Ssup).
  assert (given_up k' = given_up k) as Hg by (unfold given_up; by rewrite Sre, Hr).
  assert (∀ l, matching k' l = matching k l) as Hm by (intros l; unfold matching; by rewrite Hr).
  flight_cases Hf.
  constructor; rewrite ?Hg, ?Hm, ?Hr, ?Sqd, ?Sre, ?Ssh, ?Sq; try done.
  - rewrite Hn, Fnum, Hup, len_cons. lia.
  - intros Hs i [Hi Hlim]. rewrite Swo, Sre, Hr in *. rewrite !in_frames_app, in_frames_cons.
    destruct (decide (i < k_wo k)) as [Hlt|Hge].
    + specialize (Fcover Hs i). rewrite !in_frames_app in Fcover. unfold owed in Fcover.
      destruct Fcover as [|[|]]; [split; [lia|done]|auto..].
    + right. left. left. unfold within. lia.
  - intros Hs Hre. rewrite Sfin. destruct (sf_Fin f) eqn:E; [intros _|rewrite orb_false_r; intros Hfin].
    + rewrite !Exists_app, Exists_cons. auto.
    + specialize (Ffin Hs Hre Hfin). rewrite !Exists_app in *. rewrite Exists_cons. tauto.
Qed.

(** A frame sent again. *)
Lemma flight_requeue f :
  k' = k <|k_queue := k_queue k'|> <|k_num := k_num k'|> → requeued (k_queue k) (k_queue k') f →
  k_num k' = k_num k + 1 → flight k' (f :: out) acked resets racked.
Proof.
  intros E Hq Hn.
  assert (reliable k' = reliable k ∧ k_queued k' = k_queued k ∧ k_reset k' = k_reset k ∧ k_shut k' = k_shut k ∧
    k_wo k' = k_wo k ∧ k_finSent k' = k_finSent k) as (Hr & Sqd & Sre & Ssh & Swo & Sfin).
  { clear -E. revert E. generalize (k_queue k') (k_num k'). intros ?? ->. split_and!; reflexivity. }
  assert (given_up k' = given_up k) as Hg by (unfold given_up; by rewrite Sre, Hr).
  assert (∀ l, matching k' l = matching k l) as Hm by (intros l; unfold matching; by rewrite Hr).
  flight_cases Hf.
  assert (given_up k = false) as Hup.
  { destruct (given_up k); [|done]. rewrite Fempty in Hq by done.
    by destruct Hq as [?|(?&?&?&?&_)]. }
  assert (∀ i, covered (k_queue k) i → within f i ∨ covered (k_queue k') i) as Hc.
  { intros i. destruct Hq as [->|(g & r & tl & -> & -> & Hd & Ho1 & Ho2 & _)].
    - by rewrite in_frames_cons.
    - rewrite !in_frames_cons. unfold within. rewrite Hd, len_app, Ho1, Ho2. intros [Hi|]; [|auto].
      destruct (decide (i < sf_Offset g + len (sf_Data f))); [left|right; left]; lia. }
  assert (Exists (λ f, sf_Fin f = true) (k_queue k) → sf_Fin f = true ∨ Exists (λ f, sf_Fin f = true) (k_queue k')) as Hfin.
  { destruct Hq as [->|(g & r & tl & -> & -> & _ & _ & _ & _ & Hfr)].
    - by rewrite Exists_cons.
    - rewrite !Exists_cons, Hfr. tauto. }
  constructor; rewrite ?Hg, ?Hm, ?Hr, ?Sqd, ?Sre, ?Ssh, ?Hup; try done.
  - rewrite Hn, Fnum, Hup, len_cons. lia.
  - intros Hs i [Hi Hlim]. rewrite Swo, Sre, Hr in *. rewrite !in_frames_app, in_frames_cons.
    specialize (Fcover Hs i). rewrite !in_frames_app in Fcover.
    destruct Fcover as [|[|Hci]]; [done|auto..]. destruct (Hc i Hci); auto.
  - intros Hs Hre Hfs. rewrite Sfin in Hfs. specialize (Ffin Hs Hre Hfs). rewrite !Exists_app in *.
    rewrite Exists_cons. destruct Ffin as [|[|H]]; [auto..|]. destruct (Hfin H); auto.
Qed.

(** The outcome for a frame in flight is known: the frames [ack] are now
    acknowledged, the frames [fs] queued. *)
Lemma flight_taken n f ack fs :
  out !! n = Some f →
  (∀ i, within f i → (is_Some (k_reset k) → i < reliable k) → covered (ack ++ fs) i) →
  (k_reset k = None → sf_Fin f = true → Exists (λ f, sf_Fin f = true) (ack ++ fs)) →
  (given_up k = true → fs = []) →
  flight (k <|k_num := k_num k - (if given_up k then 0 else 1)|> <|k_queue := k_queue k ++ fs|>)
    (delete n out) (ack ++ acked) resets racked.
Proof.
  intros Hn Hc Hfin Hup. pose proof (delete_Permutation _ _ _ Hn) as Hperm. flight_cases Hf.
  set (k1 := k <|k_num := _|> <|k_queue := _|>).
  assert (∀ P : StreamFrame → Prop, Exists P out ↔ P f ∨ Exists P (delete n out)) as Hout.
  { intros P. rewrite <-Exists_cons, !Exists_exists. split; intros (x & Hx & HP); exists x; (split; [|done]).
    - by rewrite <-Hperm.
    - by rewrite Hperm. }
  constructor; try done.
  - change (k_num k1) with (k_num k - (if given_up k then 0 else 1)). change (given_up k1) with (given_up k).
    change (matching k1 resets) with (matching k resets). rewrite Fnum. destruct (given_up k); [lia|].
    apply Permutation_length in Hperm. unfold len in *. rewrite Hperm. cbn [length]. lia.
  - change (given_up k1) with (given_up k). intros Hg. change (k_queue k1) with (k_queue k ++ fs).
    by rewrite Fempty, Hup.
  - intros Hs i Hi. specialize (Fcover Hs i Hi). destruct Hi as [_ Hlim].
    change (k_queue k1) with (k_queue k ++ fs). specialize (Hc i). rewrite !in_frames_app in *.
    destruct Fcover as [|[[Hw|]%Hout|]]; auto. destruct (Hc Hw Hlim); auto.
  - intros Hs Hre Hfs. specialize (Ffin Hs Hre Hfs). change (k_queue k1) with (k_queue k ++ fs).
    specialize (Hfin Hre). rewrite !Exists_app in *. destruct Ffin as [|[[Hw|]%Hout|]]; auto.
    destruct (Hfin Hw); auto.
Qed.

(** A change of the boundary of a stream that is not reset. *)
Lemma flight_boundary rel sup :
  k_reset k = None → flight (k <|k_rel := rel|> <|k_sup := sup|>) out acked resets racked.
Proof.
  intros Hre. flight_cases Hf. destruct (Fnone Hre) as [Hq ->]. set (k1 := k <|k_rel := rel|> <|k_sup := sup|>).
  assert (given_up k1 = false ∧ given_up k = false) as [Hg1 Hg].
  { unfold given_up. change (k_reset k1) with (k_reset k). by rewrite Hre. }
  rewrite Hg in *.
  constructor; rewrite ?Hg1; try done.
  - change (k_queued k1) with (k_queued k). by rewrite Hq.
  - change (k_reset k1) with (k_reset k). rewrite Hre. by intros [].
  - intros Hs i [Hi _]. apply Fcover; [done|]. split; [done|]. rewrite Hre. by intros [].
Qed.

(** The stream is reset. *)
Lemma flight_was_reset rel :
  was_reset rel k k' → 0 ≤ rel → k_shut k = None → k_reset k = None ∧ reliable k = rel ∨ (rel = 0 ∧ 0 < reliable k) →
  flight k' out acked resets racked.
Proof.
  intros [Wshut [e Wreset] Wrel Wwo Wfin _ _ (r & Wqd & Wsize & _) Wnum Wq Wempty] Hge Hsk Hcase.
  flight_cases Hf.
  assert (given_up k' = (rel =? 0)) as Hg by (unfold given_up; rewrite Wreset, Wrel; done).
  assert (matching k' resets = [] ∧ (given_up k = false → rel ≠ 0 → resets = [])) as [Hm Hnone].
  { destruct Hcase as [[Hre _]|[-> Hpos]].
    - destruct (Fnone Hre) as [_ ->]. done.
    - split; [|done]. apply matching_none. rewrite Wrel. eapply Forall_impl; [exact Fsizes|]. intros x. cbn. lia. }
  constructor; rewrite ?Hg, ?Hm, ?Wrel, ?Wqd, ?Wreset; try done.
  - rewrite Wnum. destruct (Z.eqb_spec rel 0); [done|]. destruct Hcase as [[Hre _]|[? _]]; [|done].
    destruct (Fnone Hre) as [_ ->]. rewrite Fnum. unfold given_up. by rewrite Hre.
  - intros ? [= <-]. done.
  - eapply Forall_impl; [exact Fsizes|]. intros x. cbn. destruct Hcase as [[_ <-]|[-> _]]; auto.
  - intros _. left. by eexists.
  - intros Hz. apply Wempty. lia.
  - intros Hs i [Hi Hlim]. rewrite Wreset, Wrel, Wwo in *. specialize (Hlim ltac:(by eexists)).
    destruct Hcase as [[Hre Hr]|[-> _]]; [|lia].
    specialize (Fcover Hsk i). rewrite !in_frames_app in *. destruct Fcover as [|[|]]; [|auto..].
    split; [lia|]. rewrite Hre. by intros [].
Qed.

(** The connection closes the stream. *)
Lemma flight_shut err :
  flight (emptied (k <|k_shut := Some err|> <|k_completed := true|>)) out acked resets racked.
Proof. flight_cases Hf. constructor; unfold emptied; done. Qed.

(** A RESET_STREAM frame is sent, acknowledged, lost. *)
Lemma flight_control r :
  k_queued k = Some r →
  flight (k <|k_num := k_num k + 1|> <|k_queued := None|>) out acked (r :: resets) racked.
Proof.
  intros Hq. flight_cases Hf. pose proof (Fqueued r Hq) as Hr.
  set (k1 := k <|k_num := _|> <|k_queued := None|>).
  constructor; try done.
  - change (matching k1 (r :: resets)) with (matching k (r :: resets)). unfold matching.
    rewrite filter_cons_True by done. rewrite len_cons. change (k_num k1) with (k_num k + 1).
    change (given_up k1) with (given_up k). unfold matching in Fnum. lia.
  - change (k_reset k1) with (k_reset k). intros Hre. destruct (Fnone Hre). congruence.
  - apply Forall_cons. auto.
  - intros _. right. apply Exists_cons. auto.
Qed.

Lemma flight_reset_acked n r :
  resets !! n = Some r →
  flight (k <|k_num := k_num k - (if rs_ReliableSize r =? reliable k then 1 else 0)|>)
    out acked (delete n resets) (r :: racked).
Proof.
  intros Hn. pose proof (delete_Permutation _ _ _ Hn) as Hperm. flight_cases Hf.
  set (k1 := k <|k_num := _|>).
  constructor; try done.
  - change (matching k1 (delete n resets)) with (matching k (delete n resets)).
    change (given_up k1) with (given_up k). change (k_num k1) with (k_num k - (if rs_ReliableSize r =? reliable k then 1 else 0)).
    pose proof (matching_delete k resets n r Hn). lia.
  - change (k_reset k1) with (k_reset k). intros Hre. destruct (Fnone Hre) as [? ->]. done.
  - rewrite Hperm in Fsizes. by apply Forall_cons in Fsizes as [_ ?].
  - intros Hre. destruct (Freset Hre) as [|Hex]; [auto|right]. rewrite Exists_exists in *.
    destruct Hex as (x & Hx & Hs). exists x. split; [|done].
    rewrite Hperm in Hx. rewrite elem_of_app, !elem_of_cons, ?elem_of_app in *. tauto.
Qed.

Lemma flight_reset_lost n r :
  resets !! n = Some r →
  flight (if rs_ReliableSize r =? reliable k then k <|k_queued := Some r|> <|k_num := k_num k - 1|> else k)
    out acked (delete n resets) racked.
Proof.
  intros Hn. pose proof (delete_Permutation _ _ _ Hn) as Hperm. flight_cases Hf.
  assert (is_Some (k_reset k)) as Hre.
  { destruct (k_reset k) eqn:E; [by eexists|]. destruct (Fnone eq_refl) as [_ Hnil]. rewrite Hnil in Hn. done. }
  assert (Forall (λ r, rs_ReliableSize r = reliable k ∨ reliable k = 0) (delete n resets)) as Hsizes.
  { rewrite Hperm in Fsizes. by apply Forall_cons in Fsizes as [_ ?]. }
  pose proof (matching_delete k resets n r Hn) as Hlen.
  destruct (Z.eqb_spec (rs_ReliableSize r) (reliable k)) as [Hr|Hr].
  - set (k1 := k <|k_queued := _|> <|k_num := _|>).
    constructor; try done.
    + change (matching k1 (delete n resets)) with (matching k (delete n resets)).
      change (given_up k1) with (given_up k). change (k_num k1) with (k_num k - 1). lia.
    + change (k_reset k1) with (k_reset k). intros E. rewrite E in Hre. by destruct Hre.
    + intros ? [= <-]. done.
    + intros _. left. by eexists.
  - constructor; try done.
    + lia.
    + intros E. rewrite E in Hre. by destruct Hre.
    + intros _. destruct (Freset Hre) as [|Hex]; [auto|right]. rewrite Exists_exists in *.
      destruct Hex as (x & Hx & Hs). exists x. split; [|done].
      rewrite Hperm in Hx. rewrite !elem_of_app, ?elem_of_cons in *.
      destruct Hx as [[->|]|]; [done|auto..].
Qed.
End steps.
