(* ===== verification/SendStreamProps.v ===== *)
(** * A stream and the frames it has sent

    A [World] is a stream with the connection's credit, the call of Write in
    progress, and the frames the connection has sent for it: those in flight and
    those acknowledged.  An [Event] is one of the operations of the stream; the
    loss and the acknowledgement of a frame name it by its position among those in
    flight, since the connection reports one of the two, once, for each.

    Writes are taken one at a time.  A boundary is set, and RESET_STREAM_AT
    enabled, before the stream is reset ([timely]): see [late_boundary_panics]. *)

From S2P Require Import Prelude QuicVarint Protocol WireBase WireFrames WireStream FlowControl SendStream SendStreamFacts SendStreamWriting SendStreamSending SendStreamClosing SendStreamFlight.

Record World := MkWorld {
  w_stream : SendStream;
  w_conn : connectionFlowController;
  w_accepted : bytes;
  w_writer : option Writer;
  w_sent : list StreamFrame;
  w_out : list StreamFrame;
  w_acked : list StreamFrame;
  w_resets : list ResetStreamFrame;
  w_resetsAcked : list ResetStreamFrame }.

#[global] Instance eta_World : Eta World := λ w,
  MkWorld (w_stream w) (w_conn w) (w_accepted w) (w_writer w) (w_sent w) (w_out w) (w_acked w)
    (w_resets w) (w_resetsAcked w).

Definition newWorld (id window maxWindow initialSendWindow : Z) (supportsResetStreamAt : bool)
    (c : connectionFlowController) : World :=
  MkWorld (newSendStream id (newStreamFlowController id window maxWindow initialSendWindow) supportsResetStreamAt)
    c [] None [] [] [] [] [].

(** The bytes of the stream: those of the writes that returned, then those of the
    write in progress. *)
Definition written (w : World) : bytes :=
  w_accepted w ++ match w_writer w with Some x => wr_p x | None => [] end.

Inductive Event :=
  | EvWrite (now : Z) (p : bytes) (limiter : bool)
  | EvResume (now : Z)
  | EvTryWriteAll (p : bytes)
  | EvPop (now : Z) (limiter : Z → Z) (maxBytes : Z)
  | EvRetransmit (maxBytes : Z)
  | EvAcked (n : nat)
  | EvLost (n : nat)
  | EvClose
  | EvCancel (errorCode : Z)
  | EvBoundary
  | EvEnableResetStreamAt
  | EvStopSending (f : StopSendingFrame)
  | EvControl
  | EvResetAcked (n : nat)
  | EvResetLost (n : nat)
  | EvMaxStreamData (limit : Z)
  | EvConnection (c : connectionFlowController)
  | EvTimer (gen : Z)
  | EvPriority (urgency : Z) (incremental : bool)
  | EvDeadline (t : Z)
  | EvShutdown (err : Z).

Section world.
Context (append_cap : Z → Z → Z).

(** What an operation that only concerns the stream leaves. *)
Definition settle (w : World) (m : outcome FrameError (list SenderCall * SendStream))
    : outcome FrameError (list SenderCall * World) :=
  '(calls, s) ← m; Ret (calls, w <|w_stream := s|>).

Definition stepWrite (now : Z) (p : bytes) (limiter : bool) (w : World)
    : outcome FrameError (list SenderCall * World) :=
  match w_writer w with
  | Some _ => Ret ([], w)
  | None =>
      '(res, calls, s) ← WriteWithLimit append_cap now p limiter (w_stream w);
      Ret (calls,
           match res with
           | Returned n _ => w <|w_stream := s|> <|w_accepted := w_accepted w ++ take (Z.to_nat n) p|>
           | Parked x => w <|w_stream := s|> <|w_writer := Some x|>
           end)
  end.

Definition stepResume (now : Z) (w : World) : outcome FrameError (list SenderCall * World) :=
  match w_writer w with
  | None => Ret ([], w)
  | Some x =>
      '(res, calls, s) ← writeResumes append_cap now x (w_stream w);
      Ret (calls,
           match res with
           | Returned n _ =>
               w <|w_stream := s|> <|w_accepted := w_accepted w ++ accepted s n (wr_p x)|> <|w_writer := None|>
           | Parked x => w <|w_stream := s|> <|w_writer := Some x|>
           end)
  end.

Definition stepTryWriteAll (p : bytes) (w : World) : outcome FrameError (list SenderCall * World) :=
  '(err, calls, s, c) ← TryWriteAll p (w_stream w) (w_conn w);
  Ret (calls, w <|w_stream := s|> <|w_conn := c|>
                <|w_accepted := match err with None => w_accepted w ++ p | Some _ => w_accepted w end|>).

Definition sends_frame (f : option StreamFrame) (w : World) : World :=
  match f with
  | Some f => w <|w_sent := f :: w_sent w|> <|w_out := f :: w_out w|>
  | None => w
  end.

Definition stepPop (now : Z) (limiter : Z → Z) (maxBytes : Z) (w : World)
    : outcome FrameError (list SenderCall * World) :=
  '(f, _, _, s, c) ← popStreamFrame now limiter maxBytes (w_stream w) (w_conn w);
  Ret ([], sends_frame f (w <|w_stream := s|> <|w_conn := c|>)).

Definition stepRetransmit (maxBytes : Z) (w : World) : outcome FrameError (list SenderCall * World) :=
  '(f, _, s) ← popRetransmissionFrame maxBytes (w_stream w);
  Ret ([], sends_frame f (w <|w_stream := s|>)).

Definition step (e : Event) (w : World) : outcome FrameError (list SenderCall * World) :=
  let s := w_stream w in
  match e with
  | EvWrite now p limiter => stepWrite now p limiter w
  | EvResume now => stepResume now w
  | EvTryWriteAll p => stepTryWriteAll p w
  | EvPop now limiter maxBytes => stepPop now limiter maxBytes w
  | EvRetransmit maxBytes => stepRetransmit maxBytes w
  | EvAcked n =>
      match w_out w !! n with
      | None => Ret ([], w)
      | Some f => settle (w <|w_out := delete n (w_out w)|> <|w_acked := f :: w_acked w|>)
                    (sendStreamAckHandler_OnAcked f s)
      end
  | EvLost n =>
      match w_out w !! n with
      | None => Ret ([], w)
      | Some f => settle (w <|w_out := delete n (w_out w)|>) (sendStreamAckHandler_OnLost f s)
      end
  | EvClose => let '(_, calls, s) := Close s in settle w (Ret (calls, s))
  | EvCancel errorCode => settle w (CancelWrite errorCode s)
  | EvBoundary => settle w (Ret ([], SetReliableBoundary s))
  | EvEnableResetStreamAt => settle w (Ret ([], enableResetStreamAt s))
  | EvStopSending f => settle w (handleStopSendingFrame f s)
  | EvControl =>
      let '(f, s) := getControlFrame s in
      settle (match f with Some r => w <|w_resets := r :: w_resets w|> | None => w end) (Ret ([], s))
  | EvResetAcked n =>
      match w_resets w !! n with
      | None => Ret ([], w)
      | Some r => settle (w <|w_resets := delete n (w_resets w)|> <|w_resetsAcked := r :: w_resetsAcked w|>)
                    (sendStreamResetStreamHandler_OnAcked r s)
      end
  | EvResetLost n =>
      match w_resets w !! n with
      | None => Ret ([], w)
      | Some r => settle (w <|w_resets := delete n (w_resets w)|>)
                    (Ret (sendStreamResetStreamHandler_OnLost r s))
      end
  | EvMaxStreamData limit => settle w (Ret (updateSendWindow limit s))
  | EvConnection c => settle (w <|w_conn := c|>) (Ret (onConnectionSendWindowUpdated s))
  | EvTimer gen => settle w (Ret (activateAfterDelay gen s))
  | EvPriority urgency incremental => settle w (Ret (SetPriority urgency incremental s))
  | EvDeadline t => settle w (Ret ([], SetWriteDeadline t s))
  | EvShutdown err => settle w (s ← closeForShutdown err s; Ret ([], s))
  end.

Fixpoint run (es : list Event) (w : World) : outcome FrameError World :=
  match es with
  | [] => Ret w
  | e :: es => '(_, w) ← step e w; run es w
  end.

(** What the events may carry: bytes, the room of a packet, limits that a frame
    can encode. *)
Definition event_ok (e : Event) : Prop :=
  match e with
  | EvWrite _ p _ | EvTryWriteAll p => Forall is_byte p
  | EvPop _ _ maxBytes => MinStreamFrameSize ≤ maxBytes ≤ MaxPacketBufferSize
  | EvMaxStreamData limit => limit ≤ MaxByteCount
  | EvConnection c => conn_range c
  | _ => True
  end.

(** No boundary moves after a reset. *)
Definition late (e : Event) (w : World) : bool :=
  match e with
  | EvBoundary | EvEnableResetStreamAt => bool_decide (is_Some (st_resetErr (w_stream w)))
  | _ => false
  end.
Fixpoint timely (es : list Event) (w : World) : bool :=
  match es with
  | [] => true
  | e :: es => negb (late e w) && match step e w with Ret (_, w) => timely es w | _ => true end
  end.

(** ** The invariant *)

Record inv (w : World) : Prop := {
  iv_stream : stream_ok (written w) (w_stream w);
  iv_conn : conn_range (w_conn w);
  iv_writer : match w_writer w with
              | Some x => writer_ok (wr_p x) x (w_stream w)
              | None => st_writeOnce (w_stream w) = false ∧
                        (live (view (w_stream w)) → st_dataForWriting (w_stream w) = None)
              end;
  iv_sent : Forall (piece (written w) (view (w_stream w))) (w_sent w);
  iv_out : w_out w ⊆ w_sent w;
  iv_acked : w_acked w ⊆ w_sent w;
  iv_flight : flight (view (w_stream w)) (w_out w) (w_acked w) (w_resets w) (w_resetsAcked w) }.

Ltac inv_cases H := destruct H as [Istream Iconn Iwriter Isent Iout Iacked Iflight].

(** The write in progress does not notice. *)
Record calm (k k' : Core) : Prop := {
  cm_once : k_once k' = k_once k;
  cm_len : len (default [] (k_dfw k')) ≤ len (default [] (k_dfw k));
  cm_none : k_dfw k = None → k_dfw k' = None;
  cm_live : live k' → live k }.

Lemma calm_same W s W' s' :
  st_writeOnce s' = st_writeOnce s → st_dataForWriting s' = st_dataForWriting s →
  advance W (view s) W' (view s') → calm (view s) (view s').
Proof.
  intros Ho Hd Ha. constructor; [done| |change (st_dataForWriting s = None → st_dataForWriting s' = None); congruence|apply Ha].
  change (len (default [] (st_dataForWriting s')) ≤ len (default [] (st_dataForWriting s))). by rewrite Hd.
Qed.

Lemma calm_writer x s s' :
  calm (view s) (view s') → writer_ok (wr_p x) x s → writer_ok (wr_p x) x s'.
Proof.
  intros [Ho Hlen Hnone Hlive] (Hp & Hn & Hw & Hphase).
  change (st_writeOnce s' = st_writeOnce s) in Ho.
  change (len (default [] (st_dataForWriting s')) ≤ len (default [] (st_dataForWriting s))) in Hlen.
  change (st_dataForWriting s = None → st_dataForWriting s' = None) in Hnone.
  split_and!; [done|lia|lia|congruence|]. destruct (wr_phase x); [..|lia]; (split; [lia|]; intros ?; apply Hnone, Hphase; auto).
Qed.

(** After an operation that leaves the bytes written alone. *)
Lemma inv_after w w' :
  inv w → stream_ok (written w) (w_stream w') →
  advance (written w) (view (w_stream w)) (written w) (view (w_stream w')) →
  calm (view (w_stream w)) (view (w_stream w')) →
  w_accepted w' = w_accepted w → w_writer w' = w_writer w → conn_range (w_conn w') →
  Forall (piece (written w) (view (w_stream w'))) (w_sent w') →
  w_out w' ⊆ w_sent w' → w_acked w' ⊆ w_sent w' →
  flight (view (w_stream w')) (w_out w') (w_acked w') (w_resets w') (w_resetsAcked w') → inv w'.
Proof.
  intros Hi Hok Ha Hcalm Hacc Hwr Hc Hsent Hout Hacked Hfl. inv_cases Hi.
  assert (written w' = written w) as Hw by (unfold written; by rewrite Hacc, Hwr).
  constructor; rewrite ?Hw; try done. rewrite Hwr. destruct (w_writer w) as [x|].
  - by eapply calm_writer.
  - destruct Iwriter as [Ho Hd], Hcalm as [Ho' _ Hnone Hlive]. split.
    + change (k_once (view (w_stream w')) = false). rewrite Ho'. exact Ho.
    + intros Hl. apply Hnone, Hd. auto.
Qed.

(** What is to be shown of each step. *)
Definition good (m : outcome FrameError (list SenderCall * World)) : Prop :=
  ∃ calls w', m = Ret (calls, w') ∧ inv w' ∧ (onStreamCompleted ∈ calls → finished (view (w_stream w'))).

Lemma good_same w : inv w → good (Ret ([], w)).
Proof. intros Hi. eexists _, _. split; [done|]. split; [done|]. by intros ?%not_elem_of_nil. Qed.

Lemma sent_after w s' :
  inv w → advance (written w) (view (w_stream w)) (written w) (view s') →
  Forall (piece (written w) (view s')) (w_sent w).
Proof. intros Hi Ha. eapply advance_pieces; [exact Ha|apply Hi]. Qed.

(** The frames in flight are as they were. *)
Lemma good_settle w c s' calls :
  inv w → conn_range c → stream_ok (written w) s' →
  advance (written w) (view (w_stream w)) (written w) (view s') → keeps (w_stream w) s' →
  (onStreamCompleted ∈ calls → finished (view s')) →
  good (settle (w <|w_conn := c|>) (Ret (calls, s'))).
Proof.
  intros Hi Hc Hok Ha Hk Hcalls. unfold settle. cbn [mbind outcome_bind]. eexists _, _. split; [done|].
  split; [|done]. apply (inv_after w); try done; upd.
  - eapply calm_same; [apply Hk..|exact Ha].
  - by apply sent_after.
  - apply Hi.
  - apply Hi.
  - eapply flight_same; [apply Hk|apply Hi].
Qed.

Lemma good_keeps w s' calls :
  inv w → stream_ok (written w) s' →
  advance (written w) (view (w_stream w)) (written w) (view s') → keeps (w_stream w) s' →
  (onStreamCompleted ∈ calls → finished (view s')) → good (settle w (Ret (calls, s'))).
Proof.
  intros Hi ????. assert (w <|w_conn := w_conn w|> = w) as E by by destruct w.
  rewrite <-E. apply good_settle; try done. apply Hi.
Qed.

Lemma good_quiet w s' calls :
  inv w → quiet (w_stream w) s' → onStreamCompleted ∉ calls → good (settle w (Ret (calls, s'))).
Proof.
  intros Hi Hq Hno. destruct (quiet_ok _ _ _ Hq (iv_stream _ Hi)) as [Hok Ha].
  apply good_keeps; try done. destruct Hq as [Hv _]. constructor; [rewrite Hv; apply same_frames_refl|..].
  - by apply (f_equal k_once) in Hv.
  - by apply (f_equal k_dfw) in Hv.
Qed.

(** ** Each step keeps it *)

Lemma good_write now p limiter w : inv w → Forall is_byte p → good (stepWrite now p limiter w).
Proof.
  intros Hi Hp. unfold stepWrite. destruct (w_writer w) as [x|] eqn:Hwr; [by apply good_same|].
  inv_cases Hi. rewrite Hwr in Iwriter. destruct Iwriter as [Ho Hd].
  assert (written w = w_accepted w) as Hw by (unfold written; by rewrite Hwr, app_nil_r). rewrite Hw in *.
  destruct (WriteWithLimit_spec append_cap now (w_accepted w) p limiter (w_stream w)) as (res & calls & s' & E & Hsf & Hres);
    [done..|].
  pose proof (WriteWithLimit_reports append_cap _ _ _ _ _ _ _ E) as Hrep. rewrite E. cbn [mbind outcome_bind].
  eexists _, _. split; [done|]. pose proof (flight_same _ _ _ _ _ _ Hsf Iflight) as Hfl.
  destruct res as [n err|x].
  - destruct Hres as (_ & _ & Ho' & Hok & Ha & Hd'). split; [|intros Hin; apply Hrep; [done|apply Hok]].
    constructor; unfold written; upd; rewrite ?Hwr, ?app_nil_r; try done.
    + split; [done|]. rewrite Hd'. intros Hl. apply Hd, Ha, Hl.
    + by eapply advance_pieces.
  - destruct Hres as (Hok & Ha & Hx & Hl). assert (wr_p x = p) as Hxp by apply Hx.
    split; [|intros Hin; apply Hrep; [done|apply Hok]].
    constructor; unfold written; upd; rewrite ?Hxp; try done. by eapply advance_pieces.
Qed.

Lemma good_resume now w : inv w → good (stepResume now w).
Proof.
  intros Hi. unfold stepResume. destruct (w_writer w) as [x|] eqn:Hwr; [|by apply good_same].
  inv_cases Hi. rewrite Hwr in Iwriter.
  assert (written w = w_accepted w ++ wr_p x) as Hw by (unfold written; by rewrite Hwr). rewrite Hw in *.
  destruct (writeResumes_spec append_cap now x (w_accepted w) (wr_p x) (w_stream w)) as (res & calls & s' & E & Hsf & Hres);
    [done..|].
  pose proof (writeResumes_reports append_cap _ _ _ _ _ _ E) as Hrep. rewrite E. cbn [mbind outcome_bind].
  eexists _, _. split; [done|]. pose proof (flight_same _ _ _ _ _ _ Hsf Iflight) as Hfl.
  destruct res as [n err|x'].
  - destruct Hres as (_ & _ & Ho' & Hok & Ha & Hd'). split; [|intros Hin; apply Hrep; [done|apply Hok]].
    constructor; unfold written; upd; rewrite ?app_nil_r; try done. by eapply advance_pieces.
  - destruct Hres as (Hok & Ha & Hx). assert (wr_p x' = wr_p x) as Hxp by apply Hx.
    split; [|intros Hin; apply Hrep; [done|apply Hok]].
    constructor; unfold written; upd; rewrite ?Hxp; try done. by eapply advance_pieces.
Qed.

Lemma good_tryWriteAll p w : inv w → Forall is_byte p → good (stepTryWriteAll p w).
Proof.
  intros Hi Hp. unfold stepTryWriteAll. destruct (st_writeOnce (w_stream w)) eqn:Ho.
  { unfold TryWriteAll. rewrite Ho. cbn [mbind outcome_bind]. assert (w <|w_stream := w_stream w|> <|w_conn := w_conn w|>
      <|w_accepted := w_accepted w|> = w) as -> by by destruct w. by apply good_same. }
  inv_cases Hi. destruct (w_writer w) as [x|] eqn:Hwr.
  { destruct Iwriter as (_ & _ & Hx & _). congruence. }
  destruct Iwriter as [_ Hd].
  assert (written w = w_accepted w) as Hw by (unfold written; by rewrite Hwr, app_nil_r). rewrite Hw in *.
  assert (∀ err calls s' c', TryWriteAll p (w_stream w) (w_conn w) = Ret (err, calls, s', c') → reports calls s') as Hrep
    by (intros *; apply TryWriteAll_reports).
  revert Hrep. unfold TryWriteAll. rewrite Ho.
  destruct (tryWriteAll_spec (w_accepted w) p (w_stream w) (w_conn w))
    as (comp & more & err & s' & c' & -> & Hsf & Hc & Ho' & Hd' & _ & Hok & Ha); [done..|].
  cbn [mbind outcome_bind]. intros Hrep. specialize (Hrep _ _ _ _ eq_refl).
  eexists _, _. split; [done|]. split; [|intros Hin; apply Hrep; [done|apply Hok]].
  pose proof (flight_same _ _ _ _ _ _ Hsf Iflight) as Hfl.
  constructor; unfold written; upd; rewrite ?Hwr, ?app_nil_r; try done.
  - split; [congruence|]. rewrite Hd'. intros Hl. apply Hd, Ha, Hl.
  - by eapply advance_pieces.
Qed.

(** Nothing new is sent of a stream whose data was given up. *)
Lemma pop_given_up now limiter maxBytes s c f blocked more s' c' :
  popStreamFrame now limiter maxBytes s c = Ret (f, blocked, more, s', c') → given_up (view s) = true → f = None.
Proof.
  intros E Hup. rewrite <-given_up_view in Hup. apply andb_true_iff in Hup as [Hr Hz].
  unfold popStreamFrame, popNewStreamFrameForPacket in E. rewrite Hr, Hz in E. cbn [andb orb] in E.
  rewrite orb_true_r in E. cbn [orb mbind outcome_bind] in E. by injection E.
Qed.

Lemma good_pop now limiter maxBytes w :
  inv w → MinStreamFrameSize ≤ maxBytes ≤ MaxPacketBufferSize → good (stepPop now limiter maxBytes w).
Proof.
  intros Hi Hmax. unfold stepPop. pose proof (iv_stream _ Hi) as Hok. pose proof (iv_flight _ Hi) as Hfl.
  destruct (popStreamFrame_spec (written w) now limiter maxBytes (w_stream w) (w_conn w) Hok (iv_conn _ Hi) Hmax)
    as (f & blocked & more & s' & c' & E & Hc & (Hok' & Ha & Hf) & Hnum).
  pose proof (pop_given_up _ _ _ _ _ _ _ _ _ _ E) as Hup. rewrite E. cbn [mbind outcome_bind].
  pose proof (sent_after w s' Hi Ha) as Hsent.
  eexists _, _. split; [done|]. split; [|by intros ?%not_elem_of_nil].
  destruct f as [f|]; cbn [sends_frame].
  - destruct Hf as (Hp & Hs & _). apply (inv_after w); upd; try done.
    + constructor; [apply Hs..|apply Ha].
    + by apply Forall_cons.
    + apply list_subseteq_skip, Hi.
    + apply list_subseteq_cons, Hi.
    + eapply flight_pop; [exact Hfl|exact Hs|done|]. destruct (given_up _); [|done]. by specialize (Hup eq_refl).
  - destruct Hf as (Hs & Ho & Hd). apply (inv_after w); upd; try done.
    + constructor; [done|by rewrite Hd|by rewrite Hd|apply Ha].
    + apply Hi.
    + apply Hi.
    + by eapply flight_same.
Qed.

Lemma good_retransmit maxBytes w : inv w → good (stepRetransmit maxBytes w).
Proof.
  intros Hi. unfold stepRetransmit. pose proof (iv_stream _ Hi) as Hok. pose proof (iv_flight _ Hi) as Hfl.
  destruct (popRetransmissionFrame_spec (written w) maxBytes (w_stream w) Hok) as (f & more & s' & -> & Hok' & Ha & Hv & Hf).
  cbn [mbind outcome_bind]. pose proof (sent_after w s' Hi Ha) as Hsent.
  eexists _, _. split; [done|]. split; [|by intros ?%not_elem_of_nil].
  assert (calm (view (w_stream w)) (view s')) as Hcalm.
  { constructor; [by rewrite Hv|by rewrite Hv|by rewrite Hv|apply Ha]. }
  destruct f as [f|]; cbn [sends_frame].
  - destruct Hf as (Hq & Hnum & Hp & _). apply (inv_after w); upd; try done; [apply Hi|by apply Forall_cons|..].
    + apply list_subseteq_skip, Hi.
    + apply list_subseteq_cons, Hi.
    + by eapply flight_requeue.
  - apply (inv_after w); upd; try done; [apply Hi..|]. by rewrite Hf.
Qed.

Lemma recounted_view d fs s s' :
  recounted d fs s s' →
  same_frames (view s <|k_num := k_num (view s) - d|> <|k_queue := k_queue (view s) ++ fs|>) (view s').
Proof. by intros [? _ _]. Qed.

Lemma recounted_calm W d fs s s' : recounted d fs s s' → advance W (view s) W (view s') → calm (view s) (view s').
Proof. intros [_ Ho Hd] Ha. by apply (calm_same W s W s'). Qed.

Lemma delete_subseteq {A} n (l : list A) : delete n l ⊆ l.
Proof. apply sublist_subseteq, sublist_delete. Qed.

Lemma outstanding w n f :
  inv w → w_out w !! n = Some f →
  given_up (view (w_stream w)) = false → 0 < st_numOutstandingFrames (w_stream w).
Proof.
  intros Hi Hn Hup. pose proof (fl_num _ _ _ _ _ (iv_flight _ Hi)) as Hnum. rewrite Hup in Hnum.
  change (k_num (view (w_stream w))) with (st_numOutstandingFrames (w_stream w)) in Hnum. rewrite Hnum.
  apply lookup_lt_Some in Hn. unfold len. lia.
Qed.

Lemma good_acked n f w :
  inv w → w_out w !! n = Some f →
  good (settle (w <|w_out := delete n (w_out w)|> <|w_acked := f :: w_acked w|>)
          (sendStreamAckHandler_OnAcked f (w_stream w))).
Proof.
  intros Hi Hn. pose proof (iv_stream _ Hi) as Hok. pose proof (iv_flight _ Hi) as Hfl.
  assert (f ∈ w_sent w) as Hin by (apply Hi; by eapply list_elem_of_lookup_2).
  pose proof (proj1 (Forall_forall _ _) (iv_sent _ Hi) f Hin) as Hp.
  destruct (OnAcked_spec (written w) f (w_stream w) Hok (pc_pool _ _ _ Hp) (outstanding w n f Hi Hn))
    as (calls & s' & -> & Hok' & Ha & Hr & Hc).
  unfold settle. cbn [mbind outcome_bind]. eexists _, _. split; [done|]. split; [|done].
  apply (inv_after w); upd; try done.
  - by eapply recounted_calm.
  - apply Hi.
  - by apply sent_after.
  - etrans; [apply delete_subseteq|apply Hi].
  - intros g [->|Hg]%elem_of_cons; [done|]. by apply (iv_acked _ Hi).
  - eapply flight_same; [by apply recounted_view|].
    apply (flight_taken _ _ _ _ _ Hfl n f [f] []); try done.
    + intros i Hw _. apply in_frames_cons. auto.
    + intros _ Hfin. apply Exists_cons. auto.
Qed.

Lemma good_lost n f w :
  inv w → w_out w !! n = Some f →
  good (settle (w <|w_out := delete n (w_out w)|>) (sendStreamAckHandler_OnLost f (w_stream w))).
Proof.
  intros Hi Hn. pose proof (iv_stream _ Hi) as Hok. pose proof (iv_flight _ Hi) as Hfl.
  assert (f ∈ w_sent w) as Hin by (apply Hi; by eapply list_elem_of_lookup_2).
  pose proof (proj1 (Forall_forall _ _) (iv_sent _ Hi) f Hin) as Hp.
  destruct (OnLost_spec (written w) f (w_stream w) Hok Hp (outstanding w n f Hi Hn))
    as (calls & s' & fs & -> & Hok' & Ha & Hr & (Hc1 & Hc2 & Hc3) & Hc).
  unfold settle. cbn [mbind outcome_bind]. eexists _, _. split; [done|]. split; [|done].
  apply (inv_after w); upd; try done.
  - by eapply recounted_calm.
  - apply Hi.
  - by apply sent_after.
  - etrans; [apply delete_subseteq|apply Hi].
  - apply Hi.
  - eapply flight_same; [by apply recounted_view|].
    apply (flight_taken _ _ _ _ _ Hfl n f [] fs); try done.
    intros Hre Hfin. specialize (Hc2 Hre). rewrite Exists_exists in *. destruct Hc2 as (g & Hg & E).
    exists g. split; [done|congruence].
Qed.

(** A reset. *)
Lemma good_was_reset rel w s' calls :
  inv w → stream_ok (written w) s' → advance (written w) (view (w_stream w)) (written w) (view s') →
  was_reset rel (view (w_stream w)) (view s') → 0 ≤ rel → st_shutdownErr (w_stream w) = None →
  st_resetErr (w_stream w) = None ∧ reliableOffset (w_stream w) = rel ∨ (rel = 0 ∧ 0 < reliableOffset (w_stream w)) →
  onStreamCompleted ∉ calls → good (settle w (Ret (calls, s'))).
Proof.
  intros Hi Hok' Ha Hw Hge Hs Hcase Hno. rewrite <-reliable_view in Hcase.
  unfold settle. cbn [mbind outcome_bind]. eexists _, _. split; [done|]. split; [|done].
  apply (inv_after w); upd; try done; [..|by eapply flight_was_reset; [apply Hi|..]].
  - constructor; [apply Hw|by rewrite (wr_dfw _ _ _ Hw)|by rewrite (wr_dfw _ _ _ Hw)|apply Ha].
  - apply Hi.
  - by apply sent_after.
  - apply Hi.
  - apply Hi.
Qed.

Lemma good_cancel code w : inv w → good (settle w (CancelWrite code (w_stream w))).
Proof.
  intros Hi. pose proof (iv_stream _ Hi) as Hok.
  destruct (CancelWrite_spec (written w) code (w_stream w) Hok) as (calls & s' & -> & Hok' & Ha & [(_ & Hk & Hc)|(Hr & Hs & Hno & Hw)]).
  - by apply good_keeps.
  - eapply good_was_reset; try done; [by eapply reliable_nonneg|by left].
Qed.

Lemma good_stop f w : inv w → good (settle w (handleStopSendingFrame f (w_stream w))).
Proof.
  intros Hi. pose proof (iv_stream _ Hi) as Hok.
  destruct (handleStopSendingFrame_spec (written w) f (w_stream w) Hok)
    as (calls & s' & -> & Hok' & Ha & Hno & [->|(Hs & Hr & Hw)]).
  - by apply good_keeps.
  - eapply good_was_reset; try done. destruct (decide (0 < reliableOffset (w_stream w))); [by right|].
    pose proof (reliable_nonneg _ _ Hok). left. split; [destruct Hr; [done|lia]|lia].
Qed.

(** A change of the boundary. *)
Lemma good_boundary rel sup w s' :
  inv w → st_resetErr (w_stream w) = None → stream_ok (written w) s' →
  advance (written w) (view (w_stream w)) (written w) (view s') →
  view s' = view (w_stream w) <|k_rel := rel|> <|k_sup := sup|> → good (settle w (Ret ([], s'))).
Proof.
  intros Hi Hr Hok' Ha Hv. unfold settle. cbn [mbind outcome_bind].
  eexists _, _. split; [done|]. split; [|by intros ?%not_elem_of_nil].
  apply (inv_after w); upd; try done.
  - constructor; [by rewrite Hv|by rewrite Hv|by rewrite Hv|apply Ha].
  - apply Hi.
  - by apply sent_after.
  - apply Hi.
  - apply Hi.
  - rewrite Hv. apply flight_boundary; [apply Hi|done].
Qed.

Lemma good_control w :
  inv w →
  good (let '(f, s) := getControlFrame (w_stream w) in
        settle (match f with Some r => w <|w_resets := r :: w_resets w|> | None => w end) (Ret ([], s))).
Proof.
  intros Hi. pose proof (getControlFrame_spec (written w) (w_stream w) (iv_stream _ Hi)) as Hspec.
  destruct (getControlFrame (w_stream w)) as [f s']. destruct Hspec as (Hok' & Ha & Hf & Hv).
  unfold settle. cbn [mbind outcome_bind]. eexists _, _. split; [done|]. split; [|by intros ?%not_elem_of_nil].
  assert (calm (view (w_stream w)) (view s')) as Hcalm by (constructor; [by rewrite Hv..|apply Ha]).
  pose proof (sent_after w s' Hi Ha) as Hsent. pose proof (iv_flight _ Hi) as Hfl.
  destruct f as [r|]; apply (inv_after w); upd; try done; try apply Hi; rewrite Hv.
  - by apply flight_control.
  - eapply flight_same; [|exact Hfl]. constructor; try done. upd. lia.
Qed.

Lemma good_reset_acked n r w :
  inv w → w_resets w !! n = Some r →
  good (settle (w <|w_resets := delete n (w_resets w)|> <|w_resetsAcked := r :: w_resetsAcked w|>)
          (sendStreamResetStreamHandler_OnAcked r (w_stream w))).
Proof.
  intros Hi Hn. pose proof (iv_stream _ Hi) as Hok. pose proof (iv_flight _ Hi) as Hfl.
  destruct (ResetOnAcked_spec (written w) r (w_stream w) Hok) as (calls & s' & -> & Hok' & Ha & Hr & Hc).
  { intros E. pose proof (fl_num _ _ _ _ _ Hfl) as Hnum.
    change (k_num (view (w_stream w))) with (st_numOutstandingFrames (w_stream w)) in Hnum. rewrite Hnum.
    rewrite (matching_delete _ _ _ _ Hn), (proj2 (Z.eqb_eq _ _) E).
    pose proof (len_nonneg (w_out w)). pose proof (len_nonneg (matching (view (w_stream w)) (delete n (w_resets w)))).
    destruct (given_up _); lia. }
  unfold settle. cbn [mbind outcome_bind]. eexists _, _. split; [done|]. split; [|done].
  apply (inv_after w); upd; try done; try apply Hi.
  - by eapply recounted_calm.
  - by apply sent_after.
  - eapply flight_same; [|by apply flight_reset_acked].
    apply recounted_view in Hr. rewrite app_nil_r in Hr. by destruct Hr.
Qed.

Lemma good_reset_lost n r w :
  inv w → w_resets w !! n = Some r →
  good (settle (w <|w_resets := delete n (w_resets w)|>) (Ret (sendStreamResetStreamHandler_OnLost r (w_stream w)))).
Proof.
  intros Hi Hn. pose proof (ResetOnLost_spec (written w) r (w_stream w) (iv_stream _ Hi)) as Hspec.
  destruct (sendStreamResetStreamHandler_OnLost r (w_stream w)) as [calls s'].
  destruct Hspec as (Hok' & Ha & Hno & Hv).
  unfold settle. cbn [mbind outcome_bind]. eexists _, _. split; [done|]. split; [|done].
  pose proof (flight_reset_lost _ _ _ _ _ (iv_flight _ Hi) n r Hn) as Hfl.
  destruct (rs_ReliableSize r =? reliable (view (w_stream w))).
  - apply (inv_after w); upd; try done; try apply Hi.
    + constructor; [by rewrite Hv..|apply Ha].
    + by apply sent_after.
    + by rewrite Hv.
  - subst s'. apply (inv_after w); upd; try done; try apply Hi.
Qed.

Lemma good_shutdown err w : inv w → good (settle w (s ← closeForShutdown err (w_stream w); Ret ([], s))).
Proof.
  intros Hi.
  destruct (closeForShutdown_spec (written w) err (w_stream w) (iv_stream _ Hi)) as (s' & -> & Hok' & Ha & [Hk|[_ Hv]]);
    cbn [mbind outcome_bind].
  - apply good_keeps; try done. by intros ?%not_elem_of_nil.
  - unfold settle. cbn [mbind outcome_bind]. eexists _, _. split; [done|]. split; [|by intros ?%not_elem_of_nil].
    apply (inv_after w); upd; try done; try apply Hi.
    + constructor; [by rewrite Hv..|apply Ha].
    + by apply sent_after.
    + rewrite Hv. apply flight_shut, Hi.
Qed.

Lemma good_step e w : inv w → event_ok e → late e w = false → good (step e w).
Proof.
  intros Hi He Hlate. pose proof (iv_stream _ Hi) as Hok. destruct e; cbn [step event_ok late] in *.
  - by apply good_write.
  - by apply good_resume.
  - by apply good_tryWriteAll.
  - by apply good_pop.
  - by apply good_retransmit.
  - destruct (w_out w !! n) eqn:Hn; [by apply good_acked|by apply good_same].
  - destruct (w_out w !! n) eqn:Hn; [by apply good_lost|by apply good_same].
  - pose proof (Close_spec (written w) (w_stream w) Hok) as Hc. destruct (Close (w_stream w)) as [[b calls] s'].
    destruct Hc as (?&?&?&?). by apply good_keeps.
  - by apply good_cancel.
  - apply bool_decide_eq_false, eq_None_not_Some in Hlate.
    destruct (SetReliableBoundary_spec (written w) (w_stream w) Hok Hlate) as (?&?&?).
    by eapply (good_boundary _ (k_sup (view (w_stream w)))).
  - apply bool_decide_eq_false, eq_None_not_Some in Hlate.
    destruct (enableResetStreamAt_spec (written w) (w_stream w) Hok Hlate) as (?&?&?).
    by eapply (good_boundary (k_rel (view (w_stream w)))).
  - by apply good_stop.
  - by apply good_control.
  - destruct (w_resets w !! n) eqn:Hn; [by apply good_reset_acked|by apply good_same].
  - destruct (w_resets w !! n) eqn:Hn; [by apply good_reset_lost|by apply good_same].
  - destruct (updateSendWindow_spec (written w) limit (w_stream w) Hok He) as (?&?&?&_&?).
    destruct (updateSendWindow limit (w_stream w)). by apply good_keeps.
  - destruct (onConnectionSendWindowUpdated_spec (written w) (w_stream w) Hok) as (?&Hv&?).
    destruct (onConnectionSendWindowUpdated (w_stream w)) as [calls s']. cbn [fst snd] in *.
    apply good_settle; try done; rewrite ?Hv; [apply advance_refl|].
    constructor; [rewrite Hv; apply same_frames_refl|by apply (f_equal k_once) in Hv|by apply (f_equal k_dfw) in Hv].
  - pose proof (activateAfterDelay_quiet gen (w_stream w)) as Hq.
    assert (onStreamCompleted ∉ (activateAfterDelay gen (w_stream w)).1) as Hno.
    { unfold activateAfterDelay. destruct (negb _); [apply not_elem_of_nil|].
      destruct (_ || _); [apply not_elem_of_nil|by intros ?%list_elem_of_singleton]. }
    destruct (activateAfterDelay gen (w_stream w)). by apply good_quiet.
  - pose proof (SetPriority_quiet urgency incremental (w_stream w)) as Hq.
    assert (onStreamCompleted ∉ (SetPriority urgency incremental (w_stream w)).1) as Hno.
    { unfold SetPriority. destruct (st_completed _); [apply not_elem_of_nil|].
      destruct (decodeStreamPriority _) as [[??]?]. destruct (_ && _); [apply not_elem_of_nil|].
      cbn [fst]. rewrite !not_elem_of_cons. split_and!; [done|done|apply not_elem_of_nil]. }
    destruct (SetPriority urgency incremental (w_stream w)). by apply good_quiet.
  - apply good_quiet; [done|apply SetWriteDeadline_quiet|apply not_elem_of_nil].
  - by apply good_shutdown.
Qed.

Lemma good_run es w :
  inv w → Forall event_ok es → timely es w = true → ∃ w', run es w = Ret w' ∧ inv w'.
Proof.
  revert w. induction es as [|e es IH]; intros w Hi Hes Ht; [by eexists|].
  apply Forall_cons in Hes as [He Hes]. cbn [timely] in Ht. apply andb_true_iff in Ht as [Hl Ht].
  destruct (good_step e w Hi He) as (calls & w' & E & Hi' & _); [by apply negb_true_iff|].
  cbn [run]. rewrite E in Ht |- *. by apply IH.
Qed.

Lemma inv_new id window maxWindow initial sup c :
  vint id → 0 ≤ initial ≤ MaxByteCount → conn_range c → inv (newWorld id window maxWindow initial sup c).
Proof.
  intros Hid Hw Hc. constructor; try done.
  - split; [done|]. constructor; try done; cbn.
    + by exists [].
    + intros _. unfold reliable. cbn. by destruct sup.
    + unfold reserved. cbn. lia.
    + lia.
  - constructor; try done; cbn; [by intros []|].
    intros _ i [[? ?] _]. cbn in *. lia.
Qed.

(** ** What the invariant means *)

(** A frame carries bytes of the stream, within the window the peer granted; a FIN
    is at the end of what was written. *)
Definition carried (w : World) (f : StreamFrame) : Prop :=
  let s := w_stream w in
  sf_StreamID f = st_streamID s ∧ 0 ≤ sf_Offset f ∧ (sf_Fin f = true ∨ sf_Data f ≠ []) ∧
  sf_Data f = part (written w) (sf_Offset f) (len (sf_Data f)) ∧
  sf_Offset f + len (sf_Data f) ≤ Z.min (len (written w)) (s_sendWindow (st_flowController s)) ∧
  (sf_Fin f = true → st_resetErr s = None → st_shutdownErr s = None →
   sf_Offset f + len (sf_Data f) = len (written w)).

Lemma fin_written W k : core_ok W k → live k → k_finSent k = true → k_wo k = len W.
Proof.
  intros Hk Hl Hf. pose proof (ok_pending W k Hk Hl) as Hp. destruct (ok_fin _ _ Hk Hf) as [_ Hnil].
  rewrite (Hnil Hl) in Hp. pose proof (ok_wo _ _ Hk). apply (f_equal length) in Hp.
  rewrite length_drop in Hp. cbn in Hp. unfold len in *. lia.
Qed.

Lemma inv_carried w : inv w → Forall (carried w) (w_sent w).
Proof.
  intros Hi. pose proof (iv_stream _ Hi) as [_ Hk]. eapply Forall_impl; [apply Hi|].
  intros f [Pid Poff Pend Pdata Plen Psome Ppool Pfin].
  pose proof (ok_flow _ _ Hk) as Hflow. pose proof (reserved_nonneg (view (w_stream w))).
  pose proof (ok_wo _ _ Hk). change (k_fc (view (w_stream w))) with (st_flowController (w_stream w)) in Hflow.
  split_and!; [done|done| |done|lia|].
  - destruct Psome as [|Hpos]; [auto|right]. intros E. rewrite E in Hpos. done.
  - intros Hfin Hr Hs. assert (live (view (w_stream w))) as Hl by done. destruct (Pfin Hl Hfin) as [Hf ->].
    by apply fin_written.
Qed.

(** The bytes the peer has acknowledged. *)
Definition delivered (w : World) : Prop :=
  let s := w_stream w in
  match st_resetErr s with
  | None =>
      (∀ i, 0 ≤ i < len (written w) → covered (w_acked w) i) ∧
      Exists (λ f, sf_Fin f = true ∧ sf_Offset f + len (sf_Data f) = len (written w)) (w_acked w)
  | Some _ =>
      (∀ i, 0 ≤ i < reliableOffset s → covered (w_acked w) i) ∧
      Exists (λ r, rs_ReliableSize r = reliableOffset s) (w_resetsAcked w)
  end.

Lemma finished_delivered w :
  inv w → st_shutdownErr (w_stream w) = None → finished (view (w_stream w)) → delivered w.
Proof.
  intros Hi Hs (Hu & Hnum & Hq & Hqd & Hfr). pose proof (iv_stream _ Hi) as [_ Hk].
  pose proof (inv_carried w Hi) as Hcar. inv_cases Hi. flight_cases Iflight. rewrite Fnum in Hnum. specialize (Fcover Hs).
  rewrite Hq, app_nil_r in Fcover. unfold delivered. rewrite <-reliable_view.
  change (st_resetErr (w_stream w)) with (k_reset (view (w_stream w))).
  pose proof (len_nonneg (w_out w)). pose proof (len_nonneg (matching (view (w_stream w)) (w_resets w))).
  destruct (k_reset (view (w_stream w))) as [e|] eqn:Hr.
  - assert (given_up (view (w_stream w)) = true ∨ w_out w = []) as Hout.
    { destruct (given_up _); [by left|right]. apply len_0_nil. lia. }
    assert (matching (view (w_stream w)) (w_resets w) = []) as Hm.
    { apply len_0_nil. destruct (given_up (view (w_stream w))); lia. }
    split.
    + intros i Hi. destruct Hout as [Hup|Hout].
      { unfold given_up in Hup. apply andb_true_iff in Hup as [_ Hz]. lia. }
      rewrite Hout, app_nil_r in Fcover. apply Fcover. split; [|intros _; lia].
      destruct (ok_boundary _ _ Hk Hs) as [_ Hb]. rewrite Hu in Hb. change (len (A:=Z) []) with 0 in Hb. lia.
    + destruct (Freset ltac:(by eexists)) as [[? ?]|Hex]; [congruence|].
      rewrite Exists_app in Hex. destruct Hex as [Hex|]; [|done]. exfalso.
      apply Exists_exists in Hex as (r & Hin & E).
      assert (r ∈ matching (view (w_stream w)) (w_resets w)) as Hin' by (by apply list_elem_of_filter).
      rewrite Hm in Hin'. by apply not_elem_of_nil in Hin'.
  - destruct Hfr as [Hfin|[? ?]]; [|done]. assert (live (view (w_stream w))) as Hl by done.
    pose proof (fin_written _ _ Hk Hl Hfin) as Hwo.
    assert (w_out w = []) as Hout.
    { apply len_0_nil. unfold given_up in Hnum. rewrite Hr in Hnum. cbn in Hnum. lia. }
    rewrite Hout, app_nil_r in Fcover. specialize (Ffin Hs eq_refl Hfin).
    rewrite Hout, Hq, !app_nil_r in Ffin. split.
    + intros i Hi. apply Fcover. split; [lia|]. rewrite Hr. by intros [].
    + rewrite Exists_exists in *. destruct Ffin as (f & Hf & Ef). exists f. split; [done|]. split; [done|].
      pose proof (proj1 (Forall_forall _ _) Hcar f (Iacked f Hf)) as (_ & _ & _ & _ & _ & Hend). by apply Hend.
Qed.

(** A stream that has sent everything and has one frame in flight. *)
Lemma last_ack f w :
  inv w → w_out w = [f] → st_retransmissionQueue (w_stream w) = [] → st_finSent (w_stream w) = true →
  st_resetErr (w_stream w) = None → st_shutdownErr (w_stream w) = None → st_completed (w_stream w) = false →
  ∃ s', sendStreamAckHandler_OnAcked f (w_stream w) = Ret ([onStreamCompleted], s').
Proof.
  intros Hi Hout Hq Hfin Hr Hs Hc. pose proof (iv_stream _ Hi) as [Hh Hk]. pose proof (iv_flight _ Hi) as Hfl.
  assert (f ∈ w_sent w) as Hin by (apply Hi; rewrite Hout; by left).
  pose proof (pc_pool _ _ _ (proj1 (Forall_forall _ _) (iv_sent _ Hi) f Hin)) as Hp.
  destruct (fl_none _ _ _ _ _ Hfl Hr) as [Hqd Hres]. pose proof (fl_num _ _ _ _ _ Hfl) as Hnum.
  rewrite Hres, Hout in Hnum. unfold given_up in Hnum. change (k_reset (view (w_stream w))) with (st_resetErr (w_stream w)) in Hnum.
  rewrite Hr in Hnum. change (st_numOutstandingFrames (w_stream w) = 1) in Hnum.
  change (st_queuedResetStreamFrame (w_stream w) = None) in Hqd.
  destruct (ok_fin _ _ Hk Hfin) as [_ Hpend]. specialize (Hpend (conj Hr Hs)).
  unfold pending, unsent, next_data in Hpend. change (k_next (view (w_stream w))) with (st_nextFrame (w_stream w)) in Hpend.
  change (k_buf (view (w_stream w))) with (buffered (w_stream w)) in Hpend.
  apply app_eq_nil in Hpend as [Hpend _]. apply app_eq_nil in Hpend as [Hn Hb].
  unfold sendStreamAckHandler_OnAcked. rewrite PutBack_ok by done. cbn [mbind outcome_bind]. rewrite Hr.
  cbn [bool_decide is_Some andb]. rewrite (bool_decide_eq_false_2 (is_Some None)) by (by intros []). cbn [andb].
  rewrite countDown_spec by lia. cbn [mbind outcome_bind]. rewrite Hnum.
  set (s1 := w_stream w <|st_numOutstandingFrames := 1 - 1|>). unfold isNewlyCompleted.
  change (bufferedWriteLen s1) with (bufferedWriteLen (w_stream w)). rewrite bufferedWriteLen_eq, Hb by done.
  change (st_nextFrame s1) with (st_nextFrame (w_stream w)). change (st_completed s1) with (st_completed (w_stream w)).
  change (st_retransmissionQueue s1) with (st_retransmissionQueue (w_stream w)).
  change (st_queuedResetStreamFrame s1) with (st_queuedResetStreamFrame (w_stream w)).
  change (st_finSent s1) with (st_finSent (w_stream w)). change (st_numOutstandingFrames s1) with 0.
  rewrite Hc, Hq, Hqd, Hfin. unfold StreamFrame_DataLen.
  assert ((match st_nextFrame (w_stream w) with Some f => len (sf_Data f) >? 0 | None => false end) = false) as ->.
  { destruct (st_nextFrame (w_stream w)); [by rewrite Hn|done]. }
  by eexists.
Qed.



Lemma live_view s : st_resetErr s = None → st_shutdownErr s = None → live (view s).
Proof. done. Qed.

(** A reset of a stream that was not reset yet. *)
Lemma cancel_live code w :
  inv w → live (view (w_stream w)) →
  ∃ calls s', CancelWrite code (w_stream w) = Ret (calls, s') ∧ inv (w <|w_stream := s'|>) ∧
    was_reset (reliableOffset (w_stream w)) (view (w_stream w)) (view s').
Proof.
  intros Hi Hl. destruct (good_cancel code w Hi) as (calls & w' & E & Hi' & _).
  destruct (CancelWrite_spec (written w) code (w_stream w) (iv_stream _ Hi))
    as (calls1 & s' & E1 & _ & _ & [(Hn & _)|(_ & _ & _ & Hw)]); [done|].
  rewrite E1 in E. unfold settle in E. cbn [mbind outcome_bind] in E. injection E as <- <-. by exists calls1, s'.
Qed.

(** The RESET_STREAM frame is sent, and a frame in flight is lost. *)
Lemma cancel_then_lost code w n f :
  inv w → live (view (w_stream w)) → w_out w !! n = Some f →
  sf_Offset f < reliableOffset (w_stream w) < sf_Offset f + len (sf_Data f) →
  ∃ w' r g, run [EvCancel code; EvControl; EvLost n] w = Ret w' ∧ r ∈ w_resets w' ∧
    g ∈ st_retransmissionQueue (w_stream w') ∧ sf_Fin g = sf_Fin f ∧
    reliableOffset (w_stream w') = reliableOffset (w_stream w) ∧
    sf_Offset g + len (sf_Data g) = reliableOffset (w_stream w) ∧
    sf_Offset f + len (sf_Data f) ≤ rs_FinalSize r.
Proof.
  intros Hi Hl Hn Hrel. destruct (cancel_live code w Hi Hl) as (calls & s1 & E1 & Hi1 & Hw).
  assert (f ∈ w_sent w) as Hin by (apply Hi; by eapply list_elem_of_lookup_2).
  pose proof (proj1 (Forall_forall _ _) (iv_sent _ Hi) f Hin) as [_ Hoff Hend _ _ _ _ _].
  destruct (wr_queued _ _ _ Hw) as (r & Hq & _ & Hfinal). change (st_queuedResetStreamFrame s1 = Some r) in Hq.
  pose proof (good_control _ Hi1) as (c2 & w2 & E2 & Hi2 & _). upd. unfold getControlFrame in E2. rewrite Hq in E2.
  unfold settle in E2. cbn [mbind outcome_bind] in E2. injection E2 as <- <-. upd.
  set (s2 := s1 <|st_numOutstandingFrames := st_numOutstandingFrames s1 + 1|> <|st_queuedResetStreamFrame := None|>) in *.
  set (w2 := w <|w_stream := s1|> <|w_resets := r :: w_resets w|> <|w_stream := s2|>) in *.
  assert (reliableOffset s2 = reliableOffset (w_stream w)) as Hrel2.
  { rewrite <-(wr_rel _ _ _ Hw), reliable_view. done. }
  assert (given_up (view s2) = false) as Hup.
  { rewrite <-given_up_view, Hrel2, (proj2 (Z.eqb_neq _ _)) by lia. apply andb_false_r. }
  pose proof (outstanding w2 n f Hi2 Hn Hup) as Hpos.
  pose proof (proj1 (Forall_forall _ _) (iv_sent _ Hi2) f Hin) as Hp.
  destruct (OnLost_truncated (written w2) f s2 (iv_stream _ Hi2) Hp) as (c3 & s3 & g & E3 & Hg & Hr3 & Hfin & Hge);
    [exact (wr_reset _ _ _ Hw)|done|lia|].
  assert (step (EvCancel code) w = Ret (calls, w <|w_stream := s1|>)) as S1 by (cbn [step]; by rewrite E1).
  assert (step EvControl (w <|w_stream := s1|>) = Ret ([], w2)) as S2.
  { cbn [step]. change (w_stream (w <|w_stream := s1|>)) with s1. unfold getControlFrame. by rewrite Hq. }
  assert (step (EvLost n) w2 = Ret (c3, w2 <|w_out := delete n (w_out w)|> <|w_stream := s3|>)) as S3.
  { cbn [step]. change (w_out w2) with (w_out w). rewrite Hn. change (w_stream w2) with s2. by rewrite E3. }
  cbn [run]. rewrite S1. cbn [mbind outcome_bind]. rewrite S2. cbn [mbind outcome_bind]. rewrite S3.
  eexists _, r, g. split; [done|]. upd. split_and!; [by left|done|done|lia|lia|].
  change (k_wo (view (w_stream w))) with (st_writeOffset (w_stream w)) in *. lia.
Qed.



End world.

(** A FIN that contradicts the final size the receiver knows. *)
Lemma final_size_contradicted F off t t' fc fc' c c' :
  UpdateHighestReceived F true t fc c = (None, fc', c') → off ≠ F →
  (UpdateHighestReceived off true t' fc' c').1.1 = Some FinalSizeError.
Proof.
  intros E Hne. assert (receivedFinalOffset fc' = true ∧ highestReceived (s_recv fc') = F) as [Hf Hh].
  { revert E. unfold UpdateHighestReceived. destruct (_ && negb _); [done|]. destruct (_ && _); [done|].
    destruct (Z.eqb_spec F (highestReceived (s_recv (set_receivedFinalOffset fc)))) as [->|]; [by intros [= <- <-]|].
    destruct (_ <? _); [done|]. destruct (checkFlowControlViolation _); [done|].
    destruct (IncrementHighestReceived _ _ _). by intros [= -> <- <-]. }
  unfold UpdateHighestReceived. rewrite Hf, Hh, (proj2 (Z.eqb_neq _ _) Hne). done.
Qed.

(** ** Theorems *)

Section theorems.
Context (append_cap : Z → Z → Z) (id window maxWindow initial : Z) (sup : bool) (c : connectionFlowController).
Context (Hid : vint id) (Hwindow : 0 ≤ initial ≤ MaxByteCount) (Hconn : conn_range c).

Abbreviation start := (newWorld id window maxWindow initial sup c).

Lemma reached es w :
  Forall event_ok es → timely append_cap es start = true → run append_cap es start = Ret w → inv w.
Proof.
  intros Hes Ht Hrun.
  destruct (good_run append_cap es _ (inv_new id window maxWindow initial sup c Hid Hwindow Hconn) Hes Ht) as (w1 & E & Hi).
  congruence.
Qed.

(** C2: Whatever the application, the peer and the network do with a stream, as
    long as no reliable boundary is set and RESET_STREAM_AT is not enabled after a
    reset ([timely]), no operation panics, and every STREAM frame ever sent
    carries the bytes that were written at its offset, within the peer's limit; on a
    stream that is neither reset nor shut down, a FIN bit is at the end of the data
    written. *)
Theorem sent_frames_carry_stream es :
  Forall event_ok es → timely append_cap es (newWorld id window maxWindow initial sup c) = true →
  ∃ w, run append_cap es (newWorld id window maxWindow initial sup c) = Ret w ∧ Forall (carried w) (w_sent w).
Proof.
  intros Hes Ht. destruct (good_run append_cap es _ (inv_new id window maxWindow initial sup c Hid Hwindow Hconn) Hes Ht)
    as (w & E & Hi). exists w. split; [done|]. by apply inv_carried.
Qed.

(** C6: No byte is forgotten: until the stream is shut down, every byte sent that
    the peer is still to get (all of them, or those below the reliable size after
    a reset) is acknowledged, in flight, or queued for retransmission; and so is a
    FIN that was sent, on a stream that is not reset.  The stream counts its STREAM
    frames in flight, unless it was reset with a reliable size of zero, and the
    RESET_STREAM frames in flight that announce the reliable size in force. *)
Theorem unacked_data_is_kept es w :
  Forall event_ok es → timely append_cap es (newWorld id window maxWindow initial sup c) = true →
  run append_cap es (newWorld id window maxWindow initial sup c) = Ret w → st_shutdownErr (w_stream w) = None →
  let s := w_stream w in
  (∀ i, 0 ≤ i < st_writeOffset s → (is_Some (st_resetErr s) → i < reliableOffset s) →
     covered (w_acked w ++ w_out w ++ st_retransmissionQueue s) i) ∧
  st_numOutstandingFrames s =
    (if bool_decide (is_Some (st_resetErr s)) && (reliableOffset s =? 0) then 0 else len (w_out w)) +
    len (filter (λ r, rs_ReliableSize r = reliableOffset s) (w_resets w)) ∧
  (st_resetErr s = None →
   st_numOutstandingFrames s = len (w_out w) ∧
   (st_finSent s = true →
    Exists (λ f, sf_Fin f = true) (w_acked w ++ w_out w ++ st_retransmissionQueue s))).
Proof.
  intros Hes Ht Hrun Hs s. pose proof (reached es w Hes Ht Hrun) as Hi. pose proof (iv_flight _ Hi) as Hfl.
  assert (st_numOutstandingFrames s =
    (if bool_decide (is_Some (st_resetErr s)) && (reliableOffset s =? 0) then 0 else len (w_out w)) +
    len (filter (λ r, rs_ReliableSize r = reliableOffset s) (w_resets w))) as Hnum.
  { rewrite given_up_view, <-reliable_view. exact (fl_num _ _ _ _ _ Hfl). }
  split_and!; [|done|].
  - intros i Hi1 Hlim. apply (fl_cover _ _ _ _ _ Hfl Hs). split; [done|]. by rewrite reliable_view.
  - intros Hr. split; [|by apply (fl_fin _ _ _ _ _ Hfl Hs Hr)].
    destruct (fl_none _ _ _ _ _ Hfl Hr) as [_ Hres]. rewrite Hnum, Hres, Hr.
    rewrite (bool_decide_eq_false_2 (is_Some None)) by (by intros []).
    cbn [andb]. rewrite filter_nil. change (len (A:=ResetStreamFrame) []) with 0. lia.
Qed.

(** C5: A stream is reported complete only when the peer has everything: all the
    bytes written and the FIN are acknowledged, or, after a reset, the bytes below
    the reliable size and a RESET_STREAM frame that announces it. *)
Theorem completed_stream_was_delivered es w e calls w' :
  Forall event_ok es → timely append_cap es (newWorld id window maxWindow initial sup c) = true →
  run append_cap es (newWorld id window maxWindow initial sup c) = Ret w → event_ok e → late e w = false →
  step append_cap e w = Ret (calls, w') → onStreamCompleted ∈ calls → st_shutdownErr (w_stream w') = None →
  delivered w'.
Proof.
  intros Hes Ht Hrun He Hl Hstep Hin Hs.
  pose proof (reached es w Hes Ht Hrun) as Hi.
  destruct (good_step append_cap e w Hi He Hl) as (calls1 & w1 & E1 & Hi1 & Hfin).
  rewrite Hstep in E1. injection E1 as <- <-. apply finished_delivered; [done|done|by apply Hfin].
Qed.

(** C23: A stream whose data and FIN are all sent completes with the acknowledgement
    of its last frame in flight. *)
Theorem last_ack_completes es w f :
  Forall event_ok es → timely append_cap es (newWorld id window maxWindow initial sup c) = true →
  run append_cap es (newWorld id window maxWindow initial sup c) = Ret w →
  w_out w = [f] → st_retransmissionQueue (w_stream w) = [] → st_finSent (w_stream w) = true →
  st_resetErr (w_stream w) = None → st_shutdownErr (w_stream w) = None → st_completed (w_stream w) = false →
  ∃ w', step append_cap (EvAcked 0) w = Ret ([onStreamCompleted], w') ∧ delivered w'.
Proof.
  intros Hes Ht Hrun Hout Hq Hfin Hr Hs Hc.
  pose proof (reached es w Hes Ht Hrun) as Hi.
  destruct (good_step append_cap (EvAcked 0) w Hi I eq_refl) as (calls & w' & E1 & Hi1 & Hfin1).
  destruct (last_ack f w Hi Hout Hq Hfin Hr Hs Hc) as (s' & Hack).
  revert E1. cbn [step]. rewrite Hout. cbn [lookup list_lookup]. rewrite Hack. unfold settle. cbn [mbind outcome_bind].
  intros E1. injection E1 as <- <-. eexists. split; [done|]. apply finished_delivered; [done| |].
  - destruct (OnAcked_spec (written w) f (w_stream w) (iv_stream _ Hi)) as (calls1 & s1 & E2 & _ & _ & Hk & _).
    + assert (f ∈ w_sent w) as Hin by (apply Hi; rewrite Hout; by left).
      exact (pc_pool _ _ _ (proj1 (Forall_forall _ _) (iv_sent _ Hi) f Hin)).
    + apply (outstanding w 0 f Hi). by rewrite Hout.
    + rewrite Hack in E2. injection E2 as <- <-. upd. apply recounted_view in Hk. exact (eq_trans (sm_shut _ _ Hk) Hs).
  - apply Hfin1. by left.
Qed.

(** C25: A frame that is cut at the reliable size keeps its FIN bit.  When a stream is
    cancelled with a frame in flight that carries a FIN and data on both sides of
    the reliable size, and that frame is lost, the stream queues a FIN at the
    reliable size after it has sent a RESET_STREAM_AT with a larger final size: a
    peer that has accepted the reset answers the FIN with FINAL_SIZE_ERROR. *)
Theorem truncated_frame_keeps_fin es w n f code :
  Forall event_ok es → timely append_cap es (newWorld id window maxWindow initial sup c) = true →
  run append_cap es (newWorld id window maxWindow initial sup c) = Ret w →
  st_resetErr (w_stream w) = None → st_shutdownErr (w_stream w) = None →
  w_out w !! n = Some f → sf_Fin f = true →
  sf_Offset f < reliableOffset (w_stream w) < sf_Offset f + len (sf_Data f) →
  ∃ w' r g, run append_cap [EvCancel code; EvControl; EvLost n] w = Ret w' ∧
    r ∈ w_resets w' ∧ g ∈ st_retransmissionQueue (w_stream w') ∧ sf_Fin g = true ∧
    sf_Offset g + len (sf_Data g) = reliableOffset (w_stream w') ∧ reliableOffset (w_stream w') < rs_FinalSize r ∧
    ∀ t t' fc fc' rc rc', UpdateHighestReceived (rs_FinalSize r) true t fc rc = (None, fc', rc') →
      (UpdateHighestReceived (sf_Offset g + len (sf_Data g)) (sf_Fin g) t' fc' rc').1.1 = Some FinalSizeError.
Proof.
  intros Hes Ht Hrun Hr Hs Hn Hfin Hrel. pose proof (reached es w Hes Ht Hrun) as Hi.
  destruct (cancel_then_lost append_cap code w n f Hi (live_view _ Hr Hs) Hn Hrel)
    as (w' & r & g & E & Hin & Hg & Hgf & Hre & Hend & Hfinal).
  exists w', r, g. rewrite Hgf, Hfin. split_and!; [done..|lia|lia|].
  intros t t' fc fc' rc rc' Hu. eapply final_size_contradicted; [exact Hu|lia].
Qed.

End theorems.

(** ** Samples *)

Definition sample_conn : connectionFlowController := newConnectionFlowController 1000 1000 true.
Definition open_conn : connectionFlowController := (Connection_UpdateSendWindow 1000000 sample_conn).2.
Definition sample_world (sup : bool) : World := newWorld 4 1000 1000 100000 sup open_conn.
Definition doubled (_ n : Z) : Z := 2 * n.

(** Two writes in two frames, the first is lost and sent again, then a FIN. *)
Definition sample_events : list Event :=
  [EvWrite 0 [1; 2; 3; 4; 5] false; EvResume 0; EvPop 0 id 1200; EvWrite 10 [6; 7] false; EvPop 10 id 1200;
   EvLost 1; EvRetransmit 1200; EvClose; EvPop 20 id 1200; EvAcked 0; EvAcked 1].

Definition sample_end : World :=
  match run doubled sample_events (sample_world true) with Ret w => w | _ => sample_world true end.

Lemma sample_events_ok : Forall event_ok sample_events.
Proof. unfold sample_events. repeat constructor; by_decision. Qed.
Lemma open_conn_range : conn_range open_conn.
Proof. by_decision. Qed.

Lemma sent_frames_carry_stream_witness :
  written sample_end = [1; 2; 3; 4; 5; 6; 7] ∧ len (w_sent sample_end) = 4 ∧
  ∃ w, run doubled sample_events (sample_world true) = Ret w ∧ Forall (carried w) (w_sent w).
Proof.
  split; [vm_compute; reflexivity|]. split; [vm_compute; reflexivity|].
  apply sent_frames_carry_stream; [by_decision|by_decision|apply open_conn_range|apply sample_events_ok|].
  vm_compute. reflexivity.
Defined.

(** Three reliable bytes are in flight, and a RESET_STREAM_AT. *)
Definition reset_events : list Event :=
  [EvWrite 0 [1; 2; 3] false; EvResume 0; EvPop 0 id 1200; EvBoundary; EvCancel 9; EvControl].
Definition reset_end : World :=
  match run doubled reset_events (sample_world true) with Ret w => w | _ => sample_world true end.

Lemma unacked_data_is_kept_witness :
  st_writeOffset (w_stream sample_end) = 7 ∧ len (w_acked sample_end) = 2 ∧
  covered (w_acked sample_end ++ w_out sample_end ++ st_retransmissionQueue (w_stream sample_end)) 5 ∧
  st_numOutstandingFrames (w_stream sample_end) = len (w_out sample_end) ∧
  Exists (λ f, sf_Fin f = true) (w_acked sample_end ++ w_out sample_end ++ st_retransmissionQueue (w_stream sample_end)) ∧
  reliableOffset (w_stream reset_end) = 3 ∧
  st_numOutstandingFrames (w_stream reset_end) =
    len (w_out reset_end) + len (filter (λ r, rs_ReliableSize r = 3) (w_resets reset_end)).
Proof.
  split; [vm_compute; reflexivity|]. split; [vm_compute; reflexivity|].
  destruct (unacked_data_is_kept doubled 4 1000 1000 100000 true open_conn ltac:(by_decision) ltac:(by_decision)
    open_conn_range sample_events sample_end sample_events_ok) as (Hc & _ & Hn);
    [vm_compute; reflexivity|vm_compute; reflexivity|vm_compute; reflexivity|].
  destruct Hn as [Hnum Hfin]; [vm_compute; reflexivity|].
  split; [apply Hc; [vm_compute; split; [discriminate|reflexivity]|]; intros [e He]; vm_compute in He; discriminate|].
  split; [exact Hnum|]. split; [apply Hfin; vm_compute; reflexivity|]. split; [vm_compute; reflexivity|].
  destruct (unacked_data_is_kept doubled 4 1000 1000 100000 true open_conn ltac:(by_decision) ltac:(by_decision)
    open_conn_range reset_events reset_end) as (_ & Hreset & _);
    [unfold reset_events; repeat constructor; by_decision|vm_compute; reflexivity..|].
  assert (reliableOffset (w_stream reset_end) = 3) as Hrel by (vm_compute; reflexivity).
  rewrite Hrel, andb_false_r in Hreset. exact Hreset.
Defined.

Lemma completed_stream_was_delivered_witness :
  ∃ w', step doubled (EvAcked 0) sample_end = Ret ([onStreamCompleted], w') ∧ delivered w'.
Proof.
  eexists. split; [vm_compute; reflexivity|].
  apply (completed_stream_was_delivered doubled 4 1000 1000 100000 true open_conn ltac:(by_decision) ltac:(by_decision)
    open_conn_range sample_events sample_end (EvAcked 0) [onStreamCompleted] _ sample_events_ok);
    [vm_compute; reflexivity|vm_compute; reflexivity|exact I|reflexivity|vm_compute; reflexivity|by left|reflexivity].
Defined.

Definition sample_last : StreamFrame := default (finFrame (w_stream sample_end)) (head (w_out sample_end)).

Lemma last_ack_completes_witness :
  w_out sample_end = [sample_last] ∧
  ∃ w', step doubled (EvAcked 0) sample_end = Ret ([onStreamCompleted], w') ∧ delivered w'.
Proof.
  split; [vm_compute; reflexivity|].
  apply (last_ack_completes doubled 4 1000 1000 100000 true open_conn ltac:(by_decision) ltac:(by_decision)
    open_conn_range sample_events sample_end sample_last sample_events_ok); vm_compute; reflexivity.
Defined.

(** ** Resets that go wrong *)



(** Six bytes and a FIN are sent, three of them reliable. *)
Definition fin_events : list Event :=
  [EvWrite 0 [1; 2; 3] false; EvResume 0; EvBoundary; EvWrite 5 [4; 5; 6] false; EvClose; EvPop 10 id 1200].
Definition fin_sent : World :=
  match run doubled fin_events (sample_world true) with Ret w => w | _ => sample_world true end.

Lemma truncated_frame_keeps_fin_witness :
  reliableOffset (w_stream fin_sent) = 3 ∧
  ∃ w' r g, run doubled [EvCancel 9; EvControl; EvLost 0] fin_sent = Ret w' ∧
    r ∈ w_resets w' ∧ g ∈ st_retransmissionQueue (w_stream w') ∧ sf_Fin g = true ∧
    sf_Offset g + len (sf_Data g) = reliableOffset (w_stream w') ∧ reliableOffset (w_stream w') < rs_FinalSize r ∧
    ∀ t t' fc fc' rc rc', UpdateHighestReceived (rs_FinalSize r) true t fc rc = (None, fc', rc') →
      (UpdateHighestReceived (sf_Offset g + len (sf_Data g)) (sf_Fin g) t' fc' rc').1.1 = Some FinalSizeError.
Proof.
  split; [vm_compute; reflexivity|].
  assert (∃ f, w_out fin_sent !! 0%nat = Some f ∧ sf_Fin f = true ∧
    sf_Offset f < reliableOffset (w_stream fin_sent) < sf_Offset f + len (sf_Data f)) as (f & Hf & Hfin & Hrel).
  { eexists. split; [vm_compute; reflexivity|]. split; [reflexivity|]. by vm_compute. }
  apply (truncated_frame_keeps_fin doubled 4 1000 1000 100000 true open_conn ltac:(by_decision) ltac:(by_decision)
    open_conn_range fin_events fin_sent 0 f 9); [|vm_compute; reflexivity..|exact Hf|exact Hfin|exact Hrel].
  unfold fin_events. repeat constructor; by_decision.
Defined.


