(* ===== verification/FrameSorter.v ===== *)
(** * Stream reassembly: internal/qng/frame_sorter.go

    Frames of a stream arrive in any order, overlapping and repeated; the sorter
    keeps the data in [queue], by offset, and the missing parts in [gaps].

    The linked list of gaps is a list.  While [push] holds pointers to elements
    and removes others, an element is named by its position in the list as it
    was when the pointers were taken, and a removed element is [None]; no
    element is inserted before the pointers are last used.  A panic, a nil
    dereference or a slice expression beyond the length is [None].  A received
    frame is known by a number; returning its buffer to the pool ([PutBack]) is
    an output. *)

From S2P Require Import Prelude Protocol.

Definition MaxStreamFrameSorterGaps : Z := 1000.

Record byteInterval := MkByteInterval { Start : Z; End_ : Z }.
#[global] Instance byteInterval_eq_dec : EqDecision byteInterval.
Proof. solve_decision. Defined.

Definition StreamFrame : Type := Z.

Record frameSorterEntry := MkEntry { Data : bytes; Frame : option StreamFrame }.
#[global] Instance frameSorterEntry_eq_dec : EqDecision frameSorterEntry.
Proof. solve_decision. Defined.

Record frameSorter := MkSorter {
  queue : gmap Z frameSorterEntry;
  readPos : Z;
  gaps : list byteInterval;
}.

Inductive SorterError := errDuplicateStreamData | errTooManyGaps | errTooLittleData.
#[global] Instance SorterError_eq_dec : EqDecision SorterError.
Proof. solve_decision. Defined.

Definition newFrameSorter : frameSorter := MkSorter ∅ 0 [MkByteInterval 0 MaxByteCount].

(** [if f != nil { f.PutBack() }] *)
Definition PutBack (f : option StreamFrame) : list StreamFrame := option_list f.

(** ** Looking for gaps *)

(** The position of the gap found, from position [i] on; [None] for the panic. *)
Fixpoint findStartGap (offset : Z) (i : nat) (gs : list byteInterval) : option (nat * bool) :=
  match gs with
  | [] => None
  | gap :: gs =>
      if (offset >=? Start gap) && (offset <=? End_ gap) then Some (i, true)
      else if offset <? Start gap then Some (i, false)
      else findStartGap offset (S i) gs
  end.

(** [gs] are the gaps from [startGap], at position [i], on.  The predecessor of
    the first gap is nil. *)
Fixpoint findEndGap (offset : Z) (i : nat) (gs : list byteInterval) : option (nat * bool) :=
  match gs with
  | [] => None
  | gap :: gs =>
      if (offset >=? Start gap) && (offset <? End_ gap) then Some (i, true)
      else if offset <? Start gap then
        match i with O => None | S j => Some (j, false) end
      else findEndGap offset (S i) gs
  end.

(** ** Dropping queued frames *)

(** Each round removes an entry, so the size of the queue bounds the rounds. *)
Fixpoint deleteLoop (fuel : nat) (pos : Z) (q : gmap Z frameSorterEntry) :
    gmap Z frameSorterEntry * list StreamFrame :=
  match fuel with
  | O => (q, [])
  | S fuel =>
      match q !! pos with
      | None => (q, [])
      | Some oldEntry =>
          let '(q, put) := deleteLoop fuel (i64 (pos + len (Data oldEntry))) (delete pos q) in
          (q, PutBack (Frame oldEntry) ++ put)
      end
  end.

Definition deleteConsecutive (pos : Z) (q : gmap Z frameSorterEntry) :
    gmap Z frameSorterEntry * list StreamFrame :=
  deleteLoop (S (size q)) pos q.

(** The loop of [push] that replaces the queued frames the new one covers:
    either the new frame is a duplicate, or the loop ends with the data, its end,
    the queue, whether a frame was replaced, whether the data was cut, and the
    frames put back. *)
Inductive replaceResult :=
  | Duplicate
  | Replaced (data : bytes) (end_ : Z) (q : gmap Z frameSorterEntry)
      (hasReplacedAtLeastOne wasCut : bool) (put : list StreamFrame).

Fixpoint replaceLoop (fuel : nat) (data : bytes) (start end_ pos : Z)
    (q : gmap Z frameSorterEntry) (hasReplacedAtLeastOne : bool) (put : list StreamFrame) :
    option replaceResult :=
  match fuel with
  | O => None
  | S fuel =>
      match q !! pos with
      | None => Some (Replaced data end_ q hasReplacedAtLeastOne false put)
      | Some oldEntry =>
          let oldEntryLen := len (Data oldEntry) in
          if (i64 (end_ - pos) >? oldEntryLen)
             || (hasReplacedAtLeastOne && (i64 (end_ - pos) =? oldEntryLen)) then
            replaceLoop fuel data start end_ (i64 (pos + oldEntryLen)) (delete pos q) true
              (put ++ PutBack (Frame oldEntry))
          else if negb hasReplacedAtLeastOne then Some Duplicate
          else
            data ← slice_to data (i64 (pos - start));
            Some (Replaced data pos q hasReplacedAtLeastOne true put)
      end
  end.

(** ** Elements of the list of gaps *)

Notation elements_of_gaps := (list (option byteInterval)).

Definition Remove (i : nat) (els : elements_of_gaps) : elements_of_gaps := <[i := None]> els.
Definition SetValue (i : nat) (g : byteInterval) (els : elements_of_gaps) : elements_of_gaps :=
  <[i := Some g]> els.
Definition InsertAfter (g : byteInterval) (i : nat) (els : elements_of_gaps) : elements_of_gaps :=
  take (S i) els ++ Some g :: drop (S i) els.

(** The loop over the gaps between [startGap] and [endGap], from position [k]. *)
Fixpoint removeBetween (fuel : nat) (k : nat) (endGapStart : Z) (els : elements_of_gaps)
    (q : gmap Z frameSorterEntry) :
    option (elements_of_gaps * gmap Z frameSorterEntry * list StreamFrame) :=
  match fuel with
  | O => None
  | S fuel =>
      gap ← mjoin (els !! k);
      if End_ gap <? endGapStart then
        let '(q, put) := deleteConsecutive (End_ gap) q in
        '(els, q, put') ← removeBetween fuel (S k) endGapStart (Remove k els) q;
        Some (els, q, put ++ put')
      else Some (els, q, [])
  end.

(** ** Push *)

(** The in-order fast path: the gaps and the queue when it applies. *)
Definition pushInOrder (data : bytes) (start end_ : Z) (frame : option StreamFrame)
    (s : frameSorter) : option frameSorter :=
  if start =? readPos s then
    match queue s !! start, gaps s with
    | None, gap :: rest =>
        if (Start gap =? start) && (end_ <=? End_ gap) then
          let gs := if end_ =? End_ gap then rest else MkByteInterval end_ (End_ gap) :: rest in
          Some (MkSorter (<[start := MkEntry data frame]> (queue s)) (readPos s) gs)
        else None
    | _, _ => None
    end
  else None.

(** Cutting the frame to the start of the gap, and the start gap's new value. *)
Definition adjustStart (data : bytes) (start end_ : Z) (startsInGap hasReplaced wasCut : bool)
    (i : nat) (startGap : byteInterval) (els : elements_of_gaps) :
    option (bytes * Z * bool * elements_of_gaps * bool) :=
  '(data, start, wasCut) ←
    (if negb startsInGap && negb hasReplaced then
       data ← slice_from data (i64 (Start startGap - start));
       Some (data, Start startGap, true)
     else Some (data, start, wasCut));
  if start <=? Start startGap then
    if end_ >=? End_ startGap then Some (data, start, wasCut, Remove i els, false)
    else Some (data, start, wasCut, SetValue i (MkByteInterval end_ (End_ startGap)) els, false)
  else if negb hasReplaced then
    Some (data, start, wasCut, SetValue i (MkByteInterval (Start startGap) start) els, true)
  else Some (data, start, wasCut, els, false).

(** Cutting the frame to the end of the gap, and the end gap's new value.  The
    start gap's value is the one [adjustStart] left. *)
Definition adjustEnd (data : bytes) (start end_ : Z) (endsInGap equal adjusted wasCut : bool)
    (i j : nat) (startGap endGap : byteInterval) (els : elements_of_gaps) :
    option (bytes * bool * elements_of_gaps) :=
  '(data, end_, wasCut) ←
    (if negb endsInGap && negb (start =? End_ endGap) && (end_ >? End_ endGap) then
       data ← slice_to data (i64 (End_ endGap - start));
       Some (data, End_ endGap, true)
     else Some (data, end_, wasCut));
  if end_ =? End_ endGap then
    Some (data, wasCut, if negb equal then Remove j els else els)
  else if equal && adjusted then
    Some (data, wasCut, InsertAfter (MkByteInterval end_ (End_ startGap)) i els)
  else if negb equal then
    Some (data, wasCut, SetValue j (MkByteInterval end_ (End_ endGap)) els)
  else Some (data, wasCut, els).

(** The part after the gaps have been found and the duplicate test has passed. *)
Definition pushOverlap (data : bytes) (start end_ : Z) (frame : option StreamFrame)
    (i : nat) (startsInGap : bool) (startGap : byteInterval)
    (j : nat) (endsInGap : bool) (endGap : byteInterval) (s : frameSorter) :
    option (option SorterError * frameSorter * list StreamFrame) :=
  let equal := Nat.eqb i j in
  r ← replaceLoop (S (size (queue s))) data start end_ start (queue s) false [];
  match r with
  | Duplicate => Some (Some errDuplicateStreamData, s, [])
  | Replaced data end_ q hasReplaced wasCut put =>
      '(data, start, wasCut, els, adjusted) ←
        adjustStart data start end_ startsInGap hasReplaced wasCut i startGap (Some <$> gaps s);
      '(els, q, put') ←
        (if negb equal then
           let '(q, put) := deleteConsecutive (End_ startGap) q in
           '(els, q, put') ← removeBetween (length els) (S i) (Start endGap) els q;
           Some (els, q, put ++ put')
         else Some (els, q, []));
      '(data, wasCut, els) ←
        adjustEnd data start end_ endsInGap equal adjusted wasCut i j startGap endGap els;
      let '(frame, put'') :=
        if wasCut && (len data <? MinStreamFrameBufferSize) then (None, PutBack frame)
        else (frame, []) in
      let put := put ++ put' ++ put'' in
      let gs := omap id els in
      if len gs >? MaxStreamFrameSorterGaps
      then Some (Some errTooManyGaps, MkSorter q (readPos s) gs, put)
      else Some (None, MkSorter (<[start := MkEntry data frame]> q) (readPos s) gs, put)
  end.

Definition push (data : bytes) (offset : Z) (frame : option StreamFrame) (s : frameSorter) :
    option (option SorterError * frameSorter * list StreamFrame) :=
  if len data =? 0 then Some (Some errDuplicateStreamData, s, [])
  else
    let start := offset in
    let end_ := i64 (offset + len data) in
    match pushInOrder data start end_ frame s with
    | Some s => Some (None, s, [])
    | None =>
        front ← head (gaps s);
        if end_ <=? Start front then Some (Some errDuplicateStreamData, s, [])
        else
          '(i, startsInGap) ← findStartGap start 0 (gaps s);
          '(j, endsInGap) ← findEndGap end_ i (drop i (gaps s));
          startGap ← gaps s !! i;
          endGap ← gaps s !! j;
          let equal := Nat.eqb i j in
          if (equal && (end_ <=? Start startGap))
             || (negb equal && (End_ startGap >=? Start endGap) && (end_ <=? Start startGap))
          then Some (Some errDuplicateStreamData, s, [])
          else pushOverlap data start end_ frame i startsInGap startGap j endsInGap endGap s
    end.

Definition Push (data : bytes) (offset : Z) (frame : option StreamFrame) (s : frameSorter) :
    option (option SorterError * frameSorter * list StreamFrame) :=
  '(err, s, put) ← push data offset frame s;
  if bool_decide (err = Some errDuplicateStreamData) then Some (None, s, put ++ PutBack frame)
  else Some (err, s, put).

(** ** Pop and Peek *)

(** No entry at the read position: no data ([None]). *)
Definition Pop (s : frameSorter) : option (Z * option bytes * option StreamFrame * frameSorter) :=
  match queue s !! readPos s with
  | None => Some (readPos s, None, None, s)
  | Some entry =>
      let q := delete (readPos s) (queue s) in
      let offset := readPos s in
      let pos := i64 (readPos s + len (Data entry)) in
      front ← head (gaps s);
      if End_ front <=? pos then None
      else Some (offset, Some (Data entry), Frame entry, MkSorter q pos (gaps s))
  end.

Definition HasMoreData (s : frameSorter) : bool := Z.of_nat (size (queue s)) >? 0.

(** Whether [remaining] consecutive bytes are queued from [pos] on.  Every entry
    holds data, so [len(p)] rounds are enough. *)
Fixpoint peekCheck (fuel : nat) (pos remaining : Z) (q : gmap Z frameSorterEntry) : option bool :=
  match fuel with
  | O => None
  | S fuel =>
      if remaining >? 0 then
        match q !! pos with
        | None => Some false
        | Some entry =>
            let entryLen := len (Data entry) in
            if remaining <=? entryLen then Some true
            else peekCheck fuel (i64 (pos + entryLen)) (remaining - entryLen) q
        end
      else Some true
  end.

(** Copying [n] bytes from [pos] on; a missing entry reads as an empty one. *)
Fixpoint peekCopy (fuel : nat) (pos n : Z) (q : gmap Z frameSorterEntry) : option bytes :=
  if n <=? 0 then Some []
  else
    match fuel with
    | O => None
    | S fuel =>
        let data := match q !! pos with Some entry => Data entry | None => [] end in
        rest ← peekCopy fuel (i64 (pos + len data)) (n - Z.min n (len data)) q;
        Some (take (Z.to_nat n) data ++ rest)
    end.

(** The contents of [p] after the call, [n] its length. *)
Definition Peek (offset n : Z) (s : frameSorter) : option (result SorterError bytes) :=
  if n =? 0 then Some (Ok [])
  else
    ok ← peekCheck (S (Z.to_nat n)) offset n (queue s);
    if (ok : bool) then Ok <$> peekCopy (Z.to_nat n) offset n (queue s)
    else Some (Err errTooLittleData).
