(* ===== verification/FrameSorterFacts.v ===== *)
(** * Stream reassembly: the invariant and the loops

    [sorter_ok]: from the read position on, every offset is either missing, in
    exactly one gap, or held by exactly one queued entry, and the entries hold
    the bytes of the stream [σ].  A [chain] is a run of adjacent entries; the
    loops over the queue are functions of the chain they start on. *)

From S2P Require Import Prelude Protocol FrameSorter.

(** ** The invariant *)

Definition in_gap (g : byteInterval) (x : Z) : Prop := Start g ≤ x < End_ g.
Definition in_gaps (gs : list byteInterval) (x : Z) : Prop := ∃ g, g ∈ gs ∧ in_gap g x.
Definition gap_before (a b : byteInterval) : Prop := End_ a < Start b.

(** [σ] gives the byte at each offset of the stream. *)
Definition agrees (σ : Z → Z) (a : Z) (data : bytes) : Prop :=
  ∀ i b, data !! i = Some b → b = σ (a + Z.of_nat i).

Definition holds (q : gmap Z frameSorterEntry) (x : Z) : Prop :=
  ∃ p e, q !! p = Some e ∧ p ≤ x < p + len (Data e).

(** Entries hold data and do not overlap. *)
Record queue_ok (q : gmap Z frameSorterEntry) : Prop := {
  q_entry : ∀ p e, q !! p = Some e → 0 ≤ p ∧ 0 < len (Data e) ∧ p + len (Data e) ≤ MaxByteCount;
  q_disjoint : ∀ p e p' e', q !! p = Some e → q !! p' = Some e' → p < p' → p + len (Data e) ≤ p';
}.

(** Ascending, with data between neighbours, none empty, up to the maximum. *)
Record gaps_ok (lo : Z) (gs : list byteInterval) : Prop := {
  g_sorted : StronglySorted gap_before gs;
  g_bounds : ∀ g, g ∈ gs → lo ≤ Start g ∧ Start g < End_ g ≤ MaxByteCount;
  g_last : ∃ g, last gs = Some g ∧ End_ g = MaxByteCount;
}.

Record sorter_ok (σ : Z → Z) (s : frameSorter) : Prop := {
  s_pos : 0 ≤ readPos s;
  s_gaps : gaps_ok (readPos s) (gaps s);
  s_queue : queue_ok (queue s);
  s_entry : ∀ p e, queue s !! p = Some e →
    readPos s ≤ p ∧ agrees σ p (Data e) ∧ ∀ x, p ≤ x < p + len (Data e) → ¬ in_gaps (gaps s) x;
  s_cover : ∀ x, readPos s ≤ x < MaxByteCount → in_gaps (gaps s) x ∨ holds (queue s) x;
}.

(** The frames whose buffers the queue refers to. *)
Definition frames (q : gmap Z frameSorterEntry) : list StreamFrame :=
  omap Frame (map_to_list q).*2.

Lemma frames_insert q p e :
  q !! p = None → frames (<[p := e]> q) ≡ₚ option_list (Frame e) ++ frames q.
Proof.
  intros Hp. unfold frames. rewrite map_to_list_insert by done. simpl. by destruct (Frame e).
Qed.

Lemma frames_delete q p e :
  q !! p = Some e → frames q ≡ₚ option_list (Frame e) ++ frames (delete p q).
Proof.
  intros Hp. rewrite <-(frames_insert _ p) by apply lookup_delete_eq. by rewrite insert_delete_id.
Qed.

Lemma agrees_take σ a data n : agrees σ a data → agrees σ a (take n data).
Proof. intros Ha i b Hi. apply lookup_take_Some in Hi as [Hi _]. by apply Ha. Qed.
Lemma agrees_drop σ a data n : agrees σ a data → agrees σ (a + Z.of_nat n) (drop n data).
Proof. intros Ha i b Hi. rewrite lookup_drop in Hi. apply Ha in Hi as ->. f_equal. lia. Qed.

(** ** Removing a range of entries *)

Definition cut (a b : Z) (q : gmap Z frameSorterEntry) : gmap Z frameSorterEntry :=
  filter (λ pe, ¬ (a ≤ pe.1 < b)) q.

Lemma lookup_cut a b q p e : cut a b q !! p = Some e ↔ q !! p = Some e ∧ ¬ (a ≤ p < b).
Proof. unfold cut. by rewrite map_lookup_filter_Some. Qed.

Lemma cut_empty a b q : b ≤ a → cut a b q = q.
Proof. intros. apply map_filter_id. simpl. lia. Qed.

Lemma queue_ok_cut a b q : queue_ok q → queue_ok (cut a b q).
Proof.
  intros [He Hd]. constructor.
  - intros p e [? _]%lookup_cut. by apply He.
  - intros p e p' e' [? _]%lookup_cut [? _]%lookup_cut. by eapply Hd.
Qed.

(** Removing an entry and then what follows it. *)
Lemma cut_delete q a e b :
  queue_ok q → q !! a = Some e → a + len (Data e) ≤ b →
  cut (a + len (Data e)) b (delete a q) = cut a b q.
Proof.
  intros Hq Ha Hb. pose proof (q_entry q Hq a e Ha). apply map_eq. intros p. apply option_eq. intros e'.
  rewrite !lookup_cut, lookup_delete_Some. split.
  - intros [[? Hp] ?]. split; [done|]. intros ?.
    assert (a < p) as Hlt by lia. pose proof (q_disjoint q Hq a e p e' Ha Hp Hlt). lia.
  - intros [? ?]. split_and!; [intros <-; lia|done|lia].
Qed.

(** ** Chains of adjacent entries *)

Inductive chain (q : gmap Z frameSorterEntry) : Z → Z → Prop :=
  | chain_nil a : chain q a a
  | chain_cons a e b : q !! a = Some e → chain q (a + len (Data e)) b → chain q a b.

Lemma chain_le q a b : queue_ok q → chain q a b → a ≤ b.
Proof.
  intros Hq. induction 1 as [a|a e b Ha _ IH]; [done|]. apply (q_entry q Hq) in Ha. lia.
Qed.

Lemma queue_ok_delete q a : queue_ok q → queue_ok (delete a q).
Proof.
  intros [He Hd]. constructor.
  - intros p e [_ ?]%lookup_delete_Some. by apply He.
  - intros p e p' e' [_ ?]%lookup_delete_Some [_ ?]%lookup_delete_Some. by eapply Hd.
Qed.

Lemma chain_delete q a c b : queue_ok q → chain q c b → a < c → chain (delete a q) c b.
Proof.
  intros Hq. induction 1 as [c|c e b Hc _ IH]; intros Hlt; [constructor|].
  econstructor; [rewrite lookup_delete_ne by lia; done|]. apply IH. apply (q_entry q Hq) in Hc. lia.
Qed.

Lemma chain_inv q a b : chain q a b → a = b ∨ ∃ e, q !! a = Some e ∧ chain q (a + len (Data e)) b.
Proof. destruct 1; eauto. Qed.

Lemma size_delete (q : gmap Z frameSorterEntry) a e :
  q !! a = Some e → size q = S (size (delete a q)).
Proof. intros Ha. rewrite <-(insert_delete_id q a e Ha) at 1. by rewrite map_size_insert_None by apply lookup_delete_eq. Qed.

(** [deleteConsecutive] removes the chain it starts on. *)
Lemma deleteChain_spec fuel a b q :
  queue_ok q → chain q a b → q !! b = None → b ≤ MaxByteCount → (size q < fuel)%nat →
  ∃ put, deleteLoop fuel a q = (cut a b q, put) ∧ frames q ≡ₚ put ++ frames (cut a b q).
Proof.
  revert a q. induction fuel as [|fuel IH]; intros a q Hq Hc Hb Hmax Hf; [lia|]. simpl.
  apply chain_inv in Hc as [->|(e & Ha & Hc)].
  { rewrite Hb, cut_empty by lia. by exists []. }
  rewrite Ha. pose proof (q_entry q Hq a e Ha). pose proof (chain_le _ _ _ Hq Hc).
  unfold MaxByteCount in *. rewrite i64_small by lia.
  destruct (IH (a + len (Data e)) (delete a q)) as (put & -> & Hput).
  { by apply queue_ok_delete. }
  { apply chain_delete; [done..|lia]. }
  { by rewrite lookup_delete_None; right. }
  { done. }
  { rewrite (size_delete q a e Ha) in Hf. lia. }
  rewrite cut_delete in * by (done || lia). eexists. split; [done|].
  rewrite (frames_delete q a e Ha), Hput. by rewrite app_assoc.
Qed.

Lemma deleteConsecutive_spec a b q :
  queue_ok q → chain q a b → q !! b = None → b ≤ MaxByteCount →
  ∃ put, deleteConsecutive a q = (cut a b q, put) ∧ frames q ≡ₚ put ++ frames (cut a b q).
Proof. intros. apply deleteChain_spec; auto with lia. Qed.

(** What the replacing loop does on a chain from [pos] to [b]. *)
Definition replace_outcome (data : bytes) (start end_ pos b : Z) (q : gmap Z frameSorterEntry)
    (has : bool) (put : list StreamFrame) (r : replaceResult) : Prop :=
  (r = Duplicate ∧ has = false ∧ ∃ e, q !! pos = Some e ∧ end_ ≤ pos + len (Data e)) ∨
  (∃ put', r = Replaced data end_ (cut pos b q) (has || (pos <? b)) false (put ++ put') ∧
     b ≤ end_ ∧ frames q ≡ₚ put' ++ frames (cut pos b q)) ∨
  (∃ pos' e put', r = Replaced (take (Z.to_nat (pos' - start)) data) pos' (cut pos pos' q) true true (put ++ put') ∧
     pos ≤ pos' ≤ end_ ∧ pos' < b ∧ q !! pos' = Some e ∧ end_ < pos' + len (Data e) ∧
     (has = false → pos < pos') ∧ frames q ≡ₚ put' ++ frames (cut pos pos' q)).

Lemma replaceLoop_spec fuel data start end_ pos b q has put :
  queue_ok q → chain q pos b → q !! b = None →
  0 ≤ start ≤ pos → pos ≤ end_ ≤ MaxByteCount → len data = end_ - start → (size q < fuel)%nat →
  ∃ r, replaceLoop fuel data start end_ pos q has put = Some r ∧
    replace_outcome data start end_ pos b q has put r.
Proof.
  revert pos q has put. induction fuel as [|fuel IH]; intros pos q has put Hq Hc Hb Hs He Hl Hf; [lia|].
  simpl. apply chain_inv in Hc as [->|(e & Hp & Hc)].
  { rewrite Hb. eexists. split; [done|]. right; left. exists []. rewrite cut_empty, app_nil_r by lia.
    split_and!; [|lia|done]. f_equal. rewrite Z.ltb_irrefl. by rewrite orb_false_r. }
  rewrite Hp. pose proof (q_entry q Hq pos e Hp) as (?&?&?). pose proof (chain_le _ _ _ Hq Hc).
  unfold MaxByteCount in *. rewrite (i64_small (end_ - pos)) by lia.
  destruct ((_ >? _) || _) eqn:Econd.
  - rewrite i64_small by lia.
    assert (pos + len (Data e) ≤ end_) by (destruct has; lia).
    destruct (IH (pos + len (Data e)) (delete pos q) true (put ++ PutBack (Frame e))) as (r & -> & Hr).
    { by apply queue_ok_delete. }
    { apply chain_delete; [done..|lia]. }
    { by rewrite lookup_delete_None; right. }
    1-3: lia.
    { rewrite (size_delete q pos e Hp) in Hf. lia. }
    eexists. split; [done|]. destruct Hr as [(_&?&_)|[(put' & -> & ? & Hfr)|(pos' & e' & put' & -> & ? & ? & Hp' & ? & _ & Hfr)]].
    + done.
    + right; left. exists (PutBack (Frame e) ++ put'). rewrite cut_delete in * by (done || lia).
      split_and!; [|lia|].
      * simpl. rewrite app_assoc. f_equal. destruct has; [done|]. simpl. symmetry. apply Z.ltb_lt. lia.
      * rewrite (frames_delete q pos e Hp), Hfr. by rewrite app_assoc.
    + right; right. exists pos', e', (PutBack (Frame e) ++ put').
      rewrite cut_delete in * by (done || lia). apply lookup_delete_Some in Hp' as [_ Hp'].
      split_and!; [by rewrite app_assoc|lia|lia|done|done|lia|lia|].
      rewrite (frames_delete q pos e Hp), Hfr. by rewrite app_assoc.
  - destruct has; simpl.
    + rewrite i64_small, slice_to_take by lia. simpl.
      eexists. split; [done|]. right; right. exists pos, e, []. rewrite cut_empty, app_nil_r by lia.
      split_and!; try done; lia.
    + eexists. split; [done|]. left. split_and!; [done..|]. exists e. split; [done|]. simpl in Econd. lia.
Qed.

(** ** Gaps *)

Lemma in_gaps_app l k x : in_gaps (l ++ k) x ↔ in_gaps l x ∨ in_gaps k x.
Proof. unfold in_gaps. setoid_rewrite elem_of_app. naive_solver. Qed.
Lemma in_gaps_cons g l x : in_gaps (g :: l) x ↔ in_gap g x ∨ in_gaps l x.
Proof. unfold in_gaps. setoid_rewrite elem_of_cons. naive_solver. Qed.
Lemma in_gaps_nil x : ¬ in_gaps [] x.
Proof. intros (g & ?%elem_of_nil & _). done. Qed.

Lemma sorted_mid pre g post :
  StronglySorted gap_before (pre ++ g :: post) →
  StronglySorted gap_before pre ∧ StronglySorted gap_before post ∧
  (∀ a, a ∈ pre → End_ a < Start g) ∧ (∀ b, b ∈ post → End_ g < Start b) ∧
  (∀ a b, a ∈ pre → b ∈ post → End_ a < Start b).
Proof.
  intros (Hlr & Hpre & Hgp)%StronglySorted_app. apply StronglySorted_inv in Hgp as [Hpost Hg].
  rewrite Forall_forall in Hg. split_and!; [done|done| |done|].
  - intros a Ha. apply Hlr; [done|by left].
  - intros a b Ha Hb. apply Hlr; [done|by right].
Qed.

Section chains.
Context (σ : Z → Z) (s : frameSorter) (Hok : sorter_ok σ s).

Lemma gap_bounds g : g ∈ gaps s → readPos s ≤ Start g ∧ Start g < End_ g ≤ MaxByteCount.
Proof. apply (g_bounds _ _ (s_gaps _ _ Hok)). Qed.

(** An entry lies on one side of a gap. *)
Lemma entry_gap p e g :
  queue s !! p = Some e → g ∈ gaps s → p + len (Data e) ≤ Start g ∨ End_ g ≤ p.
Proof.
  intros Hp Hg. destruct (s_entry _ _ Hok p e Hp) as (_ & _ & Hn).
  destruct (q_entry _ (s_queue _ _ Hok) p e Hp) as (_ & ? & _). pose proof (gap_bounds g Hg).
  destruct (decide (p + len (Data e) ≤ Start g)), (decide (End_ g ≤ p)); try lia.
  exfalso. apply (Hn (Z.max p (Start g))); [lia|]. exists g. split; [done|]. unfold in_gap. lia.
Qed.

Lemma no_entry_in_gap x : in_gaps (gaps s) x → queue s !! x = None.
Proof.
  intros (g & Hg & Hx). destruct (queue s !! x) as [e|] eqn:E; [|done].
  pose proof (entry_gap x e g E Hg). destruct (q_entry _ (s_queue _ _ Hok) x e E) as (_ & ? & _).
  unfold in_gap in Hx. lia.
Qed.

(** An entry starts where the read position, a gap or an entry ends. *)
Lemma entry_at x :
  readPos s ≤ x < MaxByteCount → ¬ in_gaps (gaps s) x →
  x = readPos s ∨ in_gaps (gaps s) (x - 1) ∨
    (∃ p e, queue s !! p = Some e ∧ p + len (Data e) = x) →
  ∃ e, queue s !! x = Some e.
Proof.
  intros Hx Hg Hb. destruct (s_cover _ _ Hok x Hx) as [?|(p & e & Hp & Hspan)]; [done|].
  destruct (decide (p = x)) as [->|]; [eauto|]. exfalso.
  destruct (s_entry _ _ Hok p e Hp) as (Hr & _ & Hn). destruct Hb as [->|[Hin|(p' & e' & Hp' & <-)]].
  - lia.
  - apply (Hn (x - 1)); [lia|done].
  - destruct (q_entry _ (s_queue _ _ Hok) p' e' Hp') as (_ & ? & _).
    destruct (Z.lt_trichotomy p p') as [Hlt|[->|Hlt]]; [|simplify_eq; lia|].
    + pose proof (q_disjoint _ (s_queue _ _ Hok) p e p' e' Hp Hp' Hlt). lia.
    + pose proof (q_disjoint _ (s_queue _ _ Hok) p' e' p e Hp' Hp Hlt). lia.
Qed.

Lemma chain_to a e b :
  queue s !! a = Some e → in_gaps (gaps s) b → a ≤ b →
  (∀ x, a ≤ x < b → ¬ in_gaps (gaps s) x) → chain (queue s) a b.
Proof.
  intros Ha Hb. remember (Z.to_nat (b - a)) as n eqn:En. revert a e Ha En.
  induction n as [n IH] using lt_wf_ind. intros a e Ha -> Hab Hno.
  destruct (q_entry _ (s_queue _ _ Hok) a e Ha) as (_ & ? & ?). pose proof Hb as (g & Hg & Hgb).
  pose proof (entry_gap a e g Ha Hg) as Hside. unfold in_gap in Hgb.
  assert (a ≠ b) by (intros ->; pose proof (no_entry_in_gap b Hb); congruence).
  assert (Start g ≤ b) by lia. destruct (decide (Start g < b)) as [Hlt|].
  { exfalso. apply (Hno (b - 1)); [lia|]. exists g. split; [done|]. unfold in_gap. lia. }
  econstructor; [done|]. destruct (decide (a + len (Data e) = b)) as [->|]; [constructor|].
  pose proof (gap_bounds g Hg).
  pose proof (s_entry _ _ Hok a e Ha) as (? & _ & _).
  destruct (entry_at (a + len (Data e))) as [e' He']; [lia|apply Hno; lia|right; right; eauto|].
  eapply IH; [|done|done|lia|]; [lia|]. intros x Hx. apply Hno. lia.
Qed.

(** The entries between two neighbouring gaps. *)
Lemma chain_between pre g h post :
  gaps s = pre ++ g :: h :: post → chain (queue s) (End_ g) (Start h).
Proof.
  intros Hgs. pose proof (g_sorted _ _ (s_gaps _ _ Hok)) as Hs. rewrite Hgs in Hs.
  pose proof Hs as (_ & Hgh & Hpre & Hg & Hpp)%sorted_mid.
  assert (g ∈ gaps s) as Hgin by (rewrite Hgs; set_solver).
  assert (h ∈ gaps s) as Hhin by (rewrite Hgs; set_solver).
  pose proof (gap_bounds g Hgin). pose proof (gap_bounds h Hhin).
  assert (End_ g < Start h) by (apply Hg; by left).
  assert (∀ x, End_ g ≤ x < Start h → ¬ in_gaps (gaps s) x) as Hno.
  { intros x Hx. rewrite Hgs, in_gaps_app, !in_gaps_cons. unfold in_gap.
    apply StronglySorted_inv in Hgh as [_ Hgh]. rewrite Forall_forall in Hgh.
    intros [(k & Hk & Hkx)|[?|[?|(k & Hk & Hkx)]]]; [|lia|lia|]; unfold in_gap in Hkx.
    - pose proof (Hpre k Hk). lia.
    - pose proof (Hgh k Hk) as Hk'. unfold gap_before in Hk'. lia. }
  destruct (entry_at (End_ g)) as [e He]; [lia|apply Hno; lia| |].
  { right; left. exists g. split; [done|]. unfold in_gap. lia. }
  apply (chain_to _ e); [done| |lia|done]. exists h. split; [done|]. unfold in_gap. lia.
Qed.
End chains.
