(* ===== verification/FrameSorterPush.v ===== *)
(** * Stream reassembly: pushing a frame

    [push_spec]: pushing a frame of the stream removes exactly its range from
    the gaps, whatever was queued before, keeps the invariant, and accounts
    for every frame's buffer. *)

From S2P Require Import Prelude Protocol FrameSorter FrameSorterFacts.

(** ** Finding the gaps *)

Lemma findStartGap_spec start k gs :
  (∃ g, g ∈ gs ∧ start ≤ End_ g) →
  ∃ pre g post b, gs = pre ++ g :: post ∧ findStartGap start k gs = Some ((k + length pre)%nat, b) ∧
    (∀ a, a ∈ pre → End_ a < start) ∧ (if b : bool then Start g ≤ start ≤ End_ g else start < Start g).
Proof.
  revert k. induction gs as [|g gs IH]; intros k (g0 & Hg0 & Hle); [by apply elem_of_nil in Hg0|]. simpl.
  destruct ((start >=? Start g) && (start <=? End_ g)) eqn:E1.
  { exists [], g, gs, true. rewrite Nat.add_0_r. split_and!; [done..| |lia|lia]. intros a ?%elem_of_nil. done. }
  destruct (Z.ltb_spec start (Start g)) as [Hlt|Hge].
  { exists [], g, gs, false. rewrite Nat.add_0_r. split_and!; [done..| |lia]. intros a ?%elem_of_nil. done. }
  destruct (IH (S k)) as (pre & g' & post & b & -> & Hf & Hpre & Hb).
  { exists g0. split; [|done]. apply elem_of_cons in Hg0 as [->|?]; [lia|done]. }
  exists (g :: pre), g', post, b. split_and!; [done| | |done].
  - rewrite Hf. simpl. do 2 f_equal. lia.
  - intros a [->|?]%elem_of_cons; [lia|auto].
Qed.

(** [h] is the end gap, [mid] the gaps before it from the start gap on. *)
Lemma findEndGap_spec end_ i gs :
  StronglySorted gap_before gs → (∀ g, g ∈ gs → Start g < End_ g) →
  (∃ g, g ∈ gs ∧ end_ < End_ g) →
  (∃ mid h post b, gs = mid ++ h :: post ∧ findEndGap end_ i gs = Some ((i + length mid)%nat, b) ∧
    (∀ m, m ∈ mid → End_ m ≤ end_) ∧ (∀ p, p ∈ post → end_ < Start p) ∧
    (if b : bool then Start h ≤ end_ < End_ h else End_ h ≤ end_)) ∨
  (∃ g post, gs = g :: post ∧ end_ < Start g ∧
    findEndGap end_ i gs = match i with O => None | S j => Some (j, false) end).
Proof.
  revert i. induction gs as [|g gs IH]; intros i Hs Hne (g0 & Hg0 & Hlt0); [by apply elem_of_nil in Hg0|].
  cbn [findEndGap]. apply StronglySorted_inv in Hs as [Hs Hg]. rewrite Forall_forall in Hg.
  destruct ((end_ >=? Start g) && (end_ <? End_ g)) eqn:E1.
  { left. exists [], g, gs, true. rewrite Nat.add_0_r. split_and!; [done..| | |lia|lia].
    - intros a ?%elem_of_nil. done.
    - intros p Hp. pose proof (Hg p Hp) as Hb. unfold gap_before in Hb. lia. }
  destruct (Z.ltb_spec end_ (Start g)) as [Hlt|Hge].
  { right. eauto. }
  left. destruct (IH (S i) Hs) as [(mid & h & post & b & -> & Hf & Hmid & Hpost & Hb)|(k & post & -> & Hk & Hf)].
  { intros k Hk. apply Hne. by right. }
  { exists g0. split; [|done]. apply elem_of_cons in Hg0 as [->|?]; [lia|done]. }
  - exists (g :: mid), h, post, b. split_and!; [done| | |done|done].
    + rewrite Hf. simpl. do 2 f_equal. lia.
    + intros a [->|?]%elem_of_cons; [lia|auto].
  - exists [], g, (k :: post), false. rewrite Nat.add_0_r. split_and!; [done|done| | |lia].
    + intros a ?%elem_of_nil. done.
    + intros p [->|Hp]%elem_of_cons; [done|].
      apply StronglySorted_inv in Hs as [_ Hk']. rewrite Forall_forall in Hk'.
      pose proof (Hk' p Hp) as Hb. unfold gap_before in Hb.
      assert (Start k < End_ k) by (apply Hne; set_solver). lia.
Qed.

(** ** Subtracting a range from the gaps *)

Definition left_part (g : byteInterval) (start : Z) : option byteInterval :=
  if Start g <? start then Some (MkByteInterval (Start g) start) else None.
Definition right_part (h : byteInterval) (end_ : Z) : option byteInterval :=
  if end_ <? End_ h then Some (MkByteInterval end_ (End_ h)) else None.

(** [g] is the first gap of [mid ++ [h]]. *)
Definition subtracted (pre : list byteInterval) (g h : byteInterval) (post : list byteInterval)
    (start end_ : Z) : list byteInterval :=
  pre ++ option_list (left_part g start) ++ option_list (right_part h end_) ++ post.

Section subtract.
Context (lo start end_ : Z) (pre mid post rest : list byteInterval) (g h : byteInterval).
Context (Hsplit : g :: rest = mid ++ h :: post).
Context (Hok : gaps_ok lo (pre ++ g :: rest)).
Context (Hrange : start < end_ < MaxByteCount) (Hg : start ≤ End_ g) (Hh : Start h ≤ end_).
Context (Hpre : ∀ a, a ∈ pre → End_ a < start).
Context (Hmid : ∀ m, m ∈ mid → End_ m ≤ end_).
Context (Hpost : ∀ p, p ∈ post → end_ < Start p).

Lemma subtract_order :
  (∀ a, a ∈ pre → End_ a < Start g) ∧ (∀ b, b ∈ rest → End_ g < Start b) ∧
  (∀ p, p ∈ post → End_ h < Start p) ∧ Start g < End_ g ∧ Start h < End_ h ∧
  lo ≤ Start g ∧ lo ≤ Start h ∧ (g = h ∧ mid = [] ∨ ∃ mid', mid = g :: mid' ∧ End_ g < Start h ∧
    ∀ m, m ∈ mid' → End_ g < Start m ∧ Start m < End_ m).
Proof.
  destruct Hok as [Hs Hb _]. pose proof Hs as (_ & _ & ? & Hgr & _)%sorted_mid.
  assert (StronglySorted gap_before ((pre ++ mid) ++ h :: post)) as Hs2.
  { rewrite <-app_assoc, <-Hsplit. done. }
  apply sorted_mid in Hs2 as (_ & _ & _ & Hhp & _).
  assert (h ∈ g :: rest) as Hin by (rewrite Hsplit; set_solver).
  pose proof (Hb g ltac:(set_solver)). pose proof (Hb h ltac:(set_solver)).
  split_and!; try done; try lia.
  destruct mid as [|m0 mid']; simplify_list_eq; [by left|]. right. exists mid'. split_and!; [done| |].
  - apply Hgr. set_solver.
  - intros m Hm. split; [apply Hgr; set_solver|apply Hb; set_solver].
Qed.

Lemma subtracted_in x :
  in_gaps (subtracted pre g h post start end_) x ↔
  in_gaps (pre ++ g :: rest) x ∧ ¬ (start ≤ x < end_).
Proof.
  pose proof subtract_order as (Hpg & Hgr & Hhp & ? & ? & _ & _ & Hcase).
  assert (∀ P : Prop, in_gaps pre x → (x < start → P) → P) as HinP.
  { intros P (a & Ha & Hx) HP. apply HP. pose proof (Hpre a Ha). unfold in_gap in Hx. lia. }
  assert (∀ P : Prop, in_gaps post x → (end_ < x → P) → P) as HinQ.
  { intros P (a & Ha & Hx) HP. apply HP. pose proof (Hpost a Ha). unfold in_gap in Hx. lia. }
  assert (in_gaps (g :: rest) x ↔ in_gaps mid x ∨ in_gap h x ∨ in_gaps post x) as Hgrest.
  { by rewrite Hsplit, in_gaps_app, in_gaps_cons. }
  assert (in_gaps (option_list (left_part g start)) x ↔ Start g ≤ x < start) as Hl.
  { unfold left_part. destruct (Z.ltb_spec (Start g) start); simpl.
    - rewrite in_gaps_cons. unfold in_gap. simpl. pose proof (in_gaps_nil x). tauto.
    - pose proof (in_gaps_nil x). split; [tauto|lia]. }
  assert (in_gaps (option_list (right_part h end_)) x ↔ end_ ≤ x < End_ h) as Hr.
  { unfold right_part. destruct (Z.ltb_spec end_ (End_ h)); simpl.
    - rewrite in_gaps_cons. unfold in_gap. simpl. pose proof (in_gaps_nil x). tauto.
    - pose proof (in_gaps_nil x). split; [tauto|lia]. }
  unfold subtracted. rewrite !in_gaps_app, Hl, Hr, Hgrest. unfold in_gap.
  assert (in_gaps mid x → start ≤ x < end_ ∨ Start g ≤ x < start) as Hm.
  { destruct Hcase as [[_ ->]|(mid' & -> & _ & Hm')]; [by intros ?%in_gaps_nil|].
    intros (m & [->|Hin]%elem_of_cons & Hx); unfold in_gap in Hx.
    - pose proof (Hmid g ltac:(set_solver)). lia.
    - pose proof (Hmid m ltac:(set_solver)). pose proof (Hm' m Hin). lia. }
  assert (Start g ≤ x < start → in_gaps mid x ∨ Start h ≤ x < End_ h) as Hm2.
  { destruct Hcase as [[<- _]|(mid' & -> & _ & _)]; [right; lia|]. left. rewrite in_gaps_cons.
    left. unfold in_gap. lia. }
  split.
  - intros [HP|[?|[?|HP]]].
    + apply (HinP _ HP). intros. split; [by left|lia].
    + split; [|lia]. right. destruct (Hm2 ltac:(done)); tauto.
    + split; [right; right; left; lia|lia].
    + apply (HinQ _ HP). intros. split; [tauto|lia].
  - intros [[?|[HM|[?|?]]] Hn]; [tauto| | |tauto].
    + destruct (Hm HM); [lia|tauto].
    + destruct (decide (x < start)); [|right; right; left; lia]. right; left.
      destruct Hcase as [[-> _]|(mid' & -> & ? & _)]; lia.
Qed.

Lemma subtracted_ok : gaps_ok lo (subtracted pre g h post start end_).
Proof.
  pose proof subtract_order as (Hpg & Hgr & Hhp & ? & ? & ? & ? & Hcase).
  destruct Hok as [Hs Hb (l & Hlast & HM)].
  assert (∀ p, p ∈ post → p ∈ g :: rest) as Hpin by (intros p Hp; rewrite Hsplit; set_solver).
  assert (StronglySorted gap_before post) as Hsp.
  { apply StronglySorted_app in Hs as (_ & _ & Hs). rewrite Hsplit in Hs.
    apply StronglySorted_app in Hs as (_ & _ & Hs). by apply StronglySorted_inv in Hs as [? _]. }
  assert (∀ x, x ∈ option_list (left_part g start) → Start x = Start g ∧ End_ x = start ∧ Start g < start) as Hl.
  { unfold left_part. destruct (Z.ltb_spec (Start g) start); simpl; set_solver. }
  assert (∀ x, x ∈ option_list (right_part h end_) → Start x = end_ ∧ End_ x = End_ h ∧ end_ < End_ h) as Hr.
  { unfold right_part. destruct (Z.ltb_spec end_ (End_ h)); simpl; set_solver. }
  constructor.
  - unfold subtracted. repeat apply StronglySorted_app_2; unfold gap_before.
    all: try (intros x y Hx Hy; rewrite ?elem_of_app in Hy).
    + pose proof (Hpg x Hx). pose proof (Hpre x Hx). destruct Hy as [?%Hl|[?%Hr|Hy]]; [lia|lia|].
      pose proof (Hpost y Hy). lia.
    + by apply StronglySorted_app in Hs as (_ & ? & _).
    + apply Hl in Hx. destruct Hy as [?%Hr|Hy]; [lia|]. pose proof (Hpost y Hy). lia.
    + unfold left_part. destruct (_ <? _); repeat constructor.
    + apply Hr in Hx. pose proof (Hhp y Hy). lia.
    + unfold right_part. destruct (_ <? _); repeat constructor.
    + done.
  - intros x. unfold subtracted. rewrite !elem_of_app. pose proof (Hb g ltac:(set_solver)).
    assert (h ∈ g :: rest) as Hin by (rewrite Hsplit; set_solver). pose proof (Hb h ltac:(set_solver)).
    intros [Hx|[?%Hl|[?%Hr|Hx]]]; [apply Hb; set_solver|lia|lia|apply Hb; set_solver].
  - rewrite Hsplit in Hlast. unfold subtracted. destruct post as [|p post'] eqn:Ep using rev_ind; clear Ep.
    + rewrite app_nil_r. assert (h = l) as ->.
      { rewrite last_app, last_snoc in Hlast. by simplify_eq. }
      exists (MkByteInterval end_ (End_ l)). unfold right_part. destruct (Z.ltb_spec end_ (End_ l)); [|lia].
      simpl. by rewrite app_assoc, last_snoc.
    + exists l. split; [|done]. rewrite !app_assoc, last_snoc. 
      replace (pre ++ mid ++ h :: post' ++ [p]) with ((pre ++ mid ++ h :: post') ++ [p]) in Hlast
        by (by simplify_list_eq). by rewrite last_snoc in Hlast.
Qed.
End subtract.

(** ** Inserting the new entry *)

(** The new entry takes [a, b): it covers the entries removed from the queue,
    avoids those kept, and holds every byte of the frame that was missing. *)
Lemma sorter_insert σ s start end_ a b data frame q gs :
  sorter_ok σ s → gaps_ok (readPos s) gs →
  (∀ x, in_gaps gs x ↔ in_gaps (gaps s) x ∧ ¬ (start ≤ x < end_)) →
  start ≤ a < b → b ≤ end_ < MaxByteCount → readPos s ≤ a →
  len data = b - a → agrees σ a data →
  (∀ x, start ≤ x < end_ → in_gaps (gaps s) x → a ≤ x < b) →
  (∀ p e, q !! p = Some e → queue s !! p = Some e ∧ (p + len (Data e) ≤ a ∨ b ≤ p)) →
  (∀ p e, queue s !! p = Some e → q !! p = Some e ∨ (a ≤ p ∧ p + len (Data e) ≤ b)) →
  sorter_ok σ (MkSorter (<[a := MkEntry data frame]> q) (readPos s) gs) ∧ q !! a = None.
Proof.
  intros [Hpos Hgaps [Hqe Hqd] Hent Hcov] Hgs Hsub Hab Hb Hread Hlen Hagree Hmiss Hkept Hrem.
  assert (q !! a = None) as Ha.
  { destruct (q !! a) as [e|] eqn:E; [|done]. destruct (Hkept a e E) as [He ?]. apply Hqe in He. lia. }
  split; [|done]. constructor; simpl; [done|done| | |].
  - constructor.
    + intros p e [[<- <-]|[_ [He _]%Hkept]]%lookup_insert_Some; simpl; [lia|by apply Hqe].
    + intros p e p' e' [[<- <-]|[_ Hp]]%lookup_insert_Some [[<- <-]|[_ Hp']]%lookup_insert_Some Hlt; simpl in *.
      * lia.
      * apply Hkept in Hp' as [Hp' ?]. apply Hqe in Hp'. lia.
      * apply Hkept in Hp as [? ?]. lia.
      * apply Hkept in Hp as [? _]. apply Hkept in Hp' as [? _]. by eapply Hqd.
  - intros p e [[<- <-]|[_ [He _]%Hkept]]%lookup_insert_Some; simpl.
    + split_and!; [done..|]. intros x Hx [_ Hn]%Hsub. lia.
    + destruct (Hent p e He) as (?&?&Hno). split_and!; [done..|]. intros x Hx [? _]%Hsub. by apply (Hno x).
  - intros x Hx. assert (a ≤ x < b → holds (<[a := MkEntry data frame]> q) x) as Hnew.
    { intros ?. exists a, (MkEntry data frame). rewrite lookup_insert_eq. simpl. split; [done|lia]. }
    destruct (Hcov x Hx) as [Hg|(p & e & Hp & Hspan)].
    + destruct (decide (start ≤ x < end_)); [right; apply Hnew; by apply Hmiss|]. left. by apply Hsub.
    + right. destruct (Hrem p e Hp) as [Hq|?]; [|apply Hnew; lia].
      exists p, e. rewrite lookup_insert_ne by (intros ->; congruence). done.
Qed.

(** ** Removing the gaps in between *)

Lemma chain_cut lo c q a b : queue_ok q → chain q a b → c ≤ a → chain (cut lo c q) a b.
Proof.
  intros Hq. induction 1 as [a|a e b Ha _ IH]; intros Hc; [constructor|].
  econstructor; [apply lookup_cut; split; [done|lia]|]. apply IH. apply (q_entry q Hq) in Ha. lia.
Qed.

(** No entry lies in a gap, so cuts on both sides of one join. *)
Lemma cut_across σ s m lo d :
  sorter_ok σ s → m ∈ gaps s → lo ≤ Start m → End_ m ≤ d →
  cut (End_ m) d (cut lo (Start m) (queue s)) = cut lo d (queue s).
Proof.
  intros Hok Hm Hlo Hd. apply map_eq. intros p. apply option_eq. intros e. rewrite !lookup_cut. split.
  - intros [[Hp ?] ?]. split; [done|]. destruct (entry_gap _ _ Hok p e m Hp Hm) as [?|?]; [|lia].
    pose proof (q_entry _ (s_queue _ _ Hok) p e Hp). lia.
  - intros [Hp ?]. pose proof (gap_bounds _ _ Hok m Hm). split_and!; [done|lia..].
Qed.

Lemma removeBetween_spec σ s pre0 g0 mid h post fuel lo k (els0 : elements_of_gaps) :
  sorter_ok σ s → gaps s = pre0 ++ g0 :: mid ++ h :: post → lo ≤ End_ g0 →
  k = length els0 → (length mid < fuel)%nat →
  let q := cut lo (default (Start h) (Start <$> head mid)) (queue s) in
  ∃ put, removeBetween fuel k (Start h) (els0 ++ (Some <$> mid ++ h :: post)) q =
      Some (els0 ++ replicate (length mid) None ++ (Some <$> h :: post), cut lo (Start h) (queue s), put) ∧
    frames q ≡ₚ put ++ frames (cut lo (Start h) (queue s)).
Proof.
  intros Hok. revert pre0 g0 fuel k els0. induction mid as [|m mid IH];
    intros pre0 g0 fuel k els0 Hgs Hlo -> Hf; simpl in *; (destruct fuel as [|fuel]; [lia|]); simpl.
  - rewrite list_lookup_middle by done. simpl.
    assert (h ∈ gaps s) as Hh by (rewrite Hgs; set_solver). pose proof (gap_bounds _ _ Hok h Hh).
    destruct (Z.ltb_spec (End_ h) (Start h)); [lia|]. exists []. done.
  - rewrite list_lookup_middle by done. simpl.
    assert (m ∈ gaps s) as Hm by (rewrite Hgs; set_solver). pose proof (gap_bounds _ _ Hok m Hm).
    pose proof (g_sorted _ _ (s_gaps _ _ Hok)) as Hs. rewrite Hgs in Hs.
    pose proof Hs as (_ & Hs' & _ & Hg0 & _)%sorted_mid.
    apply (sorted_mid []) in Hs' as (_ & _ & _ & Hmb & _).
    assert (End_ m < Start h) as Hmh by (apply Hmb; set_solver).
    assert (End_ g0 < Start m) as Hgm by (apply Hg0; set_solver).
    destruct (Z.ltb_spec (End_ m) (Start h)); [|lia].
    set (d := default (Start h) (Start <$> head mid)) in *.
    assert (∃ n post', n ∈ gaps s ∧ gaps s = (pre0 ++ [g0]) ++ m :: n :: post' ∧ d = Start n) as (n & post' & Hn & Hgs' & Hd).
    { unfold d. rewrite Hgs. destruct mid as [|n mid]; simpl.
      - exists h, post. split_and!; [set_solver|by rewrite <-app_assoc|done].
      - exists n, (mid ++ h :: post). split_and!; [set_solver|by rewrite <-app_assoc|done]. }
    pose proof (gap_bounds _ _ Hok n Hn).
    pose proof (chain_between _ _ Hok _ _ _ _ Hgs') as Hchain.
    assert (End_ m ≤ d) as Hmd by (rewrite Hd; by eapply (chain_le _ _ _ (s_queue _ _ Hok))).
    destruct (deleteConsecutive_spec (End_ m) d (cut lo (Start m) (queue s))) as (put & -> & Hput).
    { apply queue_ok_cut, Hok. }
    { apply chain_cut; [apply Hok|by rewrite Hd|lia]. }
    { destruct (cut lo (Start m) (queue s) !! d) as [e|] eqn:E; [|done]. apply lookup_cut in E as [E _].
      rewrite (no_entry_in_gap _ _ Hok) in E; [done|]. exists n. split; [done|]. unfold in_gap. lia. }
    { lia. }
    rewrite (cut_across σ) in * by (done || lia).
    destruct (IH (pre0 ++ [g0]) m fuel (S (length els0)) (els0 ++ [None])) as (put' & Hrem & Hfr).
    { by rewrite <-app_assoc. }
    { lia. }
    { rewrite length_app. simpl. lia. }
    { lia. }
    fold d in Hrem, Hfr. unfold Remove.
    rewrite insert_mid, (cons_middle None els0), app_assoc.
    unfold fmap in Hrem. rewrite Hrem. simpl. exists (put ++ put'). split.
    + by rewrite <-!app_assoc.
    + by rewrite Hput, Hfr, app_assoc.
Qed.

(** ** A frame that overlaps gaps *)

Definition pushed (σ : Z → Z) (s : frameSorter) (start end_ : Z) (frame : option StreamFrame)
    (err : option SorterError) (s' : frameSorter) (put : list StreamFrame) : Prop :=
  (err = Some errDuplicateStreamData ∧ s' = s ∧ put = [] ∧
   ∀ x, start ≤ x < end_ → ¬ in_gaps (gaps s) x) ∨
  (readPos s' = readPos s ∧ gaps_ok (readPos s) (gaps s') ∧
   (∀ x, in_gaps (gaps s') x ↔ in_gaps (gaps s) x ∧ ¬ (start ≤ x < end_)) ∧
   (err = None ∧ sorter_ok σ s' ∧ (len (gaps s') ≤ Z.max (len (gaps s)) MaxStreamFrameSorterGaps) ∧
      option_list frame ++ frames (queue s) ≡ₚ put ++ frames (queue s') ∨
    err = Some errTooManyGaps ∧ MaxStreamFrameSorterGaps < len (gaps s'))).

Section overlap.
Context (σ : Z → Z) (s : frameSorter) (Hok : sorter_ok σ s).
Context (data : bytes) (start end_ : Z).
Context (Hdata : len data = end_ - start) (Hagrees : agrees σ start data).
Context (Hrange : 0 ≤ start < end_) (Hmax : end_ < MaxByteCount).
Context (pre rest mid post : list byteInterval) (g h : byteInterval).
Context (Hgs : gaps s = pre ++ g :: rest) (Hsplit : g :: rest = mid ++ h :: post).
Context (startsIn endsIn : bool).
Context (Hstarts : if startsIn then Start g ≤ start ≤ End_ g else start < Start g).
Context (Hends : if endsIn then Start h ≤ end_ < End_ h else End_ h ≤ end_).
Context (Hpre : ∀ a, a ∈ pre → End_ a < start).
Context (Hmid : ∀ m, m ∈ mid → End_ m ≤ end_).
Context (Hpost : ∀ p, p ∈ post → end_ < Start p).
Context (Hafter : Start g < end_).

Lemma overlap_facts :
  g ∈ gaps s ∧ h ∈ gaps s ∧ start ≤ End_ g ∧ Start h ≤ end_ ∧
  readPos s ≤ Start g ∧ Start g < End_ g ≤ MaxByteCount ∧ Start h < End_ h ≤ MaxByteCount ∧
  (g = h ∧ mid = [] ∧ rest = post ∨
   ∃ mid', mid = g :: mid' ∧ rest = mid' ++ h :: post ∧ End_ g < Start h).
Proof.
  assert (g ∈ gaps s) as Hg by (rewrite Hgs; set_solver).
  assert (h ∈ gaps s) as Hh by (rewrite Hgs, Hsplit; set_solver).
  pose proof (gap_bounds _ _ Hok g Hg). pose proof (gap_bounds _ _ Hok h Hh).
  pose proof (g_sorted _ _ (s_gaps _ _ Hok)) as Hs. rewrite Hgs in Hs.
  apply sorted_mid in Hs as (_ & _ & _ & Hgr & _).
  split_and!; try done; try lia; [destruct startsIn; lia|destruct endsIn; lia|].
  destruct mid as [|m mid']; simplify_list_eq; [by left|]. right. exists mid'.
  split_and!; [done|done|]. apply Hgr. set_solver.
Qed.

(** Gaps at or after [start] begin with [g], and before [end_] end with [h]. *)
Lemma gaps_in_range x :
  start ≤ x < end_ → in_gaps (gaps s) x → Start g ≤ x < End_ h.
Proof.
  intros Hx. rewrite Hgs, in_gaps_app. intros [(a & Ha & Hax)|Hin].
  { pose proof (Hpre a Ha). unfold in_gap in Hax. lia. }
  pose proof (g_sorted _ _ (s_gaps _ _ Hok)) as Hs. rewrite Hgs in Hs.
  pose proof Hs as (_ & _ & _ & Hgr & _)%sorted_mid.
  destruct overlap_facts as (_ & _ & _ & _ & _ & ? & ? & _). split.
  - apply in_gaps_cons in Hin as [Hin|(r & Hr & Hin)]; unfold in_gap in Hin; [lia|].
    pose proof (Hgr r Hr). lia.
  - rewrite Hsplit in Hin, Hs. rewrite app_assoc in Hs. apply sorted_mid in Hs as (_ & _ & Hbh & _ & _).
    rewrite in_gaps_app, in_gaps_cons in Hin. destruct Hin as [(m & Hm & Hin)|[Hin|(p & Hp & Hin)]]; unfold in_gap in Hin.
    + pose proof (Hbh m ltac:(set_solver)). lia.
    + lia.
    + pose proof (Hpost p Hp). lia.
Qed.

(** The entries removed: from [lo] to the end gap. *)
Definition lowest (has : bool) : Z := if has then start else End_ g.
(** Where the entry starts. *)
Definition entry_start (has : bool) : Z := if startsIn || has then start else Start g.
Definition entry_end : Z := Z.min end_ (End_ h).

(** What the replacing loop leaves when it does not cut the frame. *)
Definition replaced_some (has : bool) : Prop :=
  if has then is_Some (queue s !! start) ∧ (start < Start g ∨ start = End_ g ∧ mid ≠ [])
  else start < End_ g.

Lemma overlap_insert has frame data' :
  replaced_some has → len data' = entry_end - entry_start has → agrees σ (entry_start has) data' →
  let q := cut (lowest has) (End_ h) (queue s) in
  sorter_ok σ (MkSorter (<[entry_start has := MkEntry data' frame]> q) (readPos s)
    (subtracted pre g h post start end_)) ∧ q !! entry_start has = None.
Proof.
  intros Hhas Hlen Hagree. pose proof overlap_facts as (Hg & Hh & ? & ? & ? & ? & ? & Hcase).
  pose proof (s_gaps _ _ Hok) as Hgok. rewrite Hgs in Hgok.
  assert (End_ g ≤ End_ h) by (destruct Hcase as [(-> & _ & _)|(? & _ & _ & ?)]; lia).
  assert (has = true → ∃ e0, queue s !! start = Some e0 ∧ readPos s ≤ start) as Hkey.
  { intros ->. destruct Hhas as [[e0 He0] _]. exists e0. split; [done|]. by apply (s_entry _ _ Hok) in He0 as [? _]. }
  assert (start < End_ h) as Hsh.
  { destruct has; [|unfold replaced_some in Hhas; lia]. destruct Hhas as [_ [?|[? Hm]]]; [lia|].
    destruct Hcase as [(_ & ? & _)|(? & _ & _ & ?)]; [done|lia]. }
  unfold lowest, entry_start, entry_end in *.
  apply (sorter_insert σ s start end_ _ (Z.min end_ (End_ h))); try done; try lia.
  - apply (subtracted_ok _ _ _ pre mid post rest); try done; lia.
  - intros x. rewrite Hgs. apply (subtracted_in (readPos s) start end_ pre mid post rest); try done; lia.
  - destruct startsIn, has; simpl; lia.
  - destruct startsIn, has; simpl; try lia; destruct (Hkey eq_refl) as (_ & _ & ?); lia.
  - intros x Hx Hin. pose proof (gaps_in_range x Hx Hin). destruct (_ || _); lia.
  - intros p e [Hp Hcut]%lookup_cut. split; [done|].
    pose proof (entry_gap _ _ Hok p e g Hp Hg). pose proof (entry_gap _ _ Hok p e h Hp Hh).
    destruct (q_entry _ (s_queue _ _ Hok) p e Hp) as (_ & ? & _).
    destruct has; [|destruct startsIn; simpl; lia]. rewrite orb_true_r.
    destruct (decide (p < start)) as [Hlt|]; [|lia]. destruct (Hkey eq_refl) as (e0 & He0 & _).
    pose proof (q_disjoint _ (s_queue _ _ Hok) p e start e0 Hp He0 Hlt). lia.
  - intros p e Hp. destruct (decide ((if has then start else End_ g) ≤ p < End_ h)) as [Hin|Hout].
    + right. pose proof (entry_gap _ _ Hok p e h Hp Hh).
      destruct has, startsIn; simpl; lia.
    + left. by apply lookup_cut.
Qed.

(** The start of the gap after [g], up to the end gap. *)
Definition next_start : Z := default (Start h) (Start <$> head (tail mid)).

Definition replace_result (r : replaceResult) : Prop :=
  (r = Duplicate ∧ ∀ x, start ≤ x < end_ → ¬ in_gaps (gaps s) x) ∨
  (∃ pos' e put, r = Replaced (take (Z.to_nat (pos' - start)) data) pos' (cut start pos' (queue s)) true true put ∧
     start = End_ g ∧ mid = [] ∧ start < pos' ≤ end_ ∧ queue s !! pos' = Some e ∧
     is_Some (queue s !! start) ∧
     frames (queue s) ≡ₚ put ++ frames (cut start pos' (queue s))) ∨
  (∃ (has : bool) put,
     let c := if has then if start <? Start g then Start g else next_start else start in
     r = Replaced data end_ (cut start c (queue s)) has false put ∧ replaced_some has ∧
     frames (queue s) ≡ₚ put ++ frames (cut start c (queue s))).

Lemma no_gap_at_end : ¬ in_gaps (gaps s) (End_ g).
Proof.
  destruct overlap_facts as (_ & _ & ? & _ & _ & ? & _). rewrite Hgs, in_gaps_app, in_gaps_cons. unfold in_gap.
  pose proof (g_sorted _ _ (s_gaps _ _ Hok)) as Hs. rewrite Hgs in Hs.
  apply sorted_mid in Hs as (_ & _ & Hp & Hr & _).
  intros [(a & Ha & Hx)|[?|(a & Ha & Hx)]]; unfold in_gap in *; [|lia|].
  - pose proof (Hp a Ha). lia.
  - pose proof (Hr a Ha). lia.
Qed.

(** An entry at [start] and the chain it begins. *)
Lemma replace_chain e :
  queue s !! start = Some e →
  (start < Start g ∧ chain (queue s) start (Start g)) ∨
  (start = End_ g ∧ ∃ n rest', rest = n :: rest' ∧ n ∈ gaps s ∧ chain (queue s) start (Start n) ∧
     (mid = [] ∧ end_ < Start n ∨ mid ≠ [] ∧ Start n = next_start ∧ Start n ≤ end_)).
Proof.
  intros He. pose proof overlap_facts as (Hg & Hh & ? & ? & ? & ? & ? & Hcase).
  assert (¬ in_gaps (gaps s) start) as Hno.
  { intros Hin. rewrite (no_entry_in_gap _ _ Hok) in He; done. }
  destruct (decide (start < Start g)) as [Hlt|Hge]; [left|right].
  { split; [done|]. apply (chain_to _ _ Hok _ e); [done|exists g; unfold in_gap; auto with lia|lia|].
    intros x Hx Hin. pose proof (gaps_in_range x ltac:(lia) Hin). lia. }
  assert (start = End_ g) as ->.
  { destruct (decide (start < End_ g)); [|lia]. exfalso. apply Hno. exists g. unfold in_gap. auto with lia. }
  split; [done|]. destruct rest as [|n rest'] eqn:Er.
  { destruct (g_last _ _ (s_gaps _ _ Hok)) as (l & Hl & HM). rewrite Hgs, last_snoc in Hl. simplify_eq. lia. }
  assert (n ∈ gaps s) as Hn by (rewrite Hgs; set_solver). pose proof (gap_bounds _ _ Hok n Hn).
  exists n, rest'. split_and!; [done|done|by eapply (chain_between _ _ Hok)|].
  destruct Hcase as [(_ & -> & <-)|(mid' & -> & Hr & _)]; [left|right].
  - split; [done|]. apply Hpost. set_solver.
  - split; [done|]. unfold next_start. simpl. destruct mid' as [|m mid']; simplify_list_eq; [done|].
    split; [done|]. pose proof (Hmid m ltac:(set_solver)). lia.
Qed.

Lemma replace_phase :
  ∃ r, replaceLoop (S (size (queue s))) data start end_ start (queue s) false [] = Some r ∧ replace_result r.
Proof.
  pose proof overlap_facts as (Hg & Hh & ? & ? & ? & ? & ? & Hcase).
  destruct (queue s !! start) as [e|] eqn:He.
  2:{ simpl. rewrite He. eexists. split; [done|]. right; right. exists false, []. simpl.
      rewrite cut_empty by lia. split_and!; [done| |done]. unfold replaced_some.
      destruct (decide (start = End_ g)) as [Es|]; [|lia].
      destruct (entry_at _ _ Hok (End_ g)) as [e He']; [lia|apply no_gap_at_end| |congruence].
      right; left. exists g. unfold in_gap. auto with lia. }
  assert (∀ x, start ≤ x < start + len (Data e) → ¬ in_gaps (gaps s) x) as Hspan.
  { by apply (s_entry _ _ Hok) in He as (_ & _ & ?). }
  destruct (replace_chain e He) as [[Hlt Hc]|(Hs & n & rest' & Hr & Hn & Hc & Hnext)].
  - edestruct (replaceLoop_spec (S (size (queue s))) data start end_ start (Start g) (queue s) false []) as (r & Hr & Ho);
      [apply Hok|done| |lia|lia|done|lia|].
    { apply (no_entry_in_gap _ _ Hok). exists g. unfold in_gap. auto with lia. }
    exists r. split; [done|]. destruct Ho as [(-> & _ & Hd)|[(put & -> & _ & Hfr)|(pos' & e' & put & -> & ? & ? & Hp & ? & _)]].
    + destruct Hd as (e' & He' & ?). simplify_eq. pose proof (entry_gap _ _ Hok start e g He Hg). lia.
    + right; right. exists true, put. simpl. destruct (Z.ltb_spec start (Start g)); [|lia].
      split_and!; [done|done| |done]. by left.
    + pose proof (entry_gap _ _ Hok pos' e' g Hp Hg). lia.
  - pose proof (gap_bounds _ _ Hok n Hn).
    edestruct (replaceLoop_spec (S (size (queue s))) data start end_ start (Start n) (queue s) false []) as (r & Hrun & Ho);
      [apply Hok|done| |lia|lia|done|lia|].
    { apply (no_entry_in_gap _ _ Hok). exists n. unfold in_gap. auto with lia. }
    pose proof (chain_le _ _ _ (s_queue _ _ Hok) Hc).
    exists r. split; [done|]. destruct Ho as [(-> & _ & Hd)|[(put & -> & ? & Hfr)|(pos' & e' & put & -> & ? & ? & Hp & ? & Hlt & Hfr)]].
    + left. split; [done|]. destruct Hd as (e' & He' & ?). simplify_eq. intros x Hx. apply Hspan. lia.
    + destruct Hnext as [[_ ?]|(Hm & Hns & _)]; [lia|]. right; right. exists true, put. simpl.
      destruct (Z.ltb_spec start (Start g)); [lia|]. rewrite <-Hns.
      assert (start ≠ Start n). { intros E. rewrite E in He.
        rewrite (no_entry_in_gap _ _ Hok) in He; [done|]. exists n. unfold in_gap. auto with lia. }
      destruct (Z.ltb_spec start (Start n)); [|lia]. split_and!; [done|by eexists| |done]. by right.
    + destruct Hnext as [[Hm ?]|(_ & _ & ?)].
      * right; left. exists pos', e', put. split_and!; try done; try lia.
      * pose proof (entry_gap _ _ Hok pos' e' n Hp Hn). lia.
Qed.

Definition replaced_to (has : bool) : Z :=
  if has then if start <? Start g then Start g else next_start else start.

(** The entries right after the start gap. *)
Lemma delete_after_start has mid' :
  mid = g :: mid' → replaced_some has →
  ∃ put, deleteConsecutive (End_ g) (cut start (replaced_to has) (queue s)) =
      (cut (lowest has) next_start (queue s), put) ∧
    frames (cut start (replaced_to has) (queue s)) ≡ₚ put ++ frames (cut (lowest has) next_start (queue s)).
Proof.
  intros Hm Hhas. pose proof overlap_facts as (Hg & Hh & ? & ? & ? & ? & ? & Hcase).
  assert (∃ n rest', n ∈ gaps s ∧ gaps s = pre ++ g :: n :: rest' ∧ next_start = Start n) as (n & rest' & Hn & Hgs' & ->).
  { rewrite Hgs, Hsplit, Hm. unfold next_start. rewrite Hm. simpl. destruct mid' as [|n mid'']; simpl.
    - exists h, post. split_and!; [set_solver|done..].
    - exists n, (mid'' ++ h :: post). split_and!; [set_solver|done..]. }
  pose proof (gap_bounds _ _ Hok n Hn). pose proof (chain_between _ _ Hok _ _ _ _ Hgs') as Hc.
  pose proof (chain_le _ _ _ (s_queue _ _ Hok) Hc).
  assert (queue s !! Start n = None) as Hnone.
  { apply (no_entry_in_gap _ _ Hok). exists n. unfold in_gap. auto with lia. }
  unfold replaced_to, lowest. destruct has; [|rewrite cut_empty by lia].
  2:{ apply deleteConsecutive_spec; [apply Hok|done..|lia]. }
  destruct (Z.ltb_spec start (Start g)).
  - rewrite <-(cut_across σ s g start (Start n)) by (done || lia).
    apply deleteConsecutive_spec; [apply queue_ok_cut, Hok|apply chain_cut; [apply Hok|done|lia]| |lia].
    destruct (cut _ _ _ !! _) eqn:E; [|done]. apply lookup_cut in E as [? _]. congruence.
  - destruct Hhas as [_ [?|[Es _]]]; [lia|].
    assert (next_start = Start n) as ->.
    { unfold next_start. rewrite Hm. rewrite Hgs, Hsplit, Hm in Hgs'. simplify_list_eq.
      destruct mid'; simplify_list_eq; done. }
    pose proof (deleteConsecutive_spec (End_ g) (End_ g) (cut start (Start n) (queue s))) as Hd.
    rewrite (cut_empty (End_ g) (End_ g)) in Hd by lia. apply Hd; [apply queue_ok_cut, Hok|constructor| |lia].
    destruct (cut _ _ _ !! _) as [e'|] eqn:E; [|done]. apply lookup_cut in E as [E Hn']. exfalso. apply Hn'.
    destruct (q_entry _ (s_queue _ _ Hok) _ _ E) as (_ & ? & _). pose proof (entry_gap _ _ Hok _ _ n E Hn). lia.
Qed.

Lemma between_phase has mid' (G : option byteInterval) :
  mid = g :: mid' → replaced_some has →
  let els := (Some <$> pre) ++ G :: (Some <$> rest) in
  ∃ put,
    (let '(q, put) := deleteConsecutive (End_ g) (cut start (replaced_to has) (queue s)) in
     '(els, q, put') ← removeBetween (length els) (S (length pre)) (Start h) els q;
     Some (els, q, put ++ put')) =
    Some ((Some <$> pre) ++ G :: replicate (length mid') None ++ (Some <$> h :: post),
          cut (lowest has) (Start h) (queue s), put) ∧
    frames (cut start (replaced_to has) (queue s)) ≡ₚ put ++ frames (cut (lowest has) (Start h) (queue s)).
Proof.
  intros Hm Hhas els. pose proof overlap_facts as (Hg & Hh & ? & ? & ? & ? & ? & Hcase).
  destruct (delete_after_start has mid' Hm Hhas) as (put & -> & Hput).
  assert (rest = mid' ++ h :: post) as Hr by (rewrite Hm in Hsplit; by simplify_list_eq).
  destruct (removeBetween_spec σ s pre g mid' h post (length els) (lowest has) (S (length pre))
    ((Some <$> pre) ++ [G]) Hok) as (put' & Hrem & Hfr).
  { by rewrite Hgs, Hr. }
  { unfold lowest. destruct has; lia. }
  { rewrite length_app, length_fmap. simpl. lia. }
  { unfold els. rewrite Hr, length_app. simpl. rewrite !length_fmap, length_app. simpl. lia. }
  assert (els = ((Some <$> pre) ++ [G]) ++ (Some <$> mid' ++ h :: post)) as Hels.
  { unfold els. by rewrite Hr, <-app_assoc. }
  unfold next_start in *. rewrite Hm in *. simpl tail in *. rewrite <-Hels in Hrem. rewrite Hrem. simpl.
  exists (put ++ put'). split; [by rewrite <-app_assoc|]. by rewrite Hput, Hfr, app_assoc.
Qed.

(** The start gap's element after [adjustStart]: its left part, or when the frame
    covers its start, its right part. *)
Definition start_element : option byteInterval :=
  if Start g <? start then left_part g start else right_part g end_.

Lemma adjustStart_spec has :
  replaced_some has →
  ∃ wasCut, adjustStart data start end_ startsIn has false (length pre) g (Some <$> gaps s) =
    Some (drop (Z.to_nat (entry_start has - start)) data, entry_start has, wasCut,
          (Some <$> pre) ++ start_element :: (Some <$> rest), (Start g <? start) && negb has).
Proof.
  intros Hhas. pose proof overlap_facts as (Hg & Hh & ? & ? & ? & ? & ? & Hcase).
  assert (∀ G, <[length pre := G]> (Some <$> gaps s) = (Some <$> pre) ++ G :: (Some <$> rest)) as Hset.
  { intros G. rewrite Hgs, fmap_app, fmap_cons.
    replace (length pre) with (length (Some <$> pre)) by apply length_fmap. apply insert_mid. }
  assert (Some <$> gaps s = (Some <$> pre) ++ Some g :: (Some <$> rest)) as Hels by (by rewrite Hgs, fmap_app).
  assert (start_element = if Start g <? start then Some (MkByteInterval (Start g) start)
    else if end_ >=? End_ g then None else Some (MkByteInterval end_ (End_ g))) as Helt.
  { unfold start_element, left_part, right_part. destruct (Z.ltb_spec (Start g) start); [done|].
    destruct (Z.ltb_spec end_ (End_ g)), (Z.geb_spec end_ (End_ g)); try lia; done. }
  rewrite Helt. unfold adjustStart, Remove, SetValue, entry_start in *. rewrite !Hset. clear Helt.
  destruct startsIn, has; simpl in *; rewrite ?Z.sub_diag, ?drop_0; eexists.
  - destruct Hhas as [_ [?|[Es Hm]]]; [lia|]. destruct (Z.leb_spec start (Start g)), (Z.ltb_spec (Start g) start); try lia.
    rewrite Hels, Es. by destruct g.
  - destruct (Z.leb_spec start (Start g)), (Z.ltb_spec (Start g) start); try lia; [|by rewrite Hset].
    by destruct (end_ >=? End_ g).
  - destruct (Z.leb_spec start (Start g)), (Z.ltb_spec (Start g) start); try lia.
    by destruct (end_ >=? End_ g).
  - unfold MaxByteCount in *. rewrite i64_small, slice_from_drop by lia. simpl.
    rewrite Z.leb_refl. destruct (Z.ltb_spec (Start g) start); [lia|]. by destruct (end_ >=? End_ g).
Qed.

(** The data that [adjustEnd] leaves. *)
Lemma entry_bounds has :
  replaced_some has → start ≤ entry_start has < entry_end ∧ entry_start has < End_ h ∧ entry_end ≤ end_.
Proof.
  intros Hhas. pose proof overlap_facts as (Hg & Hh & ? & ? & ? & ? & ? & Hcase).
  assert (End_ g ≤ End_ h) by (destruct Hcase as [(-> & _ & _)|(? & _ & _ & ?)]; lia).
  assert (start < End_ h) as Hsh.
  { destruct has; [|unfold replaced_some in Hhas; lia]. destruct Hhas as [_ [?|[? Hm]]]; [lia|].
    destruct Hcase as [(_ & ? & _)|(? & _ & _ & ?)]; [done|lia]. }
  unfold entry_start, entry_end. destruct startsIn, has; simpl; lia.
Qed.

Lemma adjustEnd_spec has wasCut (els : elements_of_gaps) equal adjusted i j :
  replaced_some has →
  let data' := drop (Z.to_nat (entry_start has - start)) data in
  ∃ wasCut', adjustEnd data' (entry_start has) end_ endsIn equal adjusted wasCut i j g h els =
    Some (take (Z.to_nat (entry_end - entry_start has)) data', wasCut',
      if endsIn then
        if equal && adjusted then InsertAfter (MkByteInterval end_ (End_ g)) i els
        else if negb equal then SetValue j (MkByteInterval end_ (End_ h)) els else els
      else if negb equal then Remove j els else els).
Proof.
  intros Hhas data'. pose proof (entry_bounds has Hhas) as (? & ? & ?).
  pose proof overlap_facts as (_ & _ & _ & _ & _ & _ & ? & _).
  assert (len data' = end_ - entry_start has) as Hlen.
  { unfold data', len in *. rewrite length_drop. lia. }
  unfold adjustEnd. unfold entry_end in *. destruct endsIn; simpl in *.
  - rewrite (Z.min_l end_) in * by lia. rewrite take_ge by (unfold len in Hlen; lia).
    destruct (Z.eqb_spec end_ (End_ h)); [lia|]. eexists. repeat case_match; done.
  - rewrite (Z.min_r end_) in * by lia. destruct (Z.eqb_spec (entry_start has) (End_ h)); [lia|]. simpl.
    destruct (Z.gtb_spec end_ (End_ h)).
    + unfold MaxByteCount in *. rewrite i64_small, slice_to_take by lia. simpl. rewrite Z.eqb_refl. by eexists.
    + assert (end_ = End_ h) as Ee by lia. rewrite take_ge by (unfold len in Hlen; lia). simpl.
      destruct (Z.eqb_spec end_ (End_ h)); [|lia]. by eexists.
Qed.

Lemma entry_data has :
  replaced_some has →
  let data' := take (Z.to_nat (entry_end - entry_start has)) (drop (Z.to_nat (entry_start has - start)) data) in
  len data' = entry_end - entry_start has ∧ agrees σ (entry_start has) data'.
Proof.
  intros Hhas data'. pose proof (entry_bounds has Hhas) as (? & ? & ?). split.
  - unfold data', len in *. rewrite length_take, length_drop. lia.
  - apply agrees_take. replace (entry_start has) with (start + Z.of_nat (Z.to_nat (entry_start has - start))) at 1 by lia.
    by apply agrees_drop.
Qed.

Lemma omap_id_app (l k : elements_of_gaps) : omap id (l ++ k) = omap id l ++ omap id k.
Proof. apply omap_app. Qed.
Lemma omap_id_Some (l : list byteInterval) : omap id (Some <$> l) = l.
Proof. induction l; simpl; [done|]. by f_equal. Qed.
Lemma omap_id_None n : omap id (replicate n (None : option byteInterval)) = [].
Proof. by induction n. Qed.
Lemma omap_id_cons (o : option byteInterval) l : omap id (o :: l) = option_list o ++ omap id l.
Proof. by destruct o. Qed.

Lemma elements_between mid' :
  mid = g :: mid' →
  let els := (Some <$> pre) ++ start_element :: replicate (length mid') None ++ (Some <$> h :: post) in
  let j := (length pre + length mid)%nat in
  omap id (if endsIn then SetValue j (MkByteInterval end_ (End_ h)) els else Remove j els) =
    subtracted pre g h post start end_.
Proof.
  intros Hm els j. pose proof overlap_facts as (Hg & Hh & ? & ? & ? & ? & ? & Hcase).
  assert (End_ g < Start h) by (destruct Hcase as [(_ & E & _)|(? & _ & _ & ?)]; [by rewrite E in Hm|done]).
  set (els0 := (Some <$> pre) ++ start_element :: replicate (length mid') None).
  assert (length els0 = j) as Hj.
  { unfold els0, j. rewrite Hm, length_app, length_fmap. simpl. rewrite length_replicate. lia. }
  assert (∀ G, <[j := G]> els = els0 ++ G :: (Some <$> post)) as Hset.
  { intros G. rewrite <-Hj, <-(insert_mid els0 (Some <$> post) (Some h) G). f_equal.
    unfold els, els0. by rewrite <-app_assoc. }
  assert ((if endsIn then SetValue j (MkByteInterval end_ (End_ h)) els else Remove j els) =
    els0 ++ right_part h end_ :: (Some <$> post)) as ->.
  { unfold SetValue, Remove. rewrite !Hset. unfold right_part.
    destruct endsIn, (Z.ltb_spec end_ (End_ h)); try lia; done. }
  assert (start_element = left_part g start) as Hse.
  { unfold start_element, left_part, right_part. destruct (_ <? _); [done|].
    destruct (Z.ltb_spec end_ (End_ g)); [lia|done]. }
  unfold els0, subtracted. rewrite !omap_id_app, omap_id_cons, omap_id_cons, !omap_id_Some, omap_id_None, Hse.
  by rewrite app_nil_r, <-app_assoc.
Qed.

Lemma elements_equal has :
  mid = [] → replaced_some has →
  let els := (Some <$> pre) ++ start_element :: (Some <$> rest) in
  omap id (if endsIn then
      if (Start g <? start) && negb has then InsertAfter (MkByteInterval end_ (End_ g)) (length pre) els else els
    else els) = subtracted pre g h post start end_.
Proof.
  intros Hm Hhas els. pose proof overlap_facts as (Hg & Hh & ? & ? & ? & ? & ? & Hcase).
  destruct Hcase as [(Egh & _ & Er)|(? & E & _)]; [|by rewrite E in Hm].
  unfold subtracted. rewrite <-Egh in *. rewrite Er in *.
  assert (Start g <? start = true → has = false) as Hh'.
  { intros ?. destruct has; [|done]. destruct Hhas as [_ [?|[_ ?]]]; [lia|done]. }
  destruct endsIn.
  - destruct (Z.ltb_spec (Start g) start) as [Hlt|Hge].
    + rewrite Hh' by done. simpl. unfold InsertAfter, els, start_element, left_part, right_part. rewrite Er.
      destruct (Z.ltb_spec (Start g) start), (Z.ltb_spec end_ (End_ g)); try lia. simpl.
      assert (length ((Some <$> pre) ++ [Some (MkByteInterval (Start g) start)]) = S (length pre)) as El.
      { rewrite length_app, length_fmap. simpl. lia. }
      rewrite (cons_middle _ (Some <$> pre)), (app_assoc (Some <$> pre)), <-El, take_app_length, drop_app_length.
      rewrite <-app_assoc, !omap_id_app. simpl. by rewrite !omap_id_Some.
    + simpl. unfold els. rewrite Er, omap_id_app, omap_id_cons, !omap_id_Some. f_equal.
      unfold start_element, left_part. destruct (Z.ltb_spec (Start g) start); [lia|done].
  - unfold els. rewrite Er, omap_id_app, omap_id_cons, !omap_id_Some. f_equal.
    unfold start_element, left_part, right_part.
    destruct (Z.ltb_spec (Start g) start), (Z.ltb_spec end_ (End_ g)); try lia; done.
Qed.

(** No entry lies in the end gap. *)
Lemma cut_through m lo : m ∈ gaps s → cut lo (Start m) (queue s) = cut lo (End_ m) (queue s).
Proof.
  intros Hm. pose proof (gap_bounds _ _ Hok m Hm). apply map_eq. intros p. apply option_eq. intros e.
  rewrite !lookup_cut. split; [|intros [? ?]; split; [done|lia]].
  intros [Hp ?]. split; [done|]. destruct (q_entry _ (s_queue _ _ Hok) p e Hp) as (_ & ? & _).
  destruct (entry_gap _ _ Hok p e m Hp Hm); lia.
Qed.

(** The last part of [push]: the buffer, the limit on gaps and the insertion. *)
Lemma finish frame data' a (wasCut : bool) q gs put put' :
  (∀ frame', sorter_ok σ (MkSorter (<[a := MkEntry data' frame']> q) (readPos s) gs)) → q !! a = None →
  (∀ x, in_gaps gs x ↔ in_gaps (gaps s) x ∧ ¬ (start ≤ x < end_)) →
  frames (queue s) ≡ₚ put ++ put' ++ frames q →
  ∃ err s' putAll,
    (let '(frame, put'') :=
       if wasCut && (len data' <? MinStreamFrameBufferSize) then (None, PutBack frame) else (frame, []) in
     let put := put ++ put' ++ put'' in
     if len gs >? MaxStreamFrameSorterGaps
     then Some (Some errTooManyGaps, MkSorter q (readPos s) gs, put)
     else Some (None, MkSorter (<[a := MkEntry data' frame]> q) (readPos s) gs, put)) =
    Some (err, s', putAll) ∧ pushed σ s start end_ frame err s' putAll.
Proof.
  intros Hins Ha Hsub Hfr. assert (gaps_ok (readPos s) gs) as Hgok by apply (Hins None).
  set (c := wasCut && _). clearbody c.
  destruct (Z.gtb_spec (len gs) MaxStreamFrameSorterGaps) as [Hgt|Hle].
  - destruct c; eexists _, _, _; (split; [done|]); right; simpl; split_and!; try done; right; done.
  - destruct c; eexists _, _, _; (split; [done|]); right; simpl; split_and!; try done; left;
      split_and!; try done; try lia.
    + rewrite frames_insert by done. rewrite Hfr. simpl. rewrite <-!app_assoc. unfold PutBack.
      solve_Permutation.
    + rewrite frames_insert by done. rewrite Hfr. simpl. rewrite app_nil_r, <-app_assoc. solve_Permutation.
Qed.

(** The frame ends inside the entries right after the start gap. *)
Lemma overlap_inside pos' e put :
  start = End_ g → mid = [] → start < pos' ≤ end_ → queue s !! pos' = Some e → is_Some (queue s !! start) →
  frames (queue s) ≡ₚ put ++ frames (cut start pos' (queue s)) →
  let data' := take (Z.to_nat (pos' - start)) data in
  (∀ frame', sorter_ok σ (MkSorter (<[start := MkEntry data' frame']> (cut start pos' (queue s)))
     (readPos s) (gaps s))) ∧
  cut start pos' (queue s) !! start = None ∧
  (∀ x, in_gaps (gaps s) x ↔ in_gaps (gaps s) x ∧ ¬ (start ≤ x < end_)).
Proof.
  intros Es Hm Hp He [e0 He0] Hfr data'. pose proof overlap_facts as (Hg & Hh & ? & ? & ? & ? & ? & Hcase).
  destruct Hcase as [(Egh & _ & Er)|(? & E & _)]; [|by rewrite E in Hm].
  assert (∀ x, start ≤ x < end_ → ¬ in_gaps (gaps s) x) as Hno.
  { intros x Hx Hin. pose proof (gaps_in_range x Hx Hin). rewrite <-Egh in *. lia. }
  assert (∀ x, in_gaps (gaps s) x ↔ in_gaps (gaps s) x ∧ ¬ (start ≤ x < end_)) as Hsub.
  { intros x. split; [|tauto]. intros Hin. split; [done|]. intros Hx. by apply (Hno x). }
  destruct (s_entry _ _ Hok _ _ He0) as (? & _ & _).
  assert (∀ frame', sorter_ok σ (MkSorter (<[start := MkEntry data' frame']> (cut start pos' (queue s)))
     (readPos s) (gaps s)) ∧ cut start pos' (queue s) !! start = None) as Hins.
  { intros frame'. apply (sorter_insert σ s start end_ start pos'); try done; try lia.
    - apply Hok.
    - unfold data', len in *. rewrite length_take. lia.
    - by apply agrees_take.
    - intros x Hx Hin. by destruct (Hno x).
    - intros p e' [Hp' ?]%lookup_cut. split; [done|]. destruct (decide (p < start)) as [Hlt|]; [|lia].
      pose proof (q_disjoint _ (s_queue _ _ Hok) p e' start e0 Hp' He0 Hlt). lia.
    - intros p e' Hp'. destruct (decide (start ≤ p < pos')) as [[? Hlt]|]; [right|left; by apply lookup_cut].
      pose proof (q_disjoint _ (s_queue _ _ Hok) p e' pos' e Hp' He Hlt). lia. }
  split_and!; [apply Hins|apply (Hins None)|done].
Qed.

(** Both cases of the middle part: nothing to do when start and end gap are the
    same, the entries and gaps between them otherwise. *)
Lemma middle_phase has put :
  replaced_some has → frames (queue s) ≡ₚ put ++ frames (cut start (replaced_to has) (queue s)) →
  let els := (Some <$> pre) ++ start_element :: (Some <$> rest) in
  ∃ put',
    (if negb (Nat.eqb (length pre) (length pre + length mid)) then
       let '(q, put) := deleteConsecutive (End_ g) (cut start (replaced_to has) (queue s)) in
       '(els, q, put') ← removeBetween (length els) (S (length pre)) (Start h) els q;
       Some (els, q, put ++ put')
     else Some (els, cut start (replaced_to has) (queue s), [])) =
    Some (match mid with
          | [] => els
          | _ :: mid' => (Some <$> pre) ++ start_element :: replicate (length mid') None ++ (Some <$> h :: post)
          end, cut (lowest has) (End_ h) (queue s), put') ∧
    frames (queue s) ≡ₚ put ++ put' ++ frames (cut (lowest has) (End_ h) (queue s)).
Proof.
  intros Hhas Hfr els. pose proof overlap_facts as (Hg & Hh & ? & ? & ? & ? & ? & Hcase).
  destruct Hcase as [(Egh & Hm & Er)|(mid' & Hm & Er & ?)].
  - rewrite Hm, Nat.add_0_r, Nat.eqb_refl. simpl.
    assert (cut start (replaced_to has) (queue s) = cut (lowest has) (End_ h) (queue s)) as Hq.
    { rewrite <-Egh. unfold replaced_to, lowest. destruct has.
      - destruct Hhas as [_ [?|[_ ?]]]; [|done]. destruct (Z.ltb_spec start (Start g)); [|lia].
        by apply cut_through.
      - by rewrite !cut_empty by lia. }
    rewrite Hq in *. by exists [].
  - rewrite <-(cut_through h) by done.
    destruct (between_phase has mid' start_element Hm Hhas) as (put' & Hb & Hfr').
    assert (Nat.eqb (length pre) (length pre + length mid) = false) as ->.
    { apply Nat.eqb_neq. rewrite Hm. simpl. lia. }
    exists put'. split; [|by rewrite Hfr, Hfr'].
    destruct mid as [|m0 mid0]; [done|]. injection Hm as -> ->. exact Hb.
Qed.

(** The list of gaps at the end. *)
Lemma final_elements has :
  replaced_some has →
  let equal := Nat.eqb (length pre) (length pre + length mid) in
  let els := match mid with
    | [] => (Some <$> pre) ++ start_element :: (Some <$> rest)
    | _ :: mid' => (Some <$> pre) ++ start_element :: replicate (length mid') None ++ (Some <$> h :: post)
    end in
  omap id (if endsIn then
      if equal && ((Start g <? start) && negb has)
      then InsertAfter (MkByteInterval end_ (End_ g)) (length pre) els
      else if negb equal then SetValue (length pre + length mid) (MkByteInterval end_ (End_ h)) els else els
    else if negb equal then Remove (length pre + length mid) els else els) =
  subtracted pre g h post start end_.
Proof.
  intros Hhas equal els.
  destruct (decide (mid = [])) as [Hm|Hm].
  - rewrite <-(elements_equal has Hm Hhas).
    assert (equal = true) as -> by (unfold equal; rewrite Hm, Nat.add_0_r; apply Nat.eqb_refl).
    assert (els = (Some <$> pre) ++ start_element :: (Some <$> rest)) as -> by (unfold els; by rewrite Hm).
    simpl. repeat case_match; done.
  - pose proof overlap_facts as (_ & _ & _ & _ & _ & _ & _ & [(_ & ? & _)|(mid' & Hm' & _ & _)]); [done|].
    rewrite <-(elements_between mid' Hm').
    assert (equal = false) as -> by (unfold equal; rewrite Hm'; simpl; apply Nat.eqb_neq; lia).
    simpl. f_equal. assert (els = (Some <$> pre) ++ start_element :: replicate (length mid') None ++
      (Some <$> h :: post)) as -> by (unfold els; by rewrite Hm'). done.
Qed.

Lemma pushOverlap_spec frame :
  ∃ err s' put,
    pushOverlap data start end_ frame (length pre) startsIn g (length pre + length mid) endsIn h s =
      Some (err, s', put) ∧ pushed σ s start end_ frame err s' put.
Proof.
  pose proof overlap_facts as (Hg & Hh & ? & ? & ? & ? & ? & Hcase). unfold pushOverlap.
  destruct replace_phase as (r & -> & Hr). cbn [mbind option_bind].
  destruct Hr as [[-> Hno]|[(pos' & e & put & -> & Es & Hm & Hp & He & Hs0 & Hfr)|(has & put & Hr)]].
  - eexists _, _, _. split; [done|]. by left.
  - destruct (overlap_inside pos' e put) as (Hins & Ha & Hsub); try done.
    assert (startsIn = true) as -> by (destruct startsIn; [done|lia]).
    destruct Hcase as [(Egh & _ & _)|(? & E & _)]; [|by rewrite E in Hm]. 
    assert (endsIn = false) as -> by (destruct endsIn; [rewrite <-Egh in *; lia|done]).
    rewrite Hm, Nat.add_0_r, Nat.eqb_refl, <-Egh. unfold adjustStart. simpl.
    destruct (Z.leb_spec start (Start g)); [lia|]. simpl. unfold adjustEnd.
    destruct (Z.eqb_spec start (End_ g)); [|lia]. simpl.
    destruct (Z.eqb_spec pos' (End_ g)); [lia|]. simpl. rewrite omap_id_Some.
    by apply (finish frame _ start true _ _ put []).
  - cbv zeta in Hr. fold (replaced_to has) in Hr. destruct Hr as (-> & Hhas & Hfr).
    destruct (adjustStart_spec has Hhas) as (wasCut & ->). cbn [mbind option_bind].
    destruct (middle_phase has put Hhas Hfr) as (put' & -> & Hfr'). cbn [mbind option_bind].
    edestruct adjustEnd_spec as (wasCut' & ->); [exact Hhas|]. cbn [mbind option_bind].
    rewrite (final_elements has Hhas). destruct (entry_data has Hhas) as [Hlen Hag].
    pose proof (λ frame', overlap_insert has frame' _ Hhas Hlen Hag) as Hins.
    apply finish; [apply Hins|apply (Hins None)| |done].
    pose proof (s_gaps _ _ Hok) as Hgok. rewrite Hgs in Hgok.
    intros x. rewrite Hgs. apply (subtracted_in (readPos s) start end_ pre mid post rest); try done; lia.
Qed.
End overlap.

(** ** The whole of [push] *)

(** The fast path subtracts like the general one. *)
Lemma pushInOrder_spec σ s data start end_ frame s' :
  sorter_ok σ s → len data = end_ - start → agrees σ start data → start < end_ < MaxByteCount →
  pushInOrder data start end_ frame s = Some s' → pushed σ s start end_ frame None s' [].
Proof.
  intros Hok Hlen Hag Hr. unfold pushInOrder. destruct (Z.eqb_spec start (readPos s)) as [Hs|]; [|done].
  destruct (queue s !! start) eqn:Hq; [done|]. destruct (gaps s) as [|g rest] eqn:Hgs; [done|].
  destruct ((Start g =? start) && (end_ <=? End_ g)) eqn:Hc; [|done]. intros [= <-].
  assert (g ∈ gaps s) as Hg by (rewrite Hgs; set_solver). pose proof (gap_bounds _ _ Hok g Hg).
  pose proof (s_gaps _ _ Hok) as Hgok. rewrite Hgs in Hgok.
  pose proof (g_sorted _ _ Hgok) as Hsort. apply (sorted_mid []) in Hsort as (_ & _ & _ & Hgr & _).
  set (gs := if end_ =? End_ g then rest else _).
  assert (gs = subtracted [] g g rest start end_) as Hsubt.
  { unfold gs, subtracted, left_part, right_part.
    destruct (Z.ltb_spec (Start g) start); [lia|]. simpl.
    destruct (Z.eqb_spec end_ (End_ g)), (Z.ltb_spec end_ (End_ g)); try lia; done. }
  assert (∀ p, p ∈ rest → end_ < Start p) as Hpost by (intros p Hp; pose proof (Hgr p Hp); lia).
  assert (gaps_ok (readPos s) gs) as Hok'.
  { rewrite Hsubt. apply (subtracted_ok _ _ _ [] [] rest rest); try done; try lia; set_solver. }
  assert (∀ x, in_gaps gs x ↔ in_gaps (gaps s) x ∧ ¬ (start ≤ x < end_)) as Hsub.
  { intros x. rewrite Hsubt, Hgs.
    apply (subtracted_in (readPos s) start end_ [] [] rest rest g g); try done; try lia; set_solver. }
  right. simpl. split_and!; [done..|]. left. split_and!; [done| | |].
  - apply (sorter_insert σ s start end_ start end_); try done; try lia.
    + intros p e Hp. split; [done|]. destruct (s_entry _ _ Hok p e Hp) as (? & _ & _).
      destruct (entry_gap _ _ Hok p e g Hp Hg) as [?|?]; [|lia].
      destruct (q_entry _ (s_queue _ _ Hok) p e Hp) as (_ & ? & _). lia.
    + auto.
  - rewrite Hgs. unfold gs. destruct (end_ =? End_ g); rewrite ?len_cons; lia.
  - simpl. by rewrite frames_insert.
Qed.

(** A range that ends before [g] and starts after the gaps before it. *)
Lemma no_gap_between lo pre g rest start end_ :
  gaps_ok lo (pre ++ g :: rest) → (∀ a, a ∈ pre → End_ a < start) → end_ ≤ Start g →
  ∀ x, start ≤ x < end_ → ¬ in_gaps (pre ++ g :: rest) x.
Proof.
  intros [Hs Hb _] Hpre Hend x Hx. rewrite in_gaps_app, in_gaps_cons. unfold in_gap.
  apply sorted_mid in Hs as (_ & _ & _ & Hgr & _). pose proof (Hb g ltac:(set_solver)).
  intros [(a & Ha & Hax)|[?|(a & Ha & Hax)]]; unfold in_gap in *; [|lia|].
  - pose proof (Hpre a Ha). lia.
  - pose proof (Hgr a Ha). lia.
Qed.

(** Both searches on a frame that ends after the start of the first gap: the end
    gap is the start gap or a later one, or, when the frame ends before the start
    gap, the one before it. *)
Lemma gap_search σ s start end_ front gs :
  sorter_ok σ s → start < end_ < MaxByteCount → gaps s = front :: gs → Start front < end_ →
  ∃ pre g rest b, gaps s = pre ++ g :: rest ∧ findStartGap start 0 (gaps s) = Some (length pre, b) ∧
    gaps s !! length pre = Some g ∧ (∀ a, a ∈ pre → End_ a < start) ∧
    (if b : bool then Start g ≤ start ≤ End_ g else start < Start g) ∧
    ((∃ mid h post b', g :: rest = mid ++ h :: post ∧
        findEndGap end_ (length pre) (drop (length pre) (gaps s)) = Some ((length pre + length mid)%nat, b') ∧
        gaps s !! (length pre + length mid)%nat = Some h ∧
        (∀ m, m ∈ mid → End_ m ≤ end_) ∧ (∀ p, p ∈ post → end_ < Start p) ∧
        (if b' : bool then Start h ≤ end_ < End_ h else End_ h ≤ end_)) ∨
     (∃ pre' h, pre = pre' ++ [h] ∧ end_ < Start g ∧ gaps s !! length pre' = Some h ∧
        findEndGap end_ (length pre) (drop (length pre) (gaps s)) = Some (length pre', false))).
Proof.
  intros Hok Hr Hgs Hfront. destruct (s_gaps _ _ Hok) as [Hsort Hbounds (l & Hlast & HM)].
  destruct (findStartGap_spec start 0 (gaps s)) as (pre & g & rest & b & Hsplit & Hfind & Hpre & Hb).
  { exists l. split; [by apply last_Some_elem_of|lia]. }
  exists pre, g, rest, b. split_and!; try done; [by rewrite Hsplit, lookup_mid|].
  replace (drop (length pre) (gaps s)) with (g :: rest) by (by rewrite Hsplit, drop_app_length).
  destruct (findEndGap_spec end_ (length pre) (g :: rest)) as
    [(mid & h & post & b' & Hsplit2 & Hf & Hmid & Hpost & Hb')|(g' & post & [= <- <-] & Hend & Hf)].
  { rewrite Hsplit in Hsort. by apply StronglySorted_app in Hsort as (_ & _ & ?). }
  { intros k Hk. apply Hbounds. rewrite Hsplit. set_solver. }
  { exists l. split; [|lia]. rewrite Hsplit, last_app in Hlast.
    destruct (last (g :: rest)) eqn:E; [|by apply last_None in E]. simplify_eq. by apply last_Some_elem_of. }
  - left. exists mid, h, post, b'. split_and!; try done.
    rewrite Hsplit, Hsplit2, app_assoc, <-length_app. apply lookup_mid.
  - right. destruct pre as [|h pre _] using rev_ind.
    { rewrite Hsplit in Hgs. simplify_list_eq. lia. }
    exists pre, h. rewrite length_app, Nat.add_1_r in *. split_and!; try done.
    rewrite Hsplit, <-app_assoc. apply lookup_mid.
Qed.

Lemma push_spec σ s data offset frame :
  sorter_ok σ s → 0 ≤ offset → offset + len data < MaxByteCount → agrees σ offset data →
  ∃ err s' put, push data offset frame s = Some (err, s', put) ∧
    pushed σ s offset (offset + len data) frame err s' put.
Proof.
  intros Hok Ho Hmax Hag. unfold push. destruct (Z.eqb_spec (len data) 0) as [Hz|Hz].
  { eexists _, _, _. split; [done|]. left. split_and!; try done. lia. }
  pose proof (len_nonneg data). rewrite i64_small by (unfold MaxByteCount in *; lia).
  set (end_ := offset + len data) in *. assert (len data = end_ - offset) as Hlen by (unfold end_; lia).
  assert (offset < end_) as Hlt by (unfold end_; lia). clearbody end_.
  destruct (pushInOrder data offset end_ frame s) as [s'|] eqn:Hfast.
  { eexists _, _, _. split; [done|]. eapply pushInOrder_spec; eauto. }
  pose proof (s_gaps _ _ Hok) as Hgok.
  destruct (gaps s) as [|front gs] eqn:Hgs; [by destruct (g_last _ _ Hgok) as (? & ? & _)|].
  cbn [head mbind option_bind]. rewrite <-Hgs in *.
  destruct (Z.leb_spec end_ (Start front)) as [Hdup|Hfront].
  { eexists _, _, _. split; [done|]. left. split_and!; try done.
    rewrite Hgs in Hgok |- *. apply (no_gap_between (readPos s) []); [done|set_solver|done]. }
  destruct (gap_search σ s offset end_ front gs) as
    (pre & g & rest & b & Hsplit & -> & Hg & Hpre & Hb & Hcase); [done..|].
  rewrite Hsplit in Hgok. assert (Start g < End_ g) by (apply Hgok; set_solver).
  pose proof (sorted_mid _ _ _ (g_sorted _ _ Hgok)) as (_ & _ & Hbefore & Hafter & _).
  cbn [mbind option_bind].
  destruct Hcase as [(mid & h & post & b' & Hsplit2 & -> & Hh & Hmid & Hpost & Hb')|(pre' & h & -> & Hend & Hh & ->)];
    cbn [mbind option_bind]; rewrite Hg, Hh; cbn [mbind option_bind]; destruct (_ || _) eqn:Hcond.
  1,3: eexists _, _, _; (split; [done|]); left; split_and!; try done; rewrite Hsplit;
    apply (no_gap_between (readPos s)); [done..|lia].
  - eapply pushOverlap_spec; eauto. destruct mid as [|m mid']; simpl in *.
    + rewrite Nat.add_0_r, Nat.eqb_refl in Hcond. simpl in Hcond. lia.
    + simplify_list_eq. pose proof (Hmid m ltac:(set_solver)). lia.
  - rewrite length_app in Hcond. pose proof (Hbefore h ltac:(set_solver)).
    assert (Start h < End_ h) by (apply Hgok; set_solver).
    assert (Nat.eqb (length pre' + length [h]) (length pre') = false) as En by (apply Nat.eqb_neq; simpl; lia).
    rewrite En in Hcond. simpl in Hcond. lia.
Qed.
