(* ===== verification/FrameSorterProps.v ===== *)
(** * Stream reassembly: theorems

    Any interleaving of pushes of pieces of one stream and of pops.  The bytes
    popped are the stream's, in order and without a hole; nothing that was pushed
    is lost; every frame's buffer is released exactly once. *)

From S2P Require Import Prelude Protocol FrameSorter FrameSorterFacts FrameSorterPush.

Lemma sorter_ok_new σ : sorter_ok σ newFrameSorter.
Proof.
  constructor; simpl.
  - done.
  - constructor; simpl.
    + repeat constructor.
    + intros g ->%list_elem_of_singleton. simpl. unfold MaxByteCount. lia.
    + by eexists.
  - constructor; intros p e; by rewrite lookup_empty.
  - intros p e. by rewrite lookup_empty.
  - intros x Hx. left. exists (MkByteInterval 0 MaxByteCount). split; [by left|done].
Qed.

Lemma readPos_bound σ s : sorter_ok σ s → 0 ≤ readPos s < MaxByteCount.
Proof.
  intros Hok. destruct (g_last _ _ (s_gaps _ _ Hok)) as (l & Hl & _).
  apply last_Some_elem_of in Hl. pose proof (gap_bounds _ _ Hok l Hl). pose proof (s_pos _ _ Hok). lia.
Qed.

(** ** Pop *)

Definition popped (σ : Z → Z) (s : frameSorter) (d : option bytes) (frame : option StreamFrame)
    (s' : frameSorter) : Prop :=
  match d with
  | Some data =>
      0 < len data ∧ readPos s' = readPos s + len data ∧ agrees σ (readPos s) data ∧
      ¬ in_gaps (gaps s) (readPos s) ∧
      frames (queue s) ≡ₚ option_list frame ++ frames (queue s')
  | None => s' = s ∧ frame = None ∧ in_gaps (gaps s) (readPos s)
  end.

Lemma Pop_spec σ s :
  sorter_ok σ s →
  ∃ d frame s', Pop s = Some (readPos s, d, frame, s') ∧ popped σ s d frame s' ∧
    sorter_ok σ s' ∧ gaps s' = gaps s.
Proof.
  intros Hok. pose proof (readPos_bound _ _ Hok). unfold Pop.
  destruct (queue s !! readPos s) as [e|] eqn:He.
  2:{ eexists _, _, _. split; [done|]. split_and!; try done.
      destruct (s_cover _ _ Hok (readPos s)) as [?|(p & e & Hp & Hx)]; [lia|done|].
      destruct (s_entry _ _ Hok p e Hp) as (? & _). assert (p = readPos s) as -> by lia. congruence. }
  destruct (s_entry _ _ Hok _ _ He) as (_ & Hag & Hno). destruct (q_entry _ (s_queue _ _ Hok) _ _ He) as (_ & Hlen & Hmax).
  unfold MaxByteCount in *. rewrite i64_small by lia.
  assert (∀ g, g ∈ gaps s → readPos s + len (Data e) ≤ Start g < End_ g) as Hg.
  { intros g Hg. pose proof (gap_bounds _ _ Hok g Hg). destruct (entry_gap _ _ Hok _ _ g He Hg); lia. }
  destruct (s_gaps _ _ Hok) as [Hs Hb Hl].
  destruct (gaps s) as [|front gs] eqn:Hgs; [by destruct Hl as (? & ? & _)|]. simpl.
  pose proof (Hg front ltac:(set_solver)). destruct (Z.leb_spec (End_ front) (readPos s + len (Data e))); [lia|].
  eexists _, _, _. split; [done|]. rewrite <-Hgs in *. split_and!; try done; simpl.
  - split_and!; try done; [apply Hno; lia|by apply frames_delete].
  - constructor; simpl.
    + lia.
    + constructor; [done| |done]. intros g Hin. pose proof (Hb g Hin). pose proof (Hg g Hin). lia.
    + apply queue_ok_delete, Hok.
    + intros p e' [Hne Hp]%lookup_delete_Some. destruct (s_entry _ _ Hok p e' Hp) as (? & ? & ?).
      split_and!; try done. apply (q_disjoint _ (s_queue _ _ Hok) _ _ _ _ He Hp). lia.
    + intros x Hx. destruct (s_cover _ _ Hok x) as [?|(p & e' & Hp & Hpx)]; [lia|by left|]. right.
      exists p, e'. split; [|done]. rewrite lookup_delete_ne; [done|]. intros <-. simplify_eq. lia.
Qed.

(** ** Runs *)

Inductive sorter_op :=
  | OpPush (data : bytes) (offset : Z) (frame : option StreamFrame)
  | OpPop.

(** The error that ended the run if any, the bytes popped, and the frames
    released, put back or handed to the reader. *)
Fixpoint sorter_run (ops : list sorter_op) (s : frameSorter) :
    option (option SorterError * frameSorter * bytes * list StreamFrame) :=
  match ops with
  | [] => Some (None, s, [], [])
  | OpPush data offset frame :: ops =>
      '(err, s, put) ← Push data offset frame s;
      match err with
      | Some e => Some (Some e, s, [], put)
      | None => '(err, s, out, released) ← sorter_run ops s; Some (err, s, out, put ++ released)
      end
  | OpPop :: ops =>
      '(_, data, frame, s) ← Pop s;
      '(err, s, out, released) ← sorter_run ops s;
      Some (err, s, default [] data ++ out, option_list frame ++ released)
  end.

(** A piece of the stream [σ] within the range of offsets. *)
Definition op_ok (σ : Z → Z) (op : sorter_op) : Prop :=
  match op with
  | OpPush data offset _ => 0 ≤ offset ∧ offset + len data < MaxByteCount ∧ agrees σ offset data
  | OpPop => True
  end.

Definition op_covers (x : Z) (op : sorter_op) : Prop :=
  match op with OpPush data offset _ => offset ≤ x < offset + len data | OpPop => False end.

#[global] Instance op_covers_dec x op : Decision (op_covers x op).
Proof. destruct op; simpl; apply _. Defined.

Definition op_frames (op : sorter_op) : list StreamFrame :=
  match op with OpPush _ _ frame => option_list frame | OpPop => [] end.

Lemma Push_spec σ s data offset frame :
  sorter_ok σ s → 0 ≤ offset → offset + len data < MaxByteCount → agrees σ offset data →
  ∃ err s' put, Push data offset frame s = Some (err, s', put) ∧
    (err = Some errTooManyGaps ∨
     err = None ∧ sorter_ok σ s' ∧ readPos s' = readPos s ∧
     (∀ x, in_gaps (gaps s') x ↔ in_gaps (gaps s) x ∧ ¬ (offset ≤ x < offset + len data)) ∧
     len (gaps s') ≤ Z.max (len (gaps s)) MaxStreamFrameSorterGaps ∧
     option_list frame ++ frames (queue s) ≡ₚ put ++ frames (queue s')).
Proof.
  intros Hok Ho Hm Hag. destruct (push_spec σ s data offset frame Hok Ho Hm Hag) as (err & s' & put & Hp & Hr).
  unfold Push. rewrite Hp. cbn [mbind option_bind].
  destruct Hr as [(-> & -> & -> & Hno)|(Hpos & _ & Hsub & [(-> & Hok' & Hl & Hfr)|(-> & _)])].
  - rewrite bool_decide_true by done. eexists _, _, _. split; [done|]. right. split_and!; try done; [|lia].
    intros x. split; [|tauto]. intros Hin. split; [done|]. intros Hx. by apply (Hno x).
  - rewrite bool_decide_false by done. eexists _, _, _. split; [done|]. right. by split_and!.
  - rewrite bool_decide_false by done. eexists _, _, _. split; [done|]. by left.
Qed.

Lemma agrees_app σ a l k : agrees σ a l → agrees σ (a + len l) k → agrees σ a (l ++ k).
Proof.
  intros Hl Hk i b [Hi|[Hge Hi]]%lookup_app_Some; [by apply Hl|]. apply Hk in Hi as ->. f_equal.
  unfold len. lia.
Qed.

(** What a run reports, from a state [s] to [s']. *)
Lemma sorter_run_spec σ ops s :
  Forall (op_ok σ) ops → sorter_ok σ s →
  ∃ err s' out released, sorter_run ops s = Some (err, s', out, released) ∧
    (err = Some errTooManyGaps ∨
     err = None ∧ sorter_ok σ s' ∧ readPos s' = readPos s + len out ∧ agrees σ (readPos s) out ∧
     (∀ x, in_gaps (gaps s') x ↔ in_gaps (gaps s) x ∧ ¬ Exists (op_covers x) ops) ∧
     len (gaps s') ≤ Z.max (len (gaps s)) MaxStreamFrameSorterGaps ∧
     (ops ≫= op_frames) ++ frames (queue s) ≡ₚ released ++ frames (queue s')).
Proof.
  intros Hops. revert s. induction Hops as [|op ops Hop Hops IH]; intros s Hok; cbn [sorter_run].
  { eexists _, _, _, _. split; [done|]. right. rewrite (len_nil (A := Z)).
    split_and!; [done|done|lia|by intros i b; rewrite lookup_nil| |lia|done].
    intros x. rewrite Exists_nil. tauto. }
  setoid_rewrite Exists_cons. destruct op as [data offset frame|].
  - destruct Hop as (Ho & Hm & Hag).
    destruct (Push_spec σ s data offset frame Hok Ho Hm Hag) as (err & s1 & put & -> & Hp). cbn [mbind option_bind].
    destruct Hp as [->|(-> & Hok1 & Hpos & Hsub & Hl & Hfr)].
    { eexists _, _, _, _. split; [done|]. by left. }
    destruct (IH s1 Hok1) as (err & s' & out & rel & -> & Hrun). cbn [mbind option_bind].
    eexists _, _, _, _. split; [done|]. destruct Hrun as [->|(-> & Hok' & Hpos' & Hag' & Hsub' & Hl' & Hfr')]; [by left|].
    right. rewrite Hpos in *. split_and!; try done; [|lia|].
    + intros x. rewrite Hsub', Hsub. simpl. tauto.
    + simpl. trans ((ops ≫= op_frames) ++ (option_list frame ++ frames (queue s))); [solve_Permutation|].
      rewrite Hfr. trans (put ++ ((ops ≫= op_frames) ++ frames (queue s1))); [solve_Permutation|].
      rewrite Hfr'. solve_Permutation.
  - destruct (Pop_spec σ s Hok) as (d & frame & s1 & -> & Hp & Hok1 & Hg1). cbn [mbind option_bind].
    destruct (IH s1 Hok1) as (err & s' & out & rel & -> & Hrun). cbn [mbind option_bind].
    eexists _, _, _, _. split; [done|]. destruct Hrun as [->|(-> & Hok' & Hpos' & Hag' & Hsub' & Hl' & Hfr')]; [by left|].
    right. rewrite Hg1 in *.
    assert (readPos s1 = readPos s + len (default [] d) ∧ agrees σ (readPos s) (default [] d) ∧
      frames (queue s) ≡ₚ option_list frame ++ frames (queue s1)) as (Hpos & Hag & Hfr).
    { destruct d as [data|]; simpl in *; [by destruct Hp as (_ & ? & ? & _ & ?)|]. destruct Hp as (-> & -> & _).
      rewrite (len_nil (A := Z)). split_and!; [lia|by intros i b; rewrite lookup_nil|done]. }
    split_and!; try done.
    + rewrite len_app. lia.
    + apply agrees_app; [done|]. by rewrite <-Hpos.
    + intros x. rewrite Hsub'. simpl. tauto.
    + simpl. rewrite Hfr. trans (option_list frame ++ ((ops ≫= op_frames) ++ frames (queue s1))); [solve_Permutation|].
      rewrite Hfr'. solve_Permutation.
Qed.

(** The bytes of [σ] from [a] on. *)
Definition piece (σ : Z → Z) (a : Z) (n : nat) : bytes := (λ i, σ (a + Z.of_nat i)) <$> seq 0 n.

Lemma agrees_piece σ a n : agrees σ a (piece σ a n).
Proof.
  intros i b Hi. unfold piece in Hi. apply list_lookup_fmap_Some in Hi as (j & -> & Hj).
  apply lookup_seq in Hj as [-> _]. done.
Qed.
Lemma len_piece σ a n : len (piece σ a n) = Z.of_nat n.
Proof. unfold len, piece. by rewrite length_fmap, length_seq. Qed.

(** ** Theorems *)

(** C3: Pieces of a stream pushed in any order, overlapping or repeated, and pops
    in between: no call panics; unless more than 1000 gaps make it fail, the
    bytes popped are the stream from offset 0 to the read position, and the gaps
    are exactly the offsets that no push covered. *)
Theorem stream_is_reassembled σ ops :
  Forall (op_ok σ) ops →
  ∃ err s out released, sorter_run ops newFrameSorter = Some (err, s, out, released) ∧
    (err = Some errTooManyGaps ∨
     err = None ∧ len out = readPos s ∧ agrees σ 0 out ∧ len (gaps s) ≤ MaxStreamFrameSorterGaps ∧
     ∀ x, 0 ≤ x < MaxByteCount → in_gaps (gaps s) x ↔ ¬ Exists (op_covers x) ops).
Proof.
  intros Hops. destruct (sorter_run_spec σ ops _ Hops (sorter_ok_new σ)) as (err & s & out & rel & Hrun & Hr).
  exists err, s, out, rel. split; [done|]. destruct Hr as [?|(-> & _ & Hpos & Hag & Hsub & Hl & _)]; [by left|].
  change (len (gaps newFrameSorter)) with 1 in Hl. simpl in Hpos. unfold MaxStreamFrameSorterGaps in *.
  right. split_and!; [done|lia|done|lia|]. intros x Hx. rewrite Hsub. split; [tauto|]. intros Hn.
  split; [|done]. exists (MkByteInterval 0 MaxByteCount). split; [by left|done].
Qed.

Definition sample_stream (x : Z) : Z := (7 * x) `mod` 256.

(** Out of order, overlapping, and a piece that bridges a gap. *)
Definition sample_pushes : list sorter_op :=
  [OpPush (piece sample_stream 10 5) 10 (Some 1); OpPush (piece sample_stream 0 3) 0 (Some 2); OpPop;
   OpPush (piece sample_stream 20 5) 20 (Some 3); OpPush (piece sample_stream 2 20) 2 (Some 4); OpPop].

Lemma sample_pushes_ok : Forall (op_ok sample_stream) sample_pushes.
Proof.
  unfold sample_pushes. repeat constructor; simpl; rewrite ?len_piece; unfold MaxByteCount; try lia;
    apply agrees_piece.
Qed.

Lemma stream_is_reassembled_witness :
  (res ← sorter_run sample_pushes newFrameSorter; Some (res.1.1.1, res.1.2, gaps res.1.1.2)) =
    Some (None, piece sample_stream 0 20, [MkByteInterval 25 MaxByteCount]) ∧
  ∃ err s out released, sorter_run sample_pushes newFrameSorter = Some (err, s, out, released) ∧
    (err = Some errTooManyGaps ∨
     err = None ∧ len out = readPos s ∧ agrees sample_stream 0 out ∧ len (gaps s) ≤ MaxStreamFrameSorterGaps ∧
     ∀ x, 0 ≤ x < MaxByteCount → in_gaps (gaps s) x ↔ ¬ Exists (op_covers x) sample_pushes).
Proof.
  split; [vm_compute; reflexivity|]. apply stream_is_reassembled, sample_pushes_ok.
Defined.

(** C17: Nothing that was pushed is withheld: after any run that did not fail, a pop
    returns data exactly when the next byte of the stream has been pushed, and
    the data is the stream's. *)
Theorem pushed_data_is_delivered σ ops s out released :
  Forall (op_ok σ) ops → sorter_run ops newFrameSorter = Some (None, s, out, released) →
  ∃ d frame s', Pop s = Some (len out, d, frame, s') ∧
    (is_Some d ↔ Exists (op_covers (len out)) ops) ∧
    ∀ data, d = Some data → 0 < len data ∧ agrees σ (len out) data ∧ readPos s' = len out + len data.
Proof.
  intros Hops Hrun. destruct (sorter_run_spec σ ops _ Hops (sorter_ok_new σ)) as (err & s1 & out1 & rel1 & Hrun1 & Hr).
  rewrite Hrun in Hrun1. simplify_eq. destruct Hr as [?|(_ & Hok & Hpos & _ & Hsub & _)]; [done|].
  simpl in Hpos. pose proof (readPos_bound _ _ Hok).
  destruct (Pop_spec σ s1 Hok) as (d & frame & s' & HPop & Hp & _). exists d, frame, s'.
  assert (in_gaps (gaps s1) (readPos s1) ↔ ¬ Exists (op_covers (readPos s1)) ops) as Hin.
  { rewrite Hsub. split; [tauto|]. intros Hn. split; [|done].
    exists (MkByteInterval 0 MaxByteCount). split; [by left|unfold in_gap; simpl; lia]. }
  rewrite Z.add_0_l in Hpos. rewrite <-Hpos. split_and!; [done| |].
  - destruct d as [data|]; simpl in Hp.
    + destruct Hp as (_ & _ & _ & Hn & _). split; [intros _|eauto]. rewrite Hin in Hn.
      destruct (decide (Exists (op_covers (readPos s1)) ops)) as [?|?]; [done|tauto].
    + destruct Hp as (_ & _ & Hg). apply Hin in Hg. split; [by intros [? ?]|tauto].
  - intros data ->. destruct Hp as (? & ? & ? & _). done.
Qed.

Definition sample_sorter : frameSorter :=
  default newFrameSorter (res ← sorter_run sample_pushes newFrameSorter; Some res.1.1.2).

Lemma pushed_data_is_delivered_witness :
  sorter_run sample_pushes newFrameSorter =
    Some (None, sample_sorter, piece sample_stream 0 20, [2; 1; 4]) ∧
  ∃ d frame s', Pop sample_sorter = Some (len (piece sample_stream 0 20), d, frame, s') ∧
    (is_Some d ↔ Exists (op_covers (len (piece sample_stream 0 20))) sample_pushes) ∧
    ∀ data, d = Some data → 0 < len data ∧ agrees sample_stream (len (piece sample_stream 0 20)) data ∧
      readPos s' = len (piece sample_stream 0 20) + len data.
Proof.
  split; [vm_compute; reflexivity|].
  apply (pushed_data_is_delivered sample_stream sample_pushes _ _ [2; 1; 4] sample_pushes_ok).
  vm_compute. reflexivity.
Defined.

(** C22: Every frame handed to the sorter has its buffer released exactly once or
    is still queued: in a run that did not fail, the frames pushed are, as a
    multiset, those put back, those handed to the reader and those in the queue. *)
Theorem frames_released_once σ ops s out released :
  Forall (op_ok σ) ops → sorter_run ops newFrameSorter = Some (None, s, out, released) →
  ops ≫= op_frames ≡ₚ released ++ frames (queue s).
Proof.
  intros Hops Hrun. destruct (sorter_run_spec σ ops _ Hops (sorter_ok_new σ)) as (err & s1 & out1 & rel1 & Hrun1 & Hr).
  rewrite Hrun in Hrun1. simplify_eq. destruct Hr as [?|(_ & _ & _ & _ & _ & _ & Hfr)]; [done|].
  by rewrite app_nil_r in Hfr.
Qed.

Lemma frames_released_once_witness :
  sample_pushes ≫= op_frames ≡ₚ [2; 1; 4] ++ frames (queue sample_sorter).
Proof.
  apply (frames_released_once sample_stream sample_pushes sample_sorter (piece sample_stream 0 20) [2; 1; 4] sample_pushes_ok).
  vm_compute. reflexivity.
Defined.

(** ** Peek *)

(** [pos] is not inside an entry. *)
Definition boundary (q : gmap Z frameSorterEntry) (pos : Z) : Prop :=
  ∀ p e, q !! p = Some e → p < pos → p + len (Data e) ≤ pos.

Lemma boundary_next q pos e : queue_ok q → q !! pos = Some e → boundary q (pos + len (Data e)).
Proof.
  intros Hq He p e' Hp Hlt. destruct (Z.lt_trichotomy p pos) as [Hpp|[->|Hpp]]; [|simplify_eq; lia|].
  - pose proof (q_disjoint q Hq p e' pos e Hp He Hpp). destruct (q_entry q Hq pos e He) as (_ & ? & _). lia.
  - pose proof (q_disjoint q Hq pos e p e' He Hp Hpp). lia.
Qed.

Lemma boundary_key q pos e : queue_ok q → q !! pos = Some e → boundary q pos.
Proof. intros Hq He p e' Hp Hlt. by apply (q_disjoint q Hq p e' pos e). Qed.

Lemma boundary_holds q pos : queue_ok q → boundary q pos → holds q pos → is_Some (q !! pos).
Proof.
  intros Hq Hb (p & e & Hp & Hx). destruct (decide (p < pos)) as [Hlt|].
  - pose proof (Hb p e Hp Hlt). lia.
  - assert (p = pos) as -> by lia. eauto.
Qed.

Lemma peekCheck_spec fuel pos n q :
  queue_ok q → boundary q pos → 0 ≤ n < Z.of_nat fuel →
  ∃ b, peekCheck fuel pos n q = Some b ∧
    if b : bool then ∀ x, pos ≤ x < pos + n → holds q x
    else ∃ x, pos ≤ x < pos + n ∧ ¬ holds q x.
Proof.
  intros Hq. revert pos n. induction fuel as [|fuel IH]; intros pos n Hb Hf; [lia|]. cbn [peekCheck].
  destruct (Z.gtb_spec n 0) as [Hn|Hn].
  2:{ exists true. split; [done|]. intros x Hx. lia. }
  destruct (q !! pos) as [e|] eqn:He.
  2:{ exists false. split; [done|]. exists pos. split; [lia|]. intros Hh.
      destruct (boundary_holds q pos Hq Hb Hh) as [? ?]. congruence. }
  destruct (q_entry q Hq pos e He) as (? & ? & ?).
  assert (∀ x, pos ≤ x < pos + len (Data e) → holds q x) as Hhere by (intros x Hx; by exists pos, e).
  destruct (Z.leb_spec n (len (Data e))).
  { exists true. split; [done|]. intros x Hx. apply Hhere. lia. }
  unfold MaxByteCount in *. rewrite i64_small by lia.
  destruct (IH (pos + len (Data e)) (n - len (Data e))) as (b & -> & Hb'); [by apply boundary_next|lia|].
  exists b. split; [done|]. destruct b.
  - intros x Hx. destruct (decide (x < pos + len (Data e))); [apply Hhere; lia|]. apply Hb'. lia.
  - destruct Hb' as (x & Hx & ?). exists x. split; [lia|done].
Qed.

Lemma peekCopy_spec σ s fuel pos n :
  sorter_ok σ s → boundary (queue s) pos → 0 ≤ n ≤ Z.of_nat fuel →
  (∀ x, pos ≤ x < pos + n → holds (queue s) x) →
  ∃ d, peekCopy fuel pos n (queue s) = Some d ∧ len d = n ∧ agrees σ pos d.
Proof.
  intros Hok. pose proof (s_queue _ _ Hok) as Hq. revert pos n.
  induction fuel as [|fuel IH]; intros pos n Hb Hf Hall; cbn [peekCopy];
    destruct (Z.leb_spec n 0) as [Hn|Hn]; try lia.
  1,2: exists []; split_and!; [done|rewrite (len_nil (A := Z)); lia|by intros i b; rewrite lookup_nil].
  destruct (boundary_holds (queue s) pos Hq Hb) as [e He]; [apply Hall; lia|]. rewrite He.
  destruct (q_entry _ Hq pos e He) as (? & ? & ?). destruct (s_entry _ _ Hok pos e He) as (_ & Hag & _).
  unfold MaxByteCount in *. rewrite i64_small by lia.
  destruct (IH (pos + len (Data e)) (n - Z.min n (len (Data e)))) as (d & -> & Hd & Hag').
  { by apply boundary_next. }
  { lia. }
  { intros x Hx. apply Hall. lia. }
  cbn [mbind option_bind]. eexists. split; [done|]. split.
  - rewrite len_app, Hd. unfold len in *. rewrite length_take. lia.
  - apply agrees_app; [by apply agrees_take|]. destruct (decide (n ≤ len (Data e))).
    + assert (d = []) as ->; [|by intros i b; rewrite lookup_nil]. apply len_0_nil. lia.
    + rewrite take_ge by (unfold len in *; lia). done.
Qed.

(** Peeking [n] bytes from an offset where a queued frame starts returns the
    stream's next [n] bytes if all of them are queued, and the error that there is
    too little data otherwise. *)
Theorem peek_returns_stream σ s offset n :
  sorter_ok σ s → is_Some (queue s !! offset) → 0 ≤ n →
  (∃ d, Peek offset n s = Some (Ok d) ∧ len d = n ∧ agrees σ offset d ∧
     ∀ x, offset ≤ x < offset + n → holds (queue s) x) ∨
  (Peek offset n s = Some (Err errTooLittleData) ∧
     ∃ x, offset ≤ x < offset + n ∧ ¬ holds (queue s) x).
Proof.
  intros Hok [e He] Hn. pose proof (s_queue _ _ Hok) as Hq. unfold Peek.
  destruct (Z.eqb_spec n 0) as [->|].
  { left. exists []. split_and!; [done|done|by intros i b; rewrite lookup_nil|lia]. }
  pose proof (boundary_key _ _ _ Hq He) as Hb.
  destruct (peekCheck_spec (S (Z.to_nat n)) offset n (queue s) Hq Hb) as ([] & -> & Hiff); [lia|..]; cbn [mbind option_bind].
  - left. destruct (peekCopy_spec σ s (Z.to_nat n) offset n Hok Hb) as (d & -> & ? & ?); [lia|done|]. by exists d.
  - right. done.
Qed.

Lemma sorter_ok_sample : sorter_ok sample_stream sample_sorter.
Proof.
  destruct (sorter_run_spec sample_stream sample_pushes _ sample_pushes_ok (sorter_ok_new _))
    as (err & s & out & rel & Hrun & Hr).
  assert (sorter_run sample_pushes newFrameSorter =
    Some (None, sample_sorter, piece sample_stream 0 20, [2; 1; 4])) as E by (vm_compute; reflexivity).
  rewrite E in Hrun. simplify_eq. by destruct Hr as [?|(_ & ? & _)].
Qed.

Lemma peek_returns_stream_witness :
  Peek 20 3 sample_sorter = Some (Ok (piece sample_stream 20 3)) ∧
  Peek 20 6 sample_sorter = Some (Err errTooLittleData) ∧
  ((∃ d, Peek 20 3 sample_sorter = Some (Ok d) ∧ len d = 3 ∧ agrees sample_stream 20 d ∧
     ∀ x, 20 ≤ x < 20 + 3 → holds (queue sample_sorter) x) ∨
  (Peek 20 3 sample_sorter = Some (Err errTooLittleData) ∧
     ∃ x, 20 ≤ x < 20 + 3 ∧ ¬ holds (queue sample_sorter) x)).
Proof.
  split; [vm_compute; reflexivity|]. split; [vm_compute; reflexivity|].
  apply peek_returns_stream; [apply sorter_ok_sample|by eexists|lia].
Defined.
