(* ===== verification/StreamTransfer.v ===== *)
(** * A stream from end to end

    The frames that a sending stream ([SendStreamProps]) has sent arrive at the
    frame sorter of the peer ([FrameSorterProps]): lost, reordered, repeated as the
    network likes.  The receiving stream pushes the data of each frame at its
    offset and the reader pops. *)

From S2P Require Import Prelude Protocol FrameSorter FrameSorterFacts FrameSorterPush FrameSorterProps.
From S2P Require Import QuicVarint WireBase WireFrames WireStream FlowControl SendStream SendStreamFacts SendStreamWriting SendStreamSending SendStreamClosing SendStreamFlight SendStreamProps.

(** A frame arrives, in some buffer; the application reads. *)
Inductive Arrival :=
  | Arrives (f : StreamFrame) (buffer : FrameSorter.StreamFrame)
  | Reads.

Definition sorter_call (a : Arrival) : sorter_op :=
  match a with
  | Arrives f buffer => OpPush (sf_Data f) (sf_Offset f) (Some buffer)
  | Reads => OpPop
  end.

(** Only what was sent arrives. *)
Definition from_sender (w : World) (a : Arrival) : Prop :=
  match a with Arrives f _ => f ∈ w_sent w | Reads => True end.

(** The byte of [W] at an offset. *)
Definition byte_at (W : bytes) (x : Z) : Z := default 0 (W !! Z.to_nat x).

Lemma agrees_part W off n : 0 ≤ off → agrees (byte_at W) off (part W off n).
Proof.
  intros Hoff i b Hi. unfold part in Hi. apply lookup_take_Some in Hi as [Hi _]. rewrite lookup_drop in Hi.
  unfold byte_at. replace (Z.to_nat (off + Z.of_nat i)) with (Z.to_nat off + i)%nat by lia. by rewrite Hi.
Qed.

Lemma agrees_prefix W out : agrees (byte_at W) 0 out → len out ≤ len W → out `prefix_of` W.
Proof.
  intros Ha Hl. exists (drop (length out) W). rewrite <-(take_drop (length out) W) at 1. f_equal.
  apply list_eq. intros i. destruct (decide (i < length out)%nat) as [Hi|Hi].
  - rewrite lookup_take_lt by done. destruct (lookup_lt_is_Some_2 out i Hi) as [b Hb]. rewrite Hb.
    rewrite (Ha i b Hb). unfold byte_at. rewrite Z.add_0_l, Nat2Z.id.
    destruct (lookup_lt_is_Some_2 W i) as [b' ->]; [unfold len in Hl; lia|done].
  - rewrite (lookup_ge_None_2 out i) by lia. apply lookup_ge_None_2. rewrite length_take. lia.
Qed.

Section transfer.
Context (w : World) (arrivals : list Arrival).
Context (Hsent : Forall (carried w) (w_sent w)) (Hlen : len (written w) < MaxByteCount).
Context (Hfrom : Forall (from_sender w) arrivals).

Lemma arrivals_ok : Forall (op_ok (byte_at (written w))) (sorter_call <$> arrivals).
Proof.
  apply Forall_fmap. eapply Forall_impl; [exact Hfrom|]. intros [f b|] Hf; [|done]. cbn in *.
  destruct (proj1 (Forall_forall _ _) Hsent f Hf) as (_ & Hoff & _ & Hdata & Hend & _).
  split_and!; [done|lia|]. rewrite Hdata. by apply agrees_part.
Qed.

Lemma arrivals_cover x :
  Exists (op_covers x) (sorter_call <$> arrivals) ↔ ∃ f b, Arrives f b ∈ arrivals ∧ within f x.
Proof.
  rewrite Exists_fmap, Exists_exists. split.
  - intros ([f b|] & Ha & Hx); [|done]. by exists f, b.
  - intros (f & b & Ha & Hx). by exists (Arrives f b).
Qed.

Lemma transfer_run :
  ∃ err s out released, sorter_run (sorter_call <$> arrivals) newFrameSorter = Some (err, s, out, released) ∧
    (err = Some errTooManyGaps ∨
     err = None ∧ sorter_ok (byte_at (written w)) s ∧ readPos s = len out ∧ out `prefix_of` written w ∧
     ∀ x, 0 ≤ x < MaxByteCount → in_gaps (gaps s) x ↔ ¬ ∃ f b, Arrives f b ∈ arrivals ∧ within f x).
Proof.
  destruct (sorter_run_spec _ _ _ arrivals_ok (sorter_ok_new _)) as (err & s & out & rel & E & Hr).
  exists err, s, out, rel. split; [done|]. destruct Hr as [?|(-> & Hok & Hpos & Hag & Hgaps & _)]; [by left|right].
  change (readPos newFrameSorter) with 0 in *. rewrite Z.add_0_l in Hpos.
  assert (∀ x, 0 ≤ x < MaxByteCount → in_gaps (gaps s) x ↔ ¬ ∃ f b, Arrives f b ∈ arrivals ∧ within f x) as Hg.
  { intros x Hx. rewrite Hgaps, arrivals_cover. split; [tauto|]. intros Hn. split; [|done].
    exists (MkByteInterval 0 MaxByteCount). split; [by left|done]. }
  split_and!; [done|done|done| |done]. apply agrees_prefix; [done|].
  pose proof (readPos_bound _ _ Hok) as Hb. destruct (decide (len out ≤ len (written w))) as [|Hgt]; [done|exfalso].
  pose proof (len_nonneg (written w)).
  destruct (decide (Exists (op_covers (len out - 1)) (sorter_call <$> arrivals))) as [Hc|Hc].
  - apply arrivals_cover in Hc as (f & b & Ha & Hx). pose proof (proj1 (Forall_forall _ _) Hfrom _ Ha) as Hf.
    destruct (proj1 (Forall_forall _ _) Hsent f Hf) as (_ & _ & _ & _ & Hend & _). unfold within in Hx. lia.
  - rewrite arrivals_cover in Hc. apply Hg in Hc as (g & Hin & Hx); [|lia].
    pose proof (gap_bounds _ _ Hok g Hin). unfold in_gap in Hx. lia.
Qed.

(** A reader who has nothing left to pop. *)
Lemma transfer_complete s out released :
  sorter_run (sorter_call <$> arrivals) newFrameSorter = Some (None, s, out, released) →
  (∀ f, f ∈ w_acked w → ∃ b, Arrives f b ∈ arrivals) →
  (∀ i, 0 ≤ i < len (written w) → covered (w_acked w) i) →
  (∃ pos frame s', Pop s = Some (pos, None, frame, s')) → out = written w.
Proof.
  intros E Hacked Hcov (pos & frame & s' & HPop).
  destruct transfer_run as (err & s1 & out1 & rel1 & E1 & Hr). rewrite E in E1. injection E1 as <- <- <- <-.
  destruct Hr as [?|(_ & Hok & Hpos & Hpre & Hgaps)]; [done|].
  destruct (Pop_spec _ s Hok) as (d & frame1 & s2 & E2 & Hp & _). rewrite HPop in E2. injection E2 as _ <- _ _.
  destruct Hp as (_ & _ & Hin). pose proof (readPos_bound _ _ Hok). apply Hgaps in Hin; [|done].
  destruct Hpre as [k Hk]. destruct k as [|x k]; [by rewrite app_nil_r in Hk|exfalso]. apply Hin.
  assert (covered (w_acked w) (readPos s)) as Hc.
  { apply Hcov. rewrite Hk, len_app, len_cons. pose proof (len_nonneg k). lia. }
  apply Exists_exists in Hc as (f & Hf & Hx). destruct (Hacked f Hf) as [b Hb]. by exists f, b.
Qed.
End transfer.

(** C1: Bytes written to a stream come out at the other end in order.  After any
    run of the sending stream and a further operation, whatever frames of those
    sent arrive, in any order and any number of times, the reader gets a prefix of
    what was written, unless more than 1000 gaps make the receiver give up.  And if
    that operation has reported the stream complete, on a stream that is neither
    reset nor shut down, and the frames acknowledged have arrived, then a reader who
    finds nothing more to read has read everything that was written. *)
Theorem written_data_is_read append_cap id window maxWindow initial sup c es w e calls w' arrivals :
  vint id → 0 ≤ initial ≤ MaxByteCount → conn_range c → Forall event_ok es →
  timely append_cap es (newWorld id window maxWindow initial sup c) = true →
  run append_cap es (newWorld id window maxWindow initial sup c) = Ret w →
  event_ok e → late e w = false → step append_cap e w = Ret (calls, w') →
  len (written w') < MaxByteCount → Forall (from_sender w') arrivals →
  ∃ err s out released, sorter_run (sorter_call <$> arrivals) newFrameSorter = Some (err, s, out, released) ∧
    (err = Some errTooManyGaps ∨
     err = None ∧ out `prefix_of` written w' ∧
     (onStreamCompleted ∈ calls → st_resetErr (w_stream w') = None → st_shutdownErr (w_stream w') = None →
      (∀ f, f ∈ w_acked w' → ∃ b, Arrives f b ∈ arrivals) →
      (∃ pos frame s', Pop s = Some (pos, None, frame, s')) → out = written w')).
Proof.
  intros Hid Hw Hc Hes Ht Hrun He Hlate Hstep Hlen Hfrom.
  pose proof (reached append_cap id window maxWindow initial sup c Hid Hw Hc es w Hes Ht Hrun) as Hi.
  destruct (good_step append_cap e w Hi He Hlate) as (calls1 & w1 & E & Hi1 & Hfin).
  rewrite Hstep in E. injection E as <- <-. pose proof (inv_carried w' Hi1) as Hsent.
  destruct (transfer_run w' arrivals Hsent Hlen Hfrom) as (err & s & out & rel & Er & Hr).
  exists err, s, out, rel. split; [done|]. destruct Hr as [?|(-> & _ & _ & Hpre & _)]; [by left|right].
  split_and!; [done|done|]. intros Hdone Hr Hs Hacked.
  pose proof (finished_delivered w' Hi1 Hs (Hfin Hdone)) as Hd. unfold delivered in Hd. rewrite Hr in Hd.
  destruct Hd as [Hd _]. by eapply transfer_complete.
Qed.

(** The last acknowledgement of the sample run; the frames arrive in reverse order. *)
Definition transfer_end : World :=
  match step doubled (EvAcked 0) sample_end with Ret (_, w) => w | _ => sample_end end.
Definition transfer_arrivals : list Arrival :=
  ((λ f, Arrives f 1) <$> w_sent transfer_end) ++ [Reads; Reads; Reads].

Lemma written_data_is_read_witness :
  step doubled (EvAcked 0) sample_end = Ret ([onStreamCompleted], transfer_end) ∧
  ∃ s out released,
    sorter_run (sorter_call <$> transfer_arrivals) newFrameSorter = Some (None, s, out, released) ∧
    out = written transfer_end ∧ out = [1; 2; 3; 4; 5; 6; 7].
Proof.
  assert (step doubled (EvAcked 0) sample_end = Ret ([onStreamCompleted], transfer_end)) as Hstep by (vm_compute; reflexivity).
  assert (Forall (from_sender transfer_end) transfer_arrivals) as Hfrom.
  { apply Forall_app. split; [apply Forall_fmap, Forall_forall; intros f Hf; exact Hf|by repeat constructor]. }
  assert (∀ f, f ∈ w_acked transfer_end → ∃ b, Arrives f b ∈ transfer_arrivals) as Hacked.
  { assert (inv sample_end) as Hi.
    { apply (reached doubled 4 1000 1000 100000 true open_conn ltac:(by_decision) ltac:(by_decision) open_conn_range sample_events);
        [apply sample_events_ok|vm_compute; reflexivity|vm_compute; reflexivity]. }
    destruct (good_step doubled (EvAcked 0) sample_end Hi I eq_refl) as (calls & w' & E & Hi' & _).
    assert (inv transfer_end) as Hend by (unfold transfer_end; rewrite E; exact Hi').
    intros f Hf. exists 1. apply elem_of_app. left.
    apply list_elem_of_fmap. exists f. split; [reflexivity|]. exact (iv_acked _ Hend f Hf). }
  split; [exact Hstep|].
  destruct (written_data_is_read doubled 4 1000 1000 100000 true open_conn sample_events sample_end (EvAcked 0)
    [onStreamCompleted] transfer_end transfer_arrivals) as (err & s & out & rel & Er & Hr);
    [by_decision|by_decision|apply open_conn_range|apply sample_events_ok|vm_compute; reflexivity|vm_compute; reflexivity
    |exact I|reflexivity|exact Hstep|vm_compute; reflexivity|exact Hfrom|].
  assert (∃ s1 rel1, sorter_run (sorter_call <$> transfer_arrivals) newFrameSorter = Some (None, s1, [1; 2; 3; 4; 5; 6; 7], rel1) ∧
    ∃ pos frame s', Pop s1 = Some (pos, None, frame, s')) as (s1 & rel1 & Er1 & Hpop).
  { eexists _, _. split; [vm_compute; reflexivity|]. eexists _, _, _. vm_compute. reflexivity. }
  rewrite Er1 in Er. injection Er as <- <- <- <-.
  destruct Hr as [Hbad|(_ & _ & Hall)]; [discriminate Hbad|].
  eexists _, _, _. split; [exact Er1|]. split; [|reflexivity].
  apply Hall; [by left|vm_compute; reflexivity|vm_compute; reflexivity|exact Hacked|exact Hpop].
Defined.
